(* ===== verification/_CoqProject ===== *)
-Q . S2P
Prelude.v
Types.v
Rocks.v
Encoding.v
Mvcc.v
Engine.v
Index.v
Tx.v
Isolation.v
TwoPhase.v
Threads.v
LogStore.v
FullText.v
Cluster.v
Lexer.v
F64.v
Text.v
Records.v
Ast.v
Expression.v
Semantic.v
Planner.v
Debug.v
Relational.v
Grouping.v
Sorting.v
Operators.v
Executor.v
Execution.v
Service.v
Parser.v
Parsing.v
Printing.v
RoundTrip.v
Limits.v
Export.v
Import.v
Stream.v
Server.v
Node.v
Metrics.v
Mcp.v
Backup.v
Client.v
