(* ===== verification/Prelude.v ===== *)
(** * Synaptica: a verification library

    Synaptica is a distributed property-graph database in Rust. This library models its core and
    proves what makes it correct, and it records, as theorems too, where the code falls short of
    what it means to do. File names below are relative to src/crates.

    ** The program and the files of the library

    - Data model (synaptica-core: types.rs, graph.rs): [Types.v]. Values, durations, identifiers,
      nodes, edges and graph metadata, with their constructors and accessors.
    - Third parties: [Rocks.v]. RocksDB is the class [RocksDB] (point reads, forward iteration,
      atomic batches) with the laws [RocksDBLaws] (reads after a batch, iteration in byte order
      over exactly the stored cells); bincode is the class [Bincode] with the law that decoding
      inverts encoding. The instance [MemDB], a finite map, and [countable_bincode] satisfy the
      laws, so no hypothesis is empty, and run the witnesses. The file also holds the
      column families (cf.rs) and the storage errors.
    - Key encodings (synaptica-storage: encoding.rs): [Encoding.v]. Round trips, injectivity and
      the prefixes that scans use.
    - Storage engine (synaptica-storage: engine.rs, iterator.rs): [Engine.v]. Nodes and edges with
      the derived label and adjacency cells. The abstract state [graph] is three finite maps;
      [represents] says which cells a graph determines; each operation refines its abstract
      counterpart.
    - Property indexes (index.rs): [Index.v], with the order-preserving codes of values behind the
      class [OrderedCode]. Full-text index (fulltext.rs): [FullText.v], refining a set of postings.
    - Multi-version store (synaptica-storage: mvcc.rs): [Mvcc.v]. Versioned keys, the timestamp
      oracle, reads at a snapshot, scans, batches and garbage collection, against the
      specification [visible]: what the newest version at or below a timestamp says.
    - Transactions (synaptica-tx): [Tx.v]. Buffered writes and optimistic commit over [Mvcc.v]; a
      commit is the composition of the steps other threads can run between. [Tx.v] runs calls one
      after the other; in [Isolation.v] the steps of commits and all other calls interleave.
    - Two-phase commit (synaptica-cluster: distributed_tx.rs): [TwoPhase.v]. The decision log in
      memory and on file, and the coordinator for participants with any behaviour; the
      specification is a property of histories, [protocol]. [TwoPhase.v] runs calls one after the
      other; in [Threads.v] the pieces of the calls of any threads interleave.
    - Raft storage (synaptica-cluster: log_store.rs, state_machine.rs, raft.rs): [LogStore.v],
      over the Raft cells of [Engine.v], refining the abstract log and markers [raft_state].
    - Cluster metadata (synaptica-cluster: partition.rs, membership.rs, routing.rs, rebalance.rs,
      snapshot.rs): [Cluster.v].
    - Query language (synaptica-gql): tokens in [Lexer.v], the syntax tree in [Ast.v] (mutually
      inductive, with its induction principle), the recursive-descent parser in [Parser.v] (parser.rs,
      a state monad over the tokens left), that it ends and what it reads in [Parsing.v], a printer
      of programs in [Printing.v], with which it makes a round trip in [RoundTrip.v], its limits of
      nesting and documented syntax in [Limits.v]; the scope check and the catalog in [Semantic.v]
      (semantic.rs, catalog.rs), logical plans and the rewrite rule in [Planner.v] (planner.rs,
      optimizer.rs).
    - Evaluation (synaptica-exec: expression.rs, result.rs): [F64.v] (IEEE arithmetic on the bits of
      a float), [Text.v] (characters, trimming, parsing of numbers), [Records.v], [Expression.v].
    - Query execution (synaptica-exec: engine.rs): [Debug.v] (the debug texts that joins, DISTINCT
      and grouping use as keys), [Relational.v] (filter, projection, aggregation, limit, sort, join,
      distinct), whose theorems are in [Relational.v], [Grouping.v], [Sorting.v] and
      [Operators.v]; [Executor.v] (the operators on the storage, index selection, procedures,
      programs) with the theorems of [Execution.v].
    - Query service (synaptica-server: client_service.rs, and the applier of state_machine.rs on the
      executor): [Service.v]. The text of an export is read back by the parser in [Export.v], its import
      gives a copy of the graph in [Import.v], and the pieces it is sent in are in [Stream.v].
    - Server processes (synaptica-server: config.rs, main.rs, auth.rs): [Server.v], configuration,
      peers and the check of tokens. Nodes of a cluster (node.rs, cluster_service.rs and the cluster
      part of client_service.rs, and network.rs of synaptica-cluster): [Node.v], over a Raft node and
      a transport that are classes. Gauges (metrics.rs): [Metrics.v].
    - The MCP server (synaptica-mcp): [Mcp.v], the embedded and the remote backend and the texts of
      the tools. Backups (synaptica-storage: backup.rs, and the requests for them): [Backup.v], over a
      model of a file system. The command line client (synaptica-cli: main.rs): [Client.v].

    A query runs through them so: the service parses it (the class [QueryParser], whose instance
    [gql_parser] of [Export.v] is the parser of [Parser.v]), sends it to
    Raft when [is_write_query] holds on a cluster member, otherwise calls [execute_program], which
    plans the statements one after the other ([plan]), replaces filters over scans by index scans
    ([optimize]) and executes the plan bottom-up ([execute_node]) on the storage engine of
    [Engine.v] and the indexes of [Index.v]. The Raft log store ([LogStore.v]) calls the same
    program through its class [QueryEngine]; [apply_write] is that applier on the executor.

    This file is the prelude: results and the loops of the code, bytes, big-endian integers, the
    byte order of keys, UTF-8, generic lemmas on lists and the shared tactics.

    ** How code is represented

    A stateful component is a Record passed in and out. [Result] is [result] with its monad; an
    operation that writes several times returns the state together with the outcome, so earlier
    writes of a failed call are kept. A u64 is an integer of Z with its wrapping ([wrap64]) or
    saturation written out; a float is its 64 bits; a String is its UTF-8 bytes (in the lexer, the
    list of its characters); a HashMap is a finite map, an iteration over it does not
    depend on its order. Mutexes become atomicity: what runs under one lock is one
    definition, and where a lock is released in between the pieces are separate definitions that
    the theorems can interleave. Time, random identifiers, hashes of names and the Unicode tables
    are arguments or classes.

    The executor is a state monad [M] over the storage, the statistics and a counter of random
    draws; errors are [Raised], panics [Panic], and both keep the effects that happened before.
    What the code takes from elsewhere is a class: [Platform] (overflow checks, chrono, printing
    of floats and dates), [Unicode], [DebugFormat] (debug texts of strings, floats, dates),
    [Environment] (random UUIDs, their texts, hashes, the order in which a HashSet is
    iterated), [RaftNode] and [Transport] (openraft and gRPC, as operations on a state of the
    world), [HeaderText] (the text of a header), [Crates] (JSON of serde and the text of a status),
    [Checkpoint] and [MetaJson] (backups), [ClientText], [Requests] and [Files] (what the client
    prints with and talks to). Their laws say what theorems need: texts of UUIDs parse back, draws are
    not constrained, debug texts of strings and numbers delimit themselves, a header text is its
    bytes, a checkpoint is refused where the directory exists, a file written is read back.
    The sort of the library is modelled as an insertion sort; both are stable sorts, so they agree
    where the comparison is a total preorder, which [sort_stable] asks for.

    Fuel: the lexer's loops get one more than the length of the input, and [tokenize_positions]
    proves that they never run out; [chunks] gets the number of rows, enough since every chunk takes
    at least one ([chunks_concat]). The parser's loops and its recursion get one more than the tokens
    left, and a parse never runs out, whatever the tokens ([parse_then_plan]). A session of the client
    gets one turn more than the events of its editor ([session_ends]). All other recursion is
    structural.

    ** What the theorems show

    - Refinement: the engine implements the property graph ([engine_refines_graph]), the Raft
      store the abstract log ([log_store_refines]), the membership list a finite map, snapshot
      reads the specification [visible]; an INSERT program and a DELETE of bound nodes the same
      operations of the abstract graph ([insert_refines], [delete_refines]).
    - Exactness of every scan and lookup: adjacency, labels, limits, index lookups and ranges,
      full-text search, snapshot scans, log ranges, recovery of in-doubt transactions; of the
      executor's scans and expansions ([label_scan_exact], [expand_exact]); of the check of tokens
      ([auth_exact]), the status of a cluster ([cluster_status_exact]) and the gauges
      ([gauges_exact]).
    - Expressions: values stay in their types ([evaluate_wf]), integer arithmetic is exact or an error
      ([integer_arithmetic]), AND and OR are Kleene's ([and_or_kleene]), only the columns named
      matter ([evaluate_columns]), no panic in well-formed records ([evaluate_no_panic]).
    - Parsing: every text is parsed or refused, and a parsed program is planned without a panic
      ([parse_then_plan]); a printed program is parsed back ([parse_printed]); how deep expressions may
      nest ([nesting_limit]); which documented statements are accepted ([documented_syntax]).
    - Planning: accepted programs are exactly the well-scoped ones ([analyze_accepts]); plans never
      panic and only hold operators the executor has ([plan_executable]).
    - Relational operators against reference definitions: the hash join is a nested loop, DISTINCT
      keeps first rows, aggregation partitions, ORDER BY is a stable sort, filter,
      projection, limit, sort, distinct and join keep rows as wide as their columns ([operators_wf]).
    - The service: chunks lose nothing ([chunk_rows_exact]), what is not classed as a write only
      reads ([reads_stay_local]). Exporting a graph and importing the text copies it
      ([export_import]), under conditions that are needed ([import_limits]); a text of at most 64 KB
      arrives whole ([export_arrives]); the client copies a graph through a file
      ([copy_through_file]) and prints aligned tables ([table_aligned]).
    - Clusters: a write is answered as the leader answers it, through any member
      ([writes_follow_leader]); the network hands requests and answers on unchanged ([rpc_transparent]);
      two-phase commits, whatever their participants answer, follow the protocol when no two calls on one
      transaction overlap ([commit_needs_unanimity]), and even when they do nothing is committed
      without all votes ([votes_before_commit]); aborting what recovery lists leaves no transaction in
      doubt ([no_transaction_stuck]).
    - Backends: the embedded and the remote backend of the MCP server agree on queries, where the remote
      server stands alone or the query writes nothing, and on graphs and schemas ([backends_agree]); the
      statements its tools write are read as they are meant when names are words
      ([tool_statements]).
    - Safety: atomic commit, first committer wins, snapshots of transactions that are stable while
      commits and other calls interleave ([snapshot_reads_stable]), uniqueness of unique indexes, transparent garbage collection, disjoint partitions, and the
      two-phase protocol with records written before calls.
    - Round trips: keys, the decision log through its file, printed tokens, floats and comments included, through the lexer,
      durations through their texts, programs through the parser, graphs through their export.
    - Divergences, each proved on the model: keys shadowed by longer keys, minus zero in indexes,
      read-only snapshots and transactions that race with a commit, timestamps reused after a
      restart, a commit that fails half-way and is then aborted, an abort undone by a prepare, an
      applied marker ahead of the state, snapshots without data, ambiguous exports; clauses the
      planner ignores ([plan_ignores]), filters pushed below aliases ([pushdown_sound]), replicas that differ after an INSERT
      ([replicas_diverge]), writes and reads with an empty graph name that address different
      graphs ([default_graph_split]); backups that cannot be made ([backup_create_fails]), a deletion
      that leaves the backups ([backup_delete_scope]), indexes that one backend fills and the other does
      not ([create_index_tools_differ]), characters torn in the stream of an export
      ([export_arrives]).

    ** Hypotheses

    Reads of the multi-version store assume that no longer key interferes ([isolated],
    [uniform]); [get_at_shadowed] shows that the assumption is needed. Transaction theorems
    assume that clients do not write the cell of the timestamp oracle and that fewer than 2^64
    timestamps are drawn; the coordinator's that fewer than 2^64 calls or steps are
    made. [commit_needs_unanimity] assumes that no call starts on a transaction that another call is working
    on, which [abort_during_prepare_undone] shows to be needed; [snapshot_reads_stable] excepts the
    snapshot of a transaction begun while a commit has its timestamp and not yet its batch
    ([begin_races_with_commit]). Theorems on scans by
    label assume labels of at most 65535 bytes, what their length field holds ([label_fits]), those on statistics that the counts fit in an i64.

    ** Not modelled

    Raft itself (openraft) is a class; the sockets, TLS and HTTP loops of the servers, the transport of
    MCP and the texts of its prompts, the editor's history, and the counters and timings of queries
    are I/O around the modelled parts. Opening and tuning RocksDB and the mutex around the
    uniqueness check of an index are left out, as are the benchmarks and the types of graph schemas
    (schema.rs), which declare data that no code uses. *)
From Stdlib Require Export ZArith Lia.
From Stdlib Require Strings.Byte.
From stdpp Require Export prelude strings pretty gmap list sorting fin_maps.

Global Open Scope Z_scope.

(** ** Results: [Result<A, E>] of the code, with the [?] operator as monadic bind *)
Inductive result (E A : Type) : Type :=
| Ok (a : A)
| Err (e : E).
Arguments Ok {E A} a.
Arguments Err {E A} e.

#[export] Instance result_ret E : MRet (result E) := λ A a, Ok a.
#[export] Instance result_bind E : MBind (result E) := λ A B f m,
  match m with Ok a => f a | Err e => Err e end.
#[export] Instance result_fmap E : FMap (result E) := λ A B f m,
  match m with Ok a => Ok (f a) | Err e => Err e end.
#[export] Instance result_eq_dec `{EqDecision E, EqDecision A} : EqDecision (result E A).
Proof. solve_decision. Defined.

(** Inversion of the [?] operator. *)
Lemma bind_Ok {E A B} (r : result E A) (f : A → result E B) b : (r ≫= f) = Ok b ↔ ∃ a, r = Ok a ∧ f a = Ok b.
Proof. destruct r; cbn; naive_solver. Qed.
Lemma fmap_Ok {E A B} (r : result E A) (f : A → B) b : (f <$> r) = Ok b ↔ ∃ a, r = Ok a ∧ f a = b.
Proof. destruct r; cbn; naive_solver. Qed.

Lemma bind_ext {E A B} (r r' : result E A) (f g : A → result E B) :
  r = r' → (∀ a, f a = g a) → (r ≫= f) = (r' ≫= g).
Proof. intros <- Hf. destruct r; cbn; auto. Qed.

Definition is_ok {E A} (r : result E A) : bool := match r with Ok _ => true | Err _ => false end.
Definition is_err {E A} (r : result E A) : bool := negb (is_ok r).
(** [Option::ok_or_else] and [Result::map_err] *)
Definition ok_or {E A} (e : E) (o : option A) : result E A :=
  match o with Some a => Ok a | None => Err e end.
Definition map_err {E E' A} (f : E → E') (r : result E A) : result E' A :=
  match r with Ok a => Ok a | Err e => Err (f e) end.

(** The loop shape shared by every scan of the code:
    [for item in iter { if !cont(item) { break; } out.push(body(item)?); }]. *)
Fixpoint for_while {E A B} (cont : A → bool) (body : A → result E B) (l : list A)
    : result E (list B) :=
  match l with
  | [] => Ok []
  | x :: l' =>
      if cont x then
        match body x with
        | Err e => Err e
        | Ok y => match for_while cont body l' with
                  | Err e => Err e
                  | Ok ys => Ok (y :: ys)
                  end
        end
      else Ok []
  end.

(** [take_while] of Rust iterators, on lists. *)
Fixpoint take_while {A} (p : A → bool) (l : list A) : list A :=
  match l with
  | [] => []
  | x :: l' => if p x then x :: take_while p l' else []
  end.

(** The effect-only loop [for x in l { body(x)?; }] threading a state. *)
Fixpoint for_each {E S A} (body : A → S → result E S) (l : list A) (s : S) : result E S :=
  match l with
  | [] => Ok s
  | x :: l' => match body x s with Err e => Err e | Ok s' => for_each body l' s' end
  end.

(** Operations that write more than once keep their earlier writes when a later step fails: they
    return the state together with the outcome. *)
Definition lift_st {E S} (s : S) (r : result E S) : S * result E unit :=
  match r with Ok s' => (s', Ok tt) | Err e => (s, Err e) end.
Fixpoint for_each_st {E S A} (body : A → S → S * result E unit) (l : list A) (s : S) : S * result E unit :=
  match l with
  | [] => (s, Ok tt)
  | x :: l' => match body x s with (s', Ok _) => for_each_st body l' s' | (s', Err e) => (s', Err e) end
  end.
(** A scan that also stops once it has [limit] results ([got] of them so far). *)
Fixpoint for_while_limit {E A B} (limit got : nat) (cont : A → bool) (body : A → result E B) (l : list A)
    : result E (list B) :=
  match l with
  | [] => Ok []
  | x :: l' =>
      if cont x then
        match body x with
        | Err e => Err e
        | Ok y =>
            if decide (limit ≤ S got)%nat then Ok [y]
            else match for_while_limit limit (S got) cont body l' with
                 | Err e => Err e
                 | Ok ys => Ok (y :: ys)
                 end
        end
      else Ok []
  end.

(** ** Bytes *)
Abbreviation byte := Byte.byte.
Abbreviation bytes := (list Byte.byte).

#[export] Instance byte_eq_dec : EqDecision byte := Byte.byte_eq_dec.
#[export] Program Instance byte_countable : Countable byte := {|
  encode b := encode (Byte.to_N b);
  decode p := n ← decode p; Byte.of_N n
|}.
Next Obligation. intros b. cbn. rewrite decode_encode. cbn. apply Byte.of_to_N. Qed.

(** The value of a [u8]. *)
Definition bval (b : byte) : Z := Z.of_N (Byte.to_N b).
(** [z as u8] *)
Definition byte_of_Z (z : Z) : byte :=
  match Byte.of_N (Z.to_N (z mod 256)) with Some b => b | None => Byte.x00 end.

Lemma bval_range b : 0 ≤ bval b < 256.
Proof. unfold bval. pose proof (Byte.to_N_bounded b). lia. Qed.
Lemma bval_inj b1 b2 : bval b1 = bval b2 → b1 = b2.
Proof.
  unfold bval. intros H. apply N2Z.inj in H.
  pose proof (Byte.of_to_N b1) as H1. pose proof (Byte.of_to_N b2) as H2. congruence.
Qed.
Lemma bval_byte_of_Z z : bval (byte_of_Z z) = z mod 256.
Proof.
  unfold byte_of_Z, bval. pose proof (Z.mod_pos_bound z 256 eq_refl).
  destruct (Byte.of_N _) as [b|] eqn:E.
  - apply Byte.to_of_N in E. rewrite E. lia.
  - apply Byte.of_N_None_iff in E. lia.
Qed.
Lemma byte_of_Z_bval b : byte_of_Z (bval b) = b.
Proof. apply bval_inj. rewrite bval_byte_of_Z. apply Z.mod_small, bval_range. Qed.

(** ** Fixed-width big-endian integers: [uN::to_be_bytes] and [uN::from_be_bytes] *)
Fixpoint be_bytes (n : nat) (z : Z) : bytes :=
  match n with
  | O => []
  | S n' => byte_of_Z (Z.shiftr z (8 * Z.of_nat n')) :: be_bytes n' z
  end.
Fixpoint be_val (l : bytes) : Z :=
  match l with
  | [] => 0
  | b :: l' => bval b * 256 ^ Z.of_nat (length l') + be_val l'
  end.

Definition two64 : Z := 2 ^ 64.
Definition u64_max : Z := two64 - 1.
(** Wrapping to 64 bits. *)
Definition wrap64 (z : Z) : Z := z mod two64.
Definition is_u64 (z : Z) : Prop := 0 ≤ z < two64.
(** Bitwise complement [!x] of a [u64]. *)
Definition not64 (z : Z) : Z := u64_max - z.

Lemma length_be_bytes n z : length (be_bytes n z) = n.
Proof. induction n; simpl; congruence. Qed.

Lemma be_val_range l : 0 ≤ be_val l < 256 ^ Z.of_nat (length l).
Proof.
  induction l as [|b l IH]; cbn [be_val length]; [done|].
  rewrite Nat2Z.inj_succ, Z.pow_succ_r by lia.
  pose proof (bval_range b). nia.
Qed.

Lemma be_val_be_bytes_mod n z : be_val (be_bytes n z) = z mod 256 ^ Z.of_nat n.
Proof.
  induction n as [|n IH]; cbn [be_bytes be_val].
  { by rewrite Z.mod_1_r. }
  rewrite IH, length_be_bytes, bval_byte_of_Z, Z.shiftr_div_pow2 by lia.
  rewrite Z.pow_mul_r by lia. change (2 ^ 8) with 256.
  rewrite Nat2Z.inj_succ, Z.pow_succ_r by lia.
  rewrite (Z.mul_comm 256).
  rewrite Z.rem_mul_r by (try apply Z.pow_nonzero; lia). lia.
Qed.

Lemma be_val_be_bytes n z : 0 ≤ z < 256 ^ Z.of_nat n → be_val (be_bytes n z) = z.
Proof. intros. rewrite be_val_be_bytes_mod. by apply Z.mod_small. Qed.

Lemma be_val_inj l1 l2 : length l1 = length l2 → be_val l1 = be_val l2 → l1 = l2.
Proof.
  revert l2. induction l1 as [|b1 l1 IH]; intros [|b2 l2]; cbn [be_val length]; try done.
  intros [= Hl] Hv. rewrite Hl in Hv.
  pose proof (be_val_range l1) as H1. pose proof (be_val_range l2) as H2. rewrite Hl in H1.
  assert (bval b1 = bval b2) by nia.
  f_equal; [by apply bval_inj | apply IH; [done | nia]].
Qed.

Lemma be_bytes_be_val l : be_bytes (length l) (be_val l) = l.
Proof.
  apply be_val_inj; [apply length_be_bytes|].
  apply be_val_be_bytes, be_val_range.
Qed.

Lemma be_bytes_inj n z1 z2 :
  0 ≤ z1 < 256 ^ Z.of_nat n → 0 ≤ z2 < 256 ^ Z.of_nat n →
  be_bytes n z1 = be_bytes n z2 → z1 = z2.
Proof. intros H1 H2 H. rewrite <- (be_val_be_bytes n z1), <- (be_val_be_bytes n z2) by done. congruence. Qed.

Lemma two64_256 : two64 = 256 ^ Z.of_nat 8.
Proof. reflexivity. Qed.

(** ** The byte-wise (memcmp) order on keys *)
Fixpoint bytes_ltb (a b : bytes) : bool :=
  match a, b with
  | _, [] => false
  | [], _ :: _ => true
  | x :: a', y :: b' => (bval x <? bval y) || ((bval x =? bval y) && bytes_ltb a' b')
  end.
Definition bytes_lt (a b : bytes) : Prop := bytes_ltb a b = true.
Definition bytes_le (a b : bytes) : Prop := bytes_ltb b a = false.
#[export] Instance bytes_lt_dec : RelDecision bytes_lt.
Proof. intros a b. unfold bytes_lt. apply _. Defined.
#[export] Instance bytes_le_dec : RelDecision bytes_le.
Proof. intros a b. unfold bytes_le. apply _. Defined.

Lemma bytes_lt_nil_r a : ¬ bytes_lt a [].
Proof. destruct a; done. Qed.
Lemma bytes_lt_cons x a y b :
  bytes_lt (x :: a) (y :: b) ↔ bval x < bval y ∨ (x = y ∧ bytes_lt a b).
Proof.
  unfold bytes_lt. cbn. rewrite orb_true_iff, andb_true_iff, Z.ltb_lt, Z.eqb_eq.
  split; intros [?|[H ?]]; auto; right; split; auto.
  - by apply bval_inj.
  - by subst.
Qed.
Lemma bytes_lt_irrefl a : ¬ bytes_lt a a.
Proof. induction a as [|x a IH]; [done|]. rewrite bytes_lt_cons. intros [?|[_ ?]]; [lia|auto]. Qed.
Lemma bytes_lt_trans a b c : bytes_lt a b → bytes_lt b c → bytes_lt a c.
Proof.
  revert b c. induction a as [|x a IH]; intros [|y b] [|z c]; try done.
  rewrite !bytes_lt_cons. intros [?|[-> ?]] [?|[-> ?]]; eauto; left; lia.
Qed.
Lemma bytes_lt_total a b : bytes_lt a b ∨ a = b ∨ bytes_lt b a.
Proof.
  revert b. induction a as [|x a IH]; intros [|y b]; auto; [by left | by right; right |].
  rewrite !bytes_lt_cons. destruct (Z.lt_trichotomy (bval x) (bval y)) as [?|[E|?]]; auto.
  apply bval_inj in E as ->. destruct (IH b) as [?|[->|?]]; auto.
Qed.
Lemma bytes_le_not_lt a b : bytes_le a b ↔ ¬ bytes_lt b a.
Proof. unfold bytes_le, bytes_lt. by rewrite not_true_iff_false. Qed.
Lemma bytes_lt_le a b : bytes_lt a b → bytes_le a b.
Proof. rewrite bytes_le_not_lt. intros H1 H2. apply (bytes_lt_irrefl a). eauto using bytes_lt_trans. Qed.
Lemma bytes_le_refl a : bytes_le a a.
Proof. rewrite bytes_le_not_lt. apply bytes_lt_irrefl. Qed.
Lemma bytes_le_lt_or_eq a b : bytes_le a b ↔ bytes_lt a b ∨ a = b.
Proof.
  split.
  - rewrite bytes_le_not_lt. destruct (bytes_lt_total a b) as [?|[?|?]]; naive_solver.
  - intros [?| ->]; auto using bytes_lt_le, bytes_le_refl.
Qed.
Lemma bytes_le_lt_trans a b c : bytes_le a b → bytes_lt b c → bytes_lt a c.
Proof. rewrite bytes_le_lt_or_eq. intros [?| ->]; eauto using bytes_lt_trans. Qed.
Lemma bytes_lt_le_trans a b c : bytes_lt a b → bytes_le b c → bytes_lt a c.
Proof. rewrite bytes_le_lt_or_eq. intros ? [?| ->]; eauto using bytes_lt_trans. Qed.
Lemma bytes_le_trans a b c : bytes_le a b → bytes_le b c → bytes_le a c.
Proof. rewrite (bytes_le_lt_or_eq a b). intros [?| ->]; eauto using bytes_lt_le, bytes_lt_le_trans. Qed.
Lemma bytes_lt_asymm a b : bytes_lt a b → bytes_lt b a → False.
Proof. intros ??. apply (bytes_lt_irrefl a). eauto using bytes_lt_trans. Qed.
Lemma bytes_le_antisymm a b : bytes_le a b → bytes_le b a → a = b.
Proof. rewrite !bytes_le_lt_or_eq. intros [?|?] [?|?]; auto. by destruct (bytes_lt_asymm a b). Qed.
Lemma bytes_le_total a b : bytes_le a b ∨ bytes_le b a.
Proof. rewrite !bytes_le_lt_or_eq. destruct (bytes_lt_total a b) as [?|[?|?]]; auto. Qed.
Lemma bytes_lt_app_l p a b : bytes_lt (p ++ a) (p ++ b) ↔ bytes_lt a b.
Proof.
  induction p as [|x p IH]; [done|]. cbn. rewrite bytes_lt_cons, IH.
  split; [intros [?|[_ ?]]; [lia|done] | auto].
Qed.
Lemma bytes_le_app_l p a b : bytes_le (p ++ a) (p ++ b) ↔ bytes_le a b.
Proof. rewrite !bytes_le_not_lt. by rewrite bytes_lt_app_l. Qed.
Lemma bytes_le_nil a : bytes_le [] a.
Proof. rewrite bytes_le_not_lt. apply bytes_lt_nil_r. Qed.
Lemma bytes_le_app a b : bytes_le a (a ++ b).
Proof. rewrite <- (app_nil_r a) at 1. rewrite bytes_le_app_l. apply bytes_le_nil. Qed.
(** Strings of the same length that differ decide the order whatever follows them. *)
Lemma bytes_lt_app_r a b x y : length a = length b → bytes_lt a b → bytes_lt (a ++ x) (b ++ y).
Proof.
  revert b. induction a as [|c a IH]; intros [|d b]; try done.
  cbn. rewrite !bytes_lt_cons. intros [= ?] [?|[-> ?]]; auto.
Qed.

(** Lexicographic order on equal-length big-endian strings is numeric order. *)
Lemma bytes_lt_be_val a b : length a = length b → bytes_lt a b ↔ be_val a < be_val b.
Proof.
  revert b. induction a as [|x a IH]; intros [|y b]; try done.
  cbn [be_val length]. intros [= Hl]. rewrite bytes_lt_cons, (IH b Hl), Hl.
  pose proof (be_val_range a) as H1. pose proof (be_val_range b) as H2. rewrite Hl in H1.
  split.
  - intros [?|[-> ?]]; nia.
  - intros. destruct (Z.lt_trichotomy (bval x) (bval y)) as [?|[E|?]]; [by left| |nia].
    right. split; [by apply bval_inj | nia].
Qed.
Lemma bytes_lt_be_bytes n x y :
  0 ≤ x < 256 ^ Z.of_nat n → 0 ≤ y < 256 ^ Z.of_nat n →
  bytes_lt (be_bytes n x) (be_bytes n y) ↔ x < y.
Proof. intros. rewrite bytes_lt_be_val by by rewrite !length_be_bytes. by rewrite !be_val_be_bytes. Qed.

(** [slice::starts_with] *)
Fixpoint starts_with (key prefix : bytes) {struct prefix} : bool :=
  match prefix, key with
  | [], _ => true
  | _ :: _, [] => false
  | p :: prefix', k :: key' => bool_decide (k = p) && starts_with key' prefix'
  end.

Lemma starts_with_spec key prefix : starts_with key prefix = true ↔ ∃ rest, key = prefix ++ rest.
Proof.
  revert key. induction prefix as [|p prefix IH]; intros key; cbn.
  - split; [intros _; by exists key | done].
  - destruct key as [|k key]; [split; [done | by intros [? ?]]|].
    rewrite andb_true_iff, bool_decide_eq_true, IH. split.
    + intros [-> [r ->]]. by exists r.
    + intros [r [= -> ->]]. eauto.
Qed.
Lemma starts_with_app p r : starts_with (p ++ r) p = true.
Proof. apply starts_with_spec. eauto. Qed.
Lemma starts_with_refl p : starts_with p p = true.
Proof. rewrite <- (app_nil_r p) at 1. apply starts_with_app. Qed.
Lemma starts_with_le key prefix : starts_with key prefix = true → bytes_le prefix key.
Proof. rewrite starts_with_spec. intros [r ->]. apply bytes_le_app. Qed.
(** Among the keys that are not below a prefix, those that carry it come first. *)
Lemma starts_with_convex p a b :
  bytes_le p a → bytes_le a b → starts_with b p = true → starts_with a p = true.
Proof.
  revert a b. induction p as [|x p IH]; intros a b Hpa Hab Hb; [done|].
  destruct b as [|y b]; [done|]. cbn in Hb.
  apply andb_true_iff in Hb as [->%bool_decide_eq_true Hb].
  destruct a as [|z a].
  { apply bytes_le_not_lt in Hpa. by destruct Hpa. }
  rewrite bytes_le_not_lt, bytes_lt_cons in Hpa. rewrite bytes_le_not_lt, bytes_lt_cons in Hab.
  assert (z = x) as ->. { apply bval_inj. destruct (Z.lt_trichotomy (bval z) (bval x)) as [?|[?|?]]; naive_solver. }
  cbn. apply andb_true_iff. split; [by apply bool_decide_eq_true|].
  apply (IH a b); [rewrite bytes_le_not_lt; naive_solver .. | done].
Qed.
(** A string squeezed between two extensions of a prefix carries the prefix. *)
Lemma starts_with_between p x s y :
  bytes_le (p ++ x) s → bytes_le s (p ++ y) → starts_with s p = true.
Proof.
  intros H1 H2. apply (starts_with_convex p s (p ++ y)); [|done|apply starts_with_app].
  eapply bytes_le_trans; [apply bytes_le_app | done].
Qed.

(** ** Lists: prefixes of loops, sorted scans *)
Lemma for_while_ok {E A B} cont (body : A → result E B) l ys :
  for_while cont body l = Ok ys ↔ Forall2 (λ x y, body x = Ok y) (take_while cont l) ys.
Proof.
  revert ys. induction l as [|x l IH]; intros ys; cbn.
  { split; [intros [= <-]; constructor | by inversion 1]. }
  destruct (cont x); [|split; [intros [= <-]; constructor | by inversion 1]].
  split.
  - destruct (body x) eqn:Ex; [|done]. destruct (for_while cont body l) eqn:El; [|done].
    intros [= <-]. constructor; [done|]. by apply IH.
  - inversion 1 as [|? ? ? ? Hx Hr]; subst. apply IH in Hr. by rewrite Hx, Hr.
Qed.

(** When the body cannot fail on the items the loop visits, the loop succeeds. *)
Lemma for_while_total {E A B} cont (body : A → result E B) (f : A → B) l :
  (∀ x, x ∈ take_while cont l → body x = Ok (f x)) →
  for_while cont body l = Ok (f <$> take_while cont l).
Proof.
  intros H. apply for_while_ok. induction (take_while cont l) as [|x l' IH]; constructor.
  - apply H. left.
  - apply IH. intros. apply H. by right.
Qed.

Lemma for_while_err {E A B} cont (body : A → result E B) l e :
  for_while cont body l = Err e → ∃ x, x ∈ take_while cont l ∧ body x = Err e.
Proof.
  induction l as [|x l IH]; cbn; [done|]. destruct (cont x); [|done].
  destruct (body x) eqn:Ex.
  - destruct (for_while cont body l); [done|]. intros [= ->].
    destruct IH as (y & ? & ?); [done|]. exists y. split; [by right|done].
  - intros [= ->]. exists x. split; [left|done].
Qed.

(** A limited scan returns the first results of the full one. *)
Lemma for_while_limit_take {E A B} limit got cont (body : A → result E B) l ys :
  (got < limit)%nat → for_while cont body l = Ok ys →
  for_while_limit limit got cont body l = Ok (take (limit - got) ys).
Proof.
  revert got ys. induction l as [|x l IH]; intros got ys Hlt; cbn.
  { intros [= <-]. by rewrite take_nil. }
  destruct (cont x); [|intros [= <-]; by rewrite take_nil].
  destruct (body x); [|done]. destruct (for_while cont body l) eqn:El; [|done].
  intros [= <-]. destruct (limit - got)%nat as [|m] eqn:Hm; [lia|]. cbn.
  case_decide.
  - by replace m with 0%nat by lia.
  - erewrite IH by (done || lia). by replace (limit - S got)%nat with m by lia.
Qed.

Lemma elem_of_take_while {A} (p : A → bool) l x : x ∈ take_while p l → x ∈ l ∧ p x = true.
Proof.
  induction l as [|y l IH]; cbn; [by intros ?%elem_of_nil|].
  destruct (p y) eqn:E; [|by intros ?%elem_of_nil].
  rewrite !elem_of_cons. intros [->|Hx]; [by auto|]. destruct (IH Hx). auto.
Qed.
Lemma take_while_sublist {A} (p : A → bool) l : sublist (take_while p l) l.
Proof.
  induction l as [|y l IH]; cbn; [constructor|].
  destruct (p y); [by constructor | apply sublist_nil_l].
Qed.
Lemma take_while_all {A} (p : A → bool) l : (∀ x, x ∈ l → p x = true) → take_while p l = l.
Proof.
  induction l as [|y l IH]; intros H; cbn; [done|].
  rewrite H by left. f_equal. apply IH. intros. apply H. by right.
Qed.

(** On a sorted list, [take_while] of a downward-closed test is [filter]. *)
Lemma elem_of_take_while_sorted {A} (R : relation A) (p : A → bool) l x :
  StronglySorted R l → (∀ a b, R a b → b ∈ l → p b = true → p a = true) →
  x ∈ take_while p l ↔ x ∈ l ∧ p x = true.
Proof.
  intros Hs Hd. split; [apply elem_of_take_while|].
  induction Hs as [|y l Hs IH Hall]; intros [Hx Hp]; [by apply elem_of_nil in Hx|]. cbn.
  apply elem_of_cons in Hx as [->|Hx].
  - rewrite Hp. left.
  - rewrite (Hd y x); [|by apply (proj1 (Forall_forall _ _) Hall)|by right|done].
    right. apply IH; [|done]. intros a b ??. apply Hd; [done|by right].
Qed.

Lemma StronglySorted_sublist {A} (R : relation A) l k :
  sublist l k → StronglySorted R k → StronglySorted R l.
Proof.
  induction 1 as [|x l k Hsub IH|x l k Hsub IH]; [done| |].
  - inversion 1 as [|? ? Hs Hall]; subst. constructor; [auto|].
    rewrite Forall_forall in *. eauto using elem_of_submseteq, sublist_submseteq.
  - inversion 1; subst. auto.
Qed.

Lemma StronglySorted_NoDup {A} (R : relation A) l :
  (∀ x, ¬ R x x) → StronglySorted R l → NoDup l.
Proof.
  intros Hirr. induction 1 as [|x l Hs IH Hall]; constructor; [|done].
  intros Hx. rewrite Forall_forall in Hall. by apply (Hirr x), Hall.
Qed.

(** Sorting a duplicate-free list of keys under a strict total order. *)
Lemma Sorted_le_lt {A} (le lt : relation A) l :
  (∀ a b, le a b → a ≠ b → lt a b) → NoDup l → StronglySorted le l → StronglySorted lt l.
Proof.
  intros Hle Hnd Hs. induction Hs as [|x l Hs IH Hall]; [constructor|].
  apply NoDup_cons in Hnd as [Hx Hnd]. constructor; [auto|].
  rewrite Forall_forall in *. intros y Hy. apply Hle; [auto|]. by intros ->.
Qed.

Lemma Forall2_fmap_eq {A B C} (f : A → C) (g : B → C) (l : list A) (k : list B) :
  Forall2 (λ x y, f x = g y) l k → f <$> l = g <$> k.
Proof. induction 1; cbn; congruence. Qed.

(** ** Strings are their UTF-8 bytes *)
Definition str_bytes (s : string) : bytes := String.list_byte_of_string s.
Definition str_of_bytes (b : bytes) : string := String.string_of_list_byte b.
(** [s.len()] *)
Definition str_len (s : string) : nat := length (str_bytes s).
Definition str_ltb (a b : string) : bool := bytes_ltb (str_bytes a) (str_bytes b).

Lemma str_of_bytes_str_bytes s : str_of_bytes (str_bytes s) = s.
Proof. apply String.string_of_list_byte_of_string. Qed.
Lemma str_bytes_str_of_bytes b : str_bytes (str_of_bytes b) = b.
Proof. apply String.list_byte_of_string_of_list_byte. Qed.
Lemma str_bytes_inj a b : str_bytes a = str_bytes b → a = b.
Proof. intros H. by rewrite <- (str_of_bytes_str_bytes a), H, str_of_bytes_str_bytes. Qed.

(** Well-formed UTF-8 ([std::str::from_utf8]). *)
Definition utf8_cont (b : byte) : bool := (128 <=? bval b) && (bval b <=? 191).
Fixpoint utf8_valid (l : bytes) : bool :=
  match l with
  | [] => true
  | b0 :: l1 =>
      let z := bval b0 in
      if z <? 128 then utf8_valid l1
      else match l1 with
      | [] => false
      | b1 :: l2 =>
          let y := bval b1 in
          if (194 <=? z) && (z <=? 223) then utf8_cont b1 && utf8_valid l2
          else match l2 with
          | [] => false
          | b2 :: l3 =>
              if (224 <=? z) && (z <=? 239) then
                utf8_cont b1 && utf8_cont b2
                && (negb (z =? 224) || (160 <=? y)) && (negb (z =? 237) || (y <=? 159))
                && utf8_valid l3
              else match l3 with
              | [] => false
              | b3 :: l4 =>
                  (240 <=? z) && (z <=? 244) && utf8_cont b1 && utf8_cont b2 && utf8_cont b3
                  && (negb (z =? 240) || (144 <=? y)) && (negb (z =? 244) || (y <=? 143))
                  && utf8_valid l4
              end
          end
      end
  end.
(** [std::str::from_utf8(b).ok()] *)
Definition from_utf8 (b : bytes) : option string :=
  if utf8_valid b then Some (str_of_bytes b) else None.

Lemma utf8_valid_app a b : utf8_valid a = true → utf8_valid (a ++ b) = utf8_valid b.
Proof.
  remember (length a) as n eqn:Hn. revert a Hn. induction (lt_wf n) as [n _ IH]. intros a -> Ha.
  assert (∀ a', (length a' < length a)%nat → utf8_valid a' = true → utf8_valid (a' ++ b) = utf8_valid b) as IH'
    by (intros a' Hlt; by eapply IH).
  destruct a as [|b0 l1]; [done|]. cbn in *. destruct (bval b0 <? 128); [by apply IH'; [lia|]|].
  destruct l1 as [|b1 l2]; [done|]. cbn in *.
  destruct ((194 <=? bval b0) && (bval b0 <=? 223)).
  { apply andb_true_iff in Ha as [-> Ha]. apply IH'; [lia|done]. }
  destruct l2 as [|b2 l3]; [done|]. cbn in *.
  destruct ((224 <=? bval b0) && (bval b0 <=? 239)).
  { apply andb_true_iff in Ha as [-> Ha]. apply IH'; [lia|done]. }
  destruct l3 as [|b3 l4]; [done|]. cbn in *.
  apply andb_true_iff in Ha as [-> Ha]. apply IH'; [lia|done].
Qed.

(** The character tables of the standard library. A character is its UTF-8 bytes. *)
Class Unicode : Type := {
  to_lowercase : string → string;
  is_alphanumeric : bytes → bool
}.
(** NUL is not alphanumeric, and no other character has a zero byte. *)
Class UnicodeLaws `{Unicode} : Prop :=
  alphanumeric_nonzero c : is_alphanumeric c = true → Byte.x00 ∉ c.

(** The tables restricted to ASCII, at which the witnesses evaluate. *)
Definition ascii_alnum (z : Z) : bool :=
  ((48 <=? z) && (z <=? 57)) || ((65 <=? z) && (z <=? 90)) || ((97 <=? z) && (z <=? 122)).
Definition ascii_unicode : Unicode := {|
  to_lowercase s := str_of_bytes ((λ b, if (65 <=? bval b) && (bval b <=? 90) then byte_of_Z (bval b + 32) else b) <$> str_bytes s);
  is_alphanumeric c := match c with [b] => ascii_alnum (bval b) | _ => false end
|}.

(** ** Automation shared by the development *)
Create HintDb synaptica.
Create Rewrite HintDb synaptica.
#[export] Hint Resolve bytes_lt_irrefl bytes_le_refl bytes_lt_le starts_with_refl
  starts_with_app bval_range : synaptica.
#[export] Hint Rewrite length_be_bytes @length_app : synaptica.

(** Split every [match] of the goal or of a hypothesis and discard the branches that
    cannot produce the value at hand. *)
Ltac case_all :=
  repeat (case_match; simplify_eq/=; try done).
(** Case on the first monadic step of a hypothesis. *)
Ltac bind_inv H :=
  match type of H with
  | context [ match ?e with Ok _ => _ | Err _ => _ end ] =>
      let E := fresh "E" in destruct e eqn:E; simplify_eq/=; try done
  end.

(** ** Invariants of loops *)
Lemma for_each_preserves {E S A} (P : S → Prop) (body : A → S → result E S) l s s' :
  P s → (∀ a s1 s2, a ∈ l → P s1 → body a s1 = Ok s2 → P s2) → for_each body l s = Ok s' → P s'.
Proof.
  revert s. induction l as [|a l IH]; cbn; intros s Hs Hbody; [by intros [= <-]|].
  destruct (body a s) as [s1|] eqn:Ha; [|done]. apply IH; [eapply Hbody; [left|exact Hs|done]|].
  intros a' ? ? Hin. apply Hbody. by right.
Qed.
Lemma foldl_inv {A S} (P : S → Prop) (f : S → A → S) l s : P s → (∀ a s', a ∈ l → P s' → P (f s' a)) → P (foldl f s l).
Proof.
  revert s. induction l as [|a l IH]; intros s Hs Hf; [done|]. cbn. apply IH; [apply Hf; [left|done]|].
  intros a' s' Ha. apply Hf. by right.
Qed.
