(* ===== verification/Types.v ===== *)
(** * The graph data model (synaptica-core)

    [types.rs] (values, durations) and [graph.rs] (identifiers, labels, nodes, edges, graph
    metadata). A [BTreeMap<String, V>] is the list of its entries in key order and a
    [BTreeSet<Label>] the list of its elements in order; a [String] is its UTF-8 bytes; an
    [f64] is its 64 bits. UUIDs are 16 bytes: drawing a fresh one ([Uuid::new_v4]) is an
    argument of the constructors, hashing a name into one ([Uuid::new_v5]) a section variable.
    The contents of chrono's [NaiveDate], [NaiveTime] and [NaiveDateTime] are the integers
    their documentation gives (day number; second of the day and nanoseconds). *)
From S2P Require Import Prelude.

(** ** [BTreeMap<String, V>] and [BTreeSet<String>] *)
Section btree.
Context {V : Type}.
Fixpoint btree_insert (k : string) (v : V) (m : list (string * V)) : list (string * V) :=
  match m with
  | [] => [(k, v)]
  | (k', v') :: m' =>
      if decide (k = k') then (k, v) :: m'
      else if str_ltb k k' then (k, v) :: m
      else (k', v') :: btree_insert k v m'
  end.
Fixpoint btree_get (k : string) (m : list (string * V)) : option V :=
  match m with
  | [] => None
  | (k', v) :: m' => if decide (k = k') then Some v else btree_get k m'
  end.
Definition btree_contains_key (k : string) (m : list (string * V)) : bool :=
  match btree_get k m with Some _ => true | None => false end.

Lemma btree_get_insert_eq k v m : btree_get k (btree_insert k v m) = Some v.
Proof.
  induction m as [|[k' v'] m IH]; cbn; [by rewrite decide_True|].
  case_decide; cbn; [by rewrite decide_True|].
  case_match; cbn; [by rewrite decide_True|]. by rewrite decide_False.
Qed.
Lemma btree_get_insert_ne k k' v m : k ≠ k' → btree_get k' (btree_insert k v m) = btree_get k' m.
Proof.
  intros Hne. induction m as [|[k2 v2] m IH]; cbn; [by rewrite decide_False|].
  case_decide; subst; cbn.
  - by rewrite !decide_False.
  - case_match; cbn; [by rewrite decide_False|]. by rewrite IH.
Qed.
End btree.

Fixpoint btree_set_insert (k : string) (s : list string) : list string :=
  match s with
  | [] => [k]
  | k' :: s' =>
      if decide (k = k') then s
      else if str_ltb k k' then k :: s
      else k' :: btree_set_insert k s'
  end.
Lemma elem_of_btree_set_insert k k' s : k' ∈ btree_set_insert k s ↔ k' = k ∨ k' ∈ s.
Proof.
  induction s as [|x s IH]; cbn; [by rewrite list_elem_of_singleton, elem_of_nil; naive_solver|].
  case_decide; [set_solver|]. case_match; [set_solver|].
  rewrite !elem_of_cons, IH. naive_solver.
Qed.
Definition str_lt (a b : string) : Prop := str_ltb a b = true.
Lemma btree_set_insert_sorted k s : StronglySorted str_lt s → StronglySorted str_lt (btree_set_insert k s).
Proof.
  induction 1 as [|x s Hs IH Hall]; cbn; [repeat constructor|].
  rewrite Forall_forall in Hall.
  case_decide as Hkx; [by constructor; [|apply Forall_forall]|].
  destruct (str_ltb k x) eqn:Hlt.
  - constructor; [by constructor; [|apply Forall_forall]|].
    apply Forall_forall. intros y [->|Hy]%elem_of_cons; [done|].
    unfold str_lt, str_ltb in *. eapply bytes_lt_trans; [exact Hlt | by apply Hall].
  - constructor; [done|]. apply Forall_forall. intros y [->|Hy]%elem_of_btree_set_insert; [|auto].
    unfold str_lt, str_ltb in *.
    destruct (bytes_lt_total (str_bytes x) (str_bytes k)) as [?|[He|?]]; [done| |congruence].
    apply str_bytes_inj in He. congruence.
Qed.

(** ** types.rs *)
Definition NaiveDate : Type := Z.
Record NaiveTime := { time_secs : Z; time_nanos : Z }.
Record NaiveDateTime := { dt_date : NaiveDate; dt_time : NaiveTime }.
Definition f64 : Type := Z.

Record Duration := mkDuration { months : Z; days : Z; nanos : Z }.
Definition Duration_new (months days nanos : Z) : Duration := mkDuration months days nanos.
Definition Duration_zero : Duration := Duration_new 0 0 0.

Inductive Value : Type :=
| Null
| Bool (b : bool)
| Integer (i : Z)
| Float (f : f64)
| Str (s : string)
| Bytes (b : bytes)
| Date (d : NaiveDate)
| Time (t : NaiveTime)
| Timestamp (ts : NaiveDateTime)
| DurationV (d : Duration)
| ListV (l : list Value)
| MapV (m : list (string * Value))
| NodeV (id : string) (labels : list string) (properties : list (string * Value))
| EdgeV (id label source_id target_id : string) (properties : list (string * Value)).

Abbreviation Properties := (list (string * Value)).

Definition type_name (v : Value) : string :=
  match v with
  | Null => "NULL" | Bool _ => "BOOLEAN" | Integer _ => "INTEGER" | Float _ => "FLOAT"
  | Str _ => "STRING" | Bytes _ => "BYTES" | Date _ => "DATE" | Time _ => "TIME"
  | Timestamp _ => "TIMESTAMP" | DurationV _ => "DURATION" | ListV _ => "LIST"
  | MapV _ => "MAP" | NodeV _ _ _ => "NODE" | EdgeV _ _ _ _ _ => "EDGE"
  end.
Definition is_null (v : Value) : bool := match v with Null => true | _ => false end.
Definition as_node_id (v : Value) : option string := match v with NodeV id _ _ => Some id | _ => None end.
Definition as_bool (v : Value) : option bool := match v with Bool b => Some b | _ => None end.
Definition as_integer (v : Value) : option Z := match v with Integer i => Some i | _ => None end.
Definition as_float (v : Value) : option f64 := match v with Float f => Some f | _ => None end.
Definition as_str (v : Value) : option string := match v with Str s => Some s | _ => None end.

(** [hex::encode] of the private module at the end of types.rs. *)
Definition hex_digit (z : Z) : string :=
  String (Ascii.ascii_of_N (Z.to_N (if z <? 10 then 48 + z else 87 + z))) EmptyString.
Definition hex_encode (b : bytes) : string :=
  String.concat EmptyString ((λ c, hex_digit (bval c / 16) +:+ hex_digit (bval c mod 16)) <$> b).

(** [fmt::Display] for [Duration]. *)
Definition zero_pad (width : nat) (s : string) : string :=
  String.concat EmptyString (replicate (width - String.length s) "0"%string) +:+ s.
Definition Duration_fmt (d : Duration) : string :=
  "P" +:+ (if months d =? 0 then EmptyString else pretty (months d) +:+ "M")
      +:+ (if days d =? 0 then EmptyString else pretty (days d) +:+ "D")
      +:+ (if nanos d =? 0 then EmptyString
           else
             let abs_nanos := Z.abs (nanos d) in
             let secs := abs_nanos / 1000000000 in
             let rem := abs_nanos mod 1000000000 in
             let sign : string := if nanos d <? 0 then "-" else EmptyString in
             if rem =? 0 then "T" +:+ sign +:+ pretty secs +:+ "S"
             else "T" +:+ sign +:+ pretty secs +:+ "." +:+ zero_pad 9 (pretty rem) +:+ "S").

(** [fmt::Display] for [Value]; how a float and chrono's types print is a parameter. *)
Section display.
Variable f64_fmt : f64 → string.
Variable date_fmt : NaiveDate → string.
Variable time_fmt : NaiveTime → string.
Variable datetime_fmt : NaiveDateTime → string.

Definition comma_join (l : list string) : string := String.concat ", " l.

Fixpoint Value_fmt (v : Value) : string :=
  let entries := fix entries (m : list (string * Value)) : list string :=
    match m with [] => [] | (k, w) :: m' => (k +:+ ": " +:+ Value_fmt w) :: entries m' end in
  match v with
  | Null => "NULL"
  | Bool b => if b then "true" else "false"
  | Integer i => pretty i
  | Float f => f64_fmt f
  | Str s => "'" +:+ s +:+ "'"
  | Bytes b => "X'" +:+ hex_encode b +:+ "'"
  | Date d => "DATE '" +:+ date_fmt d +:+ "'"
  | Time t => "TIME '" +:+ time_fmt t +:+ "'"
  | Timestamp ts => "TIMESTAMP '" +:+ datetime_fmt ts +:+ "'"
  | DurationV d => "DURATION '" +:+ Duration_fmt d +:+ "'"
  | ListV l => "[" +:+ comma_join (map Value_fmt l) +:+ "]"
  | MapV m => "{" +:+ comma_join (entries m) +:+ "}"
  | NodeV id labels properties =>
      "(" +:+ id +:+ String.concat EmptyString ((λ l, ":" +:+ l) <$> labels)
        +:+ (match properties with
             | [] => EmptyString
             | _ => " {" +:+ comma_join (entries properties) +:+ "}"
             end) +:+ ")"
  | EdgeV id label source_id target_id properties =>
      "(" +:+ source_id +:+ ")-[:" +:+ label
        +:+ (match properties with
             | [] => EmptyString
             | _ => " {" +:+ comma_join (entries properties) +:+ "}"
             end) +:+ "]->(" +:+ target_id +:+ ")[" +:+ id +:+ "]"
  end.
End display.

(** [DataType] *)
Inductive DataType : Type :=
| DTBoolean | DTInteger | DTFloat | DTString | DTBytes | DTDate | DTTime | DTTimestamp | DTDuration
| DTList (element : DataType)
| DTMap (key value : DataType)
| DTAny.

(** ** graph.rs: identifiers *)
Record Uuid := mkUuid {
  uuid_bytes : bytes;
  uuid_ok : Is_true (bool_decide (length uuid_bytes = 16%nat))
}.
Lemma Uuid_eq (u1 u2 : Uuid) : uuid_bytes u1 = uuid_bytes u2 → u1 = u2.
Proof. destruct u1 as [b1 H1], u2 as [b2 H2]; cbn. intros ->. f_equal. apply proof_irrel. Qed.
Lemma length_uuid_bytes u : length (uuid_bytes u) = 16%nat.
Proof. apply (bool_decide_unpack _ (uuid_ok u)). Qed.
#[export] Instance Uuid_eq_dec : EqDecision Uuid.
Proof.
  intros u1 u2. destruct (decide (uuid_bytes u1 = uuid_bytes u2)) as [H|H].
  - left. by apply Uuid_eq.
  - right. congruence.
Defined.
(** [Uuid::from_bytes(slice.try_into().ok()?)]: the slice must have 16 bytes. *)
Definition uuid_of_bytes (b : bytes) : option Uuid :=
  match decide (Is_true (bool_decide (length b = 16%nat))) with
  | left H => Some (mkUuid b H)
  | right _ => None
  end.
Lemma uuid_of_bytes_bytes u : uuid_of_bytes (uuid_bytes u) = Some u.
Proof.
  unfold uuid_of_bytes. destruct (decide _) as [H|H].
  - f_equal. by apply Uuid_eq.
  - destruct H. apply uuid_ok.
Qed.
Lemma uuid_of_bytes_Some b u : uuid_of_bytes b = Some u → b = uuid_bytes u.
Proof. unfold uuid_of_bytes. destruct (decide _); [by intros [= <-]|done]. Qed.
Lemma uuid_of_bytes_length b : length b = 16%nat → ∃ u, uuid_of_bytes b = Some u ∧ uuid_bytes u = b.
Proof.
  intros Hl. unfold uuid_of_bytes. destruct (decide _) as [H|H]; [eauto|].
  destruct H. by apply bool_decide_pack.
Qed.
#[export] Program Instance Uuid_countable : Countable Uuid := {|
  encode u := encode (uuid_bytes u);
  decode p := b ← decode p; uuid_of_bytes b
|}.
Next Obligation. intros u. cbn. rewrite decode_encode. apply uuid_of_bytes_bytes. Qed.

Definition GraphId : Type := Uuid.
Definition NodeId : Type := Uuid.
Definition EdgeId : Type := Uuid.
#[export] Instance GraphId_eq_dec : EqDecision GraphId := Uuid_eq_dec.
#[export] Instance NodeId_eq_dec : EqDecision NodeId := Uuid_eq_dec.
#[export] Instance EdgeId_eq_dec : EqDecision EdgeId := Uuid_eq_dec.
#[export] Instance GraphId_countable : Countable GraphId := Uuid_countable.
#[export] Instance NodeId_countable : Countable NodeId := Uuid_countable.
#[export] Instance EdgeId_countable : Countable EdgeId := Uuid_countable.

(** The namespace constant of [GraphId::from_name]. *)
Definition GRAPH_NAMESPACE : bytes :=
  byte_of_Z <$> [0x6b; 0xa7; 0xb8; 0x10; 0x9d; 0xad; 0x11; 0xd1; 0x80; 0xb4; 0x00; 0xc0; 0x4f; 0xd4; 0x30; 0xc8].
Definition GraphId_from_name (new_v5 : bytes → bytes → Uuid) (name : string) : GraphId :=
  new_v5 GRAPH_NAMESPACE (str_bytes name).

(** ** graph.rs: nodes and edges *)
Definition Label : Type := string.
#[export] Instance Label_eq_dec : EqDecision Label := String.eq_dec.

Record Node := mkNode {
  node_id : NodeId;
  node_graph_id : GraphId;
  node_labels : list Label;
  node_properties : Properties
}.
(** [Node::new] with the identifier it draws. *)
Definition Node_with_id (graph_id : GraphId) (id : NodeId) : Node := mkNode id graph_id [] [].
Definition Node_new (fresh : NodeId) (graph_id : GraphId) : Node := mkNode fresh graph_id [] [].
Definition add_label (n : Node) (label : Label) : Node :=
  mkNode (node_id n) (node_graph_id n) (btree_set_insert label (node_labels n)) (node_properties n).
Definition node_set_property (n : Node) (key : string) (value : Value) : Node :=
  mkNode (node_id n) (node_graph_id n) (node_labels n) (btree_insert key value (node_properties n)).
Definition node_get_property (n : Node) (key : string) : option Value := btree_get key (node_properties n).
Definition has_label (n : Node) (label : string) : bool := bool_decide (label ∈ node_labels n).

Inductive CoreDirection := CoreOutgoing | CoreIncoming | CoreBoth.

Record Edge := mkEdge {
  edge_id : EdgeId;
  edge_graph_id : GraphId;
  edge_source : NodeId;
  edge_target : NodeId;
  edge_label : Label;
  edge_properties : Properties
}.
Definition Edge_new (fresh : EdgeId) (graph_id : GraphId) (source target : NodeId) (label : Label) : Edge :=
  mkEdge fresh graph_id source target label [].
Definition Edge_with_id (graph_id : GraphId) (id : EdgeId) (source target : NodeId) (label : Label) : Edge :=
  mkEdge id graph_id source target label [].
Definition edge_set_property (e : Edge) (key : string) (value : Value) : Edge :=
  mkEdge (edge_id e) (edge_graph_id e) (edge_source e) (edge_target e) (edge_label e)
    (btree_insert key value (edge_properties e)).
Definition edge_get_property (e : Edge) (key : string) : option Value := btree_get key (edge_properties e).
Definition other_node (e : Edge) (node : NodeId) : option NodeId :=
  if decide (edge_source e = node) then Some (edge_target e)
  else if decide (edge_target e = node) then Some (edge_source e)
  else None.

Record GraphMeta := mkGraphMeta {
  meta_id : GraphId;
  meta_name : string;
  meta_graph_type : option string
}.

(** ** Elementary facts the other components use *)
Lemma add_label_labels n l l' : l' ∈ node_labels (add_label n l) ↔ l' = l ∨ l' ∈ node_labels n.
Proof. apply elem_of_btree_set_insert. Qed.
Lemma has_label_add_label n l l' : has_label (add_label n l) l' = bool_decide (l' = l) || has_label n l'.
Proof.
  unfold has_label. apply eq_true_iff_eq.
  rewrite orb_true_iff, !bool_decide_eq_true. apply add_label_labels.
Qed.
Lemma other_node_spec e n m :
  other_node e n = Some m ↔
  (edge_source e = n ∧ edge_target e = m) ∨
  (edge_source e ≠ n ∧ edge_target e = n ∧ edge_source e = m).
Proof. unfold other_node. repeat case_decide; naive_solver. Qed.

(** ** Values as generic trees: decidable (structural) equality and countability *)
Section value_ind.
Variable P : Value → Prop.
Hypothesis HNull : P Null.
Hypothesis HBool : ∀ b, P (Bool b).
Hypothesis HInteger : ∀ i, P (Integer i).
Hypothesis HFloat : ∀ f, P (Float f).
Hypothesis HStr : ∀ s, P (Str s).
Hypothesis HBytes : ∀ b, P (Bytes b).
Hypothesis HDate : ∀ d, P (Date d).
Hypothesis HTime : ∀ t, P (Time t).
Hypothesis HTimestamp : ∀ t, P (Timestamp t).
Hypothesis HDuration : ∀ d, P (DurationV d).
Hypothesis HList : ∀ l, Forall P l → P (ListV l).
Hypothesis HMap : ∀ m, Forall (λ kv, P kv.2) m → P (MapV m).
Hypothesis HNode : ∀ i l m, Forall (λ kv, P kv.2) m → P (NodeV i l m).
Hypothesis HEdge : ∀ i l s t m, Forall (λ kv, P kv.2) m → P (EdgeV i l s t m).
Fixpoint Value_tree_ind (v : Value) : P v :=
  let entries := fix entries (m : list (string * Value)) : Forall (λ kv, P kv.2) m :=
    match m with [] => Forall_nil_2 _ | (k, w) :: m' => Forall_cons_2 _ (k, w) m' (Value_tree_ind w) (entries m') end in
  match v with
  | Null => HNull | Bool b => HBool b | Integer i => HInteger i | Float f => HFloat f | Str s => HStr s
  | Bytes b => HBytes b | Date d => HDate d | Time t => HTime t | Timestamp t => HTimestamp t
  | DurationV d => HDuration d
  | ListV l => HList l ((fix go l : Forall P l :=
      match l with [] => Forall_nil_2 _ | w :: l' => Forall_cons_2 _ w l' (Value_tree_ind w) (go l') end) l)
  | MapV m => HMap m (entries m)
  | NodeV i l m => HNode i l m (entries m)
  | EdgeV i l s t m => HEdge i l s t m (entries m)
  end.
End value_ind.

Abbreviation leaf := (Z + string + bytes)%type.
Definition leaf_z (z : Z) : gen_tree leaf := GenLeaf (inl (inl z)).
Definition leaf_s (s : string) : gen_tree leaf := GenLeaf (inl (inr s)).
Fixpoint value_tree (v : Value) : gen_tree leaf :=
  let entries := fix entries (m : list (string * Value)) : list (gen_tree leaf) :=
    match m with [] => [] | (k, w) :: m' => leaf_s k :: value_tree w :: entries m' end in
  match v with
  | Null => GenNode 0 []
  | Bool b => GenNode 1 [leaf_z (if b then 1 else 0)]
  | Integer i => GenNode 2 [leaf_z i]
  | Float f => GenNode 3 [leaf_z f]
  | Str s => GenNode 4 [leaf_s s]
  | Bytes b => GenNode 5 [GenLeaf (inr b)]
  | Date d => GenNode 6 [leaf_z d]
  | Time t => GenNode 7 [leaf_z (time_secs t); leaf_z (time_nanos t)]
  | Timestamp t => GenNode 8 [leaf_z (dt_date t); leaf_z (time_secs (dt_time t)); leaf_z (time_nanos (dt_time t))]
  | DurationV d => GenNode 9 [leaf_z (months d); leaf_z (days d); leaf_z (nanos d)]
  | ListV l => GenNode 10 (map value_tree l)
  | MapV m => GenNode 11 (entries m)
  | NodeV i l m => GenNode 12 (leaf_s i :: GenNode 0 (leaf_s <$> l) :: entries m)
  | EdgeV i l s t m => GenNode 13 (leaf_s i :: leaf_s l :: leaf_s s :: leaf_s t :: entries m)
  end.
Fixpoint tree_labels (l : list (gen_tree leaf)) : list string :=
  match l with GenLeaf (inl (inr s)) :: l' => s :: tree_labels l' | _ => [] end.
Fixpoint tree_value (t : gen_tree leaf) : Value :=
  let entries := fix entries (l : list (gen_tree leaf)) : list (string * Value) :=
    match l with GenLeaf (inl (inr k)) :: w :: l' => (k, tree_value w) :: entries l' | _ => [] end in
  match t with
  | GenNode 1 [GenLeaf (inl (inl z))] => Bool (Z.eqb z 1)
  | GenNode 2 [GenLeaf (inl (inl z))] => Integer z
  | GenNode 3 [GenLeaf (inl (inl z))] => Float z
  | GenNode 4 [GenLeaf (inl (inr s))] => Str s
  | GenNode 5 [GenLeaf (inr b)] => Bytes b
  | GenNode 6 [GenLeaf (inl (inl z))] => Date z
  | GenNode 7 [GenLeaf (inl (inl a)); GenLeaf (inl (inl b))] => Time {| time_secs := a; time_nanos := b |}
  | GenNode 8 [GenLeaf (inl (inl d)); GenLeaf (inl (inl a)); GenLeaf (inl (inl b))] =>
      Timestamp {| dt_date := d; dt_time := {| time_secs := a; time_nanos := b |} |}
  | GenNode 9 [GenLeaf (inl (inl a)); GenLeaf (inl (inl b)); GenLeaf (inl (inl c))] => DurationV (mkDuration a b c)
  | GenNode 10 l => ListV (map tree_value l)
  | GenNode 11 l => MapV (entries l)
  | GenNode 12 (GenLeaf (inl (inr i)) :: GenNode 0 ls :: m) => NodeV i (tree_labels ls) (entries m)
  | GenNode 13 (GenLeaf (inl (inr i)) :: GenLeaf (inl (inr l)) :: GenLeaf (inl (inr s)) :: GenLeaf (inl (inr t)) :: m) =>
      EdgeV i l s t (entries m)
  | _ => Null
  end.
Lemma tree_labels_leaves l : tree_labels (leaf_s <$> l) = l.
Proof. induction l; cbn; congruence. Qed.
Lemma tree_value_tree v : tree_value (value_tree v) = v.
Proof.
  induction v as [|b| | | | | |[]|[? []]|[]|l IH|m IH|i l m IH|i l s t m IH] using Value_tree_ind; cbn; try done.
  - by destruct b.
  - f_equal. induction IH; cbn; congruence.
  - f_equal. induction IH as [|[k w] m Hw Hm IH]; cbn in *; congruence.
  - rewrite tree_labels_leaves. f_equal. induction IH as [|[k w] m Hw Hm IH]; cbn in *; congruence.
  - f_equal. induction IH as [|[k w] m Hw Hm IH]; cbn in *; congruence.
Qed.
#[export] Instance Value_eq_dec : EqDecision Value.
Proof.
  intros v w. destruct (decide (value_tree v = value_tree w)) as [H|H]; [left|right; congruence].
  by rewrite <- (tree_value_tree v), H, tree_value_tree.
Defined.
#[export] Instance Value_countable : Countable Value := inj_countable' value_tree tree_value tree_value_tree.
#[export] Instance Node_eq_dec : EqDecision Node.
Proof. solve_decision. Defined.
#[export] Instance Edge_eq_dec : EqDecision Edge.
Proof. solve_decision. Defined.
#[export] Instance GraphMeta_eq_dec : EqDecision GraphMeta.
Proof. solve_decision. Defined.
#[export] Instance Node_countable : Countable Node :=
  inj_countable' (λ x, (node_id x : Uuid, node_graph_id x : Uuid, node_labels x : list string, node_properties x))
    (λ y, mkNode y.1.1.1 y.1.1.2 y.1.2 y.2) ltac:(by intros []).
#[export] Instance Edge_countable : Countable Edge :=
  inj_countable' (λ x, (edge_id x : Uuid, edge_graph_id x : Uuid, edge_source x : Uuid, edge_target x : Uuid,
                        edge_label x : string, edge_properties x))
    (λ y, mkEdge y.1.1.1.1.1 y.1.1.1.1.2 y.1.1.1.2 y.1.1.2 y.1.2 y.2) ltac:(by intros []).
#[export] Instance GraphMeta_countable : Countable GraphMeta :=
  inj_countable' (λ x, (meta_id x : Uuid, meta_name x, meta_graph_type x))
    (λ y, mkGraphMeta y.1.1 y.1.2 y.2) ltac:(by intros []).
