(* ===== verification/Rocks.v ===== *)
(** * The key-value store underneath: interface, laws and an instance

    RocksDB and bincode are third-party crates, so they are parameters here. [RocksDB] is the
    part of the [rocksdb] API that the code calls (point reads, forward iterators from a key,
    atomic write batches); [RocksDBLaws] states its documented behaviour on a healthy database
    (I/O errors are not modelled). [Bincode] and [BincodeLaws] do the same for the
    serializer. Every client is proved against these classes; the finite map [MemDB]
    implements the first and is what the witnesses compute with. The column families are those
    of [cf.rs], named by the strings the code uses. *)
From S2P Require Import Prelude.

(** ** Column families (cf.rs) *)
Module ColumnFamilies.
Definition DEFAULT : string := "default".
Definition NODES : string := "nodes".
Definition EDGES : string := "edges".
Definition ADJ_OUT : string := "adj_out".
Definition ADJ_IN : string := "adj_in".
Definition NODE_LABELS : string := "node_labels".
Definition EDGE_LABELS : string := "edge_labels".
Definition PROP_INDEX : string := "prop_index".
Definition GRAPH_META : string := "graph_meta".
Definition SCHEMA : string := "schema".
Definition RAFT_LOG : string := "raft_log".
Definition RAFT_META : string := "raft_meta".
Definition all : list string :=
  [DEFAULT; NODES; EDGES; ADJ_OUT; ADJ_IN; NODE_LABELS; EDGE_LABELS; PROP_INDEX;
   GRAPH_META; SCHEMA; RAFT_LOG; RAFT_META].
End ColumnFamilies.

(** The engine opens the database with [ColumnFamilies::all()], so a handle exists exactly for
    these names. *)
Definition cf_handle (name : string) : option string :=
  if decide (name ∈ ColumnFamilies.all) then Some name else None.

(** ** The database interface *)
Inductive batch_op : Type :=
| BatchPut (cf : string) (key value : bytes)
| BatchDelete (cf : string) (key : bytes).
(** [WriteBatch] *)
Abbreviation WriteBatch := (list batch_op).

Class RocksDB (db : Type) : Type := {
  (** [db.get_cf(cf, key)] *)
  get_cf : db → string → bytes → option bytes;
  (** [db.iterator_cf(cf, IteratorMode::From(start, Forward))]; [prefix_iterator_cf(cf, start)]
      is the same iterator since no prefix extractor is configured. *)
  iterator_from : db → string → bytes → list (bytes * bytes);
  (** [db.write(batch)] *)
  write : db → WriteBatch → db
}.

(** What one batch entry does to one cell. *)
Definition apply_op (cf : string) (key : bytes) (cell : option bytes) (op : batch_op) : option bytes :=
  match op with
  | BatchPut cf' key' v => if decide (cf' = cf ∧ key' = key) then Some v else cell
  | BatchDelete cf' key' => if decide (cf' = cf ∧ key' = key) then None else cell
  end.
Definition apply_batch (cf : string) (key : bytes) (cell : option bytes) (b : WriteBatch) : option bytes :=
  foldl (apply_op cf key) cell b.

Definition key_lt (a b : bytes * bytes) : Prop := bytes_lt a.1 b.1.

Class RocksDBLaws (db : Type) `{RocksDB db} : Prop := {
  get_cf_write d b cf k : get_cf (write d b) cf k = apply_batch cf k (get_cf d cf k) b;
  iterator_from_sorted d cf s : StronglySorted key_lt (iterator_from d cf s);
  elem_of_iterator_from d cf s k v :
    (k, v) ∈ iterator_from d cf s ↔ get_cf d cf k = Some v ∧ bytes_le s k
}.

(** Single-entry writes. *)
Definition put_cf `{RocksDB db} (d : db) (cf : string) (key value : bytes) : db :=
  write d [BatchPut cf key value].
Definition delete_cf `{RocksDB db} (d : db) (cf : string) (key : bytes) : db :=
  write d [BatchDelete cf key].

(** The items a prefix loop visits before its [break]. *)
Definition has_prefix (prefix : bytes) (kv : bytes * bytes) : bool := starts_with kv.1 prefix.
Definition prefix_items `{RocksDB db} (d : db) (cf : string) (prefix : bytes) : list (bytes * bytes) :=
  take_while (has_prefix prefix) (iterator_from d cf prefix).

(** ** Serialization *)
Class Bincode (A : Type) : Type := {
  bincode_serialize : A → result string bytes;
  bincode_deserialize : bytes → result string A
}.
Class BincodeLaws (A : Type) `{Bincode A} : Prop :=
  bincode_roundtrip (a : A) : ∃ b, bincode_serialize a = Ok b ∧ bincode_deserialize b = Ok a.

(** encoding.rs: the two wrappers every client goes through. *)
Definition serialize_value `{Bincode A} (value : A) : result string bytes := bincode_serialize value.
Definition deserialize_value `{Bincode A} (data : bytes) : result string A := bincode_deserialize data.

(** ** Errors of the storage crate (engine.rs): the message texts are not modelled, except those
    of the serializer *)
Inductive StorageError : Type :=
| SInternal
| SSerialization (msg : string)
| SDeserialization (msg : string)
| SNotFound
| SUniqueViolation
| SIo
| SBackup.
#[export] Instance StorageError_eq_dec : EqDecision StorageError.
Proof. solve_decision. Defined.

(** [StorageEngine::cf] *)
Definition cf_open (name : string) : result StorageError string := ok_or SInternal (cf_handle name).
Lemma cf_open_all name : name ∈ ColumnFamilies.all → cf_open name = Ok name.
Proof. intros Hin. unfold cf_open, cf_handle. by rewrite decide_True. Qed.

(** ** Derived facts about any lawful store *)
Section laws.
Context `{RocksDBLaws db}.
Implicit Types (d : db) (cf : string) (k v s : bytes).

Lemma get_cf_put_eq d cf k v : get_cf (put_cf d cf k v) cf k = Some v.
Proof. unfold put_cf. rewrite get_cf_write. cbn. by rewrite decide_True. Qed.
Lemma get_cf_put_ne d cf cf' k k' v :
  (cf, k) ≠ (cf', k') → get_cf (put_cf d cf k v) cf' k' = get_cf d cf' k'.
Proof. intros. unfold put_cf. rewrite get_cf_write. cbn. rewrite decide_False; [done|]. intros [-> ->]. done. Qed.
Lemma get_cf_delete_eq d cf k : get_cf (delete_cf d cf k) cf k = None.
Proof. unfold delete_cf. rewrite get_cf_write. cbn. by rewrite decide_True. Qed.
Lemma get_cf_delete_ne d cf cf' k k' :
  (cf, k) ≠ (cf', k') → get_cf (delete_cf d cf k) cf' k' = get_cf d cf' k'.
Proof. intros. unfold delete_cf. rewrite get_cf_write. cbn. rewrite decide_False; [done|]. intros [-> ->]. done. Qed.

(** What batches do to a cell. *)
Lemma apply_batch_app cf k c b1 b2 :
  apply_batch cf k c (b1 ++ b2) = apply_batch cf k (apply_batch cf k c b1) b2.
Proof. apply foldl_app. Qed.
Lemma apply_batch_deletes {A} (f : A → bytes) cf cf' k c l :
  apply_batch cf' k c ((λ x, BatchDelete cf (f x)) <$> l) = if decide (cf' = cf ∧ k ∈ f <$> l) then None else c.
Proof.
  unfold apply_batch. revert c. induction l as [|x l IH]; intros c; cbn.
  { rewrite decide_False; [done|]. intros [_ ?%not_elem_of_nil]. done. }
  rewrite IH. repeat case_decide; rewrite ?elem_of_cons in *; naive_solver.
Qed.
Lemma apply_batch_puts {A} (f : A → bytes) v cf cf' k c l :
  apply_batch cf' k c ((λ x, BatchPut cf (f x) v) <$> l) = if decide (cf' = cf ∧ k ∈ f <$> l) then Some v else c.
Proof.
  unfold apply_batch. revert c. induction l as [|x l IH]; intros c; cbn.
  { rewrite decide_False; [done|]. intros [_ ?%not_elem_of_nil]. done. }
  rewrite IH. repeat case_decide; rewrite ?elem_of_cons in *; naive_solver.
Qed.
(** A batch of deletions of one column family. *)
Lemma get_cf_delete_all d cf cf' l k :
  get_cf (write d (BatchDelete cf <$> l)) cf' k =
  if decide (cf' = cf ∧ k ∈ l) then None else get_cf d cf' k.
Proof.
  rewrite get_cf_write. etrans; [apply (apply_batch_deletes id)|].
  repeat case_decide; rewrite list_fmap_id in *; naive_solver.
Qed.

Lemma key_lt_irrefl (a : bytes * bytes) : ¬ key_lt a a.
Proof. apply bytes_lt_irrefl. Qed.

Lemma iterator_from_NoDup d cf s : NoDup (iterator_from d cf s).*1.
Proof.
  pose proof (iterator_from_sorted d cf s) as Hs.
  induction Hs as [|x l Hs IH Hall]; constructor; [|done].
  intros (y & Hy & Hyl)%list_elem_of_fmap. rewrite Forall_forall in Hall.
  apply Hall in Hyl. unfold key_lt in Hyl. rewrite Hy in Hyl. by apply bytes_lt_irrefl in Hyl.
Qed.

(** A loop that stops at the first key failing a downward-closed test. *)
Lemma elem_of_take_while_iterator (cont : bytes * bytes → bool) d cf s k v :
  (∀ a b, bytes_le s a.1 → key_lt a b → cont b = true → cont a = true) →
  (k, v) ∈ take_while cont (iterator_from d cf s) ↔
  get_cf d cf k = Some v ∧ bytes_le s k ∧ cont (k, v) = true.
Proof.
  intros Hdown.
  rewrite (elem_of_take_while_sorted (λ a b, key_lt a b ∧ bytes_le s a.1)).
  - rewrite elem_of_iterator_from. tauto.
  - assert (∀ q, q ∈ iterator_from d cf s → bytes_le s q.1) as Hle.
    { intros [k' v'] [_ ?]%elem_of_iterator_from. done. }
    pose proof (iterator_from_sorted d cf s) as Hs.
    revert Hle. induction Hs as [|x l Hs IH Hall]; intros Hle; constructor.
    + apply IH. intros. apply Hle. by right.
    + rewrite Forall_forall in *. intros y Hy. split; [auto|]. apply Hle. left.
  - intros a b [Hlt Hsa] _ Hb. eauto.
Qed.
Lemma elem_of_prefix_items d cf p k v :
  (k, v) ∈ prefix_items d cf p ↔ get_cf d cf k = Some v ∧ starts_with k p = true.
Proof.
  unfold prefix_items. rewrite elem_of_take_while_iterator.
  - unfold has_prefix. cbn. split; [tauto|]. intros [? ?]. auto using starts_with_le.
  - intros a b Hle Hlt Hb. unfold has_prefix in *. eapply starts_with_convex; eauto using bytes_lt_le.
Qed.

(** Deleting everything a prefix scan visits. *)
Lemma get_cf_delete_prefix d cf p cf' k :
  get_cf (write d ((λ kv, BatchDelete cf kv.1) <$> prefix_items d cf p)) cf' k =
  if decide (cf' = cf ∧ starts_with k p = true) then None else get_cf d cf' k.
Proof.
  rewrite get_cf_write, apply_batch_deletes.
  destruct (decide (cf' = cf ∧ starts_with k p = true)) as [[-> Hk]|Hk].
  - destruct (get_cf d cf k) as [v|] eqn:Hv; [|by case_decide].
    rewrite decide_True; [done|]. split; [done|].
    apply list_elem_of_fmap. exists (k, v). split; [done|]. by apply elem_of_prefix_items.
  - rewrite decide_False; [done|].
    intros [-> ([k' v] & -> & [_ ?]%elem_of_prefix_items)%list_elem_of_fmap]. by apply Hk.
Qed.
Lemma prefix_items_sorted d cf p : StronglySorted key_lt (prefix_items d cf p).
Proof. eapply StronglySorted_sublist; [apply take_while_sublist | apply iterator_from_sorted]. Qed.

Lemma prefix_items_NoDup d cf p : NoDup (prefix_items d cf p).*1.
Proof.
  eapply sublist_NoDup; [apply (iterator_from_NoDup d cf p)|].
  apply fmap_sublist, take_while_sublist.
Qed.

(** ** Stores with the same contents are interchangeable *)
Definition db_equiv d1 d2 : Prop := ∀ cf k, get_cf d1 cf k = get_cf d2 cf k.
#[export] Instance db_equiv_equivalence : Equivalence db_equiv.
Proof. split; unfold db_equiv; repeat intro; congruence. Qed.
#[export] Instance get_cf_proper : Proper (db_equiv ==> eq ==> eq ==> eq) get_cf.
Proof. intros d1 d2 Hd ?? -> ?? ->. apply Hd. Qed.
#[export] Instance write_proper : Proper (db_equiv ==> eq ==> db_equiv) write.
Proof. intros d1 d2 Hd ? b ->. intros cf k. by rewrite !get_cf_write, Hd. Qed.

Lemma sorted_ext (l1 l2 : list (bytes * bytes)) :
  StronglySorted key_lt l1 → StronglySorted key_lt l2 → (∀ x, x ∈ l1 ↔ x ∈ l2) → l1 = l2.
Proof.
  intros H1. revert l2. induction H1 as [|x l1 Hs1 IH Hx]; intros l2 H2 Hiff.
  { destruct l2 as [|y l2]; [done|]. exfalso. apply (not_elem_of_nil y), Hiff. left. }
  destruct H2 as [|y l2 Hs2 Hy].
  { exfalso. apply (not_elem_of_nil x), Hiff. left. }
  rewrite Forall_forall in Hx, Hy.
  assert (x = y) as ->.
  { destruct (proj1 (elem_of_cons _ _ _) (proj1 (Hiff x) ltac:(left))) as [|Hxy]; [done|].
    destruct (proj1 (elem_of_cons _ _ _) (proj2 (Hiff y) ltac:(left))) as [|Hyx]; [done|].
    exfalso. eapply bytes_lt_asymm; [by apply Hy | by apply Hx]. }
  f_equal. apply IH; [done|]. intros z. split; intros Hz.
  - destruct (proj1 (elem_of_cons _ _ _) (proj1 (Hiff z) ltac:(by right))) as [->|]; [|done].
    exfalso. by eapply key_lt_irrefl, Hx.
  - destruct (proj1 (elem_of_cons _ _ _) (proj2 (Hiff z) ltac:(by right))) as [->|]; [|done].
    exfalso. by eapply key_lt_irrefl, Hy.
Qed.

#[export] Instance iterator_from_proper : Proper (db_equiv ==> eq ==> eq ==> eq) iterator_from.
Proof.
  intros d1 d2 Hd ? cf -> ? s ->.
  apply sorted_ext; [apply iterator_from_sorted..|].
  intros [k v]. by rewrite !elem_of_iterator_from, Hd.
Qed.
#[export] Instance prefix_items_proper : Proper (db_equiv ==> eq ==> eq ==> eq) prefix_items.
Proof. intros d1 d2 Hd ? cf -> ? p ->. unfold prefix_items. by rewrite Hd. Qed.
End laws.

(** ** An instance: a finite map from (column family, key) to value *)
Abbreviation MemDB := (gmap (string * bytes) bytes).
Definition empty_db : MemDB := ∅.

Definition key_le (a b : bytes * bytes) : Prop := bytes_le a.1 b.1.
#[export] Instance key_le_dec : RelDecision key_le.
Proof. intros a b. unfold key_le. apply _. Defined.
#[export] Instance key_le_trans : Transitive key_le.
Proof. intros a b c. apply bytes_le_trans. Qed.
#[export] Instance key_le_total : Total key_le.
Proof. intros a b. apply bytes_le_total. Qed.

Definition mem_cell (cf : string) (start : bytes) (x : (string * bytes) * bytes) : option (bytes * bytes) :=
  if decide (x.1.1 = cf ∧ bytes_le start x.1.2) then Some (x.1.2, x.2) else None.
Definition mem_op (d : MemDB) (op : batch_op) : MemDB :=
  match op with
  | BatchPut cf k v => <[(cf, k) := v]> d
  | BatchDelete cf k => delete (cf, k) d
  end.
#[export] Instance MemDB_RocksDB : RocksDB MemDB := {
  get_cf d cf k := d !! (cf, k);
  iterator_from d cf s := merge_sort key_le (omap (mem_cell cf s) (map_to_list d));
  write d b := foldl mem_op d b
}.

Lemma elem_of_mem_cells (d : MemDB) cf s k v :
  (k, v) ∈ omap (mem_cell cf s) (map_to_list d) ↔ d !! (cf, k) = Some v ∧ bytes_le s k.
Proof.
  rewrite list_elem_of_omap. split.
  - intros ([[cf' k'] v'] & Hin & Hc). unfold mem_cell in Hc. cbn in Hc. case_decide; [|done].
    destruct_and?. simplify_eq. by apply elem_of_map_to_list in Hin.
  - intros [Hd ?]. exists ((cf, k), v). rewrite elem_of_map_to_list. split; [done|].
    unfold mem_cell. cbn. by rewrite decide_True.
Qed.

Lemma mem_cells_NoDup (d : MemDB) cf s : NoDup (omap (mem_cell cf s) (map_to_list d)).*1.
Proof.
  pose proof (NoDup_fst_map_to_list d) as Hnd.
  induction (map_to_list d) as [|[[cf' k'] v'] l IH]; cbn in *; [constructor|].
  apply NoDup_cons in Hnd as [Hx Hnd]. unfold mem_cell at 1. cbn. case_decide as Hc; [|auto].
  destruct Hc as [-> Hle]. cbn. constructor; [|auto].
  intros ([k v] & Hk & Hin)%list_elem_of_fmap. cbn in Hk. subst k.
  apply list_elem_of_omap in Hin as ([[cf2 k2] v2] & Hin & Hc).
  unfold mem_cell in Hc. cbn in Hc. case_decide; [|done]. destruct_and?. simplify_eq.
  apply Hx. apply list_elem_of_fmap. by exists ((cf, k'), v).
Qed.

#[export] Instance MemDB_laws : RocksDBLaws MemDB.
Proof.
  split.
  - intros d b cf k. unfold apply_batch. cbn. revert d.
    induction b as [|op b IH]; intros d; [done|]. cbn. rewrite IH. f_equal.
    destruct op; cbn; case_decide as Hc.
    + destruct Hc as [-> ->]. apply lookup_insert_eq.
    + apply lookup_insert_ne. naive_solver.
    + destruct Hc as [-> ->]. apply lookup_delete_eq.
    + apply lookup_delete_ne. naive_solver.
  - intros d cf s. cbn.
    pose proof (StronglySorted_merge_sort key_le (omap (mem_cell cf s) (map_to_list d))) as Hs.
    assert (NoDup (merge_sort key_le (omap (mem_cell cf s) (map_to_list d))).*1) as Hnd.
    { rewrite merge_sort_Permutation. apply mem_cells_NoDup. }
    induction Hs as [|x l Hs IH Hall]; [constructor|]. cbn in Hnd.
    apply NoDup_cons in Hnd as [Hx Hnd]. constructor; [auto|].
    rewrite Forall_forall in *. intros y Hy. specialize (Hall y Hy).
    apply bytes_le_lt_or_eq in Hall as [?|Heq]; [done|].
    destruct Hx. rewrite Heq. by apply list_elem_of_fmap_2.
  - intros d cf s k v. cbn. rewrite merge_sort_Permutation. apply elem_of_mem_cells.
Qed.

(** A bincode instance for any countable type, used by the witnesses: the positive that encodes
    the value, little end first. *)
Fixpoint pos_bytes (p : positive) : bytes :=
  match p with
  | xH => [Byte.x02]
  | xO p' => Byte.x00 :: pos_bytes p'
  | xI p' => Byte.x01 :: pos_bytes p'
  end.
Fixpoint bytes_pos (b : bytes) : option positive :=
  match b with
  | [] => None
  | c :: b' =>
      if decide (c = Byte.x02) then Some xH
      else p ← bytes_pos b'; Some (if decide (c = Byte.x00) then xO p else xI p)
  end.
Lemma bytes_pos_bytes p : bytes_pos (pos_bytes p) = Some p.
Proof. induction p as [p IH|p IH|]; cbn; rewrite ?IH; done. Qed.

Definition countable_bincode (A : Type) `{Countable A} : Bincode A := {|
  bincode_serialize a := Ok (pos_bytes (encode a));
  bincode_deserialize b :=
    match p ← bytes_pos b; decode p with Some a => Ok a | None => Err "malformed"%string end
|}.
Lemma countable_bincode_laws (A : Type) `{Countable A} : @BincodeLaws A (countable_bincode A).
Proof.
  intros a. exists (pos_bytes (encode a)). split; [done|]. cbn.
  rewrite bytes_pos_bytes. cbn. by rewrite decode_encode.
Qed.
