(* ===== verification/Encoding.v ===== *)
(** * Key encodings (synaptica-storage/src/encoding.rs)

    Every key is a concatenation of 16-byte identifiers and length-prefixed labels. The module
    holds the encoders, the decoders, their round trips, the injectivity of each key form and
    the exactness of the prefixes the scans use. *)
From S2P Require Import Prelude Types.

Definition UUID_LEN : nat := 16.
Definition U16_MAX : nat := Z.to_nat 65535.

Module Encoding.
Definition encode_uuid (u : Uuid) : bytes := uuid_bytes u.
(** Two length bytes, then the label, cut to [u16::MAX] bytes. *)
Definition encode_label (label : string) : bytes :=
  let b := str_bytes label in
  let len := Nat.min (length b) U16_MAX in
  be_bytes 2 (Z.of_nat len) ++ take len b.
Definition decode_label (data : bytes) : option (string * nat) :=
  match data with
  | d0 :: d1 :: rest =>
      let len := Z.to_nat (be_val [d0; d1]) in
      if decide (length rest < len)%nat then None
      else s ← from_utf8 (take len rest); Some (s, (2 + len)%nat)
  | _ => None
  end.

Definition encode_node_key (g : GraphId) (n : NodeId) : bytes := encode_uuid g ++ encode_uuid n.
Definition decode_node_key (data : bytes) : option (GraphId * NodeId) :=
  if decide (length data < UUID_LEN * 2)%nat then None
  else g ← uuid_of_bytes (take UUID_LEN data);
       n ← uuid_of_bytes (take UUID_LEN (drop UUID_LEN data));
       Some (g, n).
Definition encode_node_prefix (g : GraphId) : bytes := encode_uuid g.
Definition encode_edge_key (g : GraphId) (e : EdgeId) : bytes := encode_uuid g ++ encode_uuid e.
Definition encode_edge_prefix (g : GraphId) : bytes := encode_uuid g.
Definition decode_edge_key (data : bytes) : option (GraphId * EdgeId) :=
  if decide (length data < UUID_LEN * 2)%nat then None
  else g ← uuid_of_bytes (take UUID_LEN data);
       e ← uuid_of_bytes (take UUID_LEN (drop UUID_LEN data));
       Some (g, e).

Definition encode_adj_out_key (g : GraphId) (source : NodeId) (label : Label) (e : EdgeId) : bytes :=
  encode_uuid g ++ encode_uuid source ++ encode_label label ++ encode_uuid e.
Definition encode_adj_in_key (g : GraphId) (target : NodeId) (label : Label) (e : EdgeId) : bytes :=
  encode_uuid g ++ encode_uuid target ++ encode_label label ++ encode_uuid e.
Definition encode_adj_out_prefix (g : GraphId) (source : NodeId) : bytes :=
  encode_uuid g ++ encode_uuid source.
Definition encode_adj_out_label_prefix (g : GraphId) (source : NodeId) (label : Label) : bytes :=
  encode_uuid g ++ encode_uuid source ++ encode_label label.
Definition encode_adj_in_prefix (g : GraphId) (target : NodeId) : bytes :=
  encode_uuid g ++ encode_uuid target.
Definition encode_adj_in_label_prefix (g : GraphId) (target : NodeId) (label : Label) : bytes :=
  encode_uuid g ++ encode_uuid target ++ encode_label label.

Definition encode_node_label_key (g : GraphId) (label : Label) (n : NodeId) : bytes :=
  encode_uuid g ++ encode_label label ++ encode_uuid n.
Definition encode_node_label_prefix (g : GraphId) (label : Label) : bytes :=
  encode_uuid g ++ encode_label label.
Definition encode_edge_label_key (g : GraphId) (label : Label) (e : EdgeId) : bytes :=
  encode_uuid g ++ encode_label label ++ encode_uuid e.

Definition encode_graph_meta_key (g : GraphId) : bytes := encode_uuid g.
End Encoding.
Import Encoding.

(** Scans recover an identifier from the last 16 bytes of an index key:
    [key[key.len() - 16..].try_into()]. *)
Definition key_tail_id (key : bytes) : option Uuid :=
  uuid_of_bytes (drop (length key - UUID_LEN) key).

(** ** What survives of a label in a key *)
Definition label_cut (label : string) : bytes := take U16_MAX (str_bytes label).
Definition label_fits (label : string) : Prop := (length (str_bytes label) ≤ U16_MAX)%nat.
#[export] Instance label_fits_dec label : Decision (label_fits label).
Proof. unfold label_fits. apply _. Defined.

Lemma label_cut_fits label : label_fits label → label_cut label = str_bytes label.
Proof. intros H. by apply take_ge. Qed.

Lemma encode_label_eq label :
  encode_label label = be_bytes 2 (Z.of_nat (length (label_cut label))) ++ label_cut label.
Proof.
  unfold encode_label, label_cut. rewrite length_take. f_equal.
  - f_equal. lia.
  - destruct (Nat.min_spec (length (str_bytes label)) U16_MAX) as [[? ->]|[? ->]]; [|done].
    rewrite (take_ge _ (length _)) by done. by rewrite take_ge by lia.
Qed.
Lemma length_encode_label label : length (encode_label label) = (2 + length (label_cut label))%nat.
Proof. rewrite encode_label_eq, length_app, length_be_bytes. done. Qed.

(** Label codes are prefix-free: what follows a label never blurs its end. *)
Lemma encode_label_app_inj l1 l2 r1 r2 :
  encode_label l1 ++ r1 = encode_label l2 ++ r2 → label_cut l1 = label_cut l2 ∧ r1 = r2.
Proof.
  rewrite !encode_label_eq, <- !(assoc_L (++)). intros H.
  apply app_inj_1 in H as [Hl H]; [|by rewrite !length_be_bytes].
  assert (∀ l, (length (label_cut l) ≤ U16_MAX)%nat) as Hle.
  { intros l. unfold label_cut. rewrite length_take. lia. }
  pose proof (Hle l1). pose proof (Hle l2). unfold U16_MAX in *.
  apply be_bytes_inj in Hl; [|change (256 ^ Z.of_nat 2) with 65536; lia..].
  apply app_inj_1 in H; [done|lia].
Qed.
Lemma encode_label_fits_inj l1 l2 r1 r2 :
  label_fits l1 → label_fits l2 →
  encode_label l1 ++ r1 = encode_label l2 ++ r2 → l1 = l2 ∧ r1 = r2.
Proof.
  intros H1 H2 [Hc ->]%encode_label_app_inj. rewrite !label_cut_fits in Hc by done.
  split; [by apply str_bytes_inj|done].
Qed.

Lemma uuid_app_inj (u1 u2 : Uuid) r1 r2 :
  uuid_bytes u1 ++ r1 = uuid_bytes u2 ++ r2 → u1 = u2 ∧ r1 = r2.
Proof.
  intros H. apply app_inj_1 in H as [Hu ->]; [|by rewrite !length_uuid_bytes].
  split; [by apply Uuid_eq|done].
Qed.
Lemma uuid_bytes_inj (u1 u2 : Uuid) : uuid_bytes u1 = uuid_bytes u2 → u1 = u2.
Proof. apply Uuid_eq. Qed.

Lemma key_tail_id_app p (u : Uuid) : key_tail_id (p ++ uuid_bytes u) = Some u.
Proof.
  unfold key_tail_id, UUID_LEN. rewrite length_app, length_uuid_bytes.
  replace (length p + 16 - 16)%nat with (length p) by lia.
  rewrite drop_app_length. apply uuid_of_bytes_bytes.
Qed.

(** ** Round trips *)
Lemma decode_encode_node_key g n : decode_node_key (encode_node_key g n) = Some (g, n).
Proof.
  unfold decode_node_key, encode_node_key, encode_uuid, UUID_LEN.
  rewrite decide_False by (rewrite length_app, !length_uuid_bytes; lia).
  rewrite take_app_length' by (by rewrite length_uuid_bytes).
  rewrite drop_app_length' by (by rewrite length_uuid_bytes).
  rewrite (take_ge (uuid_bytes n)) by (rewrite length_uuid_bytes; lia).
  by rewrite !uuid_of_bytes_bytes.
Qed.
Lemma decode_encode_edge_key g e : decode_edge_key (encode_edge_key g e) = Some (g, e).
Proof. apply decode_encode_node_key. Qed.

Lemma decode_encode_label label rest :
  label_fits label → utf8_valid (str_bytes label) = true →
  decode_label (encode_label label ++ rest) = Some (label, length (encode_label label)).
Proof.
  intros Hfit Hutf. rewrite length_encode_label, encode_label_eq, label_cut_fits by done.
  set (b := str_bytes label) in *.
  destruct (be_bytes 2 (Z.of_nat (length b))) as [|d0 [|d1 [|]]] eqn:E; try done.
  cbn [app decode_label]. rewrite <- E, be_val_be_bytes, Nat2Z.id.
  2: { unfold label_fits, U16_MAX in Hfit. subst b. change (256 ^ Z.of_nat 2) with 65536. lia. }
  rewrite decide_False by (rewrite length_app; lia).
  rewrite take_app_length. unfold from_utf8. rewrite Hutf. cbn.
  subst b. by rewrite str_of_bytes_str_bytes.
Qed.

(** ** Injectivity of the index keys *)
Lemma encode_node_key_inj g1 n1 g2 n2 :
  encode_node_key g1 n1 = encode_node_key g2 n2 → g1 = g2 ∧ n1 = n2.
Proof. intros [-> ?]%uuid_app_inj. split; [done|by apply uuid_bytes_inj]. Qed.
Lemma encode_node_label_key_inj g1 l1 n1 g2 l2 n2 :
  encode_node_label_key g1 l1 n1 = encode_node_label_key g2 l2 n2 →
  g1 = g2 ∧ label_cut l1 = label_cut l2 ∧ n1 = n2.
Proof.
  unfold encode_node_label_key, encode_uuid.
  intros [-> [? ?]%encode_label_app_inj]%uuid_app_inj. auto using uuid_bytes_inj.
Qed.
Lemma encode_adj_out_key_inj g1 s1 l1 e1 g2 s2 l2 e2 :
  encode_adj_out_key g1 s1 l1 e1 = encode_adj_out_key g2 s2 l2 e2 →
  g1 = g2 ∧ s1 = s2 ∧ label_cut l1 = label_cut l2 ∧ e1 = e2.
Proof.
  unfold encode_adj_out_key, encode_uuid.
  intros [-> [-> [? ?]%encode_label_app_inj]%uuid_app_inj]%uuid_app_inj. auto using uuid_bytes_inj.
Qed.
(** Labels that keys cannot tell apart have the same code. *)
Lemma encode_label_cut l1 l2 : label_cut l1 = label_cut l2 → encode_label l1 = encode_label l2.
Proof. intros H. by rewrite !encode_label_eq, H. Qed.

(** ** Exactness of the scan prefixes *)
Lemma node_key_prefix g g' n : starts_with (encode_node_key g' n) (encode_node_prefix g) = true ↔ g' = g.
Proof.
  rewrite starts_with_spec. split.
  - by intros [r [-> _]%uuid_app_inj].
  - intros ->. by eexists.
Qed.
Lemma node_label_key_prefix g l g' l' n :
  starts_with (encode_node_label_key g' l' n) (encode_node_label_prefix g l) = true ↔
  g' = g ∧ label_cut l' = label_cut l.
Proof.
  rewrite starts_with_spec. unfold encode_node_label_key, encode_node_label_prefix, encode_uuid.
  split.
  - intros [r H]. rewrite <- (assoc_L (++)) in H.
    apply uuid_app_inj in H as [-> [? _]%encode_label_app_inj]. done.
  - intros [-> Hc]. exists (uuid_bytes n). rewrite (encode_label_cut l' l) by done.
    by rewrite (assoc_L (++)).
Qed.
Lemma adj_out_key_prefix g s g' s' l' e :
  starts_with (encode_adj_out_key g' s' l' e) (encode_adj_out_prefix g s) = true ↔ g' = g ∧ s' = s.
Proof.
  rewrite starts_with_spec. unfold encode_adj_out_key, encode_adj_out_prefix, encode_uuid. split.
  - intros [r H]. rewrite <- (assoc_L (++)) in H.
    by apply uuid_app_inj in H as [-> [-> _]%uuid_app_inj].
  - intros [-> ->]. exists (encode_label l' ++ uuid_bytes e). by rewrite (assoc_L (++)).
Qed.
Lemma adj_out_key_label_prefix g s l g' s' l' e :
  starts_with (encode_adj_out_key g' s' l' e) (encode_adj_out_label_prefix g s l) = true ↔
  g' = g ∧ s' = s ∧ label_cut l' = label_cut l.
Proof.
  rewrite starts_with_spec. unfold encode_adj_out_key, encode_adj_out_label_prefix, encode_uuid.
  split.
  - intros [r H]. rewrite <- !(assoc_L (++)) in H.
    by apply uuid_app_inj in H as [-> [-> [? _]%encode_label_app_inj]%uuid_app_inj].
  - intros (-> & -> & Hc). exists (uuid_bytes e). rewrite (encode_label_cut l' l) by done.
    by rewrite <- !(assoc_L (++)).
Qed.
