(* ===== verification/Mvcc.v ===== *)
(** * The multi-version store (synaptica-storage/src/mvcc.rs)

    Timestamps, versioned keys and the operations of [MvccStore]. A version of a user key is
    the key followed by the eight bytes of the complemented timestamp, so that newer versions
    come first. The abstract reading of the store is [visible]: the newest version at or below
    the snapshot decides, and an empty value is a deletion. *)
From S2P Require Import Prelude Rocks.

Inductive MvccError : Type := Internal | Serialization | Deserialization | NotFound.
#[export] Instance MvccError_eq_dec : EqDecision MvccError.
Proof. solve_decision. Defined.

(** ** Versioned keys *)
Definition encode_versioned_key (key : bytes) (timestamp : Z) : bytes :=
  key ++ be_bytes 8 (not64 timestamp).
Definition decode_versioned_timestamp (vk : bytes) : option Z :=
  if decide (length vk < 8)%nat then None else Some (not64 (be_val (drop (length vk - 8) vk))).
Definition extract_key_prefix (vk : bytes) : bytes :=
  if decide (8 ≤ length vk)%nat then take (length vk - 8) vk else vk.
(** [decode_versioned_timestamp(&k).unwrap_or(0)] *)
Definition version_ts (vk : bytes) : Z := default 0 (decode_versioned_timestamp vk).

Definition TOMBSTONE : bytes := [].
Definition is_tombstone (value : bytes) : bool := match value with [] => true | _ => false end.

(** ** The timestamp oracle: the state is the value of its atomic counter *)
Definition TS_ORACLE_KEY : bytes := str_bytes "__ts_oracle_counter__".
Definition oracle_new : Z := 1.
Definition oracle_new_from_persisted (persisted_ts : Z) : Z := wrap64 (persisted_ts + 1).
Definition oracle_load_from_db `{RocksDB db} (d : db) : Z :=
  oracle_new_from_persisted
    (match get_cf d ColumnFamilies.DEFAULT TS_ORACLE_KEY with
     | Some b => if decide (length b = 8%nat) then be_val b else 0
     | None => 0
     end).
Definition oracle_persist_to_db `{RocksDB db} (counter : Z) (d : db) : db :=
  put_cf d ColumnFamilies.DEFAULT TS_ORACLE_KEY (be_bytes 8 counter).
(** [next]: the timestamp handed out and the new counter. *)
Definition oracle_next (counter : Z) : Z * Z := (counter, wrap64 (counter + 1)).
Definition oracle_current (counter : Z) : Z := counter.

(** ** The operations of [MvccStore] *)
Section ops.
Context `{RocksDB db}.

Definition put_at (d : db) (cf_name : string) (key value : bytes) (timestamp : Z) : result MvccError db :=
  match cf_handle cf_name with
  | None => Err Internal
  | Some cf => Ok (put_cf d cf (encode_versioned_key key timestamp) value)
  end.
Definition delete_at (d : db) (cf_name : string) (key : bytes) (timestamp : Z) : result MvccError db :=
  put_at d cf_name key TOMBSTONE timestamp.

Fixpoint get_at_loop (key : bytes) (snapshot_ts : Z) (items : list (bytes * bytes)) : option bytes :=
  match items with
  | [] => None
  | (k, v) :: items' =>
      if decide (extract_key_prefix k = key) then
        if version_ts k <=? snapshot_ts then
          if is_tombstone v then None else Some v
        else get_at_loop key snapshot_ts items'
      else None
  end.
Definition get_at (d : db) (cf_name : string) (key : bytes) (snapshot_ts : Z)
    : result MvccError (option bytes) :=
  match cf_handle cf_name with
  | None => Err Internal
  | Some cf =>
      Ok (get_at_loop key snapshot_ts (iterator_from d cf (encode_versioned_key key u64_max)))
  end.

Fixpoint scan_at_loop (prefix : bytes) (snapshot_ts : Z) (last_key : option bytes)
    (items : list (bytes * bytes)) : list (bytes * bytes) :=
  match items with
  | [] => []
  | (k, v) :: items' =>
      let key_prefix := extract_key_prefix k in
      if negb (starts_with key_prefix prefix) then []
      else if decide (last_key = Some key_prefix) then scan_at_loop prefix snapshot_ts last_key items'
      else if version_ts k <=? snapshot_ts then
        let rest := scan_at_loop prefix snapshot_ts (Some key_prefix) items' in
        if is_tombstone v then rest else (key_prefix, v) :: rest
      else scan_at_loop prefix snapshot_ts last_key items'
  end.
Definition prefix_scan_at (d : db) (cf_name : string) (prefix : bytes) (snapshot_ts : Z)
    : result MvccError (list (bytes * bytes)) :=
  match cf_handle cf_name with
  | None => Err Internal
  | Some cf =>
      Ok (scan_at_loop prefix snapshot_ts None
            (iterator_from d cf (encode_versioned_key prefix u64_max)))
  end.

(** The write set of a transaction: column family, key, value ([None] deletes). *)
Fixpoint versioned_batch (writes : list (string * bytes * option bytes)) (timestamp : Z)
    : result MvccError WriteBatch :=
  match writes with
  | [] => Ok []
  | (cf_name, key, value) :: writes' =>
      match cf_handle cf_name with
      | None => Err Internal
      | Some cf =>
          match versioned_batch writes' timestamp with
          | Err e => Err e
          | Ok b => Ok (BatchPut cf (encode_versioned_key key timestamp) (default TOMBSTONE value) :: b)
          end
      end
  end.
Definition batch_write_at (d : db) (writes : list (string * bytes * option bytes)) (timestamp : Z)
    : result MvccError db :=
  match versioned_batch writes timestamp with Err e => Err e | Ok b => Ok (write d b) end.
Definition batch_put_at (d : db) (writes : list (string * bytes * bytes)) (timestamp : Z)
    : result MvccError db :=
  batch_write_at d ((λ w, (w.1.1, w.1.2, Some w.2)) <$> writes) timestamp.

(** The keys the collector marks, given the group it is in and whether the version visible at
    the watermark was already met in that group. *)
Fixpoint gc_loop (prefix : bytes) (watermark : Z) (last_key : option bytes) (found_visible : bool)
    (items : list (bytes * bytes)) : list bytes :=
  match items with
  | [] => []
  | (k, _) :: items' =>
      let key_prefix := extract_key_prefix k in
      if negb (starts_with key_prefix prefix) then []
      else
        let found := if decide (last_key = Some key_prefix) then found_visible else false in
        if version_ts k <=? watermark then
          if found then k :: gc_loop prefix watermark (Some key_prefix) true items'
          else gc_loop prefix watermark (Some key_prefix) true items'
        else gc_loop prefix watermark (Some key_prefix) found items'
  end.
Definition gc_before (d : db) (cf_name : string) (prefix : bytes) (watermark : Z)
    : result MvccError (nat * db) :=
  match cf_handle cf_name with
  | None => Err Internal
  | Some cf =>
      let to_delete :=
        gc_loop prefix watermark None false
          (iterator_from d cf (encode_versioned_key prefix u64_max)) in
      Ok (length to_delete, write d (BatchDelete cf <$> to_delete))
  end.
End ops.

(** ** Versioned keys: round trip and order *)
Lemma not64_range ts : is_u64 ts → 0 ≤ not64 ts < 256 ^ Z.of_nat 8.
Proof. rewrite <- two64_256. unfold is_u64, not64, u64_max. lia. Qed.
Lemma not64_involutive ts : not64 (not64 ts) = ts.
Proof. unfold not64. lia. Qed.

Lemma length_encode_versioned_key key ts : length (encode_versioned_key key ts) = (length key + 8)%nat.
Proof. unfold encode_versioned_key. by rewrite length_app, length_be_bytes. Qed.
Lemma extract_encode key ts : extract_key_prefix (encode_versioned_key key ts) = key.
Proof.
  unfold extract_key_prefix. rewrite length_encode_versioned_key, decide_True by lia.
  unfold encode_versioned_key. by rewrite take_app_length' by lia.
Qed.
Lemma version_ts_encode key ts : is_u64 ts → version_ts (encode_versioned_key key ts) = ts.
Proof.
  intros Hts. unfold version_ts, decode_versioned_timestamp.
  rewrite length_encode_versioned_key, decide_False by lia.
  unfold encode_versioned_key. rewrite drop_app_length' by lia. cbn [from_option id].
  rewrite be_val_be_bytes by by apply not64_range. apply not64_involutive.
Qed.
Lemma decode_encode_version key ts :
  is_u64 ts → decode_versioned_timestamp (encode_versioned_key key ts) = Some ts.
Proof.
  intros Hts. pose proof (version_ts_encode key ts Hts) as H. unfold version_ts in H.
  unfold decode_versioned_timestamp in *.
  rewrite length_encode_versioned_key, decide_False in * by lia. cbn in H. by rewrite H.
Qed.
(** Every key of at least eight bytes is a version of its prefix. *)
Lemma encode_extract vk :
  (8 ≤ length vk)%nat → encode_versioned_key (extract_key_prefix vk) (version_ts vk) = vk ∧ is_u64 (version_ts vk).
Proof.
  intros Hl. unfold extract_key_prefix, version_ts, decode_versioned_timestamp.
  rewrite decide_True, decide_False by lia. cbn [from_option id].
  assert (length (drop (length vk - 8) vk) = 8%nat) as Hd by (rewrite length_drop; lia).
  pose proof (be_val_range (drop (length vk - 8) vk)) as Hr.
  rewrite Hd, <- two64_256 in Hr. split.
  - unfold encode_versioned_key. rewrite not64_involutive.
    rewrite <- Hd at 2. by rewrite be_bytes_be_val, take_drop.
  - unfold is_u64, not64, u64_max. lia.
Qed.
Lemma encode_versioned_key_lt key ts1 ts2 :
  is_u64 ts1 → is_u64 ts2 →
  bytes_lt (encode_versioned_key key ts1) (encode_versioned_key key ts2) ↔ ts2 < ts1.
Proof.
  intros H1 H2. unfold encode_versioned_key. rewrite bytes_lt_app_l.
  rewrite bytes_lt_be_bytes by by apply not64_range. unfold not64. lia.
Qed.
Lemma encode_versioned_key_inj k1 t1 k2 t2 :
  is_u64 t1 → is_u64 t2 →
  encode_versioned_key k1 t1 = encode_versioned_key k2 t2 → k1 = k2 ∧ t1 = t2.
Proof.
  intros H1 H2 H. split.
  - by rewrite <- (extract_encode k1 t1), H, extract_encode.
  - by rewrite <- (version_ts_encode k1 t1), H, version_ts_encode.
Qed.
Lemma encode_max key : encode_versioned_key key u64_max = key ++ replicate 8 Byte.x00.
Proof. reflexivity. Qed.
Lemma zeros_le n l : (n ≤ length l)%nat → bytes_le (replicate n Byte.x00) l.
Proof.
  revert l. induction n as [|n IH]; intros l Hl; [apply bytes_le_nil|].
  destruct l as [|b l]; cbn in Hl; [lia|]. apply bytes_le_not_lt. cbn.
  rewrite bytes_lt_cons. intros [Hb|[_ Hlt]].
  - change (bval Byte.x00) with 0 in Hb. pose proof (bval_range b). lia.
  - revert Hlt. apply bytes_le_not_lt, IH. lia.
Qed.
Lemma scan_start_le key rest : (8 ≤ length rest)%nat → bytes_le (encode_versioned_key key u64_max) (key ++ rest).
Proof. intros. rewrite encode_max, bytes_le_app_l. by apply zeros_le. Qed.
Lemma scan_start_le_version key ts : bytes_le (encode_versioned_key key u64_max) (encode_versioned_key key ts).
Proof. apply scan_start_le. by rewrite length_be_bytes. Qed.
(** The start of a scan for [key] is above [key] itself, hence above no version of it. *)
Lemma scan_start_not_short key k :
  bytes_le (encode_versioned_key key u64_max) k → extract_key_prefix k = key → (8 ≤ length k)%nat.
Proof.
  intros Hle He. unfold extract_key_prefix in He. case_decide; [done|]. subst k.
  rewrite encode_max in Hle. rewrite <- (app_nil_r key) in Hle at 2.
  apply bytes_le_app_l, bytes_le_not_lt in Hle. by destruct Hle.
Qed.

(** ** What a snapshot sees *)
Section visible.
Context `{RocksDB db}.

(** The version of [key] written at [ts], if any. *)
Definition version (d : db) (cf : string) (key : bytes) (ts : Z) : option bytes :=
  get_cf d cf (encode_versioned_key key ts).
Definition newest (d : db) (cf : string) (key : bytes) (snap ts : Z) (v : bytes) : Prop :=
  is_u64 ts ∧ ts ≤ snap ∧ version d cf key ts = Some v ∧
  ∀ ts', is_u64 ts' → ts < ts' ≤ snap → version d cf key ts' = None.
(** [r] is what a read of [key] at snapshot [snap] must return. *)
Definition visible (d : db) (cf : string) (key : bytes) (snap : Z) (r : option bytes) : Prop :=
  (∃ ts v, newest d cf key snap ts v ∧ r = if is_tombstone v then None else Some v) ∨
  ((∀ ts, is_u64 ts → ts ≤ snap → version d cf key ts = None) ∧ r = None).

(** No key of the column family other than a version of [key] begins with [key]. Keys of
    fixed length, as the graph's own, always satisfy this. *)
Definition isolated (d : db) (cf : string) (key : bytes) : Prop :=
  ∀ k v, get_cf d cf k = Some v → starts_with k key = true → length k = (length key + 8)%nat.
(** Every key of the column family that begins with [prefix] has [len] bytes before its
    timestamp. *)
Definition uniform (d : db) (cf : string) (prefix : bytes) (len : nat) : Prop :=
  (length prefix ≤ len)%nat ∧
  ∀ k v, get_cf d cf k = Some v → starts_with k prefix = true → length k = (len + 8)%nat.
End visible.

Lemma cf_handle_open cf : cf ∈ ColumnFamilies.all → cf_handle cf = Some cf.
Proof. intros. unfold cf_handle. by rewrite decide_True. Qed.
Lemma cf_handle_Some cf cf' : cf_handle cf = Some cf' → cf' = cf ∧ cf ∈ ColumnFamilies.all.
Proof. unfold cf_handle. case_decide; [by intros [= ->]|done]. Qed.

Section reads.
Context `{RocksDBLaws db}.
Implicit Types (d : db) (cf : string) (key k v : bytes).

Lemma visible_functional d cf key snap r1 r2 :
  visible d cf key snap r1 → visible d cf key snap r2 → r1 = r2.
Proof.
  intros [(t1 & v1 & (? & ? & Hv1 & Hn1) & ->)|[Hn1 ->]]
         [(t2 & v2 & (? & ? & Hv2 & Hn2) & ->)|[Hn2 ->]]; [| | |done].
  - destruct (Z.lt_trichotomy t1 t2) as [?|[->|?]].
    + rewrite (Hn1 t2) in Hv2 by (done || lia). done.
    + rewrite Hv1 in Hv2. by simplify_eq.
    + rewrite (Hn2 t1) in Hv1 by (done || lia). done.
  - by rewrite Hn2 in Hv1.
  - by rewrite Hn1 in Hv2.
Qed.

(** The loop of [get_at] on a sorted tail of the iterator that still holds every version the
    snapshot can see. *)
Lemma get_at_loop_visible d cf key snap l :
  isolated d cf key → StronglySorted key_lt l →
  (∀ k v, (k, v) ∈ l → get_cf d cf k = Some v ∧ bytes_le (encode_versioned_key key u64_max) k) →
  (∀ ts v, is_u64 ts → ts ≤ snap → version d cf key ts = Some v → (encode_versioned_key key ts, v) ∈ l) →
  visible d cf key snap (get_at_loop key snap l).
Proof.
  intros Hiso Hs. induction Hs as [|[k v] l Hs IH Hall]; intros Hin Hall_in; cbn.
  { right. split; [|done]. intros ts Hu Hle. destruct (version d cf key ts) eqn:E; [|done].
    by apply Hall_in, not_elem_of_nil in E. }
  rewrite Forall_forall in Hall.
  destruct (Hin k v) as [Hk Hstart]; [left|].
  case_decide as Hex.
  - pose proof (scan_start_not_short key k Hstart Hex) as Hlen.
    destruct (encode_extract k Hlen) as [Henc Hts]. rewrite Hex in Henc.
    destruct (Z.leb_spec (version_ts k) snap) as [Hle|Hgt].
    + left. exists (version_ts k), v. split; [|done].
      split; [done|]. split; [done|]. split; [unfold version; by rewrite Henc|].
      intros ts' Hu Hts'. destruct (version d cf key ts') as [v'|] eqn:E; [exfalso|done].
      apply Hall_in in E; [|done|lia]. apply elem_of_cons in E as [[= E]|E].
      * rewrite <- E, version_ts_encode in Hts' by done. lia.
      * apply Hall in E. unfold key_lt in E. cbn in E. rewrite <- Henc in E.
        apply encode_versioned_key_lt in E; [lia|done|done].
    + apply IH.
      * intros k' v' ?. apply Hin. by right.
      * intros ts v' Hu Hle E. apply Hall_in in E; [|done|done].
        apply elem_of_cons in E as [[= E _]|E]; [|done].
        rewrite <- E, version_ts_encode in Hgt by done. lia.
  - right. split; [|done]. intros ts Hu Hle.
    destruct (version d cf key ts) as [v'|] eqn:E; [exfalso|done].
    apply Hall_in in E; [|done|done]. apply elem_of_cons in E as [[= E _]|E].
    + subst k. by rewrite extract_encode in Hex.
    + apply Hall in E. unfold key_lt in E. cbn in E.
      assert (starts_with k key = true) as Hp.
      { eapply starts_with_between; [exact Hstart|]. apply bytes_lt_le, E. }
      pose proof (Hiso _ _ Hk Hp) as Hlen. apply starts_with_spec in Hp as [r ->].
      rewrite length_app in Hlen. apply Hex. unfold extract_key_prefix.
      rewrite decide_True by (rewrite length_app; lia).
      rewrite length_app. by rewrite take_app_length' by lia.
Qed.

Lemma version_in_iterator d cf key ts v :
  version d cf key ts = Some v →
  (encode_versioned_key key ts, v) ∈ iterator_from d cf (encode_versioned_key key u64_max).
Proof. intros. apply elem_of_iterator_from. split; [done|apply scan_start_le_version]. Qed.

Lemma get_at_spec d cf key snap :
  cf ∈ ColumnFamilies.all → isolated d cf key →
  ∃ r, get_at d cf key snap = Ok r ∧ visible d cf key snap r.
Proof.
  intros Hcf Hiso. unfold get_at. rewrite cf_handle_open by done. eexists. split; [done|].
  eapply get_at_loop_visible; [done|apply iterator_from_sorted| |].
  - intros k v Hin. by apply elem_of_iterator_from in Hin.
  - intros ts v _ _. apply version_in_iterator.
Qed.
Lemma get_at_iff d cf key snap r :
  cf ∈ ColumnFamilies.all → isolated d cf key →
  get_at d cf key snap = Ok r ↔ visible d cf key snap r.
Proof.
  intros Hcf Hiso. destruct (get_at_spec d cf key snap Hcf Hiso) as (r' & Hg & Hv). split.
  - rewrite Hg. by intros [= ->].
  - intros Hr. rewrite Hg. f_equal. by eapply visible_functional.
Qed.

(** A key that is stored for a longer user key and sorts before every version of [key] makes
    the read stop at once. *)
Lemma get_at_loop_blocked key snap l :
  (∃ k v l', l = (k, v) :: l' ∧ extract_key_prefix k ≠ key) → get_at_loop key snap l = None.
Proof. intros (k & v & l' & -> & Hne). cbn. by rewrite decide_False. Qed.

Lemma get_at_blocked d cf key snap k v :
  cf ∈ ColumnFamilies.all →
  get_cf d cf k = Some v → starts_with k key = true → (length key + 8 < length k)%nat →
  (∀ k' v', get_cf d cf k' = Some v' → bytes_le (encode_versioned_key key u64_max) k' →
     extract_key_prefix k' = key → bytes_lt k k') →
  get_at d cf key snap = Ok None.
Proof.
  intros Hcf Hk Hp Hlen Hfirst. unfold get_at. rewrite cf_handle_open by done. f_equal.
  apply get_at_loop_blocked.
  pose proof (iterator_from_sorted d cf (encode_versioned_key key u64_max)) as Hs.
  assert (bytes_le (encode_versioned_key key u64_max) k) as Hle.
  { apply starts_with_spec in Hp as [r ->]. rewrite length_app in Hlen. apply scan_start_le. lia. }
  assert ((k, v) ∈ iterator_from d cf (encode_versioned_key key u64_max)) as Hin.
  { by apply elem_of_iterator_from. }
  assert (∀ k' v', (k', v') ∈ iterator_from d cf (encode_versioned_key key u64_max) →
    get_cf d cf k' = Some v' ∧ bytes_le (encode_versioned_key key u64_max) k') as Hspec.
  { intros k' v'. by rewrite elem_of_iterator_from. }
  destruct Hs as [|[k0 v0] l Hs Hall]; [by apply not_elem_of_nil in Hin|].
  exists k0, v0, l. split; [done|]. intros Hex.
  destruct (Hspec k0 v0) as [Hk0 Hle0]; [left|].
  pose proof (Hfirst _ _ Hk0 Hle0 Hex) as Hlt.
  apply elem_of_cons in Hin as [[= <- <-]|Hin]; [by apply bytes_lt_irrefl in Hlt|].
  rewrite Forall_forall in Hall. apply Hall in Hin. by apply (bytes_lt_asymm k k0).
Qed.
End reads.

(** ** Grouping: with keys of one length, the sorted order keeps the versions of a key together *)
Lemma extract_key_prefix_le k1 k2 :
  length k1 = length k2 → bytes_lt k1 k2 → bytes_le (extract_key_prefix k1) (extract_key_prefix k2).
Proof.
  intros Hl Hlt. unfold extract_key_prefix. rewrite <- Hl. case_decide; [|auto using bytes_lt_le].
  apply bytes_le_not_lt. intros Hc. apply (bytes_lt_asymm k1 k2 Hlt).
  rewrite <- (take_drop (length k1 - 8) k1), <- (take_drop (length k1 - 8) k2).
  apply bytes_lt_app_r; [rewrite !length_take; lia|done].
Qed.
Lemma extract_starts_with k prefix :
  (length prefix + 8 ≤ length k)%nat →
  starts_with (extract_key_prefix k) prefix = starts_with k prefix.
Proof.
  intros Hl. apply eq_true_iff_eq. rewrite !starts_with_spec.
  unfold extract_key_prefix. rewrite decide_True by lia. split.
  - intros [r Hr]. exists (r ++ drop (length k - 8) k).
    rewrite (assoc_L (++)), <- Hr. by rewrite take_drop.
  - intros [r ->]. rewrite length_app in *. rewrite take_app_ge by lia. eauto.
Qed.

(** What the tail of a scan must satisfy for the loops to group versions correctly. *)
Definition scan_tail (prefix : bytes) (len : nat) (l : list (bytes * bytes)) : Prop :=
  StronglySorted key_lt l ∧
  ∀ k v, (k, v) ∈ l → bytes_le prefix k ∧ (starts_with k prefix = true → length k = (len + 8)%nat).
(** The group the loop is in is not above any group still to come. *)
Definition group_le (prefix : bytes) (last : option bytes) (l : list (bytes * bytes)) : Prop :=
  ∀ g k v, last = Some g → (k, v) ∈ l → starts_with k prefix = true → bytes_le g (extract_key_prefix k).
(** The newest version of [key] at [snap] among the items of a scan. *)
Definition newest_in (l : list (bytes * bytes)) (key : bytes) (snap : Z) (v : bytes) : Prop :=
  ∃ ts, is_u64 ts ∧ ts ≤ snap ∧ (encode_versioned_key key ts, v) ∈ l ∧
    ∀ ts' v', is_u64 ts' → (encode_versioned_key key ts', v') ∈ l → ts < ts' → snap < ts'.

Section groups.
Context (prefix : bytes) (len : nat) (Hlen : (length prefix ≤ len)%nat).
Implicit Types (k v key : bytes) (l : list (bytes * bytes)).

Lemma scan_tail_cons x l : scan_tail prefix len (x :: l) → scan_tail prefix len l.
Proof.
  intros [Hs Hin]. inversion Hs; subst. split; [done|]. intros k v ?. apply (Hin k v). by right.
Qed.
(** Once an item is outside the prefix, all later ones are. *)
Lemma scan_tail_break k v l :
  scan_tail prefix len ((k, v) :: l) → starts_with (extract_key_prefix k) prefix = false →
  ∀ k' v', (k', v') ∈ (k, v) :: l → starts_with k' prefix = false.
Proof.
  intros [Hs Hin] Hb.
  assert (starts_with k prefix = false) as Hk.
  { apply not_true_iff_false. intros Hp. destruct (Hin k v) as [_ Hl]; [left|].
    rewrite extract_starts_with in Hb by (rewrite Hl by done; lia). congruence. }
  intros k' v' Hin'. apply not_true_iff_false. intros Hp.
  apply elem_of_cons in Hin' as [[= -> ->]|Hin']; [congruence|].
  inversion Hs as [|? ? _ Hall]; subst. rewrite Forall_forall in Hall. apply Hall in Hin'.
  destruct (Hin k v) as [Hle _]; [left|].
  rewrite (starts_with_convex prefix k k') in Hk; [done|done|by apply bytes_lt_le|done].
Qed.
Lemma extract_starts_with_key k : starts_with (extract_key_prefix k) prefix = true → starts_with k prefix = true.
Proof.
  intros [r Hr]%starts_with_spec. apply starts_with_spec.
  unfold extract_key_prefix in Hr. case_decide; [|eauto].
  exists (r ++ drop (length k - 8) k). by rewrite (assoc_L (++)), <- Hr, take_drop.
Qed.
Lemma encode_starts_with key ts :
  starts_with key prefix = true → starts_with (encode_versioned_key key ts) prefix = true.
Proof.
  intros [r ->]%starts_with_spec. apply starts_with_spec.
  unfold encode_versioned_key. rewrite <- (assoc_L (++)). eauto.
Qed.
(** Every item whose group carries the prefix is a version of its group. *)
Lemma scan_tail_item l k v :
  scan_tail prefix len l → (k, v) ∈ l → starts_with (extract_key_prefix k) prefix = true →
  starts_with k prefix = true ∧ length k = (len + 8)%nat ∧
  encode_versioned_key (extract_key_prefix k) (version_ts k) = k ∧ is_u64 (version_ts k).
Proof.
  intros [Hs Hin] Hkv Hp. destruct (Hin k v Hkv) as [Hle Hl].
  assert (starts_with k prefix = true) as Hk by by apply extract_starts_with_key.
  destruct (encode_extract k) as [Heq ?]; [rewrite Hl by done; lia|]. auto.
Qed.
Lemma scan_tail_head k v l :
  scan_tail prefix len ((k, v) :: l) → starts_with (extract_key_prefix k) prefix = true →
  starts_with k prefix = true ∧ length k = (len + 8)%nat ∧
  encode_versioned_key (extract_key_prefix k) (version_ts k) = k ∧ is_u64 (version_ts k).
Proof. intros Ht. apply (scan_tail_item _ _ v Ht). left. Qed.
(** Items of the head's group that come later are older. *)
Lemma scan_tail_older k v l k' v' :
  scan_tail prefix len ((k, v) :: l) → starts_with (extract_key_prefix k) prefix = true →
  (k', v') ∈ l → extract_key_prefix k' = extract_key_prefix k → version_ts k' < version_ts k.
Proof.
  intros Ht Hp Hin Hex.
  destruct (scan_tail_head k v l Ht Hp) as (_ & _ & He & Hu).
  destruct (scan_tail_item _ k' v' Ht) as (_ & _ & He' & Hu'); [by right|by rewrite Hex|].
  destruct Ht as [Hs _]. inversion Hs as [|? ? _ Hall]; subst.
  rewrite Forall_forall in Hall. apply Hall in Hin. unfold key_lt in Hin. cbn in Hin.
  rewrite <- He, <- He', Hex in Hin. by apply encode_versioned_key_lt in Hin.
Qed.
Lemma group_le_head k v l :
  scan_tail prefix len ((k, v) :: l) → starts_with (extract_key_prefix k) prefix = true →
  group_le prefix (Some (extract_key_prefix k)) l.
Proof.
  intros Ht Hp g k' v' [= <-] Hin Hp'.
  destruct (scan_tail_head k v l Ht Hp) as (_ & Hl & _).
  destruct Ht as [Hs Hl']. inversion Hs as [|? ? _ Hall]; subst. rewrite Forall_forall in Hall.
  apply extract_key_prefix_le; [|by apply (Hall (k', v'))].
  destruct (Hl' k' v') as [_ ->]; [by right|done..].
Qed.
Lemma group_le_cons last x l : group_le prefix last (x :: l) → group_le prefix last l.
Proof. intros Hg g k v ? ?. apply (Hg g k v); [done|by right]. Qed.
(** A group left behind never comes back. *)
Lemma group_left last k v l k' v' :
  scan_tail prefix len ((k, v) :: l) → starts_with (extract_key_prefix k) prefix = true →
  group_le prefix last ((k, v) :: l) → last = Some (extract_key_prefix k') →
  (k', v') ∈ l → starts_with (extract_key_prefix k') prefix = true →
  extract_key_prefix k' = extract_key_prefix k.
Proof.
  intros Ht Hp Hg -> Hin Hkp. apply bytes_le_antisymm.
  - apply (Hg (extract_key_prefix k') k v); [done|left|]. apply (scan_tail_head k v l Ht Hp).
  - apply (group_le_head k v l Ht Hp _ _ v'); [done..|]. by apply extract_starts_with_key.
Qed.

Lemma newest_in_other k v l key snap v0 :
  extract_key_prefix k ≠ key → newest_in ((k, v) :: l) key snap v0 ↔ newest_in l key snap v0.
Proof.
  intros Hne. unfold newest_in. apply exist_proper. intros ts.
  assert (∀ ts' w, (encode_versioned_key key ts', w) ∈ (k, v) :: l ↔ (encode_versioned_key key ts', w) ∈ l) as Hiff.
  { intros. rewrite elem_of_cons. split; [|auto]. intros [[= <- _]|]; [|done].
    by rewrite extract_encode in Hne. }
  setoid_rewrite Hiff. done.
Qed.
Lemma newest_in_skip k v l key snap v0 :
  snap < version_ts k → newest_in ((k, v) :: l) key snap v0 ↔ newest_in l key snap v0.
Proof.
  intros Hlt. unfold newest_in. split; intros (ts & Hu & Hle & Hin & Hn); exists ts.
  - apply elem_of_cons in Hin as [[= <- _]|Hin]; [rewrite version_ts_encode in Hlt by done; lia|].
    split_and!; [done..|]. intros ts' v' ???. eapply Hn; [done|by right|done].
  - split_and!; [done..|by right|]. intros ts' v' Hu' [[= <- _]|Hin']%elem_of_cons ?; [|by eapply Hn].
    by rewrite version_ts_encode in Hlt.
Qed.
Lemma newest_in_hit k v l snap v0 :
  StronglySorted key_lt ((k, v) :: l) → (8 ≤ length k)%nat → version_ts k ≤ snap →
  newest_in ((k, v) :: l) (extract_key_prefix k) snap v0 ↔ v0 = v.
Proof.
  intros Hs Hl Hle. destruct (encode_extract k Hl) as [Henc Hu].
  inversion Hs as [|? ? _ Hall]; subst. rewrite Forall_forall in Hall.
  assert (∀ ts w, is_u64 ts → (encode_versioned_key (extract_key_prefix k) ts, w) ∈ l → ts < version_ts k) as Hlt.
  { intros ts w Hts Hin%Hall. unfold key_lt in Hin. cbn in Hin. rewrite <- Henc in Hin at 1.
    by apply encode_versioned_key_lt in Hin. }
  unfold newest_in. split.
  - intros (ts & Hts & _ & [[= _ ?]|Hin]%elem_of_cons & Hn); [done|exfalso].
    specialize (Hn (version_ts k) v Hu). rewrite Henc in Hn.
    apply Hlt in Hin; [|done]. assert (snap < version_ts k) by (apply Hn; [left|done]). lia.
  - intros ->. exists (version_ts k). rewrite Henc. split_and!; [done..|left|].
    intros ts' v' Hu' [Heq|Hin]%elem_of_cons ?.
    + injection Heq as Heq _. rewrite <- Henc in Heq at 2.
      apply encode_versioned_key_inj in Heq as [_ ?]; [lia|done..].
    + apply Hlt in Hin; [lia|done].
Qed.
Lemma scan_at_loop_spec snap last l key v :
  scan_tail prefix len l → group_le prefix last l →
  (key, v) ∈ scan_at_loop prefix snap last l ↔
  last ≠ Some key ∧ starts_with key prefix = true ∧ v ≠ TOMBSTONE ∧ newest_in l key snap v.
Proof.
  revert last. induction l as [|[k0 v0] l IH]; intros last Ht Hg; cbn [scan_at_loop].
  { split; [by intros ?%not_elem_of_nil|].
    by intros (_ & _ & _ & ts & _ & _ & ?%not_elem_of_nil & _). }
  destruct (starts_with (extract_key_prefix k0) prefix) eqn:Hp; cbn [negb].
  2: { split; [by intros ?%not_elem_of_nil|]. intros (_ & Hk & _ & ts & _ & _ & Hin & _).
       pose proof (scan_tail_break k0 v0 l Ht Hp _ _ Hin) as Hf.
       by rewrite encode_starts_with in Hf. }
  pose proof (scan_tail_head k0 v0 l Ht Hp) as (_ & Hl0 & Henc & Hu0).
  pose proof (scan_tail_cons _ _ Ht) as Ht'.
  pose proof (group_le_cons _ _ _ Hg) as Hg'.
  case_decide as Hlast.
  - rewrite IH by done. destruct (decide (extract_key_prefix k0 = key)) as [<-|Hne]; [naive_solver|].
    by rewrite newest_in_other.
  - destruct (Z.leb_spec (version_ts k0) snap) as [Hle|Hgt].
    + specialize (IH (Some (extract_key_prefix k0)) Ht' (group_le_head k0 v0 l Ht Hp)).
      destruct (decide (extract_key_prefix k0 = key)) as [<-|Hne].
      * rewrite newest_in_hit; [|by destruct Ht|rewrite Hl0; lia|done].
        destruct v0 as [|b v0]; cbn; rewrite ?elem_of_cons, IH; naive_solver.
      * rewrite newest_in_other by done.
        assert (newest_in l key snap v → starts_with key prefix = true → last ≠ Some key) as Hnl.
        { intros (ts & _ & _ & Hin & _) Hk Heq. apply Hne. symmetry.
          rewrite <- (extract_encode key ts).
          apply (group_left last k0 v0 l _ v); by rewrite ?extract_encode. }
        destruct v0 as [|b v0]; cbn; rewrite ?elem_of_cons, IH; naive_solver.
    + rewrite IH by done. by rewrite newest_in_skip.
Qed.

(** The loop reports each key once, in increasing order. *)
Lemma scan_at_loop_sorted snap last l :
  scan_tail prefix len l → group_le prefix last l →
  StronglySorted key_lt (scan_at_loop prefix snap last l).
Proof.
  revert last. induction l as [|[k0 v0] l IH]; intros last Ht Hg; cbn [scan_at_loop]; [constructor|].
  destruct (starts_with (extract_key_prefix k0) prefix) eqn:Hp; cbn [negb]; [|constructor].
  pose proof (scan_tail_cons _ _ Ht) as Ht'.
  pose proof (group_le_cons _ _ _ Hg) as Hg'.
  pose proof (group_le_head k0 v0 l Ht Hp) as Hgh.
  case_decide; [by apply IH|]. destruct (version_ts k0 <=? snap); [|by apply IH].
  destruct (is_tombstone v0); [by apply IH|]. constructor; [by apply IH|].
  rewrite Forall_forall. intros [key v] Hin. apply scan_at_loop_spec in Hin; [|done..].
  destruct Hin as (Hne & Hk & _ & ts & _ & _ & Hin & _). unfold key_lt. cbn.
  pose proof (Hgh _ _ _ eq_refl Hin (encode_starts_with _ _ Hk)) as Hle.
  rewrite extract_encode in Hle. apply bytes_le_lt_or_eq in Hle as [?|Heq]; [done|congruence].
Qed.

(** A version is superseded when its key has a newer version at or below the watermark. *)
Definition superseded_in l (w : Z) k : Prop :=
  ∃ k' v', (k', v') ∈ l ∧ extract_key_prefix k' = extract_key_prefix k ∧
    version_ts k < version_ts k' ∧ version_ts k' ≤ w.
Lemma superseded_cons_iff k0 v0 l w k :
  superseded_in ((k0, v0) :: l) w k ↔
  (extract_key_prefix k0 = extract_key_prefix k ∧ version_ts k < version_ts k0 ∧ version_ts k0 ≤ w) ∨
  superseded_in l w k.
Proof.
  unfold superseded_in. setoid_rewrite elem_of_cons. split.
  - intros (k' & v' & [[= -> ->]|?] & ?); [by left|right; eauto].
  - intros [?|(k' & v' & ? & ?)]; [exists k0, v0|exists k', v']; auto.
Qed.

Lemma gc_loop_spec w last found l k :
  scan_tail prefix len l → group_le prefix last l →
  k ∈ gc_loop prefix w last found l ↔
  (∃ v, (k, v) ∈ l) ∧ starts_with (extract_key_prefix k) prefix = true ∧ version_ts k ≤ w ∧
  ((last = Some (extract_key_prefix k) ∧ found = true) ∨ superseded_in l w k).
Proof.
  revert last found. induction l as [|[k0 v0] l IH]; intros last found Ht Hg; cbn [gc_loop].
  { split; [by intros ?%not_elem_of_nil|]. by intros ([? ?%not_elem_of_nil] & _). }
  destruct (starts_with (extract_key_prefix k0) prefix) eqn:Hp; cbn [negb].
  2: { split; [by intros ?%not_elem_of_nil|]. intros ([v Hin] & Hk & _).
       pose proof (scan_tail_break k0 v0 l Ht Hp _ _ Hin) as Hf.
       apply extract_starts_with_key in Hk. congruence. }
  pose proof (λ k' v', scan_tail_older k0 v0 l k' v' Ht Hp) as Hold.
  assert (∀ v, (k, v) ∈ l → starts_with (extract_key_prefix k) prefix = true →
    last = Some (extract_key_prefix k) → extract_key_prefix k0 = extract_key_prefix k) as Hleft.
  { intros v ???. symmetry. by eapply group_left. }
  assert (¬ superseded_in l w k0) as Hnsup.
  { intros (k' & v' & Hin & Hex & Hlt & _). pose proof (Hold _ _ Hin Hex). lia. }
  assert (∀ found, k ∈ gc_loop prefix w (Some (extract_key_prefix k0)) found l ↔ _) as IH'
    by (intros f; apply (IH _ f (scan_tail_cons _ _ Ht) (group_le_head k0 v0 l Ht Hp))).
  clear IH. rewrite superseded_cons_iff. setoid_rewrite elem_of_cons.
  set (found' := if decide (last = Some (extract_key_prefix k0)) then found else false).
  assert (found' = true ↔ last = Some (extract_key_prefix k0) ∧ found = true) as Hf.
  { subst found'. case_decide; naive_solver. }
  clearbody found'. destruct (Z.leb_spec (version_ts k0) w) as [Hle|Hgt].
  - assert (k ∈ gc_loop prefix w (Some (extract_key_prefix k0)) true l ↔
      (∃ v, (k, v) ∈ l) ∧ starts_with (extract_key_prefix k) prefix = true ∧ version_ts k ≤ w ∧
      (extract_key_prefix k0 = extract_key_prefix k ∨ superseded_in l w k)) as Hrest.
    { rewrite IH'. split; intros (? & ? & ? & Hc); (split_and!; [done..|]).
      - destruct Hc as [[[= ?] _]|?]; auto.
      - destruct Hc as [->|?]; auto. }
    assert (k ∈ (if found' then k0 :: gc_loop prefix w (Some (extract_key_prefix k0)) true l
                 else gc_loop prefix w (Some (extract_key_prefix k0)) true l) ↔
            (found' = true ∧ k = k0) ∨ k ∈ gc_loop prefix w (Some (extract_key_prefix k0)) true l) as ->.
    { destruct found'; rewrite ?elem_of_cons; intuition congruence. }
    rewrite Hrest, Hf. split.
    + intros [[[-> ->] ->]|([v Hv] & Hk & Hw & Hc)].
      * split_and!; [by eauto|done..|by left].
      * split_and!; [by eauto|done..|]. destruct Hc as [Heq|?]; [|by right; right].
        right; left. split_and!; [done| |done]. by apply (Hold k v).
    + intros ([v [[= -> ->]|Hv]] & Hk & Hw & Hc).
      * left. destruct Hc as [?|[?|?]]; [done|lia|done].
      * right. split_and!; [by eauto|done..|].
        destruct Hc as [[Hl _]|[[? _]|?]]; [left; eauto|by left|by right].
  - rewrite IH'. split; intros ([v Hv] & Hk & Hw & Hc).
    + split_and!; [by eauto|done..|]. destruct Hc as [[[= Heq] Hft]|?]; [left|by auto].
      apply Hf in Hft as [-> ->]. by rewrite Heq.
    + destruct Hv as [[= -> _]|Hv]; [lia|]. split_and!; [by eauto|done..|].
      destruct Hc as [[Hl ->]|[?|?]]; [|lia|by right]. left.
      pose proof (Hleft v Hv Hk Hl) as Heq. rewrite Heq, Hf, Heq. done.
Qed.
End groups.

(** The write a batch leaves for one key: the last one in the batch. *)
Definition last_write (cf : string) (key : bytes) (writes : list (string * bytes * option bytes))
    : option (option bytes) :=
  foldl (λ acc w, if decide (w.1 = (cf, key)) then Some w.2 else acc) None writes.

Section theorems.
Context `{RocksDBLaws db}.
Implicit Types (d : db) (cf : string) (key k v prefix : bytes).

Lemma uniform_scan_tail d cf prefix len :
  uniform d cf prefix len → scan_tail prefix len (iterator_from d cf (encode_versioned_key prefix u64_max)).
Proof.
  intros [_ Hu]. split; [apply iterator_from_sorted|].
  intros k v [Hk Hle]%elem_of_iterator_from. split; [|by eauto].
  eapply bytes_le_trans; [apply bytes_le_app|exact Hle].
Qed.
Lemma group_le_none prefix l : group_le prefix None l.
Proof. by intros g k v. Qed.

Lemma newest_in_iterator d cf prefix key snap v :
  starts_with key prefix = true →
  newest_in (iterator_from d cf (encode_versioned_key prefix u64_max)) key snap v ↔
  ∃ ts, newest d cf key snap ts v.
Proof.
  intros Hk. unfold newest_in, newest, version.
  assert (∀ ts w, (encode_versioned_key key ts, w) ∈ iterator_from d cf (encode_versioned_key prefix u64_max)
    ↔ get_cf d cf (encode_versioned_key key ts) = Some w) as Hin.
  { intros ts w. rewrite elem_of_iterator_from. split; [tauto|]. intros ?. split; [done|].
    apply starts_with_spec in Hk as [r ->]. unfold encode_versioned_key at 2.
    rewrite <- (assoc_L (++)). apply scan_start_le. rewrite length_app, length_be_bytes. lia. }
  apply exist_proper. intros ts. setoid_rewrite Hin. split.
  - intros (? & ? & ? & Hn). split_and!; [done..|]. intros ts' Hu [? ?].
    apply eq_None_not_Some. intros [v' Hv]. specialize (Hn ts' v' Hu Hv). lia.
  - intros (? & ? & ? & Hn). split_and!; [done..|]. intros ts' v' Hu Hv ?.
    apply Z.nle_gt. intros ?. rewrite (Hn ts') in Hv by (done || lia). done.
Qed.

(** ** Scans *)
Lemma elem_of_prefix_scan_at d cf prefix len snap res :
  uniform d cf prefix len → prefix_scan_at d cf prefix snap = Ok res →
  StronglySorted key_lt res ∧
  ∀ key v, (key, v) ∈ res ↔ starts_with key prefix = true ∧ visible d cf key snap (Some v).
Proof.
  intros Hu. unfold prefix_scan_at. destruct (cf_handle cf) as [cf'|] eqn:Hcf; [|done].
  apply cf_handle_Some in Hcf as [-> _]. intros [= <-].
  pose proof (uniform_scan_tail _ _ _ _ Hu) as Ht. destruct Hu as [Hlen _].
  split; [by eapply scan_at_loop_sorted; try apply group_le_none|].
  intros key v. rewrite (scan_at_loop_spec prefix len) by (done || apply group_le_none).
  unfold visible. split.
  - intros (_ & Hk & Hv & Hn). split; [done|]. left.
    apply newest_in_iterator in Hn as [ts Hn]; [|done]. exists ts, v. split; [done|].
    by destruct v.
  - intros [Hk [(ts & w & Hn & Hr)|[_ ?]]]; [|done]. destruct w as [|b w]; [done|].
    cbn in Hr. injection Hr as ->. split_and!; [done..|].
    apply newest_in_iterator; eauto.
Qed.

(** ** Garbage collection *)
(** A stored version of [key] at [ts] that the collector may remove: a newer one exists at or
    below the watermark. *)
Definition superseded d cf key (w ts : Z) : Prop :=
  ∃ ts', is_u64 ts' ∧ ts < ts' ≤ w ∧ version d cf key ts' ≠ None.

Lemma gc_before_version d cf prefix len w n d' :
  uniform d cf prefix len → gc_before d cf prefix w = Ok (n, d') →
  ∀ key ts, is_u64 ts → version d' cf key ts = None ↔
    version d cf key ts = None ∨
    (starts_with key prefix = true ∧ superseded d cf key w ts).
Proof.
  intros Hu. unfold gc_before. destruct (cf_handle cf) as [cf'|] eqn:Hcf; [|done].
  apply cf_handle_Some in Hcf as [-> _]. intros [= _ <-] key ts Hts.
  pose proof (uniform_scan_tail _ _ _ _ Hu) as Ht. destruct Hu as [Hlen _].
  unfold version at 1. rewrite get_cf_delete_all.
  assert (starts_with key prefix = true → ∀ ts w,
    (encode_versioned_key key ts, w) ∈ iterator_from d cf (encode_versioned_key prefix u64_max)
    ↔ get_cf d cf (encode_versioned_key key ts) = Some w) as Hin.
  { intros [r ->]%starts_with_spec ts' w'. rewrite elem_of_iterator_from. split; [tauto|].
    intros ?. split; [done|]. unfold encode_versioned_key at 2.
    rewrite <- (assoc_L (++)). apply scan_start_le. rewrite length_app, length_be_bytes. lia. }
  case_decide as Hd.
  - split; [intros _|done]. destruct Hd as [_ Hd].
    apply (gc_loop_spec prefix len) in Hd; [|done..|apply group_le_none].
    rewrite extract_encode, version_ts_encode in Hd by done.
    destruct Hd as (_ & Hk & Hle & [[? _]|(k' & v' & Hin' & Hex & Hlt)]); [done|].
    rewrite extract_encode, version_ts_encode in * by done. right. split; [done|].
    destruct (scan_tail_item prefix len Hlen _ k' v' Ht Hin') as (_ & _ & He & Hu');
      [by rewrite Hex|].
    exists (version_ts k'). split_and!; [done|lia|lia|].
    rewrite <- He, Hex in Hin'. apply Hin in Hin'; [|done]. unfold version. by rewrite Hin'.
  - split; [by left|]. intros [?|[Hk (ts' & Hu' & [? ?] & Hv)]]; [done|].
    apply eq_None_not_Some. intros [v Hv1]. apply Hd. split; [done|].
    apply (gc_loop_spec prefix len); [done..|apply group_le_none|].
    rewrite extract_encode, version_ts_encode by done.
    split_and!; [|done|lia|right].
    + exists v. by apply Hin.
    + apply not_eq_None_Some in Hv as [v' Hv].
      exists (encode_versioned_key key ts'), v'. rewrite !extract_encode, !version_ts_encode by done.
      split_and!; [by apply Hin|done|lia|lia].
Qed.
Lemma gc_before_cf d cf prefix w n d' :
  gc_before d cf prefix w = Ok (n, d') → cf ∈ ColumnFamilies.all ∧
  ∀ cf' k v, get_cf d' cf' k = Some v → get_cf d cf' k = Some v.
Proof.
  unfold gc_before. destruct (cf_handle cf) as [cf'|] eqn:Hcf; [|done].
  apply cf_handle_Some in Hcf as [-> ?]. intros [= _ <-]. split; [done|].
  intros cf' k v. rewrite get_cf_delete_all. by case_decide.
Qed.

(** Collection at [w] leaves a version at or below [w] wherever there was one. *)
Lemma gc_before_survivor d cf prefix len w n d' key ts :
  uniform d cf prefix len → gc_before d cf prefix w = Ok (n, d') →
  is_u64 ts → ts ≤ w → version d cf key ts ≠ None →
  ∃ ts', is_u64 ts' ∧ ts ≤ ts' ≤ w ∧ version d' cf key ts' ≠ None.
Proof.
  intros Hu Hg Hts Hle Hv. remember (Z.to_nat (w - ts)) as m eqn:Hm.
  revert ts Hts Hle Hv Hm. induction (lt_wf m) as [m _ IH]. intros ts Hts Hle Hv Hm.
  destruct (decide (version d' cf key ts = None)) as [Hn|Hn]; [|exists ts; split_and!; (done || lia)].
  apply (gc_before_version d cf prefix len w n d') in Hn; [|done..].
  destruct Hn as [?|[_ (ts1 & Hu1 & Hlt & Hv1)]]; [done|].
  destruct (IH (Z.to_nat (w - ts1)) ltac:(lia) ts1) as (ts2 & ? & ? & ?); [done|lia|done..|].
  exists ts2. split_and!; (done || lia).
Qed.

Lemma gc_before_visible d cf prefix len w n d' key snap r :
  uniform d cf prefix len → gc_before d cf prefix w = Ok (n, d') → w ≤ snap →
  visible d' cf key snap r ↔ visible d cf key snap r.
Proof.
  intros Hu Hg Hw. pose proof (gc_before_version d cf prefix len w n d' Hu Hg key) as Hver.
  destruct (gc_before_cf d cf prefix w n d' Hg) as [_ Hsub].
  assert (∀ ts, is_u64 ts → ts ≤ snap → (∀ ts', is_u64 ts' → ts < ts' ≤ snap → version d' cf key ts' = None) →
    ∀ ts', is_u64 ts' → ts < ts' ≤ snap → version d cf key ts' = None) as Hnone.
  { intros ts _ _ Hn ts' Hu' Hts'. pose proof (Hn ts' Hu' Hts') as Hd.
    apply Hver in Hd as [?|[_ (ts1 & Hu1 & ? & Hv1)]]; [done|exfalso|done].
    destruct (gc_before_survivor d cf prefix len w n d' key ts1) as (ts2 & ? & ? & Hv2); [done..|lia|done|].
    apply Hv2, Hn; [done|lia]. }
  split; intros [(ts & v & (Hts & Hle & Hv & Hn) & Hr)|[Hn Hr]].
  - left. exists ts, v. split; [|done]. split_and!; [done..|by apply Hsub|by apply Hnone].
  - right. split; [|done]. intros ts Hts Hle.
    destruct (decide (version d cf key ts = None)) as [?|Hv]; [done|exfalso].
    destruct (decide (ts ≤ w)) as [Hc|Hc].
    + destruct (gc_before_survivor d cf prefix len w n d' key ts) as (ts2 & ? & ? & Hv2); [done..|].
      apply Hv2, Hn; [done|lia].
    + pose proof (Hn ts Hts Hle) as Hd. apply Hver in Hd as [?|[_ (ts1 & ? & ? & _)]]; [done|lia|done].
  - left. exists ts, v. split; [|done].
    assert (∀ ts', is_u64 ts' → ts < ts' ≤ snap → version d' cf key ts' = None) as Hn'.
    { intros ts' Hu' Hts'. apply Hver; [done|]. left. by apply Hn. }
    split_and!; [done..| |done].
    destruct (version d' cf key ts) as [v'|] eqn:Hd.
    + apply Hsub in Hd. unfold version in Hv. congruence.
    + apply Hver in Hd as [?|[_ (ts1 & ? & ? & Hv1)]]; [congruence| |done].
      destruct Hv1. apply Hn; [done|lia].
  - right. split; [|done]. intros ts Hts Hle. apply Hver; [done|]. left. by apply Hn.
Qed.

(** ** Writes *)
Lemma versioned_batch_apply writes ts b cf k c :
  versioned_batch writes ts = Ok b →
  apply_batch cf k c b =
  match last_write cf (extract_key_prefix k) writes with
  | Some v => if decide (encode_versioned_key (extract_key_prefix k) ts = k) then Some (default TOMBSTONE v) else c
  | None => c
  end.
Proof.
  intros Hb. unfold apply_batch, last_write.
  assert (∀ acc c0, c = match acc with
    | Some v => if decide (encode_versioned_key (extract_key_prefix k) ts = k) then Some (default TOMBSTONE v) else c0
    | None => c0 end →
    foldl (apply_op cf k) c b =
    match foldl (λ acc w, if decide (w.1 = (cf, extract_key_prefix k)) then Some w.2 else acc) acc writes with
    | Some v => if decide (encode_versioned_key (extract_key_prefix k) ts = k) then Some (default TOMBSTONE v) else c0
    | None => c0 end) as Hgen; [|by apply Hgen].
  revert b c Hb. induction writes as [|[[cf' key'] v'] writes IH]; intros b c Hb acc c0 Hc; cbn in Hb.
  { injection Hb as <-. done. }
  destruct (cf_handle cf') as [cf2|] eqn:Hcf; [|done]. apply cf_handle_Some in Hcf as [-> _].
  destruct (versioned_batch writes ts) as [b'|]; [|done]. injection Hb as <-. cbn.
  apply IH; [done|]. destruct (decide (cf' = cf ∧ encode_versioned_key key' ts = k)) as [[-> <-]|H1].
  - rewrite extract_encode. rewrite (decide_True (P := (cf, key') = _)) by done.
    by rewrite decide_True by done.
  - destruct (decide ((cf', key') = (cf, extract_key_prefix k))) as [[= -> ->]|H2]; [|done].
    rewrite (decide_False (P := _ = k)) by naive_solver. rewrite Hc. destruct acc; [|done].
    by rewrite decide_False by naive_solver.
Qed.

Lemma batch_write_at_version d writes ts d' cf key ts' :
  batch_write_at d writes ts = Ok d' → is_u64 ts → is_u64 ts' →
  version d' cf key ts' =
  match last_write cf key writes with
  | Some v => if decide (ts' = ts) then Some (default TOMBSTONE v) else version d cf key ts'
  | None => version d cf key ts'
  end.
Proof.
  unfold batch_write_at. destruct (versioned_batch writes ts) as [b|] eqn:Hb; [|done].
  intros [= <-] Hu Hu'. unfold version. rewrite get_cf_write, (versioned_batch_apply writes ts) by done.
  rewrite extract_encode. case_match; [|done].
  case_decide as Hk; case_decide as Ht; try done.
  - by apply encode_versioned_key_inj in Hk as [_ ->].
  - by subst.
Qed.
(** A batch adds only versions of the keys it writes. *)
Lemma batch_write_at_get d writes ts d' cf k v :
  batch_write_at d writes ts = Ok d' → get_cf d' cf k = Some v →
  get_cf d cf k = Some v ∨
  (k = encode_versioned_key (extract_key_prefix k) ts ∧ last_write cf (extract_key_prefix k) writes ≠ None).
Proof.
  unfold batch_write_at. destruct (versioned_batch writes ts) as [b|] eqn:Hb; [|done].
  intros [= <-]. rewrite get_cf_write, (versioned_batch_apply writes ts) by done.
  case_match; [|by left]. case_decide; [|by left]. intros _. right. split; [done|]. congruence.
Qed.
Lemma last_write_elem cf key writes :
  last_write cf key writes ≠ None ↔ ∃ w : option bytes, (cf, key, w) ∈ writes.
Proof.
  unfold last_write.
  assert (∀ acc, foldl (λ acc w, if decide (w.1 = (cf, key)) then Some w.2 else acc) acc writes ≠ None
    ↔ acc ≠ None ∨ ∃ w : option bytes, (cf, key, w) ∈ writes) as Hgen; [|rewrite Hgen; naive_solver].
  induction writes as [|[ck v] writes IH]; intros acc; cbn.
  { split; [by left|]. intros [?|[w ?%not_elem_of_nil]]; done. }
  rewrite IH. setoid_rewrite elem_of_cons. case_decide; naive_solver.
Qed.
(** The batch exists exactly when every column family of the writes does. *)
Lemma versioned_batch_ok writes ts :
  (∀ cf key (w : option bytes), (cf, key, w) ∈ writes → cf ∈ ColumnFamilies.all) ↔ is_ok (versioned_batch writes ts) = true.
Proof.
  induction writes as [|[[cf key] v0] writes IH]; cbn.
  { split; [done|]. by intros _ ??? ?%not_elem_of_nil. }
  split.
  - intros Hall. rewrite cf_handle_open by (eapply Hall; by left).
    destruct (versioned_batch writes ts); [done|]. apply IH. intros cf' key' w ?.
    apply (Hall cf' key' w). by right.
  - destruct (cf_handle cf) as [cf'|] eqn:Hcf; [|done]. apply cf_handle_Some in Hcf as [-> ?].
    intros Hok ??? [[= -> -> ->]|Hin]%elem_of_cons; [done|]. eapply IH; [|done].
    by destruct (versioned_batch writes ts).
Qed.

(** What a write at a timestamp above every stored version of a key changes. *)
Lemma visible_after_write d d' cf key ts (wr : option (option bytes)) snap r :
  is_u64 ts →
  (∀ ts', is_u64 ts' → version d' cf key ts' =
     match wr with
     | Some v => if decide (ts' = ts) then Some (default TOMBSTONE v) else version d cf key ts'
     | None => version d cf key ts'
     end) →
  (∀ ts', is_u64 ts' → ts ≤ ts' → version d cf key ts' = None) →
  visible d cf key snap r →
  visible d' cf key snap
    match wr with
    | Some v => if decide (ts ≤ snap) then match v with Some (b :: w) => Some (b :: w) | _ => None end else r
    | None => r
    end.
Proof.
  intros Hu Hver Hfresh Hvis.
  destruct wr as [v|].
  2: { destruct Hvis as [(t & w & (? & ? & ? & Hn) & ?)|[Hn ?]]; [left|right].
       - exists t, w. split; [|done]. split_and!; [done..|by rewrite Hver|].
         intros. rewrite Hver; auto.
       - split; [|done]. intros. rewrite Hver; auto. }
  case_decide as Hle.
  - left. exists ts, (default TOMBSTONE v). split.
    + split_and!; [done..|by rewrite Hver, decide_True|].
      intros ts' Hu' Hts'. rewrite Hver, decide_False by (done || lia). apply Hfresh; [done|lia].
    + by destruct v as [[|]|].
  - destruct Hvis as [(t & w & (? & ? & ? & Hn) & ?)|[Hn ?]]; [left|right].
    + exists t, w. split; [|done]. split_and!; [done..|rewrite Hver, decide_False by (done || lia); done|].
      intros. rewrite Hver, decide_False by (done || lia); auto.
    + split; [|done]. intros. rewrite Hver, decide_False by (done || lia); auto.
Qed.

(** ** The timestamp oracle *)
Lemma oracle_load_persist d c :
  is_u64 c → oracle_load_from_db (oracle_persist_to_db c d) = wrap64 (c + 1).
Proof.
  intros Hc. unfold oracle_load_from_db, oracle_persist_to_db, oracle_new_from_persisted.
  rewrite get_cf_put_eq, decide_True by apply length_be_bytes.
  rewrite be_val_be_bytes; [done|]. by rewrite <- two64_256.
Qed.
End theorems.

(** ** Properties *)
Section properties.
Context `{RocksDBLaws db}.
Implicit Types (d : db) (cf : string) (key k v prefix : bytes).

(** C10: [get_at] implements the abstract reading of a snapshot: on an open column family where
    no other key extends [key], it returns [r] exactly when the newest version at or below the
    snapshot (a tombstone counting as absence) is [r]. *)
Theorem get_at_refines_visible d cf key snap r :
  cf ∈ ColumnFamilies.all → isolated d cf key →
  get_at d cf key snap = Ok r ↔ visible d cf key snap r.
Proof. apply get_at_iff. Qed.

(** C28: [prefix_scan_at] returns, in increasing key order and without duplicates, exactly the
    keys under the prefix that the snapshot sees, each with the value it sees. *)
Theorem prefix_scan_at_exact d cf prefix len snap :
  cf ∈ ColumnFamilies.all → uniform d cf prefix len →
  ∃ res, prefix_scan_at d cf prefix snap = Ok res ∧ StronglySorted key_lt res ∧
    ∀ key v, (key, v) ∈ res ↔ starts_with key prefix = true ∧ visible d cf key snap (Some v).
Proof.
  intros Hcf Hu. destruct (prefix_scan_at d cf prefix snap) as [res|e] eqn:Hp.
  - exists res. split; [done|]. by eapply elem_of_prefix_scan_at.
  - unfold prefix_scan_at in Hp. by rewrite cf_handle_open in Hp.
Qed.

(** C29: collecting garbage at a watermark is invisible to every read and scan at or above the
    watermark, deletes exactly the superseded versions under the prefix, and leaves at most one
    version at or below the watermark for each of their keys. *)
Theorem gc_before_transparent d cf prefix len w :
  cf ∈ ColumnFamilies.all → uniform d cf prefix len →
  ∃ n d', gc_before d cf prefix w = Ok (n, d') ∧
    (∀ key snap r, w ≤ snap → visible d' cf key snap r ↔ visible d cf key snap r) ∧
    (∀ snap, w ≤ snap → prefix_scan_at d' cf prefix snap = prefix_scan_at d cf prefix snap) ∧
    (∀ key ts, is_u64 ts → version d' cf key ts = None ↔
       version d cf key ts = None ∨ (starts_with key prefix = true ∧ superseded d cf key w ts)) ∧
    (∀ key ts1 ts2, is_u64 ts1 → is_u64 ts2 → starts_with key prefix = true →
       version d' cf key ts1 ≠ None → version d' cf key ts2 ≠ None →
       ts1 ≤ w → ts2 ≤ w → ts1 = ts2).
Proof.
  intros Hcf Hu. destruct (gc_before d cf prefix w) as [[n d']|e] eqn:Hg.
  2: { unfold gc_before in Hg. by rewrite cf_handle_open in Hg. }
  exists n, d'. split; [done|].
  pose proof (λ key, gc_before_version d cf prefix len w n d' Hu Hg key) as Hver.
  pose proof (λ key snap r, gc_before_visible d cf prefix len w n d' key snap r Hu Hg) as Hvis.
  destruct (gc_before_cf d cf prefix w n d' Hg) as [_ Hsub].
  assert (∀ key ts v, version d' cf key ts = Some v → version d cf key ts = Some v) as Hkeep.
  { intros key ts v. apply Hsub. }
  split_and!; [done| |done|].
  - intros snap Hw. assert (uniform d' cf prefix len) as Hu'.
    { destruct Hu as [? Hu]. split; [done|]. eauto. }
    destruct (prefix_scan_at_exact d cf prefix len snap Hcf Hu) as (r1 & -> & Hs1 & He1).
    destruct (prefix_scan_at_exact d' cf prefix len snap Hcf Hu') as (r2 & -> & Hs2 & He2).
    f_equal. apply sorted_ext; [done..|]. intros [key v]. by rewrite He1, He2, Hvis.
  - intros key ts1 ts2 Hu1 Hu2 Hk Hv1 Hv2 Hle1 Hle2.
    assert (∀ a b, is_u64 a → is_u64 b → version d' cf key a ≠ None → version d' cf key b ≠ None →
      b ≤ w → ¬ a < b) as Hno.
    { intros a b Ha Hb Hva Hvb Hlb Hlt. apply Hva, Hver; [done|]. right. split; [done|].
      exists b. split_and!; [done..|]. apply not_eq_None_Some in Hvb as [v ?%Hkeep]. congruence. }
    pose proof (Hno ts1 ts2). pose proof (Hno ts2 ts1).
    destruct (Z.lt_trichotomy ts1 ts2) as [?|[?|?]]; naive_solver.
Qed.

(** without isolation the read is wrong: as soon as the column family holds any version of
    a longer key [key ++ x :: s] with [x] below [0xFF], [get_at] reports [key] absent at every
    snapshot, whatever versions of [key] it stores (their timestamps being below 2^56, as every
    timestamp of the oracle in practice). *)
Theorem get_at_shadowed d cf key x s ts w snap :
  cf ∈ ColumnFamilies.all → bval x < 255 →
  version d cf (key ++ x :: s) ts = Some w →
  (∀ ts' v', is_u64 ts' → version d cf key ts' = Some v' → ts' < 2 ^ 56) →
  get_at d cf key snap = Ok None.
Proof.
  intros Hcf Hx Hv Hsmall. unfold version, encode_versioned_key in Hv.
  rewrite <- (assoc_L (++)) in Hv. cbn [app] in Hv.
  eapply get_at_blocked; [done|exact Hv|apply starts_with_app| |].
  { rewrite length_app, length_cons, length_app, length_be_bytes. lia. }
  intros k' v' Hk' Hstart Hex.
  pose proof (scan_start_not_short key k' Hstart Hex) as Hlen.
  destruct (encode_extract k' Hlen) as [He Hu]. rewrite Hex in He. rewrite <- He in Hk' |- *.
  specialize (Hsmall _ _ Hu Hk'). unfold encode_versioned_key. apply bytes_lt_app_l.
  assert (bval (byte_of_Z (Z.shiftr (not64 (version_ts k')) 56)) = 255) as H255.
  { rewrite bval_byte_of_Z, Z.shiftr_div_pow2 by lia.
    unfold not64, u64_max, two64, is_u64 in *.
    assert ((2 ^ 64 - 1 - version_ts k') / 2 ^ 56 = 255) as ->; [|done].
    symmetry. apply (Z.div_unique _ _ _ (2 ^ 64 - 1 - version_ts k' - 255 * 2 ^ 56)); lia. }
  cbn [be_bytes]. apply bytes_lt_cons. left.
  change (8 * Z.of_nat 7) with 56. lia.
Qed.
End properties.

(** ** Witnesses *)
(** Decide a statement about all cells of a concrete store by going through them. *)
Lemma mem_forall (d : MemDB) (P : string → bytes → bytes → bool) :
  forallb (λ x, P x.1.1 x.1.2 x.2) (map_to_list d) = true →
  ∀ cf k v, get_cf d cf k = Some v → P cf k v = true.
Proof.
  intros Hall cf k v Hk. rewrite forallb_forall in Hall.
  apply (Hall ((cf, k), v)). apply list_elem_of_In, elem_of_map_to_list. exact Hk.
Qed.
Definition isolated_b (cf : string) (key : bytes) (cf' : string) (k _ : bytes) : bool :=
  negb (bool_decide (cf' = cf)) || negb (starts_with k key) || bool_decide (length k = (length key + 8)%nat).
Lemma isolated_mem (d : MemDB) cf key :
  forallb (λ x, isolated_b cf key x.1.1 x.1.2 x.2) (map_to_list d) = true → isolated d cf key.
Proof.
  intros Hall k v Hk Hp. pose proof (mem_forall d _ Hall cf k v Hk) as Hb. unfold isolated_b in Hb.
  rewrite Hp, (bool_decide_true (cf = cf)) in Hb by done. by apply bool_decide_eq_true in Hb.
Qed.
Definition uniform_b (cf : string) (prefix : bytes) (len : nat) (cf' : string) (k _ : bytes) : bool :=
  negb (bool_decide (cf' = cf)) || negb (starts_with k prefix) || bool_decide (length k = (len + 8)%nat).
Lemma uniform_mem (d : MemDB) cf prefix len :
  (length prefix ≤ len)%nat →
  forallb (λ x, uniform_b cf prefix len x.1.1 x.1.2 x.2) (map_to_list d) = true → uniform d cf prefix len.
Proof.
  intros Hlen Hall. split; [done|].
  intros k v Hk Hp. pose proof (mem_forall d _ Hall cf k v Hk) as Hb. unfold uniform_b in Hb.
  rewrite Hp, (bool_decide_true (cf = cf)) in Hb by done. by apply bool_decide_eq_true in Hb.
Qed.

Definition sample_put (d : MemDB) (key : string) (v : string) (ts : Z) : MemDB :=
  put_cf d ColumnFamilies.NODES (encode_versioned_key (str_bytes key) ts) (str_bytes v).
(** Two keys; the first has three versions, the second is deleted at 7. *)
Definition sample_db : MemDB :=
  sample_put (sample_put (sample_put (sample_put (sample_put empty_db "n1" "a" 1) "n1" "b" 5)
    "n1" "c" 9) "n2" "x" 3) "n2" EmptyString 7.

Lemma get_at_refines_visible_witness :
  visible sample_db ColumnFamilies.NODES (str_bytes "n1") 6 (Some (str_bytes "b")) ∧
  visible sample_db ColumnFamilies.NODES (str_bytes "n2") 8 None.
Proof.
  split; apply get_at_refines_visible;
    first [by apply (bool_decide_unpack _); vm_compute | apply isolated_mem; vm_compute; reflexivity
          | vm_compute; reflexivity].
Defined.
Lemma prefix_scan_at_exact_witness :
  ∃ res, prefix_scan_at sample_db ColumnFamilies.NODES (str_bytes "n") 6 = Ok res ∧
    StronglySorted key_lt res ∧
    ∀ key v, (key, v) ∈ res ↔
      starts_with key (str_bytes "n") = true ∧ visible sample_db ColumnFamilies.NODES key 6 (Some v).
Proof.
  apply (prefix_scan_at_exact _ _ _ 2);
    [by apply (bool_decide_unpack _); vm_compute | apply uniform_mem; [cbn; lia | vm_compute; reflexivity]].
Defined.
Lemma gc_before_transparent_witness :
  ∃ n d', gc_before sample_db ColumnFamilies.NODES (str_bytes "n") 8 = Ok (n, d') ∧
    (∀ key snap r, 8 ≤ snap →
       visible d' ColumnFamilies.NODES key snap r ↔ visible sample_db ColumnFamilies.NODES key snap r) ∧
    (∀ snap, 8 ≤ snap → prefix_scan_at d' ColumnFamilies.NODES (str_bytes "n") snap =
       prefix_scan_at sample_db ColumnFamilies.NODES (str_bytes "n") snap) ∧
    (∀ key ts, is_u64 ts → version d' ColumnFamilies.NODES key ts = None ↔
       version sample_db ColumnFamilies.NODES key ts = None ∨
       (starts_with key (str_bytes "n") = true ∧ superseded sample_db ColumnFamilies.NODES key 8 ts)) ∧
    (∀ key ts1 ts2, is_u64 ts1 → is_u64 ts2 → starts_with key (str_bytes "n") = true →
       version d' ColumnFamilies.NODES key ts1 ≠ None → version d' ColumnFamilies.NODES key ts2 ≠ None →
       ts1 ≤ 8 → ts2 ≤ 8 → ts1 = ts2).
Proof.
  apply (gc_before_transparent _ _ _ 2);
    [by apply (bool_decide_unpack _); vm_compute | apply uniform_mem; [cbn; lia | vm_compute; reflexivity]].
Defined.
(** The key [n] was written at 2, but the versions of [n1] hide it. *)
Lemma get_at_shadowed_witness :
  get_at (sample_put sample_db "n" "lost" 2) ColumnFamilies.NODES (str_bytes "n") 20 = Ok None.
Proof.
  apply (get_at_shadowed _ _ _ Byte.x31 [] 5 (str_bytes "b"));
    [by apply (bool_decide_unpack _); vm_compute | vm_compute; reflexivity | vm_compute; reflexivity |].
  intros ts v Hu Hv.
  pose proof (mem_forall (sample_put sample_db "n" "lost" 2)
    (λ _ k _, version_ts k <? 2 ^ 56) ltac:(vm_compute; reflexivity) _ _ _ Hv) as Hb.
  cbn beta in Hb. rewrite version_ts_encode in Hb by done. by apply Z.ltb_lt.
Defined.
