(* ===== verification/Engine.v ===== *)
(** * The storage engine (synaptica-storage/src/engine.rs, iterator.rs)

    Nodes and edges with their derived label and adjacency indexes over the column families.
    The abstract state of the engine is a property graph, [graph]: finite maps of nodes, edges
    and graph metadata. [represents d G] says that the seven graph column families of [d] hold
    exactly what [G] determines; every operation is proved to implement its abstract
    counterpart. *)
From S2P Require Import Prelude Types Rocks Encoding.
Import Encoding ColumnFamilies.

(** Membership of a concrete name in a concrete list of names. *)
Ltac in_cfs := apply (bool_decide_unpack _); vm_compute; reflexivity.

(** iterator.rs *)
Definition prefix_scan `{RocksDB db} (engine : db) (cf_name : string) (prefix : bytes)
    : result StorageError (list (bytes * bytes)) :=
  cf ← cf_open cf_name;
  for_while (has_prefix prefix) (λ kv, Ok kv) (iterator_from engine cf prefix).

Section engine.
Context `{RocksDB db, Bincode Node, Bincode Edge, Bincode GraphMeta}.
Implicit Types d : db.

Definition decode_value {A} `{Bincode A} (value : bytes) : result StorageError A :=
  map_err SDeserialization (deserialize_value value).
Definition encode_value {A} `{Bincode A} (value : A) : result StorageError bytes :=
  map_err SSerialization (serialize_value value).

(** ** Raft storage helpers *)
Definition raft_meta_get d (key : bytes) : result StorageError (option bytes) :=
  cf ← cf_open RAFT_META; Ok (get_cf d cf key).
Definition raft_meta_put d (key value : bytes) : result StorageError db :=
  cf ← cf_open RAFT_META; Ok (put_cf d cf key value).
Definition raft_meta_delete d (key : bytes) : result StorageError db :=
  cf ← cf_open RAFT_META; Ok (delete_cf d cf key).
Definition raft_log_put d (key value : bytes) : result StorageError db :=
  cf ← cf_open RAFT_LOG; Ok (put_cf d cf key value).
Definition raft_log_delete d (key : bytes) : result StorageError db :=
  cf ← cf_open RAFT_LOG; Ok (delete_cf d cf key).
Definition raft_log_get d (key : bytes) : result StorageError (option bytes) :=
  cf ← cf_open RAFT_LOG; Ok (get_cf d cf key).
Definition raft_log_scan_from d (start_key : bytes) : result StorageError (list (bytes * bytes)) :=
  cf ← cf_open RAFT_LOG; Ok (iterator_from d cf start_key).
(** [seek_to_last] is the end of the forward iteration. *)
Definition raft_log_last d : result StorageError (option bytes) :=
  cf ← cf_open RAFT_LOG; Ok (snd <$> last (iterator_from d cf [])).

(** ** Graph metadata *)
Definition put_graph_meta d (meta : GraphMeta) : result StorageError db :=
  cf ← cf_open GRAPH_META;
  value ← encode_value meta;
  Ok (put_cf d cf (encode_graph_meta_key (meta_id meta)) value).
Definition get_graph_meta d (graph_id : GraphId) : result StorageError GraphMeta :=
  cf ← cf_open GRAPH_META;
  value ← ok_or SNotFound (get_cf d cf (encode_graph_meta_key graph_id));
  decode_value value.
Definition list_graphs d : result StorageError (list GraphMeta) :=
  cf ← cf_open GRAPH_META;
  Ok (omap (λ kv, match deserialize_value kv.2 with Ok meta => Some meta | Err _ => None end)
        (iterator_from d cf [])).

Definition data_cfs : list string :=
  [NODES; EDGES; ADJ_OUT; ADJ_IN; NODE_LABELS; EDGE_LABELS; PROP_INDEX].
Definition delete_graph_cf (prefix : bytes) (cf_name : string) d : db * result StorageError unit :=
  match cf_open cf_name with
  | Err e => (d, Err e)
  | Ok cf =>
      let batch := (λ kv, BatchDelete cf kv.1) <$> take_while (has_prefix prefix) (iterator_from d cf prefix) in
      if decide (0 < length batch)%nat then (write d batch, Ok tt) else (d, Ok tt)
  end.
Definition delete_graph d (graph_id : GraphId) : db * result StorageError unit :=
  let prefix := uuid_bytes graph_id in
  match for_each_st (delete_graph_cf prefix) data_cfs d with
  | (d1, Err e) => (d1, Err e)
  | (d1, Ok _) =>
      match cf_open GRAPH_META with
      | Err e => (d1, Err e)
      | Ok meta_cf => (delete_cf d1 meta_cf (encode_graph_meta_key graph_id), Ok tt)
      end
  end.

(** ** Nodes *)
Definition put_node d (node : Node) : result StorageError db :=
  nodes_cf ← cf_open NODES;
  node_labels_cf ← cf_open NODE_LABELS;
  let key := encode_node_key (node_graph_id node) (node_id node) in
  cleanup ← match get_cf d nodes_cf key with
    | Some old_data =>
        old_node ← decode_value old_data;
        Ok ((λ old_label, BatchDelete node_labels_cf
               (encode_node_label_key (node_graph_id node) old_label (node_id node)))
            <$> filter (λ l, l ∉ node_labels node) (node_labels (old_node : Node)))
    | None => Ok []
    end;
  value ← encode_value node;
  Ok (write d (cleanup ++ [BatchPut nodes_cf key value] ++
        ((λ label, BatchPut node_labels_cf
            (encode_node_label_key (node_graph_id node) label (node_id node)) [])
         <$> node_labels node))).
Definition get_node d (graph_id : GraphId) (node_id : NodeId) : result StorageError Node :=
  cf ← cf_open NODES;
  value ← ok_or SNotFound (get_cf d cf (encode_node_key graph_id node_id));
  decode_value value.
Definition scan_nodes d (graph_id : GraphId) : result StorageError (list Node) :=
  cf ← cf_open NODES;
  let prefix := encode_node_prefix graph_id in
  for_while (has_prefix prefix) (λ kv, decode_value kv.2) (iterator_from d cf prefix).
Definition scan_nodes_limit d (graph_id : GraphId) (limit : nat) : result StorageError (list Node) :=
  if decide (limit = 0%nat) then Ok []
  else
    cf ← cf_open NODES;
    let prefix := encode_node_prefix graph_id in
    for_while_limit limit 0 (has_prefix prefix) (λ kv, decode_value kv.2) (iterator_from d cf prefix).
(** The scanned keys begin with the 16 bytes of the graph, so [key.len() - 16] cannot underflow. *)
Definition scan_nodes_by_label d (graph_id : GraphId) (label : Label) : result StorageError (list Node) :=
  label_cf ← cf_open NODE_LABELS;
  let prefix := encode_node_label_prefix graph_id label in
  for_while (has_prefix prefix)
    (λ kv, node_id ← ok_or (SDeserialization "invalid node id in label index") (key_tail_id kv.1);
           get_node d graph_id node_id)
    (iterator_from d label_cf prefix).

(** ** Edges *)
Definition put_edge d (edge : Edge) : result StorageError db :=
  edges_cf ← cf_open EDGES;
  adj_out_cf ← cf_open ADJ_OUT;
  adj_in_cf ← cf_open ADJ_IN;
  edge_labels_cf ← cf_open EDGE_LABELS;
  let g := edge_graph_id edge in
  let key := encode_edge_key g (edge_id edge) in
  cleanup ← match get_cf d edges_cf key with
    | Some old_data =>
        old_edge ← decode_value old_data;
        let old_edge : Edge := old_edge in
        Ok (if decide (edge_source old_edge ≠ edge_source edge ∨ edge_target old_edge ≠ edge_target edge
                       ∨ edge_label old_edge ≠ edge_label edge)
            then [BatchDelete adj_out_cf (encode_adj_out_key g (edge_source old_edge) (edge_label old_edge) (edge_id edge));
                  BatchDelete adj_in_cf (encode_adj_in_key g (edge_target old_edge) (edge_label old_edge) (edge_id edge));
                  BatchDelete edge_labels_cf (encode_edge_label_key g (edge_label old_edge) (edge_id edge))]
            else [])
    | None => Ok []
    end;
  value ← encode_value edge;
  Ok (write d (cleanup ++
        [BatchPut edges_cf key value;
         BatchPut adj_out_cf (encode_adj_out_key g (edge_source edge) (edge_label edge) (edge_id edge))
           (uuid_bytes (edge_target edge));
         BatchPut adj_in_cf (encode_adj_in_key g (edge_target edge) (edge_label edge) (edge_id edge))
           (uuid_bytes (edge_source edge));
         BatchPut edge_labels_cf (encode_edge_label_key g (edge_label edge) (edge_id edge)) []])).
Definition get_edge d (graph_id : GraphId) (edge_id : EdgeId) : result StorageError Edge :=
  cf ← cf_open EDGES;
  value ← ok_or SNotFound (get_cf d cf (encode_edge_key graph_id edge_id));
  decode_value value.
Definition scan_edges d (graph_id : GraphId) : result StorageError (list Edge) :=
  cf ← cf_open EDGES;
  let prefix := encode_edge_prefix graph_id in
  for_while (has_prefix prefix) (λ kv, decode_value kv.2) (iterator_from d cf prefix).
Definition scan_edges_limit d (graph_id : GraphId) (limit : nat) : result StorageError (list Edge) :=
  if decide (limit = 0%nat) then Ok []
  else
    cf ← cf_open EDGES;
    let prefix := encode_edge_prefix graph_id in
    for_while_limit limit 0 (has_prefix prefix) (λ kv, decode_value kv.2) (iterator_from d cf prefix).
Definition delete_edge d (graph_id : GraphId) (edge_id : EdgeId) : result StorageError db :=
  edge ← get_edge d graph_id edge_id;
  edges_cf ← cf_open EDGES;
  adj_out_cf ← cf_open ADJ_OUT;
  adj_in_cf ← cf_open ADJ_IN;
  edge_labels_cf ← cf_open EDGE_LABELS;
  Ok (write d
        [BatchDelete edges_cf (encode_edge_key graph_id edge_id);
         BatchDelete adj_out_cf (encode_adj_out_key graph_id (edge_source edge) (edge_label edge) edge_id);
         BatchDelete adj_in_cf (encode_adj_in_key graph_id (edge_target edge) (edge_label edge) edge_id);
         BatchDelete edge_labels_cf (encode_edge_label_key graph_id (edge_label edge) edge_id)]).
Definition get_outgoing_edges d (graph_id : GraphId) (source : NodeId) (label_filter : option Label)
    : result StorageError (list Edge) :=
  adj_cf ← cf_open ADJ_OUT;
  let prefix := match label_filter with
    | Some label => encode_adj_out_label_prefix graph_id source label
    | None => encode_adj_out_prefix graph_id source
    end in
  for_while (has_prefix prefix)
    (λ kv, edge_id ← ok_or (SDeserialization "invalid edge id in adj index") (key_tail_id kv.1);
           get_edge d graph_id edge_id)
    (iterator_from d adj_cf prefix).
Definition get_incoming_edges d (graph_id : GraphId) (target : NodeId) (label_filter : option Label)
    : result StorageError (list Edge) :=
  adj_cf ← cf_open ADJ_IN;
  let prefix := match label_filter with
    | Some label => encode_adj_in_label_prefix graph_id target label
    | None => encode_adj_in_prefix graph_id target
    end in
  for_while (has_prefix prefix)
    (λ kv, edge_id ← ok_or (SDeserialization "invalid edge id in adj index") (key_tail_id kv.1);
           get_edge d graph_id edge_id)
    (iterator_from d adj_cf prefix).

(** ** Deleting a node and its edges *)
Fixpoint delete_unseen (graph_id : GraphId) (edges : list Edge) (seen : list EdgeId) d
    : db * result StorageError unit :=
  match edges with
  | [] => (d, Ok tt)
  | edge :: edges' =>
      if decide (edge_id edge ∈ seen) then delete_unseen graph_id edges' seen d
      else match delete_edge d graph_id (edge_id edge) with
           | Err e => (d, Err e)
           | Ok d' => delete_unseen graph_id edges' (edge_id edge :: seen) d'
           end
  end.
Definition delete_node_batch d (graph_id : GraphId) (node_id : NodeId) (node : Node) : result StorageError db :=
  nodes_cf ← cf_open NODES;
  node_labels_cf ← cf_open NODE_LABELS;
  Ok (write d (BatchDelete nodes_cf (encode_node_key graph_id node_id) ::
        ((λ label, BatchDelete node_labels_cf (encode_node_label_key graph_id label node_id))
         <$> node_labels node))).
Definition delete_node d (graph_id : GraphId) (node_id : NodeId) : db * result StorageError unit :=
  match get_node d graph_id node_id with
  | Err e => (d, Err e)
  | Ok node =>
      match get_outgoing_edges d graph_id node_id None with
      | Err e => (d, Err e)
      | Ok outgoing =>
          match get_incoming_edges d graph_id node_id None with
          | Err e => (d, Err e)
          | Ok incoming =>
              match delete_unseen graph_id (outgoing ++ incoming) [] d with
              | (d1, Err e) => (d1, Err e)
              | (d1, Ok _) => lift_st d1 (delete_node_batch d1 graph_id node_id node)
              end
          end
      end
  end.
End engine.

(** ** The abstract property graph *)
Record graph := mkGraph {
  g_nodes : gmap (GraphId * NodeId) Node;
  g_edges : gmap (GraphId * EdgeId) Edge;
  g_metas : gmap GraphId GraphMeta
}.
Definition empty_graph : graph := mkGraph ∅ ∅ ∅.
Definition node_key (x : Node) : GraphId * NodeId := (node_graph_id x, node_id x).
Definition edge_key (e : Edge) : GraphId * EdgeId := (edge_graph_id e, edge_id e).
Definition has_node (G : graph) (x : Node) : Prop := g_nodes G !! node_key x = Some x.
Definition has_edge (G : graph) (e : Edge) : Prop := g_edges G !! edge_key e = Some e.
(** Everything is stored under its own identifiers. *)
Definition keyed (G : graph) : Prop :=
  (∀ k x, g_nodes G !! k = Some x → k = node_key x) ∧
  (∀ k e, g_edges G !! k = Some e → k = edge_key e) ∧
  (∀ k m, g_metas G !! k = Some m → k = meta_id m).
Definition touches (g : GraphId) (n : NodeId) (e : Edge) : Prop :=
  edge_graph_id e = g ∧ (edge_source e = n ∨ edge_target e = n).

(** The abstract operations. *)
Definition insert_node (x : Node) (G : graph) : graph :=
  mkGraph (<[node_key x := x]> (g_nodes G)) (g_edges G) (g_metas G).
Definition insert_edge (e : Edge) (G : graph) : graph :=
  mkGraph (g_nodes G) (<[edge_key e := e]> (g_edges G)) (g_metas G).
Definition insert_meta (m : GraphMeta) (G : graph) : graph :=
  mkGraph (g_nodes G) (g_edges G) (<[meta_id m := m]> (g_metas G)).
Definition remove_edge (g : GraphId) (e : EdgeId) (G : graph) : graph :=
  mkGraph (g_nodes G) (delete (g, e) (g_edges G)) (g_metas G).
(** A node goes together with every edge that touches it. *)
Definition remove_node (g : GraphId) (n : NodeId) (G : graph) : graph :=
  mkGraph (delete (g, n) (g_nodes G)) (filter (λ ke, ¬ touches g n ke.2) (g_edges G)) (g_metas G).
Definition remove_graph (g : GraphId) (G : graph) : graph :=
  mkGraph (filter (λ kx, kx.1.1 ≠ g) (g_nodes G)) (filter (λ ke, ke.1.1 ≠ g) (g_edges G))
    (delete g (g_metas G)).

Lemma has_node_key G x y : has_node G x → has_node G y → node_key x = node_key y → x = y.
Proof. unfold has_node. intros Hx Hy Hk. rewrite Hk in Hx. congruence. Qed.
Lemma has_edge_key G e f : has_edge G e → has_edge G f → edge_key e = edge_key f → e = f.
Proof. unfold has_edge. intros Hx Hy Hk. rewrite Hk in Hx. congruence. Qed.
Lemma has_node_insert x G y : has_node (insert_node x G) y ↔ y = x ∨ (has_node G y ∧ node_key y ≠ node_key x).
Proof. unfold has_node. cbn. rewrite lookup_insert_Some. naive_solver. Qed.
Lemma has_edge_insert e G f : has_edge (insert_edge e G) f ↔ f = e ∨ (has_edge G f ∧ edge_key f ≠ edge_key e).
Proof. unfold has_edge. cbn. rewrite lookup_insert_Some. naive_solver. Qed.
Lemma has_edge_remove g i G f : has_edge (remove_edge g i G) f ↔ has_edge G f ∧ edge_key f ≠ (g, i).
Proof. unfold has_edge. cbn. rewrite lookup_delete_Some. naive_solver. Qed.
Lemma has_node_remove g n G y : has_node (remove_node g n G) y ↔ has_node G y ∧ node_key y ≠ (g, n).
Proof. unfold has_node. cbn. rewrite lookup_delete_Some. naive_solver. Qed.
Lemma has_edge_remove_node g n G f : has_edge (remove_node g n G) f ↔ has_edge G f ∧ ¬ touches g n f.
Proof. unfold has_edge. cbn. rewrite map_lookup_filter_Some. naive_solver. Qed.

Lemma keyed_insert_node x G : keyed G → keyed (insert_node x G).
Proof. intros (Hn & ? & ?). split_and!; cbn; [|done..]. intros k y [[<- <-]|[_ ?]]%lookup_insert_Some; eauto. Qed.
Lemma keyed_insert_edge e G : keyed G → keyed (insert_edge e G).
Proof. intros (? & He & ?). split_and!; cbn; [done| |done]. intros k f [[<- <-]|[_ ?]]%lookup_insert_Some; eauto. Qed.
Lemma keyed_insert_meta m G : keyed G → keyed (insert_meta m G).
Proof. intros (? & ? & Hm). split_and!; cbn; [done..|]. intros k f [[<- <-]|[_ ?]]%lookup_insert_Some; eauto. Qed.
Lemma keyed_remove_edge g i G : keyed G → keyed (remove_edge g i G).
Proof. intros (? & He & ?). split_and!; cbn; [done| |done]. intros k f [_ ?]%lookup_delete_Some; eauto. Qed.
Lemma keyed_remove_node g n G : keyed G → keyed (remove_node g n G).
Proof.
  intros (Hn & He & ?). split_and!; cbn; [| |done].
  - intros k f [_ ?]%lookup_delete_Some; eauto.
  - intros k f [? _]%map_lookup_filter_Some; eauto.
Qed.
Lemma keyed_remove_graph g G : keyed G → keyed (remove_graph g G).
Proof.
  intros (Hn & He & Hm). split_and!; cbn.
  - intros k f [? _]%map_lookup_filter_Some; eauto.
  - intros k f [? _]%map_lookup_filter_Some; eauto.
  - intros k f [_ ?]%lookup_delete_Some; eauto.
Qed.

(** ** What the column families hold for a graph *)
Section represents.
Context `{RocksDBLaws db, BincodeLaws Node, BincodeLaws Edge, BincodeLaws GraphMeta}.
Implicit Types (d : db) (G : graph) (k v : bytes).

(** The bytes of a value; serialization of these types cannot fail. *)
Definition ser {A} `{Bincode A} (a : A) : bytes :=
  match bincode_serialize a with Ok b => b | Err _ => [] end.
Lemma encode_value_ser {A} `{BincodeLaws A} (a : A) : encode_value a = Ok (ser a).
Proof.
  destruct (bincode_roundtrip a) as (b & Hs & _). unfold encode_value, serialize_value, ser. by rewrite Hs.
Qed.
Lemma decode_value_ser {A} `{BincodeLaws A} (a : A) : decode_value (ser a) = Ok a.
Proof.
  destruct (bincode_roundtrip a) as (b & Hs & Hd). unfold decode_value, deserialize_value, ser.
  by rewrite Hs, Hd.
Qed.

Definition node_cell G k v : Prop :=
  ∃ x, has_node G x ∧ k = encode_node_key (node_graph_id x) (node_id x) ∧ v = ser x.
Definition node_label_cell G k v : Prop :=
  ∃ x l, has_node G x ∧ l ∈ node_labels x ∧
    k = encode_node_label_key (node_graph_id x) l (node_id x) ∧ v = [].
Definition edge_cell G k v : Prop :=
  ∃ e, has_edge G e ∧ k = encode_edge_key (edge_graph_id e) (edge_id e) ∧ v = ser e.
Definition adj_out_cell G k v : Prop :=
  ∃ e, has_edge G e ∧ k = encode_adj_out_key (edge_graph_id e) (edge_source e) (edge_label e) (edge_id e) ∧
    v = uuid_bytes (edge_target e).
Definition adj_in_cell G k v : Prop :=
  ∃ e, has_edge G e ∧ k = encode_adj_in_key (edge_graph_id e) (edge_target e) (edge_label e) (edge_id e) ∧
    v = uuid_bytes (edge_source e).
Definition edge_label_cell G k v : Prop :=
  ∃ e, has_edge G e ∧ k = encode_edge_label_key (edge_graph_id e) (edge_label e) (edge_id e) ∧ v = [].
Definition meta_cell G k v : Prop :=
  ∃ m, g_metas G !! meta_id m = Some m ∧ k = encode_graph_meta_key (meta_id m) ∧ v = ser m.

Record represents d G : Prop := {
  rep_keyed : keyed G;
  rep_nodes k v : get_cf d NODES k = Some v ↔ node_cell G k v;
  rep_node_labels k v : get_cf d NODE_LABELS k = Some v ↔ node_label_cell G k v;
  rep_edges k v : get_cf d EDGES k = Some v ↔ edge_cell G k v;
  rep_adj_out k v : get_cf d ADJ_OUT k = Some v ↔ adj_out_cell G k v;
  rep_adj_in k v : get_cf d ADJ_IN k = Some v ↔ adj_in_cell G k v;
  rep_edge_labels k v : get_cf d EDGE_LABELS k = Some v ↔ edge_label_cell G k v;
  rep_metas k v : get_cf d GRAPH_META k = Some v ↔ meta_cell G k v
}.

(** ** Point reads *)
Lemma node_lookup d G g n :
  represents d G → get_cf d NODES (encode_node_key g n) = ser <$> (g_nodes G !! (g, n)).
Proof.
  intros HR. destruct (g_nodes G !! (g, n)) as [x|] eqn:Hx; cbn.
  - pose proof (proj1 (rep_keyed d G HR) _ _ Hx) as [= -> ->].
    apply (rep_nodes d G HR). exists x. done.
  - apply eq_None_not_Some. intros [v Hv]. apply (rep_nodes d G HR) in Hv as (x & Hx' & Hk & _).
    apply encode_node_key_inj in Hk as [-> ->]. unfold has_node, node_key in Hx'. congruence.
Qed.
Lemma edge_lookup d G g n :
  represents d G → get_cf d EDGES (encode_edge_key g n) = ser <$> (g_edges G !! (g, n)).
Proof.
  intros HR. destruct (g_edges G !! (g, n)) as [x|] eqn:Hx; cbn.
  - pose proof (proj1 (proj2 (rep_keyed d G HR)) _ _ Hx) as [= -> ->].
    apply (rep_edges d G HR). exists x. done.
  - apply eq_None_not_Some. intros [v Hv]. apply (rep_edges d G HR) in Hv as (x & Hx' & Hk & _).
    apply encode_node_key_inj in Hk as [-> ->]. unfold has_edge, edge_key in Hx'. congruence.
Qed.
Lemma get_node_rep d G g n : represents d G → get_node d g n = ok_or SNotFound (g_nodes G !! (g, n)).
Proof.
  intros HR. unfold get_node. rewrite cf_open_all by in_cfs.
  cbn [mbind result_bind]. rewrite (node_lookup d G) by done.
  destruct (g_nodes G !! (g, n)); cbn; [apply decode_value_ser|done].
Qed.
Lemma get_edge_rep d G g n : represents d G → get_edge d g n = ok_or SNotFound (g_edges G !! (g, n)).
Proof.
  intros HR. unfold get_edge. rewrite cf_open_all by in_cfs.
  cbn [mbind result_bind]. rewrite (edge_lookup d G) by done.
  destruct (g_edges G !! (g, n)); cbn; [apply decode_value_ser|done].
Qed.

(** ** put_node *)
(** Discharge the column-family tests that compare two different names. *)
Ltac cf_ne := repeat rewrite decide_False by (let E := fresh in intros [E _]; discriminate E).
(** A column family an operation does not touch. *)
Ltac untouched Hcells HR := intros k v; rewrite Hcells; cf_ne; apply HR.
Ltac cf_open_simpl :=
  repeat (rewrite cf_open_all by in_cfs; cbn [mbind result_bind]).

Definition label_keys (x : Node) (labels : list Label) : list bytes :=
  (λ l, encode_node_label_key (node_graph_id x) l (node_id x)) <$> labels.
Lemma label_keys_elem x l labels :
  l ∈ labels → encode_node_label_key (node_graph_id x) l (node_id x) ∈ label_keys x labels.
Proof. apply (list_elem_of_fmap_2 (λ l, encode_node_label_key _ l _)). Qed.
Definition stale_labels G (x : Node) : list Label :=
  match g_nodes G !! node_key x with
  | Some y => filter (λ l, l ∉ node_labels x) (node_labels y)
  | None => []
  end.
Lemma put_node_cells d G x :
  represents d G → ∃ d', put_node d x = Ok d' ∧
    ∀ cf k, get_cf d' cf k =
      if decide (cf = NODE_LABELS ∧ k ∈ label_keys x (node_labels x)) then Some []
      else if decide (cf = NODES ∧ k = encode_node_key (node_graph_id x) (node_id x)) then Some (ser x)
      else if decide (cf = NODE_LABELS ∧ k ∈ label_keys x (stale_labels G x)) then None
      else get_cf d cf k.
Proof.
  intros HR. unfold put_node. cf_open_simpl. rewrite (node_lookup d G) by done.
  rewrite encode_value_ser. unfold stale_labels, node_key.
  destruct (g_nodes G !! (node_graph_id x, node_id x)) as [y|] eqn:Hy;
    cbn [fmap option_fmap option_map]; rewrite ?decode_value_ser; cbn [mbind result_bind];
    (eexists; split; [done|]); intros cf k.
  - rewrite get_cf_write, !apply_batch_app, apply_batch_puts, apply_batch_deletes.
    unfold apply_batch, label_keys. cbn [foldl apply_op].
    repeat case_decide; destruct_and?; simplify_eq; naive_solver.
  - rewrite get_cf_write, app_nil_l, apply_batch_app, apply_batch_puts.
    unfold apply_batch. cbn [foldl apply_op].
    rewrite (decide_False (P := _ ∧ k ∈ label_keys x [])) by (by intros [_ ?%not_elem_of_nil]).
    unfold label_keys. repeat case_decide; naive_solver.
Qed.
Lemma put_node_rep d G x :
  represents d G → ∃ d', put_node d x = Ok d' ∧ represents d' (insert_node x G) ∧
    (∀ k, get_cf d' PROP_INDEX k = get_cf d PROP_INDEX k).
Proof.
  intros HR. destruct (put_node_cells d G x HR) as (d' & Hput & Hc). exists d'. split; [done|].
  split; [|intros k; rewrite Hc; by cf_ne].
  split; [by apply keyed_insert_node, HR| | |untouched Hc HR..].
  - intros k v. rewrite Hc. rewrite decide_False by by intros [? _]. unfold node_cell.
    setoid_rewrite has_node_insert. case_decide as Hk.
    + destruct Hk as [_ ->]. split; [intros [= <-]; exists x; auto|].
      intros (y & [->|[_ Hne]] & [Hg Hn]%encode_node_key_inj & ->); [done|]. destruct Hne. unfold node_key. congruence.
    + cf_ne. rewrite (rep_nodes d G HR). unfold node_cell. split.
      * intros (y & Hy & -> & ->). exists y. split_and!; [|done..]. right. split; [done|].
        intros [= Hg Hn]. rewrite Hg, Hn in Hk. naive_solver.
      * intros (y & [->|[? _]] & -> & ->); [naive_solver|eauto].
  - intros k v. rewrite Hc. unfold node_label_cell. setoid_rewrite has_node_insert.
    rewrite (decide_False (P := _ = NODES ∧ _)) by by intros [? _].
    case_decide as Hk; [|case_decide as Hs].
    + destruct Hk as [_ (l & -> & Hl)%list_elem_of_fmap]. split.
      * intros [= <-]. exists x, l. auto.
      * by intros (y & l' & _ & _ & _ & ->).
    + split; [done|]. destruct Hs as [_ (l & -> & Hl)%list_elem_of_fmap].
      intros (y & l' & [->|[Hy Hne]] & Hl' & Hkk & ->).
      * destruct Hk. split; [done|]. rewrite Hkk. by apply label_keys_elem.
      * apply encode_node_label_key_inj in Hkk as (Hg & _ & Hn). destruct Hne. unfold node_key. congruence.
    + rewrite (rep_node_labels d G HR). unfold node_label_cell. split.
      * intros (y & l & Hy & Hl & -> & ->). exists y, l. split_and!; [|done..]. right. split; [done|].
        intros Heq. unfold has_node in Hy. rewrite Heq in Hy.
        pose proof Heq as [= Hg Hn]. rewrite Hg, Hn in Hk, Hs.
        destruct (decide (l ∈ node_labels x)) as [?|Hnl].
        -- destruct Hk. split; [done|]. by apply label_keys_elem.
        -- destruct Hs. split; [done|]. unfold stale_labels. rewrite Hy.
           apply label_keys_elem. by apply list_elem_of_filter.
      * intros (y & l & [->|[? _]] & Hl & -> & ->); [|eauto 6].
        destruct Hk. split; [done|]. by apply label_keys_elem.
Qed.
(** ** Edge indexes: a column family with one key per edge *)
Definition edge_index G (kf vf : Edge → bytes) (f : bytes → option bytes) : Prop :=
  ∀ k v, f k = Some v ↔ ∃ e, has_edge G e ∧ k = kf e ∧ v = vf e.
Definition key_injective (kf : Edge → bytes) : Prop := ∀ e1 e2, kf e1 = kf e2 → edge_key e1 = edge_key e2.

Lemma edge_index_insert G kf vf f f' e :
  key_injective kf → edge_index G kf vf f →
  f' (kf e) = Some (vf e) →
  (∀ old, has_edge G old → edge_key old = edge_key e → kf old ≠ kf e → f' (kf old) = None) →
  (∀ k, k ≠ kf e → (∀ old, has_edge G old → edge_key old = edge_key e → k ≠ kf old) → f' k = f k) →
  edge_index (insert_edge e G) kf vf f'.
Proof.
  intros Hinj Hf Hnew Hold Hrest k v. setoid_rewrite has_edge_insert.
  destruct (decide (k = kf e)) as [->|Hne].
  { rewrite Hnew. split; [intros [= <-]; eauto|].
    intros (e' & [->|[_ Hk]] & Heq & ->); [done|]. by apply Hinj in Heq. }
  destruct (g_edges G !! edge_key e) as [old|] eqn:Ho.
  - destruct (decide (edge_key old = edge_key e)) as [Hko|Hko].
    + assert (has_edge G old) as Hold' by (unfold has_edge; by rewrite Hko).
      destruct (decide (k = kf old)) as [->|Hne'].
      * rewrite Hold by done. split; [done|].
        intros (e' & [->|[_ Hk]] & Heq & ->); [done|]. apply Hinj in Heq. congruence.
      * rewrite Hrest; [|done|]; cycle 1.
        { intros old' Hold2 Hk2 ->. apply Hne'. f_equal. apply (has_edge_key G); congruence. }
        rewrite (Hf k v). split.
        -- intros (e' & He' & -> & ->). exists e'. split_and!; [|done..]. right. split; [done|].
           intros Hk. apply Hne'. f_equal. apply (has_edge_key G); congruence.
        -- intros (e' & [->|[? _]] & -> & ->); [done|eauto].
    + rewrite Hrest; [|done|]; cycle 1.
      { intros old' Hold2 Hk2 ->. unfold has_edge in Hold2. rewrite Hk2 in Hold2. congruence. }
      rewrite (Hf k v). split.
      * intros (e' & He' & -> & ->). exists e'. split_and!; [|done..]. right. split; [done|].
        intros Hk. unfold has_edge in He'. rewrite Hk in He'. congruence.
      * intros (e' & [->|[? _]] & -> & ->); [done|eauto].
  - assert (∀ e', has_edge G e' → edge_key e' ≠ edge_key e) as Hno.
    { unfold has_edge. intros e' He' Hk. rewrite Hk in He'. congruence. }
    rewrite Hrest; [|done|]; cycle 1. { intros old ? ? ->. by eapply Hno. }
    rewrite (Hf k v). split.
    + intros (e' & He' & -> & ->). exists e'. split_and!; [|done..]. right. eauto.
    + intros (e' & [->|[? _]] & -> & ->); [done|eauto].
Qed.
Lemma edge_index_remove G kf vf f f' old :
  key_injective kf → edge_index G kf vf f → has_edge G old →
  f' (kf old) = None → (∀ k, k ≠ kf old → f' k = f k) →
  edge_index (remove_edge (edge_graph_id old) (edge_id old) G) kf vf f'.
Proof.
  intros Hinj Hf Hold Hdel Hrest k v. setoid_rewrite has_edge_remove.
  change (edge_graph_id old, edge_id old) with (edge_key old).
  destruct (decide (k = kf old)) as [->|Hne].
  - rewrite Hdel. split; [done|]. intros (e' & [_ Hk] & Heq & _). by apply Hinj in Heq.
  - rewrite Hrest, (Hf k v) by done. split.
    + intros (e' & He' & -> & ->). exists e'. split_and!; [done| |done..].
      intros Hk. apply Hne. f_equal. by apply (has_edge_key G).
    + intros (e' & [? _] & -> & ->). eauto.
Qed.

Definition edge_kf (e : Edge) : bytes := encode_edge_key (edge_graph_id e) (edge_id e).
Definition out_kf (e : Edge) : bytes :=
  encode_adj_out_key (edge_graph_id e) (edge_source e) (edge_label e) (edge_id e).
Definition in_kf (e : Edge) : bytes :=
  encode_adj_in_key (edge_graph_id e) (edge_target e) (edge_label e) (edge_id e).
Definition label_kf (e : Edge) : bytes := encode_edge_label_key (edge_graph_id e) (edge_label e) (edge_id e).
Lemma edge_kf_inj : key_injective edge_kf.
Proof. intros e1 e2 [Hg Hi]%encode_node_key_inj. unfold edge_key. congruence. Qed.
Lemma out_kf_inj : key_injective out_kf.
Proof. intros e1 e2 (Hg & _ & _ & Hi)%encode_adj_out_key_inj. unfold edge_key. congruence. Qed.
Lemma in_kf_inj : key_injective in_kf.
Proof. intros e1 e2 (Hg & _ & _ & Hi)%encode_adj_out_key_inj. unfold edge_key. congruence. Qed.
Lemma label_kf_inj : key_injective label_kf.
Proof. intros e1 e2 (Hg & _ & Hi)%encode_node_label_key_inj. unfold edge_key. congruence. Qed.

(** ** put_edge *)
Lemma decide_three {A} (C P1 P2 P3 : Prop) `{Decision C, Decision P1, Decision P2, Decision P3} (x y : A) :
  C → (if decide P3 then x else if decide P2 then x else if decide P1 then x else y) =
      if decide (C ∧ (P1 ∨ P2 ∨ P3)) then x else y.
Proof. intros. repeat case_decide; tauto. Qed.
Definition changed (old e : Edge) : Prop :=
  edge_source old ≠ edge_source e ∨ edge_target old ≠ edge_target e ∨ edge_label old ≠ edge_label e.
Lemma put_edge_cells d G e :
  represents d G → ∃ d', put_edge d e = Ok d' ∧
    ∀ cf k, get_cf d' cf k =
      if decide (EDGE_LABELS = cf ∧ label_kf e = k) then Some []
      else if decide (ADJ_IN = cf ∧ in_kf e = k) then Some (uuid_bytes (edge_source e))
      else if decide (ADJ_OUT = cf ∧ out_kf e = k) then Some (uuid_bytes (edge_target e))
      else if decide (EDGES = cf ∧ edge_kf e = k) then Some (ser e)
      else match g_edges G !! edge_key e with
           | Some old =>
               if decide (changed old e ∧ ((ADJ_OUT = cf ∧ out_kf old = k) ∨ (ADJ_IN = cf ∧ in_kf old = k)
                            ∨ (EDGE_LABELS = cf ∧ label_kf old = k)))
               then None else get_cf d cf k
           | None => get_cf d cf k
           end.
Proof.
  intros HR. unfold put_edge. cf_open_simpl. rewrite (edge_lookup d G) by done.
  rewrite encode_value_ser. unfold edge_key.
  destruct (g_edges G !! (edge_graph_id e, edge_id e)) as [old|] eqn:Ho;
    cbn [fmap option_fmap option_map]; rewrite ?decode_value_ser; cbn [mbind result_bind];
    (eexists; split; [done|]); intros cf k.
  - pose proof (proj1 (proj2 (rep_keyed d G HR)) _ _ Ho) as [= Hg Hi].
    assert (out_kf old = encode_adj_out_key (edge_graph_id e) (edge_source old) (edge_label old) (edge_id e)) as ->
      by (unfold out_kf; congruence).
    assert (in_kf old = encode_adj_in_key (edge_graph_id e) (edge_target old) (edge_label old) (edge_id e)) as ->
      by (unfold in_kf; congruence).
    assert (label_kf old = encode_edge_label_key (edge_graph_id e) (edge_label old) (edge_id e)) as ->
      by (unfold label_kf; congruence).
    rewrite get_cf_write, apply_batch_app. unfold apply_batch at 1. cbn [foldl apply_op].
    unfold edge_kf, out_kf, in_kf, label_kf, changed.
    do 4 (match goal with |- (if decide ?P then _ else _) = _ => destruct (decide P); [done|] end).
    destruct (decide (edge_source old ≠ _ ∨ _)) as [Hch|Hch].
    + unfold apply_batch. cbn [foldl apply_op]. by apply decide_three.
    + by rewrite decide_False by tauto.
  - by rewrite get_cf_write.
Qed.

(** One index column family of [put_edge_cells]. *)
Ltac indexed Hc :=
  let k := fresh "k" in intros k; rewrite Hc; cf_ne;
  match goal with |- _ = if decide (?P) then _ else _ =>
    destruct (decide P); [by rewrite decide_True|rewrite decide_False by tauto] end;
  cf_ne; case_match; [|done]; apply decide_ext;
  split; [intros [? [[E ?]|[[E ?]|[E ?]]]]; first [done|discriminate E]|tauto].
Lemma put_edge_rep d G e :
  represents d G → ∃ d', put_edge d e = Ok d' ∧ represents d' (insert_edge e G) ∧
    (∀ k, get_cf d' PROP_INDEX k = get_cf d PROP_INDEX k).
Proof.
  intros HR. destruct (put_edge_cells d G e HR) as (d' & Hput & Hc). exists d'. split; [done|].
  assert (∀ cf k, EDGES ≠ cf → ADJ_OUT ≠ cf → ADJ_IN ≠ cf → EDGE_LABELS ≠ cf → get_cf d' cf k = get_cf d cf k) as Hother.
  { intros cf k ????. rewrite Hc, !(decide_False (P := _ = cf ∧ _)) by tauto.
    case_match; [|done]. by rewrite decide_False by tauto. }
  assert (∀ kf vf cf, key_injective kf → edge_index G kf vf (get_cf d cf) →
    (∀ k, get_cf d' cf k = if decide (kf e = k) then Some (vf e)
      else match g_edges G !! edge_key e with
           | Some old => if decide (changed old e ∧ kf old = k) then None else get_cf d cf k
           | None => get_cf d cf k end) →
    (∀ old, edge_key old = edge_key e → ¬ changed old e → kf old = kf e) →
    edge_index (insert_edge e G) kf vf (get_cf d' cf)) as Hidx.
  { intros kf vf cf Hinj Hf Hk Hsame. eapply edge_index_insert; [done|exact Hf|..].
    - by rewrite Hk, decide_True.
    - intros old Ho Hko Hne. rewrite Hk, decide_False by done. unfold has_edge in Ho. rewrite Hko in Ho.
      rewrite Ho, decide_True; [done|]. split; [|done].
      destruct (decide (changed old e)); [done|]. by destruct Hne; apply Hsame.
    - intros k Hne Hno. rewrite Hk, decide_False by done. case_match eqn:Ho; [|done].
      rewrite decide_False; [done|]. intros [_ <-].
      pose proof (proj1 (proj2 (rep_keyed d G HR)) _ _ Ho) as Hkey.
      eapply Hno; [|by symmetry|done]. unfold has_edge. by rewrite <- Hkey. }
  assert (∀ old, ¬ changed old e → edge_source old = edge_source e ∧ edge_target old = edge_target e
    ∧ edge_label old = edge_label e) as Hsame.
  { intros old Hch. unfold changed in Hch. split_and!; apply dec_stable; tauto. }
  split; [split|intros k; by apply Hother].
  - apply keyed_insert_edge, HR.
  - intros k v. rewrite Hother by done. apply HR.
  - intros k v. rewrite Hother by done. apply HR.
  - apply (Hidx edge_kf); [apply edge_kf_inj|exact (rep_edges d G HR)| |].
    + intros k. rewrite Hc. cf_ne. destruct (decide (edge_kf e = k)) as [?|Hne]; [by rewrite decide_True|].
      rewrite decide_False by tauto. case_match eqn:Ho; [|done]. rewrite !decide_False; [done|..].
      * intros [_ <-]. apply Hne. pose proof (proj1 (proj2 (rep_keyed d G HR)) _ _ Ho) as [= Hg Hi].
        unfold edge_kf. congruence.
      * intros [_ [[E _]|[[E _]|[E _]]]]; discriminate E.
    + intros old [= Hg Hi] _. unfold edge_kf. congruence.
  - apply (Hidx out_kf); [apply out_kf_inj|exact (rep_adj_out d G HR)| |].
    + indexed Hc.
    + intros old [= Hg Hi] (Hs & Ht & Hl)%Hsame. unfold out_kf. congruence.
  - apply (Hidx in_kf); [apply in_kf_inj|exact (rep_adj_in d G HR)| |].
    + indexed Hc.
    + intros old [= Hg Hi] (Hs & Ht & Hl)%Hsame. unfold in_kf. congruence.
  - apply (Hidx label_kf); [apply label_kf_inj|exact (rep_edge_labels d G HR)| |].
    + indexed Hc.
    + intros old [= Hg Hi] (Hs & Ht & Hl)%Hsame. unfold label_kf. congruence.
  - intros k v. rewrite Hother by done. apply HR.
Qed.

(** ** delete_edge *)
Lemma delete_edge_rep d G g i :
  represents d G →
  match g_edges G !! (g, i) with
  | None => delete_edge d g i = Err SNotFound
  | Some _ => ∃ d', delete_edge d g i = Ok d' ∧ represents d' (remove_edge g i G) ∧
      (∀ k, get_cf d' PROP_INDEX k = get_cf d PROP_INDEX k)
  end.
Proof.
  intros HR. unfold delete_edge. rewrite (get_edge_rep d G) by done.
  destruct (g_edges G !! (g, i)) as [old|] eqn:Ho; cbn [ok_or mbind result_bind]; [|done].
  cf_open_simpl. eexists. split; [done|].
  pose proof (proj1 (proj2 (rep_keyed d G HR)) _ _ Ho) as [= -> ->].
  assert (has_edge G old) as Hold by done.
  set (d' := write d _).
  assert (∀ cf k, get_cf d' cf k =
    if decide (EDGE_LABELS = cf ∧ label_kf old = k) then None
    else if decide (ADJ_IN = cf ∧ in_kf old = k) then None
    else if decide (ADJ_OUT = cf ∧ out_kf old = k) then None
    else if decide (EDGES = cf ∧ edge_kf old = k) then None else get_cf d cf k) as Hc.
  { intros cf k. subst d'. by rewrite get_cf_write. }
  clearbody d'. split; [|intros k; rewrite Hc; by cf_ne].
  assert (∀ kf vf cf, key_injective kf → edge_index G kf vf (get_cf d cf) →
    (∀ k, get_cf d' cf k = if decide (kf old = k) then None else get_cf d cf k) →
    edge_index (remove_edge (edge_graph_id old) (edge_id old) G) kf vf (get_cf d' cf)) as Hidx.
  { intros kf vf cf Hinj Hf Hk. eapply edge_index_remove; [done|exact Hf|done|..].
    - by rewrite Hk, decide_True.
    - intros k Hne. by rewrite Hk, decide_False. }
  split.
  - apply keyed_remove_edge, HR.
  - untouched Hc HR.
  - untouched Hc HR.
  - apply (Hidx edge_kf); [apply edge_kf_inj|exact (rep_edges d G HR)|].
    intros k. rewrite Hc. cf_ne. apply decide_ext. tauto.
  - apply (Hidx out_kf); [apply out_kf_inj|exact (rep_adj_out d G HR)|].
    intros k. rewrite Hc. cf_ne. destruct (decide (out_kf old = k)); [by rewrite decide_True|].
    rewrite decide_False by tauto. by cf_ne.
  - apply (Hidx in_kf); [apply in_kf_inj|exact (rep_adj_in d G HR)|].
    intros k. rewrite Hc. cf_ne. destruct (decide (in_kf old = k)); [by rewrite decide_True|].
    rewrite decide_False by tauto. by cf_ne.
  - apply (Hidx label_kf); [apply label_kf_inj|exact (rep_edge_labels d G HR)|].
    intros k. rewrite Hc. destruct (decide (label_kf old = k)); [by rewrite decide_True|].
    rewrite decide_False by tauto. by cf_ne.
  - untouched Hc HR.
Qed.

(** ** Scans *)
Lemma scan_while_exact {E B} (cont : bytes * bytes → bool) (body : bytes * bytes → result E B)
    (key : B → bytes) (P : B → Prop) d cf s :
  (∀ k v, (k, v) ∈ take_while cont (iterator_from d cf s) → ∃ y, body (k, v) = Ok y ∧ key y = k ∧ P y) →
  (∀ y, P y → ∃ v, (key y, v) ∈ take_while cont (iterator_from d cf s)) →
  (∀ y1 y2, P y1 → P y2 → key y1 = key y2 → y1 = y2) →
  ∃ l, for_while cont body (iterator_from d cf s) = Ok l ∧
    (∀ y, y ∈ l ↔ P y) ∧ StronglySorted (λ a b, bytes_lt (key a) (key b)) l.
Proof.
  intros Hbody Hall Hinj.
  assert (∀ items, (∀ k v, (k, v) ∈ items → ∃ y, body (k, v) = Ok y ∧ key y = k ∧ P y) →
    ∃ l, Forall2 (λ x y, body x = Ok y ∧ key y = x.1 ∧ P y) items l) as Hex.
  { induction items as [|[k v] items IH]; intros Hb; [by exists []|].
    destruct (Hb k v) as (y & ?); [left|]. destruct IH as [l ?]; [intros; apply (Hb _ v0); by right|].
    exists (y :: l). by constructor. }
  destruct (Hex (take_while cont (iterator_from d cf s)) Hbody) as [l Hl]. exists l. split_and!.
  - apply for_while_ok. eapply Forall2_impl; [exact Hl|]. naive_solver.
  - intros y. split.
    + intros Hy. apply list_elem_of_lookup in Hy as [i Hi].
      eapply Forall2_lookup_r in Hl as (x & _ & _ & _ & ?); done.
    + intros HP. destruct (Hall y HP) as [v Hv]. apply list_elem_of_lookup in Hv as [i Hi].
      eapply Forall2_lookup_l in Hl as (y' & Hy' & _ & Hk & HP'); [|done].
      cbn in Hk. rewrite (Hinj y y') by done. by eapply list_elem_of_lookup_2.
  - pose proof (StronglySorted_sublist _ _ _ (take_while_sublist cont _) (iterator_from_sorted d cf s)) as Hs. revert Hs Hl. 
    generalize (take_while cont (iterator_from d cf s)) as items.
    intros items Hs. revert l. induction Hs as [|x items Hs IH Hx]; intros l Hl.
    { apply Forall2_nil_inv_l in Hl as ->. constructor. }
    apply Forall2_cons_inv_l in Hl as (y & l' & (_ & Hy & _) & Hl & ->). constructor; [by apply IH|].
    apply Forall_forall. intros z [i Hi]%list_elem_of_lookup.
    eapply Forall2_lookup_r in Hl as (w & Hw & _ & Hz & _); [|done]. rewrite Hy, Hz.
    rewrite Forall_forall in Hx. apply Hx. by eapply list_elem_of_lookup_2.
Qed.

Lemma scan_exact {E B} (body : bytes * bytes → result E B) (key : B → bytes) (P : B → Prop) d cf p :
  (∀ k v, (k, v) ∈ prefix_items d cf p → ∃ y, body (k, v) = Ok y ∧ key y = k ∧ P y) →
  (∀ y, P y → ∃ v, (key y, v) ∈ prefix_items d cf p) →
  (∀ y1 y2, P y1 → P y2 → key y1 = key y2 → y1 = y2) →
  ∃ l, for_while (has_prefix p) body (iterator_from d cf p) = Ok l ∧
    (∀ y, y ∈ l ↔ P y) ∧ StronglySorted (λ a b, bytes_lt (key a) (key b)) l.
Proof. apply scan_while_exact. Qed.

Definition node_kf (x : Node) : bytes := encode_node_key (node_graph_id x) (node_id x).
Lemma scan_nodes_rep d G g :
  represents d G → ∃ l, scan_nodes d g = Ok l ∧
    (∀ x, x ∈ l ↔ has_node G x ∧ node_graph_id x = g) ∧
    StronglySorted (λ a b, bytes_lt (node_kf a) (node_kf b)) l.
Proof.
  intros HR. unfold scan_nodes. cf_open_simpl. apply scan_exact.
  - intros k v [Hk Hp]%elem_of_prefix_items. apply (rep_nodes d G HR) in Hk as (x & Hx & -> & ->).
    apply node_key_prefix in Hp. exists x. cbn. rewrite decode_value_ser. auto.
  - intros x [Hx <-]. exists (ser x). apply elem_of_prefix_items. split; [|by apply node_key_prefix].
    apply (rep_nodes d G HR). exists x. auto.
  - intros y1 y2 [H1' _] [H2' _] [Hg Hn]%encode_node_key_inj. apply (has_node_key G); [done..|].
    unfold node_key. congruence.
Qed.
Lemma scan_edges_rep d G g :
  represents d G → ∃ l, scan_edges d g = Ok l ∧
    (∀ e, e ∈ l ↔ has_edge G e ∧ edge_graph_id e = g) ∧
    StronglySorted (λ a b, bytes_lt (edge_kf a) (edge_kf b)) l.
Proof.
  intros HR. unfold scan_edges. cf_open_simpl. apply scan_exact.
  - intros k v [Hk Hp]%elem_of_prefix_items. apply (rep_edges d G HR) in Hk as (x & Hx & -> & ->).
    apply node_key_prefix in Hp. exists x. cbn. rewrite decode_value_ser. auto.
  - intros x [Hx <-]. exists (ser x). apply elem_of_prefix_items. split; [|by apply node_key_prefix].
    apply (rep_edges d G HR). exists x. auto.
  - intros y1 y2 [H1' _] [H2' _] Hk. apply (has_edge_key G); [done..|by apply edge_kf_inj].
Qed.
Lemma key_tail_label_key g l n : key_tail_id (encode_node_label_key g l n) = Some n.
Proof. unfold encode_node_label_key, encode_uuid. rewrite (assoc_L (++)). apply key_tail_id_app. Qed.
Lemma key_tail_adj_key g s l e : key_tail_id (encode_adj_out_key g s l e) = Some e.
Proof. unfold encode_adj_out_key, encode_uuid. rewrite !(assoc_L (++)). apply key_tail_id_app. Qed.

(** A label scan finds the nodes with a label that has the same code: the same label, unless it
    exceeds the 65535 bytes a key keeps. *)
Lemma scan_nodes_by_label_rep d G g l :
  represents d G → ∃ res, scan_nodes_by_label d g l = Ok res ∧
    (∀ x, x ∈ res ↔ has_node G x ∧ node_graph_id x = g ∧
       ∃ l', l' ∈ node_labels x ∧ label_cut l' = label_cut l) ∧
    StronglySorted (λ a b, bytes_lt (encode_node_label_key g l (node_id a)) (encode_node_label_key g l (node_id b))) res.
Proof.
  intros HR. unfold scan_nodes_by_label. cf_open_simpl.
  apply (scan_exact _ (λ x : Node, encode_node_label_key g l (node_id x))).
  - intros k v [Hk Hp]%elem_of_prefix_items. apply (rep_node_labels d G HR) in Hk as (x & l' & Hx & Hl' & -> & ->).
    apply node_label_key_prefix in Hp as [Hg Hc]. exists x. cbn.
    rewrite key_tail_label_key. cbn. rewrite (get_node_rep d G) by done.
    rewrite <- Hg. change (g_nodes G !! (node_graph_id x, node_id x)) with (g_nodes G !! node_key x).
    rewrite Hx. split_and!; [done| |done|done|by eauto].
    unfold encode_node_label_key. by rewrite (encode_label_cut l' l).
  - intros x (Hx & <- & l' & Hl' & Hc). exists []. apply elem_of_prefix_items. split.
    + apply (rep_node_labels d G HR). exists x, l'. split_and!; [done..| |done].
      unfold encode_node_label_key. by rewrite (encode_label_cut l l').
    + by apply node_label_key_prefix.
  - intros y1 y2 (Hy1 & Hg1 & _) (Hy2 & Hg2 & _) (_ & _ & Hn)%encode_node_label_key_inj.
    apply (has_node_key G); [done..|]. unfold node_key. congruence.
Qed.

Definition label_matches (filter : option Label) (e : Edge) : Prop :=
  match filter with Some l => label_cut (edge_label e) = label_cut l | None => True end.
Lemma get_outgoing_edges_rep d G g s lf :
  represents d G → ∃ l, get_outgoing_edges d g s lf = Ok l ∧
    (∀ e, e ∈ l ↔ has_edge G e ∧ edge_graph_id e = g ∧ edge_source e = s ∧ label_matches lf e) ∧
    StronglySorted (λ a b, bytes_lt (out_kf a) (out_kf b)) l.
Proof.
  intros HR. unfold get_outgoing_edges. cf_open_simpl.
  assert (∀ e, starts_with (out_kf e) (match lf with Some l => encode_adj_out_label_prefix g s l
    | None => encode_adj_out_prefix g s end) = true ↔
    edge_graph_id e = g ∧ edge_source e = s ∧ label_matches lf e) as Hpre.
  { intros e. destruct lf as [l|]; [apply adj_out_key_label_prefix|].
    unfold out_kf. rewrite adj_out_key_prefix. cbn. tauto. }
  apply scan_exact.
  - intros k v [Hk Hp]%elem_of_prefix_items. apply (rep_adj_out d G HR) in Hk as (e & He & -> & ->).
    fold (out_kf e) in Hp |- *. apply Hpre in Hp as (<- & Hp). exists e. cbn.
    unfold out_kf at 1. rewrite key_tail_adj_key. cbn. rewrite (get_edge_rep d G) by done.
    change (g_edges G !! (edge_graph_id e, edge_id e)) with (g_edges G !! edge_key e).
    rewrite He. auto.
  - intros e (He & Hp). exists (uuid_bytes (edge_target e)). apply elem_of_prefix_items.
    split; [|by apply Hpre]. apply (rep_adj_out d G HR). exists e. auto.
  - intros y1 y2 [Hy1 _] [Hy2 _] Hk. apply (has_edge_key G); [done..|by apply out_kf_inj].
Qed.
Lemma get_incoming_edges_rep d G g t lf :
  represents d G → ∃ l, get_incoming_edges d g t lf = Ok l ∧
    (∀ e, e ∈ l ↔ has_edge G e ∧ edge_graph_id e = g ∧ edge_target e = t ∧ label_matches lf e) ∧
    StronglySorted (λ a b, bytes_lt (in_kf a) (in_kf b)) l.
Proof.
  intros HR. unfold get_incoming_edges. cf_open_simpl.
  assert (∀ e, starts_with (in_kf e) (match lf with Some l => encode_adj_in_label_prefix g t l
    | None => encode_adj_in_prefix g t end) = true ↔
    edge_graph_id e = g ∧ edge_target e = t ∧ label_matches lf e) as Hpre.
  { intros e. destruct lf as [l|]; [apply adj_out_key_label_prefix|].
    unfold in_kf. etrans; [apply adj_out_key_prefix|]. cbn. tauto. }
  apply scan_exact.
  - intros k v [Hk Hp]%elem_of_prefix_items. apply (rep_adj_in d G HR) in Hk as (e & He & -> & ->).
    fold (in_kf e) in Hp |- *. apply Hpre in Hp as (<- & Hp). exists e. cbn.
    unfold in_kf at 1. rewrite (key_tail_adj_key _ _ _ (edge_id e) : key_tail_id (encode_adj_in_key _ _ _ _) = _).
    cbn. rewrite (get_edge_rep d G) by done.
    change (g_edges G !! (edge_graph_id e, edge_id e)) with (g_edges G !! edge_key e).
    rewrite He. auto.
  - intros e (He & Hp). exists (uuid_bytes (edge_source e)). apply elem_of_prefix_items.
    split; [|by apply Hpre]. apply (rep_adj_in d G HR). exists e. auto.
  - intros y1 y2 [Hy1 _] [Hy2 _] Hk. apply (has_edge_key G); [done..|by apply in_kf_inj].
Qed.

(** ** delete_node *)
Lemma delete_unseen_rep g l seen d G :
  represents d G →
  (∀ f, f ∈ l → edge_id f ∈ seen ∨ is_Some (g_edges G !! (g, edge_id f))) →
  ∃ d' G', delete_unseen g l seen d = (d', Ok tt) ∧ represents d' G' ∧
    g_nodes G' = g_nodes G ∧ g_metas G' = g_metas G ∧
    (∀ ke, g_edges G' !! ke =
      if decide (ke.1 = g ∧ ke.2 ∈ edge_id <$> l ∧ ke.2 ∉ seen) then None else g_edges G !! ke) ∧
    (∀ k, get_cf d' PROP_INDEX k = get_cf d PROP_INDEX k).
Proof.
  revert seen d G. induction l as [|e l IH]; intros seen d G HR Hl; cbn [delete_unseen].
  { exists d, G. split_and!; [done..| |done]. intros ke. rewrite decide_False; [done|].
    by intros (_ & ?%not_elem_of_nil & _). }
  case_decide as Hseen.
  - destruct (IH seen d G HR) as (d' & G' & ? & ? & ? & ? & Hk & ?).
    { intros f ?. apply Hl. by right. }
    exists d', G'. split_and!; [done..| |done]. intros ke. rewrite Hk. apply decide_ext.
    rewrite fmap_cons, elem_of_cons. split; [tauto|].
    intros (? & [Heq|?] & ?); [|done]. by rewrite Heq in *.
  - pose proof (delete_edge_rep d G g (edge_id e) HR) as Hdel.
    destruct (Hl e) as [?|[old Hold]]; [left|done|]. rewrite Hold in Hdel.
    destruct Hdel as (d1 & -> & HR1 & Hp1).
    destruct (IH (edge_id e :: seen) d1 _ HR1) as (d' & G' & ? & ? & ? & ? & Hk & Hp).
    { intros f Hf. destruct (decide (edge_id f = edge_id e)) as [->|Hne]; [left; left|].
      destruct (Hl f) as [?|?]; [by right|left; by right|right]. cbn.
      rewrite lookup_delete_ne; [done|congruence]. }
    exists d', G'. split_and!; [done..| |intros k; by rewrite Hp].
    intros [kg ki]. rewrite Hk. cbn. destruct (decide ((g, edge_id e) = (kg, ki))) as [[= <- <-]|Hne].
    + rewrite lookup_delete_eq. transitivity (None (A := Edge)); [by case_decide|].
      rewrite decide_True; [done|]. split_and!; [done|left|done].
    + rewrite lookup_delete_ne by done. apply decide_ext. rewrite !elem_of_cons.
      split; [tauto|]. intros (-> & [->|?] & ?); [done|]. split_and!; [done..|].
      intros [->|?]; done.
Qed.

Lemma delete_node_batch_rep d G g n x :
  represents d G → g_nodes G !! (g, n) = Some x →
  (∀ e, has_edge G e → ¬ touches g n e) →
  ∃ d', delete_node_batch d g n x = Ok d' ∧ represents d' (remove_node g n G) ∧
    (∀ k, get_cf d' PROP_INDEX k = get_cf d PROP_INDEX k).
Proof.
  intros HR Hx Hno. unfold delete_node_batch. cf_open_simpl. eexists. split; [done|].
  pose proof (proj1 (rep_keyed d G HR) _ _ Hx) as [= -> ->].
  set (d' := write d _).
  assert (∀ cf k, get_cf d' cf k =
    if decide (cf = NODE_LABELS ∧ k ∈ label_keys x (node_labels x)) then None
    else if decide (NODES = cf ∧ node_kf x = k) then None else get_cf d cf k) as Hc.
  { intros cf k. subst d'. rewrite get_cf_write.
    etrans; [apply (apply_batch_app cf k _ [_])|]. by rewrite apply_batch_deletes. }
  clearbody d'. split; [|intros k; rewrite Hc; by cf_ne].
  assert (g_edges (remove_node (node_graph_id x) (node_id x) G) = g_edges G) as He.
  { cbn. apply map_filter_id. intros k e Hk Ht. apply (Hno e); [|done].
    pose proof (proj1 (proj2 (rep_keyed d G HR)) _ _ Hk) as ->. done. }
  assert (∀ e, has_edge (remove_node (node_graph_id x) (node_id x) G) e ↔ has_edge G e) as Hhe.
  { intros e. unfold has_edge. by rewrite He. }
  assert (∀ y, has_node G y → node_key y = node_key x → y = x) as Hsame.
  { intros y Hy Hk. by apply (has_node_key G). }
  split.
  - apply keyed_remove_node, HR.
  - intros k v. rewrite Hc. cf_ne. unfold node_cell. setoid_rewrite has_node_remove. case_decide as Hk.
    + destruct Hk as [_ <-]. split; [done|]. intros (y & [_ Hne] & [Hg Hn]%encode_node_key_inj & _).
      destruct Hne. unfold node_key. congruence.
    + rewrite (rep_nodes d G HR). unfold node_cell. split; [|naive_solver].
      intros (y & Hy & -> & ->). exists y. split_and!; [done| |done..].
      intros Hyx. apply Hk. split; [done|]. by rewrite (Hsame y).
  - intros k v. rewrite Hc. unfold node_label_cell. setoid_rewrite has_node_remove.
    case_decide as Hk; [|cf_ne].
    + destruct Hk as [_ (l & -> & Hl)%list_elem_of_fmap]. split; [done|].
      intros (y & l' & [_ Hne] & _ & (Hg & _ & Hn)%encode_node_label_key_inj & _).
      destruct Hne. unfold node_key. congruence.
    + rewrite (rep_node_labels d G HR). unfold node_label_cell. split; [|naive_solver].
      intros (y & l & Hy & Hl & -> & ->). exists y, l. split_and!; [done| |done..].
      intros Hyx. apply Hk. split; [done|]. pose proof (Hsame y Hy Hyx) as ->. by apply label_keys_elem.
  - intros k v. rewrite Hc. cf_ne. unfold edge_cell. setoid_rewrite Hhe. apply (rep_edges d G HR).
  - intros k v. rewrite Hc. cf_ne. unfold adj_out_cell. setoid_rewrite Hhe. apply (rep_adj_out d G HR).
  - intros k v. rewrite Hc. cf_ne. unfold adj_in_cell. setoid_rewrite Hhe. apply (rep_adj_in d G HR).
  - intros k v. rewrite Hc. cf_ne. unfold edge_label_cell. setoid_rewrite Hhe. apply (rep_edge_labels d G HR).
  - intros k v. rewrite Hc. cf_ne. apply (rep_metas d G HR).
Qed.

Lemma delete_node_rep d G g n :
  represents d G →
  match g_nodes G !! (g, n) with
  | None => delete_node d g n = (d, Err SNotFound)
  | Some _ => ∃ d', delete_node d g n = (d', Ok tt) ∧ represents d' (remove_node g n G) ∧
      (∀ k, get_cf d' PROP_INDEX k = get_cf d PROP_INDEX k)
  end.
Proof.
  intros HR. unfold delete_node. rewrite (get_node_rep d G) by done.
  destruct (g_nodes G !! (g, n)) as [x|] eqn:Hx; cbn [ok_or]; [|done].
  destruct (get_outgoing_edges_rep d G g n None HR) as (out & -> & Hout & _).
  destruct (get_incoming_edges_rep d G g n None HR) as (inc & -> & Hin & _).
  assert (∀ e, e ∈ out ++ inc ↔ has_edge G e ∧ touches g n e) as Hmem.
  { intros e. rewrite elem_of_app, Hout, Hin. unfold touches. cbn. tauto. }
  destruct (delete_unseen_rep g (out ++ inc) [] d G HR) as (d1 & G1 & -> & HR1 & Hn1 & Hm1 & He1 & Hp1).
  { intros f [Hf [<- _]]%Hmem. right. by exists f. }
  destruct (delete_node_batch_rep d1 G1 g n x HR1) as (d2 & -> & HR2 & Hp2).
  - by rewrite Hn1.
  - intros e He Ht. unfold has_edge in He. rewrite He1 in He. case_decide as Hk; [done|].
    apply Hk. split_and!; [apply Ht| |apply not_elem_of_nil].
    cbn. apply (list_elem_of_fmap_2 edge_id), Hmem. split; [done|exact Ht].
  - exists d2. split; [done|]. split; [|intros k; by rewrite Hp2].
    assert (remove_node g n G1 = remove_node g n G) as <-; [|done].
    unfold remove_node. rewrite Hn1, Hm1. f_equal. apply map_eq. intros k.
    apply option_eq. intros e. rewrite !map_lookup_filter_Some, He1.
    case_decide as Hk; [|done]. split; [by intros []|]. intros [He Hnt]. destruct Hnt. cbn.
    destruct Hk as (Hkg & (f & Hf & [Hf' Ht]%Hmem)%list_elem_of_fmap & _).
    pose proof (proj1 (proj2 (rep_keyed d G HR)) _ _ He) as ->.
    assert (e = f) as ->; [|done]. apply (has_edge_key G); [done..|].
    destruct Ht as [Hg _]. cbn in *. unfold edge_key. congruence.
Qed.

(** ** Graph metadata and graph deletion *)
Lemma put_graph_meta_rep d G m :
  represents d G → ∃ d', put_graph_meta d m = Ok d' ∧ represents d' (insert_meta m G).
Proof.
  intros HR. unfold put_graph_meta. cf_open_simpl. rewrite encode_value_ser. cbn.
  eexists. split; [done|].
  assert (∀ cf k, cf ≠ GRAPH_META →
    get_cf (put_cf d GRAPH_META (encode_graph_meta_key (meta_id m)) (ser m)) cf k = get_cf d cf k) as Hother.
  { intros cf k Hne. apply get_cf_put_ne. congruence. }
  split; [by apply keyed_insert_meta, HR|intros k v; rewrite Hother by done; apply HR..|].
  intros k v. unfold meta_cell. cbn. setoid_rewrite lookup_insert_Some.
  destruct (decide (k = encode_graph_meta_key (meta_id m))) as [->|Hne].
  - rewrite get_cf_put_eq. split; [intros [= <-]; exists m; auto|].
    intros (m' & [[_ ->]|[Hne _]] & Hk & ->); [done|]. by apply uuid_bytes_inj in Hk.
  - rewrite get_cf_put_ne by congruence. rewrite (rep_metas d G HR). unfold meta_cell. split.
    + intros (m' & Hm & -> & ->). exists m'. split_and!; [|done..]. right. split; [|done].
      intros Hid. apply Hne. by rewrite Hid.
    + intros (m' & [[_ ->]|[_ ?]] & -> & ->); [done|eauto].
Qed.
Lemma get_graph_meta_rep d G g :
  represents d G → get_graph_meta d g = ok_or SNotFound (g_metas G !! g).
Proof.
  intros HR. unfold get_graph_meta. cf_open_simpl.
  destruct (g_metas G !! g) as [m|] eqn:Hm.
  - pose proof (proj2 (proj2 (rep_keyed d G HR)) _ _ Hm) as ->.
    assert (get_cf d GRAPH_META (encode_graph_meta_key (meta_id m)) = Some (ser m)) as ->.
    { apply (rep_metas d G HR). by exists m. }
    cbn. apply decode_value_ser.
  - assert (get_cf d GRAPH_META (encode_graph_meta_key g) = None) as ->; [|done].
    apply eq_None_not_Some. intros [v (m & Hm' & Hk & _)%(rep_metas d G HR)].
    apply uuid_bytes_inj in Hk as ->. congruence.
Qed.

Lemma graph_prefix (g g' : GraphId) rest :
  starts_with (uuid_bytes g' ++ rest) (uuid_bytes g) = true ↔ g' = g.
Proof.
  rewrite starts_with_spec. split; [by intros [r [-> _]%uuid_app_inj]|]. intros ->. eauto.
Qed.
Lemma delete_graph_cf_cells p cf d :
  cf ∈ all → ∃ d', delete_graph_cf p cf d = (d', Ok tt) ∧
    ∀ cf' k, get_cf d' cf' k = if decide (cf' = cf ∧ starts_with k p = true) then None else get_cf d cf' k.
Proof.
  intros Hcf. unfold delete_graph_cf. rewrite cf_open_all by done. cbn zeta.
  fold (prefix_items d cf p).
  assert (∀ cf' k, get_cf (write d ((λ kv, BatchDelete cf kv.1) <$> prefix_items d cf p)) cf' k =
    if decide (cf' = cf ∧ starts_with k p = true) then None else get_cf d cf' k) as Hw.
  { intros cf' k. apply get_cf_delete_prefix. }
  case_decide as Hlen; eexists; (split; [done|]); [exact Hw|].
  intros cf' k. rewrite <- Hw.
  destruct (prefix_items d cf p) as [|x l]; [|by destruct Hlen; cbn; lia].
  by rewrite get_cf_write.
Qed.
Lemma delete_graph_cfs_cells p cfs d :
  Forall (.∈ all) cfs → ∃ d', for_each_st (delete_graph_cf p) cfs d = (d', Ok tt) ∧
    ∀ cf' k, get_cf d' cf' k = if decide (cf' ∈ cfs ∧ starts_with k p = true) then None else get_cf d cf' k.
Proof.
  intros Hall. revert d. induction Hall as [|cf cfs Hcf Hall IH]; intros d; cbn [for_each_st].
  { exists d. split; [done|]. intros. rewrite decide_False; [done|]. by intros [?%not_elem_of_nil _]. }
  destruct (delete_graph_cf_cells p cf d Hcf) as (d1 & -> & Hc1).
  destruct (IH d1) as (d2 & -> & Hc2). exists d2. split; [done|].
  intros cf' k. rewrite Hc2, Hc1. repeat case_decide; rewrite ?elem_of_cons in *; tauto.
Qed.

Lemma delete_graph_rep d G g :
  represents d G → ∃ d', delete_graph d g = (d', Ok tt) ∧ represents d' (remove_graph g G) ∧
    (∀ k, get_cf d' PROP_INDEX k = if starts_with k (uuid_bytes g) then None else get_cf d PROP_INDEX k).
Proof.
  intros HR. unfold delete_graph.
  destruct (delete_graph_cfs_cells (uuid_bytes g) data_cfs d) as (d1 & -> & Hc1).
  { in_cfs. }
  rewrite cf_open_all by in_cfs. eexists. split; [done|].
  set (d' := delete_cf d1 _ _).
  assert (∀ cf k, cf ∈ data_cfs → get_cf d' cf k = if starts_with k (uuid_bytes g) then None else get_cf d cf k) as Hc.
  { intros cf k Hin. subst d'. rewrite get_cf_delete_ne, Hc1.
    - destruct (starts_with k (uuid_bytes g)); [by rewrite decide_True|by rewrite decide_False by (by intros [])].
    - intros [= <- _]. revert Hin. in_cfs. }
  assert (∀ k, get_cf d' GRAPH_META k = if decide (k = encode_graph_meta_key g) then None else get_cf d GRAPH_META k) as Hm.
  { intros k. subst d'. case_decide as Hk; [subst; apply get_cf_delete_eq|].
    rewrite get_cf_delete_ne, Hc1, decide_False; [done| |congruence].
    intros [Hin _]. revert Hin. in_cfs. }
  clearbody d'.
  assert (∀ cf, cf ∈ data_cfs → ∀ kf vf, (∀ e, ∃ r, kf e = uuid_bytes (edge_graph_id e) ++ r) →
    edge_index G kf vf (get_cf d cf) → edge_index (remove_graph g G) kf vf (get_cf d' cf)) as Hedges.
  { intros cf Hcf kf vf Hkf Hidx k v. rewrite Hc by done.
    assert (∀ e, has_edge (remove_graph g G) e ↔ has_edge G e ∧ edge_graph_id e ≠ g) as Hre.
    { intros e. unfold has_edge. cbn. apply map_lookup_filter_Some. }
    setoid_rewrite Hre. destruct (starts_with k (uuid_bytes g)) eqn:Hs.
    - split; [done|]. intros (e & [_ Hne] & -> & _). destruct (Hkf e) as [r Hr]. rewrite Hr in Hs.
      by apply graph_prefix in Hs.
    - rewrite (Hidx k v). split; [|naive_solver]. intros (e & He & -> & ->).
      exists e. split_and!; [done| |done..]. intros Hg. destruct (Hkf e) as [r Hr]. rewrite Hr, Hg in Hs.
      by rewrite starts_with_app in Hs. }
  assert (∀ x, has_node (remove_graph g G) x ↔ has_node G x ∧ node_graph_id x ≠ g) as Hrn.
  { intros e. unfold has_node. cbn. apply map_lookup_filter_Some. }
  split; [split|intros k; apply Hc; in_cfs].
  - apply keyed_remove_graph, HR.
  - intros k v. rewrite Hc by in_cfs.
    unfold node_cell. setoid_rewrite Hrn. destruct (starts_with k (uuid_bytes g)) eqn:Hs.
    + split; [done|]. intros (x & [_ Hne] & -> & _). by apply graph_prefix in Hs.
    + rewrite (rep_nodes d G HR). split; [|unfold node_cell; naive_solver]. intros (x & Hx & -> & ->).
      exists x. split_and!; [done| |done..]. intros Hg.
      assert (starts_with (encode_node_key (node_graph_id x) (node_id x)) (uuid_bytes g) = true); [|congruence].
      by apply graph_prefix.
  - intros k v. rewrite Hc by in_cfs.
    unfold node_label_cell. setoid_rewrite Hrn. destruct (starts_with k (uuid_bytes g)) eqn:Hs.
    + split; [done|]. intros (x & l & [_ Hne] & _ & -> & _). by apply graph_prefix in Hs.
    + rewrite (rep_node_labels d G HR). split; [|unfold node_label_cell; naive_solver].
      intros (x & l & Hx & Hl & -> & ->).
      exists x, l. split_and!; [done| |done..]. intros Hg.
      assert (starts_with (encode_node_label_key (node_graph_id x) l (node_id x)) (uuid_bytes g) = true); [|congruence].
      by apply graph_prefix.
  - apply (Hedges EDGES) with (kf := edge_kf) (vf := ser); [in_cfs|by eexists|exact (rep_edges d G HR)].
  - apply (Hedges ADJ_OUT) with (kf := out_kf) (vf := (λ e, uuid_bytes (edge_target e))); [in_cfs|by eexists|exact (rep_adj_out d G HR)].
  - apply (Hedges ADJ_IN) with (kf := in_kf) (vf := (λ e, uuid_bytes (edge_source e))); [in_cfs|by eexists|exact (rep_adj_in d G HR)].
  - apply (Hedges EDGE_LABELS) with (kf := label_kf) (vf := (λ _, [])); [in_cfs|by eexists|exact (rep_edge_labels d G HR)].
  - intros k v. rewrite Hm. unfold meta_cell. cbn. setoid_rewrite lookup_delete_Some.
    case_decide as Hk.
    + split; [done|]. intros (m & [Hne _] & Hkm & _). subst k. by apply uuid_bytes_inj in Hkm.
    + rewrite (rep_metas d G HR). unfold meta_cell. split; [|naive_solver].
      intros (m & Hmm & -> & ->). exists m. split_and!; [|done..]. congruence.
Qed.
End represents.

(** ** Exporting a graph as GQL statements *)
Section export.
Context `{RocksDB db, Bincode Node, Bincode Edge}.
(** [Display] for a UUID, a float and chrono's types. *)
Variable uuid_fmt : Uuid → string.
Variable f64_fmt : f64 → string.
Variable date_fmt : NaiveDate → string.
Variable time_fmt : NaiveTime → string.
Variable datetime_fmt : NaiveDateTime → string.

Definition format_properties_for_export (props : Properties) : string :=
  match props with
  | [] => EmptyString
  | _ => "{" +:+ String.concat ", " ((λ kv, kv.1 +:+ ": " +:+ Value_fmt f64_fmt date_fmt time_fmt datetime_fmt kv.2) <$> props) +:+ "}"
  end.
Definition export_node (node : Node) : string :=
  let labels := String.concat EmptyString ((λ l, ":" +:+ l) <$> node_labels node) in
  let props := btree_insert "_id" (Str (uuid_fmt (node_id node))) (node_properties node) in
  "INSERT (" +:+ labels +:+ " " +:+ format_properties_for_export props +:+ ")".
Definition export_edge (edge : Edge) : string :=
  let props_str := match edge_properties edge with
    | [] => EmptyString
    | _ => " " +:+ format_properties_for_export (edge_properties edge)
    end in
  "MATCH (a {_id: '" +:+ uuid_fmt (edge_source edge) +:+ "'}), (b {_id: '" +:+ uuid_fmt (edge_target edge)
    +:+ "'}) INSERT (a)-[:" +:+ edge_label edge +:+ props_str +:+ "]->(b)".
(** The lines written and the count returned; the writer does not fail. *)
Definition export_graph (d : db) (graph_id : GraphId) : result StorageError (list string * nat) :=
  nodes ← scan_nodes d graph_id;
  edges ← scan_edges d graph_id;
  let lines := (export_node <$> nodes) ++ (export_edge <$> edges) in
  Ok (lines, length lines).
End export.

(** ** Sequences of operations *)
Inductive graph_op : Type :=
| OpPutNode (x : Node) | OpPutEdge (e : Edge) | OpPutMeta (m : GraphMeta)
| OpDeleteNode (g : GraphId) (n : NodeId) | OpDeleteEdge (g : GraphId) (i : EdgeId)
| OpDeleteGraph (g : GraphId).

Section runs.
Context `{RocksDB db, Bincode Node, Bincode Edge, Bincode GraphMeta}.
Definition run_op (d : db) (op : graph_op) : db * result StorageError unit :=
  match op with
  | OpPutNode x => lift_st d (put_node d x)
  | OpPutEdge e => lift_st d (put_edge d e)
  | OpPutMeta m => lift_st d (put_graph_meta d m)
  | OpDeleteNode g n => delete_node d g n
  | OpDeleteEdge g i => lift_st d (delete_edge d g i)
  | OpDeleteGraph g => delete_graph d g
  end.
Fixpoint run_ops (d : db) (ops : list graph_op) : db * list (result StorageError unit) :=
  match ops with
  | [] => (d, [])
  | op :: ops' => let '(d1, r) := run_op d op in let '(d2, rs) := run_ops d1 ops' in (d2, r :: rs)
  end.
End runs.
Definition abs_op (G : graph) (op : graph_op) : graph * result StorageError unit :=
  match op with
  | OpPutNode x => (insert_node x G, Ok tt)
  | OpPutEdge e => (insert_edge e G, Ok tt)
  | OpPutMeta m => (insert_meta m G, Ok tt)
  | OpDeleteNode g n => if g_nodes G !! (g, n) then (remove_node g n G, Ok tt) else (G, Err SNotFound)
  | OpDeleteEdge g i => if g_edges G !! (g, i) then (remove_edge g i G, Ok tt) else (G, Err SNotFound)
  | OpDeleteGraph g => (remove_graph g G, Ok tt)
  end.
Fixpoint abs_ops (G : graph) (ops : list graph_op) : graph * list (result StorageError unit) :=
  match ops with
  | [] => (G, [])
  | op :: ops' => let '(G1, r) := abs_op G op in let '(G2, rs) := abs_ops G1 ops' in (G2, r :: rs)
  end.

Section refinement.
Context `{RocksDBLaws db, BincodeLaws Node, BincodeLaws Edge, BincodeLaws GraphMeta}.
Implicit Types (d : db) (G : graph).

Lemma represents_empty d : (∀ cf k, get_cf d cf k = None) → represents d empty_graph.
Proof.
  intros He.
  assert (∀ x, ¬ has_node empty_graph x) as Hn by (intros x; unfold has_node; cbn; by rewrite lookup_empty).
  assert (∀ x, ¬ has_edge empty_graph x) as Hed by (intros x; unfold has_edge; cbn; by rewrite lookup_empty).
  split.
  - split_and!; intros k x Hk; cbn in Hk; by rewrite lookup_empty in Hk.
  - intros k v. rewrite He. split; [done|]. by intros (x & Hx%Hn & _).
  - intros k v. rewrite He. split; [done|]. by intros (x & l & Hx%Hn & _).
  - intros k v. rewrite He. split; [done|]. by intros (x & Hx%Hed & _).
  - intros k v. rewrite He. split; [done|]. by intros (x & Hx%Hed & _).
  - intros k v. rewrite He. split; [done|]. by intros (x & Hx%Hed & _).
  - intros k v. rewrite He. split; [done|]. by intros (x & Hx%Hed & _).
  - intros k v. rewrite He. split; [done|]. intros (m & Hm & _). cbn in Hm. by rewrite lookup_empty in Hm.
Qed.
Lemma run_op_rep d G op :
  represents d G → (run_op d op).2 = (abs_op G op).2 ∧ represents (run_op d op).1 (abs_op G op).1.
Proof.
  intros HR. destruct op as [x|e|m|g n|g i|g]; cbn.
  - destruct (put_node_rep d G x HR) as (d' & -> & ? & _). done.
  - destruct (put_edge_rep d G e HR) as (d' & -> & ? & _). done.
  - destruct (put_graph_meta_rep d G m HR) as (d' & -> & ?). done.
  - pose proof (delete_node_rep d G g n HR) as Hd. destruct (g_nodes G !! (g, n)); [|by rewrite Hd].
    destruct Hd as (d' & -> & ? & _). done.
  - pose proof (delete_edge_rep d G g i HR) as Hd. destruct (g_edges G !! (g, i)); [|by rewrite Hd].
    destruct Hd as (d' & -> & ? & _). done.
  - destruct (delete_graph_rep d G g HR) as (d' & -> & ? & _). done.
Qed.
Lemma run_ops_rep ops d G :
  represents d G → (run_ops d ops).2 = (abs_ops G ops).2 ∧ represents (run_ops d ops).1 (abs_ops G ops).1.
Proof.
  revert d G. induction ops as [|op ops IH]; intros d G HR; cbn; [done|].
  destruct (run_op_rep d G op HR) as [Hr HR1].
  destruct (run_op d op) as [d1 r], (abs_op G op) as [G1 r']. cbn in *. subst r'.
  destruct (IH d1 G1 HR1) as [Hrs HR2].
  destruct (run_ops d1 ops) as [d2 rs], (abs_ops G1 ops) as [G2 rs']. cbn in *. by subst.
Qed.
End refinement.

(** ** Properties *)
Section properties.
Context `{RocksDBLaws db, BincodeLaws Node, BincodeLaws Edge, BincodeLaws GraphMeta}.
Implicit Types (d : db) (G : graph).

(** C1: the storage engine refines the property graph. Started on an empty database, any sequence
    of node, edge, metadata and graph operations returns what the abstract operations return
    (success, or not-found for a missing node or edge), and leaves the seven column families,
    label indexes and both adjacency indexes included, holding exactly the abstract graph; so do
    the point reads. *)
Theorem engine_refines_graph d ops :
  (∀ cf k, get_cf d cf k = None) →
  let '(d', rs) := run_ops d ops in
  let '(G', rs') := abs_ops empty_graph ops in
  rs = rs' ∧ represents d' G' ∧
  (∀ g n, get_node d' g n = ok_or SNotFound (g_nodes G' !! (g, n))) ∧
  (∀ g i, get_edge d' g i = ok_or SNotFound (g_edges G' !! (g, i))) ∧
  (∀ g, get_graph_meta d' g = ok_or SNotFound (g_metas G' !! g)).
Proof.
  intros He. destruct (run_ops_rep ops d empty_graph (represents_empty d He)) as [Hr HR].
  destruct (run_ops d ops) as [d' rs], (abs_ops empty_graph ops) as [G' rs']. cbn in *.
  split_and!; [done|done|..]; intros;
    first [by apply get_node_rep|by apply get_edge_rep|by apply get_graph_meta_rep].
Qed.

(** C27: deleting a node succeeds exactly on a stored node, removes it with every edge that starts
    or ends there (a self-loop once), and leaves nothing dangling: no adjacency scan, label scan
    or node scan of the new state mentions it. *)
Theorem delete_node_complete d G g n x :
  represents d G → g_nodes G !! (g, n) = Some x →
  ∃ d', delete_node d g n = (d', Ok tt) ∧ represents d' (remove_node g n G) ∧
    get_node d' g n = Err SNotFound ∧
    (∀ lf, get_outgoing_edges d' g n lf = Ok []) ∧ (∀ lf, get_incoming_edges d' g n lf = Ok []) ∧
    (∀ l, ∃ xs, scan_nodes_by_label d' g l = Ok xs ∧ ∀ y, y ∈ xs → node_id y ≠ n).
Proof.
  intros HR Hx. pose proof (delete_node_rep d G g n HR) as Hd. rewrite Hx in Hd.
  destruct Hd as (d' & Hd & HR' & _). exists d'. split_and!; [done|done|..].
  - rewrite (get_node_rep d' (remove_node g n G)) by done. cbn. by rewrite lookup_delete_eq.
  - intros lf. destruct (get_outgoing_edges_rep d' _ g n lf HR') as (l & -> & Hl & _).
    destruct l as [|e l]; [done|exfalso]. destruct (proj1 (Hl e)) as (He & Hg & Hs & _); [left|].
    apply has_edge_remove_node in He as [_ Ht]. apply Ht. split; [done|by left].
  - intros lf. destruct (get_incoming_edges_rep d' _ g n lf HR') as (l & -> & Hl & _).
    destruct l as [|e l]; [done|exfalso]. destruct (proj1 (Hl e)) as (He & Hg & Hs & _); [left|].
    apply has_edge_remove_node in He as [_ Ht]. apply Ht. split; [done|by right].
  - intros l. destruct (scan_nodes_by_label_rep d' _ g l HR') as (xs & Hxs & Hin & _).
    exists xs. split; [done|]. intros y (Hy & Hg & _)%Hin Hn. apply has_node_remove in Hy as [_ Hne].
    apply Hne. unfold node_key. congruence.
Qed.

(** the scans are exact and ordered. A full scan of a graph returns its nodes (edges) in
    key order, a label scan exactly the nodes carrying the label, provided labels fit the 65535
    bytes a key can hold, and a limited scan the first results of the full one. *)
Theorem node_scans_exact d G g l limit :
  represents d G → label_fits l → (∀ x l', has_node G x → l' ∈ node_labels x → label_fits l') →
  ∃ xs ys es, scan_nodes d g = Ok xs ∧ scan_nodes_by_label d g l = Ok ys ∧ scan_edges d g = Ok es ∧
    (∀ x, x ∈ xs ↔ has_node G x ∧ node_graph_id x = g) ∧
    StronglySorted (λ a b, bytes_lt (node_kf a) (node_kf b)) xs ∧
    (∀ y, y ∈ ys ↔ has_node G y ∧ node_graph_id y = g ∧ l ∈ node_labels y) ∧ NoDup ys ∧
    (∀ e, e ∈ es ↔ has_edge G e ∧ edge_graph_id e = g) ∧
    StronglySorted (λ a b, bytes_lt (edge_kf a) (edge_kf b)) es ∧
    scan_nodes_limit d g limit = Ok (take limit xs) ∧ scan_edges_limit d g limit = Ok (take limit es).
Proof.
  intros HR Hl Hfits.
  destruct (scan_nodes_rep d G g HR) as (xs & Hxs & Hxin & Hxsort).
  destruct (scan_nodes_by_label_rep d G g l HR) as (ys & Hys & Hyin & Hysort).
  destruct (scan_edges_rep d G g HR) as (es & Hes & Hein & Hesort).
  exists xs, ys, es. split_and!; try done.
  - intros y. rewrite Hyin. split.
    + intros (Hy & Hg & l' & Hl' & Hc). split_and!; [done..|].
      rewrite !label_cut_fits in Hc by eauto. apply str_bytes_inj in Hc. by subst.
    + intros (Hy & Hg & Hl'). eauto 6.
  - eapply StronglySorted_NoDup, Hysort. intros x. apply bytes_lt_irrefl.
  - unfold scan_nodes_limit, scan_nodes in *. case_decide as Hz; [by subst|].
    destruct (cf_open NODES); [|done]. cbn in *.
    erewrite for_while_limit_take by (done || lia). by rewrite Nat.sub_0_r.
  - unfold scan_edges_limit, scan_edges in *. case_decide as Hz; [by subst|].
    destruct (cf_open EDGES); [|done]. cbn in *.
    erewrite for_while_limit_take by (done || lia). by rewrite Nat.sub_0_r.
Qed.

(** adjacency scans are exact: the outgoing (incoming) edges of a node, restricted by an
    optional label, are the stored edges of the graph with that source (target) and label, each
    once. *)
Theorem adjacency_scans_exact d G g n lf :
  represents d G → (∀ l, lf = Some l → label_fits l) → (∀ e, has_edge G e → label_fits (edge_label e)) →
  ∃ out inc, get_outgoing_edges d g n lf = Ok out ∧ get_incoming_edges d g n lf = Ok inc ∧
    NoDup out ∧ NoDup inc ∧
    (∀ e, e ∈ out ↔ has_edge G e ∧ edge_graph_id e = g ∧ edge_source e = n ∧ (∀ l, lf = Some l → edge_label e = l)) ∧
    (∀ e, e ∈ inc ↔ has_edge G e ∧ edge_graph_id e = g ∧ edge_target e = n ∧ (∀ l, lf = Some l → edge_label e = l)).
Proof.
  intros HR Hl Hfits.
  destruct (get_outgoing_edges_rep d G g n lf HR) as (out & Hout & Hoin & Hos).
  destruct (get_incoming_edges_rep d G g n lf HR) as (inc & Hinc & Hiin & His).
  assert (∀ e, has_edge G e → label_matches lf e ↔ ∀ l, lf = Some l → edge_label e = l) as Hm.
  { intros e He. unfold label_matches. destruct lf as [l|]; [|done]. split.
    - intros Hc l' [= <-]. rewrite !label_cut_fits in Hc by eauto. by apply str_bytes_inj.
    - intros Heq. by rewrite (Heq l). }
  exists out, inc. split_and!; [done..| | | |].
  - eapply StronglySorted_NoDup, Hos. intros x. apply bytes_lt_irrefl.
  - eapply StronglySorted_NoDup, His. intros x. apply bytes_lt_irrefl.
  - intros e. rewrite Hoin. split; intros (He & ? & ? & ?); (split_and!; [done..|by apply Hm]).
  - intros e. rewrite Hiin. split; intros (He & ? & ? & ?); (split_and!; [done..|by apply Hm]).
Qed.
End properties.

(** the export is ambiguous. Strings are written between quotes without escaping, so two
    different nodes, one with a single property whose value contains a quote and one with two
    properties, export to the same statement, however identifiers are printed. *)
Theorem export_ambiguous uuid_fmt f64_fmt date_fmt time_fmt datetime_fmt (g : GraphId) (n : NodeId) :
  let a := mkNode n g ["P"%string] [("x"%string, Str "1', y: '2")] in
  let b := mkNode n g ["P"%string] [("x"%string, Str "1"); ("y"%string, Str "2")] in
  node_properties a ≠ node_properties b ∧
  export_node uuid_fmt f64_fmt date_fmt time_fmt datetime_fmt a =
  export_node uuid_fmt f64_fmt date_fmt time_fmt datetime_fmt b.
Proof. split; [discriminate|]. cbn. f_equal. Qed.

(** ** Witnesses: a graph with two nodes, two edges (one a self-loop) on the finite-map store *)
#[local] Existing Instance countable_bincode.
#[local] Existing Instance countable_bincode_laws.
Definition sample_uuid (b : byte) : Uuid := mkUuid (replicate 16 b) I.
Definition sample_g : GraphId := sample_uuid Byte.x0a.
Definition sample_node (b : byte) (labels : list Label) : Node :=
  mkNode (sample_uuid b) sample_g labels [("age"%string, Integer 7)].
Definition sample_edge (b s t : byte) : Edge :=
  mkEdge (sample_uuid b) sample_g (sample_uuid s) (sample_uuid t) "KNOWS" [].
Definition sample_ops : list graph_op :=
  [OpPutNode (sample_node Byte.x01 ["Person"]); OpPutNode (sample_node Byte.x02 ["Person"; "Robot"]);
   OpPutEdge (sample_edge Byte.x03 Byte.x01 Byte.x02); OpPutEdge (sample_edge Byte.x04 Byte.x01 Byte.x01)].
Definition sample_graph_db : MemDB := (run_ops empty_db sample_ops).1.
Definition sample_graph : graph := (abs_ops empty_graph sample_ops).1.
Lemma empty_db_empty cf k : get_cf empty_db cf k = None.
Proof. apply lookup_empty. Qed.
Lemma sample_represents : represents sample_graph_db sample_graph.
Proof. apply run_ops_rep, represents_empty, empty_db_empty. Qed.
Lemma sample_nodes x : has_node sample_graph x → x = sample_node Byte.x01 ["Person"] ∨ x = sample_node Byte.x02 ["Person"; "Robot"].
Proof.
  unfold has_node, sample_graph. cbn. rewrite !lookup_insert_Some, lookup_empty. naive_solver.
Qed.
Lemma sample_edges e : has_edge sample_graph e → edge_label e = "KNOWS"%string.
Proof. unfold has_edge, sample_graph. cbn. rewrite !lookup_insert_Some, lookup_empty. naive_solver. Qed.

Lemma engine_refines_graph_witness :
  represents sample_graph_db sample_graph ∧
  get_node sample_graph_db sample_g (sample_uuid Byte.x01) = Ok (sample_node Byte.x01 ["Person"]).
Proof.
  pose proof (engine_refines_graph empty_db sample_ops empty_db_empty) as H.
  assert ((run_ops empty_db sample_ops) = (sample_graph_db, (run_ops empty_db sample_ops).2)) as Hr
    by (unfold sample_graph_db; by destruct (run_ops _ _)).
  assert (abs_ops empty_graph sample_ops = (sample_graph, (abs_ops empty_graph sample_ops).2)) as Ha
    by (unfold sample_graph; by destruct (abs_ops _ _)).
  rewrite Hr, Ha in H. destruct H as (_ & HR & Hn & _). split; [exact HR|].
  rewrite Hn. vm_compute. reflexivity.
Defined.
Lemma delete_node_complete_witness :
  ∃ d', delete_node sample_graph_db sample_g (sample_uuid Byte.x01) = (d', Ok tt) ∧
    represents d' (remove_node sample_g (sample_uuid Byte.x01) sample_graph) ∧
    get_node d' sample_g (sample_uuid Byte.x01) = Err SNotFound ∧
    (∀ lf, get_outgoing_edges d' sample_g (sample_uuid Byte.x01) lf = Ok []) ∧
    (∀ lf, get_incoming_edges d' sample_g (sample_uuid Byte.x01) lf = Ok []) ∧
    (∀ l, ∃ xs, scan_nodes_by_label d' sample_g l = Ok xs ∧ ∀ y, y ∈ xs → node_id y ≠ sample_uuid Byte.x01).
Proof.
  apply (delete_node_complete _ sample_graph _ _ (sample_node Byte.x01 ["Person"])); [exact sample_represents|].
  vm_compute. reflexivity.
Defined.
Lemma node_scans_exact_witness :
  ∃ xs ys es, scan_nodes sample_graph_db sample_g = Ok xs ∧
    scan_nodes_by_label sample_graph_db sample_g "Robot" = Ok ys ∧ scan_edges sample_graph_db sample_g = Ok es ∧
    (∀ x, x ∈ xs ↔ has_node sample_graph x ∧ node_graph_id x = sample_g) ∧
    StronglySorted (λ a b, bytes_lt (node_kf a) (node_kf b)) xs ∧
    (∀ y, y ∈ ys ↔ has_node sample_graph y ∧ node_graph_id y = sample_g ∧ "Robot"%string ∈ node_labels y) ∧ NoDup ys ∧
    (∀ e, e ∈ es ↔ has_edge sample_graph e ∧ edge_graph_id e = sample_g) ∧
    StronglySorted (λ a b, bytes_lt (edge_kf a) (edge_kf b)) es ∧
    scan_nodes_limit sample_graph_db sample_g 1 = Ok (take 1 xs) ∧
    scan_edges_limit sample_graph_db sample_g 1 = Ok (take 1 es).
Proof.
  apply node_scans_exact; [exact sample_represents| |].
  - apply (bool_decide_unpack _). vm_compute. reflexivity.
  - intros x l' [->| ->]%sample_nodes Hl; cbn in Hl; rewrite !elem_of_cons in Hl;
      destruct Hl as [->|Hl]; try destruct Hl as [->|Hl]; try (by apply not_elem_of_nil in Hl);
      apply (bool_decide_unpack _); vm_compute; reflexivity.
Defined.
Lemma adjacency_scans_exact_witness :
  ∃ out inc, get_outgoing_edges sample_graph_db sample_g (sample_uuid Byte.x01) (Some "KNOWS"%string) = Ok out ∧
    get_incoming_edges sample_graph_db sample_g (sample_uuid Byte.x01) (Some "KNOWS"%string) = Ok inc ∧
    NoDup out ∧ NoDup inc ∧
    (∀ e, e ∈ out ↔ has_edge sample_graph e ∧ edge_graph_id e = sample_g ∧ edge_source e = sample_uuid Byte.x01 ∧
       (∀ l, Some "KNOWS"%string = Some l → edge_label e = l)) ∧
    (∀ e, e ∈ inc ↔ has_edge sample_graph e ∧ edge_graph_id e = sample_g ∧ edge_target e = sample_uuid Byte.x01 ∧
       (∀ l, Some "KNOWS"%string = Some l → edge_label e = l)).
Proof.
  apply (adjacency_scans_exact _ sample_graph); [exact sample_represents| |].
  - intros l [= <-]. apply (bool_decide_unpack _). vm_compute. reflexivity.
  - intros e ->%sample_edges. apply (bool_decide_unpack _). vm_compute. reflexivity.
Defined.
