(* ===== verification/Index.v ===== *)
(** * Secondary property indexes (synaptica-storage/src/index.rs)

    The byte-comparable value encoding, the keys of the [PROP_INDEX] column family and the
    operations of [IndexManager]. [OrderedCode] is the interface between the encoding and the
    range scans: a family of values whose codes sort as the values do and never are prefixes of
    one another. [DefaultHasher] (an unspecified algorithm) is the section variable
    [hash_name]. *)
From S2P Require Import Prelude Types Rocks Encoding Engine.
Import Encoding ColumnFamilies.

Inductive IndexEntityType := IndexNode | IndexEdge.
#[export] Instance IndexEntityType_eq_dec : EqDecision IndexEntityType.
Proof. solve_decision. Defined.
Record IndexDefinition := mkIndexDefinition {
  idx_name : string;
  idx_graph_id : GraphId;
  idx_entity_type : IndexEntityType;
  idx_property_names : list string;
  idx_unique : bool
}.

Definition META_MARKER : byte := Byte.x00.
Definition ENTRY_MARKER : byte := Byte.x01.
Definition HASH_LEN : nat := 8.

(** ** IEEE-754 bit patterns, as far as [encode_value_comparable] looks at them *)
Definition two63 : Z := 2 ^ 63.
Definition f64_sign (bits : f64) : bool := Z.testbit bits 63.
Definition f64_magnitude (bits : f64) : Z := bits mod two63.
(** Exponent all ones and a non-zero fraction. *)
Definition f64_is_nan (bits : f64) : bool := 2047 * 2 ^ 52 <? f64_magnitude bits.
(** [*f >= 0.0] *)
Definition f64_ge_zero (bits : f64) : bool :=
  negb (f64_is_nan bits) && (negb (f64_sign bits) || (f64_magnitude bits =? 0)).

(** The two bytes of the escape, and the terminator. *)
Definition escape_byte (b : byte) : bytes := if decide (b = Byte.x00) then [Byte.x00; Byte.x01] else [b].
Definition escape_str (s : bytes) : bytes := concat (escape_byte <$> s) ++ [Byte.x00; Byte.x00].

Definition xor_byte (b : byte) (m : Z) : byte := byte_of_Z (Z.lxor (bval b) m).

Definition encode_value_comparable `{Bincode Value} (value : Value) : bytes :=
  match value with
  | Null => [Byte.x00]
  | Bool b => [Byte.x01; if b then Byte.x01 else Byte.x00]
  | Integer i =>
      Byte.x02 :: match be_bytes 8 (wrap64 i) with
                  | b0 :: rest => xor_byte b0 0x80 :: rest
                  | [] => []
                  end
  | Float f =>
      Byte.x03 :: be_bytes 8 (if f64_ge_zero f then Z.lxor f two63 else not64 f)
  | Str s => Byte.x04 :: escape_str (str_bytes s)
  | other =>
      Byte.xff :: match bincode_serialize other with
                  | Ok serialized => be_bytes 4 (Z.of_nat (length serialized)) ++ serialized
                  | Err _ => be_bytes 4 0
                  end
  end.

Section index.
Context `{RocksDB db, Bincode Value, Bincode IndexDefinition}.
(** The 64-bit digest of [DefaultHasher]. *)
Variable hash_name : string → Z.
Implicit Types d : db.

Definition hash_index_name (name : string) : bytes := be_bytes 8 (hash_name name).

(** ** Keys *)
Definition meta_key (graph_id : GraphId) (name : string) : bytes :=
  uuid_bytes graph_id ++ [META_MARKER] ++ str_bytes name.
Definition meta_prefix (graph_id : GraphId) : bytes := uuid_bytes graph_id ++ [META_MARKER].
Definition entry_prefix (def : IndexDefinition) : bytes :=
  uuid_bytes (idx_graph_id def) ++ [ENTRY_MARKER] ++ hash_index_name (idx_name def).
Definition entry_key (def : IndexDefinition) (encoded_vals : bytes) (entity_id : Uuid) : bytes :=
  uuid_bytes (idx_graph_id def) ++ [ENTRY_MARKER] ++ hash_index_name (idx_name def)
    ++ encoded_vals ++ uuid_bytes entity_id.
Definition entry_value_prefix (def : IndexDefinition) (encoded_vals : bytes) : bytes :=
  uuid_bytes (idx_graph_id def) ++ [ENTRY_MARKER] ++ hash_index_name (idx_name def) ++ encoded_vals.

Definition encode_values (values : list Value) : bytes := concat (encode_value_comparable <$> values).
Definition encode_properties (def : IndexDefinition) (node : Node) : bytes :=
  concat ((λ name, match node_get_property node name with
                   | Some v => encode_value_comparable v
                   | None => encode_value_comparable Null
                   end) <$> idx_property_names def).

(** ** Operations *)
Definition create_index d (def : IndexDefinition) : result StorageError db :=
  cf ← cf_open PROP_INDEX;
  value ← encode_value def;
  Ok (put_cf d cf (meta_key (idx_graph_id def) (idx_name def)) value).
Definition drop_index d (graph_id : GraphId) (name : string) : result StorageError db :=
  cf ← cf_open PROP_INDEX;
  let d1 := delete_cf d cf (meta_key graph_id name) in
  let temp := mkIndexDefinition name graph_id IndexNode [] false in
  let prefix := entry_prefix temp in
  Ok (write d1 ((λ kv, BatchDelete cf kv.1) <$> take_while (has_prefix prefix) (iterator_from d1 cf prefix))).
(** The uniqueness check reads the identifier at the end of each key under the prefix. *)
Definition check_other (node_id : NodeId) (kv : bytes * bytes) : result StorageError unit :=
  if decide (UUID_LEN ≤ length kv.1)%nat then
    id ← ok_or (SDeserialization "invalid entity id") (key_tail_id kv.1);
    if decide (id ≠ node_id) then Err SUniqueViolation else Ok tt
  else Ok tt.
Definition index_node d (def : IndexDefinition) (node : Node) : result StorageError db :=
  cf ← cf_open PROP_INDEX;
  let encoded := encode_properties def node in
  if idx_unique def then
    let vp := entry_value_prefix def encoded in
    _ ← for_while (has_prefix vp) (check_other (node_id node)) (iterator_from d cf vp);
    Ok (put_cf d cf (entry_key def encoded (node_id node)) [])
  else
    Ok (put_cf d cf (entry_key def encoded (node_id node)) []).
Definition unindex_node d (def : IndexDefinition) (node : Node) : result StorageError db :=
  cf ← cf_open PROP_INDEX;
  Ok (delete_cf d cf (entry_key def (encode_properties def node) (node_id node))).
Definition entry_id (kv : bytes * bytes) : result StorageError (option NodeId) :=
  if decide (UUID_LEN ≤ length kv.1)%nat then
    id ← ok_or (SDeserialization "invalid node id") (key_tail_id kv.1); Ok (Some id)
  else Ok None.
Definition lookup_values d (def : IndexDefinition) (values : list Value) : result StorageError (list NodeId) :=
  cf ← cf_open PROP_INDEX;
  let prefix := entry_value_prefix def (encode_values values) in
  out ← for_while (has_prefix prefix) entry_id (iterator_from d cf prefix);
  Ok (omap (λ x, x) (out : list (option NodeId))).
Definition range_scan d (def : IndexDefinition) (start_v end_v : Value) : result StorageError (list NodeId) :=
  cf ← cf_open PROP_INDEX;
  let idx_prefix := entry_prefix def in
  let start_key := idx_prefix ++ encode_values [start_v] in
  let end_key := idx_prefix ++ encode_values [end_v] in
  out ← for_while (λ kv, negb (negb (starts_with kv.1 idx_prefix) || negb (bytes_ltb kv.1 end_key)))
          entry_id (iterator_from d cf start_key);
  Ok (omap (λ x, x) (out : list (option NodeId))).
Definition list_indexes d (graph_id : GraphId) : result StorageError (list IndexDefinition) :=
  cf ← cf_open PROP_INDEX;
  let prefix := meta_prefix graph_id in
  for_while (has_prefix prefix) (λ kv, decode_value kv.2) (iterator_from d cf prefix).

(** engine.rs: the engine's own entry points build a manager and delegate to it. *)
Definition engine_create_index := create_index.
Definition engine_drop_index := drop_index.
Definition engine_list_indexes := list_indexes.
Definition engine_lookup_index := lookup_values.
Definition engine_range_scan_index := range_scan.
Definition engine_index_node := index_node.
Definition engine_unindex_node := unindex_node.
End index.

(** ** Codes that sort as their values do *)
Class OrderedCode {A : Type} (dom : A → Prop) (lt : relation A) (code : A → bytes) : Prop := {
  oc_total a b : dom a → dom b → lt a b ∨ a = b ∨ lt b a;
  oc_irrefl a : ¬ lt a a;
  oc_asymm a b : lt a b → ¬ lt b a;
  oc_mono a b x y : dom a → dom b → lt a b → bytes_lt (code a ++ x) (code b ++ y)
}.

Section ordered.
Context {A : Type} {dom : A → Prop} {lt : relation A} {code : A → bytes} `{OC : !OrderedCode dom lt code}.
Implicit Types a b : A.

Lemma oc_prefix_free a b x y : dom a → dom b → code a ++ x = code b ++ y → a = b ∧ x = y.
Proof.
  intros Ha Hb Heq. destruct (oc_total a b Ha Hb) as [Hlt|[->|Hlt]].
  - pose proof (oc_mono a b x y Ha Hb Hlt) as Hc. rewrite Heq in Hc. by apply bytes_lt_irrefl in Hc.
  - split; [done|]. by apply app_inv_head in Heq.
  - pose proof (oc_mono b a y x Hb Ha Hlt) as Hc. rewrite Heq in Hc. by apply bytes_lt_irrefl in Hc.
Qed.
(** The two tests of a range scan. *)
Lemma oc_below a b x : dom a → dom b → bytes_lt (code a ++ x) (code b) ↔ lt a b.
Proof.
  intros Ha Hb. split.
  - intros Hc. destruct (oc_total a b Ha Hb) as [?|[->|Hlt]]; [done|exfalso..].
    + revert Hc. apply bytes_le_not_lt, bytes_le_app.
    + apply (bytes_lt_asymm _ _ Hc). rewrite <- (app_nil_r (code b)). by apply oc_mono.
  - intros Hlt. rewrite <- (app_nil_r (code b)). by apply oc_mono.
Qed.
Lemma oc_from a b x : dom a → dom b → bytes_le (code b) (code a ++ x) ↔ ¬ lt a b.
Proof. intros Ha Hb. by rewrite bytes_le_not_lt, oc_below. Qed.
End ordered.

(** *** Integers: sign bit flipped, big-endian *)
Definition is_i64 (i : Z) : Prop := -two63 ≤ i < two63.
Definition int_code `{Bincode Value} (i : Z) : bytes := encode_value_comparable (Integer i).

Lemma bytes_lt_cons_same c a b : bytes_lt (c :: a) (c :: b) ↔ bytes_lt a b.
Proof. rewrite bytes_lt_cons. split; [intros [?|[_ ?]]; [lia|done]|auto]. Qed.
Lemma flip_sign_bit z : 0 ≤ z < 256 → Z.lxor z 128 = (z + 128) mod 256.
Proof.
  intros Hz.
  assert (∀ n, (n < 256)%nat → Z.lxor (Z.of_nat n) 128 = (Z.of_nat n + 128) mod 256) as Hall.
  { intros n Hn. apply Z.eqb_eq.
    assert (forallb (λ n, Z.lxor (Z.of_nat n) 128 =? (Z.of_nat n + 128) mod 256) (seq 0 256) = true) as Hf
      by (vm_compute; reflexivity).
    rewrite forallb_forall in Hf. apply Hf, list_elem_of_In, elem_of_seq. lia. }
  rewrite <- (Z2Nat.id z) by lia. apply Hall. lia.
Qed.
Lemma int_code_eq `{Bincode Value} i : is_i64 i → int_code i = Byte.x02 :: be_bytes 8 (i + two63).
Proof.
  intros Hi. unfold int_code. cbn [encode_value_comparable]. f_equal.
  assert (be_bytes 8 (wrap64 i) = byte_of_Z (Z.shiftr (wrap64 i) 56) :: be_bytes 7 (wrap64 i)) as -> by reflexivity.
  assert (be_bytes 8 (i + two63) = byte_of_Z (Z.shiftr (i + two63) 56) :: be_bytes 7 (i + two63)) as -> by reflexivity.
  rewrite !Z.shiftr_div_pow2 by lia. unfold is_i64, two63, wrap64, two64 in *. f_equal.
  - apply bval_inj. unfold xor_byte. rewrite !bval_byte_of_Z.
    rewrite flip_sign_bit by (apply Z.mod_pos_bound; lia).
    rewrite Z.mod_mod by lia.
    change (2 ^ 63) with (128 * 2 ^ 56). change (2 ^ 64) with (256 * 2 ^ 56).
    rewrite Z.div_add by lia.
    rewrite (Zplus_mod_idemp_l (_ / _)).
    rewrite (Z.mod_eq i (256 * 2 ^ 56)) by lia.
    replace (i - 256 * 2 ^ 56 * (i / (256 * 2 ^ 56))) with (i + (- (256 * (i / (256 * 2 ^ 56)))) * 2 ^ 56) by ring.
    rewrite Z.div_add by lia.
    replace (i / 2 ^ 56 + - (256 * (i / (256 * 2 ^ 56))) + 128)
      with (i / 2 ^ 56 + 128 + (- (i / (256 * 2 ^ 56))) * 256) by ring.
    by rewrite Z.mod_add by lia.
  - apply be_val_inj; [by rewrite !length_be_bytes|]. rewrite !be_val_be_bytes_mod.
    change (256 ^ Z.of_nat 7) with (2 ^ 56).
    change (2 ^ 64) with (256 * 2 ^ 56). change (2 ^ 63) with (128 * 2 ^ 56).
    rewrite Z.mod_add by lia. rewrite (Z.mul_comm 256), Z.rem_mul_r by lia.
    rewrite (Z.add_comm (i mod _)), (Z.mul_comm (2 ^ 56)), Z.add_comm, Z.mod_add by lia. by rewrite Z.mod_mod by lia.
Qed.
#[export] Instance int_ordered_code `{Bincode Value} : OrderedCode is_i64 Z.lt int_code.
Proof.
  split.
  - intros a b _ _. lia.
  - intros a. lia.
  - intros a b. lia.
  - intros a b x y Ha Hb Hlt. rewrite !int_code_eq by done. cbn [app].
    apply bytes_lt_cons_same, bytes_lt_app_r; [by rewrite !length_be_bytes|].
    apply bytes_lt_be_bytes; rewrite <- ?two64_256; unfold is_i64, two63, two64 in *; lia.
Qed.

(** *** Strings: escaped and terminated *)
Definition str_code `{Bincode Value} (s : string) : bytes := encode_value_comparable (Str s).
Lemma escape_str_cons b s : escape_str (b :: s) = escape_byte b ++ escape_str s.
Proof. unfold escape_str. cbn. by rewrite (assoc_L (++)). Qed.
Lemma escape_byte_lt b s y : bytes_lt ([Byte.x00; Byte.x00] ++ y) (escape_byte b ++ s).
Proof.
  unfold escape_byte. case_decide as Hb; cbn; rewrite bytes_lt_cons.
  - right. split; [done|]. rewrite bytes_lt_cons. left. change (bval Byte.x00) with 0. change (bval Byte.x01) with 1. lia.
  - left. change (bval Byte.x00) with 0. pose proof (bval_range b).
    assert (bval b ≠ 0); [|lia]. intros H0. apply Hb, bval_inj. done.
Qed.
Lemma escape_byte_mono a b x y :
  bval a < bval b → bytes_lt (escape_byte a ++ x) (escape_byte b ++ y).
Proof.
  intros Hlt. unfold escape_byte. case_decide as Ha; case_decide as Hb; subst; cbn; rewrite bytes_lt_cons; [lia| | |auto].
  - left. done.
  - pose proof (bval_range a). change (bval Byte.x00) with 0 in Hlt. lia.
Qed.
Lemma escape_str_mono a b x y :
  bytes_lt a b → bytes_lt (escape_str a ++ x) (escape_str b ++ y).
Proof.
  revert b. induction a as [|c a IH]; intros [|c' b]; [done| |done|].
  - intros _. rewrite escape_str_cons, <- (assoc_L (++)). apply (escape_byte_lt c' _ x).
  - rewrite bytes_lt_cons, !escape_str_cons, <- !(assoc_L (++)). intros [Hlt|[-> Hlt]].
    + by apply escape_byte_mono.
    + rewrite bytes_lt_app_l. by apply IH.
Qed.
#[export] Instance str_ordered_code `{Bincode Value} : OrderedCode (λ _, True) str_lt str_code.
Proof.
  split; unfold str_lt, str_ltb.
  - intros a b _ _. destruct (bytes_lt_total (str_bytes a) (str_bytes b)) as [?|[He|?]]; auto.
    right; left. by apply str_bytes_inj.
  - intros a. apply bytes_lt_irrefl.
  - intros a b. unfold not. apply bytes_lt_asymm.
  - intros a b x y _ _ Hlt. cbn. apply bytes_lt_cons_same. by apply escape_str_mono.
Qed.

(** *** Floats: the order of the numbers, for bit patterns other than NaNs and minus zero *)
Definition float_code `{Bincode Value} (f : f64) : bytes := encode_value_comparable (Float f).
(** The number's position on the line of doubles: sign and magnitude. *)
Definition f64_signed (bits : f64) : Z := if f64_sign bits then - f64_magnitude bits else f64_magnitude bits.
Definition f64_lt (a b : f64) : Prop := f64_signed a < f64_signed b.
Definition NEG_ZERO : f64 := two63.
Definition indexable_float (f : f64) : Prop := is_u64 f ∧ f64_is_nan f = false ∧ f ≠ NEG_ZERO.

Lemma f64_sign_spec f : is_u64 f → f64_sign f = (two63 <=? f).
Proof.
  intros Hf. unfold f64_sign, is_u64, two64, two63 in *.
  rewrite Z.testbit_eqb by lia.
  destruct (Z.leb_spec (2 ^ 63) f).
  - assert (f / 2 ^ 63 = 1) as ->; [|done]. symmetry. apply (Z.div_unique _ _ _ (f - 2 ^ 63)); lia.
  - rewrite Z.div_small by lia. done.
Qed.
Lemma add_sign m : 0 ≤ m < two63 → m + two63 = Z.lxor m two63.
Proof.
  intros Hm. rewrite Z.add_nocarry_lxor; [done|].
  apply Z.bits_inj'. intros n Hn. rewrite Z.land_spec, Z.bits_0. unfold two63 in *. rewrite Z.pow2_bits_eqb by lia.
  destruct (Z.eqb_spec 63 n) as [<-|Hne]; [|by rewrite andb_false_r].
  rewrite Z.testbit_eqb by lia. by rewrite Z.div_small by lia.
Qed.
Lemma lxor_sign f : is_u64 f → Z.lxor f two63 = if two63 <=? f then f - two63 else f + two63.
Proof.
  intros Hf. unfold is_u64, two64 in Hf. destruct (Z.leb_spec two63 f).
  - pose proof (add_sign (f - two63)) as Ha. rewrite Z.sub_add in Ha.
    rewrite Ha at 1 by (unfold two63 in *; lia). by rewrite Z.lxor_assoc, Z.lxor_nilpotent, Z.lxor_0_r.
  - symmetry. apply add_sign. lia.
Qed.
Definition float_key (f : f64) : Z := if f64_ge_zero f then Z.lxor f two63 else not64 f.
Lemma float_key_eq f :
  indexable_float f → float_key f = if two63 <=? f then two64 - 1 - f else f + two63.
Proof.
  intros (Hf & Hnan & Hz). unfold float_key, f64_ge_zero. rewrite Hnan, f64_sign_spec, lxor_sign by done.
  unfold f64_magnitude, NEG_ZERO, is_u64 in *. cbn [negb andb].
  destruct (Z.leb_spec two63 f) as [H|H]; cbn [negb orb]; [|done].
  assert (f mod two63 = f - two63) as ->.
  { symmetry. apply (Z.mod_unique _ _ 1); unfold two63, two64 in *; lia. }
  destruct (Z.eqb_spec (f - two63) 0); [lia|]. unfold not64, u64_max. done.
Qed.
Lemma f64_signed_eq f : is_u64 f → f64_signed f = if two63 <=? f then two63 - f else f.
Proof.
  intros Hf. unfold f64_signed, f64_magnitude. rewrite f64_sign_spec by done. unfold is_u64 in Hf.
  destruct (Z.leb_spec two63 f).
  - assert (f mod two63 = f - two63) as ->; [|lia].
    symmetry. apply (Z.mod_unique _ _ 1); unfold two63, two64 in *; lia.
  - apply Z.mod_small. unfold two63 in *. lia.
Qed.
#[export] Instance float_ordered_code `{Bincode Value} : OrderedCode indexable_float f64_lt float_code.
Proof.
  split; unfold f64_lt.
  - intros a b (Ha & _ & Haz) (Hb & _ & Hbz). rewrite !f64_signed_eq by done.
    unfold NEG_ZERO, is_u64 in *. repeat case_match; rewrite ?Z.leb_le, ?Z.leb_gt in *; lia.
  - intros a. lia.
  - intros a b. lia.
  - intros a b x y Ha Hb Hlt. unfold float_code. cbn [encode_value_comparable app].
    fold (float_key a) (float_key b).
    apply bytes_lt_cons_same, bytes_lt_app_r; [by rewrite !length_be_bytes|].
    rewrite !float_key_eq by done. destruct Ha as (Ha & _ & Haz), Hb as (Hb & _ & Hbz).
    rewrite !f64_signed_eq in Hlt by done. unfold NEG_ZERO, is_u64, two64, two63 in *.
    apply bytes_lt_be_bytes; rewrite <- ?two64_256; unfold two64;
      repeat case_match; rewrite ?Z.leb_le, ?Z.leb_gt in *; lia.
Qed.
#[export] Instance IndexDefinition_eq_dec : EqDecision IndexDefinition.
Proof. solve_decision. Defined.
#[export] Instance IndexDefinition_countable : Countable IndexDefinition :=
  inj_countable' (λ x, (idx_name x, idx_graph_id x : Uuid, bool_decide (idx_entity_type x = IndexNode),
                        idx_property_names x, idx_unique x))
    (λ y, mkIndexDefinition y.1.1.1.1 y.1.1.1.2 (if y.1.1.2 then IndexNode else IndexEdge) y.1.2 y.2)
    ltac:(by intros [? ? [] ? ?]).

(** ** Codes of arbitrary values are prefix-free *)
Section value_codes.
Context `{BincodeLaws Value}.
Definition value_ser (v : Value) : bytes := match bincode_serialize v with Ok b => b | Err _ => [] end.
(** The values an index tells apart: 64-bit integers, floats other than NaN and minus zero, and
    composites whose serialization fits a 32-bit length. *)
Definition indexable (v : Value) : Prop :=
  match v with
  | Null | Bool _ | Str _ => True
  | Integer i => is_i64 i
  | Float f => indexable_float f
  | other => (Z.of_nat (length (value_ser other)) < 2 ^ 32)%Z
  end.
Lemma encode_other v :
  match v with Null | Bool _ | Integer _ | Float _ | Str _ => False | _ => True end →
  encode_value_comparable v = Byte.xff :: be_bytes 4 (Z.of_nat (length (value_ser v))) ++ value_ser v.
Proof.
  intros Hv. destruct (bincode_roundtrip v) as (b & Hs & _).
  unfold value_ser. destruct v; try done; cbn [encode_value_comparable]; by rewrite Hs.
Qed.
Lemma value_ser_inj v w : value_ser v = value_ser w → v = w.
Proof.
  unfold value_ser. destruct (bincode_roundtrip v) as (b & -> & Hb).
  destruct (bincode_roundtrip w) as (c & -> & Hc). intros ->. congruence.
Qed.
(** The first byte of a code. *)
Definition value_tag (v : Value) : byte :=
  match v with
  | Null => Byte.x00 | Bool _ => Byte.x01 | Integer _ => Byte.x02 | Float _ => Byte.x03 | Str _ => Byte.x04
  | _ => Byte.xff
  end.
Lemma encode_tag v : ∃ r, encode_value_comparable v = value_tag v :: r.
Proof. destruct v; eexists; reflexivity. Qed.

Lemma encode_value_app_inj v w x y :
  indexable v → indexable w → encode_value_comparable v ++ x = encode_value_comparable w ++ y → v = w ∧ x = y.
Proof.
  intros Hv Hw Heq.
  assert (value_tag v = value_tag w) as Htag.
  { destruct (encode_tag v) as [r Hr], (encode_tag w) as [r' Hr']. rewrite Hr, Hr' in Heq. by injection Heq. }
  assert ((∃ (T : Type) (dom : T → Prop) (lt : relation T) (mk : T → Value) a b,
    OrderedCode dom lt (λ a, encode_value_comparable (mk a)) ∧ v = mk a ∧ w = mk b ∧ dom a ∧ dom b) ∨
    (∃ a b, v = Bool a ∧ w = Bool b) ∨ (v = Null ∧ w = Null) ∨
    (match v with Null | Bool _ | Integer _ | Float _ | Str _ => False | _ => True end ∧
     match w with Null | Bool _ | Integer _ | Float _ | Str _ => False | _ => True end)) as Hcases.
  { destruct v, w; try discriminate Htag; try (right; right; right; done).
    - right; right; left. done.
    - right; left. eauto.
    - left. eexists Z, is_i64, Z.lt, Integer, _, _. split; [exact int_ordered_code|done].
    - left. eexists f64, indexable_float, f64_lt, Float, _, _. split; [exact float_ordered_code|done].
    - left. eexists string, (λ _, True), str_lt, Str, _, _. split; [exact str_ordered_code|done]. }
  destruct Hcases as [(T & dom & lt & mk & a & b & OC & -> & -> & Ha & Hb)|[(a & b & -> & ->)|[[-> ->]|[Hov How]]]].
  - destruct (oc_prefix_free (OC := OC) a b x y Ha Hb Heq) as [-> ->]. done.
  - destruct a, b; cbn in Heq; by simplify_eq.
  - cbn in Heq. by simplify_eq.
  - rewrite !encode_other in Heq by done.
    rewrite <- !app_comm_cons in Heq. apply cons_eq_inj in Heq as [_ Heq].
    assert (∀ u, match u with Null | Bool _ | Integer _ | Float _ | Str _ => False | _ => True end →
      indexable u → 0 ≤ Z.of_nat (length (value_ser u)) < 256 ^ Z.of_nat 4) as Hsmall.
    { intros u Hu Hi. destruct u; try done; cbn in Hi; change (256 ^ Z.of_nat 4) with (2 ^ 32); lia. }
    rewrite <- !(assoc_L (++)) in Heq.
    apply app_inj_1 in Heq as [Hl Heq]; [|by rewrite !length_be_bytes].
    apply be_bytes_inj in Hl; [|by apply Hsmall..].
    apply app_inj_1 in Heq as [Hs ->]; [|lia]. split; [by apply value_ser_inj|done].
Qed.
Lemma encode_values_app_inj vs ws x y :
  Forall indexable vs → Forall indexable ws → length vs = length ws →
  encode_values vs ++ x = encode_values ws ++ y → vs = ws ∧ x = y.
Proof.
  intros Hvs. revert ws. induction Hvs as [|v vs Hv Hvs IH]; intros [|w ws] Hws Hlen; try done.
  intros Heq. unfold encode_values in *. cbn in Heq. rewrite <- !(assoc_L (++)) in Heq.
  apply Forall_cons in Hws as [Hw Hws].
  apply encode_value_app_inj in Heq as [-> Heq]; [|done..].
  apply IH in Heq as [-> ->]; [done..|]. by injection Hlen.
Qed.
End value_codes.

(** ** What an index holds *)
Section contents.
Context `{RocksDBLaws db, BincodeLaws Value, BincodeLaws IndexDefinition}.
Variable hash_name : string → Z.
Implicit Types (d : db) (def : IndexDefinition) (k v : bytes) (vs : list Value) (id : NodeId).

(** The index holds the entry (values, node). *)
Definition indexed d def vs id : Prop :=
  is_Some (get_cf d PROP_INDEX (entry_key hash_name def (encode_values vs) id)).
(** Every key in the range of the index is an entry with one value per indexed property. *)
Definition index_wf d def : Prop :=
  ∀ k v, get_cf d PROP_INDEX k = Some v → starts_with k (entry_prefix hash_name def) = true →
    ∃ vs id, Forall indexable vs ∧ length vs = length (idx_property_names def) ∧
      k = entry_key hash_name def (encode_values vs) id.
(** The values of a node under an index; a missing property counts as null. *)
Definition node_values def (node : Node) : list Value :=
  (λ name, default Null (node_get_property node name)) <$> idx_property_names def.

Lemma encode_properties_values def node : encode_properties def node = encode_values (node_values def node).
Proof.
  unfold encode_properties, encode_values, node_values. f_equal. rewrite <- list_fmap_compose.
  apply list_fmap_ext. intros i name _. cbn. by destruct (node_get_property node name).
Qed.
Lemma length_node_values def node : length (node_values def node) = length (idx_property_names def).
Proof. apply length_fmap. Qed.

Lemma entry_key_split def e id : entry_key hash_name def e id = entry_prefix hash_name def ++ e ++ uuid_bytes id.
Proof. unfold entry_key, entry_prefix. by rewrite <- !(assoc_L (++)). Qed.
Lemma entry_value_prefix_split def e : entry_value_prefix hash_name def e = entry_prefix hash_name def ++ e.
Proof. unfold entry_value_prefix, entry_prefix. by rewrite <- !(assoc_L (++)). Qed.
Lemma entry_key_prefix def e id : starts_with (entry_key hash_name def e id) (entry_prefix hash_name def) = true.
Proof. rewrite entry_key_split. apply starts_with_app. Qed.
Lemma entry_key_inj def vs ws id1 id2 :
  Forall indexable vs → Forall indexable ws → length vs = length ws →
  entry_key hash_name def (encode_values vs) id1 = entry_key hash_name def (encode_values ws) id2 →
  vs = ws ∧ id1 = id2.
Proof.
  rewrite !entry_key_split. intros Hv Hw Hl Heq%app_inv_head.
  apply encode_values_app_inj in Heq as [-> Heq]; [|done..]. split; [done|]. by apply uuid_bytes_inj.
Qed.
(** A value prefix selects the entries with those values. *)
Lemma entry_value_prefix_exact def vs ws id :
  Forall indexable vs → Forall indexable ws → length vs = length ws →
  starts_with (entry_key hash_name def (encode_values vs) id)
    (entry_value_prefix hash_name def (encode_values ws)) = true ↔ vs = ws.
Proof.
  intros Hv Hw Hl. rewrite starts_with_spec, entry_key_split, entry_value_prefix_split. split.
  - intros [r Heq]. rewrite <- (assoc_L (++)) in Heq. apply app_inv_head in Heq.
    by apply encode_values_app_inj in Heq as [-> _].
  - intros ->. exists (uuid_bytes id). by rewrite <- (assoc_L (++)).
Qed.
Lemma key_tail_entry def e id : key_tail_id (entry_key hash_name def e id) = Some id.
Proof. rewrite entry_key_split, (assoc_L (++)). apply key_tail_id_app. Qed.
Lemma entry_key_long def e id : (UUID_LEN ≤ length (entry_key hash_name def e id))%nat.
Proof. rewrite entry_key_split, !length_app, length_uuid_bytes. unfold UUID_LEN. lia. Qed.

(** An item under a value prefix of a well-formed index is one of its entries. *)
Lemma value_item d def ws k v :
  index_wf d def → Forall indexable ws → length ws = length (idx_property_names def) →
  (k, v) ∈ prefix_items d PROP_INDEX (entry_value_prefix hash_name def (encode_values ws)) →
  ∃ id, k = entry_key hash_name def (encode_values ws) id ∧ indexed d def ws id.
Proof.
  intros Hwf Hws Hlen [Hk Hp]%elem_of_prefix_items.
  destruct (Hwf k v Hk) as (vs & id & Hvs & Hl & ->).
  { apply starts_with_spec in Hp as [r ->]. rewrite entry_value_prefix_split, <- (assoc_L (++)). apply starts_with_app. }
  apply entry_value_prefix_exact in Hp as ->; [|done|done|congruence]. exists id. split; [done|]. by eexists.
Qed.

Lemma lookup_values_rep d def ws :
  index_wf d def → Forall indexable ws → length ws = length (idx_property_names def) →
  ∃ ids, lookup_values hash_name d def ws = Ok ids ∧ ∀ id, id ∈ ids ↔ indexed d def ws id.
Proof.
  intros Hwf Hws Hlen. unfold lookup_values. rewrite cf_open_all by in_cfs. cbn [mbind result_bind].
  destruct (scan_exact entry_id
    (λ o : option NodeId, match o with Some id => entry_key hash_name def (encode_values ws) id | None => [] end)
    (λ o : option NodeId, match o with Some id => indexed d def ws id | None => False end)
    d PROP_INDEX (entry_value_prefix hash_name def (encode_values ws))) as (l & -> & Hl & _).
  - intros k v Hin. destruct (value_item d def ws k v Hwf Hws Hlen Hin) as (id & -> & Hid).
    exists (Some id). unfold entry_id. cbn [fst]. rewrite decide_True by apply entry_key_long.
    by rewrite key_tail_entry.
  - intros [id|] Hid; [|done]. destruct Hid as [v Hv]. exists v. apply elem_of_prefix_items. split; [done|].
    by apply entry_value_prefix_exact.
  - intros [id1|] [id2|] ?? Hk; try done. by apply entry_key_inj in Hk as [_ ->].
  - cbn. eexists. split; [done|]. intros id. rewrite list_elem_of_omap. split.
    + intros ([id'|] & Ho & [= ->]). by apply (Hl (Some id)).
    + intros Hid. exists (Some id). split; [by apply (Hl (Some id))|done].
Qed.

(** ** Adding and removing entries *)
Lemma put_entry_indexed d def vs id ws id' :
  Forall indexable vs → Forall indexable ws → length vs = length ws →
  indexed (put_cf d PROP_INDEX (entry_key hash_name def (encode_values vs) id) []) def ws id' ↔
  indexed d def ws id' ∨ (ws = vs ∧ id' = id).
Proof.
  intros Hv Hw Hl. unfold indexed.
  destruct (decide (entry_key hash_name def (encode_values ws) id' = entry_key hash_name def (encode_values vs) id)) as [He|Hne].
  - pose proof He as Heq. apply entry_key_inj in Heq as [-> ->]; [|done..]. rewrite get_cf_put_eq.
    split; [by right|]. by eexists.
  - rewrite get_cf_put_ne by congruence. split; [by left|]. intros [?|[-> ->]]; done.
Qed.
Lemma put_entry_wf d def vs id :
  index_wf d def → Forall indexable vs → length vs = length (idx_property_names def) →
  index_wf (put_cf d PROP_INDEX (entry_key hash_name def (encode_values vs) id) []) def.
Proof.
  intros Hwf Hv Hl k v Hk Hp.
  destruct (decide (k = entry_key hash_name def (encode_values vs) id)) as [->|Hne]; [eauto|].
  rewrite get_cf_put_ne in Hk by congruence. eauto.
Qed.
Lemma delete_entry_indexed d def vs id ws id' :
  Forall indexable vs → Forall indexable ws → length vs = length ws →
  indexed (delete_cf d PROP_INDEX (entry_key hash_name def (encode_values vs) id)) def ws id' ↔
  indexed d def ws id' ∧ ¬ (ws = vs ∧ id' = id).
Proof.
  intros Hv Hw Hl. unfold indexed.
  destruct (decide (entry_key hash_name def (encode_values ws) id' = entry_key hash_name def (encode_values vs) id)) as [He|Hne].
  - pose proof He as Heq. apply entry_key_inj in Heq as [-> ->]; [|done..]. rewrite get_cf_delete_eq.
    split; [by intros []|]. intros [_ Hn]. by destruct Hn.
  - rewrite get_cf_delete_ne by congruence. split; [|tauto]. intros ?. split; [done|]. intros [-> ->]. done.
Qed.
Lemma delete_entry_wf d def k' : index_wf d def → index_wf (delete_cf d PROP_INDEX k') def.
Proof.
  intros Hwf k v Hk. destruct (decide (k = k')) as [->|Hne].
  - by rewrite get_cf_delete_eq in Hk.
  - rewrite get_cf_delete_ne in Hk by congruence. eauto.
Qed.

(** The uniqueness check passes exactly when no other node holds the values. *)
Lemma check_other_spec d def ws node_id :
  index_wf d def → Forall indexable ws → length ws = length (idx_property_names def) →
  let vp := entry_value_prefix hash_name def (encode_values ws) in
  match for_while (has_prefix vp) (check_other node_id) (iterator_from d PROP_INDEX vp) with
  | Ok _ => ∀ id, indexed d def ws id → id = node_id
  | Err e => e = SUniqueViolation ∧ ∃ id, id ≠ node_id ∧ indexed d def ws id
  end.
Proof.
  intros Hwf Hws Hlen vp.
  assert (∀ id v, check_other node_id (entry_key hash_name def (encode_values ws) id, v) =
    if decide (id ≠ node_id) then Err SUniqueViolation else Ok tt) as Hcheck.
  { intros id v. unfold check_other. cbn [fst]. rewrite decide_True by apply entry_key_long.
    rewrite key_tail_entry. cbn. reflexivity. }
  destruct (for_while _ _ _) as [l|e] eqn:Hfw.
  - intros id [v Hv]. apply for_while_ok in Hfw.
    assert ((entry_key hash_name def (encode_values ws) id, v) ∈ prefix_items d PROP_INDEX vp) as Hin.
    { apply elem_of_prefix_items. split; [done|]. by apply entry_value_prefix_exact. }
    apply list_elem_of_lookup in Hin as [i Hi].
    eapply Forall2_lookup_l in Hfw as (y & _ & Hy); [|exact Hi]. rewrite Hcheck in Hy.
    case_decide as Hne; [done|]. destruct (decide (id = node_id)); [done|]. by destruct Hne.
  - apply for_while_err in Hfw as ([k v] & Hin & He).
    destruct (value_item d def ws k v Hwf Hws Hlen Hin) as (id & -> & Hid). rewrite Hcheck in He.
    case_decide as Hne; [|done]. injection He as <-. eauto.
Qed.
Lemma index_node_rep d def node :
  index_wf d def → Forall indexable (node_values def node) →
  (idx_unique def = true ∧ (∃ id, id ≠ node_id node ∧ indexed d def (node_values def node) id) ∧
     index_node hash_name d def node = Err SUniqueViolation) ∨
  ((idx_unique def = true → ∀ id, indexed d def (node_values def node) id → id = node_id node) ∧
   index_node hash_name d def node =
     Ok (put_cf d PROP_INDEX (entry_key hash_name def (encode_values (node_values def node)) (node_id node)) [])).
Proof.
  intros Hwf Hv. unfold index_node. rewrite cf_open_all by in_cfs. cbn [mbind result_bind].
  rewrite encode_properties_values.
  pose proof (check_other_spec d def _ (node_id node) Hwf Hv (length_node_values def node)) as Hc. cbn zeta in Hc.
  destruct (idx_unique def); [|by right].
  destruct (for_while _ _ _) as [l|e]; cbn; [by right|].
  destruct Hc as [-> Hid]. left. auto.
Qed.

(** ** Range scans over one property *)
Lemma range_scan_rep {A} (dom : A → Prop) (lt : relation A) (mk : A → Value) (t : byte)
    `{OC : !OrderedCode dom lt (λ a, encode_value_comparable (mk a))} d def s e :
  (∀ a, value_tag (mk a) = t) → (∀ w : Value, indexable w → value_tag w = t → ∃ a, dom a ∧ w = mk a) →
  (∀ a, dom a → indexable (mk a)) →
  index_wf d def → length (idx_property_names def) = 1%nat → dom s → dom e →
  ∃ ids, range_scan hash_name d def (mk s) (mk e) = Ok ids ∧
    ∀ id, id ∈ ids ↔ ∃ a, dom a ∧ indexed d def [mk a] id ∧ ¬ lt a s ∧ lt a e.
Proof.
  intros Htag Hfam Hdom Hwf Hone Hs He. unfold range_scan. rewrite cf_open_all by in_cfs. cbn [mbind result_bind].
  assert (∀ w : Value, encode_values [w] = encode_value_comparable w) as Henc.
  { intros w. unfold encode_values. cbn. apply app_nil_r. }
  rewrite !Henc. set (p := entry_prefix hash_name def).
  set (cont := λ kv : bytes * bytes, negb (negb (starts_with kv.1 p) || negb (bytes_ltb kv.1 (p ++ encode_value_comparable (mk e))))).
  assert (∀ kv, cont kv = true ↔ starts_with kv.1 p = true ∧ bytes_lt kv.1 (p ++ encode_value_comparable (mk e))) as Hcont.
  { intros kv. unfold cont. by rewrite negb_orb, !negb_involutive, andb_true_iff. }
  assert (∀ k v, (k, v) ∈ take_while cont (iterator_from d PROP_INDEX (p ++ encode_value_comparable (mk s))) ↔
    get_cf d PROP_INDEX k = Some v ∧ bytes_le (p ++ encode_value_comparable (mk s)) k ∧ cont (k, v) = true) as Hitems.
  { intros k v. apply elem_of_take_while_iterator. intros a b Hle Hlt [Hpb Hb]%Hcont. apply Hcont. split.
    - eapply starts_with_convex; [|apply bytes_lt_le; exact Hlt|done].
      eapply bytes_le_trans; [apply bytes_le_app|exact Hle].
    - eapply bytes_lt_trans; [exact Hlt|done]. }
  (* an item of the scan is an entry of the family, inside the range *)
  assert (∀ k v, (k, v) ∈ take_while cont (iterator_from d PROP_INDEX (p ++ encode_value_comparable (mk s))) →
    ∃ a id, dom a ∧ k = entry_key hash_name def (encode_values [mk a]) id ∧ indexed d def [mk a] id ∧
      ¬ lt a s ∧ lt a e) as Hin.
  { intros k v (Hk & Hle & [Hp Hlt]%Hcont)%Hitems.
    destruct (Hwf k v Hk Hp) as (vs & id & Hvs & Hl & ->). rewrite Hone in Hl.
    destruct vs as [|w [|]]; try done. apply Forall_cons in Hvs as [Hw _].
    assert (indexed d def [w] id) as Hid by by eexists.
    cbn [fst] in Hlt. rewrite entry_key_split, Henc in Hle, Hlt. fold p in Hle, Hlt.
    apply bytes_le_app_l in Hle. apply bytes_lt_app_l in Hlt.
    assert (value_tag w = t) as Hwt.
    { destruct (encode_tag w) as [rw Hrw], (encode_tag (mk s)) as [rs Hrs], (encode_tag (mk e)) as [re Hre].
      rewrite Hrw, Hrs, Htag in Hle. rewrite Hrw, Hre, Htag in Hlt.
      cbn [app] in Hle, Hlt. apply bytes_le_not_lt in Hle. rewrite bytes_lt_cons in Hle, Hlt.
      apply bval_inj. destruct Hlt as [?|[-> _]]; [|done].
      destruct (Z.lt_trichotomy (bval (value_tag w)) (bval t)) as [?|[?|?]]; [tauto|done|lia]. }
    destruct (Hfam w Hw Hwt) as (a & Ha & ->). exists a, id. split_and!; [done..| |].
    - by apply (oc_from (OC := OC) a s _ Ha Hs) in Hle.
    - by apply (oc_below (OC := OC) a e _ Ha He) in Hlt. }
  assert (for_while cont entry_id (iterator_from d PROP_INDEX (p ++ encode_value_comparable (mk s))) =
    Ok ((λ kv, key_tail_id kv.1) <$> take_while cont (iterator_from d PROP_INDEX (p ++ encode_value_comparable (mk s))))) as ->.
  { apply for_while_total. intros [k v] (a & id & _ & -> & _)%Hin. unfold entry_id. cbn [fst].
    rewrite decide_True by apply entry_key_long. by rewrite key_tail_entry. }
  cbn. eexists. split; [done|]. intros id. rewrite list_elem_of_omap. split.
  - intros (o & ([k v] & -> & (a & id' & Ha & -> & Hid & Hge & Hlt)%Hin)%list_elem_of_fmap & Hx).
    cbn in Hx. rewrite key_tail_entry in Hx. injection Hx as ->. eauto.
  - intros (a & Ha & [v Hv] & Hge & Hlt). exists (Some id). split; [|done].
    apply list_elem_of_fmap. exists (entry_key hash_name def (encode_values [mk a]) id, v).
    cbn [fst]. rewrite key_tail_entry. split; [done|]. apply Hitems. rewrite Hcont. cbn [fst].
    split_and!; [done| |apply entry_key_prefix|]; rewrite entry_key_split, Henc; fold p.
    + apply bytes_le_app_l. by apply (oc_from (OC := OC)).
    + apply bytes_lt_app_l. by apply (oc_below (OC := OC)).
Qed.

(** ** Dropping an index *)
Lemma drop_index_rep d g name def :
  idx_graph_id def = g → idx_name def = name →
  ∃ d', drop_index hash_name d g name = Ok d' ∧
    get_cf d' PROP_INDEX (meta_key g name) = None ∧
    (∀ vs id, ¬ indexed d' def vs id) ∧
    (∀ k v, get_cf d' PROP_INDEX k = Some v → starts_with k (entry_prefix hash_name def) = false) ∧
    (∀ cf k, (cf = PROP_INDEX → k ≠ meta_key g name ∧ starts_with k (entry_prefix hash_name def) = false) →
       get_cf d' cf k = get_cf d cf k).
Proof.
  intros <- <-. unfold drop_index. rewrite cf_open_all by in_cfs. cbn [mbind result_bind].
  set (p := entry_prefix hash_name _). change p with (entry_prefix hash_name def).
  set (d1 := delete_cf d PROP_INDEX _). eexists. split; [done|].
  fold (prefix_items d1 PROP_INDEX (entry_prefix hash_name def)).
  assert (∀ cf k, get_cf (write d1 ((λ kv, BatchDelete PROP_INDEX kv.1) <$>
      prefix_items d1 PROP_INDEX (entry_prefix hash_name def))) cf k =
    if decide (cf = PROP_INDEX ∧ starts_with k (entry_prefix hash_name def) = true) then None else get_cf d1 cf k) as Hc.
  { intros cf k. apply get_cf_delete_prefix. }
  split_and!.
  - rewrite Hc. case_decide; [done|]. apply get_cf_delete_eq.
  - intros vs id [v Hv]. rewrite Hc, decide_True in Hv; [done|]. split; [done|apply entry_key_prefix].
  - intros k v Hk. rewrite Hc in Hk. case_decide as Hd; [done|]. apply not_true_iff_false. tauto.
  - intros cf k Hk. rewrite Hc. case_decide as Hd.
    + destruct Hd as [-> Hp]. destruct Hk as [_ Hk]; [done|]. congruence.
    + subst d1. apply get_cf_delete_ne. intros [= <- <-]. by destruct Hk.
Qed.
End contents.

(** ** Properties *)
Section properties.
Context `{RocksDBLaws db, BincodeLaws Value, BincodeLaws IndexDefinition}.
Variable hash_name : string → Z.
Implicit Types (d : db) (def : IndexDefinition) (node : Node).

(** No two nodes share values in the index. *)
Definition unique_index d def : Prop :=
  ∀ ws id1 id2, Forall indexable ws → length ws = length (idx_property_names def) →
    indexed hash_name d def ws id1 → indexed hash_name d def ws id2 → id1 = id2.

(** C26: indexing a node is a lookup update. On a well-formed index [index_node] keeps it
    well-formed and, for every tuple of values, the lookup afterwards returns what it returned
    before plus the node when the tuple is the node's own (missing properties as null);
    [unindex_node] takes exactly that entry away again. *)
Theorem index_node_lookup d def node :
  index_wf hash_name d def → Forall indexable (node_values def node) →
  (idx_unique def = true → ∀ id, indexed hash_name d def (node_values def node) id → id = node_id node) →
  ∃ d' d'', index_node hash_name d def node = Ok d' ∧ unindex_node hash_name d' def node = Ok d'' ∧
    index_wf hash_name d' def ∧ index_wf hash_name d'' def ∧
    ∀ ws, Forall indexable ws → length ws = length (idx_property_names def) →
      ∃ ids ids' ids'', lookup_values hash_name d def ws = Ok ids ∧
        lookup_values hash_name d' def ws = Ok ids' ∧ lookup_values hash_name d'' def ws = Ok ids'' ∧
        (∀ id, id ∈ ids' ↔ id ∈ ids ∨ (ws = node_values def node ∧ id = node_id node)) ∧
        (∀ id, id ∈ ids'' ↔ id ∈ ids ∧ ¬ (ws = node_values def node ∧ id = node_id node)).
Proof.
  intros Hwf Hv Huniq.
  destruct (index_node_rep hash_name d def node Hwf Hv) as [(Hu & (id & Hne & Hid) & _)|[_ ->]].
  { destruct Hne. by apply Huniq. }
  pose proof (length_node_values def node) as Hlen.
  eexists _, _. split; [done|]. unfold unindex_node. rewrite cf_open_all by in_cfs. cbn [mbind result_bind].
  rewrite encode_properties_values. split; [done|].
  assert (index_wf hash_name (put_cf d PROP_INDEX (entry_key hash_name def (encode_values (node_values def node)) (node_id node)) []) def) as Hwf'.
  { by apply put_entry_wf. }
  assert (index_wf hash_name (delete_cf (put_cf d PROP_INDEX (entry_key hash_name def (encode_values (node_values def node)) (node_id node)) [])
    PROP_INDEX (entry_key hash_name def (encode_values (node_values def node)) (node_id node))) def) as Hwf''.
  { by apply delete_entry_wf. }
  split_and!; [done..|]. intros ws Hws Hl.
  destruct (lookup_values_rep hash_name d def ws Hwf Hws Hl) as (ids & -> & Hids).
  destruct (lookup_values_rep hash_name _ def ws Hwf' Hws Hl) as (ids' & -> & Hids').
  destruct (lookup_values_rep hash_name _ def ws Hwf'' Hws Hl) as (ids'' & -> & Hids'').
  exists ids, ids', ids''. split_and!; [done..| |]; intros id.
  - rewrite Hids', Hids. apply put_entry_indexed; [done..|congruence].
  - rewrite Hids'', Hids, delete_entry_indexed, put_entry_indexed by (done || congruence). tauto.
Qed.

(** a unique index stays unique. [index_node] fails with a uniqueness violation exactly when
    another node already holds the node's values, leaving the store as it was; when it succeeds,
    no two nodes share a tuple of values. *)
Theorem index_node_unique d def node :
  index_wf hash_name d def → unique_index d def → idx_unique def = true →
  Forall indexable (node_values def node) →
  (index_node hash_name d def node = Err SUniqueViolation ↔
     ∃ id, id ≠ node_id node ∧ indexed hash_name d def (node_values def node) id) ∧
  (∀ d', index_node hash_name d def node = Ok d' → index_wf hash_name d' def ∧ unique_index d' def) ∧
  (∀ e, index_node hash_name d def node = Err e → e = SUniqueViolation).
Proof.
  intros Hwf Hun Hu Hv. pose proof (length_node_values def node) as Hlen.
  destruct (index_node_rep hash_name d def node Hwf Hv) as [(_ & Hex & ->)|[Honly ->]].
  { split_and!; [done|done|by intros e [= <-]]. }
  specialize (Honly Hu). split_and!; [|intros d' [= <-]; split|done].
  - split; [done|]. intros (id & Hne & Hid). destruct Hne. by apply Honly.
  - by apply put_entry_wf.
  - intros ws id1 id2 Hws Hl.
    rewrite !put_entry_indexed by (done || congruence).
    intros [H1'|[-> ->]] [H2'|[E ->]]; [by eapply Hun|subst; by apply Honly|symmetry; by apply Honly|done].
Qed.

(** range scans on a single-property index select [start <= value < end]: over integers in
    numeric order, strings in byte order, and floats other than NaN and minus zero in the order
    of the numbers; entries of other types are never reported. *)
Theorem range_scan_exact d def :
  index_wf hash_name d def → length (idx_property_names def) = 1%nat →
  (∀ s e, is_i64 s → is_i64 e → ∃ ids, range_scan hash_name d def (Integer s) (Integer e) = Ok ids ∧
     ∀ id, id ∈ ids ↔ ∃ i, is_i64 i ∧ indexed hash_name d def [Integer i] id ∧ s ≤ i < e) ∧
  (∀ s e, ∃ ids, range_scan hash_name d def (Str s) (Str e) = Ok ids ∧
     ∀ id, id ∈ ids ↔ ∃ x, indexed hash_name d def [Str x] id ∧ str_ltb x s = false ∧ str_ltb x e = true) ∧
  (∀ s e, indexable_float s → indexable_float e →
     ∃ ids, range_scan hash_name d def (Float s) (Float e) = Ok ids ∧
     ∀ id, id ∈ ids ↔ ∃ f, indexable_float f ∧ indexed hash_name d def [Float f] id ∧
       f64_signed s ≤ f64_signed f < f64_signed e).
Proof.
  intros Hwf Hone. split_and!.
  - intros s e Hs He.
    destruct (range_scan_rep hash_name is_i64 Z.lt Integer Byte.x02 (OC := int_ordered_code) d def s e) as (ids & Hr & Hin);
      [done| |done|done..|].
    { intros w Hw Ht. destruct w; try discriminate Ht. eauto. }
    exists ids. split; [done|]. intros id. rewrite Hin.
    split; intros (i & ? & ? & ?); exists i; split_and!; (done || lia).
  - intros s e.
    destruct (range_scan_rep hash_name (λ _, True) str_lt Str Byte.x04 (OC := str_ordered_code) d def s e) as (ids & Hr & Hin);
      [done| |done|done..|].
    { intros w Hw Ht. destruct w; try discriminate Ht. eauto. }
    exists ids. split; [done|]. intros id. rewrite Hin. unfold str_lt.
    setoid_rewrite not_true_iff_false. naive_solver.
  - intros s e Hs He.
    destruct (range_scan_rep hash_name indexable_float f64_lt Float Byte.x03 (OC := float_ordered_code) d def s e) as (ids & Hr & Hin);
      [done| |done|done..|].
    { intros w Hw Ht. destruct w; try discriminate Ht. eauto. }
    exists ids. split; [done|]. intros id. rewrite Hin. unfold f64_lt.
    split; intros (i & ? & ? & ?); exists i; split_and!; (done || lia).
Qed.

(** dropping an index removes its metadata and every entry of it, and touches nothing
    else: not the entries of an index under another name digest or graph, nor other column
    families. *)
Theorem drop_index_complete d def :
  ∃ d', drop_index hash_name d (idx_graph_id def) (idx_name def) = Ok d' ∧
    (∀ vs id, ¬ indexed hash_name d' def vs id) ∧
    (∀ k v, get_cf d' PROP_INDEX k = Some v → starts_with k (entry_prefix hash_name def) = false) ∧
    get_cf d' PROP_INDEX (meta_key (idx_graph_id def) (idx_name def)) = None ∧
    (∀ cf k, (cf = PROP_INDEX → k ≠ meta_key (idx_graph_id def) (idx_name def) ∧
                starts_with k (entry_prefix hash_name def) = false) →
       get_cf d' cf k = get_cf d cf k).
Proof.
  destruct (drop_index_rep hash_name d _ _ def eq_refl eq_refl) as (d' & Hd & Hm & Hno & Hall & Hrest).
  exists d'. auto.
Qed.

(** minus zero is misplaced. Although it equals zero as a number, its code is below the code
    of every other indexable float, minus infinity included, so a range scan that starts at a
    negative number starts above its entry. *)
Theorem negative_zero_misplaced def id s :
  indexable_float s → f64_signed s < 0 →
  f64_signed NEG_ZERO = 0 ∧
  (∀ f, indexable_float f → bytes_lt (float_code NEG_ZERO) (float_code f)) ∧
  bytes_lt (entry_key hash_name def (encode_values [Float NEG_ZERO]) id)
           (entry_prefix hash_name def ++ encode_values [Float s]).
Proof.
  intros Hs Hlt.
  assert (∀ f x, indexable_float f → bytes_lt (float_code NEG_ZERO ++ x) (float_code f)) as Hlow.
  { intros f x Hf. rewrite <- (app_nil_r (float_code f)). unfold float_code. cbn [encode_value_comparable app].
    fold (float_key f). apply bytes_lt_cons_same, bytes_lt_app_r; [by rewrite !length_be_bytes|].
    pose proof (float_key_eq f Hf) as Hk. destruct Hf as (Hu & Hnan & Hz).
    assert (0 < float_key f < two64) as Hpos.
    { rewrite Hk. unfold f64_is_nan, f64_magnitude, is_u64, two64, two63 in *.
      destruct (Z.leb_spec (2 ^ 63) f); [|lia].
      assert (f mod 2 ^ 63 = f - 2 ^ 63) as Hm by (symmetry; apply (Z.mod_unique _ _ 1); lia).
      rewrite Hm in Hnan. apply Z.ltb_ge in Hnan. lia. }
    apply bytes_lt_be_bytes; rewrite <- ?two64_256; [vm_compute; split; [discriminate|reflexivity]|lia|].
    change (if f64_ge_zero NEG_ZERO then Z.lxor NEG_ZERO two63 else not64 NEG_ZERO) with 0. lia. }
  split_and!.
  - vm_compute. reflexivity.
  - intros f Hf. rewrite <- (app_nil_r (float_code NEG_ZERO)). by apply Hlow.
  - rewrite entry_key_split. apply bytes_lt_app_l. unfold encode_values. cbn [fmap list_fmap concat].
    rewrite !app_nil_r. by apply Hlow.
Qed.
End properties.

(** ** Witnesses *)
#[local] Existing Instance countable_bincode.
#[local] Existing Instance countable_bincode_laws.
Definition sample_hash (name : string) : Z := Z.of_nat (String.length name).
Definition sample_def (unique : bool) : IndexDefinition :=
  mkIndexDefinition "by_age" sample_g IndexNode ["age"%string] unique.
Definition node_of_age (b : byte) (age : Value) : Node := mkNode (sample_uuid b) sample_g [] [("age"%string, age)].
Lemma empty_index_wf def : index_wf sample_hash empty_db def.
Proof. intros k v Hk. by rewrite empty_db_empty in Hk. Qed.
Lemma empty_index_unique def : unique_index sample_hash empty_db def.
Proof. intros ws id1 id2 _ _ [v Hv]. by rewrite empty_db_empty in Hv. Qed.
Lemma age_indexable b i unique :
  is_i64 i → Forall indexable (node_values (sample_def unique) (node_of_age b (Integer i))).
Proof. intros Hi. repeat constructor. apply Hi. apply Hi. Qed.

Lemma index_node_lookup_witness :
  ∃ d' d'', index_node sample_hash empty_db (sample_def true) (node_of_age Byte.x01 (Integer 30)) = Ok d' ∧
    unindex_node sample_hash d' (sample_def true) (node_of_age Byte.x01 (Integer 30)) = Ok d'' ∧
    index_wf sample_hash d' (sample_def true) ∧ index_wf sample_hash d'' (sample_def true).
Proof.
  destruct (index_node_lookup sample_hash empty_db (sample_def true) (node_of_age Byte.x01 (Integer 30)))
    as (d' & d'' & H1 & H2 & H3 & H4 & _).
  - apply empty_index_wf.
  - apply age_indexable. unfold is_i64, two63. lia.
  - intros _ id [v Hv]. by rewrite empty_db_empty in Hv.
  - exists d', d''. auto.
Defined.
(** The second node with age 30 is refused. *)
Definition one_entry_db : MemDB :=
  match index_node sample_hash empty_db (sample_def true) (node_of_age Byte.x01 (Integer 30)) with
  | Ok d => d | Err _ => empty_db
  end.
Lemma one_entry_wf : index_wf sample_hash one_entry_db (sample_def true) ∧ unique_index sample_hash one_entry_db (sample_def true).
Proof.
  unfold one_entry_db.
  assert (Forall indexable (node_values (sample_def true) (node_of_age Byte.x01 (Integer 30)))) as Hv
    by (apply age_indexable; unfold is_i64, two63; lia).
  destruct (index_node_rep sample_hash empty_db (sample_def true) (node_of_age Byte.x01 (Integer 30)) (empty_index_wf _) Hv)
    as [(_ & (id & _ & v & Hid) & _)|[_ ->]]; [by rewrite empty_db_empty in Hid|]. split.
  - apply put_entry_wf; [apply empty_index_wf|done|apply length_node_values].
  - intros ws id1 id2 Hws Hl. rewrite !put_entry_indexed by (done || (rewrite length_node_values; done)).
    intros [[v Hx]|[_ ->]] [[w Hy]|[_ ->]]; rewrite ?empty_db_empty in *; done.
Qed.
Lemma index_node_unique_witness :
  index_node sample_hash one_entry_db (sample_def true) (node_of_age Byte.x02 (Integer 30)) = Err SUniqueViolation.
Proof.
  apply (index_node_unique sample_hash one_entry_db (sample_def true) (node_of_age Byte.x02 (Integer 30)));
    [apply one_entry_wf|apply one_entry_wf|reflexivity| |].
  - apply age_indexable. unfold is_i64, two63. lia.
  - exists (sample_uuid Byte.x01). split; [discriminate|]. exists []. vm_compute. reflexivity.
Defined.
Lemma range_scan_exact_witness :
  ∃ ids, range_scan sample_hash one_entry_db (sample_def true) (Integer (-5)) (Integer 31) = Ok ids ∧
    ∀ id, id ∈ ids ↔ ∃ i, is_i64 i ∧ indexed sample_hash one_entry_db (sample_def true) [Integer i] id ∧ -5 ≤ i < 31.
Proof.
  pose proof (range_scan_exact sample_hash one_entry_db (sample_def true) (proj1 one_entry_wf) eq_refl) as [Hi _].
  apply Hi; unfold is_i64, two63; lia.
Defined.
(** Minus one as a double. *)
Lemma negative_zero_misplaced_witness :
  f64_signed NEG_ZERO = 0 ∧ (∀ f, indexable_float f → bytes_lt (float_code NEG_ZERO) (float_code f)) ∧
  bytes_lt (entry_key sample_hash (sample_def false) (encode_values [Float NEG_ZERO]) (sample_uuid Byte.x01))
           (entry_prefix sample_hash (sample_def false) ++ encode_values [Float 0xBFF0000000000000]).
Proof.
  apply negative_zero_misplaced; [|vm_compute; reflexivity].
  unfold indexable_float, is_u64, two64. split_and!; [lia|lia|vm_compute; reflexivity|discriminate].
Defined.
Lemma drop_index_complete_witness :
  ∃ d', drop_index sample_hash one_entry_db sample_g "by_age" = Ok d' ∧
    (∀ vs id, ¬ indexed sample_hash d' (sample_def true) vs id).
Proof.
  destruct (drop_index_complete sample_hash one_entry_db (sample_def true)) as (d' & Hd & Hno & _).
  exists d'. split; [exact Hd|exact Hno].
Defined.
