(* ===== verification/Tx.v ===== *)
(** * Transactions (synaptica-tx: transaction.rs, mvcc.rs, conflict.rs)

    Optimistic multi-version transactions over the multi-version store. A transaction buffers
    its writes; [commit] checks them against the keys committed since its snapshot, takes a
    timestamp and writes all of them at that timestamp in one batch. The state of the
    transaction manager is [TM]; [commit] is the composition of the three steps between which
    another thread's [begin] can run, since [begin] does not take the lock: check and take a
    timestamp, write the batch, record the keys. *)
From S2P Require Import Prelude Rocks Mvcc.

Inductive TxError : Type :=
| TxMvcc (e : MvccError) | WriteConflict | NotActive | AlreadyCommitted | AlreadyRolledBack | TxSerialization.
Inductive TxState : Type := Active | Committed | RolledBack.
#[export] Instance TxState_eq_dec : EqDecision TxState.
Proof. solve_decision. Defined.

(** A buffered write: column family, key, value ([None] deletes). *)
Abbreviation BufferedWrite := (string * bytes * option bytes)%type.
Record Transaction := mkTransaction {
  tx_id : Z;
  snapshot_ts : Z;
  tx_state : TxState;
  write_set : list BufferedWrite
}.
Definition Transaction_new (id snapshot : Z) : Transaction := mkTransaction id snapshot Active [].

(** The manager: the database, the oracle's counter, the keys written by each commit, and the
    watermark last passed to [gc_committed_writes]. *)
Record TM (db : Type) := mkTM {
  tm_db : db;
  tm_counter : Z;
  committed_writes : gmap Z (list (string * bytes));
  gc_watermark : Z
}.
Arguments mkTM {db}.
Arguments tm_db {db}.
Arguments tm_counter {db}.
Arguments committed_writes {db}.
Arguments gc_watermark {db}.
Record Snapshot := mkSnapshot { snap_ts : Z }.

Definition GC_THRESHOLD : Z := 10000.
(** [a.saturating_sub(b)] on u64 *)
Definition saturating_sub (a b : Z) : Z := Z.max 0 (a - b).

(** conflict.rs *)
Definition check_write_write_conflicts (tx_write_keys committed_keys : list (string * bytes)) : bool :=
  existsb (λ k, bool_decide (k ∈ tx_write_keys)) committed_keys.

Section ops.
Context `{RocksDB db}.
Implicit Types (tm : TM db) (tx : Transaction).

Definition TM_new (d : db) (counter : Z) : TM db := mkTM d counter ∅ 0.

(** ** transaction.rs *)
Fixpoint find_write (cf : string) (key : bytes) (ws : list BufferedWrite) : option (option bytes) :=
  match ws with
  | [] => None
  | w :: ws' => if decide (w.1 = (cf, key)) then Some w.2 else find_write cf key ws'
  end.
Definition tx_get (d : db) tx (cf : string) (key : bytes) : result TxError (option bytes) :=
  if decide (tx_state tx ≠ Active) then Err NotActive
  else match find_write cf key (reverse (write_set tx)) with
       | Some v => Ok v
       | None => map_err TxMvcc (get_at d cf key (snapshot_ts tx))
       end.
Definition push_write tx (w : BufferedWrite) : Transaction :=
  mkTransaction (tx_id tx) (snapshot_ts tx) (tx_state tx) (write_set tx ++ [w]).
Definition tx_put tx (cf : string) (key value : bytes) : result TxError Transaction :=
  if decide (tx_state tx ≠ Active) then Err NotActive else Ok (push_write tx (cf, key, Some value)).
Definition tx_delete tx (cf : string) (key : bytes) : result TxError Transaction :=
  if decide (tx_state tx ≠ Active) then Err NotActive else Ok (push_write tx (cf, key, None)).
Definition set_state tx (s : TxState) : Transaction :=
  mkTransaction (tx_id tx) (snapshot_ts tx) s (write_set tx).

(** ** mvcc.rs *)
Definition begin tm : TM db * Transaction :=
  let '(id, counter) := oracle_next (tm_counter tm) in
  (mkTM (tm_db tm) counter (committed_writes tm) (gc_watermark tm), Transaction_new id (wrap64 (id - 1))).

(** Did a commit after the snapshot write one of these keys? *)
Definition conflicts (snapshot : Z) (keys : list (string * bytes)) (cw : gmap Z (list (string * bytes))) : bool :=
  bool_decide (Exists (λ e, snapshot < e.1 ∧ Exists (.∈ keys) e.2) (map_to_list cw)).
(** Steps of [commit]: the check and the timestamp, ... *)
Definition commit_prepare tm tx : result TxError (TM db * Z) :=
  if decide (tx_state tx ≠ Active) then Err AlreadyCommitted
  else
    let write_keys := fst <$> write_set tx in
    if decide (write_keys ≠ []) then
      if conflicts (snapshot_ts tx) write_keys (committed_writes tm) then Err WriteConflict
      else let '(ts, counter) := oracle_next (tm_counter tm) in
           Ok (mkTM (tm_db tm) counter (committed_writes tm) (gc_watermark tm), ts)
    else let '(ts, counter) := oracle_next (tm_counter tm) in
         Ok (mkTM (tm_db tm) counter (committed_writes tm) (gc_watermark tm), ts).
(** ... the batch, ... *)
Definition commit_apply tm tx (commit_ts : Z) : result TxError (TM db) :=
  match batch_write_at (tm_db tm) (write_set tx) commit_ts with
  | Err e => Err (TxMvcc e)
  | Ok d => Ok (mkTM d (tm_counter tm) (committed_writes tm) (gc_watermark tm))
  end.
(** ... and the record of the keys, with the pruning and the periodic save of the counter. *)
Definition auto_gc (commit_ts : Z) (cw : gmap Z (list (string * bytes))) : gmap Z (list (string * bytes)) :=
  if GC_THRESHOLD <? Z.of_nat (size cw) then
    filter (λ e, saturating_sub commit_ts GC_THRESHOLD < e.1) cw
  else cw.
Definition commit_record tm tx (commit_ts : Z) : TM db :=
  let cw := auto_gc commit_ts (<[commit_ts := fst <$> write_set tx]> (committed_writes tm)) in
  let d := if commit_ts mod 100 =? 0 then oracle_persist_to_db (tm_counter tm) (tm_db tm) else tm_db tm in
  mkTM d (tm_counter tm) cw (gc_watermark tm).
(** A failing step leaves the transaction active and keeps the earlier steps' effects. *)
Definition commit tm tx : TM db * Transaction * result TxError Z :=
  match commit_prepare tm tx with
  | Err e => (tm, tx, Err e)
  | Ok (tm1, commit_ts) =>
      match commit_apply tm1 tx commit_ts with
      | Err e => (tm1, tx, Err e)
      | Ok tm2 => (commit_record tm2 tx commit_ts, set_state tx Committed, Ok commit_ts)
      end
  end.
Definition rollback tx : result TxError Transaction :=
  if decide (tx_state tx ≠ Active) then Err NotActive else Ok (set_state tx RolledBack).
Definition gc_committed_writes tm (watermark : Z) : TM db :=
  mkTM (tm_db tm) (tm_counter tm) (filter (λ e, watermark < e.1) (committed_writes tm)) watermark.
Definition take_snapshot tm : Snapshot := mkSnapshot (oracle_current (tm_counter tm)).
Definition snapshot_get (d : db) (s : Snapshot) (cf : string) (key : bytes) : result TxError (option bytes) :=
  map_err TxMvcc (get_at d cf key (snap_ts s)).
Definition snapshot_prefix_scan (d : db) (s : Snapshot) (cf : string) (prefix : bytes)
    : result TxError (list (bytes * bytes)) :=
  map_err TxMvcc (prefix_scan_at d cf prefix (snap_ts s)).
End ops.

(** ** A manager with its transactions, and the operations clients call *)
(** Each call runs to its end before the next; the calls of [Isolation.v] overlap. *)
Inductive tx_op : Type :=
| OpBegin
| OpPut (id : Z) (cf : string) (key value : bytes)
| OpDelete (id : Z) (cf : string) (key : bytes)
| OpCommit (id : Z)
| OpRollback (id : Z)
| OpGc (watermark : Z).

Record Sys (db : Type) := mkSys { sys_tm : TM db; sys_txs : gmap Z Transaction }.
Arguments mkSys {db}.
Arguments sys_tm {db}.
Arguments sys_txs {db}.

Section system.
Context `{RocksDB db}.
Definition sys_set (s : Sys db) (id : Z) (r : result TxError Transaction) : Sys db :=
  match r with Ok tx => mkSys (sys_tm s) (<[id := tx]> (sys_txs s)) | Err _ => s end.
Definition sys_step (s : Sys db) (op : tx_op) : Sys db :=
  match op with
  | OpBegin =>
      let '(tm, tx) := begin (sys_tm s) in mkSys tm (<[tx_id tx := tx]> (sys_txs s))
  | OpPut id cf key value =>
      match sys_txs s !! id with Some tx => sys_set s id (tx_put tx cf key value) | None => s end
  | OpDelete id cf key =>
      match sys_txs s !! id with Some tx => sys_set s id (tx_delete tx cf key) | None => s end
  | OpCommit id =>
      match sys_txs s !! id with
      | Some tx => let '(tm, tx', _) := commit (sys_tm s) tx in mkSys tm (<[id := tx']> (sys_txs s))
      | None => s
      end
  | OpRollback id =>
      match sys_txs s !! id with Some tx => sys_set s id (rollback tx) | None => s end
  | OpGc w => mkSys (gc_committed_writes (sys_tm s) w) (sys_txs s)
  end.
Definition sys_run (s : Sys db) (ops : list tx_op) : Sys db := foldl sys_step s ops.
End system.

(** ** The invariant of the manager *)
Section invariant.
Context `{RocksDBLaws db}.
Implicit Types (tm : TM db) (tx : Transaction) (cf : string) (key v : bytes).

(** The one cell that is not a version although its column family holds versions. *)
Definition user_key cf key : Prop := ¬ (cf = ColumnFamilies.DEFAULT ∧ key = extract_key_prefix TS_ORACLE_KEY).
(** Every version is older than the counter; the record of commits is truthful, and complete for
    the versions above the floor [f]. *)
Record tm_inv (f : Z) tm : Prop := {
  inv_floor : 0 ≤ f;
  inv_counter : 1 ≤ tm_counter tm;
  inv_versions cf key ts :
    user_key cf key → is_u64 ts → version (tm_db tm) cf key ts ≠ None → ts < tm_counter tm;
  inv_committed ts keys : committed_writes tm !! ts = Some keys → 0 ≤ ts < tm_counter tm;
  inv_truthful ts keys cf key :
    committed_writes tm !! ts = Some keys → (cf, key) ∈ keys → user_key cf key → version (tm_db tm) cf key ts ≠ None;
  inv_complete cf key ts :
    user_key cf key → is_u64 ts → f < ts → version (tm_db tm) cf key ts ≠ None →
    ∃ keys, committed_writes tm !! ts = Some keys ∧ (cf, key) ∈ keys
}.

Lemma tm_inv_mono f f' tm : f ≤ f' → tm_inv f tm → tm_inv f' tm.
Proof.
  intros Hf Hi. pose proof (inv_floor _ _ Hi). split; try apply Hi; [lia|].
  intros. eapply (inv_complete _ _ Hi); [done..|lia|done].
Qed.

Lemma tm_inv_new (d : db) : (∀ cf k, get_cf d cf k = None) → tm_inv 0 (TM_new d oracle_new).
Proof.
  intros He. assert (∀ cf key ts, version d cf key ts = None) as Hv by (intros; apply He).
  split; cbn; [done|done| | | |].
  - intros cf key ts _ _ Hn. by rewrite Hv in Hn.
  - intros ts keys Hl. by rewrite lookup_empty in Hl.
  - intros ts keys cf key Hl. by rewrite lookup_empty in Hl.
  - intros cf key ts _ _ _ Hn. by rewrite Hv in Hn.
Qed.

Lemma version_persist c (d : db) cf key ts :
  user_key cf key → version (oracle_persist_to_db c d) cf key ts = version d cf key ts.
Proof.
  intros Hu. unfold version, oracle_persist_to_db. apply get_cf_put_ne. intros [= Hcf Hk].
  apply Hu. split; [done|]. rewrite Hk. by rewrite extract_encode.
Qed.
Lemma wrap64_small z : 0 ≤ z < two64 → wrap64 z = z.
Proof. apply Z.mod_small. Qed.

Lemma conflicts_spec snapshot keys cw :
  conflicts snapshot keys cw = true ↔
  ∃ ts ks k, cw !! ts = Some ks ∧ snapshot < ts ∧ k ∈ ks ∧ k ∈ keys.
Proof.
  unfold conflicts. rewrite bool_decide_eq_true, Exists_exists. split.
  - intros ([ts ks] & Hin%elem_of_map_to_list & Hlt & (k & ? & ?)%Exists_exists). eauto 8.
  - intros (ts & ks & k & Hl & Hlt & ? & ?). exists (ts, ks). rewrite elem_of_map_to_list.
    split_and!; [done..|]. apply Exists_exists. eauto.
Qed.

(** ** What each step of a commit does *)
Lemma begin_inv f tm : tm_inv f tm → tm_counter tm < u64_max → tm_inv f (begin tm).1.
Proof.
  intros Hi Hc. pose proof (inv_counter _ _ Hi). unfold u64_max in Hc.
  assert (wrap64 (tm_counter tm + 1) = tm_counter tm + 1) as Hw by (apply wrap64_small; lia).
  split; cbn; rewrite ?Hw; [apply Hi|lia| | |apply Hi|apply Hi].
  - intros cf key ts Hu Ht Hv. pose proof (inv_versions _ _ Hi cf key ts Hu Ht Hv). lia.
  - intros ts keys Hl. pose proof (inv_committed _ _ Hi ts keys Hl). lia.
Qed.
Lemma gc_inv f tm w : tm_inv f tm → tm_inv (Z.max f w) (gc_committed_writes tm w).
Proof.
  intros Hi. pose proof (inv_floor _ _ Hi). split; cbn; [lia|apply Hi|apply Hi| | |].
  - intros ts keys [Hl _]%map_lookup_filter_Some. by eapply inv_committed.
  - intros ts keys cf key [Hl _]%map_lookup_filter_Some. by eapply inv_truthful.
  - intros cf key ts Hu Ht Hf Hv. destruct (inv_complete _ _ Hi cf key ts) as (keys & Hl & Hk); [done..|lia|done|].
    exists keys. split; [|done]. apply map_lookup_filter_Some. split; [done|]. cbn. lia.
Qed.

(** The first two steps, when they succeed: the timestamp is the counter. *)
Lemma commit_prepare_ok tm tx tm1 ts :
  commit_prepare tm tx = Ok (tm1, ts) →
  tx_state tx = Active ∧ ts = tm_counter tm ∧
  conflicts (snapshot_ts tx) (fst <$> write_set tx) (committed_writes tm) = false ∧
  tm1 = (begin tm).1.
Proof.
  unfold commit_prepare. case_decide as Hs; [done|].
  case_decide as Hk.
  - destruct (conflicts _ _ _) eqn:Hc; [done|]. by intros [= <- <-].
  - intros [= <- <-]. split_and!; try done. rewrite Hk.
    apply not_true_iff_false. rewrite conflicts_spec. intros (? & ? & k & _ & _ & _ & Hin).
    by apply not_elem_of_nil in Hin.
Qed.
Lemma commit_prepare_err tm tx e :
  tx_state tx = Active → commit_prepare tm tx = Err e →
  e = WriteConflict ∧ conflicts (snapshot_ts tx) (fst <$> write_set tx) (committed_writes tm) = true.
Proof.
  intros Hs. unfold commit_prepare. rewrite decide_False by tauto.
  case_decide; [|done]. destruct (conflicts _ _ _); [|done]. by intros [= <-].
Qed.
Lemma commit_apply_err tm tx ts e :
  commit_apply tm tx ts = Err e → e = TxMvcc Internal ∧ ∃ cf key (w : option bytes), (cf, key, w) ∈ write_set tx ∧ cf ∉ ColumnFamilies.all.
Proof.
  unfold commit_apply, batch_write_at. destruct (versioned_batch (write_set tx) ts) as [b|e'] eqn:Hb; [done|].
  intros [= <-]. induction (write_set tx) as [|[[cf key] w] ws IH]; cbn in Hb; [done|].
  destruct (cf_handle cf) as [cf'|] eqn:Hcf.
  - destruct (versioned_batch ws ts); [done|]. destruct IH as [-> (cf2 & key2 & w2 & ? & ?)]; [done|].
    split; [done|]. exists cf2, key2, w2. split; [by right|done].
  - injection Hb as <-. split; [done|]. exists cf, key, w. split; [left|].
    intros Hin. by rewrite cf_handle_open in Hcf.
Qed.

(** The database after the record step holds the same versions of user keys. *)
Lemma commit_record_version tm tx ts cf key ts' :
  user_key cf key → version (tm_db (commit_record tm tx ts)) cf key ts' = version (tm_db tm) cf key ts'.
Proof. intros Hu. cbn. destruct (ts mod 100 =? 0); [by apply version_persist|done]. Qed.

Lemma auto_gc_lookup ts cw t keys : auto_gc ts cw !! t = Some keys → cw !! t = Some keys.
Proof. unfold auto_gc. destruct (GC_THRESHOLD <? _); [|done]. by intros [? _]%map_lookup_filter_Some. Qed.
Lemma auto_gc_keeps ts cw t keys :
  cw !! t = Some keys → Z.max 0 (ts - GC_THRESHOLD) < t → auto_gc ts cw !! t = Some keys.
Proof. unfold auto_gc. destruct (GC_THRESHOLD <? _); [|done]. intros. by apply map_lookup_filter_Some. Qed.

Lemma commit_ok f tm tx tm' tx' ts :
  tm_inv f tm → tm_counter tm < u64_max → commit tm tx = (tm', tx', Ok ts) →
  tx_state tx = Active ∧ tx' = set_state tx Committed ∧ ts = tm_counter tm ∧ tm_counter tm' = ts + 1 ∧
  conflicts (snapshot_ts tx) (fst <$> write_set tx) (committed_writes tm) = false ∧
  (∀ cf key ts', user_key cf key → is_u64 ts' → version (tm_db tm') cf key ts' =
     match last_write cf key (write_set tx) with
     | Some w => if decide (ts' = ts) then Some (default TOMBSTONE w) else version (tm_db tm) cf key ts'
     | None => version (tm_db tm) cf key ts'
     end) ∧
  (∃ cw, committed_writes tm' = auto_gc ts cw ∧ cw = <[ts := fst <$> write_set tx]> (committed_writes tm)).
Proof.
  intros Hi Hc. pose proof (inv_counter _ _ Hi) as H0'. unfold commit.
  destruct (commit_prepare tm tx) as [[tm1 ts1]|e] eqn:Hp; [|done].
  apply commit_prepare_ok in Hp as (Hs & -> & Hnc & ->).
  unfold commit_apply. destruct (batch_write_at _ _ _) as [d|e] eqn:Hb; [|done].
  intros [= <- <- <-]. unfold u64_max in Hc. cbn in Hb.
  assert (wrap64 (tm_counter tm + 1) = tm_counter tm + 1) as Hw by (apply wrap64_small; lia).
  split_and!; try done; [|eauto]. intros cf key ts' Hu Hu'.
  rewrite commit_record_version by done. cbn.
  apply (batch_write_at_version _ (write_set tx) (tm_counter tm)); [done| |done]. unfold is_u64. lia.
Qed.

Lemma commit_inv f tm tx :
  tm_inv f tm → tm_counter tm < u64_max →
  let tm' := (commit tm tx).1.1 in
  tm_inv (Z.max f (tm_counter tm' - 1 - GC_THRESHOLD)) tm' ∧ tm_counter tm ≤ tm_counter tm' ≤ tm_counter tm + 1.
Proof.
  intros Hi Hc. pose proof (inv_counter _ _ Hi) as H0'. unfold u64_max in Hc.
  assert (wrap64 (tm_counter tm + 1) = tm_counter tm + 1) as Hw by (apply wrap64_small; lia).
  destruct (commit tm tx) as [[tm' tx'] [ts|e]] eqn:Hcm; cbn.
  - destruct (commit_ok f tm tx tm' tx' ts) as (_ & _ & -> & Hcount & _ & Hver & cw & Hcw & ->); [done..|].
    pose proof (inv_floor _ _ Hi) as Hfl. split; [|lia]. split.
    + lia.
    + lia.
    + intros cf key ts Hu Ht Hv. rewrite Hver in Hv by done.
      destruct (last_write cf key (write_set tx)); [case_decide; [lia|]|];
        pose proof (inv_versions _ _ Hi cf key ts Hu Ht Hv); lia.
    + intros ts keys Hl. rewrite Hcw in Hl. apply auto_gc_lookup in Hl.
      apply lookup_insert_Some in Hl as [[<- _]|[_ Hl]]; [lia|].
      pose proof (inv_committed _ _ Hi ts keys Hl). lia.
    + intros ts keys cf key Hl Hk Hu. rewrite Hcw in Hl. apply auto_gc_lookup in Hl.
      apply lookup_insert_Some in Hl as [[<- <-]|[Hne Hl]].
      * rewrite Hver by (done || unfold is_u64; lia).
        assert (last_write cf key (write_set tx) ≠ None) as Hlw.
        { apply last_write_elem. apply list_elem_of_fmap in Hk as ([[? ?] w] & [= -> ->] & Hw'). eauto. }
        destruct (last_write _ _ _); [|done]. by rewrite decide_True.
      * pose proof (inv_committed _ _ Hi ts keys Hl) as Hts.
        rewrite Hver by (done || unfold is_u64; lia).
        destruct (last_write _ _ _); [rewrite decide_False by lia|]; by eapply inv_truthful.
    + intros cf key ts Hu Ht Hf Hv. rewrite Hver in Hv by done. rewrite Hcw.
      assert (∀ keys, <[tm_counter tm := fst <$> write_set tx]> (committed_writes tm) !! ts = Some keys →
        0 < ts → auto_gc (tm_counter tm) (<[tm_counter tm := fst <$> write_set tx]> (committed_writes tm)) !! ts = Some keys) as Hkeep.
      { intros keys Hl Hpos. apply auto_gc_keeps; [done|]. lia. }
      destruct (last_write cf key (write_set tx)) as [w|] eqn:Hlw; [case_decide as Heq|].
      * subst ts. exists (fst <$> write_set tx). split; [apply Hkeep; [apply lookup_insert_eq|lia]|].
        assert (last_write cf key (write_set tx) ≠ None) as (w' & Hw')%last_write_elem by congruence.
        by apply (list_elem_of_fmap_2 fst) in Hw'.
      * destruct (inv_complete _ _ Hi cf key ts) as (keys & Hl & Hk); [done..|lia|done|].
        exists keys. split; [|done]. apply Hkeep; [by rewrite lookup_insert_ne|lia].
      * pose proof (inv_versions _ _ Hi cf key ts Hu Ht Hv).
        destruct (inv_complete _ _ Hi cf key ts) as (keys & Hl & Hk); [done..|lia|done|].
        exists keys. split; [|done]. apply Hkeep; [by rewrite lookup_insert_ne by lia|lia].
  - unfold commit in Hcm. destruct (commit_prepare tm tx) as [[tm1 ts1]|e1] eqn:Hp.
    + apply commit_prepare_ok in Hp as (_ & -> & _ & ->).
      destruct (commit_apply _ _ _); [done|]. injection Hcm as <- _ _. split.
      * eapply tm_inv_mono; [|by apply begin_inv; [exact Hi|unfold u64_max]]. lia.
      * cbn. rewrite Hw. lia.
    + injection Hcm as <- _ _. split; [|lia]. eapply tm_inv_mono; [|exact Hi]. lia.
Qed.

(** ** The invariant of a running system *)
Record sys_inv (f : Z) (s : Sys db) : Prop := {
  sys_tm_inv : tm_inv f (sys_tm s);
  sys_snapshots id tx : sys_txs s !! id = Some tx → 0 ≤ snapshot_ts tx < tm_counter (sys_tm s)
}.
(** Two states hold the same versions below a timestamp. *)
Definition same_below (c : Z) (s s' : Sys db) : Prop :=
  ∀ cf key ts, user_key cf key → is_u64 ts → ts < c →
    version (tm_db (sys_tm s')) cf key ts = version (tm_db (sys_tm s)) cf key ts.
(** The watermark an operation passes to the collector of commit records. *)
Definition op_floor (op : tx_op) : Z := match op with OpGc w => w | _ => 0 end.

Lemma sys_inv_new (d : db) : (∀ cf k, get_cf d cf k = None) → sys_inv 0 (mkSys (TM_new d oracle_new) ∅).
Proof. intros He. split; [by apply tm_inv_new|]. intros id tx Hl. cbn in Hl. by rewrite lookup_empty in Hl. Qed.

Lemma sys_set_inv f s id r :
  sys_inv f s → (∀ tx, r = Ok tx → 0 ≤ snapshot_ts tx < tm_counter (sys_tm s)) → sys_inv f (sys_set s id r).
Proof.
  intros Hi Hr. destruct r as [tx|]; [|done]. split; [apply Hi|].
  cbn. intros id' tx' [[_ <-]|[_ Hl]]%lookup_insert_Some; [by apply Hr|by eapply sys_snapshots].
Qed.
Lemma sys_set_tm (s : Sys db) id r : sys_tm (sys_set s id r) = sys_tm s.
Proof. by destruct r. Qed.

Lemma commit_same f tm tx :
  tm_inv f tm → tm_counter tm < u64_max →
  ∀ cf key ts, user_key cf key → is_u64 ts → ts < tm_counter tm →
    version (tm_db (commit tm tx).1.1) cf key ts = version (tm_db tm) cf key ts.
Proof.
  intros Hi Hc cf key ts Hu Ht Hlt.
  destruct (commit tm tx) as [[tm' tx'] [ts'|e]] eqn:Hcm; cbn.
  - destruct (commit_ok f tm tx tm' tx' ts') as (_ & _ & -> & _ & _ & Hver & _); [done..|].
    rewrite Hver by done. destruct (last_write _ _ _); [|done]. by rewrite decide_False by lia.
  - unfold commit in Hcm. destruct (commit_prepare tm tx) as [[tm1 ts1]|e1] eqn:Hp.
    + apply commit_prepare_ok in Hp as (_ & -> & _ & ->).
      destruct (commit_apply _ _ _); [done|]. by injection Hcm as <- _ _.
    + by injection Hcm as <- _ _.
Qed.

Lemma sys_step_inv g (s : Sys db) op :
  let c := tm_counter (sys_tm s) in
  sys_inv (Z.max g (c - 1 - GC_THRESHOLD)) s → c < u64_max → op_floor op ≤ g →
  let s' := sys_step s op in
  sys_inv (Z.max g (tm_counter (sys_tm s') - 1 - GC_THRESHOLD)) s' ∧
  c ≤ tm_counter (sys_tm s') ≤ c + 1 ∧ same_below c s s'.
Proof.
  intros c Hi Hc Hg. pose proof (sys_tm_inv _ _ Hi) as Htm. pose proof (inv_counter _ _ Htm) as Hc1.
  assert (sys_inv (Z.max g (c - 1 - GC_THRESHOLD)) s ∧ c ≤ c ≤ c + 1 ∧ same_below c s s) as Hsame
    by (split_and!; [done|lia|lia|done]).
  assert (∀ id r, (∀ tx, r = Ok tx → 0 ≤ snapshot_ts tx < c) →
    let s' := sys_set s id r in
    sys_inv (Z.max g (tm_counter (sys_tm s') - 1 - GC_THRESHOLD)) s' ∧ c ≤ tm_counter (sys_tm s') ≤ c + 1 ∧ same_below c s s') as Hset.
  { intros id r Hr s'. subst s'. unfold same_below. rewrite !sys_set_tm. fold c.
    split; [by apply sys_set_inv|]. split; [lia|done]. }
  destruct op as [|id cf key v|id cf key|id|id|w]; cbn [sys_step].
  - pose proof (begin_inv _ _ Htm Hc) as Hb. unfold u64_max in Hc.
    assert (wrap64 (c + 1) = c + 1) as Hw by (apply wrap64_small; lia).
    cbn in *. fold c in Hb |- *. rewrite Hw in *. split_and!; [|lia|lia|done]. split; cbn.
    + eapply tm_inv_mono; [|exact Hb]. lia.
    + intros id tx [[_ <-]|[_ Hl]]%lookup_insert_Some; cbn.
      * rewrite wrap64_small by lia. lia.
      * pose proof (sys_snapshots _ _ Hi id tx Hl). lia.
  - destruct (sys_txs s !! id) as [tx|] eqn:Hl; [|exact Hsame]. apply Hset.
    intros tx'. unfold tx_put. case_decide; [done|]. intros [= <-]. exact (sys_snapshots _ _ Hi id tx Hl).
  - destruct (sys_txs s !! id) as [tx|] eqn:Hl; [|exact Hsame]. apply Hset.
    intros tx'. unfold tx_delete. case_decide; [done|]. intros [= <-]. exact (sys_snapshots _ _ Hi id tx Hl).
  - destruct (sys_txs s !! id) as [tx|] eqn:Hl; [|exact Hsame].
    destruct (commit_inv _ _ tx Htm Hc) as [Hci Hcc]. pose proof (commit_same _ _ tx Htm Hc) as Hcs.
    assert (snapshot_ts (commit (sys_tm s) tx).1.2 = snapshot_ts tx) as Hsn.
    { unfold commit. destruct (commit_prepare _ _) as [[? ?]|]; [|done]. by destruct (commit_apply _ _ _). }
    destruct (commit (sys_tm s) tx) as [[tm' tx'] r]. cbn in *. fold c in Hcc, Hcs.
    split_and!; [|lia|lia|exact Hcs]. split; cbn.
    + eapply tm_inv_mono; [|exact Hci]. lia.
    + intros id' tx2 [[_ <-]|[_ Hl']]%lookup_insert_Some.
      * rewrite Hsn. pose proof (sys_snapshots _ _ Hi id tx Hl). lia.
      * pose proof (sys_snapshots _ _ Hi id' tx2 Hl'). lia.
  - destruct (sys_txs s !! id) as [tx|] eqn:Hl; [|exact Hsame]. apply Hset.
    intros tx'. unfold rollback. case_decide; [done|]. intros [= <-]. exact (sys_snapshots _ _ Hi id tx Hl).
  - cbn in *. split_and!; [|lia|lia|done]. split; cbn; [|apply Hi].
    eapply tm_inv_mono; [|by apply gc_inv]. lia.
Qed.

Lemma sys_run_inv g ops (s : Sys db) :
  let c := tm_counter (sys_tm s) in
  sys_inv (Z.max g (c - 1 - GC_THRESHOLD)) s → c + Z.of_nat (length ops) ≤ u64_max →
  Forall (λ op, op_floor op ≤ g) ops →
  let s' := sys_run s ops in
  sys_inv (Z.max g (tm_counter (sys_tm s') - 1 - GC_THRESHOLD)) s' ∧
  c ≤ tm_counter (sys_tm s') ≤ c + Z.of_nat (length ops) ∧ same_below c s s'.
Proof.
  revert s. induction ops as [|op ops IH]; intros s c Hi Hc Hall; [|change (sys_run s (op :: ops)) with (sys_run (sys_step s op) ops)].
  { cbn. split_and!; [done|lia|lia|done]. }
  apply Forall_cons in Hall as [Hop Hall]. rewrite length_cons in Hc.
  destruct (sys_step_inv g s op) as (Hi1 & Hc1 & Hs1); [done|subst c; lia|done|]. fold c in Hc1, Hs1.
  destruct (IH (sys_step s op)) as (Hi2 & Hc2 & Hs2); [done|lia|done|].
  rewrite length_cons. split_and!; [done|lia|lia|]. intros cf key ts Hu Ht Hlt. rewrite Hs2; [|done|done|lia]. by apply Hs1.
Qed.

(** Reads at a snapshot depend only on the versions up to it. *)
Lemma visible_below (d d' : db) cf key snap r :
  (∀ ts, is_u64 ts → ts ≤ snap → version d' cf key ts = version d cf key ts) →
  visible d cf key snap r ↔ visible d' cf key snap r.
Proof.
  intros Hv. unfold visible, newest. split; intros [(ts & v & (Hu & Hle & Hts & Hn) & Hr)|[Hn Hr]].
  - left. exists ts, v. split_and!; [done..|by rewrite Hv|intros; rewrite Hv by (done || lia); auto|done].
  - right. split; [|done]. intros. rewrite Hv by done. auto.
  - left. exists ts, v. split_and!; [done..|by rewrite <- Hv|intros; rewrite <- Hv by (done || lia); auto|done].
  - right. split; [|done]. intros. rewrite <- Hv by done. auto.
Qed.

(** A buffered read finds the last write of the key. *)
Lemma find_write_last cf key ws : find_write cf key (reverse ws) = last_write cf key ws.
Proof.
  unfold last_write. induction ws as [|w ws IH] using rev_ind; [done|].
  rewrite reverse_snoc, foldl_app. cbn. case_decide; [done|exact IH].
Qed.
End invariant.

(** ** Properties *)
Section properties.
Context `{RocksDBLaws db}.
Implicit Types (tm : TM db) (tx : Transaction) (cf : string) (key : bytes).

(** reading your own writes. An active transaction reads the last value it buffered for the
    key (absence after a buffered delete) and otherwise what its snapshot sees; buffering a write
    changes nothing but that. *)
Theorem read_your_own_writes (d : db) tx cf key r :
  tx_state tx = Active → cf ∈ ColumnFamilies.all → isolated d cf key →
  (tx_get d tx cf key = Ok r ↔
     match last_write cf key (write_set tx) with Some v => r = v | None => visible d cf key (snapshot_ts tx) r end) ∧
  (∀ value, ∃ tx', tx_put tx cf key value = Ok tx' ∧ tx_get d tx' cf key = Ok (Some value) ∧
     ∀ cf' key', (cf', key') ≠ (cf, key) → tx_get d tx' cf' key' = tx_get d tx cf' key') ∧
  (∃ tx', tx_delete tx cf key = Ok tx' ∧ tx_get d tx' cf key = Ok None).
Proof.
  intros Hs Hcf Hiso.
  assert (∀ w cf' key', tx_get d (push_write tx w) cf' key' =
    if decide (w.1 = (cf', key')) then Ok w.2 else tx_get d tx cf' key') as Hpush.
  { intros w cf' key'. unfold tx_get. cbn [push_write write_set tx_state snapshot_ts]. rewrite !(decide_False (P := tx_state tx ≠ Active)) by tauto.
    rewrite reverse_snoc. cbn [find_write]. by case_decide. }
  split_and!.
  - unfold tx_get. rewrite decide_False by tauto. rewrite find_write_last.
    destruct (last_write cf key (write_set tx)); [naive_solver|].
    rewrite <- (get_at_iff d cf key) by done. destruct (get_at _ _ _ _); cbn; naive_solver.
  - intros value. unfold tx_put. rewrite decide_False by tauto. eexists. split; [done|]. rewrite Hpush, decide_True by done.
    split; [done|]. intros cf' key' Hne. rewrite Hpush, decide_False by (cbn; congruence). done.
  - unfold tx_delete. rewrite decide_False by tauto. eexists. split; [done|]. by rewrite Hpush, decide_True.
Qed.

(** a transaction that is no longer active refuses everything and changes nothing: reads,
    writes and rollback report that it is not active, and commit that it is already committed,
    even when it was rolled back. *)
Theorem inactive_refuses tm tx cf key value :
  tx_state tx ≠ Active →
  tx_get (tm_db tm) tx cf key = Err NotActive ∧ tx_put tx cf key value = Err NotActive ∧
  tx_delete tx cf key = Err NotActive ∧ rollback tx = Err NotActive ∧
  commit tm tx = (tm, tx, Err AlreadyCommitted).
Proof.
  intros Hs. unfold tx_get, tx_put, tx_delete, rollback, commit, commit_prepare.
  by rewrite !decide_True by done.
Qed.

(** C2: commits are atomic and ordered. A successful commit takes the counter as its timestamp,
    which no stored version has reached; every snapshot at or above it sees exactly the
    transaction's last write of each key it wrote and its old view of the others, every older
    snapshot sees what it saw before. *)
Theorem commit_atomic f tm tx tm' tx' ts :
  tm_inv f tm → tm_counter tm < u64_max → commit tm tx = (tm', tx', Ok ts) →
  tx_state tx = Active ∧ tx_state tx' = Committed ∧ ts = tm_counter tm ∧ tm_counter tm' = ts + 1 ∧
  ∀ cf key snap r, user_key cf key → visible (tm_db tm) cf key snap r →
    visible (tm_db tm') cf key snap
      match last_write cf key (write_set tx) with
      | Some v => if decide (ts ≤ snap) then match v with Some (b :: w) => Some (b :: w) | _ => None end else r
      | None => r
      end.
Proof.
  intros Hi Hc Hcm. pose proof (inv_counter _ _ Hi). unfold u64_max in Hc.
  destruct (commit_ok f tm tx tm' tx' ts) as (Hs & -> & -> & Hcount & _ & Hver & _); [done..|].
  split_and!; [done..|]. intros cf key snap r Hu Hvis.
  apply (visible_after_write (tm_db tm) _ cf key (tm_counter tm)); [unfold is_u64; lia| | |done].
  - intros ts' Hu'. by apply Hver.
  - intros ts' Hu' Hle. destruct (decide (version (tm_db tm) cf key ts' = None)) as [|Hn]; [done|].
    pose proof (inv_versions _ _ Hi cf key ts' Hu Hu' Hn). lia.
Qed.

(** snapshot isolation of reads, when the calls run one after the other. In a system started on an
    empty database, whatever any transactions do between (begin, write, commit, roll back, collect
    records), the view of a transaction's snapshot never changes. (Calls that overlap are in
    [Isolation.v].) *)
Theorem snapshot_reads_sequential (d : db) ops1 ops2 id tx cf key r :
  (∀ cf k, get_cf d cf k = None) →
  Z.of_nat (length ops1 + length ops2) < u64_max - 1 →
  sys_txs (sys_run (mkSys (TM_new d oracle_new) ∅) ops1) !! id = Some tx → user_key cf key →
  visible (tm_db (sys_tm (sys_run (mkSys (TM_new d oracle_new) ∅) ops1))) cf key (snapshot_ts tx) r ↔
  visible (tm_db (sys_tm (sys_run (mkSys (TM_new d oracle_new) ∅) (ops1 ++ ops2)))) cf key (snapshot_ts tx) r.
Proof.
  intros He Hlen Htx Hu. unfold sys_run. rewrite foldl_app. fold (sys_run (mkSys (TM_new d oracle_new) ∅) ops1).
  set (s1 := sys_run _ ops1) in *. change (foldl sys_step s1 ops2) with (sys_run s1 ops2).
  assert (∃ g, 0 ≤ g ∧ Forall (λ op, op_floor op ≤ g) (ops1 ++ ops2)) as (g & Hg & [Hall1 Hall2]%Forall_app).
  { induction (ops1 ++ ops2) as [|op ops (g & ? & ?)]; [by exists 0|]. exists (Z.max g (op_floor op)).
    split; [lia|]. constructor; [lia|]. eapply Forall_impl; [done|]. cbn. intros. lia. }
  destruct (sys_run_inv g ops1 (mkSys (TM_new d oracle_new) ∅)) as (Hi1 & Hc1 & _); [|cbn; unfold oracle_new; lia|done|].
  { split; [|apply (sys_inv_new d He)]. eapply tm_inv_mono; [|by apply tm_inv_new]. cbn. lia. }
  fold s1 in Hi1, Hc1. cbn in Hc1. unfold oracle_new in Hc1.
  destruct (sys_run_inv g ops2 s1) as (_ & _ & Hsame); [done|lia|done|].
  apply visible_below. intros ts Ht Hle. apply Hsame; [done..|].
  pose proof (sys_snapshots _ _ Hi1 id tx Htx). lia.
Qed.

(** C5: first committer wins. In a system started on an empty database, whose calls run one after the other, a commit of an active
    transaction whose snapshot is not below the watermarks given to the record collector and at
    most 10,000 timestamps old is refused with a write conflict exactly when some key it writes
    has a version newer than its snapshot. *)
Theorem first_committer_wins (d : db) ops id tx g :
  (∀ cf k, get_cf d cf k = None) →
  Z.of_nat (length ops) < u64_max - 1 → 0 ≤ g → Forall (λ op, op_floor op ≤ g) ops →
  let s := sys_run (mkSys (TM_new d oracle_new) ∅) ops in
  sys_txs s !! id = Some tx → tx_state tx = Active →
  Forall (λ w, user_key w.1.1 w.1.2) (write_set tx) →
  g ≤ snapshot_ts tx → tm_counter (sys_tm s) - 1 - GC_THRESHOLD ≤ snapshot_ts tx →
  ((commit (sys_tm s) tx).2 = Err WriteConflict ↔
   ∃ cf key (v : option bytes) ts, (cf, key, v) ∈ write_set tx ∧ is_u64 ts ∧ snapshot_ts tx < ts ∧
     version (tm_db (sys_tm s)) cf key ts ≠ None).
Proof.
  intros He Hlen Hg Hall s Htx Hs Huser Hsg Hsc.
  destruct (sys_run_inv g ops (mkSys (TM_new d oracle_new) ∅)) as (Hi & Hc & _); [|cbn; unfold oracle_new; lia|done|].
  { split; [|apply (sys_inv_new d He)]. eapply tm_inv_mono; [|by apply tm_inv_new]. cbn. lia. }
  fold s in Hi, Hc. cbn in Hc. unfold oracle_new in Hc. pose proof (sys_tm_inv _ _ Hi) as Htm.
  rewrite Forall_forall in Huser.
  assert ((commit (sys_tm s) tx).2 = Err WriteConflict ↔
    conflicts (snapshot_ts tx) (fst <$> write_set tx) (committed_writes (sys_tm s)) = true) as ->.
  { unfold commit. destruct (commit_prepare (sys_tm s) tx) as [[tm1 ts1]|e] eqn:Hp.
    - apply commit_prepare_ok in Hp as (_ & _ & -> & _).
      destruct (commit_apply _ _ _) as [|e] eqn:Ha; cbn; [done|].
      apply commit_apply_err in Ha as [-> _]. done.
    - by apply commit_prepare_err in Hp as [-> ->]. }
  rewrite conflicts_spec. split.
  - intros (ts & ks & [cf key] & Hl & Hlt & Hk & ([[cf' key'] v] & [= -> ->] & Hin)%list_elem_of_fmap).
    exists cf', key', v, ts. pose proof (inv_committed _ _ Htm ts ks Hl) as Hts.
    unfold u64_max in Hlen. split_and!; [done|unfold is_u64; lia|done|].
    eapply inv_truthful; [done..|]. apply (Huser (cf', key', v)). done.
  - intros (cf & key & v & ts & Hin & Ht & Hlt & Hv).
    destruct (inv_complete _ _ Htm cf key ts) as (ks & Hl & Hk); [by apply (Huser (cf, key, v))|done|lia|done|].
    exists ts, ks, (cf, key). split_and!; [done..|]. by apply (list_elem_of_fmap_2 fst) in Hin.
Qed.

(** a read-only snapshot is not stable. It is taken at the counter, which is the timestamp the
    next commit gets when nothing else draws one, so what it sees of the keys of that commit
    changes under it. *)
Theorem snapshot_unstable f tm tx tm' tx' ts cf key v w :
  tm_inv f tm → tm_counter tm < u64_max → user_key cf key →
  commit tm tx = (tm', tx', Ok ts) → last_write cf key (write_set tx) = Some (Some (v :: w)) →
  snap_ts (take_snapshot tm) = ts ∧
  visible (tm_db tm') cf key (snap_ts (take_snapshot tm)) (Some (v :: w)) ∧
  (cf ∈ ColumnFamilies.all → isolated (tm_db tm') cf key →
     snapshot_get (tm_db tm') (take_snapshot tm) cf key = Ok (Some (v :: w))).
Proof.
  intros Hi Hc Hu Hcm Hw. pose proof (inv_counter _ _ Hi). unfold u64_max in Hc.
  destruct (commit_ok f tm tx tm' tx' ts) as (_ & -> & -> & _ & _ & Hver & _); [done..|].
  assert (visible (tm_db tm') cf key (tm_counter tm) (Some (v :: w))) as Hvis.
  { left. exists (tm_counter tm), (v :: w). split; [|done]. specialize (Hver cf key). rewrite Hw in Hver.
    split_and!; [unfold is_u64; lia|lia| |lia]. rewrite Hver by (done || unfold is_u64; lia). by rewrite decide_True. }
  split_and!; [done|exact Hvis|]. intros Hcf Hiso. unfold snapshot_get, take_snapshot, oracle_current. cbn.
  apply get_at_iff in Hvis; [|done..]. by rewrite Hvis.
Qed.

(** begin races with commit. [begin] takes no lock, so it can run after a commit has drawn its
    timestamp and before its batch is written. The transaction it starts has the commit inside
    its snapshot: it first misses the committed write and then sees it, and the record of the
    commit can never conflict with it, so it may overwrite a value it did not read. *)
Theorem begin_races_with_commit f tm tx tm1 ts tm3 cf key v w r :
  tm_inv f tm → tm_counter tm < u64_max - 1 → user_key cf key →
  commit_prepare tm tx = Ok (tm1, ts) → last_write cf key (write_set tx) = Some (Some (v :: w)) →
  commit_apply (begin tm1).1 tx ts = Ok tm3 →
  let reader := (begin tm1).2 in
  visible (tm_db tm) cf key (ts - 1) r →
  visible (tm_db (begin tm1).1) cf key (snapshot_ts reader) r ∧
  visible (tm_db tm3) cf key (snapshot_ts reader) (Some (v :: w)) ∧
  (∀ keys, conflicts (snapshot_ts reader) keys (committed_writes (commit_record tm3 tx ts)) = false).
Proof.
  intros Hi Hc Hu Hp Hw Ha reader Hvis. pose proof (inv_counter _ _ Hi) as H1. unfold u64_max in Hc.
  apply commit_prepare_ok in Hp as (_ & -> & _ & ->).
  assert (wrap64 (tm_counter tm + 1) = tm_counter tm + 1) as Hw1 by (apply wrap64_small; lia).
  assert (snapshot_ts reader = tm_counter tm) as ->.
  { subst reader. cbn. rewrite Hw1. rewrite wrap64_small; lia. }
  unfold commit_apply in Ha. destruct (batch_write_at _ _ _) as [d|] eqn:Hb; [|done]. injection Ha as <-.
  cbn in Hb. cbn [begin fst tm_db committed_writes].
  assert (is_u64 (tm_counter tm)) as Hcu by (unfold is_u64; lia).
  assert (∀ ts', is_u64 ts' → tm_counter tm ≤ ts' → version (tm_db tm) cf key ts' = None) as Hfresh.
  { intros ts' Hu' Hle. destruct (decide (version (tm_db tm) cf key ts' = None)) as [|Hn]; [done|].
    pose proof (inv_versions _ _ Hi cf key ts' Hu Hu' Hn). lia. }
  split_and!.
  - destruct Hvis as [(t & x & (? & ? & ? & Hn) & ->)|[Hn ->]]; [left; exists t, x|right]; (split; [|done]).
    + split_and!; [done|lia|done|]. intros ts' Hu' Hts'.
      destruct (decide (ts' = tm_counter tm)) as [->|]; [by apply Hfresh|]. apply Hn; [done|lia].
    + intros ts' Hu' Hle. destruct (decide (ts' = tm_counter tm)) as [->|]; [by apply Hfresh|]. apply Hn; [done|lia].
  - left. exists (tm_counter tm), (v :: w). split; [|done].
    pose proof (batch_write_at_version _ _ _ _ cf key (tm_counter tm) Hb Hcu Hcu) as Hver.
    rewrite Hw, decide_True in Hver by done. split_and!; [done|lia|done|lia].
  - intros keys. apply not_true_iff_false. rewrite conflicts_spec. intros (t & ks & k & Hl & Hlt & _).
    cbn in Hl. apply auto_gc_lookup, lookup_insert_Some in Hl as [[<- _]|[_ Hl]]; [lia|].
    pose proof (inv_committed _ _ Hi t ks Hl). lia.
Qed.

(** a restart can lose later commits. The counter is saved only by commits whose timestamp is a
    multiple of 100; a manager reopened with a counter at or below a stored version of a key
    commits a write of that key successfully, yet every snapshot at or above the old version keeps
    seeing the old value. *)
Theorem restart_hides_commits (d : db) counter tx tm' tx' ts cf key t old :
  is_u64 t → 0 ≤ counter < t → counter < u64_max → user_key cf key →
  version d cf key t = Some old → (∀ t', is_u64 t' → t < t' → version d cf key t' = None) →
  commit (TM_new d counter) tx = (tm', tx', Ok ts) →
  ts = counter ∧ ∀ snap, t ≤ snap →
    visible (tm_db tm') cf key snap (if is_tombstone old then None else Some old).
Proof.
  intros Ht Hct Hcmax Hu Hv Hnew Hcm. unfold u64_max in Hcmax. unfold commit in Hcm.
  destruct (commit_prepare _ _) as [[tm1 ts1]|e] eqn:Hp; [|done].
  apply commit_prepare_ok in Hp as (_ & -> & _ & ->).
  unfold commit_apply in Hcm. destruct (batch_write_at _ _ _) as [d1|] eqn:Hb; [|done].
  injection Hcm as <- _ <-. cbn in Hb. split; [done|]. intros snap Hsnap. left. exists t, old. split; [|done].
  assert (∀ t', is_u64 t' → counter < t' → version (tm_db (commit_record (mkTM d1 (wrap64 (counter + 1)) ∅ 0) tx counter)) cf key t' =
    version d cf key t') as Hver.
  { intros t' Hu' Hlt. rewrite commit_record_version by done. cbn.
    rewrite (batch_write_at_version d _ counter d1 cf key t' Hb) by (done || unfold is_u64; lia).
    destruct (last_write _ _ _); [|done]. by rewrite decide_False by lia. }
  cbn [TM_new begin oracle_next fst tm_counter committed_writes gc_watermark tm_db] in *.
  split_and!; [done|lia|by rewrite Hver by (done || lia)|].
  intros t' Hu' [? ?]. rewrite Hver by (done || lia). by apply Hnew.
Qed.
End properties.

(** ** Witnesses *)
Lemma outcome_eq {A B C} (x : A * B * C) (c : C) : x.2 = c → x = (x.1.1, x.1.2, c).
Proof. destruct x as [[a b] c']. cbn. by intros ->. Qed.
Lemma nodes_user_key key : user_key ColumnFamilies.NODES key.
Proof. intros [E _]. discriminate E. Qed.
Lemma empty_db_cells cf k : get_cf empty_db cf k = None.
Proof. apply lookup_empty. Qed.
Definition k1 : bytes := str_bytes "k".
Definition put_k (id : Z) (v : string) : tx_op := OpPut id ColumnFamilies.NODES k1 (str_bytes v).
(** A manager whose counter is 2, and a transaction with one buffered write. *)
Definition tm2 : TM MemDB := (begin (TM_new empty_db oracle_new)).1.
Definition writer (v : string) : Transaction := mkTransaction 1 0 Active [(ColumnFamilies.NODES, k1, Some (str_bytes v))].
Lemma tm2_inv : tm_inv 0 tm2.
Proof. apply begin_inv; [apply tm_inv_new, empty_db_cells|reflexivity]. Qed.
Lemma empty_visible key snap : visible empty_db ColumnFamilies.NODES key snap None.
Proof. right. split; [|done]. intros. apply empty_db_cells. Qed.

Lemma read_your_own_writes_witness :
  tx_get sample_db (mkTransaction 9 6 Active []) ColumnFamilies.NODES (str_bytes "n1") = Ok (Some (str_bytes "b")) ∧
  ∃ tx', tx_put (mkTransaction 9 6 Active []) ColumnFamilies.NODES (str_bytes "n1") (str_bytes "z") = Ok tx' ∧
    tx_get sample_db tx' ColumnFamilies.NODES (str_bytes "n1") = Ok (Some (str_bytes "z")).
Proof.
  destruct (read_your_own_writes sample_db (mkTransaction 9 6 Active []) ColumnFamilies.NODES (str_bytes "n1")
    (Some (str_bytes "b"))) as (Hget & Hput & _).
  - reflexivity.
  - apply (bool_decide_unpack _). vm_compute. reflexivity.
  - apply isolated_mem. vm_compute. reflexivity.
  - split.
    + apply Hget. apply get_at_iff; [apply (bool_decide_unpack _); vm_compute; reflexivity| |vm_compute; reflexivity].
      apply isolated_mem. vm_compute. reflexivity.
    + destruct (Hput (str_bytes "z")) as (tx' & H1 & H2 & _). exists tx'. split; [exact H1|exact H2].
Defined.
Lemma inactive_refuses_witness :
  commit tm2 (mkTransaction 1 0 RolledBack []) = (tm2, mkTransaction 1 0 RolledBack [], Err AlreadyCommitted).
Proof. apply (inactive_refuses tm2 _ ColumnFamilies.NODES [] []). discriminate. Defined.
Lemma commit_atomic_witness :
  (commit tm2 (writer "v")).2 = Ok 2 ∧
  visible (tm_db (commit tm2 (writer "v")).1.1) ColumnFamilies.NODES k1 2 (Some (str_bytes "v")) ∧
  visible (tm_db (commit tm2 (writer "v")).1.1) ColumnFamilies.NODES k1 1 None.
Proof.
  assert ((commit tm2 (writer "v")).2 = Ok 2) as H by (vm_compute; reflexivity).
  destruct (commit_atomic 0 tm2 (writer "v") _ _ 2 tm2_inv eq_refl (outcome_eq _ _ H)) as (_ & _ & _ & _ & Hv).
  split; [exact H|]. split.
  - exact (Hv ColumnFamilies.NODES k1 2 None (nodes_user_key _) (empty_visible _ _)).
  - exact (Hv ColumnFamilies.NODES k1 1 None (nodes_user_key _) (empty_visible _ _)).
Defined.
Lemma snapshot_reads_sequential_witness :
  visible (tm_db (sys_tm (sys_run (mkSys (TM_new empty_db oracle_new) ∅) [OpBegin; OpBegin; put_k 2 "v"; OpCommit 2])))
    ColumnFamilies.NODES k1 0 None.
Proof.
  apply (snapshot_reads_sequential empty_db [OpBegin] [OpBegin; put_k 2 "v"; OpCommit 2] 1 (mkTransaction 1 0 Active []));
    [exact empty_db_cells|reflexivity|vm_compute; reflexivity|apply nodes_user_key|].
  exact (empty_visible k1 0).
Defined.
(** The second of two overlapping writers of the key is refused. *)
Definition overlap : list tx_op := [OpBegin; OpBegin; put_k 1 "a"; put_k 2 "b"; OpCommit 1].
Definition late_writer : Transaction := mkTransaction 2 1 Active [(ColumnFamilies.NODES, k1, Some (str_bytes "b"))].
Lemma first_committer_wins_witness :
  (commit (sys_tm (sys_run (mkSys (TM_new empty_db oracle_new) ∅) overlap)) late_writer).2 = Err WriteConflict.
Proof.
  assert (sys_txs (sys_run (mkSys (TM_new empty_db oracle_new) ∅) overlap) !! 2 = Some late_writer) as Htx
    by (vm_compute; reflexivity).
  assert (Forall (λ op, op_floor op ≤ 0) overlap) as Hfl by (repeat constructor; cbn; lia).
  assert (Forall (λ w : BufferedWrite, user_key w.1.1 w.1.2) (write_set late_writer)) as Hu
    by (repeat constructor; apply nodes_user_key).
  assert (tm_counter (sys_tm (sys_run (mkSys (TM_new empty_db oracle_new) ∅) overlap)) - 1 - GC_THRESHOLD ≤ snapshot_ts late_writer) as Hc
    by (vm_compute; discriminate).
  assert (Z.of_nat (length overlap) < u64_max - 1) as Hlen by reflexivity.
  assert (0 ≤ 0) as H0 by discriminate.
  assert (0 ≤ snapshot_ts late_writer) as Hs by discriminate.
  pose proof (first_committer_wins empty_db overlap 2 late_writer 0 empty_db_cells Hlen H0 Hfl) as H. cbv zeta in H.
  specialize (H Htx eq_refl Hu Hs Hc). apply H.
  exists ColumnFamilies.NODES, k1, (Some (str_bytes "b")), 3. split; [left|].
  split; [unfold is_u64, two64; lia|]. split; [reflexivity|]. vm_compute. discriminate.
Defined.
Lemma snapshot_unstable_witness :
  snap_ts (take_snapshot tm2) = 2 ∧
  visible (tm_db (commit tm2 (writer "v")).1.1) ColumnFamilies.NODES k1 (snap_ts (take_snapshot tm2)) (Some (str_bytes "v")).
Proof.
  assert ((commit tm2 (writer "v")).2 = Ok 2) as H by (vm_compute; reflexivity).
  destruct (snapshot_unstable 0 tm2 (writer "v") _ _ 2 ColumnFamilies.NODES k1 Byte.x76 [] tm2_inv eq_refl
    (nodes_user_key _) (outcome_eq _ _ H) eq_refl) as (Hs & Hv & _).
  split; [exact Hs|exact Hv].
Defined.
Definition race_tm3 : TM MemDB :=
  match commit_apply (begin (begin tm2).1).1 (writer "v") 2 with Ok tm => tm | Err _ => tm2 end.
Lemma begin_races_with_commit_witness :
  visible (tm_db (begin (begin tm2).1).1) ColumnFamilies.NODES k1 2 None ∧
  visible (tm_db race_tm3) ColumnFamilies.NODES k1 2 (Some (str_bytes "v")).
Proof.
  assert (tm_counter tm2 < u64_max - 1) as Hc by reflexivity.
  assert (commit_prepare tm2 (writer "v") = Ok ((begin tm2).1, 2)) as Hp.
  { unfold commit_prepare. rewrite decide_False by (intros E; by apply E). rewrite decide_True by discriminate.
    assert (conflicts (snapshot_ts (writer "v")) (fst <$> write_set (writer "v")) (committed_writes tm2) = false) as ->
      by (vm_compute; reflexivity).
    reflexivity. }
  assert (last_write ColumnFamilies.NODES k1 (write_set (writer "v")) = Some (Some (Byte.x76 :: []))) as Hw
    by (vm_compute; reflexivity).
  assert (is_ok (commit_apply (begin (begin tm2).1).1 (writer "v") 2) = true) as Hok by (vm_compute; reflexivity).
  assert (commit_apply (begin (begin tm2).1).1 (writer "v") 2 = Ok race_tm3) as Ha
    by (unfold race_tm3; by destruct (commit_apply _ _ _)).
  pose proof (begin_races_with_commit 0 tm2 (writer "v") (begin tm2).1 2 race_tm3 ColumnFamilies.NODES k1 Byte.x76 [] None
    tm2_inv Hc (nodes_user_key _) Hp Hw Ha (empty_visible k1 1)) as (H1 & H2 & _).
  split; [exact H1|exact H2].
Defined.
(** Two commits at 2 and 4, no save of the counter, restart at 1: the third value is hidden. *)
Definition crashed_db : MemDB :=
  tm_db (sys_tm (sys_run (mkSys (TM_new empty_db oracle_new) ∅) [OpBegin; put_k 1 "a"; OpCommit 1; OpBegin; put_k 3 "b"; OpCommit 3])).
Definition old_cell (cf : string) (k _ : bytes) : bool :=
  negb (bool_decide (cf = ColumnFamilies.NODES)) || (version_ts k <=? 4).
Lemma restart_hides_commits_witness :
  oracle_load_from_db crashed_db = 1 ∧
  visible (tm_db (commit (TM_new crashed_db (oracle_load_from_db crashed_db)) (writer "c")).1.1)
    ColumnFamilies.NODES k1 100 (Some (str_bytes "b")).
Proof.
  assert (oracle_load_from_db crashed_db = 1) as Hl by (vm_compute; reflexivity).
  split; [exact Hl|]. rewrite Hl.
  assert ((commit (TM_new crashed_db 1) (writer "c")).2 = Ok 1) as H by (vm_compute; reflexivity).
  destruct (restart_hides_commits crashed_db 1 (writer "c") (commit (TM_new crashed_db 1) (writer "c")).1.1
    (commit (TM_new crashed_db 1) (writer "c")).1.2 1 ColumnFamilies.NODES k1 4 (str_bytes "b")) as [_ Hv];
    [unfold is_u64, two64; lia|lia|reflexivity|apply nodes_user_key|vm_compute; reflexivity| |exact (outcome_eq _ _ H)|].
  - intros t' Ht' Hlt. apply eq_None_not_Some. intros [v Hv].
    pose proof (mem_forall crashed_db old_cell ltac:(vm_compute; reflexivity) _ _ _ Hv) as Hb. unfold old_cell in Hb.
    rewrite version_ts_encode in Hb by done. apply orb_true_iff in Hb as [Hb|Hb]; [|apply Z.leb_le in Hb; lia].
    discriminate Hb.
  - apply (Hv 100). lia.
Defined.
