(* ===== verification/Isolation.v ===== *)
(** * Snapshot isolation with commits that overlap other calls (synaptica-tx: mvcc.rs)

    [commit] holds the write lock of the record of commits from its check to its entry in the
    record, but [begin] and the operations on other transactions take no lock, so they run between the
    steps of a commit: the check with the draw of the timestamp, the batch, the entry with the release
    of the lock, and the save of the counter with the return. Here each of these is a step, and the
    steps of all threads interleave. The steps of a commit, taken together, are [commit] of [Tx.v]
    ([commit_together]). *)
From S2P Require Import Prelude Rocks Mvcc Tx.

(** The commit that holds the lock: its transaction, its timestamp and whether its batch is written *)
Record Writing := mkWriting { w_id : Z; w_ts : Z; w_written : bool }.
(** The manager, the transactions, the commit with the lock, and the commits that have released the
    lock and not returned, with their timestamps *)
Record Par (db : Type) := mkPar {
  par_tm : TM db;
  par_txs : gmap Z Transaction;
  writing : option Writing;
  returning : gmap Z Z
}.
Arguments mkPar {db}.
Arguments par_tm {db}.
Arguments par_txs {db}.
Arguments writing {db}.
Arguments returning {db}.
Inductive par_act : Type :=
| ActBegin
| ActPut (id : Z) (cf : string) (key value : bytes)
| ActDelete (id : Z) (cf : string) (key : bytes)
| ActRollback (id : Z)
| ActCommit (id : Z)    (* takes the lock, checks and draws the timestamp *)
| ActWrite              (* the commit with the lock writes its batch *)
| ActKeep               (* it enters its keys in the record and releases the lock *)
| ActReturn (id : Z)    (* it saves the counter when it is due and returns *)
| ActGc (watermark : Z).

Section steps.
Context `{RocksDB db}.
Implicit Types (p : Par db).
Definition Par_new (d : db) (counter : Z) : Par db := mkPar (TM_new d counter) ∅ None ∅.
(** The two halves of [commit_record] *)
Definition commit_keep (tm : TM db) (tx : Transaction) (commit_ts : Z) : TM db :=
  mkTM (tm_db tm) (tm_counter tm) (auto_gc commit_ts (<[commit_ts := fst <$> write_set tx]> (committed_writes tm))) (gc_watermark tm).
Definition commit_save (tm : TM db) (commit_ts : Z) : TM db :=
  mkTM (if commit_ts mod 100 =? 0 then oracle_persist_to_db (tm_counter tm) (tm_db tm) else tm_db tm)
    (tm_counter tm) (committed_writes tm) (gc_watermark tm).
Lemma commit_record_halves tm tx ts : commit_record tm tx ts = commit_save (commit_keep tm tx ts) ts.
Proof. done. Qed.

(** A commit has its transaction for itself until it returns. *)
Definition busy p (id : Z) : bool :=
  bool_decide (w_id <$> writing p = Some id) || bool_decide (is_Some (returning p !! id)).
Definition edit p (id : Z) (f : Transaction → result TxError Transaction) : Par db :=
  match par_txs p !! id with
  | Some tx => if busy p id then p
               else match f tx with Ok tx' => mkPar (par_tm p) (<[id := tx']> (par_txs p)) (writing p) (returning p) | Err _ => p end
  | None => p
  end.
(** What cannot run now (the lock is taken, the transaction is busy, no such step is next) changes nothing. *)
Definition par_step p (a : par_act) : Par db :=
  match a with
  | ActBegin => let '(tm, tx) := begin (par_tm p) in mkPar tm (<[tx_id tx := tx]> (par_txs p)) (writing p) (returning p)
  | ActPut id cf key value => edit p id (λ tx, tx_put tx cf key value)
  | ActDelete id cf key => edit p id (λ tx, tx_delete tx cf key)
  | ActRollback id => edit p id rollback
  | ActCommit id =>
      match writing p, par_txs p !! id with
      | None, Some tx =>
          if busy p id then p
          else match commit_prepare (par_tm p) tx with
               | Ok (tm, ts) => mkPar tm (par_txs p) (Some (mkWriting id ts false)) (returning p)
               | Err _ => p
               end
      | _, _ => p
      end
  | ActWrite =>
      match writing p with
      | Some (mkWriting id ts false) =>
          match par_txs p !! id with
          | Some tx =>
              match commit_apply (par_tm p) tx ts with
              | Ok tm => mkPar tm (par_txs p) (Some (mkWriting id ts true)) (returning p)
              | Err _ => mkPar (par_tm p) (par_txs p) None (returning p)
              end
          | None => p
          end
      | _ => p
      end
  | ActKeep =>
      match writing p with
      | Some (mkWriting id ts true) =>
          match par_txs p !! id with
          | Some tx => mkPar (commit_keep (par_tm p) tx ts) (par_txs p) None (<[id := ts]> (returning p))
          | None => p
          end
      | _ => p
      end
  | ActReturn id =>
      match returning p !! id, par_txs p !! id with
      | Some ts, Some tx =>
          mkPar (commit_save (par_tm p) ts) (<[id := set_state tx Committed]> (par_txs p)) (writing p) (delete id (returning p))
      | _, _ => p
      end
  | ActGc w => match writing p with None => mkPar (gc_committed_writes (par_tm p) w) (par_txs p) None (returning p) | Some _ => p end
  end.
Definition par_run p (acts : list par_act) : Par db := foldl par_step p acts.

(** The timestamp of the commit whose batch is not written yet *)
Definition pending p : option Z :=
  match writing p with Some (mkWriting _ ts false) => Some ts | _ => None end.
(** The snapshot is below that commit, if there is one. *)
Definition settled p (snapshot : Z) : Prop := ∀ ts, pending p = Some ts → snapshot < ts.
End steps.

(** ** The invariant *)
Section isolation.
Context `{RocksDBLaws db}.
Implicit Types (p : Par db) (cf : string) (key : bytes).

Record par_inv p : Prop := {
  par_counter : 1 ≤ tm_counter (par_tm p);
  par_ids id tx : par_txs p !! id = Some tx → id < tm_counter (par_tm p) ∧ 0 ≤ snapshot_ts tx < tm_counter (par_tm p);
  par_pending ts : pending p = Some ts → 1 ≤ ts < tm_counter (par_tm p)
}.
(** What a step keeps: the versions below the counter but those of the commit that is not written, and
    the snapshots; and a commit that becomes pending has the counter as its timestamp. *)
Record keeps p p' : Prop := {
  keeps_counter : tm_counter (par_tm p) ≤ tm_counter (par_tm p');
  keeps_versions cf key ts : user_key cf key → is_u64 ts → ts < tm_counter (par_tm p) → pending p ≠ Some ts →
    version (tm_db (par_tm p')) cf key ts = version (tm_db (par_tm p)) cf key ts;
  keeps_txs id tx : par_txs p !! id = Some tx → ∃ tx', par_txs p' !! id = Some tx' ∧ snapshot_ts tx' = snapshot_ts tx;
  keeps_pending ts : pending p' = Some ts → pending p = Some ts ∨ tm_counter (par_tm p) ≤ ts
}.
Lemma keeps_refl p : keeps p p.
Proof. split; [done|done|eauto|auto]. Qed.
Lemma keeps_trans p1 p2 p3 : keeps p1 p2 → keeps p2 p3 → keeps p1 p3.
Proof.
  intros H1 H2. pose proof (keeps_counter _ _ H1). split.
  - etrans; by apply keeps_counter.
  - intros cf key ts Hu Ht Hlt Hp. rewrite (keeps_versions _ _ H2); [by apply H1|done|done|lia|].
    intros [|]%(keeps_pending _ _ H1); [done|lia].
  - intros id tx (tx' & Htx' & <-)%(keeps_txs _ _ H1). by apply (keeps_txs _ _ H2).
  - intros ts [Hts|]%(keeps_pending _ _ H2); [by apply H1|right; lia].
Qed.
Lemma par_inv_new (d : db) counter : 1 ≤ counter → par_inv (Par_new d counter).
Proof. by split. Qed.

(** A step that changes at most the transaction's state or writes, and keeps the database and the counter *)
Lemma keeps_edit p tm' id tx tx' w' r' : par_inv p → par_txs p !! id = Some tx → snapshot_ts tx' = snapshot_ts tx →
  tm_counter tm' = tm_counter (par_tm p) →
  (∀ cf key ts, user_key cf key → version (tm_db tm') cf key ts = version (tm_db (par_tm p)) cf key ts) →
  let p' := mkPar tm' (<[id := tx']> (par_txs p)) w' r' in
  (∀ ts, pending p' = Some ts → pending p = Some ts) → par_inv p' ∧ keeps p p'.
Proof.
  intros Hi Htx Hs Hc Hv p' Hp. split; split; cbn; rewrite ?Hc.
  - by apply par_counter.
  - intros id' tx2 [[<- <-]|[_ Htx2]]%lookup_insert_Some; [rewrite Hs|]; by apply (par_ids _ Hi).
  - intros ts Hts%Hp. by apply (par_pending _ Hi).
  - done.
  - intros cf key ts Hu _ _ _. by apply Hv.
  - intros id' tx2 Htx2. destruct (decide (id = id')) as [<-|Hne]; [rewrite lookup_insert_eq|rewrite lookup_insert_ne by done; eauto].
    exists tx'. split; [done|]. congruence.
  - auto.
Qed.
(** A step that changes no transaction *)
Lemma keeps_same_txs p tm' w' r' : par_inv p → tm_counter tm' = tm_counter (par_tm p) →
  (∀ cf key ts, user_key cf key → is_u64 ts → pending p ≠ Some ts → version (tm_db tm') cf key ts = version (tm_db (par_tm p)) cf key ts) →
  let p' := mkPar tm' (par_txs p) w' r' in
  (∀ ts, pending p' = Some ts → pending p = Some ts) → par_inv p' ∧ keeps p p'.
Proof.
  intros Hi Hc Hv p' Hp. split; split; cbn; rewrite ?Hc.
  - by apply par_counter.
  - by apply (par_ids _ Hi).
  - intros ts Hts%Hp. by apply (par_pending _ Hi).
  - done.
  - intros cf key ts Hu Ht _ Hne. by apply Hv.
  - eauto.
  - auto.
Qed.
Lemma edit_keeps p id f : par_inv p → (∀ tx tx', f tx = Ok tx' → snapshot_ts tx' = snapshot_ts tx) →
  (par_inv (edit p id f) ∧ keeps p (edit p id f)) ∧ tm_counter (par_tm (edit p id f)) = tm_counter (par_tm p).
Proof.
  intros Hi Hf. pose proof (keeps_refl p). unfold edit. destruct (par_txs p !! id) as [tx|] eqn:Htx; [|done].
  destruct (busy p id); [done|]. destruct (f tx) as [tx'|] eqn:Hft; [|done]. split; [|done].
  apply (keeps_edit p _ id tx tx'); auto.
Qed.
Lemma begin_counter (tm : TM db) : 1 ≤ tm_counter tm → tm_counter tm < u64_max →
  (begin tm).1 = mkTM (tm_db tm) (tm_counter tm + 1) (committed_writes tm) (gc_watermark tm) ∧
  (begin tm).2 = Transaction_new (tm_counter tm) (tm_counter tm - 1).
Proof. unfold u64_max. intros H1 H2. cbn. by rewrite !wrap64_small by lia. Qed.
(** A step that draws a timestamp *)
Lemma commit_keeps p id tx tm ts : par_inv p → tm_counter (par_tm p) < u64_max → writing p = None →
  commit_prepare (par_tm p) tx = Ok (tm, ts) →
  let p' := mkPar tm (par_txs p) (Some (mkWriting id ts false)) (returning p) in
  (par_inv p' ∧ keeps p p') ∧ tm_counter (par_tm p') = tm_counter (par_tm p) + 1.
Proof.
  intros Hi Hc Hw (_ & -> & _ & ->)%commit_prepare_ok. pose proof (par_counter _ Hi).
  destruct (begin_counter (par_tm p)) as [-> _]; [done..|]. split; [|done]. split; split; cbn.
  - lia.
  - intros id' tx' Htx'. pose proof (par_ids _ Hi id' tx' Htx'). lia.
  - intros ts [= <-]. lia.
  - lia.
  - done.
  - eauto.
  - intros ts [= <-]. by right.
Qed.
Lemma begin_keeps p : par_inv p → tm_counter (par_tm p) < u64_max →
  (par_inv (par_step p ActBegin) ∧ keeps p (par_step p ActBegin)) ∧ tm_counter (par_tm (par_step p ActBegin)) = tm_counter (par_tm p) + 1.
Proof.
  intros Hi Hc. pose proof (par_counter _ Hi). destruct (begin_counter (par_tm p)) as [Hb1 Hb2]; [done..|].
  cbn [par_step]. destruct (begin (par_tm p)) as [tm tx]. cbn in Hb1, Hb2. subst. split; [|done]. split; split; cbn.
  - lia.
  - intros id tx [[<- <-]|[_ Htx]]%lookup_insert_Some; [cbn; lia|]. pose proof (par_ids _ Hi id tx Htx). lia.
  - intros ts Hts. pose proof (par_pending _ Hi ts Hts). lia.
  - lia.
  - done.
  - intros id tx Htx. pose proof (par_ids _ Hi id tx Htx). rewrite lookup_insert_ne by lia. eauto.
  - auto.
Qed.
Lemma write_keeps p : par_inv p → tm_counter (par_tm p) ≤ u64_max →
  (par_inv (par_step p ActWrite) ∧ keeps p (par_step p ActWrite)) ∧ tm_counter (par_tm (par_step p ActWrite)) = tm_counter (par_tm p).
Proof.
  intros Hi Hc. pose proof (keeps_refl p). cbn [par_step]. destruct (writing p) as [[id ts []]|] eqn:Hw; try done.
  destruct (par_txs p !! id) as [tx|]; [|done].
  assert (pending p = Some ts) as Hp by (unfold pending; by rewrite Hw). pose proof (par_pending _ Hi ts Hp). unfold u64_max in Hc.
  unfold commit_apply. destruct (batch_write_at _ _ _) as [d|e] eqn:Hb; (split; [|done]); apply keeps_same_txs; try done.
  intros cf key ts' Hu Hts' Hne. cbn. rewrite (batch_write_at_version _ _ _ _ cf key ts' Hb); [|unfold is_u64; lia|done].
  destruct (last_write _ _ _); [|done]. rewrite decide_False; [done|]. congruence.
Qed.
Lemma par_step_keeps p a : par_inv p → tm_counter (par_tm p) < u64_max →
  (par_inv (par_step p a) ∧ keeps p (par_step p a)) ∧ tm_counter (par_tm (par_step p a)) ≤ tm_counter (par_tm p) + 1.
Proof.
  intros Hi Hc. assert ((par_inv p ∧ keeps p p) ∧ tm_counter (par_tm p) ≤ tm_counter (par_tm p) + 1) as Hsame
    by (split; [split; [done|apply keeps_refl]|lia]).
  assert (∀ id f, (∀ tx tx', f tx = Ok tx' → snapshot_ts tx' = snapshot_ts tx) →
    (par_inv (edit p id f) ∧ keeps p (edit p id f)) ∧ tm_counter (par_tm (edit p id f)) ≤ tm_counter (par_tm p) + 1) as Hedit.
  { intros id f Hf. destruct (edit_keeps p id f) as [? ->]; [done..|]. split; [done|lia]. }
  destruct a as [|id cf key v|id cf key|id|id| | |id|w]; cbn [par_step].
  - destruct (begin_keeps p) as [? He]; [done..|]. cbn [par_step] in *. split; [done|lia].
  - apply Hedit. intros tx tx'. unfold tx_put. case_decide; [done|]. by intros [= <-].
  - apply Hedit. intros tx tx'. unfold tx_delete. case_decide; [done|]. by intros [= <-].
  - apply Hedit. intros tx tx'. unfold rollback. case_decide; [done|]. by intros [= <-].
  - destruct (writing p) eqn:Hw; [exact Hsame|]. destruct (par_txs p !! id) as [tx|]; [|exact Hsame].
    destruct (busy p id); [exact Hsame|]. destruct (commit_prepare _ _) as [[tm ts]|] eqn:Hp; [|exact Hsame].
    destruct (commit_keeps p id tx tm ts) as [? He]; [done..|]. split; [done|lia].
  - destruct (write_keeps p) as [? He]; [done|lia|]. cbn [par_step] in *. split; [done|lia].
  - destruct (writing p) as [[id ts []]|] eqn:Hw; try exact Hsame. destruct (par_txs p !! id) as [tx|]; [|exact Hsame].
    split; [|cbn; lia]. by apply keeps_same_txs.
  - destruct (returning p !! id) as [ts|]; [|exact Hsame]. destruct (par_txs p !! id) as [tx|] eqn:Htx; [|exact Hsame].
    split; [|cbn; lia]. apply (keeps_edit p _ id tx); try done. intros cf key ts' Hu. cbn.
    destruct (ts mod 100 =? 0); [by apply version_persist|done].
  - destruct (writing p) eqn:Hw; [exact Hsame|]. split; [|cbn; lia]. by apply keeps_same_txs.
Qed.
Lemma par_run_keeps acts p : par_inv p → tm_counter (par_tm p) + Z.of_nat (length acts) ≤ u64_max →
  par_inv (par_run p acts) ∧ keeps p (par_run p acts) ∧
  tm_counter (par_tm (par_run p acts)) ≤ tm_counter (par_tm p) + Z.of_nat (length acts).
Proof.
  revert p. induction acts as [|a acts IH]; intros p Hi Hc; [split_and!; [done|apply keeps_refl|cbn; lia]|].
  rewrite length_cons in *. destruct (par_step_keeps p a) as [[Hi1 Hk1] Hc1]; [done|lia|].
  change (par_run p (a :: acts)) with (par_run (par_step p a) acts). destruct (IH (par_step p a)) as (Hi2 & Hk2 & Hc2); [done|lia|].
  split_and!; [done|by eapply keeps_trans|lia].
Qed.

(** C32: Snapshot isolation of reads while commits and other calls overlap. Start a manager on any
    database and let any threads run any calls, step by step in any order, with a commit in several steps that
    [begin] and the operations on other transactions come between. A transaction whose snapshot is
    below the commit that has drawn its timestamp and not written its batch, or that exists when there is
    no such commit, keeps its snapshot and sees the same at it after all further steps. (The
    snapshot of a transaction begun between these two steps covers the commit,
    [begin_races_with_commit].) Of what it covers, only the versions at the timestamp of that one commit can
    change, and once that commit has written its batch or failed, it too sees the same from then on. *)
Theorem snapshot_reads_stable (d : db) counter acts1 acts2 id tx :
  1 ≤ counter → counter + Z.of_nat (length (acts1 ++ acts2)) ≤ u64_max →
  let p1 := par_run (Par_new d counter) acts1 in
  let p2 := par_run (Par_new d counter) (acts1 ++ acts2) in
  par_txs p1 !! id = Some tx →
  (∃ tx', par_txs p2 !! id = Some tx' ∧ snapshot_ts tx' = snapshot_ts tx) ∧
  (settled p1 (snapshot_ts tx) → settled p2 (snapshot_ts tx) ∧ ∀ cf key r, user_key cf key →
     visible (tm_db (par_tm p1)) cf key (snapshot_ts tx) r ↔ visible (tm_db (par_tm p2)) cf key (snapshot_ts tx) r) ∧
  (∀ ts0, pending p1 = Some ts0 →
     (∀ cf key ts, user_key cf key → is_u64 ts → ts ≤ snapshot_ts tx → ts ≠ ts0 →
        version (tm_db (par_tm p2)) cf key ts = version (tm_db (par_tm p1)) cf key ts) ∧
     (pending p2 ≠ Some ts0 → settled p2 (snapshot_ts tx))).
Proof.
  intros H1 Hlen p1 p2 Htx. rewrite length_app in Hlen.
  destruct (par_run_keeps acts1 (Par_new d counter)) as (Hi & _ & Hc); [by apply par_inv_new|cbn; lia|]. fold p1 in Hi, Hc. cbn in Hc.
  assert (p2 = par_run p1 acts2) as E by (subst p1 p2; unfold par_run; apply foldl_app).
  destruct (par_run_keeps acts2 p1) as (_ & Hk & _); [done|lia|]. rewrite <- E in Hk. clear E.
  pose proof (par_ids _ Hi id tx Htx) as [_ Hs]. split_and!.
  - by apply (keeps_txs _ _ Hk).
  - intros Hset. split.
    + intros ts [Hts|]%(keeps_pending _ _ Hk); [by apply Hset|lia].
    + intros cf key r Hu. apply visible_below. intros ts Ht Hle. apply (keeps_versions _ _ Hk); [done..|lia|].
      intros Hts%Hset. lia.
  - intros ts0 Hp. split.
    + intros cf key ts Hu Ht Hle Hne. apply (keeps_versions _ _ Hk); [done..|lia|congruence].
    + intros Hp2 ts Hts. destruct (keeps_pending _ _ Hk ts Hts) as [Hts'|]; [|lia]. rewrite Hp in Hts'. by injection Hts' as <-.
Qed.
End isolation.

(** ** A commit alone *)
Section alone.
Context `{RocksDB db}.
Implicit Types (p : Par db).
(** The steps of a commit that nothing comes between are the commit. *)
Theorem commit_together p id tx : writing p = None → busy p id = false → par_txs p !! id = Some tx →
  let '(tm', tx', _) := commit (par_tm p) tx in
  par_run p [ActCommit id; ActWrite; ActKeep; ActReturn id] = mkPar tm' (<[id := tx']> (par_txs p)) None (returning p).
Proof.
  destruct p as [tm txs w ret]. cbn [writing par_txs par_tm returning]. intros -> Hb Htx.
  assert (ret !! id = None) as Hret.
  { apply orb_false_iff in Hb as [_ Hb%bool_decide_eq_false]. cbn in Hb. by apply eq_None_not_Some. }
  unfold commit, par_run. cbn [foldl par_step writing par_txs par_tm returning]. rewrite Htx, Hb.
  destruct (commit_prepare tm tx) as [[tm1 ts]|e]; cbn [writing par_txs par_tm returning].
  - rewrite Htx. destruct (commit_apply tm1 tx ts) as [tm2|e]; cbn [writing par_txs par_tm returning].
    + rewrite Htx. cbn [writing par_txs par_tm returning]. rewrite lookup_insert_eq, Htx.
      by rewrite delete_insert_id.
    + rewrite Hret. by rewrite insert_id.
  - rewrite Hret. by rewrite insert_id.
Qed.
End alone.

(** ** Samples *)
Definition nodes_put (id : Z) (v : string) : par_act := ActPut id ColumnFamilies.NODES k1 (str_bytes v).
(** Transaction 1 writes and draws its timestamp, 3; transaction 2 was begun before, transaction 4 is begun now. *)
Definition before_write : list par_act := [ActBegin; ActBegin; nodes_put 1 "v"; ActCommit 1; ActBegin].
(** Transaction 1 ends, and transaction 4 overwrites its value. *)
Definition after_write : list par_act :=
  [ActWrite; nodes_put 4 "w"; ActKeep; ActCommit 4; ActBegin; ActReturn 1; ActWrite; ActKeep; ActReturn 4].
Lemma snapshot_reads_stable_witness :
  let p1 := par_run (Par_new empty_db oracle_new) before_write in
  let p2 := par_run (Par_new empty_db oracle_new) (before_write ++ after_write) in
  pending p1 = Some 3 ∧ tx_state <$> par_txs p2 !! 4 = Some Committed ∧
  visible (tm_db (par_tm p2)) ColumnFamilies.NODES k1 1 None ∧ settled p2 3 ∧ ¬ settled p1 3.
Proof.
  intros p1 p2.
  assert (1 ≤ oracle_new) as H1 by discriminate.
  assert (oracle_new + Z.of_nat (length (before_write ++ after_write)) ≤ u64_max) as Hlen by discriminate.
  assert (par_txs p1 !! 2 = Some (mkTransaction 2 1 Active [])) as Hold by (vm_compute; reflexivity).
  assert (par_txs p1 !! 4 = Some (mkTransaction 4 3 Active [])) as Hnew by (vm_compute; reflexivity).
  assert (pending p1 = Some 3) as Hp1 by (vm_compute; reflexivity).
  destruct (snapshot_reads_stable empty_db oracle_new before_write after_write 2 _ H1 Hlen Hold) as (_ & Hs & _).
  destruct (snapshot_reads_stable empty_db oracle_new before_write after_write 4 _ H1 Hlen Hnew) as (_ & _ & Hc).
  split; [exact Hp1|]. split; [vm_compute; reflexivity|]. split; [|split].
  - assert (settled p1 1) as Hset.
    { intros ts Hts. rewrite Hp1 in Hts. injection Hts as <-. reflexivity. }
    assert (tm_db (par_tm p1) = empty_db) as He by (vm_compute; reflexivity).
    apply (proj2 (Hs Hset) ColumnFamilies.NODES k1 None (nodes_user_key _)). fold p1. rewrite He. exact (empty_visible k1 1).
  - apply (Hc 3 Hp1). vm_compute. discriminate.
  - intros Hset. specialize (Hset 3 Hp1). lia.
Defined.
