(* ===== verification/TwoPhase.v ===== *)
(** * Two-phase commit (synaptica-cluster: distributed_tx.rs)

    The write-ahead log of the coordinator, in memory and as lines of a file, and the coordinator:
    [begin_distributed_tx], [prepare], [commit], [abort], [recover] and [state]. Participants are
    the code behind the trait [ParticipantHandle]: a [Handle] answers each call with a function of
    everything the coordinator did before it, so the theorems hold for any behaviour of the
    participants, failures and changes of mind included. The history lists the log records and
    the calls in the order the coordinator makes them. Each operation is the composition of the
    pieces between which it releases its locks. *)
From S2P Require Import Prelude Rocks.

Abbreviation PartitionId := string.
Abbreviation DistributedTxId := string.

Inductive DistributedTxState : Type :=
| Initiated | Preparing | Prepared | Committing | Committed | Aborting | Aborted.
#[export] Instance DistributedTxState_eq_dec : EqDecision DistributedTxState.
Proof. solve_decision. Defined.
Inductive DistributedTxError : Type :=
| ParticipantFailed (p : PartitionId) | Timeout | AlreadyCommitted | AlreadyAborted | CoordinatorFailed.
#[export] Instance DistributedTxError_eq_dec : EqDecision DistributedTxError.
Proof. solve_decision. Defined.

(** ** DistributedTxLog *)
Inductive LogEntry : Type :=
| LPrepare (tx_id : DistributedTxId) (participants : list PartitionId)
| LCommit (tx_id : DistributedTxId)
| LAbort (tx_id : DistributedTxId).
#[export] Instance LogEntry_eq_dec : EqDecision LogEntry.
Proof. solve_decision. Defined.

(** serde_json on one entry *)
Class LogJson : Type := {
  json_to_string : LogEntry → option bytes;
  json_from_str : bytes → option LogEntry
}.
Definition newline : byte := Byte.x0a.
Definition carriage_return : byte := Byte.x0d.
(** The compact JSON of an entry is UTF-8, holds no control character (they are escaped) and
    parses back to the entry. *)
Class LogJsonLaws `{LogJson} : Prop :=
  json_roundtrip e : ∃ s, json_to_string e = Some s ∧ json_from_str s = Some e ∧
    newline ∉ s ∧ carriage_return ∉ s ∧ utf8_valid s = true.

(** The entries in memory, and the content of the file behind [wal_file]. *)
Record DistributedTxLog := mkLog { log_entries : list LogEntry; wal_file : option bytes }.
Definition log_new : DistributedTxLog := mkLog [] None.
(** [with_path] opens an existing file for appending and does not read it. *)
Definition with_path (existing : option bytes) : DistributedTxLog := mkLog [] (Some (default [] existing)).

(** [str::lines]: split at line feeds, drop the carriage return before one, no empty last line. *)
Definition strip_cr (line : bytes) : bytes :=
  match last line with
  | Some c => if decide (c = carriage_return) then take (length line - 1) line else line
  | None => line
  end.
Fixpoint lines_from (acc rest : bytes) : list bytes :=
  match rest with
  | [] => match acc with [] => [] | _ :: _ => [acc] end
  | c :: rest' => if decide (c = newline) then strip_cr acc :: lines_from [] rest' else lines_from (acc ++ [c]) rest'
  end.
Definition str_lines (s : bytes) : list bytes := lines_from [] s.

Section log.
Context `{LogJson}.
(** Lines that do not parse are skipped. A missing or ill-encoded file is an I/O error. *)
Definition recover_from_file (contents : option bytes) : option DistributedTxLog :=
  match contents with
  | Some c => if utf8_valid c then Some (mkLog (omap json_from_str (str_lines c)) (Some c)) else None
  | None => None
  end.
Definition persist_entry (entry : LogEntry) (file : option bytes) : option bytes :=
  match file, json_to_string entry with
  | Some f, Some json => Some (f ++ json ++ [newline])
  | _, _ => file
  end.
Definition log_append (entry : LogEntry) (l : DistributedTxLog) : DistributedTxLog :=
  mkLog (log_entries l ++ [entry]) (persist_entry entry (wal_file l)).
Definition log_prepare (tx_id : DistributedTxId) (participants : list PartitionId) (l : DistributedTxLog)
    : DistributedTxLog := log_append (LPrepare tx_id participants) l.
Definition log_commit (tx_id : DistributedTxId) (l : DistributedTxLog) : DistributedTxLog := log_append (LCommit tx_id) l.
Definition log_abort (tx_id : DistributedTxId) (l : DistributedTxLog) : DistributedTxLog := log_append (LAbort tx_id) l.
End log.

Definition doubt_step (prepared : gmap DistributedTxId bool) (entry : LogEntry) : gmap DistributedTxId bool :=
  match entry with
  | LPrepare tx _ => match prepared !! tx with Some _ => prepared | None => <[tx := true]> prepared end
  | LCommit tx | LAbort tx => <[tx := false]> prepared
  end.
Definition in_doubt_transactions (l : DistributedTxLog) : list DistributedTxId :=
  omap (λ e : DistributedTxId * bool, if e.2 then Some e.1 else None)
    (map_to_list (foldl doubt_step ∅ (log_entries l))).

(** ** TwoPhaseCoordinator *)
Inductive event : Type :=
| EvLog (entry : LogEntry)
| EvPrepare (p : PartitionId) (tx_id : DistributedTxId) (reply : result DistributedTxError bool)
| EvCommit (p : PartitionId) (tx_id : DistributedTxId) (reply : result DistributedTxError unit)
| EvAbort (p : PartitionId) (tx_id : DistributedTxId) (reply : result DistributedTxError unit).
#[export] Instance event_eq_dec : EqDecision event.
Proof. solve_decision. Defined.
Record Handle := mkHandle {
  handle_prepare : list event → DistributedTxId → result DistributedTxError bool;
  handle_commit : list event → DistributedTxId → result DistributedTxError unit;
  handle_abort : list event → DistributedTxId → result DistributedTxError unit
}.
Record TxRecord := mkTxRecord { state : DistributedTxState; participants : list PartitionId }.
Record Coordinator := mkCoordinator {
  next_id : Z;
  transactions : gmap DistributedTxId TxRecord;
  log : DistributedTxLog;
  history : list event
}.
(** [TwoPhaseCoordinator::new]: the log is always the one without a file. *)
Definition Coordinator_new : Coordinator := mkCoordinator 1 ∅ log_new [].

Definition dtx_id (n : Z) : DistributedTxId := "dtx-" +:+ pretty n.
Definition set_record (c : Coordinator) (tx : DistributedTxId) (r : TxRecord) : Coordinator :=
  mkCoordinator (next_id c) (<[tx := r]> (transactions c)) (log c) (history c).
Definition add_event (c : Coordinator) (ev : event) : Coordinator :=
  mkCoordinator (next_id c) (transactions c) (log c) (history c ++ [ev]).
Definition set_tx_state (c : Coordinator) (tx : DistributedTxId) (s : DistributedTxState) : Coordinator :=
  mkCoordinator (next_id c) (alter (λ r, mkTxRecord s (participants r)) tx (transactions c)) (log c) (history c).

Definition begin_distributed_tx (c : Coordinator) : Coordinator * DistributedTxId :=
  let id := dtx_id (next_id c) in
  (mkCoordinator (wrap64 (next_id c + 1)) (<[id := mkTxRecord Initiated []]> (transactions c)) (log c) (history c), id).

Section coordinator.
Context `{LogJson} (handles : gmap PartitionId Handle).

Definition write_log (c : Coordinator) (entry : LogEntry) : Coordinator :=
  mkCoordinator (next_id c) (transactions c) (log_append entry (log c)) (history c ++ [EvLog entry]).

(** prepare: the state check and change, ... *)
Definition prepare_start (c : Coordinator) (tx : DistributedTxId) (ids : list PartitionId)
    : result DistributedTxError Coordinator :=
  match transactions c !! tx with
  | None => Err CoordinatorFailed
  | Some r =>
      match state r with
      | Initiated => Ok (set_record c tx (mkTxRecord Preparing ids))
      | Committed => Err AlreadyCommitted
      | Aborted => Err AlreadyAborted
      | _ => Err CoordinatorFailed
      end
  end.
(** ... the votes, until the first that is not a yes, ... *)
Fixpoint prepare_loop (c : Coordinator) (tx : DistributedTxId) (ids : list PartitionId)
    : Coordinator * result DistributedTxError bool :=
  match ids with
  | [] => (c, Ok true)
  | pid :: ids' =>
      match handles !! pid with
      | None => (c, Err (ParticipantFailed pid))
      | Some h =>
          let reply := handle_prepare h (history c) tx in
          let c' := add_event c (EvPrepare pid tx reply) in
          match reply with
          | Ok true => prepare_loop c' tx ids'
          | Ok false => (c', Ok false)
          | Err e => (c', Err e)
          end
      end
  end.
(** ... and the last state change, which does not look at the state it overwrites. *)
Definition prepare_finish (c : Coordinator) (tx : DistributedTxId) (all_yes : bool) : Coordinator :=
  set_tx_state c tx (if all_yes then Prepared else Preparing).
Definition prepare (c : Coordinator) (tx : DistributedTxId) (ids : list PartitionId)
    : Coordinator * result DistributedTxError bool :=
  match prepare_start c tx ids with
  | Err e => (c, Err e)
  | Ok c1 =>
      match prepare_loop (write_log c1 (LPrepare tx ids)) tx ids with
      | (c2, Err e) => (c2, Err e)
      | (c2, Ok all_yes) => (prepare_finish c2 tx all_yes, Ok all_yes)
      end
  end.

Definition commit_start (c : Coordinator) (tx : DistributedTxId)
    : result DistributedTxError (Coordinator * list PartitionId) :=
  match transactions c !! tx with
  | None => Err CoordinatorFailed
  | Some r =>
      match state r with
      | Prepared => Ok (set_record c tx (mkTxRecord Committing (participants r)), participants r)
      | Committed => Err AlreadyCommitted
      | Aborted => Err AlreadyAborted
      | _ => Err CoordinatorFailed
      end
  end.
(** Stops at the first participant that is unknown or fails. *)
Fixpoint commit_loop (c : Coordinator) (tx : DistributedTxId) (ids : list PartitionId)
    : Coordinator * result DistributedTxError unit :=
  match ids with
  | [] => (c, Ok tt)
  | pid :: ids' =>
      match handles !! pid with
      | None => (c, Err (ParticipantFailed pid))
      | Some h =>
          let reply := handle_commit h (history c) tx in
          let c' := add_event c (EvCommit pid tx reply) in
          match reply with
          | Ok _ => commit_loop c' tx ids'
          | Err e => (c', Err e)
          end
      end
  end.
Definition commit (c : Coordinator) (tx : DistributedTxId) : Coordinator * result DistributedTxError unit :=
  match commit_start c tx with
  | Err e => (c, Err e)
  | Ok (c1, ids) =>
      match commit_loop (write_log c1 (LCommit tx)) tx ids with
      | (c2, Err e) => (c2, Err e)
      | (c2, Ok _) => (set_tx_state c2 tx Committed, Ok tt)
      end
  end.

Definition abort_start (c : Coordinator) (tx : DistributedTxId)
    : result DistributedTxError (Coordinator * list PartitionId) :=
  match transactions c !! tx with
  | None => Err CoordinatorFailed
  | Some r =>
      match state r with
      | Committed => Err AlreadyCommitted
      | Aborted => Err AlreadyAborted
      | _ => Ok (set_record c tx (mkTxRecord Aborting (participants r)), participants r)
      end
  end.
(** Unknown participants are skipped and failures ignored. *)
Fixpoint abort_loop (c : Coordinator) (tx : DistributedTxId) (ids : list PartitionId) : Coordinator :=
  match ids with
  | [] => c
  | pid :: ids' =>
      match handles !! pid with
      | None => abort_loop c tx ids'
      | Some h => abort_loop (add_event c (EvAbort pid tx (handle_abort h (history c) tx))) tx ids'
      end
  end.
Definition abort (c : Coordinator) (tx : DistributedTxId) : Coordinator * result DistributedTxError unit :=
  match abort_start c tx with
  | Err e => (c, Err e)
  | Ok (c1, ids) => (set_tx_state (abort_loop (write_log c1 (LAbort tx)) tx ids) tx Aborted, Ok tt)
  end.

Definition recover (c : Coordinator) : list DistributedTxId := in_doubt_transactions (log c).
Definition tx_status (c : Coordinator) (tx : DistributedTxId) : option DistributedTxState :=
  state <$> transactions c !! tx.

(** Calls, one after the other: each runs to its end before the next. Calls that overlap are in
    [Threads.v]. *)
Inductive coord_op : Type :=
| OpBegin
| OpPrepare (tx : DistributedTxId) (ids : list PartitionId)
| OpCommit (tx : DistributedTxId)
| OpAbort (tx : DistributedTxId).
Definition coord_step (c : Coordinator) (op : coord_op) : Coordinator :=
  match op with
  | OpBegin => (begin_distributed_tx c).1
  | OpPrepare tx ids => (prepare c tx ids).1
  | OpCommit tx => (commit c tx).1
  | OpAbort tx => (abort c tx).1
  end.
Definition coord_run (c : Coordinator) (ops : list coord_op) : Coordinator := foldl coord_step c ops.
End coordinator.

(** ** In-doubt transactions *)
Definition decided (es : list LogEntry) (tx : DistributedTxId) : Prop := LCommit tx ∈ es ∨ LAbort tx ∈ es.
Lemma doubt_lookup es tx (b : bool) : foldl doubt_step ∅ es !! tx = Some b ↔
  (if b then (∃ ids, LPrepare tx ids ∈ es) ∧ ¬ decided es tx else decided es tx).
Proof.
  unfold decided. revert b. induction es as [|e es IH] using rev_ind; intros b.
  { cbn. rewrite lookup_empty. destruct b; setoid_rewrite elem_of_nil; naive_solver. }
  rewrite foldl_app. cbn.
  set (m := foldl doubt_step ∅ es) in *.
  assert (m !! tx = None ↔ (¬ ∃ ids, LPrepare tx ids ∈ es) ∧ ¬ (LCommit tx ∈ es ∨ LAbort tx ∈ es)) as HN.
  { pose proof (IH true) as IHt. pose proof (IH false) as IHf. destruct (m !! tx) as [[]|] eqn:E.
    - split; [done|]. destruct IHt as [[? _] _]; [done|]. tauto.
    - split; [done|]. destruct IHf as [? _]; tauto.
    - split; [intros _|done]. destruct (decide (LCommit tx ∈ es ∨ LAbort tx ∈ es)) as [Hd|Hd].
      { by apply IHf in Hd. } split; [|done]. intros Hp. destruct IHt as [_ IHt]. by specialize (IHt (conj Hp Hd)). }
  assert (∀ e', e' ∈ es ++ [e] ↔ e' ∈ es ∨ e' = e) as Hin by (intros; by rewrite elem_of_app, list_elem_of_singleton).
  destruct e as [tx' ids|tx'|tx']; cbn.
  - destruct (decide (tx' = tx)) as [->|Hne].
    + destruct (m !! tx) as [b'|] eqn:E; cbn.
      * rewrite E. pose proof (proj1 (IH b') eq_refl) as Hb. destruct b, b'; setoid_rewrite Hin; naive_solver.
      * rewrite lookup_insert_eq. destruct HN as [HN _]. destruct HN; [done|].
        destruct b; setoid_rewrite Hin; naive_solver.
    + assert ((match m !! tx' with Some _ => m | None => <[tx':=true]> m end) !! tx = m !! tx) as ->
        by (destruct (m !! tx'); [done|by rewrite lookup_insert_ne]).
      rewrite IH. destruct b; setoid_rewrite Hin; naive_solver.
  - destruct (decide (tx' = tx)) as [->|Hne]; [rewrite lookup_insert_eq|rewrite lookup_insert_ne by done; rewrite IH];
      destruct b; setoid_rewrite Hin; naive_solver.
  - destruct (decide (tx' = tx)) as [->|Hne]; [rewrite lookup_insert_eq|rewrite lookup_insert_ne by done; rewrite IH];
      destruct b; setoid_rewrite Hin; naive_solver.
Qed.
Lemma in_doubt_iff l tx : tx ∈ in_doubt_transactions l ↔
  (∃ ids, LPrepare tx ids ∈ log_entries l) ∧ ¬ decided (log_entries l) tx.
Proof.
  unfold in_doubt_transactions. rewrite list_elem_of_omap. rewrite <- (doubt_lookup _ tx true). split.
  - intros ([tx' []] & Hin & [= ->]). by apply elem_of_map_to_list in Hin.
  - intros Hl. exists (tx, true). by rewrite elem_of_map_to_list.
Qed.
Lemma in_doubt_NoDup l : NoDup (in_doubt_transactions l).
Proof.
  unfold in_doubt_transactions. generalize (NoDup_fst_map_to_list (foldl doubt_step ∅ (log_entries l))).
  induction (map_to_list _) as [|[tx b] m IH]; cbn; [constructor|]. intros [Hn Hd]%NoDup_cons.
  destruct b; cbn; [|auto]. constructor; [|auto]. intros ([tx' b'] & Hin & Hb)%list_elem_of_omap.
  destruct b'; [|done]. injection Hb as ->. apply Hn. by apply (list_elem_of_fmap_2 fst) in Hin.
Qed.

(** ** The protocol, as a property of histories *)
Definition ev_tx (ev : event) : DistributedTxId :=
  match ev with
  | EvLog (LPrepare tx _) | EvLog (LCommit tx) | EvLog (LAbort tx)
  | EvPrepare _ tx _ | EvCommit _ tx _ | EvAbort _ tx _ => tx
  end.
Definition logged (h : list event) (e : LogEntry) : Prop := EvLog e ∈ h.
(** Every participant of the transaction has voted yes. *)
Definition unanimous (h : list event) (tx : DistributedTxId) (ids : list PartitionId) : Prop :=
  ∀ p, p ∈ ids → EvPrepare p tx (Ok true) ∈ h.
(** What must have happened before an event. *)
Definition justified (h : list event) (ev : event) : Prop :=
  match ev with
  | EvLog (LPrepare tx _) => ∀ ev', ev' ∈ h → ev_tx ev' ≠ tx
  | EvLog (LCommit tx) =>
      ¬ logged h (LCommit tx) ∧ ¬ logged h (LAbort tx) ∧ ∃ ids, logged h (LPrepare tx ids) ∧ unanimous h tx ids
  | EvLog (LAbort tx) => ¬ logged h (LAbort tx)
  | EvPrepare p tx _ =>
      ¬ logged h (LCommit tx) ∧ ¬ logged h (LAbort tx) ∧ ∃ ids, logged h (LPrepare tx ids) ∧ p ∈ ids
  | EvCommit p tx _ =>
      logged h (LCommit tx) ∧ ¬ logged h (LAbort tx) ∧ ∃ ids, logged h (LPrepare tx ids) ∧ p ∈ ids
  | EvAbort p tx _ => logged h (LAbort tx)
  end.
Definition protocol (h : list event) : Prop := ∀ h1 ev h2, h = h1 ++ ev :: h2 → justified h1 ev.

Lemma protocol_snoc h ev : protocol h → justified h ev → protocol (h ++ [ev]).
Proof.
  intros Hp Hj h1 ev' h2 E. destruct h2 as [|x h2 _] using rev_ind.
  - apply app_inj_tail in E as [-> ->]. done.
  - rewrite app_comm_cons, app_assoc in E. apply app_inj_tail in E as [-> _]. by eapply Hp.
Qed.
(** Calls to participants do not disturb what justifies further calls. *)
Definition is_call (ev : event) : Prop := match ev with EvLog _ => False | _ => True end.
Lemma logged_call h ev e : is_call ev → logged (h ++ [ev]) e ↔ logged h e.
Proof. unfold logged. rewrite elem_of_app, list_elem_of_singleton. destruct ev; naive_solver. Qed.
Lemma justified_call h ev ev' : is_call ev → is_call ev' → justified h ev → justified (h ++ [ev']) ev.
Proof.
  intros Hc Hc' Hj. destruct ev as [e|p tx r|p tx r|p tx r]; [done|..]; cbn in *;
    setoid_rewrite logged_call; try done; naive_solver.
Qed.
Lemma protocol_calls h evs : protocol h → Forall (λ ev, is_call ev ∧ justified h ev) evs → protocol (h ++ evs).
Proof.
  intros Hp Hall. revert h Hp Hall. induction evs as [|ev evs IH]; intros h Hp Hall; [by rewrite app_nil_r|].
  apply Forall_cons in Hall as [[Hc Hj] Hall]. rewrite cons_middle, app_assoc. apply IH; [by apply protocol_snoc|].
  eapply Forall_impl; [exact Hall|]. intros ev' [? ?]. split; [done|by apply justified_call].
Qed.

(** What the history says about a transaction in each state (between calls). *)
Definition state_ok (h : list event) (tx : DistributedTxId) (r : TxRecord) : Prop :=
  match state r with
  | Initiated => ∀ ev, ev ∈ h → ev_tx ev ≠ tx
  | Preparing => logged h (LPrepare tx (participants r)) ∧ ¬ logged h (LCommit tx) ∧ ¬ logged h (LAbort tx)
  | Prepared => logged h (LPrepare tx (participants r)) ∧ ¬ logged h (LCommit tx) ∧ ¬ logged h (LAbort tx) ∧
      unanimous h tx (participants r)
  | Committing | Committed => logged h (LPrepare tx (participants r)) ∧ logged h (LCommit tx) ∧ ¬ logged h (LAbort tx) ∧
      unanimous h tx (participants r)
  | Aborting => False
  | Aborted => logged h (LAbort tx)
  end.
Definition log_record (ev : event) : option LogEntry := match ev with EvLog e => Some e | _ => None end.
Record coord_inv (c : Coordinator) : Prop := {
  inv_next : 1 ≤ next_id c;
  inv_fresh k : next_id c ≤ k → transactions c !! dtx_id k = None;
  inv_unknown tx : transactions c !! tx = None → ∀ ev, ev ∈ history c → ev_tx ev ≠ tx;
  inv_state tx r : transactions c !! tx = Some r → state_ok (history c) tx r;
  inv_log : log_entries (log c) = omap log_record (history c);
  inv_protocol : protocol (history c)
}.
Lemma dtx_id_inj n m : dtx_id n = dtx_id m → n = m.
Proof. unfold dtx_id. intros E. apply (inj (String.append "dtx-")) in E. by apply (inj pretty) in E. Qed.
Lemma coord_inv_new : coord_inv Coordinator_new.
Proof.
  split; cbn; try done.
  - by intros tx _ ev ?%elem_of_nil.
  - by intros [] ev h2.
Qed.
(** An operation that changes one record and adds events of its transaction. *)
Lemma coord_inv_extend c tx r r' l evs :
  coord_inv c → transactions c !! tx = Some r → Forall (λ ev, ev_tx ev = tx) evs →
  log_entries l = log_entries (log c) ++ omap log_record evs →
  protocol (history c ++ evs) → state_ok (history c ++ evs) tx r' →
  coord_inv (mkCoordinator (next_id c) (<[tx := r']> (transactions c)) l (history c ++ evs)).
Proof.
  intros Hi Htx Hevs Hl Hp Hs. rewrite Forall_forall in Hevs. split; cbn.
  - by apply inv_next.
  - intros k Hk. rewrite lookup_insert_ne; [by apply inv_fresh|]. intros ->. by rewrite inv_fresh in Htx.
  - intros tx' [Htx' ?]%lookup_insert_None ev [Hev|Hev]%elem_of_app; [by eapply inv_unknown|].
    by rewrite (Hevs _ Hev).
  - intros tx' r0 [[<- <-]|[Hne Hl0]]%lookup_insert_Some; [done|].
    assert (∀ ev, ev_tx ev = tx' → ev ∈ history c ++ evs ↔ ev ∈ history c) as Hin.
    { intros ev He. rewrite elem_of_app. split; [intros [?|Hev]; [done|]|by left]. apply Hevs in Hev. congruence. }
    pose proof (inv_state _ Hi tx' r0 Hl0) as Hst. unfold state_ok, logged, unanimous in *.
    destruct (state r0); try done; try (rewrite !Hin by done; try setoid_rewrite Hin; done).
    + intros ev Hev. destruct (decide (ev_tx ev = tx')) as [He|]; [|done]. apply Hst. by apply Hin.
  - by rewrite Hl, omap_app, inv_log.
  - done.
Qed.

(** ** What each operation does *)
Section operations.
Context `{LogJson} (handles : gmap PartitionId Handle).
Implicit Types (c : Coordinator) (tx : DistributedTxId) (ids : list PartitionId).

Definition with_history c (h : list event) : Coordinator := mkCoordinator (next_id c) (transactions c) (log c) h.
Lemma prepare_loop_spec c tx ids c' r : prepare_loop handles c tx ids = (c', r) →
  ∃ evs, c' = with_history c (history c ++ evs) ∧
    Forall (λ ev, ∃ p reply, ev = EvPrepare p tx reply ∧ p ∈ ids) evs ∧
    (r = Ok true → evs = (λ p, EvPrepare p tx (Ok true)) <$> ids ∧ ∀ p, p ∈ ids → is_Some (handles !! p)).
Proof.
  revert c. induction ids as [|p ids IH]; intros c; cbn.
  { intros [= <- <-]. exists []. rewrite app_nil_r. split_and!; [by destruct c|constructor|].
    intros _. split; [done|]. by intros p ?%elem_of_nil. }
  destruct (handles !! p) as [h|] eqn:Hh.
  2: { intros [= <- <-]. exists []. rewrite app_nil_r. split_and!; [by destruct c|constructor|done]. }
  destruct (handle_prepare h (history c) tx) as [[]|e].
  - intros (evs & -> & Hall & Hr)%IH. eexists (_ :: evs). unfold with_history. cbn. rewrite <- app_assoc.
    split_and!; [done| |].
    + constructor; [do 2 eexists; split; [done|left]|]. eapply Forall_impl; [exact Hall|].
      intros ev (q & reply & -> & ?). do 2 eexists. split; [done|by right].
    + intros Ht. destruct (Hr Ht) as [-> Hk]. split; [done|]. intros q [->|Hq]%elem_of_cons; eauto.
  - intros [= <- <-]. eexists [_]. split_and!; [done| |done]. repeat constructor. do 2 eexists. split; [done|left].
  - intros [= <- <-]. eexists [_]. split_and!; [done| |done]. repeat constructor. do 2 eexists. split; [done|left].
Qed.
Lemma commit_loop_spec c tx ids c' r : commit_loop handles c tx ids = (c', r) →
  ∃ evs, c' = with_history c (history c ++ evs) ∧
    Forall (λ ev, ∃ p reply, ev = EvCommit p tx reply ∧ p ∈ ids) evs ∧
    (r = Ok tt → evs = (λ p, EvCommit p tx (Ok tt)) <$> ids ∧ ∀ p, p ∈ ids → is_Some (handles !! p)).
Proof.
  revert c. induction ids as [|p ids IH]; intros c; cbn.
  { intros [= <- <-]. exists []. rewrite app_nil_r. split_and!; [by destruct c|constructor|].
    intros _. split; [done|]. by intros p ?%elem_of_nil. }
  destruct (handles !! p) as [h|] eqn:Hh.
  2: { intros [= <- <-]. exists []. rewrite app_nil_r. split_and!; [by destruct c|constructor|done]. }
  destruct (handle_commit h (history c) tx) as [[]|e].
  - intros (evs & -> & Hall & Hr)%IH. eexists (_ :: evs). unfold with_history. cbn. rewrite <- app_assoc.
    split_and!; [done| |].
    + constructor; [do 2 eexists; split; [done|left]|]. eapply Forall_impl; [exact Hall|].
      intros ev (q & reply & -> & ?). do 2 eexists. split; [done|by right].
    + intros Ht. destruct (Hr Ht) as [-> Hk]. split; [done|]. intros q [->|Hq]%elem_of_cons; eauto.
  - intros [= <- <-]. eexists [_]. split_and!; [done| |done]. repeat constructor. do 2 eexists. split; [done|left].
Qed.
(** The known participants, in order, each told to abort whatever it answers. *)
Definition abort_party (ev : event) : option PartitionId := match ev with EvAbort p _ _ => Some p | _ => None end.
Lemma abort_loop_spec c tx ids :
  ∃ evs, abort_loop handles c tx ids = with_history c (history c ++ evs) ∧
    Forall (λ ev, ∃ p reply, ev = EvAbort p tx reply) evs ∧
    omap abort_party evs = filter (λ p, is_Some (handles !! p)) ids.
Proof.
  revert c. induction ids as [|p ids IH]; intros c.
  { exists []. rewrite app_nil_r. split_and!; [by destruct c|constructor|done]. }
  rewrite filter_cons. cbn [abort_loop]. destruct (handles !! p) as [h|] eqn:Hh.
  - edestruct IH as (evs & -> & Hall & Hf). eexists (_ :: evs). unfold with_history. cbn. rewrite <- app_assoc.
    split_and!; [done|constructor; eauto|]. rewrite decide_True by done. cbn. by rewrite <- Hf.
  - edestruct IH as (evs & -> & Hall & Hf). exists evs. split_and!; [done..|]. rewrite decide_False; [done|]. by intros [].
Qed.

Lemma prepare_cases c tx ids : let '(c', r) := prepare handles c tx ids in
  (c' = c ∧ is_err r = true ∧ tx_status c tx ≠ Some Initiated) ∨
  (∃ evs rec, transactions c !! tx = Some rec ∧ state rec = Initiated ∧
    Forall (λ ev, ∃ p reply, ev = EvPrepare p tx reply ∧ p ∈ ids) evs ∧
    (r = Ok true → evs = (λ p, EvPrepare p tx (Ok true)) <$> ids ∧ ∀ p, p ∈ ids → is_Some (handles !! p)) ∧
    c' = mkCoordinator (next_id c)
      (<[tx := mkTxRecord (if decide (r = Ok true) then Prepared else Preparing) ids]> (transactions c))
      (log_append (LPrepare tx ids) (log c)) (history c ++ EvLog (LPrepare tx ids) :: evs)).
Proof.
  unfold prepare, prepare_start, tx_status. destruct (transactions c !! tx) as [rec|] eqn:Htx; [|by left].
  destruct (state rec) eqn:Hst; cbn; try (left; rewrite ?Hst; done). rewrite ?Hst.
  destruct (prepare_loop _ _ _ _) as [c2 r] eqn:Hl.
  apply prepare_loop_spec in Hl as (evs & -> & Hall & Hr). cbn in *.
  destruct r as [b|e]; cbn; right; exists evs, rec; rewrite <- app_assoc; cbn; (split_and!; [done..| |]); try done.
  unfold prepare_finish, set_tx_state. cbn. f_equal. rewrite alter_insert_eq. cbn. by destruct b.
Qed.
Lemma commit_cases c tx : let '(c', r) := commit handles c tx in
  (c' = c ∧ is_err r = true ∧ tx_status c tx ≠ Some Prepared) ∨
  (∃ evs rec, transactions c !! tx = Some rec ∧ state rec = Prepared ∧
    Forall (λ ev, ∃ p reply, ev = EvCommit p tx reply ∧ p ∈ participants rec) evs ∧
    (r = Ok tt → evs = (λ p, EvCommit p tx (Ok tt)) <$> participants rec ∧
      ∀ p, p ∈ participants rec → is_Some (handles !! p)) ∧
    c' = mkCoordinator (next_id c)
      (<[tx := mkTxRecord (if decide (r = Ok tt) then Committed else Committing) (participants rec)]> (transactions c))
      (log_append (LCommit tx) (log c)) (history c ++ EvLog (LCommit tx) :: evs)).
Proof.
  unfold commit, commit_start, tx_status. destruct (transactions c !! tx) as [rec|] eqn:Htx; [|by left].
  destruct (state rec) eqn:Hst; cbn; try (left; rewrite ?Hst; done). rewrite ?Hst.
  destruct (commit_loop _ _ _ _) as [c2 r] eqn:Hl.
  apply commit_loop_spec in Hl as (evs & -> & Hall & Hr). cbn in *.
  destruct r as [[]|e]; cbn; right; exists evs, rec; rewrite <- app_assoc; cbn; (split_and!; [done..| |]); try done.
  unfold set_tx_state. cbn. f_equal. by rewrite alter_insert_eq.
Qed.
Lemma abort_cases c tx : let '(c', r) := abort handles c tx in
  (c' = c ∧ is_err r = true ∧ (tx_status c tx = None ∨ tx_status c tx = Some Committed ∨ tx_status c tx = Some Aborted)) ∨
  (∃ evs rec, transactions c !! tx = Some rec ∧ state rec ≠ Committed ∧ state rec ≠ Aborted ∧
    Forall (λ ev, ∃ p reply, ev = EvAbort p tx reply) evs ∧
    omap abort_party evs = filter (λ p, is_Some (handles !! p)) (participants rec) ∧ r = Ok tt ∧
    c' = mkCoordinator (next_id c) (<[tx := mkTxRecord Aborted (participants rec)]> (transactions c))
      (log_append (LAbort tx) (log c)) (history c ++ EvLog (LAbort tx) :: evs)).
Proof.
  unfold abort, abort_start, tx_status. destruct (transactions c !! tx) as [rec|] eqn:Htx; [|cbn; auto].
  destruct (state rec) eqn:Hst; cbn; rewrite ?Hst; try (left; by auto); right;
    (edestruct abort_loop_spec as (evs & -> & Hall & Hf)); exists evs, rec; rewrite <- ?app_assoc; cbn;
    (split_and!; [try done; by rewrite Hst..|]);
    unfold set_tx_state; cbn; f_equal; try (by rewrite <- app_assoc); by rewrite alter_insert_eq.
Qed.
End operations.

(** ** The invariant is preserved *)
Section invariant.
Context `{LogJson} (handles : gmap PartitionId Handle).
Implicit Types (c : Coordinator) (tx : DistributedTxId) (ids : list PartitionId).

Lemma logged_app h e evs e' : logged (h ++ e :: evs) e' ↔ logged h e' ∨ e = EvLog e' ∨ logged evs e'.
Proof. unfold logged. rewrite elem_of_app, elem_of_cons. naive_solver. Qed.
Lemma logged_snoc h e e' : logged (h ++ [EvLog e]) e' ↔ logged h e' ∨ e' = e.
Proof. unfold logged. rewrite elem_of_app, list_elem_of_singleton. naive_solver. Qed.
Lemma logged_calls (evs : list event) e : Forall is_call evs → ¬ logged evs e.
Proof. intros Hall Hin. rewrite Forall_forall in Hall. by apply (Hall (EvLog e)). Qed.
Lemma omap_log_calls evs : Forall is_call evs → omap log_record evs = [].
Proof. induction 1 as [|[] evs ? ? IH]; cbn; done. Qed.
Lemma coord_begin_inv c : coord_inv c → next_id c < u64_max → coord_inv (begin_distributed_tx c).1.
Proof.
  intros Hi Hn. pose proof (inv_next _ Hi). assert (wrap64 (next_id c + 1) = next_id c + 1) as E.
  { unfold wrap64. apply Z.mod_small. unfold u64_max in Hn. lia. }
  unfold begin_distributed_tx. cbn [fst]. rewrite E. split; cbn [next_id transactions history log].
  - lia.
  - intros k Hk. rewrite lookup_insert_ne; [apply inv_fresh; [done|lia]|]. intros Heq%dtx_id_inj. lia.
  - intros tx [? ?]%lookup_insert_None. by apply inv_unknown.
  - intros tx r [[<- <-]|[? ?]]%lookup_insert_Some; [|by apply inv_state]. cbn. apply inv_unknown; [done|].
    by apply inv_fresh.
  - by apply inv_log.
  - by apply inv_protocol.
Qed.
Lemma coord_prepare_inv c tx ids : coord_inv c → coord_inv (prepare handles c tx ids).1.
Proof.
  intros Hi. pose proof (prepare_cases handles c tx ids) as Hc. destruct (prepare _ _ _ _) as [c' r].
  destruct Hc as [(-> & _)|(evs & rec & Htx & Hst & Hall & Hok & ->)]; [done|]. cbn [fst].
  pose proof (inv_state _ Hi _ _ Htx) as Hs. unfold state_ok in Hs. rewrite Hst in Hs.
  assert (Forall is_call evs) as Hcalls by (eapply Forall_impl; [exact Hall|]; by intros ? (?&?&->&_)).
  assert (∀ e, logged (history c) e → ev_tx (EvLog e) ≠ tx) as Hno by (intros e He; by apply (Hs (EvLog e))).
  eapply coord_inv_extend; [done..| | | |].
  - constructor; [done|]. eapply Forall_impl; [exact Hall|]. by intros ? (?&?&->&_).
  - cbn. by rewrite omap_log_calls.
  - rewrite cons_middle, app_assoc. apply protocol_calls; [apply protocol_snoc; [by apply inv_protocol|exact Hs]|].
    eapply Forall_impl; [exact Hall|]. intros ? (p & reply & -> & Hp). split; [done|]. cbn.
    rewrite !logged_snoc. split_and!; [intros [Hl|?]; [by apply Hno in Hl|done]..|]. exists ids. rewrite logged_snoc. auto.
  - assert (∀ e, ev_tx (EvLog e) = tx → e ≠ LPrepare tx ids → ¬ logged (history c ++ EvLog (LPrepare tx ids) :: evs) e) as Hnl.
    { intros e He Hne [?|[?|?]]%logged_app; [by eapply Hno|congruence|by eapply logged_calls]. }
    unfold state_ok. destruct (decide (r = Ok true)) as [Hr|]; cbn; rewrite logged_app; (split_and!; [by auto|..]); try by apply Hnl.
    destruct (Hok Hr) as [-> _]. intros p Hp. apply elem_of_app. right. apply elem_of_cons. right.
    apply list_elem_of_fmap. by exists p.
Qed.
Lemma coord_commit_inv c tx : coord_inv c → coord_inv (commit handles c tx).1.
Proof.
  intros Hi. pose proof (commit_cases handles c tx) as Hc. destruct (commit _ _ _) as [c' r].
  destruct Hc as [(-> & _)|(evs & rec & Htx & Hst & Hall & Hok & ->)]; [done|]. cbn [fst].
  pose proof (inv_state _ Hi _ _ Htx) as Hs. unfold state_ok in Hs. rewrite Hst in Hs. destruct Hs as (Hp & Hnc & Hna & Hu).
  assert (Forall is_call evs) as Hcalls by (eapply Forall_impl; [exact Hall|]; by intros ? (?&?&->&_)).
  eapply coord_inv_extend; [done..| | | |].
  - constructor; [done|]. eapply Forall_impl; [exact Hall|]. by intros ? (?&?&->&_).
  - cbn. by rewrite omap_log_calls.
  - rewrite cons_middle, app_assoc. apply protocol_calls.
    { apply protocol_snoc; [by apply inv_protocol|]. cbn. eauto. }
    eapply Forall_impl; [exact Hall|]. intros ? (p & reply & -> & Hin). split; [done|]. cbn.
    rewrite !logged_snoc. split_and!; [by auto|by intros [?|?]|]. exists (participants rec). rewrite logged_snoc. auto.
  - assert (unanimous (history c ++ EvLog (LCommit tx) :: evs) tx (participants rec)) as Hu'.
    { intros p Hin. apply elem_of_app. left. by apply Hu. }
    assert (¬ logged (history c ++ EvLog (LCommit tx) :: evs) (LAbort tx)) as Hna'.
    { intros [?|[?|?]]%logged_app; [done..|]. by eapply logged_calls. }
    unfold state_ok. destruct (decide (r = Ok tt)); cbn; rewrite !logged_app; split_and!; auto; by rewrite <- logged_app.
Qed.
Lemma coord_abort_inv c tx : coord_inv c → coord_inv (abort handles c tx).1.
Proof.
  intros Hi. pose proof (abort_cases handles c tx) as Hc. destruct (abort _ _ _) as [c' r].
  destruct Hc as [(-> & _)|(evs & rec & Htx & Hst1 & Hst2 & Hall & _ & _ & ->)]; [done|]. cbn [fst].
  pose proof (inv_state _ Hi _ _ Htx) as Hs.
  assert (Forall is_call evs) as Hcalls by (eapply Forall_impl; [exact Hall|]; by intros ? (?&?&->)).
  assert (¬ logged (history c) (LAbort tx)) as Hna.
  { unfold state_ok in Hs. destruct (state rec); try done; try tauto. intros Hl. by apply Hs in Hl. }
  eapply coord_inv_extend; [done..| | | |].
  - constructor; [done|]. eapply Forall_impl; [exact Hall|]. by intros ? (?&?&->).
  - cbn. by rewrite omap_log_calls.
  - rewrite cons_middle, app_assoc. apply protocol_calls; [apply protocol_snoc; [by apply inv_protocol|done]|].
    eapply Forall_impl; [exact Hall|]. intros ? (p & reply & ->). split; [done|]. cbn. rewrite logged_snoc. auto.
  - unfold state_ok. cbn. rewrite logged_app. auto.
Qed.
Lemma coord_step_inv c op : coord_inv c → next_id c < u64_max →
  coord_inv (coord_step handles c op) ∧ next_id (coord_step handles c op) ≤ next_id c + 1.
Proof.
  intros Hi Hn. split.
  - destruct op; cbn; [by apply coord_begin_inv|by apply coord_prepare_inv|by apply coord_commit_inv|by apply coord_abort_inv].
  - pose proof (inv_next _ Hi). destruct op as [|tx ids|tx|tx]; cbn.
    + unfold wrap64. unfold u64_max in Hn. rewrite Z.mod_small; lia.
    + pose proof (prepare_cases handles c tx ids) as Hc. destruct (prepare _ _ _ _).
      destruct Hc as [(-> & _)|(?&?&?&?&?&?&->)]; cbn; lia.
    + pose proof (commit_cases handles c tx) as Hc. destruct (commit _ _ _).
      destruct Hc as [(-> & _)|(?&?&?&?&?&?&->)]; cbn; lia.
    + pose proof (abort_cases handles c tx) as Hc. destruct (abort _ _ _).
      destruct Hc as [(-> & _)|(?&?&?&?&?&?&?&?&->)]; cbn; lia.
Qed.
Lemma coord_run_inv ops c : coord_inv c → next_id c + Z.of_nat (length ops) ≤ u64_max → coord_inv (coord_run handles c ops).
Proof.
  revert c. induction ops as [|op ops IH]; intros c Hi Hn; cbn in *; [done|].
  destruct (coord_step_inv c op Hi) as [H1 H2]; [lia|]. apply IH; [done|lia].
Qed.
Lemma coord_reach_inv ops : Z.of_nat (length ops) < u64_max → coord_inv (coord_run handles Coordinator_new ops).
Proof. intros. apply coord_run_inv; [apply coord_inv_new|cbn; lia]. Qed.
(** A transaction is prepared once. *)
Lemma protocol_prepare_unique h tx ids1 ids2 : protocol h → logged h (LPrepare tx ids1) → logged h (LPrepare tx ids2) → ids1 = ids2.
Proof.
  intros Hp (h1 & h2 & ->)%list_elem_of_split H2. pose proof (Hp _ _ _ eq_refl) as Hj. cbn in Hj.
  apply elem_of_app in H2 as [H2|[H2|H2]%elem_of_cons]; [by apply Hj in H2|congruence|].
  apply list_elem_of_split in H2 as (h3 & h4 & ->).
  assert (h1 ++ EvLog (LPrepare tx ids1) :: h3 ++ EvLog (LPrepare tx ids2) :: h4 =
    (h1 ++ EvLog (LPrepare tx ids1) :: h3) ++ EvLog (LPrepare tx ids2) :: h4) as E by by rewrite <- app_assoc.
  pose proof (Hp _ _ _ E) as Hj2. cbn in Hj2. exfalso. apply (Hj2 (EvLog (LPrepare tx ids1))); [|done].
  apply elem_of_app. right. left.
Qed.
Lemma protocol_prefix h1 h2 : protocol (h1 ++ h2) → protocol h1.
Proof. intros Hp g1 ev g2 ->. apply (Hp g1 ev (g2 ++ h2)). by rewrite <- app_assoc. Qed.
Lemma protocol_commit h p tx reply h2 : protocol (h ++ EvCommit p tx reply :: h2) →
  ∃ ids, logged h (LPrepare tx ids) ∧ p ∈ ids ∧ unanimous h tx ids ∧ logged h (LCommit tx) ∧ ¬ logged h (LAbort tx).
Proof.
  intros Hp. destruct (Hp _ _ _ eq_refl) as (Hc & Hna & ids & Hids & Hin). exists ids. split_and!; try done.
  apply protocol_prefix in Hp. apply list_elem_of_split in Hc as (h3 & h4 & ->).
  destruct (Hp _ _ _ eq_refl) as (_ & _ & ids' & Hids' & Hu).
  assert (ids' = ids) as ->.
  { eapply protocol_prepare_unique; [done| |done]. apply elem_of_app. by left. }
  intros q Hq. apply elem_of_app. left. by apply Hu.
Qed.
End invariant.

(** ** The coordinator's guarantees *)
Section properties.
Context `{LogJson} (handles : gmap PartitionId Handle).
Implicit Types (c : Coordinator) (tx : DistributedTxId) (ids : list PartitionId).

(** the protocol is followed when calls run one after the other. Whatever the participants answer, in every sequence of calls the
    history is written ahead and in order: a participant is asked to prepare only after the
    prepare record, told to commit only after the commit record and never after an abort record,
    told to abort only after the abort record; and a participant is told to commit only if every
    participant of the transaction was asked and voted yes before. *)
Theorem sequential_protocol ops :
  Z.of_nat (length ops) < u64_max →
  let c := coord_run handles Coordinator_new ops in
  protocol (history c) ∧ log_entries (log c) = omap log_record (history c) ∧
  ∀ h p tx reply h', history c = h ++ EvCommit p tx reply :: h' →
    ∃ ids, logged h (LPrepare tx ids) ∧ p ∈ ids ∧ unanimous h tx ids ∧ logged h (LCommit tx) ∧ ¬ logged h (LAbort tx).
Proof.
  intros Hlen c. pose proof (coord_reach_inv handles ops Hlen) as Hi. split_and!; [by apply inv_protocol|by apply inv_log|].
  intros h p tx reply h' E. eapply protocol_commit. rewrite <- E. by apply inv_protocol.
Qed.

(** what success means. A successful commit starts from Prepared, logs the decision, tells
    every participant once and in order and each accepts, and ends in Committed. A unanimous
    prepare does the same with the votes. A successful abort starts from any state but the two
    final ones, logs the decision, tells every known participant in order whatever they answer,
    and ends in Aborted. In the final states every call is refused with its own error and changes
    nothing. *)
Theorem phases_reach_participants c tx ids :
  (∀ c', commit handles c tx = (c', Ok tt) → ∃ rec,
     transactions c !! tx = Some rec ∧ state rec = Prepared ∧ tx_status c' tx = Some Committed ∧
     history c' = history c ++ EvLog (LCommit tx) :: ((λ p, EvCommit p tx (Ok tt)) <$> participants rec)) ∧
  (∀ c', prepare handles c tx ids = (c', Ok true) →
     tx_status c tx = Some Initiated ∧ transactions c' !! tx = Some (mkTxRecord Prepared ids) ∧
     history c' = history c ++ EvLog (LPrepare tx ids) :: ((λ p, EvPrepare p tx (Ok true)) <$> ids)) ∧
  (∀ c', abort handles c tx = (c', Ok tt) → ∃ rec evs,
     transactions c !! tx = Some rec ∧ state rec ≠ Committed ∧ state rec ≠ Aborted ∧ tx_status c' tx = Some Aborted ∧
     history c' = history c ++ EvLog (LAbort tx) :: evs ∧
     omap abort_party evs = filter (λ p, is_Some (handles !! p)) (participants rec)) ∧
  (∀ s e, tx_status c tx = Some s → (s = Committed ∧ e = AlreadyCommitted) ∨ (s = Aborted ∧ e = AlreadyAborted) →
     prepare handles c tx ids = (c, Err e) ∧ commit handles c tx = (c, Err e) ∧ abort handles c tx = (c, Err e)).
Proof.
  unfold tx_status. split_and!.
  - intros c' Hc. pose proof (commit_cases handles c tx) as Hs. rewrite Hc in Hs.
    destruct Hs as [(_ & ? & _)|(evs & rec & Htx & Hst & _ & Hok & ->)]; [done|]. destruct (Hok eq_refl) as [-> _].
    exists rec. cbn. rewrite lookup_insert_eq. done.
  - intros c' Hc. pose proof (prepare_cases handles c tx ids) as Hs. rewrite Hc in Hs.
    destruct Hs as [(_ & ? & _)|(evs & rec & Htx & Hst & _ & Hok & ->)]; [done|]. destruct (Hok eq_refl) as [-> _].
    rewrite Htx. cbn. rewrite Hst, lookup_insert_eq. done.
  - intros c' Hc. pose proof (abort_cases handles c tx) as Hs. rewrite Hc in Hs.
    destruct Hs as [(_ & ? & _)|(evs & rec & Htx & ? & ? & _ & Hf & _ & ->)]; [done|].
    exists rec, evs. cbn. rewrite lookup_insert_eq. done.
  - intros s e Hs He. destruct (transactions c !! tx) as [rec|] eqn:Htx; [|done]. injection Hs as Hs.
    unfold prepare, prepare_start, commit, commit_start, abort, abort_start. rewrite Htx, Hs.
    by destruct He as [[-> ->]|[-> ->]].
Qed.

Definition pending c tx : Prop := tx_status c tx = Some Preparing ∨ tx_status c tx = Some Prepared.
Lemma recover_pending c tx : coord_inv c → tx ∈ recover c ↔ pending c tx.
Proof.
  intros Hi. unfold pending, recover, tx_status. rewrite in_doubt_iff. unfold decided. rewrite (inv_log _ Hi).
  assert (∀ e, e ∈ omap log_record (history c) ↔ logged (history c) e) as Hin.
  { intros e. unfold logged. rewrite list_elem_of_omap. split; [|intros; by exists (EvLog e)].
    intros ([] & Hev & He); try done. cbn in He. congruence. }
  setoid_rewrite Hin. destruct (transactions c !! tx) as [rec|] eqn:Htx; cbn.
  - pose proof (inv_state _ Hi _ _ Htx) as Hs. unfold state_ok in Hs. destruct (state rec) eqn:Hst; try naive_solver.
  - pose proof (inv_unknown _ Hi _ Htx) as Hu. split; [|naive_solver]. intros [[ids Hl] _]. by apply Hu in Hl.
Qed.

(** recovery is exact. [recover] lists, once each, exactly the transactions that are Preparing
    or Prepared; one whose commit failed half-way (Committing) is not listed. *)
Theorem recover_exact ops tx :
  Z.of_nat (length ops) < u64_max →
  let c := coord_run handles Coordinator_new ops in
  NoDup (recover c) ∧
  (tx ∈ recover c ↔ tx_status c tx = Some Preparing ∨ tx_status c tx = Some Prepared).
Proof. intros Hlen c. split; [apply in_doubt_NoDup|]. by apply recover_pending, coord_reach_inv. Qed.

(** Aborting a pending transaction ends it, tells its participants and touches no other transaction. *)
Definition told_abort (h : list event) tx (rec : TxRecord) : Prop :=
  ∀ p, p ∈ participants rec → is_Some (handles !! p) → ∃ reply, EvAbort p tx reply ∈ h.
Lemma abort_pending c tx : pending c tx →
  let c1 := (abort handles c tx).1 in
  tx_status c1 tx = Some Aborted ∧ (∀ tx', tx' ≠ tx → transactions c1 !! tx' = transactions c !! tx') ∧
  history c `prefix_of` history c1 ∧ ∀ rec, transactions c !! tx = Some rec → told_abort (history c1) tx rec.
Proof.
  intros Hs. pose proof (abort_cases handles c tx) as Hc. destruct (abort handles c tx) as [c1 r]. cbn [fst].
  destruct Hc as [(_ & _ & Hbad)|(evs & rec & Hrec & _ & _ & Hall & Hcalls & _ & ->)]; [unfold pending in Hs; naive_solver|].
  unfold tx_status. cbn. split_and!; [by rewrite lookup_insert_eq|intros; by apply lookup_insert_ne|by apply prefix_app_r|].
  intros rec' Hrec' p Hp Hh. replace rec' with rec in * by congruence.
  assert (p ∈ omap abort_party evs) as ([] & Hev & [= ->])%list_elem_of_omap by (rewrite Hcalls; by apply list_elem_of_filter).
  rewrite Forall_forall in Hall. destruct (Hall _ Hev) as (q & reply' & [= -> -> ->]).
  exists reply'. apply elem_of_app. right. right. exact Hev.
Qed.
Lemma abort_all l c : NoDup l → (∀ tx, tx ∈ l → pending c tx) →
  let c' := coord_run handles c (OpAbort <$> l) in
  (∀ tx, tx ∈ l → tx_status c' tx = Some Aborted) ∧
  (∀ tx, tx ∉ l → transactions c' !! tx = transactions c !! tx) ∧
  (∀ tx rec, tx ∈ l → transactions c !! tx = Some rec → told_abort (history c') tx rec) ∧
  history c `prefix_of` history c'.
Proof.
  revert c. induction l as [|t l IH]; intros c Hd Hst; cbn [fmap list_fmap].
  { cbn. split_and!; [intros ? []%elem_of_nil|done|intros ?? []%elem_of_nil|done]. }
  apply NoDup_cons in Hd as [Ht Hd]. cbn [coord_run foldl coord_step].
  destruct (abort_pending c t (Hst t (list_elem_of_here _ _))) as (Ha & Hne & Hp & Htold). cbv zeta in *.
  generalize dependent (abort handles c t).1. intros c1 Ha Hne Hp Htold. destruct (IH c1) as (H1 & H2 & H3 & H4); [done|..].
  { intros tx Htx. unfold pending, tx_status. rewrite Hne by set_solver. apply Hst. by right. }
  unfold coord_run in *. split_and!.
  - intros tx [->|Htx]%elem_of_cons; [|by apply H1]. unfold tx_status in *. by rewrite H2.
  - intros tx [? ?]%not_elem_of_cons. by rewrite H2, Hne.
  - intros tx rec [->|Htx]%elem_of_cons Hrec; [|apply H3; [done|by rewrite Hne by set_solver]].
    intros p Hin Hh. destruct (Htold rec Hrec p Hin Hh) as [reply Hev]. exists reply. by eapply elem_of_prefix.
  - by etrans.
Qed.
Lemma aborts_inv l c : coord_inv c → coord_inv (coord_run handles c (OpAbort <$> l)).
Proof. revert c. induction l as [|t l IH]; intros c Hi; [done|]. by apply IH, coord_abort_inv. Qed.
Lemma commit_loop_acknowledged tx ids c :
  (∀ p, p ∈ ids → ∃ h, handles !! p = Some h ∧ ∀ hist, handle_commit h hist tx = Ok tt) →
  (commit_loop handles c tx ids).2 = Ok tt.
Proof.
  revert c. induction ids as [|p ids IH]; intros c Hall; [done|]. destruct (Hall p (list_elem_of_here _ _)) as (h & Hh & Hr).
  cbn. rewrite Hh, Hr. apply IH. intros q Hq. apply Hall. by right.
Qed.

(** C33: No transaction stays in doubt. From every state that calls made one after the other can reach, whatever the participants
    answer and even if some of them are unknown or fail, aborting what recovery lists, one call for
    each, ends in a state where recovery lists nothing: each of these transactions is Aborted and
    every known participant of it has been told, and no other transaction has changed. A transaction
    that is Prepared can be committed instead: when its participants are known and acknowledge, one
    call makes it Committed. *)
Theorem no_transaction_stuck ops : Z.of_nat (length ops) < u64_max →
  let c := coord_run handles Coordinator_new ops in
  let c' := coord_run handles c (OpAbort <$> recover c) in
  recover c' = [] ∧
  (∀ tx rec, tx ∈ recover c → transactions c !! tx = Some rec →
     tx_status c' tx = Some Aborted ∧ told_abort (history c') tx rec) ∧
  (∀ tx, tx ∉ recover c → transactions c' !! tx = transactions c !! tx) ∧
  (∀ tx rec, tx_status c tx = Some Prepared → transactions c !! tx = Some rec →
     (∀ p, p ∈ participants rec → ∃ h, handles !! p = Some h ∧ ∀ hist, handle_commit h hist tx = Ok tt) →
     ∃ c2, commit handles c tx = (c2, Ok tt) ∧ tx_status c2 tx = Some Committed ∧ tx ∉ recover c2).
Proof.
  intros Hlen c c'. pose proof (coord_reach_inv handles ops Hlen) as Hi. fold c in Hi.
  destruct (abort_all (recover c) c) as (H1 & H2 & H3 & _);
    [apply in_doubt_NoDup|intros tx; by apply recover_pending|]. fold c' in H1, H2, H3.
  split_and!; [|by intros; split; [apply H1|apply H3]|exact H2|].
  - apply elem_of_nil_inv. intros tx Htx. pose proof (aborts_inv (recover c) c Hi) as Hi'. fold c' in Hi'.
    apply recover_pending in Htx; [|done]. destruct (decide (tx ∈ recover c)) as [Hin|Hin].
    + specialize (H1 tx Hin). unfold pending in Htx. naive_solver.
    + apply Hin, recover_pending; [done|]. unfold pending, tx_status in *. by rewrite H2 in Htx.
  - intros tx rec Hs Hrec Hall. pose proof (commit_cases handles c tx) as Hc.
    pose proof (coord_commit_inv handles c tx Hi) as Hi2. destruct (commit handles c tx) as [c2 r] eqn:Hrun.
    destruct Hc as [(_ & _ & Hbad)|(evs & rec' & Hrec' & _ & _ & _ & ->)]; [done|]. replace rec' with rec in * by congruence.
    assert (r = Ok tt) as ->.
    { unfold commit, commit_start in Hrun. unfold tx_status in Hs. rewrite Hrec in Hs, Hrun. injection Hs as Hs. rewrite Hs in Hrun.
      match type of Hrun with context [commit_loop ?h ?c1 ?t ?ids] => pose proof (commit_loop_acknowledged t ids c1 Hall) as Hl end.
      destruct (commit_loop _ _ _ _) as [c3 [u|e]]; [|done]. destruct u. congruence. }
    eexists. split; [done|]. assert (∀ c2, transactions c2 !! tx = Some (mkTxRecord Committed (participants rec)) → coord_inv c2 → 
      tx_status c2 tx = Some Committed ∧ tx ∉ recover c2) as Hfin.
    { intros c2 Htx Hi3. unfold tx_status. rewrite Htx. split; [done|]. rewrite recover_pending by done.
      unfold pending, tx_status. rewrite Htx. cbn. naive_solver. }
    apply Hfin; [|done]. cbn. apply lookup_insert_eq.
Qed.

(** a commit that fails half-way splits the transaction. The decision is logged, the state
    stays Committing, commit cannot be called again and the transaction is not in doubt, so only
    abort is left; abort succeeds, logs a second, opposite decision, and tells participants that
    have already committed to abort. *)
Theorem failed_commit_then_abort_splits c tx c1 e c2 r :
  tx_status c tx = Some Prepared → commit handles c tx = (c1, Err e) → abort handles c1 tx = (c2, r) →
  commit handles c1 tx = (c1, Err CoordinatorFailed) ∧ tx ∉ recover c1 ∧
  r = Ok tt ∧ tx_status c2 tx = Some Aborted ∧
  logged (history c2) (LCommit tx) ∧ logged (history c2) (LAbort tx) ∧
  ∀ rec p, transactions c !! tx = Some rec → p ∈ participants rec → is_Some (handles !! p) →
    ∃ reply, EvAbort p tx reply ∈ history c2.
Proof.
  intros Hp Hc Ha. unfold tx_status in Hp. pose proof (commit_cases handles c tx) as Hs. rewrite Hc in Hs.
  destruct Hs as [(_ & _ & Hn)|(evs & rec & Htx & Hst & _ & _ & ->)]; [done|]. cbn in Ha.
  match type of Ha with abort _ ?x _ = _ => pose proof (abort_cases handles x tx) as Hs end.
  rewrite Ha in Hs. unfold tx_status in Hs. cbn in Hs. rewrite lookup_insert_eq in Hs.
  destruct Hs as [(_ & _ & Hn)|(evs2 & rec2 & [= <-] & _ & _ & Hall & Hf & -> & ->)]; [naive_solver|]. cbn in Hf. split_and!.
  - unfold commit, commit_start. cbn. by rewrite lookup_insert_eq.
  - unfold recover. rewrite in_doubt_iff. intros [_ Hd]. apply Hd. left. cbn. apply elem_of_app. right. left.
  - done.
  - unfold tx_status. cbn. by rewrite lookup_insert_eq.
  - cbn. apply logged_app. left. apply logged_app. auto.
  - cbn. apply logged_app. auto.
  - intros rec' p Hrec Hin Hk. rewrite Htx in Hrec. injection Hrec as <-. cbn.
    assert (p ∈ omap abort_party evs2) as Hev by (rewrite Hf; by apply list_elem_of_filter).
    apply list_elem_of_omap in Hev as (ev & Hev & Hpt). rewrite Forall_forall in Hall.
    destruct (Hall ev Hev) as (p' & reply & ->). injection Hpt as ->. exists reply.
    apply elem_of_app. right. by right.
Qed.

(** an abort during the votes is undone. [prepare] releases its locks while it collects votes
    and then overwrites the state. If another thread aborts the transaction in between, the abort
    succeeds and is logged, yet the transaction becomes Prepared again and can be committed:
    the commit record follows the abort record. *)
Theorem abort_during_prepare_undone c tx ids c1 c2 c3 c5 ra r :
  prepare_start c tx ids = Ok c1 →
  prepare_loop handles (write_log c1 (LPrepare tx ids)) tx ids = (c2, Ok true) →
  abort handles c2 tx = (c3, ra) →
  let c4 := prepare_finish c3 tx true in
  commit handles c4 tx = (c5, r) →
  ra = Ok tt ∧ tx_status c3 tx = Some Aborted ∧ logged (history c3) (LAbort tx) ∧ tx_status c4 tx = Some Prepared ∧
  ∃ evs, history c5 = history c3 ++ EvLog (LCommit tx) :: evs ∧
    Forall (λ ev, ∃ p reply, ev = EvCommit p tx reply ∧ p ∈ ids) evs ∧
    (r = Ok tt → tx_status c5 tx = Some Committed ∧ evs = (λ p, EvCommit p tx (Ok tt)) <$> ids).
Proof.
  intros H1 H2 H3 c4 H5. unfold prepare_start in H1. destruct (transactions c !! tx) as [rec|] eqn:Htx; [|done].
  destruct (state rec) eqn:Hst; try done. injection H1 as <-.
  apply prepare_loop_spec in H2 as (evs2 & -> & _ & _).
  match type of H3 with abort _ ?x _ = _ => pose proof (abort_cases handles x tx) as Hs end.
  rewrite H3 in Hs. unfold tx_status in Hs. cbn in Hs. rewrite lookup_insert_eq in Hs.
  destruct Hs as [(_ & _ & Hn)|(evs3 & rec3 & [= <-] & _ & _ & _ & _ & -> & ->)]; [naive_solver|]. cbn in *.
  subst c4. unfold prepare_finish, set_tx_state in *. cbn in *. rewrite alter_insert_eq in *. cbn in *.
  match type of H5 with commit _ ?x _ = _ => pose proof (commit_cases handles x tx) as Hs end.
  rewrite H5 in Hs. unfold tx_status in *. cbn in Hs. rewrite lookup_insert_eq in Hs. cbn in Hs.
  destruct Hs as [(_ & _ & Hn)|(evs5 & rec5 & [= <-] & _ & Hall & Hok & ->)]; [done|]. cbn in *.
  rewrite !lookup_insert_eq. split_and!; try done; [apply logged_app; auto|]. exists evs5. split_and!; [done..|].
  intros ->. split; [by rewrite decide_True|]. by apply Hok.
Qed.
End properties.

(** ** The log file *)
Section wal.
Context `{LogJsonLaws}.
Implicit Types (s a b f : bytes).

Definition ends_line f : Prop := f = [] ∨ ∃ f', f = f' ++ [newline].
Lemma lines_from_app acc a b : lines_from acc (a ++ newline :: b) = lines_from acc (a ++ [newline]) ++ str_lines b.
Proof.
  revert acc. induction a as [|c a IH]; intros acc; cbn; [by rewrite decide_True|].
  destruct (decide (c = newline)); by rewrite IH.
Qed.
Lemma str_lines_app a b : ends_line a → str_lines (a ++ b) = str_lines a ++ str_lines b.
Proof. intros [->|[a' ->]]; [done|]. rewrite <- app_assoc. apply lines_from_app. Qed.
Lemma strip_cr_id s : carriage_return ∉ s → strip_cr s = s.
Proof.
  intros Hn. unfold strip_cr. destruct (last s) as [c|] eqn:E; [|done]. rewrite decide_False; [done|]. intros ->.
  apply Hn. apply last_Some in E as [s' ->]. apply elem_of_app. right. left.
Qed.
Lemma lines_from_line acc s : newline ∉ s → lines_from acc (s ++ [newline]) = [strip_cr (acc ++ s)].
Proof.
  revert acc. induction s as [|c s IH]; intros acc Hn; cbn.
  - by rewrite decide_True, app_nil_r.
  - rewrite not_elem_of_cons in Hn. rewrite decide_False by naive_solver. rewrite IH by tauto. by rewrite <- app_assoc.
Qed.
Lemma str_lines_line s : newline ∉ s → carriage_return ∉ s → str_lines (s ++ [newline]) = [s].
Proof. intros ??. unfold str_lines. rewrite lines_from_line by done. cbn. by rewrite strip_cr_id. Qed.

(** Logging a sequence of records. *)
Definition log_all (es : list LogEntry) (l : DistributedTxLog) : DistributedTxLog := foldl (λ l e, log_append e l) l es.
Lemma log_all_file es l f : wal_file l = Some f → ends_line f → utf8_valid f = true →
  log_entries (log_all es l) = log_entries l ++ es ∧
  ∃ f', wal_file (log_all es l) = Some f' ∧ utf8_valid f' = true ∧ ends_line f' ∧
    omap json_from_str (str_lines f') = omap json_from_str (str_lines f) ++ es.
Proof.
  revert l f. induction es as [|e es IH]; intros l f Hf He Hu.
  { cbn. rewrite app_nil_r. split; [done|]. exists f. split_and!; [done..|]. by rewrite app_nil_r. }
  change (log_all (e :: es) l) with (log_all es (log_append e l)).
  destruct (json_roundtrip e) as (s & Hs & Hp & Hnl & Hcr & Hus).
  assert (persist_entry e (Some f) = Some (f ++ s ++ [newline])) as Hpe by (unfold persist_entry; by rewrite Hs).
  destruct (IH (log_append e l) (f ++ s ++ [newline])) as (Hl & f' & Hf' & ? & ? & Ho).
  - cbn. by rewrite Hf, Hpe.
  - right. exists (f ++ s). by rewrite <- app_assoc.
  - rewrite !utf8_valid_app; done.
  - rewrite Hl. cbn. rewrite <- app_assoc. split; [done|]. exists f'. split_and!; [done..|]. rewrite Ho.
    rewrite str_lines_app by done. rewrite str_lines_line by done. rewrite omap_app. cbn. rewrite Hp. cbn.
    by rewrite <- app_assoc.
Qed.

(** the log file round trip. A log recovered from the file holds what the file held before and
    every record appended since, in order; opened fresh it holds exactly the records of memory,
    so the transactions in doubt after a crash are the ones in doubt before it. *)
Theorem wal_roundtrip existing es :
  ends_line (default [] existing) → utf8_valid (default [] existing) = true →
  let l := log_all es (with_path existing) in
  log_entries l = es ∧ ∃ l', recover_from_file (wal_file l) = Some l' ∧
    log_entries l' = omap json_from_str (str_lines (default [] existing)) ++ es ∧
    (existing = None → in_doubt_transactions l' = in_doubt_transactions l).
Proof.
  intros He Hu l. destruct (log_all_file es (with_path existing) (default [] existing) eq_refl He Hu)
    as (Hl & f' & Hf & Hu' & _ & Hp). fold l in Hl, Hf. split; [done|]. rewrite Hf. cbn. rewrite Hu'.
  eexists. split; [done|]. cbn. split; [done|]. intros ->. unfold in_doubt_transactions. cbn. by rewrite Hp, Hl.
Qed.

(** A write torn by a crash takes the next record with it: recovery reopens the file for appending,
    so the record lands on the torn line and neither parses. *)
Theorem torn_write_loses_next_record f torn e json l :
  ends_line f → utf8_valid f = true → torn ≠ [] → newline ∉ torn → carriage_return ∉ torn → utf8_valid torn = true →
  json_to_string e = Some json → json_from_str torn = None → json_from_str (torn ++ json) = None →
  recover_from_file (Some (f ++ torn)) = Some l →
  log_entries (log_append e l) = log_entries l ++ [e] ∧
  ∃ l', recover_from_file (wal_file (log_append e l)) = Some l' ∧ log_entries l' = log_entries l.
Proof.
  intros He Hu Hne Hnl Hcr Hut Hj Hp1 Hp2 Hr. cbn in Hr. rewrite utf8_valid_app, Hut in Hr by done. injection Hr as <-.
  split; [done|]. unfold log_append, persist_entry. cbn. rewrite Hj. cbn.
  destruct (json_roundtrip e) as (s & Hs & _ & Hnl' & Hcr' & Hus). rewrite Hj in Hs. injection Hs as <-.
  rewrite <- !app_assoc. rewrite !utf8_valid_app by done. eexists. split; [done|]. cbn.
  rewrite !str_lines_app by done. rewrite !omap_app. f_equal.
  rewrite (app_assoc torn). rewrite str_lines_line by (rewrite elem_of_app; tauto). cbn. rewrite Hp2.
  assert (∀ acc, lines_from acc torn = [acc ++ torn]) as Hl.
  { clear -Hne Hnl. induction torn as [|c t IH]; [done|]. intros acc. cbn. rewrite not_elem_of_cons in Hnl.
    rewrite decide_False by naive_solver. destruct t as [|c' t]; [by destruct acc|].
    rewrite IH by (done || tauto). by rewrite <- app_assoc. }
  rewrite str_lines_app, omap_app by done. unfold str_lines at 3. rewrite Hl. cbn. by rewrite Hp1.
Qed.
End wal.

(** ** Witnesses *)
#[export] Instance LogEntry_countable : Countable LogEntry.
Proof.
  refine (inj_countable' (λ e, match e with LPrepare tx ids => (0%nat, tx, ids) | LCommit tx => (1%nat, tx, []) | LAbort tx => (2%nat, tx, []) end)
    (λ x, match x with (0%nat, tx, ids) => LPrepare tx ids | (1%nat, tx, _) => LCommit tx | (_, tx, _) => LAbort tx end) _).
  by intros [].
Defined.
(** A codec for the witnesses: the text of an entry is the binary number that encodes it. *)
#[local] Instance binary_json : LogJson := {
  json_to_string e := Some (pos_bytes (encode e));
  json_from_str s := e ← bytes_pos s ≫= decode; if decide (pos_bytes (encode e) = s) then Some e else None
}.
Lemma pos_bytes_plain p : newline ∉ pos_bytes p ∧ carriage_return ∉ pos_bytes p ∧ utf8_valid (pos_bytes p) = true.
Proof.
  induction p as [p (IH1 & IH2 & IH3)|p (IH1 & IH2 & IH3)|]; cbn; rewrite ?IH3;
    rewrite ?not_elem_of_cons; split_and!; try done; apply not_elem_of_nil.
Qed.
#[local] Instance binary_json_laws : LogJsonLaws.
Proof.
  intros e. exists (pos_bytes (encode e)). destruct (pos_bytes_plain (encode e)) as (? & ? & ?).
  split_and!; [done| |done..]. cbn. rewrite bytes_pos_bytes. cbn. rewrite decode_encode. cbn. by rewrite decide_True.
Qed.

Lemma pair_outcome {A B} (x : A * B) (b : B) : x.2 = b → x = (x.1, b).
Proof. destruct x. cbn. by intros ->. Qed.

(** Two participants; the second fails to commit when [bad]. *)
Definition yes (bad : bool) : Handle :=
  mkHandle (λ _ _, Ok true) (λ _ _, if bad then Err Timeout else Ok tt) (λ _ _, Ok tt).
Definition pair_of (bad : bool) : gmap PartitionId Handle :=
  <["p1"%string := yes false]> (<["p2"%string := yes bad]> ∅).
Definition parts : list PartitionId := ["p1"; "p2"]%string.
Definition tx1 : DistributedTxId := dtx_id 1.
Definition prepared_tx1 (bad : bool) : Coordinator :=
  coord_run (pair_of bad) Coordinator_new [OpBegin; OpPrepare tx1 parts].

Lemma sequential_protocol_witness :
  let c := coord_run (pair_of false) Coordinator_new [OpBegin; OpPrepare tx1 parts; OpCommit tx1] in
  ∃ ids, unanimous (take 4 (history c)) tx1 ids ∧ "p2"%string ∈ ids.
Proof.
  intros c. destruct (sequential_protocol (pair_of false) [OpBegin; OpPrepare tx1 parts; OpCommit tx1]) as (_ & _ & Hc);
    [reflexivity|]. fold c in Hc.
  assert (history c = take 5 (history c) ++ EvCommit "p2" tx1 (Ok tt) :: []) as E by (vm_compute; reflexivity).
  destruct (Hc _ _ _ _ _ E) as (ids & _ & Hin & Hu & _). exists ids. split; [|done].
  intros p Hp. apply Hu in Hp. apply elem_of_take in Hp as (i & Hi & Hlt). apply elem_of_take.
  exists i. split; [done|]. assert (history c !! 4%nat = Some (EvCommit "p1" tx1 (Ok tt))) as E4 by (vm_compute; reflexivity).
  destruct (decide (i = 4%nat)) as [->|]; [congruence|lia].
Defined.
Lemma phases_reach_participants_witness :
  tx_status (commit (pair_of false) (prepared_tx1 false) tx1).1 tx1 = Some Committed ∧
  history (commit (pair_of false) (prepared_tx1 false) tx1).1 =
    history (prepared_tx1 false) ++ [EvLog (LCommit tx1); EvCommit "p1" tx1 (Ok tt); EvCommit "p2" tx1 (Ok tt)].
Proof.
  destruct (phases_reach_participants (pair_of false) (prepared_tx1 false) tx1 parts) as (Hc & _).
  assert ((commit (pair_of false) (prepared_tx1 false) tx1).2 = Ok tt) as E by (vm_compute; reflexivity).
  destruct (Hc (commit (pair_of false) (prepared_tx1 false) tx1).1) as (rec & Hrec & _ & Hs & Hh);
    [exact (pair_outcome _ _ E)|].
  split; [exact Hs|]. rewrite Hh.
  assert (transactions (prepared_tx1 false) !! tx1 = Some (mkTxRecord Prepared parts)) as E2 by (vm_compute; reflexivity).
  rewrite E2 in Hrec. injection Hrec as <-. reflexivity.
Defined.
Lemma recover_exact_witness : tx1 ∈ recover (prepared_tx1 false).
Proof.
  apply (recover_exact (pair_of false) [OpBegin; OpPrepare tx1 parts] tx1); [reflexivity|].
  right. vm_compute. reflexivity.
Defined.
Lemma no_transaction_stuck_witness :
  let c := coord_run (pair_of true) Coordinator_new [OpBegin; OpPrepare tx1 parts] in
  recover c = [tx1] ∧ recover (coord_run (pair_of true) c (OpAbort <$> recover c)) = [].
Proof.
  split; [vm_compute; reflexivity|].
  exact (proj1 (no_transaction_stuck (pair_of true) [OpBegin; OpPrepare tx1 parts] eq_refl)).
Defined.
Definition half_committed : Coordinator := (commit (pair_of true) (prepared_tx1 true) tx1).1.
Lemma failed_commit_then_abort_splits_witness :
  EvCommit "p1" tx1 (Ok tt) ∈ history half_committed ∧
  ∃ reply, EvAbort "p1" tx1 reply ∈ history (abort (pair_of true) half_committed tx1).1.
Proof.
  assert ((commit (pair_of true) (prepared_tx1 true) tx1).2 = Err Timeout) as E by (vm_compute; reflexivity).
  assert (tx_status (prepared_tx1 true) tx1 = Some Prepared) as E1 by (vm_compute; reflexivity).
  assert (transactions (prepared_tx1 true) !! tx1 = Some (mkTxRecord Prepared parts)) as E2 by (vm_compute; reflexivity).
  destruct (failed_commit_then_abort_splits (pair_of true) (prepared_tx1 true) tx1 half_committed Timeout
    (abort (pair_of true) half_committed tx1).1 (abort (pair_of true) half_committed tx1).2 E1) as (_ & _ & _ & _ & _ & _ & Hr).
  - exact (pair_outcome _ _ E).
  - apply surjective_pairing.
  - split; [apply (bool_decide_unpack _); vm_compute; reflexivity|].
    apply (Hr _ "p1"%string E2); [left|]. exists (yes false). reflexivity.
Defined.
Definition begun : Coordinator := (begin_distributed_tx Coordinator_new).1.
Definition voting : Coordinator :=
  match prepare_start begun tx1 parts with Ok c => c | Err _ => begun end.
Definition voted : Coordinator := (prepare_loop (pair_of false) (write_log voting (LPrepare tx1 parts)) tx1 parts).1.
Definition aborted_meanwhile : Coordinator := (abort (pair_of false) voted tx1).1.
Lemma abort_during_prepare_undone_witness :
  logged (history aborted_meanwhile) (LAbort tx1) ∧
  tx_status (commit (pair_of false) (prepare_finish aborted_meanwhile tx1 true) tx1).1 tx1 = Some Committed.
Proof.
  assert (is_ok (prepare_start begun tx1 parts) = true) as E1 by (vm_compute; reflexivity).
  assert ((prepare_loop (pair_of false) (write_log voting (LPrepare tx1 parts)) tx1 parts).2 = Ok true) as E2
    by (vm_compute; reflexivity).
  assert ((commit (pair_of false) (prepare_finish aborted_meanwhile tx1 true) tx1).2 = Ok tt) as E3 by (vm_compute; reflexivity).
  destruct (abort_during_prepare_undone (pair_of false) begun tx1 parts voting voted aborted_meanwhile
    (commit (pair_of false) (prepare_finish aborted_meanwhile tx1 true) tx1).1
    (abort (pair_of false) voted tx1).2 (Ok tt)) as (_ & _ & Hl & _ & evs & _ & _ & Hc).
  - unfold voting. by destruct (prepare_start begun tx1 parts).
  - exact (pair_outcome _ _ E2).
  - apply surjective_pairing.
  - exact (pair_outcome _ _ E3).
  - split; [exact Hl|]. by apply Hc.
Defined.
Lemma wal_roundtrip_witness :
  let l := log_all [LPrepare tx1 parts; LCommit tx1] (with_path None) in
  ∃ l', recover_from_file (wal_file l) = Some l' ∧ log_entries l' = [LPrepare tx1 parts; LCommit tx1].
Proof.
  destruct (wal_roundtrip None [LPrepare tx1 parts; LCommit tx1]) as (_ & l' & Hr & Hl & _); [by left|done|].
  exists l'. split; [exact Hr|exact Hl].
Defined.
(** A record cut after its first byte. *)
Lemma torn_write_example :
  ∃ l', recover_from_file (wal_file (log_append (LCommit tx1) (mkLog [] (Some [Byte.x00])))) = Some l' ∧ log_entries l' = [].
Proof.
  destruct (torn_write_loses_next_record [] [Byte.x00] (LCommit tx1) (pos_bytes (encode (LCommit tx1))) (mkLog [] (Some [Byte.x00])))
    as (_ & l' & Hr & Hl); try done; try (by left); try (intros [=]%list_elem_of_singleton); try (vm_compute; reflexivity).
  exists l'. split; [exact Hr|exact Hl].
Defined.
