(* ===== verification/Threads.v ===== *)
(** * Two-phase commit with calls that overlap (synaptica-cluster: distributed_tx.rs)

    [TwoPhase.v] runs a call of the coordinator as one step. The calls hold their locks only for their
    changes of state and their records; here each such piece, and each call of a participant with its answer, is a
    step of its own, and the calls of any number of threads interleave step by step. The steps of a
    call, taken together, are the call of [TwoPhase.v] ([call_alone]). *)
From S2P Require Import Prelude Rocks TwoPhase.

(** ** Calls that are under way *)
(** What a thread still has to do, after the pieces it has done *)
Inductive Call : Type :=
| PrepareLog (tx : DistributedTxId) (ids : list PartitionId)    (* the state is Preparing; write the record *)
| PrepareVotes (tx : DistributedTxId) (rest : list PartitionId) (* ask the rest for their votes *)
| PrepareRefused (tx : DistributedTxId)                         (* a vote was no *)
| CommitLog (tx : DistributedTxId) (ids : list PartitionId)     (* the state is Committing; write the record *)
| CommitTell (tx : DistributedTxId) (rest : list PartitionId)   (* tell the rest *)
| AbortLog (tx : DistributedTxId) (ids : list PartitionId)
| AbortTell (tx : DistributedTxId) (rest : list PartitionId).
Definition call_tx (call : Call) : DistributedTxId :=
  match call with
  | PrepareLog tx _ | PrepareVotes tx _ | PrepareRefused tx | CommitLog tx _ | CommitTell tx _ | AbortLog tx _ | AbortTell tx _ => tx
  end.
Record Threads := mkThreads { coord : Coordinator; calls : gmap nat Call }.
Definition Threads_new : Threads := mkThreads Coordinator_new ∅.
Inductive action : Type := Start (t : nat) (op : coord_op) | Continue (t : nat).

Section threads.
Context `{LogJson} (handles : gmap PartitionId Handle).
(** The first piece of a call: its check and change of state; nothing is left to do when it is refused. *)
Definition call_start (c : Coordinator) (op : coord_op) : Coordinator * option Call :=
  match op with
  | OpBegin => ((begin_distributed_tx c).1, None)
  | OpPrepare tx ids => match prepare_start c tx ids with Ok c' => (c', Some (PrepareLog tx ids)) | Err _ => (c, None) end
  | OpCommit tx => match commit_start c tx with Ok (c', ids) => (c', Some (CommitLog tx ids)) | Err _ => (c, None) end
  | OpAbort tx => match abort_start c tx with Ok (c', ids) => (c', Some (AbortLog tx ids)) | Err _ => (c, None) end
  end.
(** The next piece *)
Definition call_advance (c : Coordinator) (call : Call) : Coordinator * option Call :=
  match call with
  | PrepareLog tx ids => (write_log c (LPrepare tx ids), Some (PrepareVotes tx ids))
  | PrepareVotes tx [] => (prepare_finish c tx true, None)
  | PrepareVotes tx (pid :: rest) =>
      match handles !! pid with
      | None => (c, None)
      | Some h =>
          let reply := handle_prepare h (history c) tx in
          (add_event c (EvPrepare pid tx reply),
           match reply with Ok true => Some (PrepareVotes tx rest) | Ok false => Some (PrepareRefused tx) | Err _ => None end)
      end
  | PrepareRefused tx => (prepare_finish c tx false, None)
  | CommitLog tx ids => (write_log c (LCommit tx), Some (CommitTell tx ids))
  | CommitTell tx [] => (set_tx_state c tx Committed, None)
  | CommitTell tx (pid :: rest) =>
      match handles !! pid with
      | None => (c, None)
      | Some h =>
          let reply := handle_commit h (history c) tx in
          (add_event c (EvCommit pid tx reply), match reply with Ok _ => Some (CommitTell tx rest) | Err _ => None end)
      end
  | AbortLog tx ids => (write_log c (LAbort tx), Some (AbortTell tx ids))
  | AbortTell tx [] => (set_tx_state c tx Aborted, None)
  | AbortTell tx (pid :: rest) =>
      match handles !! pid with
      | None => (c, Some (AbortTell tx rest))
      | Some h => (add_event c (EvAbort pid tx (handle_abort h (history c) tx)), Some (AbortTell tx rest))
      end
  end.
Definition settle (s : Threads) (t : nat) (r : Coordinator * option Call) : Threads :=
  mkThreads r.1 (partial_alter (λ _, r.2) t (calls s)).
(** A thread starts a call when it has none under way, and continues the one it has. *)
Definition thread_step (s : Threads) (a : action) : Threads :=
  match a with
  | Start t op => match calls s !! t with None => settle s t (call_start (coord s) op) | Some _ => s end
  | Continue t => match calls s !! t with Some call => settle s t (call_advance (coord s) call) | None => s end
  end.
Definition threads_run (s : Threads) (acts : list action) : Threads := foldl thread_step s acts.

(** No call is started on a transaction while another call on it is under way. *)
Definition op_tx (op : coord_op) : option DistributedTxId :=
  match op with OpBegin => None | OpPrepare tx _ | OpCommit tx | OpAbort tx => Some tx end.
Definition free (s : Threads) (tx : DistributedTxId) : Prop := map_Forall (λ _ call, call_tx call ≠ tx) (calls s).
Definition apart (s : Threads) (a : action) : Prop :=
  match a with Start _ op => match op_tx op with Some tx => free s tx | None => True end | Continue _ => True end.
Fixpoint apart_run (s : Threads) (acts : list action) : Prop :=
  match acts with [] => True | a :: acts' => apart s a ∧ apart_run (thread_step s a) acts' end.

End threads.

(** ** The invariant, for calls that are apart *)
(** What the history says while a call on the transaction is under way *)
Definition call_ok (h : list event) (r : TxRecord) (call : Call) : Prop :=
  let tx := call_tx call in
  let open := logged h (LPrepare tx (participants r)) ∧ ¬ logged h (LCommit tx) ∧ ¬ logged h (LAbort tx) in
  match call with
  | PrepareLog _ l => state r = Preparing ∧ l = participants r ∧ ∀ ev, ev ∈ h → ev_tx ev ≠ tx
  | PrepareVotes _ rest => state r = Preparing ∧ open ∧ ∃ voted, participants r = voted ++ rest ∧ unanimous h tx voted
  | PrepareRefused _ => state r = Preparing ∧ open
  | CommitLog _ l => state r = Committing ∧ l = participants r ∧ open ∧ unanimous h tx (participants r)
  | CommitTell _ rest => state r = Committing ∧ logged h (LPrepare tx (participants r)) ∧ logged h (LCommit tx) ∧ ¬ logged h (LAbort tx) ∧
      unanimous h tx (participants r) ∧ ∀ p, p ∈ rest → p ∈ participants r
  | AbortLog _ _ => state r = Aborting ∧ ¬ logged h (LAbort tx)
  | AbortTell _ _ => state r = Aborting ∧ logged h (LAbort tx)
  end.
(** The record of a transaction fits the history, and the call on it, if any *)
Definition tx_ok (h : list event) (tx : DistributedTxId) (r : TxRecord) (call : option Call) : Prop :=
  match call with Some call => call_tx call = tx ∧ call_ok h r call | None => state_ok h tx r end.
Lemma tx_ok_frame h h' tx r call : (∀ ev, ev_tx ev = tx → ev ∈ h' ↔ ev ∈ h) → tx_ok h tx r call → tx_ok h' tx r call.
Proof.
  intros Hin. assert (∀ ev, ev ∈ h' → ev_tx ev ≠ tx ∨ ev ∈ h) as Hsub.
  { intros ev Hev. destruct (decide (ev_tx ev = tx)) as [He|]; [right; by apply Hin|by left]. }
  destruct call as [call|]; cbn.
  - intros [Ht Hok]. split; [done|]. revert Hok. unfold call_ok, logged, unanimous. cbv zeta. rewrite Ht.
    destruct call; cbn in *; subst.
    { intros (? & ? & Hno). split_and!; [done..|]. intros ev [He|He]%Hsub; [done|by apply Hno]. }
    all: rewrite ?Hin by done; try setoid_rewrite Hin; done.
  - unfold state_ok, logged, unanimous. destruct (state r).
    { intros Hno ev [He|He]%Hsub; [done|by apply Hno]. }
    all: rewrite ?Hin by done; try setoid_rewrite Hin; done.
Qed.
(** The call under way on a transaction *)
Definition call_on (s : Threads) (tx : DistributedTxId) (call : option Call) : Prop :=
  match call with Some call => call_tx call = tx ∧ ∃ t, calls s !! t = Some call | None => free s tx end.
Record threads_inv (s : Threads) : Prop := {
  th_next : 1 ≤ next_id (coord s);
  th_fresh k : next_id (coord s) ≤ k → transactions (coord s) !! dtx_id k = None;
  th_unknown tx : transactions (coord s) !! tx = None → free s tx ∧ ∀ ev, ev ∈ history (coord s) → ev_tx ev ≠ tx;
  th_apart t1 t2 call1 call2 : calls s !! t1 = Some call1 → calls s !! t2 = Some call2 → call_tx call1 = call_tx call2 → t1 = t2;
  th_state tx r call : transactions (coord s) !! tx = Some r → call_on s tx call → tx_ok (history (coord s)) tx r call;
  th_log : log_entries (log (coord s)) = omap log_record (history (coord s));
  th_protocol : protocol (history (coord s))
}.
Lemma threads_inv_new : threads_inv Threads_new.
Proof.
  split; cbn; try done.
  - intros tx _. split; [apply map_Forall_empty|]. by intros ev ?%elem_of_nil.
  - by intros [] ev h2.
Qed.
(** No other thread has a call on the transaction. *)
Definition only (s : Threads) (t : nat) (tx : DistributedTxId) : Prop := ∀ t' call, calls s !! t' = Some call → call_tx call = tx → t' = t.
(** A step of one thread on one transaction *)
Lemma threads_inv_settle s t tx r r' c' call' evs : threads_inv s → only s t tx → (∀ call, calls s !! t = Some call → call_tx call = tx) →
  transactions (coord s) !! tx = Some r → Forall (λ ev, ev_tx ev = tx) evs →
  next_id c' = next_id (coord s) → transactions c' = <[tx := r']> (transactions (coord s)) → history c' = history (coord s) ++ evs →
  log_entries (log c') = log_entries (log (coord s)) ++ omap log_record evs →
  protocol (history (coord s) ++ evs) → tx_ok (history (coord s) ++ evs) tx r' call' →
  threads_inv (settle s t (c', call')).
Proof.
  intros Hi Honly Ht Htx Hevs Hn Htr Hh Hl Hp Hok. rewrite Forall_forall in Hevs.
  assert (∀ t' call, calls (settle s t (c', call')) !! t' = Some call → (t' = t ∧ call' = Some call) ∨ (t' ≠ t ∧ calls s !! t' = Some call)) as Hcalls.
  { intros t' call. cbn. destruct (decide (t = t')) as [<-|Hne]; [rewrite lookup_partial_alter_eq|rewrite lookup_partial_alter_ne by done]; auto. }
  assert (∀ call, call' = Some call → call_tx call = tx) as Ht' by (intros call ->; by destruct Hok).
  assert (∀ tx', tx' ≠ tx → free (settle s t (c', call')) tx' ↔ free s tx') as Hfree.
  { intros tx' Hne. unfold free, map_Forall. split; intros Hf t' call Hc.
    - destruct (decide (t' = t)) as [->|Htt]; [rewrite (Ht call Hc); congruence|]. apply (Hf t'). cbn. by rewrite lookup_partial_alter_ne.
    - destruct (Hcalls t' call Hc) as [[-> Hc']|[_ Hc']]; [rewrite (Ht' call Hc'); congruence|by apply (Hf t')]. }
  split.
  - cbn. rewrite Hn. by apply th_next.
  - cbn. rewrite Hn, Htr. intros k Hk. rewrite lookup_insert_ne; [by apply th_fresh|]. intros ->. by rewrite th_fresh in Htx.
  - cbn [coord settle fst]. rewrite Htr, Hh. intros tx' [Hu Hne]%lookup_insert_None. apply th_unknown in Hu as [Hf Hno]; [|done].
    split; [by apply Hfree|]. intros ev [Hev|Hev]%elem_of_app; [by apply Hno|]. by rewrite (Hevs _ Hev).
  - intros t1 t2 call1 call2 H1 H2 He. apply Hcalls in H1 as [[-> H1]|[Hn1 H1]]; apply Hcalls in H2 as [[-> H2']|[Hn2 H2']]; try done.
    + symmetry. apply (Honly t2 call2); [done|]. rewrite <- He. by apply Ht'.
    + apply (Honly t1 call1); [done|]. rewrite He. by apply Ht'.
    + by eapply th_apart.
  - cbn [coord settle fst]. rewrite Htr, Hh. intros tx' r0 call [[<- <-]|[Hne Hr0]]%lookup_insert_Some Hon.
    + replace call with call'; [done|]. destruct call as [call|].
      * destruct Hon as [Hct [t' Hc]]. apply Hcalls in Hc as [[-> Hc]|[Hne Hc]]; [done|]. destruct Hne. by apply (Honly t' call).
      * destruct call' as [call|]; [|done]. exfalso. apply (Hon t call); [|by apply Ht']. cbn. by rewrite lookup_partial_alter_eq.
    + apply (tx_ok_frame (history (coord s))).
      { intros ev He. rewrite elem_of_app. split; [intros [?|Hev]; [done|]|by left]. apply Hevs in Hev. congruence. }
      apply th_state; [done..|]. destruct call as [call|]; [|by apply Hfree]. destruct Hon as [Hct [t' Hc]]. split; [done|].
      apply Hcalls in Hc as [[-> Hc]|[Hne' Hc]]; [|by exists t']. apply Ht' in Hc. congruence.
  - cbn [coord settle fst]. by rewrite Hl, Hh, omap_app, th_log.
  - cbn [coord settle fst]. by rewrite Hh.
Qed.
Section invariant.
Context `{LogJson} (handles : gmap PartitionId Handle).
Lemma unanimous_snoc h ev tx ids : unanimous h tx ids → unanimous (h ++ [ev]) tx ids.
Proof. intros Hu p Hp. apply elem_of_app. left. by apply Hu. Qed.
Lemma unanimous_vote h p tx ids : unanimous h tx ids → unanimous (h ++ [EvPrepare p tx (Ok true)]) tx (ids ++ [p]).
Proof.
  intros Hu q [Hq| ->%list_elem_of_singleton]%elem_of_app; apply elem_of_app; [left; by apply Hu|right; by apply list_elem_of_singleton].
Qed.
Lemma free_only s t tx : free s tx → only s t tx.
Proof. intros Hf t' call Hc Ht. by destruct (Hf t' call Hc). Qed.
Lemma begin_threads_inv s t : threads_inv s → calls s !! t = None → next_id (coord s) < u64_max →
  threads_inv (settle s t (call_start (coord s) OpBegin)).
Proof.
  intros Hi Ht Hn. pose proof (th_next _ Hi) as H1. assert (wrap64 (next_id (coord s) + 1) = next_id (coord s) + 1) as Hw.
  { unfold wrap64. unfold u64_max in Hn. rewrite Z.mod_small; lia. }
  assert (settle s t (call_start (coord s) OpBegin) = mkThreads (begin_distributed_tx (coord s)).1 (calls s)) as ->.
  { unfold settle. cbn. f_equal. apply map_eq. intros t'. destruct (decide (t = t')) as [<-|Hne]; [by rewrite lookup_partial_alter_eq|by rewrite lookup_partial_alter_ne]. }
  destruct (th_unknown _ Hi (dtx_id (next_id (coord s)))) as [Hf Hno]; [by apply th_fresh|].
  split; cbn [begin_distributed_tx coord calls fst next_id transactions history log].
  - lia.
  - rewrite Hw. intros k Hk. rewrite lookup_insert_ne; [apply th_fresh; [done|lia]|]. intros ?%dtx_id_inj. lia.
  - intros tx [Hu _]%lookup_insert_None. by apply (th_unknown _ Hi).
  - by apply th_apart.
  - intros tx r call [[<- <-]|[Hne Hr]]%lookup_insert_Some Hon; [|exact (th_state _ Hi tx r call Hr Hon)].
    destruct call as [call|]; [|exact Hno]. destruct Hon as [Hct [t' Hc']]. by destruct (Hf t' call Hc').
  - by apply th_log.
  - by apply th_protocol.
Qed.
(** The state changes that a call starts with *)
Lemma start_inv s t op : threads_inv s → calls s !! t = None → apart s (Start t op) → next_id (coord s) < u64_max →
  threads_inv (settle s t (call_start (coord s) op)).
Proof.
  intros Hi Ht Hap Hn. assert (∀ tx, (∀ call, calls s !! t = Some call → call_tx call = tx)) as Hidle by (intros tx call E; congruence).
  assert (threads_inv (settle s t (coord s, None))) as Hsame.
  { replace (settle s t (coord s, None)) with s; [done|]. destruct s as [c m]. unfold settle. cbn in *. f_equal. apply map_eq. intros t'.
    destruct (decide (t = t')) as [<-|Hne]; [by rewrite lookup_partial_alter_eq|by rewrite lookup_partial_alter_ne]. }
  destruct op as [|tx ids|tx|tx]; [by apply begin_threads_inv|..]; cbn [call_start apart op_tx] in *.
  all: unfold prepare_start, commit_start, abort_start; destruct (transactions (coord s) !! tx) as [r|] eqn:Htx; [|exact Hsame].
  all: pose proof (th_state _ Hi tx r None Htx Hap) as Hok; cbn in Hok; unfold state_ok in Hok.
  all: destruct (state r) eqn:Hst; try exact Hsame.
  all: eapply (threads_inv_settle s t tx r _ _ _ []); try done; try exact (Hidle tx); try (by apply free_only); try (by rewrite app_nil_r); try (by rewrite app_nil_r; apply th_protocol).
  all: rewrite app_nil_r; split; [done|]; cbn; split_and!; try done; try tauto.
  intros Hl. by apply Hok in Hl.
Qed.
Lemma set_tx_state_record c tx r st : transactions c !! tx = Some r →
  transactions (set_tx_state c tx st) = <[tx := mkTxRecord st (participants r)]> (transactions c).
Proof.
  intros Hr. apply map_eq. intros tx'. cbn. destruct (decide (tx = tx')) as [<-|Hne].
  - by rewrite lookup_alter_eq, Hr, lookup_insert_eq.
  - by rewrite lookup_alter_ne, lookup_insert_ne.
Qed.
(** A step that changes no record: nothing, a record of the log, or a call of a participant *)
Lemma advance_same s t tx r c' call' evs : threads_inv s → only s t tx → (∀ call, calls s !! t = Some call → call_tx call = tx) →
  transactions (coord s) !! tx = Some r → Forall (λ ev, ev_tx ev = tx) evs →
  next_id c' = next_id (coord s) → transactions c' = transactions (coord s) → history c' = history (coord s) ++ evs →
  log_entries (log c') = log_entries (log (coord s)) ++ omap log_record evs →
  protocol (history (coord s) ++ evs) → tx_ok (history (coord s) ++ evs) tx r call' →
  threads_inv (settle s t (c', call')).
Proof. intros Hi Ho Ht Hr He Hn Htr. intros. eapply (threads_inv_settle s t tx r r); try done. by rewrite Htr, insert_id. Qed.
Lemma advance_finish s t tx r st : threads_inv s → only s t tx → (∀ call, calls s !! t = Some call → call_tx call = tx) →
  transactions (coord s) !! tx = Some r → state_ok (history (coord s)) tx (mkTxRecord st (participants r)) →
  threads_inv (settle s t (set_tx_state (coord s) tx st, None)).
Proof.
  intros Hi Ho Ht Hr Hok. eapply (threads_inv_settle s t tx r _ _ _ []); try done.
  - by apply set_tx_state_record.
  - cbn. by rewrite app_nil_r.
  - cbn. by rewrite app_nil_r.
  - rewrite app_nil_r. by apply th_protocol.
  - by rewrite app_nil_r.
Qed.
Lemma advance_call s t tx r call' ev : threads_inv s → only s t tx → (∀ call, calls s !! t = Some call → call_tx call = tx) →
  transactions (coord s) !! tx = Some r → ev_tx ev = tx → is_call ev → justified (history (coord s)) ev →
  tx_ok (history (coord s) ++ [ev]) tx r call' → threads_inv (settle s t (add_event (coord s) ev, call')).
Proof.
  intros Hi Ho Ht Hr Hev Hcall Hj Hok. eapply (advance_same s t tx r _ _ [ev]); try done; [by constructor| |].
  - cbn. destruct ev; [done|..]; cbn; by rewrite app_nil_r.
  - apply protocol_snoc; [by apply th_protocol|done].
Qed.
Lemma advance_log s t tx r call' e : threads_inv s → only s t tx → (∀ call, calls s !! t = Some call → call_tx call = tx) →
  transactions (coord s) !! tx = Some r → ev_tx (EvLog e) = tx → justified (history (coord s)) (EvLog e) →
  tx_ok (history (coord s) ++ [EvLog e]) tx r call' → threads_inv (settle s t (write_log (coord s) e, call')).
Proof.
  intros Hi Ho Ht Hr Hev Hj Hok. eapply (advance_same s t tx r _ _ [EvLog e]); try done; [by constructor|].
  apply protocol_snoc; [by apply th_protocol|done].
Qed.
Lemma not_logged_before h tx e : (∀ ev, ev ∈ h → ev_tx ev ≠ tx) → ev_tx (EvLog e) = tx → ¬ logged h e.
Proof. intros Hno He Hl. by apply (Hno _ Hl). Qed.
Lemma advance_inv s t call : threads_inv s → calls s !! t = Some call → threads_inv (settle s t (call_advance handles (coord s) call)).
Proof.
  intros Hi Hc. set (tx := call_tx call). destruct (transactions (coord s) !! tx) as [r|] eqn:Hr.
  2: { apply (th_unknown _ Hi) in Hr as [Hf _]. by destruct (Hf t call Hc). }
  assert (only s t tx) as Ho by (intros t' call' Hc' Ht'; by apply (th_apart _ Hi t' t call' call)).
  assert (∀ call', calls s !! t = Some call' → call_tx call' = tx) as Ht by (intros call' E; rewrite Hc in E; by injection E as <-).
  assert (call_ok (history (coord s)) r call) as Hok by (apply (th_state _ Hi tx r (Some call) Hr); by split; [|exists t]).
  destruct call as [tx' l|tx' rest|tx'|tx' l|tx' rest|tx' l|tx' rest]; cbn [call_tx] in tx; subst tx; cbn [call_ok call_tx] in Hok.
  - destruct Hok as (Hst & -> & Hno). apply (advance_log s t tx' r); try done. cbn. split; [done|].
    rewrite !logged_snoc. split_and!; try done; try (by right).
    + intros [Hl|[=]]. by apply (not_logged_before _ tx') in Hl.
    + intros [Hl|[=]]. by apply (not_logged_before _ tx') in Hl.
    + exists []. split; [done|]. by intros p ?%elem_of_nil.
  - destruct Hok as (Hst & (Hl & Hnc & Hna) & voted & Hids & Hu). destruct rest as [|pid rest]; cbn [call_advance].
    { apply (advance_finish s t tx' r); try done. cbn. rewrite app_nil_r in Hids. by rewrite Hids at 2. }
    destruct (handles !! pid) as [h|]; [|by apply (advance_same s t tx' r _ _ []); try done; rewrite ?app_nil_r; try done; [by apply th_protocol|cbn; unfold state_ok; rewrite Hst]].
    set (reply := handle_prepare h (history (coord s)) tx'). apply (advance_call s t tx' r); try done.
    { cbn. split_and!; [done..|]. exists (participants r). split; [done|]. rewrite Hids. apply elem_of_app. right. left. }
    destruct reply as [[]|e]; cbn; unfold state_ok; rewrite ?Hst, ?logged_call by done; try (by split_and!).
    split_and!; try done. exists (voted ++ [pid]). rewrite Hids, <- app_assoc. split; [done|]. by apply unanimous_vote.
  - destruct Hok as (Hst & Hl & Hnc & Hna). by apply (advance_finish s t tx' r).
  - destruct Hok as (Hst & -> & (Hl & Hnc & Hna) & Hu). apply (advance_log s t tx' r); try done; [cbn; eauto|].
    cbn. split; [done|]. rewrite !logged_snoc. split_and!; try done; auto; [by intros [?|[=]]|by apply unanimous_snoc].
  - destruct Hok as (Hst & Hl & Hlc & Hna & Hu & Hin). destruct rest as [|pid rest]; cbn [call_advance].
    { by apply (advance_finish s t tx' r). }
    destruct (handles !! pid) as [h|]; [|by apply (advance_same s t tx' r _ _ []); try done; rewrite ?app_nil_r; try done; [by apply th_protocol|cbn; unfold state_ok; rewrite Hst]].
    set (reply := handle_commit h (history (coord s)) tx'). apply (advance_call s t tx' r); try done.
    { cbn. split_and!; [done..|]. exists (participants r). split; [done|]. apply Hin. left. }
    destruct reply as [[]|e]; cbn; unfold state_ok; rewrite ?Hst, ?logged_call by done; split_and!; try done; try (by apply unanimous_snoc).
    intros p Hp. apply Hin. by right.
  - destruct Hok as (Hst & Hna). apply (advance_log s t tx' r); try done. cbn. split; [done|]. rewrite logged_snoc. auto.
  - destruct Hok as (Hst & Hla). destruct rest as [|pid rest]; cbn [call_advance]; [by apply (advance_finish s t tx' r)|].
    destruct (handles !! pid) as [h|].
    + apply (advance_call s t tx' r); try done. cbn. by rewrite logged_call.
    + by apply (advance_same s t tx' r _ _ []); try done; rewrite ?app_nil_r; try done; apply th_protocol.
Qed.
End invariant.

(** ** The protocol, when calls on one transaction do not overlap *)
Section protocol.
Context `{LogJson} (handles : gmap PartitionId Handle).
Lemma start_next c op : 1 ≤ next_id c → next_id c < u64_max → next_id c ≤ next_id (call_start c op).1 ≤ next_id c + 1.
Proof.
  intros H1 Hn. destruct op as [|tx ids|tx|tx]; cbn [call_start].
  - cbn. unfold wrap64. unfold u64_max in Hn. rewrite Z.mod_small; lia.
  - unfold prepare_start. repeat case_match; simplify_eq; cbn; lia.
  - unfold commit_start. repeat case_match; simplify_eq; cbn; lia.
  - unfold abort_start. repeat case_match; simplify_eq; cbn; lia.
Qed.
Lemma advance_next c call : next_id (call_advance handles c call).1 = next_id c.
Proof. by destruct call as [tx l|tx [|p rest]|tx|tx l|tx [|p rest]|tx l|tx [|p rest]]; cbn; try destruct (handles !! p). Qed.
Lemma thread_step_next s a : 1 ≤ next_id (coord s) → next_id (coord s) < u64_max →
  next_id (coord s) ≤ next_id (coord (thread_step handles s a)) ≤ next_id (coord s) + 1.
Proof.
  intros H1 Hn. destruct a as [t op|t]; cbn [thread_step]; destruct (calls s !! t); try lia; cbn [settle coord].
  - by apply start_next.
  - rewrite advance_next. lia.
Qed.
Lemma threads_run_inv acts s : threads_inv s → next_id (coord s) + Z.of_nat (length acts) ≤ u64_max → apart_run handles s acts →
  threads_inv (threads_run handles s acts).
Proof.
  revert s. induction acts as [|a acts IH]; intros s Hi Hn; cbn in *; [done|]. intros [Ha Hacts].
  pose proof (th_next _ Hi). pose proof (thread_step_next s a ltac:(done) ltac:(lia)) as Hnext. apply IH; [|lia|done].
  destruct a as [t op|t]; cbn [thread_step]; destruct (calls s !! t) as [call|] eqn:Hc; try done; [apply start_inv; try done; lia|by apply advance_inv].
Qed.

(** C6: The protocol is followed by overlapping calls. Let any threads run calls of the coordinator, each
    a sequence of steps that the steps of others come between, such that no call is started on a
    transaction while another call on it is under way; whatever the participants answer, the history is
    written ahead and in order: a participant is asked to prepare only after the prepare record, told
    to commit only after the commit record and never after an abort record, told to abort only after
    the abort record; and a participant is told to commit only if every participant of the transaction
    was asked and voted yes before. (Calls on one transaction that overlap can break the order,
    [abort_during_prepare_undone]; what holds even then is [votes_before_commit].) *)
Theorem commit_needs_unanimity acts :
  Z.of_nat (length acts) < u64_max → apart_run handles Threads_new acts →
  let c := coord (threads_run handles Threads_new acts) in
  protocol (history c) ∧ log_entries (log c) = omap log_record (history c) ∧
  ∀ h p tx reply h', history c = h ++ EvCommit p tx reply :: h' →
    ∃ ids, logged h (LPrepare tx ids) ∧ p ∈ ids ∧ unanimous h tx ids ∧ logged h (LCommit tx) ∧ ¬ logged h (LAbort tx).
Proof.
  intros Hlen Hap c. assert (threads_inv (threads_run handles Threads_new acts)) as Hi by (apply threads_run_inv; [apply threads_inv_new|cbn; lia|done]).
  split_and!; [by apply th_protocol|by apply th_log|].
  intros h p tx reply h' E. eapply protocol_commit. rewrite <- E. by apply th_protocol.
Qed.
End protocol.

(** ** What holds for all overlapping calls *)
(** All participants have been asked and voted yes. *)
Definition ready (h : list event) (tx : DistributedTxId) (ids : list PartitionId) : Prop := logged h (LPrepare tx ids) ∧ unanimous h tx ids.
Definition founded (h : list event) (ev : event) : Prop :=
  match ev with
  | EvLog (LCommit tx) => ∃ ids, ready h tx ids
  | EvPrepare p tx _ => ∃ ids, logged h (LPrepare tx ids) ∧ p ∈ ids
  | EvCommit p tx _ => logged h (LCommit tx) ∧ ∃ ids, ready h tx ids ∧ p ∈ ids
  | EvAbort p tx _ => logged h (LAbort tx)
  | _ => True
  end.
Definition well_founded (h : list event) : Prop := ∀ h1 ev h2, h = h1 ++ ev :: h2 → founded h1 ev.
Lemma well_founded_snoc h ev : well_founded h → founded h ev → well_founded (h ++ [ev]).
Proof.
  intros Hw Hf h1 ev' h2 E. destruct h2 as [|x h2 _] using rev_ind.
  - apply app_inj_tail in E as [-> ->]. done.
  - rewrite app_comm_cons, app_assoc in E. apply app_inj_tail in E as [-> _]. by eapply Hw.
Qed.
Definition begun_with (c : Coordinator) (tx : DistributedTxId) (ok : TxRecord → Prop) : Prop :=
  ∃ r, transactions c !! tx = Some r ∧ state r ≠ Initiated ∧ ok r.
Definition call_founded (c : Coordinator) (call : Call) : Prop :=
  let h := history c in
  begun_with c (call_tx call) (λ r,
    match call with
    | PrepareLog _ l => l = participants r
    | PrepareVotes tx rest => logged h (LPrepare tx (participants r)) ∧ ∃ voted, participants r = voted ++ rest ∧ unanimous h tx voted
    | PrepareRefused _ | AbortLog _ _ => True
    | CommitLog tx l => ready h tx l
    | CommitTell tx rest => logged h (LCommit tx) ∧ ∃ ids, ready h tx ids ∧ ∀ p, p ∈ rest → p ∈ ids
    | AbortTell tx _ => logged h (LAbort tx)
    end).
Record overlap_inv (s : Threads) : Prop := {
  ov_next : 1 ≤ next_id (coord s);
  ov_fresh k : next_id (coord s) ≤ k → transactions (coord s) !! dtx_id k = None;
  ov_prepared tx r : transactions (coord s) !! tx = Some r → state r = Prepared → ready (history (coord s)) tx (participants r);
  ov_calls t call : calls s !! t = Some call → call_founded (coord s) call;
  ov_log : log_entries (log (coord s)) = omap log_record (history (coord s));
  ov_history : well_founded (history (coord s))
}.
Lemma overlap_inv_new : overlap_inv Threads_new.
Proof. split; cbn; try done. by intros [] ev h2. Qed.
(** Later coordinators: the history goes on, and what a prepare call has fixed stays. *)
Definition extends (c c' : Coordinator) (evs : list event) : Prop :=
  history c' = history c ++ evs ∧
  ∀ tx r, transactions c !! tx = Some r → state r ≠ Initiated →
    ∃ r', transactions c' !! tx = Some r' ∧ state r' ≠ Initiated ∧ participants r' = participants r.
Lemma ready_app h evs tx ids : ready h tx ids → ready (h ++ evs) tx ids.
Proof. intros [Hl Hu]. split; [apply elem_of_app; by left|]. intros p Hp. apply elem_of_app. left. by apply Hu. Qed.
Lemma logged_later h evs e : logged h e → logged (h ++ evs) e.
Proof. intros Hl. apply elem_of_app. by left. Qed.
Lemma call_founded_later c c' evs call : extends c c' evs → call_founded c call → call_founded c' call.
Proof.
  intros [Hh Ht] (r & Hr & Hs & Hok). destruct (Ht _ r Hr Hs) as (r' & Hr' & Hs' & Hp). exists r'. split_and!; [done..|].
  revert Hok. rewrite Hh. destruct call; cbn; rewrite ?Hp; try done.
  - intros (Hl & voted & He & Hu). split; [by apply logged_later|]. exists voted. split; [done|]. intros p Hpv. apply elem_of_app. left. by apply Hu.
  - apply ready_app.
  - intros (Hl & l & Hrd & Hin). split; [by apply logged_later|]. exists l. split; [by apply ready_app|done].
  - apply logged_later.
Qed.
Lemma overlap_settle s t c' call' evs : overlap_inv s → extends (coord s) c' evs →
  1 ≤ next_id c' → (∀ k, next_id c' ≤ k → transactions c' !! dtx_id k = None) →
  (∀ tx r, transactions c' !! tx = Some r → state r = Prepared →
     (∃ r0, transactions (coord s) !! tx = Some r0 ∧ state r0 = Prepared ∧ participants r0 = participants r) ∨ ready (history c') tx (participants r)) →
  (∀ call, call' = Some call → call_founded c' call) →
  log_entries (log c') = log_entries (log (coord s)) ++ omap log_record evs → well_founded (history (coord s) ++ evs) →
  overlap_inv (settle s t (c', call')).
Proof.
  intros Hi Hx Hn Hf Hp Hc Hl Hw. pose proof Hx as [Hh _]. split; cbn [settle coord calls fst snd].
  - done.
  - done.
  - intros tx r Hr Hs. destruct (Hp tx r Hr Hs) as [(r0 & Hr0 & Hs0 & <-)|Hrd]; [|done]. rewrite Hh. apply ready_app. by apply (ov_prepared _ Hi).
  - intros t' call. destruct (decide (t = t')) as [<-|Hne]; [rewrite lookup_partial_alter_eq; apply Hc|].
    rewrite lookup_partial_alter_ne by done. intros Hcall. eapply call_founded_later; [exact Hx|]. by eapply ov_calls.
  - by rewrite Hl, Hh, omap_app, ov_log.
  - by rewrite Hh.
Qed.
(** A step that changes the record of one transaction, at most *)
Lemma overlap_record s t tx r r' c' call' evs : overlap_inv s → transactions (coord s) !! tx = Some r →
  (state r ≠ Initiated → state r' ≠ Initiated ∧ participants r' = participants r) →
  (state r' = Prepared → (state r = Prepared ∧ participants r = participants r') ∨ ready (history c') tx (participants r')) →
  next_id c' = next_id (coord s) → transactions c' = <[tx := r']> (transactions (coord s)) → history c' = history (coord s) ++ evs →
  (∀ call, call' = Some call → call_founded c' call) →
  log_entries (log c') = log_entries (log (coord s)) ++ omap log_record evs → well_founded (history (coord s) ++ evs) →
  overlap_inv (settle s t (c', call')).
Proof.
  intros Hi Hr Hstate Hp Hn Ht Hh Hc Hl Hw. apply (overlap_settle s t c' call' evs); try done.
  - split; [done|]. intros tx' r0 Hr0 Hs0. rewrite Ht. destruct (decide (tx = tx')) as [<-|Hne].
    + rewrite lookup_insert_eq. exists r'. rewrite Hr in Hr0. injection Hr0 as <-. split; [done|]. by apply Hstate.
    + rewrite lookup_insert_ne by done. by exists r0.
  - rewrite Hn. by apply ov_next.
  - rewrite Hn, Ht. intros k Hk. rewrite lookup_insert_ne; [by apply ov_fresh|]. intros ->. by rewrite ov_fresh in Hr.
  - rewrite Ht. intros tx' r0 [[<- <-]|[Hne Hr0]]%lookup_insert_Some Hs0; [|left; by exists r0].
    destruct (Hp Hs0) as [[? ?]|?]; [left; by exists r|by right].
Qed.
Section overlap.
Context `{LogJson} (handles : gmap PartitionId Handle).
Lemma overlap_start s t op : overlap_inv s → calls s !! t = None → next_id (coord s) < u64_max → overlap_inv (settle s t (call_start (coord s) op)).
Proof.
  intros Hi Ht Hn. pose proof (ov_next _ Hi) as H1. pose proof (ov_history _ Hi) as Hw.
  assert (overlap_inv (settle s t (coord s, None))) as Hsame.
  { apply (overlap_settle s t (coord s) None []); rewrite ?app_nil_r; try done; [|by apply ov_fresh|].
    - split; [by rewrite app_nil_r|]. intros tx r. by exists r.
    - intros tx r Hr Hs. left. by exists r. }
  destruct op as [|tx ids|tx|tx]; cbn [call_start].
  - assert (wrap64 (next_id (coord s) + 1) = next_id (coord s) + 1) as E by (unfold wrap64; unfold u64_max in Hn; rewrite Z.mod_small; lia).
    apply (overlap_settle s t _ None []); cbn [begin_distributed_tx fst next_id transactions history log]; rewrite ?app_nil_r; try done.
    + split; [cbn; by rewrite app_nil_r|]. intros tx r Hr Hs. exists r. split; [|done]. cbn. rewrite lookup_insert_ne; [done|]. intros <-.
      rewrite ov_fresh in Hr; [done..|lia].
    + lia.
    + rewrite E. intros k Hk. rewrite lookup_insert_ne; [apply ov_fresh; [done|lia]|]. intros ?%dtx_id_inj. lia.
    + intros tx r [[<- <-]|[Hne Hr]]%lookup_insert_Some Hs; [done|]. left. by exists r.
  - unfold prepare_start. destruct (transactions (coord s) !! tx) as [r|] eqn:Hr; [|exact Hsame]. destruct (state r) eqn:Hst; try exact Hsame.
    apply (overlap_record s t tx r (mkTxRecord Preparing ids) _ _ []); cbn; rewrite ?app_nil_r; try done; try congruence.
    intros call [= <-]. eexists. cbn. rewrite lookup_insert_eq. done.
  - unfold commit_start. destruct (transactions (coord s) !! tx) as [r|] eqn:Hr; [|exact Hsame]. destruct (state r) eqn:Hst; try exact Hsame.
    apply (overlap_record s t tx r (mkTxRecord Committing (participants r)) _ _ []); cbn; rewrite ?app_nil_r; try done.
    intros call [= <-]. eexists. cbn. rewrite lookup_insert_eq. split_and!; [done..|]. by apply (ov_prepared _ Hi).
  - unfold abort_start. destruct (transactions (coord s) !! tx) as [r|] eqn:Hr; [|exact Hsame].
    destruct (state r) eqn:Hst; try exact Hsame;
    (apply (overlap_record s t tx r (mkTxRecord Aborting (participants r)) _ _ []); cbn; rewrite ?app_nil_r; try done;
     intros call [= <-]; eexists; cbn; rewrite lookup_insert_eq; done).
Qed.
(** A step that changes no record *)
Lemma overlap_event s t c' call' evs : overlap_inv s → next_id c' = next_id (coord s) → transactions c' = transactions (coord s) →
  history c' = history (coord s) ++ evs → log_entries (log c') = log_entries (log (coord s)) ++ omap log_record evs →
  (∀ call, call' = Some call → call_founded c' call) → well_founded (history (coord s) ++ evs) → overlap_inv (settle s t (c', call')).
Proof.
  intros Hi Hn Ht Hh Hl Hc Hw. apply (overlap_settle s t c' call' evs); try done.
  - split; [done|]. intros tx r Hr Hs. exists r. by rewrite Ht.
  - rewrite Hn. by apply ov_next.
  - rewrite Hn, Ht. by apply ov_fresh.
  - rewrite Ht. intros tx r Hr Hs. left. by exists r.
Qed.
Lemma overlap_advance s t call : overlap_inv s → calls s !! t = Some call → overlap_inv (settle s t (call_advance handles (coord s) call)).
Proof.
  intros Hi Hcall. destruct (ov_calls _ Hi t call Hcall) as (r & Hr & Hs & Hok). pose proof (ov_history _ Hi) as Hw.
  assert (∀ st, st ≠ Initiated → (st = Prepared → ready (history (coord s)) (call_tx call) (participants r)) →
    overlap_inv (settle s t (set_tx_state (coord s) (call_tx call) st, None))) as Hfinish.
  { intros st Hst Hp. apply (overlap_record s t (call_tx call) r (mkTxRecord st (participants r)) _ _ []); cbn; rewrite ?app_nil_r; try done; [auto|].
    by apply (set_tx_state_record (coord s)). }
  assert (overlap_inv (settle s t (coord s, None))) as Hstop by (apply (overlap_event s t _ _ []); rewrite ?app_nil_r; done).
  assert (∀ ev call', is_call ev → founded (history (coord s)) ev → (∀ call, call' = Some call → call_founded (add_event (coord s) ev) call) →
    overlap_inv (settle s t (add_event (coord s) ev, call'))) as Hask.
  { intros ev call' Hev Hf Hc. apply (overlap_event s t _ _ [ev]); try done; [|by apply well_founded_snoc]. destruct ev; [done|..]; cbn; by rewrite app_nil_r. }
  assert (∀ e call', founded (history (coord s)) (EvLog e) → (∀ call, call' = Some call → call_founded (write_log (coord s) e) call) →
    overlap_inv (settle s t (write_log (coord s) e, call'))) as Hlog.
  { intros e call' Hf Hc. apply (overlap_event s t _ _ [EvLog e]); try done. by apply well_founded_snoc. }
  destruct call as [tx l|tx rest|tx|tx l|tx rest|tx l|tx rest]; cbn [call_tx] in *.
  - apply Hlog; [done|]. intros call [= <-]. exists r. cbn. split_and!; [done..| |].
    + rewrite Hok. apply logged_snoc. by right.
    + exists []. split; [done|]. by intros p ?%elem_of_nil.
  - destruct Hok as (Hl & voted & Hids & Hu). destruct rest as [|pid rest]; cbn [call_advance].
    { apply Hfinish; [done|]. intros _. split; [done|]. rewrite app_nil_r in Hids. by rewrite Hids. }
    destruct (handles !! pid) as [h|]; [|exact Hstop]. set (reply := handle_prepare h (history (coord s)) tx). apply Hask; [done|..].
    { exists (participants r). split; [done|]. rewrite Hids. apply elem_of_app. right. left. }
    destruct reply as [[]|e]; intros call [= <-]; exists r; cbn; split_and!; try done; [by apply logged_later|].
    exists (voted ++ [pid]). rewrite Hids, <- app_assoc. split; [done|]. by apply unanimous_vote.
  - by apply Hfinish.
  - apply Hlog; [by exists l|]. intros call [= <-]. exists r. cbn. split_and!; [done..| |]; [apply logged_snoc; by right|].
    exists l. split; [by apply ready_app|done].
  - destruct Hok as (Hl & ids & Hrd & Hin). destruct rest as [|pid rest]; cbn [call_advance]; [by apply Hfinish|].
    destruct (handles !! pid) as [h|]; [|exact Hstop]. set (reply := handle_commit h (history (coord s)) tx). apply Hask; [done|..].
    { split; [done|]. exists ids. split; [done|]. apply Hin. left. }
    destruct reply as [[]|e]; intros call [= <-]; exists r; cbn; split_and!; try done; [by apply logged_later|].
    exists ids. split; [by apply ready_app|]. intros p Hp. apply Hin. by right.
  - apply Hlog; [done|]. intros call [= <-]. exists r. cbn. split_and!; [done..|]. apply logged_snoc. by right.
  - destruct rest as [|pid rest]; cbn [call_advance]; [by apply Hfinish|]. destruct (handles !! pid) as [h|].
    + apply Hask; [done..|]. intros call [= <-]. exists r. cbn. split_and!; [done..|]. by apply logged_later.
    + apply (overlap_event s t _ _ []); rewrite ?app_nil_r; try done. intros call [= <-]. by exists r.
Qed.
Lemma overlap_run_inv acts s : overlap_inv s → next_id (coord s) + Z.of_nat (length acts) ≤ u64_max → overlap_inv (threads_run handles s acts).
Proof.
  revert s. induction acts as [|a acts IH]; intros s Hi Hn; cbn in *; [done|].
  pose proof (ov_next _ Hi). pose proof (thread_step_next handles s a ltac:(done) ltac:(lia)) as Hnext. apply IH; [|lia].
  destruct a as [t op|t]; cbn [thread_step]; destruct (calls s !! t) as [call|] eqn:Hc; try done; [apply overlap_start; try done; lia|by apply overlap_advance].
Qed.

(** C39: Nothing commits without all votes, however calls overlap. Let any threads run any calls, on the same
    transactions too, step by step in any order: a commit record is written, and a participant told to
    commit, only after the prepare record of the transaction and a yes of every participant in it; a
    participant is asked for its vote after that record, told to commit after the commit record and
    to abort after an abort record. *)
Theorem votes_before_commit acts : Z.of_nat (length acts) < u64_max →
  let c := coord (threads_run handles Threads_new acts) in
  log_entries (log c) = omap log_record (history c) ∧
  ∀ h ev h', history c = h ++ ev :: h' →
    match ev with
    | EvLog (LCommit tx) => ∃ ids, logged h (LPrepare tx ids) ∧ unanimous h tx ids
    | EvPrepare p tx _ => ∃ ids, logged h (LPrepare tx ids) ∧ p ∈ ids
    | EvCommit p tx _ => logged h (LCommit tx) ∧ ∃ ids, logged h (LPrepare tx ids) ∧ unanimous h tx ids ∧ p ∈ ids
    | EvAbort p tx _ => logged h (LAbort tx)
    | EvLog _ => True
    end.
Proof.
  intros Hlen c. assert (overlap_inv (threads_run handles Threads_new acts)) as Hi by (apply overlap_run_inv; [apply overlap_inv_new|cbn; lia]).
  split; [by apply ov_log|]. intros h ev h' E. pose proof (ov_history _ Hi h ev h' E) as Hf.
  destruct ev as [[| |]|p tx r|p tx r|p tx r]; try done. destruct Hf as (? & ids & [? ?] & ?). split; [done|]. by exists ids.
Qed.
End overlap.

(** ** A call alone *)
Section alone.
Context `{LogJson} (handles : gmap PartitionId Handle).
(** A thread that goes on without others in between runs the call of [TwoPhase.v]. *)
Fixpoint alone (fuel : nat) (r : Coordinator * option Call) : Coordinator * option Call :=
  match fuel, r with S fuel', (c, Some call) => alone fuel' (call_advance handles c call) | _, _ => r end.
Lemma alone_done fuel c : alone fuel (c, None) = (c, None).
Proof. by destruct fuel. Qed.
Lemma alone_votes c tx ids : alone (S (S (length ids))) (c, Some (PrepareVotes tx ids)) =
  (match prepare_loop handles c tx ids with (c', Ok yes) => prepare_finish c' tx yes | (c', Err _) => c' end, None).
Proof.
  revert c. induction ids as [|pid ids IH]; intros c; [done|].
  change (alone (S (S (length (pid :: ids)))) (c, Some (PrepareVotes tx (pid :: ids))))
    with (alone (S (S (length ids))) (call_advance handles c (PrepareVotes tx (pid :: ids)))).
  cbn [call_advance prepare_loop]. destruct (handles !! pid) as [h|]; [|apply alone_done].
  destruct (handle_prepare h (history c) tx) as [[]|e]; [apply IH|done|apply alone_done].
Qed.
Lemma alone_tell_commit c tx ids : alone (S (length ids)) (c, Some (CommitTell tx ids)) =
  (match commit_loop handles c tx ids with (c', Ok _) => set_tx_state c' tx Committed | (c', Err _) => c' end, None).
Proof.
  revert c. induction ids as [|pid ids IH]; intros c; [done|].
  change (alone (S (length (pid :: ids))) (c, Some (CommitTell tx (pid :: ids)))) with (alone (S (length ids)) (call_advance handles c (CommitTell tx (pid :: ids)))).
  cbn [call_advance commit_loop]. destruct (handles !! pid) as [h|]; [|apply alone_done].
  destruct (handle_commit h (history c) tx) as [[]|e]; [apply IH|apply alone_done].
Qed.
Lemma alone_tell_abort c tx ids : alone (S (length ids)) (c, Some (AbortTell tx ids)) = (set_tx_state (abort_loop handles c tx ids) tx Aborted, None).
Proof.
  revert c. induction ids as [|pid ids IH]; intros c; [done|].
  change (alone (S (length (pid :: ids))) (c, Some (AbortTell tx (pid :: ids)))) with (alone (S (length ids)) (call_advance handles c (AbortTell tx (pid :: ids)))).
  cbn [call_advance abort_loop]. destruct (handles !! pid) as [h|]; apply IH.
Qed.
(** The steps of a call, taken together, are the call. *)
Theorem call_alone c op : ∃ fuel, alone fuel (call_start c op) = (coord_step handles c op, None).
Proof.
  destruct op as [|tx ids|tx|tx]; cbn [call_start coord_step]; [by exists 0%nat| | |].
  - unfold prepare. destruct (prepare_start c tx ids) as [c1|e]; [|by exists 0%nat]. exists (S (S (S (length ids)))).
    change (alone (S (S (S (length ids)))) (c1, Some (PrepareLog tx ids))) with (alone (S (S (length ids))) (call_advance handles c1 (PrepareLog tx ids))).
    cbn [call_advance]. rewrite alone_votes. by destruct (prepare_loop _ _ _ _) as [c2 [yes|e]].
  - unfold commit. destruct (commit_start c tx) as [[c1 ids]|e]; [|by exists 0%nat]. exists (S (S (length ids))).
    change (alone (S (S (length ids))) (c1, Some (CommitLog tx ids))) with (alone (S (length ids)) (call_advance handles c1 (CommitLog tx ids))).
    cbn [call_advance]. rewrite alone_tell_commit. by destruct (commit_loop _ _ _ _) as [c2 [[]|e]].
  - unfold abort. destruct (abort_start c tx) as [[c1 ids]|e]; [|by exists 0%nat]. exists (S (S (length ids))).
    change (alone (S (S (length ids))) (c1, Some (AbortLog tx ids))) with (alone (S (length ids)) (call_advance handles c1 (AbortLog tx ids))).
    cbn [call_advance]. by rewrite alone_tell_abort.
Qed.
End alone.

(** ** Witnesses *)
#[local] Existing Instance binary_json.
#[local] Instance free_dec s tx : Decision (free s tx).
Proof. apply _. Defined.
#[local] Instance apart_dec s a : Decision (apart s a).
Proof. destruct a as [t op|t]; [cbn; destruct (op_tx op)|]; apply _. Defined.
#[local] Instance apart_run_dec `{LogJson} handles s acts : Decision (apart_run handles s acts).
Proof. revert s. induction acts; intros s; cbn; apply _. Defined.

Definition tx2 : DistributedTxId := dtx_id 2.
(** Two threads that prepare a transaction each, step by step in turns; then one commits and the other aborts. *)
Definition turns (n : nat) : list action := mjoin (repeat [Continue 0; Continue 1]%nat n).
Definition two_threads : list action :=
  [Start 0 OpBegin; Start 1 OpBegin; Start 0 (OpPrepare tx1 parts); Start 1 (OpPrepare tx2 parts)] ++ turns 4 ++
  [Start 0 (OpCommit tx1); Start 1 (OpAbort tx2)] ++ turns 4.
Lemma commit_needs_unanimity_witness :
  let c := coord (threads_run (pair_of false) Threads_new two_threads) in
  tx_status c tx1 = Some Committed ∧ tx_status c tx2 = Some Aborted ∧
  ∃ ids, unanimous (take 11 (history c)) tx1 ids ∧ "p2"%string ∈ ids.
Proof.
  intros c. destruct (commit_needs_unanimity (pair_of false) two_threads) as (_ & _ & Hc);
    [reflexivity|apply (bool_decide_unpack _); vm_compute; reflexivity|]. fold c in Hc.
  split_and!; [vm_compute; reflexivity..|].
  assert (history c = take 10 (history c) ++ EvCommit "p2" tx1 (Ok tt) :: drop 11 (history c)) as E by (vm_compute; reflexivity).
  destruct (Hc _ _ _ _ _ E) as (ids & _ & Hin & Hu & _). exists ids. split; [|done].
  intros p Hp. rewrite (take_S_r _ 10 (EvCommit "p2" tx1 (Ok tt))) by (vm_compute; reflexivity). apply elem_of_app. left. by apply Hu.
Defined.
(** The threads work on the same transaction: the abort comes between the last vote and the end of the
    prepare call, so that the transaction is Prepared again and is committed after its abort record. *)
Definition on_one_transaction : list action :=
  [Start 0 OpBegin; Start 0 (OpPrepare tx1 parts); Continue 0; Continue 0; Continue 0; Start 1 (OpAbort tx1)]%nat ++
  repeat (Continue 1) 4 ++ [Continue 0; Start 0 (OpCommit tx1)]%nat ++ repeat (Continue 0%nat) 4.
Lemma votes_before_commit_witness :
  let c := coord (threads_run (pair_of false) Threads_new on_one_transaction) in
  ¬ apart_run (pair_of false) Threads_new on_one_transaction ∧ logged (take 6 (history c)) (LAbort tx1) ∧
  ∃ ids, unanimous (take 7 (history c)) tx1 ids ∧ "p1"%string ∈ ids.
Proof.
  intros c. split; [apply (bool_decide_unpack _); vm_compute; reflexivity|].
  split; [unfold logged; apply (bool_decide_unpack _); vm_compute; reflexivity|].
  destruct (votes_before_commit (pair_of false) on_one_transaction) as (_ & Hc); [reflexivity|]. fold c in Hc.
  assert (history c = take 7 (history c) ++ EvCommit "p1" tx1 (Ok tt) :: drop 8 (history c)) as E by (vm_compute; reflexivity).
  destruct (Hc _ _ _ E) as (_ & ids & _ & Hu & Hin). exists ids. split; [exact Hu|exact Hin].
Defined.
