(* ===== verification/LogStore.v ===== *)
(** * The Raft log and state store (synaptica-cluster: log_store.rs, state_machine.rs, raft.rs)

    Log entries live in the column family RAFT_LOG under the big-endian index, and the vote, the
    purged, committed and applied markers and the membership in RAFT_META. The types of a log
    identifier's leader, of a membership and of a vote are openraft's ([OpenRaft]); log
    identifiers, entries and snapshots have the public fields the code reads. The query engine a
    committed request is handed to is the interface [QueryEngine]. Operations that write more
    than once return the database with the outcome. The abstract state is [raft_state]. *)
From S2P Require Import Prelude Types Rocks Encoding Engine.
Import Encoding ColumnFamilies.

Class OpenRaft : Type := {
  CommittedLeaderId : Type;
  Membership : Type;
  membership_default : Membership;
  Vote : Type
}.

(** ** raft.rs *)
Inductive RaftRequest : Type := WriteQuery (query graph_name : string).
Record RaftResponse := mkRaftResponse {
  success : bool;
  error : option string;
  rows_affected : Z;
  r_nodes_created : Z;
  r_nodes_deleted : Z;
  r_edges_created : Z;
  r_edges_deleted : Z;
  r_properties_set : Z
}.
Definition RaftResponse_default : RaftResponse := mkRaftResponse false None 0 0 0 0 0 0.
Definition response_ok : RaftResponse := mkRaftResponse true None 0 0 0 0 0 0.

(** ** state_machine.rs: parsing and executing a program are the query engine's *)
Record ExecStats := mkExecStats {
  nodes_created : Z; nodes_deleted : Z; edges_created : Z; edges_deleted : Z; properties_set : Z
}.
Inductive ProgramError : Type := PlanError (msg : string) | ExecutionError (msg : string).
Class QueryEngine (db : Type) : Type := {
  Program : Type;
  parse : string → result string Program;
  (** the database, the number of records and the statistics *)
  execute_program : db → GraphId → Program → db * result ProgramError (nat * ExecStats)
}.
Definition raft_failure (message : string) : RaftResponse := mkRaftResponse false (Some message) 0 0 0 0 0 0.
Section applier.
Context `{QueryEngine db} (new_v5 : bytes → bytes → Uuid).
Definition apply_write_query (d : db) (query graph_name : string) : db * RaftResponse :=
  let graph_id := GraphId_from_name new_v5 graph_name in
  match parse query with
  | Err e => (d, raft_failure ("parse error: " +:+ e))
  | Ok program =>
      match execute_program d graph_id program with
      | (d', Ok (records, stats)) =>
          (d', mkRaftResponse true None (Z.of_nat records) (nodes_created stats) (nodes_deleted stats)
             (edges_created stats) (edges_deleted stats) (properties_set stats))
      | (d', Err (PlanError e)) => (d', raft_failure ("plan error: " +:+ e))
      | (d', Err (ExecutionError e)) => (d', raft_failure ("execution error: " +:+ e))
      end
  end.
Definition apply_request (d : db) (request : RaftRequest) : db * RaftResponse :=
  match request with WriteQuery query graph_name => apply_write_query d query graph_name end.
End applier.

(** ** openraft's records *)
Section types.
Context {OR : OpenRaft}.
Record LogId := mkLogId { leader_id : CommittedLeaderId; log_index : Z }.
Inductive EntryPayload : Type := Blank | Normal (req : RaftRequest) | MembershipChange (mem : Membership).
Record Entry := mkEntry { log_id : LogId; payload : EntryPayload }.
Record SnapshotMeta := mkSnapshotMeta {
  last_log_id : option LogId; last_membership : option LogId * Membership; snapshot_id : string
}.
Record StoredSnapshot := mkStoredSnapshot { snap_meta : SnapshotMeta; snap_data : bytes }.
Record LogState := mkLogState { state_last_purged : option LogId; state_last : option LogId }.
End types.
Abbreviation StoredMembership := (option LogId * Membership)%type.

Inductive IOError : Type :=
| ErrReadLogs | ErrWriteLogs | ErrWriteLogEntry | ErrRead | ErrWrite | ErrReadVote | ErrWriteVote | ErrReadStateMachine.
Definition io {A} (e : IOError) (r : result StorageError A) : result IOError A := map_err (λ _, e) r.
Definition io_ser {A} (e : IOError) (r : result string A) : result IOError A := map_err (λ _, e) r.

Definition VOTE_KEY : bytes := str_bytes "raft_vote".
Definition LAST_PURGED_KEY : bytes := str_bytes "raft_last_purged".
Definition COMMITTED_KEY : bytes := str_bytes "raft_committed".
Definition LAST_APPLIED_KEY : bytes := str_bytes "raft_last_applied".
Definition LAST_MEMBERSHIP_KEY : bytes := str_bytes "raft_last_membership".

Inductive Bound : Type := Included (i : Z) | Excluded (i : Z) | Unbounded.

Section store.
Context `{RocksDB db} {OR : OpenRaft}.
Context `{Bincode Entry, Bincode LogId, Bincode Vote, Bincode (option LogId * Membership)}.
Implicit Types d : db.

(** The store: database and current snapshot. *)
Record LogStore := mkLogStore { storage : db; current_snapshot : option StoredSnapshot }.
Definition LogStore_new d : LogStore := mkLogStore d None.

Definition index_to_key (index : Z) : bytes := be_bytes 8 index.
Definition read_meta {A} `{Bincode A} (e : IOError) d (key : bytes) : result IOError (option A) :=
  match io e (raft_meta_get d key) with
  | Err e => Err e
  | Ok None => Ok None
  | Ok (Some v) => match io_ser e (bincode_deserialize v) with Err e => Err e | Ok a => Ok (Some a) end
  end.
Definition write_meta {A} `{Bincode A} (e : IOError) d (key : bytes) (a : A) : result IOError db :=
  match io_ser e (bincode_serialize a) with
  | Err e => Err e
  | Ok b => io e (raft_meta_put d key b)
  end.

(** ** Log reads *)
Fixpoint read_entries (end_ : option Z) (scanned : list (bytes * bytes)) : result IOError (list Entry) :=
  match scanned with
  | [] => Ok []
  | (key, value) :: rest =>
      if negb (length key =? 8)%nat then read_entries end_ rest
      else
        let index := be_val (take 8 key) in
        if match end_ with Some end_idx => end_idx <=? index | None => false end then Ok []
        else match io_ser ErrReadLogs (bincode_deserialize value) with
             | Err e => Err e
             | Ok entry => match read_entries end_ rest with Err e => Err e | Ok es => Ok (entry :: es) end
             end
  end.
Definition read_log_entries_sync d (start : Z) (end_ : option Z) : result IOError (list Entry) :=
  match io ErrReadLogs (raft_log_scan_from d (index_to_key start)) with
  | Err e => Err e
  | Ok scanned => read_entries end_ scanned
  end.
Definition last_log_id_sync d : result IOError (option LogId) :=
  match io ErrReadLogs (raft_log_last d) with
  | Err e => Err e
  | Ok None => Ok None
  | Ok (Some value) =>
      match io_ser ErrReadLogs (bincode_deserialize value) with
      | Err e => Err e
      | Ok entry => Ok (Some (log_id entry))
      end
  end.
Definition try_get_log_entries d (start_bound end_bound : Bound) : result IOError (list Entry) :=
  let start := match start_bound with Included s => s | Excluded s => wrap64 (s + 1) | Unbounded => 0 end in
  let end_ := match end_bound with Included e => Some (wrap64 (e + 1)) | Excluded e => Some e | Unbounded => None end in
  read_log_entries_sync d start end_.
Definition get_log_state d : result IOError LogState :=
  match read_meta ErrRead d LAST_PURGED_KEY with
  | Err e => Err e
  | Ok last_purged =>
      match last_log_id_sync d with
      | Err e => Err e
      | Ok last_log => Ok (mkLogState last_purged (match last_log with Some l => Some l | None => last_purged end))
      end
  end.

(** ** Log writes *)
Fixpoint delete_keys d (keys : list bytes) : db * result IOError unit :=
  match keys with
  | [] => (d, Ok tt)
  | key :: rest =>
      match io ErrWriteLogs (raft_log_delete d key) with
      | Err e => (d, Err e)
      | Ok d' => delete_keys d' rest
      end
  end.
Definition delete_logs_from_sync d (from_index : Z) : db * result IOError unit :=
  match io ErrReadLogs (raft_log_scan_from d (index_to_key from_index)) with
  | Err e => (d, Err e)
  | Ok scanned => delete_keys d (fst <$> scanned)
  end.
Definition saturating_add (a b : Z) : Z := Z.min u64_max (a + b).
Definition delete_logs_upto_sync d (upto_index : Z) : db * result IOError unit :=
  let end_key := index_to_key (saturating_add upto_index 1) in
  match io ErrReadLogs (raft_log_scan_from d (index_to_key 0)) with
  | Err e => (d, Err e)
  | Ok scanned => delete_keys d (omap (λ kv : bytes * bytes, if bytes_ltb kv.1 end_key then Some kv.1 else None) scanned)
  end.
Definition delete_conflict_logs_since d (id : LogId) : db * result IOError unit := delete_logs_from_sync d (log_index id).
Definition purge_logs_upto d (id : LogId) : db * result IOError unit :=
  match write_meta ErrWrite d LAST_PURGED_KEY id with
  | Err e => (d, Err e)
  | Ok d' => delete_logs_upto_sync d' (log_index id)
  end.
Definition append_entry (entry : Entry) d : result IOError db :=
  match io_ser ErrWriteLogEntry (bincode_serialize entry) with
  | Err e => Err e
  | Ok value => io ErrWriteLogEntry (raft_log_put d (index_to_key (log_index (log_id entry))) value)
  end.
Definition append_to_log d (entries : list Entry) : db * result IOError unit :=
  for_each_st (λ entry d, lift_st d (append_entry entry d)) entries d.

(** ** Vote and committed marker *)
Definition save_vote d (vote : Vote) : result IOError db := write_meta ErrWriteVote d VOTE_KEY vote.
Definition read_vote d : result IOError (option Vote) := read_meta ErrReadVote d VOTE_KEY.
Definition save_committed d (committed : option LogId) : result IOError db :=
  match committed with
  | Some c => write_meta ErrWrite d COMMITTED_KEY c
  | None => match raft_meta_delete d COMMITTED_KEY with Ok d' => Ok d' | Err _ => Ok d end
  end.
Definition read_committed d : result IOError (option LogId) := read_meta ErrRead d COMMITTED_KEY.

(** ** The state machine *)
Definition last_applied_state d : result IOError (option LogId * StoredMembership) :=
  match read_meta ErrReadStateMachine d LAST_APPLIED_KEY with
  | Err e => Err e
  | Ok last_applied =>
      match read_meta ErrReadStateMachine d LAST_MEMBERSHIP_KEY with
      | Err e => Err e
      | Ok mem => Ok (last_applied, default (None, membership_default) mem)
      end
  end.
(** The two halves of applying an entry: the marker is written first. *)
Definition record_applied d (entry : Entry) : result IOError db := write_meta ErrWrite d LAST_APPLIED_KEY (log_id entry).
Definition apply_payload (applier : option (db → RaftRequest → db * RaftResponse)) d (entry : Entry)
    : db * result IOError RaftResponse :=
  match payload entry with
  | Blank => (d, Ok response_ok)
  | MembershipChange mem =>
      match write_meta ErrWrite d LAST_MEMBERSHIP_KEY (Some (log_id entry), mem) with
      | Err e => (d, Err e)
      | Ok d' => (d', Ok response_ok)
      end
  | Normal req =>
      match applier with
      | Some apply => let '(d', response) := apply d req in (d', Ok response)
      | None => (d, Ok response_ok)
      end
  end.
Fixpoint apply_to_state_machine (applier : option (db → RaftRequest → db * RaftResponse)) d (entries : list Entry)
    : db * result IOError (list RaftResponse) :=
  match entries with
  | [] => (d, Ok [])
  | entry :: rest =>
      match record_applied d entry with
      | Err e => (d, Err e)
      | Ok d1 =>
          match apply_payload applier d1 entry with
          | (d2, Err e) => (d2, Err e)
          | (d2, Ok response) =>
              match apply_to_state_machine applier d2 rest with
              | (d3, Err e) => (d3, Err e)
              | (d3, Ok responses) => (d3, Ok (response :: responses))
              end
          end
      end
  end.

(** ** Snapshots *)
Definition install_meta d (meta : SnapshotMeta) : db * result IOError unit :=
  match match last_log_id meta with Some l => write_meta ErrWrite d LAST_APPLIED_KEY l | None => Ok d end with
  | Err e => (d, Err e)
  | Ok d1 => lift_st d1 (write_meta ErrWrite d1 LAST_MEMBERSHIP_KEY (last_membership meta))
  end.
Definition install_snapshot (s : LogStore) (meta : SnapshotMeta) (data : bytes) : LogStore * result IOError unit :=
  match install_meta (storage s) meta with
  | (d, Err e) => (mkLogStore d (current_snapshot s), Err e)
  | (d, Ok _) => (mkLogStore d (Some (mkStoredSnapshot meta data)), Ok tt)
  end.
Definition get_current_snapshot (s : LogStore) : option StoredSnapshot := current_snapshot s.
Definition build_snapshot (new_uuid : string) (s : LogStore) : LogStore * result IOError StoredSnapshot :=
  match last_applied_state (storage s) with
  | Err e => (s, Err e)
  | Ok (last_applied, mem) =>
      let index := match last_applied with Some l => log_index l | None => 0 end in
      let id := "snapshot-" +:+ pretty index +:+ "-" +:+ new_uuid in
      let snapshot := mkStoredSnapshot (mkSnapshotMeta last_applied mem id) [] in
      (mkLogStore (storage s) (Some snapshot), Ok snapshot)
  end.
End store.

(** ** The abstract state *)
Section abstract.
Context {OR : OpenRaft}.
Record raft_state := mkRaftState {
  rs_log : gmap Z Entry;
  rs_vote : option Vote;
  rs_purged : option LogId;
  rs_committed : option LogId;
  rs_applied : option LogId;
  rs_membership : option StoredMembership
}.
Definition raft_state_empty : raft_state := mkRaftState ∅ None None None None None.
Inductive raft_op : Type :=
| RSaveVote (v : Vote)
| RSaveCommitted (c : option LogId)
| RAppend (es : list Entry)
| RTruncate (id : LogId)
| RPurge (id : LogId)
| RApply (es : list Entry)
| RInstall (meta : SnapshotMeta).
Definition entry_index (e : Entry) : Z := log_index (log_id e).
Definition abs_append (m : gmap Z Entry) (es : list Entry) : gmap Z Entry :=
  foldl (λ m e, <[entry_index e := e]> m) m es.
Definition abs_apply (R : raft_state) (e : Entry) : raft_state :=
  mkRaftState (rs_log R) (rs_vote R) (rs_purged R) (rs_committed R) (Some (log_id e))
    (match payload e with MembershipChange mem => Some (Some (log_id e), mem) | _ => rs_membership R end).
Definition abs_step (R : raft_state) (op : raft_op) : raft_state :=
  match op with
  | RSaveVote v => mkRaftState (rs_log R) (Some v) (rs_purged R) (rs_committed R) (rs_applied R) (rs_membership R)
  | RSaveCommitted c => mkRaftState (rs_log R) (rs_vote R) (rs_purged R) c (rs_applied R) (rs_membership R)
  | RAppend es =>
      mkRaftState (abs_append (rs_log R) es) (rs_vote R) (rs_purged R) (rs_committed R) (rs_applied R) (rs_membership R)
  | RTruncate id =>
      mkRaftState (filter (λ x, x.1 < log_index id) (rs_log R)) (rs_vote R) (rs_purged R) (rs_committed R)
        (rs_applied R) (rs_membership R)
  | RPurge id =>
      mkRaftState (filter (λ x, log_index id < x.1) (rs_log R)) (rs_vote R) (Some id) (rs_committed R)
        (rs_applied R) (rs_membership R)
  | RApply es => foldl abs_apply R es
  | RInstall meta =>
      mkRaftState (rs_log R) (rs_vote R) (rs_purged R) (rs_committed R)
        (match last_log_id meta with Some l => Some l | None => rs_applied R end) (Some (last_membership meta))
  end.
(** Indices are u64; the last index is never purged up to. *)
Definition op_wf (op : raft_op) : Prop :=
  match op with
  | RAppend es => Forall (λ e, is_u64 (entry_index e)) es
  | RTruncate id => is_u64 (log_index id)
  | RPurge id => 0 ≤ log_index id < u64_max
  | _ => True
  end.
End abstract.

Section refinement.
Context `{RocksDBLaws db} {OR : OpenRaft}.
Context `{BincodeLaws Entry, BincodeLaws LogId, BincodeLaws Vote, BincodeLaws (option LogId * Membership)}.
Implicit Types (d : db) (R : raft_state) (m : gmap Z Entry).

Lemma serialize_ser {A} `{BincodeLaws A} (a : A) : bincode_serialize a = Ok (ser a).
Proof. destruct (bincode_roundtrip a) as (b & Hs & _). unfold ser. by rewrite Hs. Qed.
Lemma deserialize_ser {A} `{BincodeLaws A} (a : A) : bincode_deserialize (ser a) = Ok a.
Proof. destruct (bincode_roundtrip a) as (b & Hs & Hd). unfold ser. by rewrite Hs, Hd. Qed.
Lemma write_meta_ok {A} `{BincodeLaws A} e d key (a : A) : write_meta e d key a = Ok (put_cf d RAFT_META key (ser a)).
Proof. unfold write_meta. rewrite serialize_ser. reflexivity. Qed.
Lemma read_meta_ok {A} `{BincodeLaws A} e d key (x : option A) :
  get_cf d RAFT_META key = ser <$> x → read_meta e d key = Ok x.
Proof.
  intros E. unfold read_meta. change (io e (raft_meta_get d key)) with (Ok (E := IOError) (get_cf d RAFT_META key)).
  rewrite E. destruct x as [a|]; cbn; [|done]. by rewrite deserialize_ser.
Qed.

(** What the log column family holds for a log. *)
Definition log_cell m (k : bytes) : option bytes :=
  if decide (length k = 8%nat) then ser <$> m !! be_val k else None.
Record raft_rep d R : Prop := {
  rep_log k : get_cf d RAFT_LOG k = log_cell (rs_log R) k;
  rep_wf i e : rs_log R !! i = Some e → is_u64 i ∧ entry_index e = i;
  rep_vote : get_cf d RAFT_META VOTE_KEY = ser <$> rs_vote R;
  rep_purged : get_cf d RAFT_META LAST_PURGED_KEY = ser <$> rs_purged R;
  rep_committed : get_cf d RAFT_META COMMITTED_KEY = ser <$> rs_committed R;
  rep_applied : get_cf d RAFT_META LAST_APPLIED_KEY = ser <$> rs_applied R;
  rep_membership : get_cf d RAFT_META LAST_MEMBERSHIP_KEY = ser <$> rs_membership R
}.

Lemma index_key_iff k i : is_u64 i → index_to_key i = k ↔ length k = 8%nat ∧ be_val k = i.
Proof.
  intros Hi. unfold index_to_key. split.
  - intros <-. split; [apply length_be_bytes|]. apply be_val_be_bytes. by rewrite <- two64_256.
  - intros [Hl <-]. rewrite <- Hl. apply be_bytes_be_val.
Qed.
Lemma key_le_iff i k : is_u64 i → length k = 8%nat → bytes_le (index_to_key i) k ↔ i ≤ be_val k.
Proof.
  intros Hi Hl. rewrite bytes_le_not_lt, bytes_lt_be_val by (unfold index_to_key; by rewrite length_be_bytes).
  assert (be_val (index_to_key i) = i) as -> by by apply (index_key_iff (index_to_key i)). lia.
Qed.

(** Writing one marker. *)
Lemma put_meta_other d key v k : get_cf (put_cf d RAFT_META key v) RAFT_LOG k = get_cf d RAFT_LOG k.
Proof. apply get_cf_put_ne. discriminate. Qed.
Ltac meta_cell := first [rewrite get_cf_put_eq; done | rewrite get_cf_put_ne by discriminate; by eauto using rep_vote,
  rep_purged, rep_committed, rep_applied, rep_membership
  | rewrite get_cf_delete_eq; done | rewrite get_cf_delete_ne by discriminate; by eauto using rep_vote,
  rep_purged, rep_committed, rep_applied, rep_membership].
Ltac meta_rep HR := split; cbn; [intros k; rewrite ?get_cf_put_ne, ?get_cf_delete_ne by discriminate; apply (rep_log _ _ HR)
  |apply (rep_wf _ _ HR)|meta_cell..].
Lemma save_vote_rep d R v : raft_rep d R → ∃ d', save_vote d v = Ok d' ∧ raft_rep d' (abs_step R (RSaveVote v)).
Proof. intros HR. eexists. split; [apply write_meta_ok|]. meta_rep HR. Qed.
Lemma save_committed_rep d R c : raft_rep d R → ∃ d', save_committed d c = Ok d' ∧ raft_rep d' (abs_step R (RSaveCommitted c)).
Proof.
  intros HR. destruct c as [c|]; eexists; (split; [cbn; try apply write_meta_ok; reflexivity|]); meta_rep HR.
Qed.
Lemma set_purged_rep d R id : raft_rep d R →
  raft_rep (put_cf d RAFT_META LAST_PURGED_KEY (ser id))
    (mkRaftState (rs_log R) (rs_vote R) (Some id) (rs_committed R) (rs_applied R) (rs_membership R)).
Proof. intros HR. meta_rep HR. Qed.
Lemma set_applied_rep d R id : raft_rep d R →
  raft_rep (put_cf d RAFT_META LAST_APPLIED_KEY (ser id))
    (mkRaftState (rs_log R) (rs_vote R) (rs_purged R) (rs_committed R) (Some id) (rs_membership R)).
Proof. intros HR. meta_rep HR. Qed.
Lemma set_membership_rep d R (mem : StoredMembership) : raft_rep d R →
  raft_rep (put_cf d RAFT_META LAST_MEMBERSHIP_KEY (ser mem))
    (mkRaftState (rs_log R) (rs_vote R) (rs_purged R) (rs_committed R) (rs_applied R) (Some mem)).
Proof. intros HR. meta_rep HR. Qed.

(** Changing the log. *)
Lemma log_update_rep d d' R m : raft_rep d R →
  (∀ k, get_cf d' RAFT_META k = get_cf d RAFT_META k) → (∀ k, get_cf d' RAFT_LOG k = log_cell m k) →
  (∀ i e, m !! i = Some e → is_u64 i ∧ entry_index e = i) →
  raft_rep d' (mkRaftState m (rs_vote R) (rs_purged R) (rs_committed R) (rs_applied R) (rs_membership R)).
Proof. intros [] Hm Hl Hw. split; cbn; rewrite ?Hm; done. Qed.
Lemma append_entry_rep d R e : raft_rep d R → is_u64 (entry_index e) →
  ∃ d', append_entry e d = Ok d' ∧ raft_rep d' (abs_step R (RAppend [e])).
Proof.
  intros HR Hi. exists (put_cf d RAFT_LOG (index_to_key (entry_index e)) (ser e)). split.
  { unfold append_entry. by rewrite serialize_ser. }
  cbn. apply (log_update_rep d); [done| | |].
  - intros k. apply get_cf_put_ne. discriminate.
  - intros k. unfold log_cell. destruct (decide (index_to_key (entry_index e) = k)) as [Hk|Hk].
    + rewrite <- Hk at 1. rewrite get_cf_put_eq. apply index_key_iff in Hk as [Hl Hv]; [|done].
      by rewrite decide_True, Hv, lookup_insert_eq by done.
    + rewrite get_cf_put_ne by (intros E; by injection E). rewrite (rep_log _ _ HR). unfold log_cell. case_decide; [|done].
      rewrite lookup_insert_ne; [done|]. intros E. apply Hk. by apply index_key_iff.
  - intros i e' [[<- <-]|[_ ?]]%lookup_insert_Some; [done|]. by eapply rep_wf.
Qed.
Lemma append_rep es d R : raft_rep d R → Forall (λ e, is_u64 (entry_index e)) es →
  ∃ d', append_to_log d es = (d', Ok tt) ∧ raft_rep d' (abs_step R (RAppend es)).
Proof.
  revert d R. induction es as [|e es IH]; intros d R HR Hall.
  { exists d. split; [done|]. by destruct R. }
  apply Forall_cons in Hall as [He Hall]. destruct (append_entry_rep d R e HR He) as (d1 & E1 & HR1).
  destruct (IH d1 _ HR1 Hall) as (d2 & E2 & HR2). exists d2. split; [|exact HR2].
  unfold append_to_log in *. cbn. rewrite E1. exact E2.
Qed.
Lemma delete_keys_spec keys d : ∃ d', delete_keys d keys = (d', Ok tt) ∧
  ∀ cf k, get_cf d' cf k = if decide (cf = RAFT_LOG ∧ k ∈ keys) then None else get_cf d cf k.
Proof.
  revert d. induction keys as [|key keys IH]; intros d.
  { exists d. split; [done|]. intros. rewrite decide_False; [done|]. by intros [_ ?%elem_of_nil]. }
  destruct (IH (delete_cf d RAFT_LOG key)) as (d' & E & Hd). exists d'. split; [exact E|]. intros cf k. rewrite Hd.
  destruct (decide ((RAFT_LOG, key) = (cf, k))) as [[= <- <-]|Hne].
  - rewrite get_cf_delete_eq, (decide_True (P := _ ∧ _ ∈ key :: keys)); [by case_decide|]. split; [done|left].
  - rewrite get_cf_delete_ne by done. assert (cf = RAFT_LOG ∧ k ∈ key :: keys ↔ cf = RAFT_LOG ∧ k ∈ keys) as Hiff.
    { rewrite elem_of_cons. split; [|naive_solver]. intros [-> [->|?]]; [done|naive_solver]. }
    repeat case_decide; naive_solver.
Qed.
(** Deleting the log keys a test selects. *)
Lemma delete_log_rep (P : Z → Prop) `{∀ i, Decision (P i)} keys d R : raft_rep d R →
  (∀ k v, get_cf d RAFT_LOG k = Some v → k ∈ keys ↔ ¬ P (be_val k)) →
  ∃ d', delete_keys d keys = (d', Ok tt) ∧
    raft_rep d' (mkRaftState (filter (λ x, P x.1) (rs_log R)) (rs_vote R) (rs_purged R) (rs_committed R)
      (rs_applied R) (rs_membership R)).
Proof.
  intros HR Hk. destruct (delete_keys_spec keys d) as (d' & E & Hd). exists d'. split; [exact E|].
  apply (log_update_rep d); [done|intros k; rewrite Hd, decide_False; [done|by intros [[=] _]]| |].
  - intros k. rewrite Hd, (rep_log _ _ HR). unfold log_cell. destruct (decide (length k = 8%nat)) as [Hl|]; [|by case_decide].
    destruct (rs_log R !! be_val k) as [e|] eqn:He.
    + assert (k ∈ keys ↔ ¬ P (be_val k)) as Hiff.
      { eapply Hk. rewrite (rep_log _ _ HR). unfold log_cell. by rewrite decide_True, He. }
      destruct (decide (P (be_val k))) as [HP|HP].
      * rewrite decide_False by tauto. by rewrite (map_lookup_filter_Some_2 _ _ _ e).
      * rewrite decide_True by tauto. rewrite (map_lookup_filter_None_2 _ (rs_log R)); [done|]. right. naive_solver.
    + rewrite (map_lookup_filter_None_2 _ (rs_log R)) by auto. by case_decide.
  - intros i e [Hi _]%map_lookup_filter_Some. by eapply rep_wf.
Qed.
Lemma log_key_length d R k v : raft_rep d R → get_cf d RAFT_LOG k = Some v → length k = 8%nat.
Proof. intros HR. rewrite (rep_log _ _ HR). unfold log_cell. by case_decide. Qed.
Lemma elem_of_log_keys d R s k v : raft_rep d R → is_u64 s → get_cf d RAFT_LOG k = Some v →
  k ∈ (iterator_from d RAFT_LOG (index_to_key s)).*1 ↔ s ≤ be_val k.
Proof.
  intros HR Hs Hk. rewrite <- key_le_iff by (done || by eapply log_key_length). rewrite list_elem_of_fmap. split.
  - intros ([k' v'] & -> & [_ ?]%elem_of_iterator_from). done.
  - intros Hle. exists (k, v). by rewrite elem_of_iterator_from.
Qed.
Lemma truncate_rep d R id : raft_rep d R → is_u64 (log_index id) →
  ∃ d', delete_conflict_logs_since d id = (d', Ok tt) ∧ raft_rep d' (abs_step R (RTruncate id)).
Proof.
  intros HR Hi. unfold delete_conflict_logs_since, delete_logs_from_sync.
  change (io ErrReadLogs (raft_log_scan_from d (index_to_key (log_index id)))) with
    (Ok (E := IOError) (iterator_from d RAFT_LOG (index_to_key (log_index id)))). cbn [abs_step].
  refine (delete_log_rep (λ i, i < log_index id) _ d R HR _). intros k v Hk.
  rewrite elem_of_log_keys by done. lia.
Qed.
Lemma purge_rep d R id : raft_rep d R → 0 ≤ log_index id < u64_max →
  ∃ d', purge_logs_upto d id = (d', Ok tt) ∧ raft_rep d' (abs_step R (RPurge id)).
Proof.
  intros HR Hi. unfold u64_max in Hi. unfold purge_logs_upto. rewrite write_meta_ok.
  pose proof (set_purged_rep _ _ id HR) as HR1. set (d1 := put_cf d _ _ _) in *.
  unfold delete_logs_upto_sync. change (io ErrReadLogs (raft_log_scan_from d1 (index_to_key 0))) with
    (Ok (E := IOError) (iterator_from d1 RAFT_LOG (index_to_key 0))). cbn [abs_step].
  apply (delete_log_rep (λ i, log_index id < i) _ _ _ HR1). intros k v Hk.
  assert (is_u64 0) as H0' by (unfold is_u64, two64; lia).
  assert (is_u64 (log_index id + 1)) as H1' by (unfold is_u64; lia).
  pose proof (log_key_length _ _ _ _ HR1 Hk) as Hl.
  assert (saturating_add (log_index id) 1 = log_index id + 1) as -> by (unfold saturating_add, u64_max; lia).
  assert (bytes_ltb k (index_to_key (log_index id + 1)) = true ↔ be_val k < log_index id + 1) as Hlt.
  { rewrite <- Z.nle_gt, <- key_le_iff by done. rewrite bytes_le_not_lt. unfold bytes_lt. destruct (bytes_ltb _ _); naive_solver. }
  rewrite list_elem_of_omap. pose proof (elem_of_log_keys _ _ 0 _ _ HR1 H0' Hk) as Hin. rewrite list_elem_of_fmap in Hin.
  split.
  - intros ([k' v'] & _ & Hc). cbn in Hc. destruct (bytes_ltb k' _) eqn:E; [|done]. injection Hc as ->. apply Hlt in E. lia.
  - intros Hle. destruct Hin as [_ Hin]. destruct Hin as (kv & -> & Hin).
    { pose proof (be_val_range k). lia. }
    exists kv. split; [done|]. rewrite (proj2 Hlt) by lia. done.
Qed.

(** An applier that leaves the Raft column families alone. *)
Definition applier_local (applier : option (db → RaftRequest → db * RaftResponse)) : Prop :=
  ∀ f, applier = Some f → ∀ d req k,
    get_cf (f d req).1 RAFT_LOG k = get_cf d RAFT_LOG k ∧ get_cf (f d req).1 RAFT_META k = get_cf d RAFT_META k.
Lemma apply_payload_rep applier d R e : applier_local applier → raft_rep (put_cf d RAFT_META LAST_APPLIED_KEY (ser (log_id e))) R →
  ∃ d' r, apply_payload applier (put_cf d RAFT_META LAST_APPLIED_KEY (ser (log_id e))) e = (d', Ok r) ∧
    raft_rep d' (mkRaftState (rs_log R) (rs_vote R) (rs_purged R) (rs_committed R) (rs_applied R)
      (match payload e with MembershipChange mem => Some (Some (log_id e), mem) | _ => rs_membership R end)).
Proof.
  intros Ha HR. unfold apply_payload. destruct (payload e) as [|req|mem].
  - do 2 eexists. split; [done|]. by destruct R.
  - destruct applier as [f|]; [|do 2 eexists; split; [done|]; by destruct R].
    pose proof (λ k, Ha f eq_refl (put_cf d RAFT_META LAST_APPLIED_KEY (ser (log_id e))) req k) as Hf.
    destruct (f _ req) as [d' r]. exists d', r. split; [done|]. destruct HR.
    split; cbn in *; try (intros; rewrite (proj1 (Hf _)); done); try (rewrite (proj2 (Hf _)); done); done.
  - rewrite write_meta_ok. do 2 eexists. split; [done|]. by apply set_membership_rep.
Qed.
Lemma apply_rep applier es d R : applier_local applier → raft_rep d R →
  ∃ d' rs, apply_to_state_machine applier d es = (d', Ok rs) ∧ length rs = length es ∧ raft_rep d' (foldl abs_apply R es).
Proof.
  intros Ha. revert d R. induction es as [|e es IH]; intros d R HR; cbn.
  { by exists d, []. }
  unfold record_applied. rewrite write_meta_ok.
  destruct (apply_payload_rep applier d _ e Ha (set_applied_rep _ _ (log_id e) HR)) as (d1 & r & -> & HR1).
  destruct (IH d1 _ HR1) as (d2 & rs & -> & Hl & HR2). exists d2, (r :: rs). cbn in *. split_and!; [done|by rewrite Hl|done].
Qed.
Lemma install_rep d R meta : raft_rep d R →
  ∃ d', install_meta d meta = (d', Ok tt) ∧ raft_rep d' (abs_step R (RInstall meta)).
Proof.
  intros HR. unfold install_meta. destruct (last_log_id meta) as [l|] eqn:El; rewrite ?write_meta_ok;
    eexists; (split; [reflexivity|]); cbn [abs_step]; rewrite El.
  - exact (set_membership_rep _ _ (last_membership meta) (set_applied_rep d R l HR)).
  - exact (set_membership_rep d R (last_membership meta) HR).
Qed.

(** Running operations; [true] when every one succeeded. *)
Definition raft_step (applier : option (db → RaftRequest → db * RaftResponse)) d (op : raft_op) : db * bool :=
  match op with
  | RSaveVote v => match save_vote d v with Ok d' => (d', true) | Err _ => (d, false) end
  | RSaveCommitted c => match save_committed d c with Ok d' => (d', true) | Err _ => (d, false) end
  | RAppend es => let '(d', r) := append_to_log d es in (d', is_ok r)
  | RTruncate id => let '(d', r) := delete_conflict_logs_since d id in (d', is_ok r)
  | RPurge id => let '(d', r) := purge_logs_upto d id in (d', is_ok r)
  | RApply es => let '(d', r) := apply_to_state_machine applier d es in (d', is_ok r)
  | RInstall meta => let '(d', r) := install_meta d meta in (d', is_ok r)
  end.
Fixpoint raft_run (applier : option (db → RaftRequest → db * RaftResponse)) d (ops : list raft_op) : db * bool :=
  match ops with
  | [] => (d, true)
  | op :: ops' => let '(d1, b1) := raft_step applier d op in let '(d2, b2) := raft_run applier d1 ops' in (d2, b1 && b2)
  end.
Lemma raft_step_rep applier d R op : applier_local applier → raft_rep d R → op_wf op →
  ∃ d', raft_step applier d op = (d', true) ∧ raft_rep d' (abs_step R op).
Proof.
  intros Ha HR Hw. destruct op as [v|c|es|id|id|es|meta]; cbn in Hw; unfold raft_step.
  - destruct (save_vote_rep d R v HR) as (d' & -> & ?). eauto.
  - destruct (save_committed_rep d R c HR) as (d' & -> & ?). eauto.
  - destruct (append_rep es d R HR Hw) as (d' & -> & ?). eauto.
  - destruct (truncate_rep d R id HR Hw) as (d' & -> & ?). eauto.
  - destruct (purge_rep d R id HR Hw) as (d' & -> & ?). eauto.
  - destruct (apply_rep applier es d R Ha HR) as (d' & rs & -> & _ & ?). eauto.
  - destruct (install_rep d R meta HR) as (d' & -> & ?). eauto.
Qed.
Lemma raft_run_rep applier ops d R : applier_local applier → raft_rep d R → Forall op_wf ops →
  ∃ d', raft_run applier d ops = (d', true) ∧ raft_rep d' (foldl abs_step R ops).
Proof.
  intros Ha. revert d R. induction ops as [|op ops IH]; intros d R HR Hw; cbn [raft_run foldl]; [eauto|].
  apply Forall_cons in Hw as [Hop Hw]. destruct (raft_step_rep applier d R op Ha HR Hop) as (d1 & -> & HR1).
  destruct (IH d1 _ HR1 Hw) as (d2 & -> & HR2). eauto.
Qed.
Lemma raft_rep_empty d : (∀ cf k, get_cf d cf k = None) → raft_rep d raft_state_empty.
Proof. intros He. split; cbn; rewrite ?He; try done. intros k. rewrite He. unfold log_cell. by case_decide. Qed.
End refinement.

(** ** Reading the log back *)
Section reads.
Context `{RocksDBLaws db} {OR : OpenRaft}.
Context `{BincodeLaws Entry, BincodeLaws LogId, BincodeLaws Vote, BincodeLaws (option LogId * Membership)}.
Implicit Types (d : db) (R : raft_state).

Definition log_item (e : Entry) : bytes * bytes := (index_to_key (entry_index e), ser e).
Lemma log_item_inj e e' : log_item e = log_item e' → e = e'.
Proof.
  intros Heq. apply (f_equal snd) in Heq. cbn [log_item snd] in Heq. apply (f_equal (bincode_deserialize (A := Entry))) in Heq.
  rewrite !deserialize_ser in Heq. congruence.
Qed.
Definition below (end_ : option Z) (i : Z) : bool :=
  match end_ with Some end_idx => i <? end_idx | None => true end.
Lemma read_entries_items end_ es : Forall (λ e, is_u64 (entry_index e)) es →
  read_entries end_ (log_item <$> es) = Ok (take_while (λ e, below end_ (entry_index e)) es).
Proof.
  induction 1 as [|e es He Hes IH]; [done|]. rewrite fmap_cons. unfold log_item at 1. cbn [read_entries take_while].
  destruct (proj1 (index_key_iff _ _ He) eq_refl) as [Hl Hv]. rewrite Hl. cbn [Nat.eqb negb].
  rewrite take_ge by by rewrite Hl. rewrite Hv.
  assert (match end_ with Some end_idx => end_idx <=? entry_index e | None => false end = negb (below end_ (entry_index e))) as ->.
  { destruct end_ as [i|]; [|done]. cbn. by rewrite Z.leb_antisym. }
  destruct (below end_ (entry_index e)); cbn [negb]; [|done]. rewrite deserialize_ser. cbn [io_ser map_err]. by rewrite IH.
Qed.
(** The items from an index on are the entries from it on, in order. *)
Lemma log_items d R s : raft_rep d R → is_u64 s → ∃ es,
  iterator_from d RAFT_LOG (index_to_key s) = log_item <$> es ∧ Forall (λ e, is_u64 (entry_index e)) es ∧
  StronglySorted (λ a b, entry_index a < entry_index b) es ∧
  ∀ e, e ∈ es ↔ rs_log R !! entry_index e = Some e ∧ s ≤ entry_index e.
Proof.
  intros HR Hs. pose proof (iterator_from_sorted d RAFT_LOG (index_to_key s)) as Hsort.
  assert (∀ kv, kv ∈ iterator_from d RAFT_LOG (index_to_key s) ↔
    ∃ e, kv = log_item e ∧ rs_log R !! entry_index e = Some e ∧ s ≤ entry_index e) as Hin.
  { intros [k v]. rewrite elem_of_iterator_from, (rep_log _ _ HR). unfold log_cell. split.
    - intros [Hk Hle]. case_decide as Hl; [|done]. destruct (rs_log R !! be_val k) as [e|] eqn:He; [|done].
      injection Hk as <-. destruct (rep_wf _ _ HR _ _ He) as [Hu Hi]. exists e. rewrite Hi. split_and!; [|done|].
      + unfold log_item. f_equal. rewrite Hi. symmetry. by apply index_key_iff.
      + by apply (key_le_iff s k).
    - intros (e & [= -> ->] & He & Hle). destruct (rep_wf _ _ HR _ _ He) as [Hu _].
      destruct (proj1 (index_key_iff _ _ Hu) eq_refl) as [Hl Hv].
      rewrite decide_True, Hv, He by done. split; [done|]. apply key_le_iff; [done..|]. by rewrite Hv. }
  revert Hsort Hin. generalize (iterator_from d RAFT_LOG (index_to_key s)) as l. intros l Hsort Hin.
  assert (Forall (λ kv, ∃ e, kv = log_item e ∧ is_u64 (entry_index e)) l) as Hall.
  { apply Forall_forall. intros kv Hkv. apply Hin in Hkv as (e & -> & He & _). exists e. split; [done|]. by eapply rep_wf. }
  assert (∃ es, l = log_item <$> es ∧ Forall (λ e, is_u64 (entry_index e)) es) as (es & -> & Hu).
  { clear -Hall. induction Hall as [|kv l (e & -> & He) _ (es & -> & Hes)]; [by exists []|]. exists (e :: es). auto. }
  exists es. split_and!; [done|done| |].
  - clear -Hsort Hu. induction es as [|e es IH]; [constructor|]. rewrite fmap_cons in Hsort.
    apply StronglySorted_inv in Hsort as [Hs1 Hs2]. apply Forall_cons in Hu as [He Hes]. constructor; [by apply IH|].
    rewrite Forall_fmap in Hs2. eapply Forall_impl; [apply Forall_and; split; [exact Hs2|exact Hes]|].
    intros e' [Hlt He']. unfold key_lt in Hlt. cbn in Hlt.
    apply (bytes_lt_be_bytes 8 (entry_index e) (entry_index e')); try rewrite <- two64_256; done.
  - intros e. split.
    + intros He. apply (list_elem_of_fmap_2 log_item) in He as He'. apply Hin in He' as (e' & Heq & He' & Hle).
      by apply log_item_inj in Heq as ->.
    + intros [He Hle]. assert (log_item e ∈ log_item <$> es) as Hk by (apply Hin; eauto).
      apply list_elem_of_fmap in Hk as (e' & Heq & He'). by apply log_item_inj in Heq as ->.
Qed.
Lemma last_sorted_max es (e : Entry) : StronglySorted (λ a b, entry_index a < entry_index b) es → last es = Some e →
  e ∈ es ∧ ∀ e', e' ∈ es → entry_index e' ≤ entry_index e.
Proof.
  induction 1 as [|x es Hs IH Hall]; [done|]. rewrite last_cons. destruct (last es) as [y|] eqn:E.
  - intros [= ->]. destruct IH as [Hin Hmax]; [done|]. rewrite Forall_forall in Hall. split; [by right|].
    intros e' [->|He']%elem_of_cons; [|by apply Hmax]. specialize (Hall _ Hin). lia.
  - intros [= ->]. apply last_None in E as ->. split; [left|]. intros e' ->%list_elem_of_singleton. done.
Qed.
Lemma last_log_id_rep d R : raft_rep d R → ∃ r, last_log_id_sync d = Ok r ∧
  match r with
  | None => rs_log R = ∅
  | Some l => ∃ e, l = log_id e ∧ rs_log R !! entry_index e = Some e ∧ ∀ i e', rs_log R !! i = Some e' → i ≤ entry_index e
  end.
Proof.
  intros HR. assert (is_u64 0) as H0' by (unfold is_u64, two64; lia).
  destruct (log_items d R 0 HR H0') as (es & Hit & Hu & Hs & Hin).
  assert (iterator_from d RAFT_LOG [] = iterator_from d RAFT_LOG (index_to_key 0)) as E.
  { apply sorted_ext; [apply iterator_from_sorted..|]. intros [k v]. rewrite !elem_of_iterator_from. split; intros [Hk _]; (split; [done|]).
    - apply key_le_iff; [done|by eapply log_key_length|]. pose proof (be_val_range k). lia.
    - apply bytes_le_nil. }
  unfold last_log_id_sync. change (io ErrReadLogs (raft_log_last d)) with
    (Ok (E := IOError) (snd <$> last (iterator_from d RAFT_LOG []))). rewrite E, Hit, fmap_last.
  assert (∀ i e, rs_log R !! i = Some e → e ∈ es ∧ entry_index e = i) as Hall.
  { intros i e He. destruct (rep_wf _ _ HR _ _ He) as [Hui Hi]. unfold is_u64 in Hui. rewrite Hin, Hi. split; [split; [done|lia]|done]. }
  destruct (last es) as [e|] eqn:El; cbn.
  - rewrite deserialize_ser. cbn. eexists. split; [done|]. destruct (last_sorted_max es e Hs El) as [He Hmax].
    exists e. split_and!; [done|by apply Hin|]. intros i e' He'. destruct (Hall _ _ He') as [Hin' <-]. by apply Hmax.
  - eexists. split; [done|]. apply last_None in El as ->. apply map_empty. intros i. apply eq_None_not_Some.
    intros [e He]. destruct (Hall _ _ He) as [?%elem_of_nil _]. done.
Qed.
End reads.

(** ** Properties *)
Section properties.
Context `{RocksDBLaws db} {OR : OpenRaft}.
Context `{BincodeLaws Entry, BincodeLaws LogId, BincodeLaws Vote, BincodeLaws (option LogId * Membership)}.
Implicit Types (d : db) (R : raft_state).

(** C9: the store refines the abstract Raft state. Starting from an empty database, every sequence
    of appends, truncations, purges, votes, markers, applied entries and snapshot metadata
    succeeds, and the database then holds exactly the abstract log and markers: an append
    overwrites by index, a truncation keeps the indices below, a purge those above. *)
Theorem log_store_refines applier d ops :
  (∀ cf k, get_cf d cf k = None) → applier_local applier → Forall op_wf ops →
  ∃ d', raft_run applier d ops = (d', true) ∧ raft_rep d' (foldl abs_step raft_state_empty ops).
Proof. intros He Ha Hw. apply raft_run_rep; [done|by apply raft_rep_empty|done]. Qed.

Definition after_start (b : Bound) (i : Z) : Prop :=
  match b with Included s => s ≤ i | Excluded s => s < i | Unbounded => True end.
Definition before_end (b : Bound) (i : Z) : Prop :=
  match b with Included e => i ≤ e | Excluded e => i < e | Unbounded => True end.
(** The bounds whose successor is taken are below the last index. *)
Definition start_wf (b : Bound) : Prop :=
  match b with Included s => is_u64 s | Excluded s => 0 ≤ s < u64_max | Unbounded => True end.
Definition end_wf (b : Bound) : Prop := match b with Included e => 0 ≤ e < u64_max | _ => True end.

(** reads are exact. A range read returns exactly the entries of the log whose index is in the
    range, in increasing order; the log state is the last entry's identifier, or the purged marker
    when the log is empty; the vote, the committed marker and the applied state are those last
    saved, the membership defaulting when none was. *)
Theorem log_reads_exact d R sb eb :
  raft_rep d R → start_wf sb → end_wf eb →
  (∃ es, try_get_log_entries d sb eb = Ok es ∧ StronglySorted (λ a b, entry_index a < entry_index b) es ∧
     ∀ e, e ∈ es ↔ rs_log R !! entry_index e = Some e ∧ after_start sb (entry_index e) ∧ before_end eb (entry_index e)) ∧
  (∃ st, get_log_state d = Ok st ∧ state_last_purged st = rs_purged R ∧
     (rs_log R = ∅ → state_last st = rs_purged R) ∧
     (rs_log R ≠ ∅ → ∃ e, state_last st = Some (log_id e) ∧ rs_log R !! entry_index e = Some e ∧
        ∀ i e', rs_log R !! i = Some e' → i ≤ entry_index e)) ∧
  read_vote d = Ok (rs_vote R) ∧ read_committed d = Ok (rs_committed R) ∧
  last_applied_state d = Ok (rs_applied R, default (None, membership_default) (rs_membership R)).
Proof.
  intros HR Hsw Hew. unfold start_wf, end_wf, is_u64, u64_max in *. split_and!.
  - set (s := match sb with Included s => s | Excluded s => s + 1 | Unbounded => 0 end).
    assert (is_u64 s ∧ match sb with Included s => s | Excluded s => wrap64 (s + 1) | Unbounded => 0 end = s) as [Hs Hw].
    { subst s. unfold is_u64, wrap64, two64 in *. destruct sb; rewrite ?Z.mod_small; lia. }
    destruct (log_items d R s HR Hs) as (es & Hit & Hu & Hsort & Hin).
    unfold try_get_log_entries, read_log_entries_sync. rewrite Hw.
    change (io ErrReadLogs (raft_log_scan_from d (index_to_key s))) with
      (Ok (E := IOError) (iterator_from d RAFT_LOG (index_to_key s))). rewrite Hit, read_entries_items by done.
    eexists. split_and!; [done|eapply StronglySorted_sublist; [apply take_while_sublist|done]|].
    intros e. rewrite (elem_of_take_while_sorted _ _ _ _ Hsort).
    + rewrite Hin. assert (after_start sb (entry_index e) ↔ s ≤ entry_index e ∨ sb = Unbounded) as Hst.
      { subst s. destruct sb; cbn; split; intros; try lia; naive_solver lia. }
      assert (below (match eb with Included e => Some (wrap64 (e + 1)) | Excluded e => Some e | Unbounded => None end)
        (entry_index e) = true ↔ before_end eb (entry_index e)) as ->.
      { destruct eb; cbn; rewrite ?Z.ltb_lt; [|done..]. unfold wrap64. rewrite Z.mod_small; lia. }
      rewrite Hst. split; [tauto|]. intros (He & [?| ->] & ?); [tauto|]. split_and!; [done| |done]. subst s. cbn.
      destruct (rep_wf _ _ HR _ _ He) as [[? _] _]. done.
    + intros a b Hab _. destruct eb; cbn; rewrite ?Z.ltb_lt; lia || done.
  - unfold get_log_state. rewrite (read_meta_ok _ _ _ (rs_purged R)) by apply (rep_purged _ _ HR).
    destruct (last_log_id_rep d R HR) as (r & -> & Hr). eexists. split; [done|]. cbn. split_and!; [done| |].
    + intros E. destruct r as [l|]; [|done]. destruct Hr as (e & _ & He & _). by rewrite E, lookup_empty in He.
    + intros Hne. destruct r as [l|]; [|done]. destruct Hr as (e & -> & He & Hmax). eauto.
  - apply read_meta_ok, (rep_vote _ _ HR).
  - apply read_meta_ok, (rep_committed _ _ HR).
  - unfold last_applied_state. rewrite (read_meta_ok _ _ _ (rs_applied R)) by apply (rep_applied _ _ HR).
    by rewrite (read_meta_ok _ _ _ (rs_membership R)) by apply (rep_membership _ _ HR).
Qed.

(** an applied marker can outrun the state. The marker is stored before the request is
    executed; a crash between the two leaves a database whose applied state names the entry while
    no cell outside RAFT_META has changed, so the entry is never executed on this node. *)
Theorem applied_before_executed d R e :
  raft_rep d R →
  ∃ d1, record_applied d e = Ok d1 ∧
    (∀ applier, apply_to_state_machine applier d [e] =
       let '(d2, r) := apply_payload applier d1 e in (d2, match r with Ok x => Ok [x] | Err x => Err x end)) ∧
    last_applied_state d1 = Ok (Some (log_id e), default (None, membership_default) (rs_membership R)) ∧
    ∀ cf k, cf ≠ RAFT_META → get_cf d1 cf k = get_cf d cf k.
Proof.
  intros HR. exists (put_cf d RAFT_META LAST_APPLIED_KEY (ser (log_id e))).
  assert (record_applied d e = Ok (put_cf d RAFT_META LAST_APPLIED_KEY (ser (log_id e)))) as E by apply write_meta_ok.
  pose proof (set_applied_rep d R (log_id e) HR) as HR1. split_and!; [done| | |].
  - intros applier. cbn. rewrite E. destruct (apply_payload _ _ _) as [d2 [r|r]]; done.
  - unfold last_applied_state. rewrite (read_meta_ok _ _ _ _ (rep_applied _ _ HR1)).
    by rewrite (read_meta_ok _ _ _ _ (rep_membership _ _ HR1)).
  - intros cf k Hcf. apply get_cf_put_ne. congruence.
Qed.

(** snapshots carry no data. A built snapshot has the applied marker and the membership and an
    empty body; installing any snapshot, whatever its body, changes no cell outside RAFT_META and
    yet takes over its marker. A node that installs one reports entries as applied whose effects
    it never received. *)
Theorem snapshot_carries_no_state (s s' : LogStore) R meta data new_uuid :
  raft_rep (storage s) R →
  (∃ snap st, build_snapshot new_uuid s = (st, Ok snap) ∧ snap_data snap = [] ∧
     last_log_id (snap_meta snap) = rs_applied R ∧ storage st = storage s ∧ get_current_snapshot st = Some snap) ∧
  (install_snapshot s meta data = (s', Ok tt) →
     (∀ cf k, cf ≠ RAFT_META → get_cf (storage s') cf k = get_cf (storage s) cf k) ∧
     get_current_snapshot s' = Some (mkStoredSnapshot meta data) ∧
     last_applied_state (storage s') =
       Ok (match last_log_id meta with Some l => Some l | None => rs_applied R end, last_membership meta)).
Proof.
  intros HR. split.
  - unfold build_snapshot, last_applied_state. rewrite (read_meta_ok _ _ _ _ (rep_applied _ _ HR)).
    rewrite (read_meta_ok _ _ _ _ (rep_membership _ _ HR)). by do 2 eexists.
  - intros Hi. unfold install_snapshot in Hi. destruct (install_rep _ _ meta HR) as (d' & E & HR').
    rewrite E in Hi. injection Hi as <-. cbn [storage get_current_snapshot current_snapshot]. split_and!; [|done|].
    + intros cf k Hcf. unfold install_meta in E. destruct (last_log_id meta); rewrite ?write_meta_ok in E; cbn [lift_st] in E;
        injection E as <-; rewrite !get_cf_put_ne by congruence; done.
    + unfold last_applied_state. rewrite (read_meta_ok _ _ _ _ (rep_applied _ _ HR')).
      by rewrite (read_meta_ok _ _ _ _ (rep_membership _ _ HR')).
Qed.
End properties.

(** ** Witnesses: leaders and votes are numbers, memberships lists of node numbers *)
#[local] Instance number_raft : OpenRaft :=
  {| CommittedLeaderId := Z; Membership := list Z; membership_default := []; Vote := Z |}.
#[local] Instance log_id_dec : EqDecision LogId.
Proof. intros [a i] [b j]. cbn in a, b. destruct (decide ((a, i) = (b, j))); [left|right]; congruence. Defined.
#[local] Instance log_id_countable : Countable LogId.
Proof.
  refine (inj_countable' (A := Z * Z) (λ l, (leader_id l, log_index l)) (λ x, mkLogId x.1 x.2) _). by intros [].
Defined.
Definition payload_code (p : EntryPayload) : unit + ((string * string) + list Z) :=
  match p with Blank => inl tt | Normal (WriteQuery q g) => inr (inl (q, g)) | MembershipChange m => inr (inr m) end.
Definition payload_decode (x : unit + ((string * string) + list Z)) : EntryPayload :=
  match x with inl _ => Blank | inr (inl (q, g)) => Normal (WriteQuery q g) | inr (inr m) => MembershipChange m end.
Lemma payload_code_inj : ∀ p, payload_decode (payload_code p) = p.
Proof. by intros [|[]|]. Qed.
#[local] Instance payload_dec : EqDecision EntryPayload.
Proof.
  intros p q. destruct (decide (payload_code p = payload_code q)) as [E|E]; [left|right; congruence].
  by rewrite <- (payload_code_inj p), E, payload_code_inj.
Defined.
#[local] Instance entry_dec : EqDecision Entry.
Proof. solve_decision. Defined.
#[local] Instance payload_countable : Countable EntryPayload.
Proof. exact (inj_countable' payload_code payload_decode payload_code_inj). Defined.
#[local] Instance entry_countable : Countable Entry.
Proof. refine (inj_countable' (λ e, (log_id e, payload e)) (λ x, mkEntry x.1 x.2) _). by intros []. Defined.
#[local] Instance membership_countable : EqDecision Membership := decide_rel (=@{list Z}).
#[local] Instance membership_cnt : Countable Membership := list_countable (A := Z).
#[local] Instance bincode_entry : Bincode Entry := countable_bincode Entry.
#[local] Instance bincode_entry_laws : BincodeLaws Entry := countable_bincode_laws Entry.
#[local] Instance bincode_log_id : Bincode LogId := countable_bincode LogId.
#[local] Instance bincode_log_id_laws : BincodeLaws LogId := countable_bincode_laws LogId.
#[local] Instance bincode_vote : Bincode Vote := countable_bincode Z.
#[local] Instance bincode_vote_laws : BincodeLaws Vote := countable_bincode_laws Z.
#[local] Instance bincode_membership : Bincode (option LogId * Membership) := countable_bincode (option LogId * list Z).
#[local] Instance bincode_membership_laws : BincodeLaws (option LogId * Membership) :=
  countable_bincode_laws (option LogId * list Z).

Definition entry_at (i : Z) : Entry := mkEntry (mkLogId 1 i) (Normal (WriteQuery "INSERT (:A)" "g")).
Definition log_ops : list raft_op :=
  [RAppend [entry_at 1; entry_at 2; entry_at 3]; RTruncate (mkLogId 1 3); RPurge (mkLogId 1 1); RSaveVote 7; RApply [entry_at 2]].
Lemma log_ops_wf : Forall op_wf log_ops.
Proof. repeat constructor; cbn; unfold is_u64, entry_index, u64_max, two64; cbn; lia. Qed.
Lemma no_applier_local : applier_local (db := MemDB) None.
Proof. by intros f. Qed.
Definition log_db : MemDB := (raft_run None empty_db log_ops).1.
Lemma log_db_rep : raft_rep log_db (foldl abs_step raft_state_empty log_ops).
Proof.
  destruct (raft_run_rep None log_ops empty_db raft_state_empty no_applier_local) as (d' & E & HR);
    [apply raft_rep_empty; intros; apply lookup_empty|apply log_ops_wf|]. unfold log_db. by rewrite E.
Qed.

Lemma log_store_refines_witness :
  ∃ d', raft_run None empty_db log_ops = (d', true) ∧ raft_rep d' (foldl abs_step raft_state_empty log_ops).
Proof.
  exact (log_store_refines None empty_db log_ops (λ cf k, lookup_empty _) no_applier_local log_ops_wf).
Defined.
Lemma log_reads_exact_witness :
  ∃ es, try_get_log_entries log_db (Included 2) Unbounded = Ok es ∧ entry_at 2 ∈ es ∧ entry_at 3 ∉ es.
Proof.
  destruct (log_reads_exact log_db _ (Included 2) Unbounded log_db_rep) as [(es & E & _ & Hin) _];
    [cbn; unfold is_u64, two64; lia|exact I|]. exists es. split; [exact E|]. split.
  - apply Hin. split; [vm_compute; reflexivity|]. split; [cbn; lia|exact I].
  - intros [He _]%Hin. vm_compute in He. discriminate He.
Defined.
Lemma applied_before_executed_witness :
  ∃ d1, record_applied log_db (entry_at 3) = Ok d1 ∧
    last_applied_state d1 = Ok (Some (mkLogId 1 3), (None, [])) ∧ ∀ k, get_cf d1 NODES k = get_cf log_db NODES k.
Proof.
  destruct (applied_before_executed log_db _ (entry_at 3) log_db_rep) as (d1 & E & _ & Hl & Hc).
  exists d1. split; [exact E|]. split; [exact Hl|]. intros k. apply Hc. discriminate.
Defined.
Lemma snapshot_carries_no_state_witness :
  let meta := mkSnapshotMeta (Some (mkLogId 1 100)) (None, [1]) "s" in
  let s' := (install_snapshot (LogStore_new empty_db) meta [Byte.x41]).1 in
  last_applied_state (storage s') = Ok (Some (mkLogId 1 100), (None, [1])) ∧
  ∀ k, get_cf (storage s') NODES k = None.
Proof.
  intros meta s'.
  assert (raft_rep (storage (LogStore_new empty_db)) raft_state_empty) as HR by (apply raft_rep_empty; intros; apply lookup_empty).
  destruct (snapshot_carries_no_state (LogStore_new empty_db) s' raft_state_empty meta [Byte.x41] "u" HR) as [_ Hi].
  destruct Hi as (Hc & _ & Hl).
  - assert (is_ok (install_snapshot (LogStore_new empty_db) meta [Byte.x41]).2 = true) as E by (vm_compute; reflexivity).
    subst s'. destruct (install_snapshot (LogStore_new empty_db) meta [Byte.x41]) as [s2 [[]|]]; [done|done].
  - split; [exact Hl|]. intros k. rewrite Hc by discriminate. apply lookup_empty.
Defined.
