(* ===== verification/FullText.v ===== *)
(** * The full-text index (synaptica-storage: fulltext.rs)

    An inverted index in the column family PROP_INDEX: one empty cell per token and node, under
    the key graph ++ 0x02 ++ hash of the index name ++ token ++ 0x00 ++ node. The abstract state
    is the set of postings. Lower-casing and the test for alphanumeric characters are Unicode's
    ([Unicode]); the digest of the index name is a parameter, as for the property indexes. *)
From S2P Require Import Prelude Types Rocks Encoding Engine.
Import Encoding ColumnFamilies.

Definition FT_MARKER : byte := Byte.x02.

(** [str::chars] of well-formed UTF-8: the first byte tells the length. *)
Fixpoint utf8_chars (l : bytes) : list bytes :=
  match l with
  | [] => []
  | b0 :: l1 =>
      if bval b0 <? 128 then [b0] :: utf8_chars l1
      else match l1 with
      | [] => [[b0]]
      | b1 :: l2 =>
          if bval b0 <? 224 then [b0; b1] :: utf8_chars l2
          else match l2 with
          | [] => [[b0; b1]]
          | b2 :: l3 =>
              if bval b0 <? 240 then [b0; b1; b2] :: utf8_chars l3
              else match l3 with
              | [] => [[b0; b1; b2]]
              | b3 :: l4 => [b0; b1; b2; b3] :: utf8_chars l4
              end
          end
      end
  end.

Section tokens.
Context `{Unicode}.
(** [str::split] at the characters that are not alphanumeric *)
Fixpoint split_tokens (acc : bytes) (chars : list bytes) : list bytes :=
  match chars with
  | [] => [acc]
  | c :: cs => if negb (is_alphanumeric c) then acc :: split_tokens [] cs else split_tokens (acc ++ c) cs
  end.
Definition tokenize (text : string) : list string :=
  foldl (λ s t, btree_set_insert t s) []
    (str_of_bytes <$> filter (λ t : bytes, 2 ≤ length t)%nat (split_tokens [] (utf8_chars (str_bytes (to_lowercase text))))).
End tokens.

Record FullTextIndex := mkFullTextIndex { ft_graph_id : GraphId; ft_index_name : string; ft_property_name : string }.

(** [Vec::sort] and [BTreeSet] order of node identifiers: the bytes. *)
Definition uuid_le (a b : NodeId) : Prop := bytes_le (uuid_bytes a) (uuid_bytes b).
#[export] Instance uuid_le_dec : RelDecision uuid_le.
Proof. intros a b. unfold uuid_le. apply _. Defined.
Definition sorted_ids (ids : gset NodeId) : list NodeId := merge_sort uuid_le (elements ids).

Section ops.
Context `{RocksDB db, Unicode}.
Variable hash_name : string → Z.
Implicit Types (d : db) (ft : FullTextIndex).

Definition ft_hash_index_name (name : string) : bytes := be_bytes 8 (hash_name name).
Definition token_scan_prefix ft (prefix : string) : bytes :=
  uuid_bytes (ft_graph_id ft) ++ [FT_MARKER] ++ ft_hash_index_name (ft_index_name ft) ++ str_bytes prefix.
Definition token_prefix ft (token : string) : bytes :=
  uuid_bytes (ft_graph_id ft) ++ [FT_MARKER] ++ ft_hash_index_name (ft_index_name ft) ++ str_bytes token ++ [Byte.x00].
Definition ft_entry_key ft (token : string) (node_id : NodeId) : bytes :=
  uuid_bytes (ft_graph_id ft) ++ [FT_MARKER] ++ ft_hash_index_name (ft_index_name ft) ++ str_bytes token ++ [Byte.x00]
    ++ uuid_bytes node_id.
Definition extract_node_id (key : bytes) : result StorageError NodeId :=
  if decide (length key < UUID_LEN)%nat then Err (SDeserialization "fulltext key too short for node id")
  else ok_or (SDeserialization "invalid node id in ft index") (key_tail_id key).
Definition scan_prefix_ids d (prefix : bytes) : result StorageError (list NodeId) :=
  cf ← cf_open PROP_INDEX;
  for_while (has_prefix prefix) (λ kv, extract_node_id kv.1) (iterator_from d cf prefix).
Definition index_text d ft (node_id : NodeId) (text : string) : result StorageError db :=
  cf ← cf_open PROP_INDEX;
  Ok (write d ((λ token, BatchPut cf (ft_entry_key ft token node_id) []) <$> tokenize text)).
Definition remove_text d ft (node_id : NodeId) (text : string) : result StorageError db :=
  cf ← cf_open PROP_INDEX;
  Ok (write d ((λ token, BatchDelete cf (ft_entry_key ft token node_id)) <$> tokenize text)).
(** The intersection stops at an empty result. *)
Fixpoint intersect_postings d ft (res : gset NodeId) (tokens : list string) : result StorageError (gset NodeId) :=
  match tokens with
  | [] => Ok res
  | token :: rest =>
      match scan_prefix_ids d (token_prefix ft token) with
      | Err e => Err e
      | Ok ids =>
          let res' := res ∩ list_to_set ids in
          if decide (res' = ∅) then Ok res' else intersect_postings d ft res' rest
      end
  end.
Definition search d ft (query : string) : result StorageError (list NodeId) :=
  match tokenize query with
  | [] => Ok []
  | token :: rest =>
      match scan_prefix_ids d (token_prefix ft token) with
      | Err e => Err e
      | Ok ids =>
          match intersect_postings d ft (list_to_set ids) rest with
          | Err e => Err e
          | Ok res => Ok (sorted_ids res)
          end
      end
  end.
Definition search_prefix d ft (prefix : string) : result StorageError (list NodeId) :=
  match scan_prefix_ids d (token_scan_prefix ft (to_lowercase prefix)) with
  | Err e => Err e
  | Ok ids => Ok (sorted_ids (list_to_set ids))
  end.
End ops.

(** ** Postings *)
Section postings.
Context `{Unicode}.
Inductive ft_op : Type := FtIndex (id : NodeId) (text : string) | FtRemove (id : NodeId) (text : string).
Definition text_postings (id : NodeId) (text : string) : gset (string * NodeId) :=
  list_to_set ((λ t, (t, id)) <$> tokenize text).
Definition ft_abs_step (S : gset (string * NodeId)) (op : ft_op) : gset (string * NodeId) :=
  match op with
  | FtIndex id text => S ∪ text_postings id text
  | FtRemove id text => S ∖ text_postings id text
  end.
Lemma elem_of_text_postings id text t id' : (t, id') ∈ text_postings id text ↔ id' = id ∧ t ∈ tokenize text.
Proof.
  unfold text_postings. rewrite elem_of_list_to_set, list_elem_of_fmap. split.
  - by intros (? & [= -> ->] & ?).
  - intros [-> ?]. by exists t.
Qed.
End postings.

Section facts.
Context `{RocksDBLaws db, UnicodeLaws}.
Implicit Types (d : db) (ft : FullTextIndex) (t : string) (id : NodeId).

Lemma split_tokens_nonzero chars acc (b : bytes) : Byte.x00 ∉ acc → b ∈ split_tokens acc chars → Byte.x00 ∉ b.
Proof.
  revert acc. induction chars as [|c cs IH]; intros acc Ha; cbn; [by intros ->%list_elem_of_singleton|].
  destruct (is_alphanumeric c) eqn:Hc; cbn.
  - apply IH. rewrite elem_of_app. intros [?|?]; [done|]. by eapply alphanumeric_nonzero.
  - intros [->|Ht]%elem_of_cons; [done|]. eapply IH; [|done]. by intros ?%elem_of_nil.
Qed.
Lemma elem_of_btree_fold (l s : list string) t : t ∈ foldl (λ s t, btree_set_insert t s) s l ↔ t ∈ l ∨ t ∈ s.
Proof.
  revert s. induction l as [|x l IH]; intros s; cbn; [rewrite elem_of_nil; tauto|].
  rewrite IH, elem_of_btree_set_insert, elem_of_cons. tauto.
Qed.
Lemma tokenize_nonzero text t : t ∈ tokenize text → Byte.x00 ∉ str_bytes t ∧ (2 ≤ str_len t)%nat.
Proof.
  unfold tokenize. rewrite elem_of_btree_fold, list_elem_of_fmap. intros [(b & -> & Hb)|?%elem_of_nil]; [|done].
  apply list_elem_of_filter in Hb as [Hl Hb]. unfold str_len. rewrite str_bytes_str_of_bytes. split; [|done].
  eapply split_tokens_nonzero; [|exact Hb]. by intros ?%elem_of_nil.
Qed.

Variable hash_name : string → Z.
(** Keys of one index: what follows the common prefix determines token and node. *)
Definition ft_prefix ft : bytes := uuid_bytes (ft_graph_id ft) ++ [FT_MARKER] ++ ft_hash_index_name hash_name (ft_index_name ft).
Lemma ft_entry_key_eq ft t id : ft_entry_key hash_name ft t id = ft_prefix ft ++ str_bytes t ++ [Byte.x00] ++ uuid_bytes id.
Proof. unfold ft_entry_key, ft_prefix. by rewrite <- !app_assoc. Qed.
Lemma token_prefix_eq ft t : token_prefix hash_name ft t = ft_prefix ft ++ str_bytes t ++ [Byte.x00].
Proof. unfold token_prefix, ft_prefix. by rewrite <- !app_assoc. Qed.
Lemma token_scan_prefix_eq ft p : token_scan_prefix hash_name ft p = ft_prefix ft ++ str_bytes p.
Proof. unfold token_scan_prefix, ft_prefix. by rewrite <- !app_assoc. Qed.
(** Strings without a zero byte are separated by it. *)
Lemma nul_separated (a b x y : bytes) : Byte.x00 ∉ a → Byte.x00 ∉ b →
  a ++ Byte.x00 :: x = b ++ Byte.x00 :: y → a = b ∧ x = y.
Proof.
  revert b. induction a as [|c a IH]; intros [|c' b]; rewrite ?not_elem_of_cons; cbn.
  - by intros _ _ [= ->].
  - intros _ [? _] [= ? _]. done.
  - intros [? _] _ [= ? _]. done.
  - intros [_ ?] [_ ?] [= -> E]. apply IH in E as [-> ->]; done.
Qed.
Lemma ft_entry_key_inj ft t1 t2 id1 id2 : Byte.x00 ∉ str_bytes t1 → Byte.x00 ∉ str_bytes t2 →
  ft_entry_key hash_name ft t1 id1 = ft_entry_key hash_name ft t2 id2 → t1 = t2 ∧ id1 = id2.
Proof.
  intros H1' H2'. rewrite !ft_entry_key_eq. intros E. apply app_inv_head in E. cbn in E.
  apply nul_separated in E as [Et Ei]; [|done..]. split; [by apply str_bytes_inj|by apply uuid_bytes_inj].
Qed.
Lemma entry_has_token_prefix ft t t' id : Byte.x00 ∉ str_bytes t → Byte.x00 ∉ str_bytes t' →
  starts_with (ft_entry_key hash_name ft t id) (token_prefix hash_name ft t') = true ↔ t = t'.
Proof.
  intros Ht Ht'. rewrite ft_entry_key_eq, token_prefix_eq, starts_with_spec. split.
  - intros [r E]. rewrite <- !app_assoc in E. apply app_inv_head in E. cbn in E.
    apply nul_separated in E as [? _]; [|done..]. by apply str_bytes_inj.
  - intros ->. exists (uuid_bytes id). by rewrite <- !app_assoc.
Qed.
Lemma entry_has_scan_prefix ft t p id : Byte.x00 ∉ str_bytes p →
  starts_with (ft_entry_key hash_name ft t id) (token_scan_prefix hash_name ft p) = true ↔ starts_with (str_bytes t) (str_bytes p) = true.
Proof.
  intros Hp. rewrite ft_entry_key_eq, token_scan_prefix_eq, !starts_with_spec. split.
  - intros [r E]. rewrite <- app_assoc in E. apply app_inv_head in E. revert E Hp.
    generalize (str_bytes t) as a. generalize (str_bytes p) as b. clear. intros b. induction b as [|c b IH]; intros a E Hp; [by exists a|].
    rewrite not_elem_of_cons in Hp. destruct a as [|c' a]; [cbn in E; injection E as ? _; naive_solver|].
    cbn in E. injection E as -> E. destruct (IH a E) as [r' ->]; [tauto|]. by exists r'.
  - intros [r ->]. exists (r ++ [Byte.x00] ++ uuid_bytes id). by rewrite <- !app_assoc.
Qed.
Lemma extract_entry ft t id : extract_node_id (ft_entry_key hash_name ft t id) = Ok id.
Proof.
  unfold extract_node_id. rewrite ft_entry_key_eq, !app_assoc. rewrite decide_False.
  - by rewrite key_tail_id_app.
  - rewrite length_app, length_uuid_bytes. unfold UUID_LEN. lia.
Qed.

(** The cells of the index hold exactly the postings. *)
Definition ft_rep d ft (S : gset (string * NodeId)) : Prop :=
  (∀ k v, get_cf d PROP_INDEX k = Some v → starts_with k (ft_prefix ft) = true →
     ∃ t id, k = ft_entry_key hash_name ft t id ∧ (t, id) ∈ S) ∧
  (∀ t id, (t, id) ∈ S → Byte.x00 ∉ str_bytes t ∧ is_Some (get_cf d PROP_INDEX (ft_entry_key hash_name ft t id))).
Lemma ft_prefix_starts ft t id : starts_with (ft_entry_key hash_name ft t id) (ft_prefix ft) = true.
Proof. rewrite ft_entry_key_eq. apply starts_with_app. Qed.

Lemma scan_ids_rep d ft S p (P : string → Prop) : ft_rep d ft S →
  starts_with p (ft_prefix ft) = true →
  (∀ t id, (t, id) ∈ S → starts_with (ft_entry_key hash_name ft t id) p = true ↔ P t) →
  ∃ ids, scan_prefix_ids d p = Ok ids ∧ ∀ id, id ∈ ids ↔ ∃ t, (t, id) ∈ S ∧ P t.
Proof.
  intros [Hin Hcell] Hp HP. unfold scan_prefix_ids. rewrite cf_open_all by in_cfs. cbn [mbind result_bind].
  assert (∀ k v, (k, v) ∈ prefix_items d PROP_INDEX p → ∃ t id, k = ft_entry_key hash_name ft t id ∧ (t, id) ∈ S ∧ P t) as Hitem.
  { intros k v [Hg Hk]%elem_of_prefix_items. destruct (Hin k v Hg) as (t & id & -> & HS).
    - apply starts_with_spec in Hp as [r ->]. apply starts_with_spec in Hk as [r' ->]. rewrite <- app_assoc. apply starts_with_app.
    - exists t, id. split_and!; [done..|]. by apply (HP t id). }
  rewrite (for_while_total _ _ (λ kv, match extract_node_id kv.1 with Ok id => id | Err _ => ft_graph_id ft end)).
  - eexists. split; [done|]. intros id. rewrite list_elem_of_fmap. split.
    + intros ([k v] & -> & Hkv). destruct (Hitem k v Hkv) as (t & id & -> & HS & HPt). exists t.
      cbn [fst]. rewrite extract_entry. done.
    + intros (t & HS & HPt). destruct (Hcell t id HS) as [_ [v Hv]].
      exists (ft_entry_key hash_name ft t id, v). cbn [fst]. rewrite extract_entry. split; [done|].
      apply elem_of_prefix_items. split; [done|]. by apply HP.
  - intros [k v] Hkv. destruct (Hitem k v Hkv) as (t & id & -> & _). cbn [fst]. by rewrite extract_entry.
Qed.
Lemma token_ids_rep d ft S t : ft_rep d ft S → Byte.x00 ∉ str_bytes t →
  ∃ ids, scan_prefix_ids d (token_prefix hash_name ft t) = Ok ids ∧ ∀ id, id ∈ ids ↔ (t, id) ∈ S.
Proof.
  intros HR Ht. destruct (scan_ids_rep d ft S (token_prefix hash_name ft t) (λ t', t' = t) HR) as (ids & E & Hids).
  - rewrite token_prefix_eq. apply starts_with_app.
  - intros t' id HS. apply entry_has_token_prefix; [|done]. exact (proj1 (proj2 HR _ _ HS)).
  - exists ids. split; [done|]. intros id. rewrite Hids. naive_solver.
Qed.
Lemma intersect_rep d ft S ts res : ft_rep d ft S → Forall (λ t, Byte.x00 ∉ str_bytes t) ts →
  ∃ res', intersect_postings hash_name d ft res ts = Ok res' ∧ ∀ id, id ∈ res' ↔ id ∈ res ∧ ∀ t, t ∈ ts → (t, id) ∈ S.
Proof.
  intros HR. revert res. induction ts as [|t ts IH]; intros res Hts; cbn [intersect_postings].
  { exists res. split; [done|]. set_solver. }
  apply Forall_cons in Hts as [Ht Hts]. destruct (token_ids_rep d ft S t HR Ht) as (ids & -> & Hids).
  assert (∀ id, id ∈ res ∩ list_to_set ids ↔ id ∈ res ∧ (t, id) ∈ S) as Hi.
  { intros id. by rewrite elem_of_intersection, elem_of_list_to_set, Hids. }
  cbv zeta. case_decide as He.
  - eexists. split; [done|]. intros id. rewrite Hi. split; [|set_solver]. intros Hid. exfalso. apply Hi in Hid. set_solver.
  - destruct (IH (res ∩ list_to_set ids) Hts) as (res' & -> & Hr). exists res'. split; [done|]. intros id.
    rewrite Hr, Hi. set_solver.
Qed.
#[local] Instance uuid_le_trans : Transitive uuid_le.
Proof. intros a b c. apply bytes_le_trans. Qed.
#[local] Instance uuid_le_total : Total uuid_le.
Proof. intros a b. apply bytes_le_total. Qed.
Definition uuid_lt (a b : NodeId) : Prop := bytes_lt (uuid_bytes a) (uuid_bytes b).
Lemma sorted_ids_spec (s : gset NodeId) : StronglySorted uuid_lt (sorted_ids s) ∧ ∀ id, id ∈ sorted_ids s ↔ id ∈ s.
Proof.
  unfold sorted_ids. split.
  - apply (Sorted_le_lt uuid_le).
    + intros a b [?|E]%bytes_le_lt_or_eq Hne; [done|]. by apply uuid_bytes_inj in E.
    + rewrite merge_sort_Permutation. apply NoDup_elements.
    + apply StronglySorted_merge_sort; apply _.
  - intros id. by rewrite merge_sort_Permutation, elem_of_elements.
Qed.
End facts.

Section properties.
Context `{RocksDBLaws db, UnicodeLaws}.
Variable hash_name : string → Z.
Implicit Types (d : db) (ft : FullTextIndex) (t : string) (id : NodeId).

Definition ft_step ft (acc : db * bool) (op : ft_op) : db * bool :=
  match (match op with FtIndex id text => index_text hash_name acc.1 ft id text
                     | FtRemove id text => remove_text hash_name acc.1 ft id text end) with
  | Ok d' => (d', acc.2)
  | Err _ => (acc.1, false)
  end.
Lemma text_key_iff ft id text t id' : Byte.x00 ∉ str_bytes t →
  ft_entry_key hash_name ft t id' ∈ (λ t, ft_entry_key hash_name ft t id) <$> tokenize text ↔ (t, id') ∈ text_postings id text.
Proof.
  intros Ht. rewrite elem_of_text_postings, list_elem_of_fmap. split.
  - intros (t' & E & Hin). apply ft_entry_key_inj in E as [-> ->]; [done..|by apply (tokenize_nonzero text)].
  - intros [-> Hin]. by exists t.
Qed.
Lemma index_text_rep d ft S id text : ft_rep hash_name d ft S →
  ∃ d', index_text hash_name d ft id text = Ok d' ∧ ft_rep hash_name d' ft (S ∪ text_postings id text).
Proof.
  intros [Hin Hcell]. unfold index_text. rewrite cf_open_all by in_cfs. eexists. split; [done|]. split.
  - intros k v. rewrite get_cf_write, (apply_batch_puts (λ t, ft_entry_key hash_name ft t id)). case_decide as Hk.
    + intros _ _. destruct Hk as [_ (t & -> & Ht)%list_elem_of_fmap]. exists t, id. split; [done|].
      apply elem_of_union_r. by apply elem_of_text_postings.
    + intros Hv Hp. destruct (Hin k v Hv Hp) as (t & id' & ? & ?). exists t, id'. split; [done|]. by apply elem_of_union_l.
  - intros t id' HS. assert (Byte.x00 ∉ str_bytes t) as Ht.
    { apply elem_of_union in HS as [HS|HS]; [by apply Hcell in HS as []|].
      apply elem_of_text_postings in HS as [_ HS]. by apply tokenize_nonzero in HS as []. }
    split; [done|]. rewrite get_cf_write, (apply_batch_puts (λ t, ft_entry_key hash_name ft t id)). case_decide as Hk; [done|].
    rewrite text_key_iff in Hk by done. apply elem_of_union in HS as [HS|HS]; [by apply Hcell in HS as []|naive_solver].
Qed.
Lemma remove_text_rep d ft S id text : ft_rep hash_name d ft S →
  ∃ d', remove_text hash_name d ft id text = Ok d' ∧ ft_rep hash_name d' ft (S ∖ text_postings id text).
Proof.
  intros [Hin Hcell]. unfold remove_text. rewrite cf_open_all by in_cfs. eexists. split; [done|]. split.
  - intros k v. rewrite get_cf_write, (apply_batch_deletes (λ t, ft_entry_key hash_name ft t id)). case_decide as Hk; [done|].
    intros Hv Hp. destruct (Hin k v Hv Hp) as (t & id' & -> & HS). exists t, id'. split; [done|].
    apply elem_of_difference. split; [done|]. intros Hx. apply Hk. split; [done|]. apply text_key_iff; [|done].
    by apply Hcell in HS as [].
  - intros t id' [HS Hn]%elem_of_difference. destruct (Hcell _ _ HS) as [Ht Hc]. split; [done|].
    rewrite get_cf_write, (apply_batch_deletes (λ t, ft_entry_key hash_name ft t id)). rewrite decide_False; [done|].
    intros [_ Hk]. by apply text_key_iff in Hk.
Qed.
Lemma ft_step_rep d ft S b op : ft_rep hash_name d ft S →
  ∃ d', ft_step ft (d, b) op = (d', b) ∧ ft_rep hash_name d' ft (ft_abs_step S op).
Proof.
  intros HR. destruct op as [id text|id text]; unfold ft_step; cbn [fst snd].
  - destruct (index_text_rep d ft S id text HR) as (d' & -> & HR'). eauto.
  - destruct (remove_text_rep d ft S id text HR) as (d' & -> & HR'). eauto.
Qed.
Lemma ft_run_rep ft ops d S b : ft_rep hash_name d ft S →
  (foldl (ft_step ft) (d, b) ops).2 = b ∧ ft_rep hash_name (foldl (ft_step ft) (d, b) ops).1 ft (foldl ft_abs_step S ops).
Proof.
  revert d S. induction ops as [|op ops IH]; intros d S HR; cbn [foldl]; [done|].
  destruct (ft_step_rep d ft S b op HR) as (d' & -> & HR'). by apply IH.
Qed.
Lemma ft_rep_empty d ft : (∀ k, starts_with k (ft_prefix hash_name ft) = true → get_cf d PROP_INDEX k = None) →
  ft_rep hash_name d ft ∅.
Proof. intros He. split; [intros k v Hv Hk; by rewrite He in Hv|set_solver]. Qed.

(** C31: full-text search is exact. After any sequence of indexed and removed texts, all of which
    succeed, a search returns, without duplicates and in identifier order, exactly the nodes that
    have every token of the query among the tokens indexed and not removed since (none for a query
    without tokens); and a prefix search, for a prefix without NUL, exactly the nodes with a token
    that starts with the lower-cased prefix. *)
Theorem fulltext_search_exact d ft ops query prefix :
  (∀ k, starts_with k (ft_prefix hash_name ft) = true → get_cf d PROP_INDEX k = None) →
  Byte.x00 ∉ str_bytes (to_lowercase prefix) →
  let r := foldl (ft_step ft) (d, true) ops in
  let S := foldl ft_abs_step ∅ ops in
  r.2 = true ∧
  (∃ ids, search hash_name r.1 ft query = Ok ids ∧ StronglySorted uuid_lt ids ∧
     ∀ id, id ∈ ids ↔ tokenize query ≠ [] ∧ ∀ t, t ∈ tokenize query → (t, id) ∈ S) ∧
  (∃ ids, search_prefix hash_name r.1 ft prefix = Ok ids ∧ StronglySorted uuid_lt ids ∧
     ∀ id, id ∈ ids ↔ ∃ t, (t, id) ∈ S ∧ starts_with (str_bytes t) (str_bytes (to_lowercase prefix)) = true).
Proof.
  intros He Hp r S. destruct (ft_run_rep ft ops d ∅ true (ft_rep_empty d ft He)) as [Hr HR]. fold r S in Hr, HR.
  split; [done|]. split.
  - unfold search. pose proof (λ t Ht, proj1 (tokenize_nonzero query t Ht)) as Hnz.
    destruct (tokenize query) as [|t ts].
    { exists []. split; [done|]. split; [constructor|]. intros id. rewrite elem_of_nil. naive_solver. }
    assert (Forall (λ t, Byte.x00 ∉ str_bytes t) (t :: ts)) as [Ht Hts]%Forall_cons by by apply Forall_forall.
    destruct (token_ids_rep hash_name r.1 ft S t HR Ht) as (ids & -> & Hids).
    destruct (intersect_rep hash_name r.1 ft S ts (list_to_set ids) HR Hts) as (res & -> & Hres).
    destruct (sorted_ids_spec res) as [Hs Hin]. exists (sorted_ids res). split_and!; [done..|]. intros id.
    rewrite Hin, Hres, elem_of_list_to_set, Hids. setoid_rewrite elem_of_cons. naive_solver.
  - unfold search_prefix.
    destruct (scan_ids_rep hash_name r.1 ft S (token_scan_prefix hash_name ft (to_lowercase prefix))
      (λ t, starts_with (str_bytes t) (str_bytes (to_lowercase prefix)) = true) HR) as (ids & -> & Hids).
    + rewrite token_scan_prefix_eq. apply starts_with_app.
    + intros t id HS. by apply entry_has_scan_prefix.
    + destruct (sorted_ids_spec (list_to_set ids)) as [Hs Hin]. eexists. split_and!; [done..|]. intros id.
      by rewrite Hin, elem_of_list_to_set, Hids.
Qed.
End properties.

(** ** Witness: ASCII *)
#[local] Instance ascii : Unicode := ascii_unicode.
#[local] Instance ascii_laws : UnicodeLaws.
Proof.
  intros [|b [|? ?]]; cbn; try done. intros Hb E%list_elem_of_singleton. rewrite <- E in Hb. discriminate Hb.
Qed.
Definition ft0 : FullTextIndex := mkFullTextIndex sample_g "docs" "body".
Definition ft_ops : list ft_op :=
  [FtIndex (sample_uuid Byte.x01) "Hello, graph World"; FtIndex (sample_uuid Byte.x02) "hello there";
   FtRemove (sample_uuid Byte.x01) "world"].
Example tokenize_ascii : tokenize "Hello, a graph-World" = ["graph"; "hello"; "world"]%string.
Proof. reflexivity. Qed.
Lemma fulltext_search_exact_witness :
  ∃ ids, search (λ _, 0) (foldl (ft_step (λ _, 0) ft0) (empty_db, true) ft_ops).1 ft0 "HELLO graph" = Ok ids ∧
    sample_uuid Byte.x01 ∈ ids ∧ sample_uuid Byte.x02 ∉ ids.
Proof.
  destruct (fulltext_search_exact (λ _, 0) empty_db ft0 ft_ops "HELLO graph" "he") as (_ & (ids & E & _ & Hin) & _).
  - intros k _. apply lookup_empty.
  - apply (bool_decide_unpack _). vm_compute. reflexivity.
  - exists ids. split; [exact E|].
    assert (tokenize "HELLO graph" = ["graph"; "hello"]%string) as Ht by reflexivity. rewrite Ht in Hin. split.
    + apply Hin. split; [done|]. intros t [->| ->%list_elem_of_singleton]%elem_of_cons;
        apply (bool_decide_unpack _); vm_compute; reflexivity.
    + intros [_ Hid]%Hin. specialize (Hid "graph"%string ltac:(left)). apply (bool_decide_pack _) in Hid.
      vm_compute in Hid. exact Hid.
Defined.
