(* ===== verification/Cluster.v ===== *)
(** * Cluster metadata (synaptica-cluster: partition.rs, routing.rs, rebalance.rs, membership.rs,
    snapshot.rs)

    The range partition map, whose abstract contract is that every key has at most one owner; the
    membership list, which refines a finite map from node identifiers to nodes; and the stubs for
    routing, rebalancing and snapshots. A key is a byte string; the time of a heartbeat is an
    argument. *)
From S2P Require Import Prelude.

(** ** partition.rs *)
Record PartitionRange := mkRange { start : bytes; end_ : bytes }.
Record Partition := mkPartition { part_id : string; range : PartitionRange; leader_node : string; replicas : list string }.
Abbreviation PartitionMap := (list Partition).
Definition PartitionMap_new : PartitionMap := [].
Definition start_of (p : Partition) : bytes := start (range p).
Definition end_of (p : Partition) : bytes := end_ (range p).

(** The test of [add_partition]. *)
Definition overlaps (partition existing : Partition) : bool :=
  bytes_ltb (start_of partition) (end_of existing) && bytes_ltb (start_of existing) (end_of partition).
Fixpoint first_overlap (partition : Partition) (existing : PartitionMap) : option Partition :=
  match existing with
  | [] => None
  | e :: rest => if overlaps partition e then Some e else first_overlap partition rest
  end.
(** [sort_by] on the range start, stable. *)
Fixpoint sort_insert (p : Partition) (l : PartitionMap) : PartitionMap :=
  match l with
  | [] => [p]
  | q :: l' => if bytes_ltb (start_of q) (start_of p) then q :: sort_insert p l' else p :: l
  end.
Definition sort_by_start (l : PartitionMap) : PartitionMap := foldr sort_insert [] l.
Definition overlap_message (p e : Partition) : string :=
  "partition '" +:+ part_id p +:+ "' overlaps with existing partition '" +:+ part_id e +:+ "'".
Definition add_partition (m : PartitionMap) (partition : Partition) : result string PartitionMap :=
  match first_overlap partition m with
  | Some existing => Err (overlap_message partition existing)
  | None => Ok (sort_by_start (m ++ [partition]))
  end.
Definition in_range (p : Partition) (key : bytes) : bool :=
  negb (bytes_ltb key (start_of p)) && bytes_ltb key (end_of p).
Fixpoint find_partition (m : PartitionMap) (key : bytes) : option Partition :=
  match m with
  | [] => None
  | p :: m' => if in_range p key then Some p else find_partition m' key
  end.
Definition all_partitions (m : PartitionMap) : list Partition := m.

(** ** routing.rs and rebalance.rs *)
Definition route_query (query : string) (m : PartitionMap) : list (string * string) :=
  match all_partitions m with p :: _ => [(part_id p, query)] | [] => [] end.
Record PartitionMove := mkMove { move_partition_id : string; from_node : string; to_node : string }.
Definition compute_rebalance_plan (partitions : list Partition) (nodes : list string) : list PartitionMove := [].

(** ** membership.rs *)
Record ClusterNode := mkNode { node_id : string; address : string; is_alive : bool; last_heartbeat : Z }.
Abbreviation ClusterMembership := (list ClusterNode).
Definition ClusterMembership_new : ClusterMembership := [].
Definition add_node (nodes : ClusterMembership) (node : ClusterNode) : ClusterMembership :=
  if negb (existsb (λ n, bool_decide (node_id n = node_id node)) nodes) then nodes ++ [node] else nodes.
Definition remove_node (nodes : ClusterMembership) (id : string) : ClusterMembership :=
  filter (λ n, node_id n ≠ id) nodes.
Fixpoint get_node (nodes : ClusterMembership) (id : string) : option ClusterNode :=
  match nodes with
  | [] => None
  | n :: rest => if decide (node_id n = id) then Some n else get_node rest id
  end.
Definition alive_nodes (nodes : ClusterMembership) : list ClusterNode := filter (λ n, is_alive n = true) nodes.
(** [iter_mut().find(..)]: the first node with the identifier is changed. *)
Fixpoint update_node (f : ClusterNode → ClusterNode) (nodes : ClusterMembership) (id : string) : ClusterMembership :=
  match nodes with
  | [] => []
  | n :: rest => if decide (node_id n = id) then f n :: rest else n :: update_node f rest id
  end.
Definition set_dead (n : ClusterNode) : ClusterNode := mkNode (node_id n) (address n) false (last_heartbeat n).
Definition set_alive (now : Z) (n : ClusterNode) : ClusterNode := mkNode (node_id n) (address n) true now.
Definition mark_dead (nodes : ClusterMembership) (id : string) : ClusterMembership := update_node set_dead nodes id.
Definition mark_alive (now : Z) (nodes : ClusterMembership) (id : string) : ClusterMembership :=
  update_node (set_alive now) nodes id.

(** ** snapshot.rs *)
Record SnapshotMeta := mkSnapshotMeta { term : Z; index : Z; timestamp : Z }.
Definition create_snapshot (now : Z) (last_index : Z) : Z * SnapshotMeta :=
  let last_index' := wrap64 (last_index + 1) in (last_index', mkSnapshotMeta 0 last_index' now).
Definition restore_snapshot (meta : SnapshotMeta) (last_index : Z) : Z := index meta.

(** ** Partitions: every key has one owner *)
Definition owns (p : Partition) (key : bytes) : Prop := bytes_le (start_of p) key ∧ bytes_lt key (end_of p).
Definition disjoint_ranges (p q : Partition) : Prop := ∀ key, owns p key → owns q key → False.
Definition nonempty_range (p : Partition) : Prop := bytes_lt (start_of p) (end_of p).
Definition start_le (p q : Partition) : Prop := bytes_le (start_of p) (start_of q).
(** No two positions of the map share a key. *)
Definition map_ok (m : PartitionMap) : Prop :=
  StronglySorted start_le m ∧ ∀ i j p q, i ≠ j → m !! i = Some p → m !! j = Some q → disjoint_ranges p q.

Lemma in_range_owns p key : in_range p key = true ↔ owns p key.
Proof. unfold in_range, owns, bytes_le, bytes_lt. rewrite andb_true_iff, negb_true_iff. done. Qed.
Lemma overlaps_spec p q : nonempty_range p → nonempty_range q →
  overlaps p q = true ↔ ∃ key, owns p key ∧ owns q key.
Proof.
  unfold nonempty_range, overlaps. intros Hp Hq. rewrite andb_true_iff.
  change (bytes_ltb (start_of p) (end_of q) = true) with (bytes_lt (start_of p) (end_of q)).
  change (bytes_ltb (start_of q) (end_of p) = true) with (bytes_lt (start_of q) (end_of p)). split.
  - intros [H1 H2]. destruct (bytes_le_total (start_of p) (start_of q)).
    + exists (start_of q). unfold owns. eauto using bytes_le_refl.
    + exists (start_of p). unfold owns. eauto using bytes_le_refl.
  - intros (key & [??] & [??]). eauto using bytes_le_lt_trans.
Qed.
(** Whether or not the ranges are empty, the test never lets a shared key through. *)
Lemma overlaps_complete p q key : owns p key → owns q key → overlaps p q = true.
Proof.
  intros [??] [??]. unfold overlaps. apply andb_true_iff. split.
  - change (bytes_lt (start_of p) (end_of q)). eauto using bytes_le_lt_trans.
  - change (bytes_lt (start_of q) (end_of p)). eauto using bytes_le_lt_trans.
Qed.
Lemma first_overlap_spec p m :
  match first_overlap p m with
  | Some e => e ∈ m ∧ overlaps p e = true
  | None => ∀ e, e ∈ m → overlaps p e = false
  end.
Proof.
  induction m as [|e m IH]; cbn; [by intros e ?%elem_of_nil|]. destruct (overlaps p e) eqn:E; [split; [left|done]|].
  destruct (first_overlap p m) as [e'|]; [destruct IH; split; [by right|done]|].
  intros e' [->|?]%elem_of_cons; auto.
Qed.
Lemma sort_insert_perm p l : sort_insert p l ≡ₚ p :: l.
Proof.
  induction l as [|q l IH]; cbn; [done|]. destruct (bytes_ltb _ _); [|done]. rewrite IH. constructor.
Qed.
Lemma sort_by_start_perm l : sort_by_start l ≡ₚ l.
Proof. induction l as [|p l IH]; cbn; [done|]. by rewrite sort_insert_perm, IH. Qed.
Lemma sort_insert_sorted p l : StronglySorted start_le l → StronglySorted start_le (sort_insert p l).
Proof.
  induction 1 as [|q l Hs IH Hall]; cbn; [repeat constructor|]. destruct (bytes_ltb (start_of q) (start_of p)) eqn:E.
  - constructor; [done|]. rewrite sort_insert_perm. constructor; [by apply bytes_lt_le|done].
  - constructor; [by constructor|]. constructor; [done|]. eapply Forall_impl; [exact Hall|].
    intros r Hr. unfold start_le in *. eauto using bytes_le_trans.
Qed.
Lemma sort_by_start_sorted l : StronglySorted start_le (sort_by_start l).
Proof. induction l as [|p l IH]; cbn; [constructor|by apply sort_insert_sorted]. Qed.

(** Pairwise disjointness does not depend on positions. *)
Definition pairwise (m : PartitionMap) : Prop :=
  ∀ i j p q, i ≠ j → m !! i = Some p → m !! j = Some q → disjoint_ranges p q.
Lemma pairwise_cons p m : pairwise (p :: m) ↔ (∀ q, q ∈ m → disjoint_ranges p q) ∧ pairwise m.
Proof.
  split.
  - intros Hp. split.
    + intros q [i Hi]%list_elem_of_lookup. by apply (Hp 0%nat (S i) p q).
    + intros i j x y Hne Hx Hy. apply (Hp (S i) (S j)); [congruence|done..].
  - intros [Hd Hp] [|i] [|j] x y Hne; cbn; [done| | |].
    + intros [= <-] Hy. apply Hd. by apply list_elem_of_lookup_2 in Hy.
    + intros Hx [= <-] key ??. apply list_elem_of_lookup_2 in Hx. by apply (Hd x Hx key).
    + apply Hp. congruence.
Qed.
Lemma pairwise_perm m1 m2 : m1 ≡ₚ m2 → pairwise m1 → pairwise m2.
Proof.
  induction 1 as [|p m1 m2 Hm IH|p q m|m1 m2 m3 _ IH1 _ IH2]; [done| | |auto].
  - rewrite !pairwise_cons. intros [Hd Hp]. split; [|auto]. intros q Hq. apply Hd. by rewrite Hm.
  - rewrite !pairwise_cons. intros (Hd1 & Hd2 & Hp). split_and!; [|intros; apply Hd1; by right|done].
    intros r [->|Hr]%elem_of_cons; [|by apply Hd2]. intros key ??. by apply (Hd1 p ltac:(left) key).
Qed.
Lemma find_partition_spec m key :
  match find_partition m key with
  | Some p => p ∈ m ∧ owns p key
  | None => ∀ p, p ∈ m → ¬ owns p key
  end.
Proof.
  induction m as [|p m IH]; cbn; [by intros p ?%elem_of_nil|]. destruct (in_range p key) eqn:E.
  - split; [left|by apply in_range_owns].
  - destruct (find_partition m key); [destruct IH; split; [by right|done]|].
    intros q [->|?]%elem_of_cons; [|auto]. intros Ho. apply in_range_owns in Ho. congruence.
Qed.
Definition add_all (ps : list Partition) : PartitionMap :=
  foldl (λ m p, match add_partition m p with Ok m' => m' | Err _ => m end) PartitionMap_new ps.
Lemma add_partition_ok m p m' : add_partition m p = Ok m' → map_ok m → map_ok m' ∧ m' ≡ₚ p :: m.
Proof.
  unfold add_partition. pose proof (first_overlap_spec p m) as Hf. destruct (first_overlap p m) as [e|]; [done|].
  intros [= <-] [Hs Hp]. split; [split; [apply sort_by_start_sorted|]|].
  - change (pairwise (sort_by_start (m ++ [p]))). apply (pairwise_perm (p :: m)).
    + rewrite sort_by_start_perm. by rewrite Permutation_app_comm.
    + apply pairwise_cons. split; [|done]. intros q Hq key H1 H2.
      pose proof (overlaps_complete _ _ _ H1 H2) as Ho. by rewrite Hf in Ho.
  - rewrite sort_by_start_perm. by rewrite Permutation_app_comm.
Qed.
Lemma add_all_ok ps m : map_ok m →
  map_ok (foldl (λ m p, match add_partition m p with Ok m' => m' | Err _ => m end) m ps).
Proof.
  revert m. induction ps as [|p ps IH]; intros m Hm; cbn; [done|]. apply IH.
  destruct (add_partition m p) eqn:E; [|done]. by apply add_partition_ok in E as [? _].
Qed.
Lemma map_ok_owner m p q key : map_ok m → p ∈ m → q ∈ m → owns p key → owns q key → p = q.
Proof.
  intros [_ Hp] [i Hi]%list_elem_of_lookup [j Hj]%list_elem_of_lookup H1 H2.
  destruct (decide (i = j)) as [->|Hne]; [congruence|]. by destruct (Hp i j p q Hne Hi Hj key).
Qed.

(** C30: partitions partition. In a map built by any sequence of additions, refused ones included,
    the partitions are sorted by start and no two share a key, so a key's lookup returns its only
    owner and nothing exactly for keys without one. An addition is refused exactly when the new
    range shares a key with an existing one (for ranges that are not empty), and otherwise adds
    the partition and keeps all others. *)
Theorem partition_map_correct ps p key :
  let m := add_all ps in
  StronglySorted start_le m ∧
  (∀ q, find_partition m key = Some q ↔ q ∈ m ∧ owns q key) ∧
  (∀ q r, q ∈ m → r ∈ m → owns q key → owns r key → q = r) ∧
  match add_partition m p with
  | Ok m' => m' ≡ₚ p :: m ∧ ∀ q, q ∈ m → disjoint_ranges p q
  | Err _ => nonempty_range p → (∀ q, q ∈ m → nonempty_range q) → ∃ q k, q ∈ m ∧ owns p k ∧ owns q k
  end.
Proof.
  intros m. assert (map_ok m) as Hm.
  { apply add_all_ok. split; [constructor|done]. }
  split_and!; [apply Hm| |intros q r ? ? ? ?; by eapply map_ok_owner|].
  - intros q. pose proof (find_partition_spec m key) as Hf. destruct (find_partition m key) as [q'|].
    + split; [by intros [= <-]|]. intros [Hq Ho]. f_equal. destruct Hf. by eapply map_ok_owner.
    + split; [done|]. intros [Hq Ho]. by destruct (Hf q Hq).
  - destruct (add_partition m p) as [m'|e] eqn:E.
    + destruct (add_partition_ok _ _ _ E Hm) as [[_ Hp] Hperm]. split; [done|].
      apply (pairwise_perm _ (p :: m)) in Hp; [|done]. by apply pairwise_cons in Hp as [? _].
    + intros Hp Hall. unfold add_partition in E. pose proof (first_overlap_spec p m) as Hf.
      destruct (first_overlap p m) as [q|]; [|done]. destruct Hf as [Hq Ho].
      apply overlaps_spec in Ho as (k & ? & ?); [|done|by apply Hall]. by exists q, k.
Qed.

(** ** Membership: a finite map by node identifier *)
Inductive member_op : Type :=
| MAdd (n : ClusterNode) | MRemove (id : string) | MDead (id : string) | MAlive (now : Z) (id : string).
Definition member_step (nodes : ClusterMembership) (op : member_op) : ClusterMembership :=
  match op with
  | MAdd n => add_node nodes n
  | MRemove id => remove_node nodes id
  | MDead id => mark_dead nodes id
  | MAlive now id => mark_alive now nodes id
  end.
Definition member_abs (M : gmap string ClusterNode) (op : member_op) : gmap string ClusterNode :=
  match op with
  | MAdd n => match M !! node_id n with Some _ => M | None => <[node_id n := n]> M end
  | MRemove id => delete id M
  | MDead id => alter set_dead id M
  | MAlive now id => alter (set_alive now) id M
  end.
Record member_rep (nodes : ClusterMembership) (M : gmap string ClusterNode) : Prop := {
  rep_nodup : NoDup (node_id <$> nodes);
  rep_in n : n ∈ nodes ↔ M !! node_id n = Some n;
  rep_key i n : M !! i = Some n → node_id n = i
}.
Lemma member_get_rep nodes M id : member_rep nodes M → get_node nodes id = M !! id.
Proof.
  intros HR. assert (∀ l, (∀ n, n ∈ l → M !! node_id n = Some n) →
    get_node l id = M !! id ∨ (get_node l id = None ∧ ∀ n, n ∈ l → node_id n ≠ id)) as Hl.
  { induction l as [|n l IH]; intros Hm; cbn; [right; split; [done|]; by intros n ?%elem_of_nil|].
    case_decide as E; [left; rewrite <- E; symmetry; apply Hm; left|].
    destruct IH as [->|[-> Hn]]; [intros; apply Hm; by right|by left|right]. split; [done|].
    intros n' [->|?]%elem_of_cons; auto. }
  destruct (Hl nodes) as [E|[E Hn]]; [intros n; apply (rep_in _ _ HR)|done|]. rewrite E. symmetry. apply eq_None_not_Some.
  intros [n Hm]. pose proof (rep_key _ _ HR _ _ Hm) as <-. apply (rep_in _ _ HR) in Hm. by apply (Hn n).
Qed.
Lemma update_node_ids f l id : (∀ n, node_id (f n) = node_id n) → node_id <$> update_node f l id = node_id <$> l.
Proof. intros Hf. induction l as [|n l IH]; cbn; [done|]. case_decide; cbn; [by rewrite Hf|by rewrite IH]. Qed.
Lemma elem_of_update_node f l id n : (∀ n, node_id (f n) = node_id n) → NoDup (node_id <$> l) →
  n ∈ update_node f l id ↔ (n ∈ l ∧ node_id n ≠ id) ∨ ∃ n', n' ∈ l ∧ node_id n' = id ∧ n = f n'.
Proof.
  intros Hf. induction l as [|x l IH]; cbn; [set_solver|]. intros [Hx Hl]%NoDup_cons. case_decide as E.
  - rewrite !elem_of_cons. setoid_rewrite elem_of_cons.
    assert (∀ y, y ∈ l → node_id y ≠ id) as Hy.
    { intros y Hy <-. apply Hx. rewrite E. by apply list_elem_of_fmap_2. }
    split; [|naive_solver]. intros [->|Hn]; [naive_solver|left; split; [by right|by apply Hy]].
  - rewrite !elem_of_cons, IH by done. setoid_rewrite elem_of_cons. naive_solver.
Qed.
Lemma update_node_rep f nodes M id : (∀ n, node_id (f n) = node_id n) → member_rep nodes M →
  member_rep (update_node f nodes id) (alter f id M).
Proof.
  intros Hf HR. split.
  - rewrite update_node_ids by done. apply (rep_nodup _ _ HR).
  - intros n. rewrite elem_of_update_node by (done || apply (rep_nodup _ _ HR)). setoid_rewrite (rep_in _ _ HR).
    destruct (decide (node_id n = id)) as [E|E].
    + rewrite E, lookup_alter_eq, fmap_Some. split.
      * intros [[_ ?]|(n' & Hn' & E' & ->)]; [done|]. rewrite E' in Hn'. eauto.
      * intros (n' & Hn' & ->). right. exists n'. rewrite Hf in E. by rewrite E.
    + rewrite lookup_alter_ne by done. split; [|naive_solver].
      intros [[? _]|(n' & _ & E' & Hn)]; [done|]. rewrite Hn, Hf in E. done.
  - intros i n. destruct (decide (id = i)) as [->|Hne].
    + rewrite lookup_alter_eq. intros (n' & Hn' & ->)%fmap_Some. rewrite Hf. by eapply rep_key.
    + rewrite lookup_alter_ne by done. by eapply rep_key.
Qed.
Lemma add_node_rep nodes M n : member_rep nodes M → member_rep (add_node nodes n) (member_abs M (MAdd n)).
Proof.
  intros HR. unfold add_node. cbn. destruct (existsb _ nodes) eqn:Hex; cbn.
  - apply existsb_exists in Hex as (x & Hx%list_elem_of_In%(rep_in _ _ HR) & E%bool_decide_eq_true).
    rewrite E in Hx. by rewrite Hx.
  - assert (M !! node_id n = None) as HN.
    { apply eq_None_not_Some. intros [x Hx]. pose proof (rep_key _ _ HR _ _ Hx) as E. rewrite <- E in Hx.
      apply (rep_in _ _ HR) in Hx. apply not_true_iff_false in Hex. apply Hex. apply existsb_exists. exists x.
      split; [by apply list_elem_of_In|]. by apply bool_decide_eq_true. }
    rewrite HN. split.
    + rewrite fmap_app. cbn. apply NoDup_app. split_and!; [apply (rep_nodup _ _ HR)| |by apply NoDup_singleton].
      intros i (x & -> & Hx)%list_elem_of_fmap E%list_elem_of_singleton. apply (rep_in _ _ HR) in Hx. congruence.
    + intros x. rewrite elem_of_app, list_elem_of_singleton, (rep_in _ _ HR). split.
      * intros [Hx| ->]; [|apply lookup_insert_eq]. rewrite lookup_insert_ne; [done|]. congruence.
      * intros [[_ ->]|[_ ?]]%lookup_insert_Some; auto.
    + intros i x [[<- <-]|[_ Hx]]%lookup_insert_Some; [done|by eapply rep_key].
Qed.
Lemma remove_node_rep nodes M id : member_rep nodes M → member_rep (remove_node nodes id) (delete id M).
Proof.
  intros HR. unfold remove_node. split.
  - eapply sublist_NoDup; [apply (rep_nodup _ _ HR)|]. apply fmap_sublist, sublist_filter.
  - intros n. rewrite list_elem_of_filter, (rep_in _ _ HR), lookup_delete_Some. naive_solver.
  - intros i n [_ Hn]%lookup_delete_Some. by eapply rep_key.
Qed.
Lemma member_step_rep nodes M op : member_rep nodes M → member_rep (member_step nodes op) (member_abs M op).
Proof.
  destruct op as [n|id|id|now id]; [apply add_node_rep|apply remove_node_rep|by apply update_node_rep..].
Qed.

Lemma member_run_rep ops nodes M : member_rep nodes M → member_rep (foldl member_step nodes ops) (foldl member_abs M ops).
Proof.
  revert nodes M. induction ops as [|op ops IH]; intros nodes M HR; cbn [foldl]; [done|]. by apply IH, member_step_rep.
Qed.

(** membership is a map. After any sequence of additions, removals and liveness marks, the list
    holds one node per identifier and its lookups are those of the finite map in which an addition
    never replaces a node, a removal deletes the identifier and a mark changes one node; the alive
    nodes are exactly the members marked alive. *)
Theorem membership_refines_map ops id n :
  let nodes := foldl member_step ClusterMembership_new ops in
  let M := foldl member_abs ∅ ops in
  NoDup (node_id <$> nodes) ∧ get_node nodes id = M !! id ∧
  (n ∈ alive_nodes nodes ↔ M !! node_id n = Some n ∧ is_alive n = true).
Proof.
  intros nodes M. assert (member_rep nodes M) as HR.
  { apply member_run_rep. split; [constructor|set_solver|done]. }
  split_and!; [apply (rep_nodup _ _ HR)|by apply member_get_rep|]. unfold alive_nodes.
  rewrite list_elem_of_filter, (rep_in _ _ HR). tauto.
Qed.

(** ** Witness *)
Definition part (id : string) (a b : byte) : Partition := mkPartition id (mkRange [a] [b]) "n1" [].
Lemma partition_map_correct_witness :
  is_err (add_partition (add_all [part "p2" Byte.x40 Byte.x80; part "p1" Byte.x00 Byte.x40]) (part "p3" Byte.x30 Byte.x50)) = true ∧
  find_partition (add_all [part "p2" Byte.x40 Byte.x80; part "p1" Byte.x00 Byte.x40]) [Byte.x41; Byte.x00] =
    Some (part "p2" Byte.x40 Byte.x80).
Proof.
  split; [vm_compute; reflexivity|].
  destruct (partition_map_correct [part "p2" Byte.x40 Byte.x80; part "p1" Byte.x00 Byte.x40] (part "p3" Byte.x30 Byte.x50)
    [Byte.x41; Byte.x00]) as (_ & Hf & _). apply Hf. split; [vm_compute; right; left|]. split; reflexivity.
Defined.
