(* ===== verification/Lexer.v ===== *)
(** * The lexer of the query language (synaptica-gql: lexer.rs)

    Characters are code points and a [String] is the list of its characters. The lexer keeps the
    input, a position in it, and the line and column of the position. Loops take fuel, one more
    than the length of the input; [OutOfFuel] is proved never to occur. Parsing of numbers is the
    standard library's: decimal integers below 2^63, and floats rounded to the nearest 64-bit
    float (given as its bits), ties to even. *)
From S2P Require Import Prelude.
From Stdlib Require Import Ascii.

Abbreviation text := (list Z).
Definition chr (a : ascii) : Z := Z.of_N (N_of_ascii a).
(** The characters of an ASCII string. *)
Definition chars_of (s : string) : text := chr <$> String.list_ascii_of_string s.

(** ** Characters *)
Definition in_char_range (lo hi : ascii) (c : Z) : bool := (chr lo <=? c) && (c <=? chr hi).
Definition is_ascii_digit (c : Z) : bool := in_char_range "0" "9" c.
Definition is_ascii_alphabetic (c : Z) : bool := in_char_range "A" "Z" c || in_char_range "a" "z" c.
Definition is_ascii_alphanumeric (c : Z) : bool := is_ascii_alphabetic c || is_ascii_digit c.
Definition is_ascii_whitespace (c : Z) : bool :=
  (c =? 32) || (c =? 9) || (c =? 10) || (c =? 12) || (c =? 13).
Definition to_ascii_uppercase (s : text) : text :=
  (λ c, if in_char_range "a" "z" c then c - 32 else c) <$> s.
Definition ident_char (c : Z) : bool := is_ascii_alphanumeric c || (c =? chr "_").

(** ** Tokens *)
Inductive Token : Type :=
| TMatch | TWhere | TReturn | TCreate | TInsert | TDelete | TSet | TRemove | TDrop | TGraph | TType
| TNode | TEdge | TTrue | TFalse | TNull | TNot | TAnd | TOr | TXor | TIs | TIn | TLike | TAs | TBy
| TOrder | TAsc | TDesc | TLimit | TOffset | TGroup | THaving | TWith | TLet | TFor | TFilter |
TCall | TYield | TOptional | TMandatory | TExists | TCase | TWhen | TThen | TElse | TEnd | TUnion |
TIntersect | TExcept | TAll | TDistinct | TCount | TSum | TAvg | TMin | TMax | TCollect | TWalk |
TTrail | TSimple | TAcyclic | TShortest | TPath | TAny | TCommit | TRollback | TBegin | TIf |
TDetach | TNodetach | TCost | TOf | TTo | TFrom | TIndex | TUnique | TOn | TList
| TIntegerLit (z : Z) | TFloatLit (bits : Z) | TStringLit (s : text) | TBoolLit (b : bool) | TNullLit
| TIdent (s : text) | TParameter (s : text)
| TPlus | TMinus | TStar | TSlash | TPercent | TEq | TNeq | TLt | TGt | TLe | TGe | TDoublePipe | TDot | TDoubleDot
| TArrow | TLeftArrow | TTilde
| TLParen | TRParen | TLBracket | TRBracket | TLBrace | TRBrace | TComma | TColon | TSemicolon | TAt
| TEof | TComment (s : text).
#[export] Instance Token_eq_dec : EqDecision Token.
Proof. solve_decision. Defined.

Record Span := mkSpan { sp_line : nat; sp_column : nat; sp_offset : nat }.
Record SpannedToken := mkSpanned { token : Token; span : Span }.
Record LexerError := mkLexerError { message : text; err_line : nat; err_column : nat }.
Definition LexerError_fmt (e : LexerError) : text :=
  chars_of "Lexer error at " ++ chars_of (pretty (err_line e)) ++ chars_of ":" ++ chars_of (pretty (err_column e))
    ++ chars_of ": " ++ message e.

Definition keyword_table : list (string * Token) := [
  ("MATCH"%string, TMatch);
  ("WHERE"%string, TWhere);
  ("RETURN"%string, TReturn);
  ("CREATE"%string, TCreate);
  ("INSERT"%string, TInsert);
  ("DELETE"%string, TDelete);
  ("SET"%string, TSet);
  ("REMOVE"%string, TRemove);
  ("DROP"%string, TDrop);
  ("GRAPH"%string, TGraph);
  ("TYPE"%string, TType);
  ("NODE"%string, TNode);
  ("EDGE"%string, TEdge);
  ("TRUE"%string, TTrue);
  ("FALSE"%string, TFalse);
  ("NULL"%string, TNull);
  ("NOT"%string, TNot);
  ("AND"%string, TAnd);
  ("OR"%string, TOr);
  ("XOR"%string, TXor);
  ("IS"%string, TIs);
  ("IN"%string, TIn);
  ("LIKE"%string, TLike);
  ("AS"%string, TAs);
  ("BY"%string, TBy);
  ("ORDER"%string, TOrder);
  ("ASC"%string, TAsc);
  ("DESC"%string, TDesc);
  ("LIMIT"%string, TLimit);
  ("OFFSET"%string, TOffset);
  ("GROUP"%string, TGroup);
  ("HAVING"%string, THaving);
  ("WITH"%string, TWith);
  ("LET"%string, TLet);
  ("FOR"%string, TFor);
  ("FILTER"%string, TFilter);
  ("CALL"%string, TCall);
  ("YIELD"%string, TYield);
  ("OPTIONAL"%string, TOptional);
  ("MANDATORY"%string, TMandatory);
  ("EXISTS"%string, TExists);
  ("CASE"%string, TCase);
  ("WHEN"%string, TWhen);
  ("THEN"%string, TThen);
  ("ELSE"%string, TElse);
  ("END"%string, TEnd);
  ("UNION"%string, TUnion);
  ("INTERSECT"%string, TIntersect);
  ("EXCEPT"%string, TExcept);
  ("ALL"%string, TAll);
  ("DISTINCT"%string, TDistinct);
  ("COUNT"%string, TCount);
  ("SUM"%string, TSum);
  ("AVG"%string, TAvg);
  ("MIN"%string, TMin);
  ("MAX"%string, TMax);
  ("COLLECT"%string, TCollect);
  ("WALK"%string, TWalk);
  ("TRAIL"%string, TTrail);
  ("SIMPLE"%string, TSimple);
  ("ACYCLIC"%string, TAcyclic);
  ("SHORTEST"%string, TShortest);
  ("PATH"%string, TPath);
  ("ANY"%string, TAny);
  ("COMMIT"%string, TCommit);
  ("ROLLBACK"%string, TRollback);
  ("BEGIN"%string, TBegin);
  ("IF"%string, TIf);
  ("DETACH"%string, TDetach);
  ("NODETACH"%string, TNodetach);
  ("COST"%string, TCost);
  ("OF"%string, TOf);
  ("TO"%string, TTo);
  ("FROM"%string, TFrom);
  ("INDEX"%string, TIndex);
  ("UNIQUE"%string, TUnique);
  ("ON"%string, TOn);
  ("LIST"%string, TList)
].
Fixpoint find_keyword (word : text) (table : list (string * Token)) : option Token :=
  match table with
  | [] => None
  | (k, t) :: rest => if decide (word = chars_of k) then Some t else find_keyword word rest
  end.
Definition keyword_token (word : text) : option Token := find_keyword (to_ascii_uppercase word) keyword_table.

(** ** Numbers: [str::parse] of the standard library *)
Definition digits_value (ds : text) : Z := foldl (λ v c, 10 * v + (c - chr "0")) 0 ds.
(** [parse::<i64>] on a string of digits *)
Definition parse_i64 (s : text) : option Z :=
  if forallb is_ascii_digit s && negb (bool_decide (s = [])) then
    if digits_value s <? 2 ^ 63 then Some (digits_value s) else None
  else None.
(** The bits of the float nearest to num / den (both positive): the significand [q] is scaled by a
    power of two so that it has 53 bits, or fewer at the smallest exponent. *)
Definition round_f64 (num den : Z) : Z :=
  let scaled e := if 0 <=? e then (num, den * 2 ^ e) else (num * 2 ^ (- e), den) in
  let e0 := Z.log2 num - Z.log2 den - 52 in
  let e1 := if (scaled e0).1 <? 2 ^ 52 * (scaled e0).2 then e0 - 1 else e0 in
  let e := Z.max e1 (-1074) in
  let '(n, d) := scaled e in
  let q := n / d in
  let r := n mod d in
  let q' := if (d <? 2 * r) || ((2 * r =? d) && Z.odd q) then q + 1 else q in
  let bits := (e + 1074) * 2 ^ 52 + q' in
  if 2047 * 2 ^ 52 <=? bits then 2047 * 2 ^ 52 else bits.
Definition decimal_f64 (m e10 : Z) : Z :=
  if m =? 0 then 0 else if 0 <=? e10 then round_f64 (m * 10 ^ e10) 1 else round_f64 m (10 ^ (- e10)).
Fixpoint span_digits (s : text) : text * text :=
  match s with
  | c :: s' => if is_ascii_digit c then let '(ds, rest) := span_digits s' in (c :: ds, rest) else ([], s)
  | [] => ([], [])
  end.
Definition parse_exponent (s : text) : option Z :=
  match s with
  | [] => Some 0
  | c :: s1 =>
      if (c =? chr "e") || (c =? chr "E") then
        let '(sign, s2) := match s1 with
                           | c' :: s2 => if c' =? chr "+" then (1, s2) else if c' =? chr "-" then (-1, s2) else (1, s1)
                           | [] => (1, s1)
                           end in
        if forallb is_ascii_digit s2 && negb (bool_decide (s2 = [])) then Some (sign * digits_value s2) else None
      else None
  end.
(** [parse::<f64>] on digits with an optional fraction and exponent *)
Definition parse_f64 (s : text) : option Z :=
  let '(ip, s1) := span_digits s in
  let '(fp, s2) := match s1 with
                   | c :: s' => if c =? chr "." then span_digits s' else ([], s1)
                   | [] => ([], [])
                   end in
  if bool_decide (ip ++ fp = []) then None
  else match parse_exponent s2 with
       | Some e => Some (decimal_f64 (digits_value (ip ++ fp)) (e - Z.of_nat (length fp)))
       | None => None
       end.
Example f64_314 : parse_f64 (chars_of "3.14") = Some 0x40091EB851EB851F.
Proof. vm_compute. reflexivity. Qed.
Example f64_exp : parse_f64 (chars_of "1.5e10") = Some 0x420BF08EB0000000.
Proof. vm_compute. reflexivity. Qed.
Example f64_tiny : parse_f64 (chars_of "5e-324") = Some 1.
Proof. vm_compute. reflexivity. Qed.
Example f64_inf : parse_f64 (chars_of "2e308") = Some 0x7FF0000000000000.
Proof. vm_compute. reflexivity. Qed.

(** ** The lexer *)
Record Lexer := mkLexer { input : text; pos : nat; line : nat; column : nat }.
Definition Lexer_new (s : text) : Lexer := mkLexer s 0 1 1.

Inductive outcome (A : Type) : Type :=
| Done (a : A)
| Fail (e : LexerError)
| OutOfFuel.
Arguments Done {A} a.
Arguments Fail {A} e.
Arguments OutOfFuel {A}.
#[export] Instance outcome_bind : MBind outcome := λ A B f m,
  match m with Done a => f a | Fail e => Fail e | OutOfFuel => OutOfFuel end.

Section lexer.
Implicit Types (lx : Lexer) (sp : Span) (p : Z → bool).
Definition is_eof lx : bool := (length (input lx) <=? pos lx)%nat.
Definition peek lx : Z := default 0 (input lx !! pos lx).
Definition peek_at lx (offset : nat) : option Z := input lx !! (pos lx + offset)%nat.
(** The state after the character [ch]. *)
Definition step_over lx (ch : Z) : Lexer :=
  if ch =? 10 then mkLexer (input lx) (S (pos lx)) (S (line lx)) 1
  else mkLexer (input lx) (S (pos lx)) (line lx) (S (column lx)).
Definition advance lx : Lexer * Z :=
  match input lx !! pos lx with
  | None => (lx, 0)
  | Some ch => (step_over lx ch, ch)
  end.
Definition current_span lx : Span := mkSpan (line lx) (column lx) (pos lx).
Definition error {A} lx (msg : text) : outcome A := Fail (mkLexerError msg (line lx) (column lx)).
Definition error_at {A} sp (msg : text) : outcome A := Fail (mkLexerError msg (sp_line sp) (sp_column sp)).
(** Fuel of every loop. *)
Definition fuel_of lx : nat := S (length (input lx)).

(** [while !self.is_eof() && p(self.peek()) { self.advance(); }] *)
Fixpoint advance_while (fuel : nat) p lx : outcome Lexer :=
  match fuel with
  | O => OutOfFuel
  | S fuel => if negb (is_eof lx) && p (peek lx) then advance_while fuel p (advance lx).1 else Done lx
  end.
(** The same with [text.push(self.advance())]. *)
Fixpoint push_while (fuel : nat) p lx (acc : text) : outcome (Lexer * text) :=
  match fuel with
  | O => OutOfFuel
  | S fuel =>
      if negb (is_eof lx) && p (peek lx) then let '(lx', ch) := advance lx in push_while fuel p lx' (acc ++ [ch])
      else Done (lx, acc)
  end.
Definition skip_whitespace lx : outcome Lexer := advance_while (fuel_of lx) is_ascii_whitespace lx.
(** [self.input[start..self.pos]] *)
Definition slice lx (start : nat) : text := take (pos lx - start) (drop start (input lx)).

Definition lex_single_line_comment sp lx : outcome (Lexer * SpannedToken) :=
  let lx := (advance lx).1 in
  let lx := (advance lx).1 in
  '(lx, t) ← push_while (fuel_of lx) (λ c, negb (c =? 10)) lx [];
  Done (lx, mkSpanned (TComment t) sp).
Fixpoint comment_loop (fuel : nat) sp lx (acc : text) : outcome (Lexer * text) :=
  match fuel with
  | O => OutOfFuel
  | S fuel =>
      if is_eof lx then error_at sp (chars_of "unterminated multi-line comment")
      else if (peek lx =? chr "*") && bool_decide (peek_at lx 1 = Some (chr "/")) then
        Done ((advance (advance lx).1).1, acc)
      else let '(lx', ch) := advance lx in comment_loop fuel sp lx' (acc ++ [ch])
  end.
Definition lex_multi_line_comment sp lx : outcome (Lexer * SpannedToken) :=
  let lx := (advance lx).1 in
  let lx := (advance lx).1 in
  '(lx, t) ← comment_loop (fuel_of lx) sp lx [];
  Done (lx, mkSpanned (TComment t) sp).
Fixpoint string_loop (fuel : nat) sp lx (s : text) : outcome (Lexer * text) :=
  match fuel with
  | O => OutOfFuel
  | S fuel =>
      if is_eof lx then error_at sp (chars_of "unterminated string literal")
      else
        let '(lx, ch) := advance lx in
        if ch =? chr "'" then
          if negb (is_eof lx) && (peek lx =? chr "'") then string_loop fuel sp (advance lx).1 (s ++ [chr "'"])
          else Done (lx, s)
        else string_loop fuel sp lx (s ++ [ch])
  end.
Definition lex_string sp lx : outcome (Lexer * SpannedToken) :=
  let lx := (advance lx).1 in
  '(lx, s) ← string_loop (fuel_of lx) sp lx [];
  Done (lx, mkSpanned (TStringLit s) sp).

(** The fraction and the exponent; [true] when present. *)
Definition lex_fraction lx : outcome (Lexer * bool) :=
  if negb (is_eof lx) && (peek lx =? chr ".")
     && match peek_at lx 1 with Some c => is_ascii_digit c | None => false end then
    let lx := (advance lx).1 in
    lx ← advance_while (fuel_of lx) is_ascii_digit lx;
    Done (lx, true)
  else Done (lx, false).
Definition lex_exponent lx : outcome (Lexer * bool) :=
  if negb (is_eof lx) && ((peek lx =? chr "e") || (peek lx =? chr "E")) then
    let lx := (advance lx).1 in
    let lx := if negb (is_eof lx) && ((peek lx =? chr "+") || (peek lx =? chr "-")) then (advance lx).1 else lx in
    if is_eof lx || negb (is_ascii_digit (peek lx)) then
      error lx (chars_of "invalid numeric literal: expected digit after exponent")
    else
      lx ← advance_while (fuel_of lx) is_ascii_digit lx;
      Done (lx, true)
  else Done (lx, false).
Definition lex_number sp lx : outcome (Lexer * SpannedToken) :=
  let start := pos lx in
  lx ← advance_while (fuel_of lx) is_ascii_digit lx;
  '(lx, frac) ← lex_fraction lx;
  '(lx, expo) ← lex_exponent lx;
  let t := slice lx start in
  if frac || expo then
    match parse_f64 t with
    | Some v => Done (lx, mkSpanned (TFloatLit v) sp)
    | None => error lx (chars_of "invalid float literal: " ++ t)
    end
  else
    match parse_i64 t with
    | Some v => Done (lx, mkSpanned (TIntegerLit v) sp)
    | None => error lx (chars_of "invalid integer literal: " ++ t)
    end.
Definition lex_identifier sp lx : outcome (Lexer * SpannedToken) :=
  let start := pos lx in
  lx ← advance_while (fuel_of lx) ident_char lx;
  let word := slice lx start in
  Done (lx, mkSpanned (default (TIdent word) (keyword_token word)) sp).
Definition lex_parameter sp lx : outcome (Lexer * SpannedToken) :=
  let lx := (advance lx).1 in
  if is_eof lx || negb (is_ascii_alphabetic (peek lx) || (peek lx =? chr "_")) then
    error lx (chars_of "expected parameter name after '$'")
  else
    let start := pos lx in
    lx ← advance_while (fuel_of lx) ident_char lx;
    Done (lx, mkSpanned (TParameter (slice lx start)) sp).

(** Tokens of one character. *)
Definition single_tokens : list (ascii * Token) := [
  ("+"%char, TPlus); ("*"%char, TStar); ("/"%char, TSlash); ("%"%char, TPercent); ("~"%char, TTilde);
  ("("%char, TLParen); (")"%char, TRParen); ("["%char, TLBracket); ("]"%char, TRBracket); ("{"%char, TLBrace);
  ("}"%char, TRBrace); (","%char, TComma); (":"%char, TColon); (";"%char, TSemicolon); ("@"%char, TAt); ("="%char, TEq)].
Fixpoint find_single (c : Z) (table : list (ascii * Token)) : option Token :=
  match table with
  | [] => None
  | (a, t) :: rest => if c =? chr a then Some t else find_single c rest
  end.
(** The next character, if it is [c]. *)
Definition next_is lx (c : ascii) : bool := negb (is_eof lx) && (peek lx =? chr c).
Definition lex_operator_or_delimiter sp lx : outcome (Lexer * SpannedToken) :=
  let '(lx, ch) := advance lx in
  let two := (advance lx).1 in
  let ok lx t := Done (lx, mkSpanned t sp) in
  match find_single ch single_tokens with
  | Some t => ok lx t
  | None =>
      if ch =? chr "." then (if next_is lx "." then ok two TDoubleDot else ok lx TDot)
      else if ch =? chr "|" then
        (if next_is lx "|" then ok two TDoublePipe
         else error_at sp (chars_of "unexpected character '|'; did you mean '||'?"))
      else if ch =? chr "!" then
        (if next_is lx "=" then ok two TNeq else error_at sp (chars_of "unexpected character '!'; did you mean '!='?"))
      else if ch =? chr "<" then
        (if next_is lx "=" then ok two TLe
         else if next_is lx ">" then ok two TNeq
         else if next_is lx "-" then ok two TLeftArrow
         else ok lx TLt)
      else if ch =? chr ">" then (if next_is lx "=" then ok two TGe else ok lx TGt)
      else if ch =? chr "-" then (if next_is lx ">" then ok two TArrow else ok lx TMinus)
      else error_at sp (chars_of "unexpected character '" ++ [ch] ++ chars_of "'")
  end.

(** [next_token] once whitespace is skipped. *)
Definition lex_token lx : outcome (Lexer * SpannedToken) :=
  let sp := current_span lx in
  if is_eof lx then Done (lx, mkSpanned TEof sp)
  else
    let ch := peek lx in
    if (ch =? chr "-") && bool_decide (peek_at lx 1 = Some (chr "-")) then lex_single_line_comment sp lx
    else if (ch =? chr "/") && bool_decide (peek_at lx 1 = Some (chr "*")) then lex_multi_line_comment sp lx
    else if ch =? chr "'" then lex_string sp lx
    else if is_ascii_digit ch then lex_number sp lx
    else if is_ascii_alphabetic ch || (ch =? chr "_") then lex_identifier sp lx
    else if ch =? chr "$" then lex_parameter sp lx
    else lex_operator_or_delimiter sp lx.
Definition next_token lx : outcome (Lexer * SpannedToken) :=
  lx ← skip_whitespace lx;
  lex_token lx.
Fixpoint tokenize_loop (fuel : nat) lx (tokens : list SpannedToken) : outcome (list SpannedToken) :=
  match fuel with
  | O => OutOfFuel
  | S fuel =>
      '(lx, st) ← next_token lx;
      if decide (token st = TEof) then Done (tokens ++ [st]) else tokenize_loop fuel lx (tokens ++ [st])
  end.
Definition tokenize lx : outcome (list SpannedToken) := tokenize_loop (fuel_of lx) lx [].
End lexer.
Example lex_query :
  match tokenize (Lexer_new (chars_of "MATCH (n:Person) WHERE n.age >= 30 RETURN 'it''s' -- c")) with
  | Done ts => token <$> ts
  | _ => []
  end = [TMatch; TLParen; TIdent (chars_of "n"); TColon; TIdent (chars_of "Person"); TRParen; TWhere; TIdent (chars_of "n");
         TDot; TIdent (chars_of "age"); TGe; TIntegerLit 30; TReturn; TStringLit (chars_of "it's"); TComment (chars_of " c"); TEof].
Proof. vm_compute. reflexivity. Qed.

(** ** What is left of the input *)
Definition remaining (lx : Lexer) : text := drop (pos lx) (input lx).
(** The state after consuming [cs]. *)
Definition consume (lx : Lexer) (cs : text) : Lexer := foldl step_over lx cs.
Section views.
Implicit Types (lx : Lexer) (sp : Span) (p : Z → bool) (cs r : text) (c : Z).
Lemma remaining_cons lx c r : remaining lx = c :: r →
  is_eof lx = false ∧ peek lx = c ∧ advance lx = (step_over lx c, c) ∧ remaining (step_over lx c) = r ∧
  peek_at lx 1 = head r.
Proof.
  intros Hr. unfold remaining in Hr.
  assert (input lx !! pos lx = Some c) as Hl by (rewrite <- (Nat.add_0_r (pos lx)), <- lookup_drop, Hr; done).
  assert (drop (S (pos lx)) (input lx) = r) as Hd.
  { rewrite <- Nat.add_1_r, <- drop_drop, Hr. done. }
  split_and!.
  - unfold is_eof. apply Nat.leb_gt. by apply lookup_lt_Some in Hl.
  - unfold peek. by rewrite Hl.
  - unfold advance. by rewrite Hl.
  - unfold remaining, step_over. by destruct (c =? 10).
  - unfold peek_at. rewrite Nat.add_1_r, <- (Nat.add_0_r (S (pos lx))), <- lookup_drop, Hd. by destruct r.
Qed.
Lemma remaining_nil lx : remaining lx = [] → is_eof lx = true.
Proof.
  intros Hr. unfold is_eof. apply Nat.leb_le. unfold remaining in Hr. apply (f_equal length) in Hr.
  rewrite length_drop in Hr. cbn in Hr. lia.
Qed.
Lemma is_eof_remaining lx : is_eof lx = true → remaining lx = [].
Proof. unfold is_eof, remaining. intros Hl%Nat.leb_le. by apply drop_ge. Qed.
Lemma peek_at_1 lx c r : remaining lx = c :: r → peek_at lx 1 = head r.
Proof. intros Hr. by apply remaining_cons in Hr as (_ & _ & _ & _ & ?). Qed.
Lemma consume_app lx cs1 cs2 : consume lx (cs1 ++ cs2) = consume (consume lx cs1) cs2.
Proof. apply foldl_app. Qed.
Lemma step_over_consume lx c : step_over lx c = consume lx [c].
Proof. done. Qed.
Lemma remaining_consume lx cs r : remaining lx = cs ++ r → remaining (consume lx cs) = r.
Proof.
  revert lx. induction cs as [|c cs IH]; intros lx Hr; [done|]. cbn.
  apply remaining_cons in Hr as (_ & _ & _ & Hr & _). by apply IH.
Qed.
Lemma input_consume lx cs : input (consume lx cs) = input lx.
Proof.
  revert lx. induction cs as [|c cs IH]; intros lx; [done|]. cbn. rewrite IH. unfold step_over. by destruct (c =? 10).
Qed.
Lemma pos_consume lx cs : pos (consume lx cs) = (pos lx + length cs)%nat.
Proof.
  revert lx. induction cs as [|c cs IH]; intros lx; cbn; [lia|]. rewrite IH. unfold step_over. destruct (c =? 10); cbn; lia.
Qed.
Lemma slice_consume lx cs r : remaining lx = cs ++ r → slice (consume lx cs) (pos lx) = cs.
Proof.
  intros Hr. unfold slice. rewrite pos_consume, input_consume. unfold remaining in Hr. rewrite Hr.
  replace (pos lx + length cs - pos lx)%nat with (length cs) by lia. apply take_app_length.
Qed.
Lemma remaining_length lx : (length (remaining lx) ≤ length (input lx))%nat.
Proof. unfold remaining. rewrite length_drop. lia. Qed.
Lemma fuel_enough lx : (length (remaining lx) < fuel_of lx)%nat.
Proof. unfold fuel_of. pose proof (remaining_length lx). lia. Qed.

(** A loop over the characters [cs] that satisfy the test, up to one that does not. *)
Definition stops p r : Prop := match r with [] => True | c :: _ => p c = false end.
Lemma advance_while_spec fuel p lx cs r : remaining lx = cs ++ r → (length cs < fuel)%nat →
  Forall (λ c, p c = true) cs → stops p r → advance_while fuel p lx = Done (consume lx cs).
Proof.
  revert lx cs. induction fuel as [|fuel IH]; intros lx cs Hr Hf Hcs Hs; [lia|]. cbn [advance_while]. destruct cs as [|c cs].
  - cbn in Hr. destruct r as [|c r].
    + by rewrite (remaining_nil lx Hr).
    + apply remaining_cons in Hr as (-> & -> & _). cbn in Hs. by rewrite Hs.
  - apply Forall_cons in Hcs as [Hc Hcs]. cbn in Hr. apply remaining_cons in Hr as (-> & -> & -> & Hr & _).
    rewrite Hc. cbn [negb andb fst]. cbn in Hf. rewrite (IH _ cs Hr); [done|lia|done..].
Qed.
Lemma push_while_spec fuel p lx cs r acc : remaining lx = cs ++ r → (length cs < fuel)%nat →
  Forall (λ c, p c = true) cs → stops p r → push_while fuel p lx acc = Done (consume lx cs, acc ++ cs).
Proof.
  revert lx cs acc. induction fuel as [|fuel IH]; intros lx cs acc Hr Hf Hcs Hs; [lia|]. cbn [push_while]. destruct cs as [|c cs].
  - rewrite app_nil_r. cbn in Hr. destruct r as [|c r].
    + by rewrite (remaining_nil lx Hr).
    + apply remaining_cons in Hr as (-> & -> & _). cbn in Hs. by rewrite Hs.
  - apply Forall_cons in Hcs as [Hc Hcs]. cbn in Hr. apply remaining_cons in Hr as (-> & -> & -> & Hr & _).
    rewrite Hc. cbn [negb andb]. cbn in Hf. rewrite (IH _ cs _ Hr) by (lia || done). by rewrite <- app_assoc.
Qed.
(** Every text splits this way. *)
Lemma span_split p r : ∃ cs r', r = cs ++ r' ∧ Forall (λ c, p c = true) cs ∧ stops p r'.
Proof.
  induction r as [|c r (cs & r' & -> & Hcs & Hs)]; [by exists [], []|]. destruct (p c) eqn:Hc.
  - exists (c :: cs), r'. auto.
  - exists [], (c :: cs ++ r'). auto.
Qed.
Lemma advance_while_total p lx : ∃ cs r, remaining lx = cs ++ r ∧ Forall (λ c, p c = true) cs ∧ stops p r ∧
  advance_while (fuel_of lx) p lx = Done (consume lx cs).
Proof.
  destruct (span_split p (remaining lx)) as (cs & r & Hr & Hcs & Hs). exists cs, r. split_and!; [done..|].
  eapply advance_while_spec; [done| |done..]. pose proof (fuel_enough lx) as Hf. rewrite Hr, length_app in Hf. lia.
Qed.
End views.

(** ** Termination and positions *)
(** Line and column of an offset, counted from the input. *)
Definition line_at (s : text) (off : nat) : nat := S (length (filter (λ c, c = 10) (take off s))).
Definition column_at (s : text) (off : nat) : nat := S (length (take_while (λ c, negb (c =? 10)) (reverse (take off s)))).
Definition lexer_wf (lx : Lexer) : Prop :=
  (pos lx ≤ length (input lx))%nat ∧ line lx = line_at (input lx) (pos lx) ∧ column lx = column_at (input lx) (pos lx).
(** [lx'] is reached from [lx] by consuming characters of the input. *)
Definition reaches (lx lx' : Lexer) : Prop := ∃ cs, remaining lx = cs ++ remaining lx' ∧ lx' = consume lx cs.
Section total.
Implicit Types (lx : Lexer) (sp : Span) (p : Z → bool) (cs r : text) (c : Z).
Lemma reaches_refl lx : reaches lx lx.
Proof. by exists []. Qed.
Lemma reaches_trans lx1 lx2 lx3 : reaches lx1 lx2 → reaches lx2 lx3 → reaches lx1 lx3.
Proof.
  intros (cs1 & H1 & ->) (cs2 & H2 & ->). exists (cs1 ++ cs2). rewrite consume_app. split; [|done].
  by rewrite H1, H2, app_assoc.
Qed.
Lemma reaches_consume lx cs r : remaining lx = cs ++ r → reaches lx (consume lx cs).
Proof. intros Hr. exists cs. by rewrite (remaining_consume lx cs r Hr). Qed.
Lemma reaches_advance lx : reaches lx (advance lx).1.
Proof.
  destruct (remaining lx) as [|c r] eqn:Hr.
  - unfold advance. unfold remaining in Hr. destruct (input lx !! pos lx) as [c|] eqn:Hl; [|apply reaches_refl].
    apply lookup_lt_Some in Hl. apply (f_equal length) in Hr. rewrite length_drop in Hr. cbn in Hr. lia.
  - pose proof (remaining_cons _ _ _ Hr) as (_ & _ & -> & _). by apply (reaches_consume lx [c] r).
Qed.
Lemma reaches_length lx lx' : reaches lx lx' → (length (remaining lx') ≤ length (remaining lx))%nat ∧ input lx' = input lx.
Proof. intros (cs & -> & ->). rewrite length_app, input_consume. split; [lia|done]. Qed.
Lemma reaches_pos lx lx' : reaches lx lx' → (pos lx ≤ pos lx')%nat.
Proof. intros (cs & _ & ->). rewrite pos_consume. lia. Qed.
Lemma step_over_wf lx c r : lexer_wf lx → remaining lx = c :: r → lexer_wf (step_over lx c).
Proof.
  intros (Hp & Hl & Hc) Hr. unfold remaining in Hr.
  assert (input lx !! pos lx = Some c) as Hlk by (rewrite <- (Nat.add_0_r (pos lx)), <- lookup_drop, Hr; done).
  pose proof (lookup_lt_Some _ _ _ Hlk) as Hlt.
  assert (take (S (pos lx)) (input lx) = take (pos lx) (input lx) ++ [c]) as Ht by by apply take_S_r.
  unfold lexer_wf, line_at, column_at in *. unfold step_over. destruct (c =? 10) eqn:E; cbn [pos line column input];
    rewrite Ht, reverse_snoc, filter_app, length_app, Hl; cbn [take_while]; rewrite E; cbn [negb].
  - apply Z.eqb_eq in E as ->. rewrite filter_cons_True by done. cbn. split_and!; lia.
  - apply Z.eqb_neq in E. rewrite filter_cons_False by done. cbn. split_and!; lia.
Qed.
Lemma reaches_wf lx lx' : lexer_wf lx → reaches lx lx' → lexer_wf lx'.
Proof.
  intros Hw (cs & Hr & ->). revert Hr. generalize (remaining (consume lx cs)) as r. intros r Hr. revert lx Hw Hr. induction cs as [|c cs IH]; intros lx Hw Hr; [done|]. cbn. cbn in Hr.
  apply IH; [by eapply step_over_wf|]. by apply remaining_cons in Hr as (_ & _ & _ & ? & _).
Qed.

(** Outcomes of a lexing routine: never out of fuel, and a success reaches a later state. *)
Definition runs {A} lx (o : outcome A) (state : A → Lexer) : Prop :=
  match o with Done a => reaches lx (state a) | Fail _ => True | OutOfFuel => False end.
Lemma runs_bind {A B} lx (o : outcome A) (sa : A → Lexer) (f : A → outcome B) (sb : B → Lexer) :
  runs lx o sa → (∀ a, reaches lx (sa a) → runs (sa a) (f a) sb) → runs lx (o ≫= f) sb.
Proof.
  intros Ho Hf. destruct o as [a|e|]; cbn in *; [|done..]. specialize (Hf a Ho). destruct (f a); cbn in *; [|done..].
  by eapply reaches_trans.
Qed.
Lemma runs_advance_while p lx : runs lx (advance_while (fuel_of lx) p lx) (λ lx, lx).
Proof. destruct (advance_while_total p lx) as (cs & r & Hr & _ & _ & ->). cbn. by eapply reaches_consume. Qed.
Lemma runs_from {A} lx lx1 (o : outcome A) (s : A → Lexer) : reaches lx lx1 → runs lx1 o s → runs lx o s.
Proof. intros Hr. destruct o; cbn; [|done..]. by apply reaches_trans. Qed.
Lemma runs_push_while p lx acc : runs lx (push_while (fuel_of lx) p lx acc) fst.
Proof.
  destruct (span_split p (remaining lx)) as (cs & r & Hr & Hcs & Hs).
  rewrite (push_while_spec _ p lx cs r acc); [by eapply reaches_consume|done| |done..].
  pose proof (fuel_enough lx) as Hf. rewrite Hr, length_app in Hf. lia.
Qed.
Lemma runs_comment_loop fuel sp lx acc : (length (remaining lx) < fuel)%nat → runs lx (comment_loop fuel sp lx acc) fst.
Proof.
  revert lx acc. induction fuel as [|fuel IH]; intros lx acc Hf; [lia|]. cbn [comment_loop].
  destruct (is_eof lx) eqn:E; [done|]. case_match.
  - cbn. eapply reaches_trans; apply reaches_advance.
  - destruct (remaining lx) as [|c r] eqn:Hr; [by rewrite remaining_nil in E|].
    pose proof (remaining_cons _ _ _ Hr) as (_ & _ & -> & Hr' & _).
    apply (runs_from _ (step_over lx c)); [by apply (reaches_consume lx [c] r)|]. apply IH. rewrite Hr'. cbn in Hf. lia.
Qed.
Lemma runs_string_loop fuel sp lx acc : (length (remaining lx) < fuel)%nat → runs lx (string_loop fuel sp lx acc) fst.
Proof.
  revert lx acc. induction fuel as [|fuel IH]; intros lx acc Hf; [lia|]. cbn [string_loop].
  destruct (is_eof lx) eqn:E; [done|]. destruct (remaining lx) as [|c r] eqn:Hr; [by rewrite remaining_nil in E|].
  pose proof (remaining_cons _ _ _ Hr) as (_ & _ & -> & Hr' & _). cbn in Hf.
  apply (runs_from _ (step_over lx c)); [by apply (reaches_consume lx [c] r)|].
  destruct (c =? chr "'").
  - case_match; [|apply reaches_refl]. eapply runs_from; [apply reaches_advance|]. apply IH.
    pose proof (reaches_length _ _ (reaches_advance (step_over lx c))) as [Hl _]. rewrite Hr' in Hl. lia.
  - apply IH. rewrite Hr'. lia.
Qed.
Lemma runs_token {A} lx (o : outcome (Lexer * A)) (f : Lexer → A → outcome (Lexer * SpannedToken)) sp :
  runs lx o fst → (∀ lx' a, reaches lx lx' → runs lx' (f lx' a) fst) → runs lx ('(lx, a) ← o; f lx a) fst.
Proof. intros Ho Hf. eapply runs_bind; [exact Ho|]. intros [lx' a]. apply Hf. Qed.
End total.

Section tokens.
Implicit Types (lx : Lexer) (sp : Span) (p : Z → bool) (cs r : text) (c : Z).
(** A routine that yields a token with the given span, in a state reached from [lx]. *)
Definition yields lx sp (o : outcome (Lexer * SpannedToken)) : Prop :=
  match o with
  | Done (lx', st) => reaches lx lx' ∧ span st = sp ∧ token st ≠ TEof
  | Fail _ => True
  | OutOfFuel => False
  end.
Lemma yields_bind {A} lx sp (o : outcome A) (s : A → Lexer) (f : A → outcome (Lexer * SpannedToken)) :
  runs lx o s → (∀ a, reaches lx (s a) → yields (s a) sp (f a)) → yields lx sp (o ≫= f).
Proof.
  intros Ho Hf. destruct o as [a|e|]; cbn in *; [|done..]. specialize (Hf a Ho).
  destruct (f a) as [[lx' st]|e|]; cbn in *; [|done..]. destruct Hf as (? & ? & ?). split_and!; [by eapply reaches_trans|done..].
Qed.
Lemma yields_from lx lx1 sp o : reaches lx lx1 → yields lx1 sp o → yields lx sp o.
Proof.
  intros Hr. destruct o as [[lx' st]|e|]; cbn; [|done..]. intros (? & ? & ?). split_and!; [by eapply reaches_trans|done..].
Qed.
Lemma yields_done lx sp t : t ≠ TEof → yields lx sp (Done (lx, mkSpanned t sp)).
Proof. intros Ht. cbn. split_and!; [apply reaches_refl|done..]. Qed.
Lemma runs_fraction lx : runs lx (lex_fraction lx) fst.
Proof.
  unfold lex_fraction. case_match; [|apply reaches_refl]. eapply runs_from; [apply reaches_advance|].
  eapply runs_bind; [apply runs_advance_while|]. intros lx' _. apply reaches_refl.
Qed.
Lemma runs_exponent lx : runs lx (lex_exponent lx) fst.
Proof.
  unfold lex_exponent. case_match; [|apply reaches_refl]. eapply runs_from; [apply reaches_advance|].
  cbv zeta. generalize (advance lx).1 as lx1. intros lx1.
  match goal with |- context [if ?b then (advance lx1).1 else lx1] =>
    assert (reaches lx1 (if b then (advance lx1).1 else lx1)) as H2 by (destruct b; [apply reaches_advance|apply reaches_refl]);
    revert H2; generalize (if b then (advance lx1).1 else lx1) as lx2; intros lx2 H2
  end.
  case_match; [done|]. eapply runs_from; [exact H2|]. eapply runs_bind; [apply runs_advance_while|].
  intros lx' _. apply reaches_refl.
Qed.
Lemma yields_number_tail lx sp start : yields lx sp (
    '(lx, frac) ← lex_fraction lx; '(lx, expo) ← lex_exponent lx;
    let t := slice lx start in
    if frac || expo then
      match parse_f64 t with
      | Some v => Done (lx, mkSpanned (TFloatLit v) sp)
      | None => error lx (chars_of "invalid float literal: " ++ t)
      end
    else
      match parse_i64 t with
      | Some v => Done (lx, mkSpanned (TIntegerLit v) sp)
      | None => error lx (chars_of "invalid integer literal: " ++ t)
      end).
Proof.
  eapply yields_bind; [apply runs_fraction|]. intros [lx1 frac] _. cbn [fst].
  eapply yields_bind; [apply runs_exponent|]. intros [lx2 expo] _. cbn [fst]. cbv zeta.
  destruct (frac || expo); case_match; try (by apply yields_done); done.
Qed.
Lemma find_keyword_in word table t : find_keyword word table = Some t → t ∈ table.*2.
Proof.
  induction table as [|[k t'] table IH]; cbn; [done|]. case_decide; [intros [= ->]; left|]. intros Hf. right. auto.
Qed.
Lemma keyword_not_eof word : default (TIdent word) (keyword_token word) ≠ TEof.
Proof.
  destruct (keyword_token word) as [t|] eqn:E; [|done]. apply find_keyword_in in E. unfold default, id.
  intros ->. apply (bool_decide_pack _) in E. by vm_compute in E.
Qed.

(** One step forward, then the rest of the routine. *)
Lemma step_pos lx c : pos (step_over lx c) = S (pos lx).
Proof. unfold step_over. by destruct (c =? 10). Qed.
(** On an input that is not exhausted, a routine yields a token past the current character. *)
Definition moves lx sp (o : outcome (Lexer * SpannedToken)) : Prop :=
  ∃ lx1, reaches lx lx1 ∧ (pos lx < pos lx1)%nat ∧ yields lx1 sp o.
Lemma advance_moves lx c r sp o : remaining lx = c :: r → yields (step_over lx c) sp o → moves lx sp o.
Proof.
  intros Hr Ho. exists (step_over lx c). split_and!; [by apply (reaches_consume lx [c] r)|rewrite step_pos; lia|done].
Qed.
Lemma while_moves lx c r p sp f : remaining lx = c :: r → p c = true →
  (∀ lx', yields lx' sp (f lx')) → moves lx sp (advance_while (fuel_of lx) p lx ≫= f).
Proof.
  intros Hr Hp Hf. destruct (advance_while_total p lx) as (cs & r' & Hr' & _ & Hs & ->).
  destruct cs as [|c' cs]; [cbn in Hr'; rewrite <- Hr', Hr in Hs; cbn in Hs; congruence|].
  exists (consume lx (c' :: cs)). split_and!; [by eapply reaches_consume|rewrite pos_consume; cbn; lia|]. apply Hf.
Qed.
Lemma comment_moves lx c r sp : remaining lx = c :: r → moves lx sp (lex_single_line_comment sp lx).
Proof.
  intros Hr. unfold lex_single_line_comment. pose proof (remaining_cons _ _ _ Hr) as (_ & _ & -> & _). cbn [fst].
  eapply advance_moves; [done|]. eapply yields_from; [apply reaches_advance|].
  eapply yields_bind; [apply runs_push_while|]. intros [lx' t] _. by apply yields_done.
Qed.
Lemma multi_comment_moves lx c r sp : remaining lx = c :: r → moves lx sp (lex_multi_line_comment sp lx).
Proof.
  intros Hr. unfold lex_multi_line_comment. pose proof (remaining_cons _ _ _ Hr) as (_ & _ & -> & _). cbn [fst].
  eapply advance_moves; [done|]. eapply yields_from; [apply reaches_advance|].
  eapply yields_bind; [apply runs_comment_loop, fuel_enough|]. intros [lx' t] _. by apply yields_done.
Qed.
Lemma string_moves lx c r sp : remaining lx = c :: r → moves lx sp (lex_string sp lx).
Proof.
  intros Hr. unfold lex_string. pose proof (remaining_cons _ _ _ Hr) as (_ & _ & -> & _). cbn [fst].
  eapply advance_moves; [done|]. eapply yields_bind; [apply runs_string_loop, fuel_enough|].
  intros [lx' t] _. by apply yields_done.
Qed.
Lemma parameter_moves lx c r sp : remaining lx = c :: r → moves lx sp (lex_parameter sp lx).
Proof.
  intros Hr. unfold lex_parameter. pose proof (remaining_cons _ _ _ Hr) as (_ & _ & -> & _). cbn [fst].
  eapply advance_moves; [done|]. case_match; [done|]. cbv zeta. eapply yields_bind; [apply runs_advance_while|].
  intros lx' _. by apply yields_done.
Qed.
Lemma operator_moves lx c r sp : remaining lx = c :: r → moves lx sp (lex_operator_or_delimiter sp lx).
Proof.
  intros Hr. eapply advance_moves; [done|]. unfold lex_operator_or_delimiter.
  pose proof (remaining_cons _ _ _ Hr) as (_ & _ & -> & _). cbv zeta.
  assert (∀ t, t ≠ TEof → yields (step_over lx c) sp (Done ((advance (step_over lx c)).1, mkSpanned t sp))) as Htwo.
  { intros t Ht. cbn. split_and!; [apply reaches_advance|done..]. }
  destruct (find_single c single_tokens) as [t|] eqn:E.
  - apply yields_done. intros ->. clear -E. revert E. unfold single_tokens, find_single. repeat case_match; done.
  - repeat first [progress (by apply yields_done) | progress (by apply Htwo) | done | case_match].
Qed.
Lemma next_token_spec lx :
  match next_token lx with
  | Done (lx', st) => ∃ lx0, reaches lx lx0 ∧ reaches lx0 lx' ∧ span st = current_span lx0 ∧
      ((token st = TEof ∧ remaining lx0 = [] ∧ lx' = lx0) ∨ (token st ≠ TEof ∧ (pos lx0 < pos lx')%nat))
  | Fail _ => True
  | OutOfFuel => False
  end.
Proof.
  unfold next_token, skip_whitespace, lex_token.
  destruct (advance_while_total is_ascii_whitespace lx) as (ws & r & Hr & _ & _ & ->). cbn [mbind outcome_bind].
  set (lx0 := consume lx ws). assert (reaches lx lx0) as H0' by by eapply reaches_consume. cbv zeta.
  destruct (is_eof lx0) eqn:He.
  { exists lx0. split_and!; [done|apply reaches_refl|done|]. left. split_and!; [done|by apply is_eof_remaining|done]. }
  destruct (remaining lx0) as [|c r0] eqn:Hr0; [by rewrite remaining_nil in He|].
  pose proof (remaining_cons _ _ _ Hr0) as (_ & -> & _).
  assert (∀ o, moves lx0 (current_span lx0) o → match o with
    | Done (lx', st) => ∃ lx0, reaches lx lx0 ∧ reaches lx0 lx' ∧ span st = current_span lx0 ∧
        ((token st = TEof ∧ remaining lx0 = [] ∧ lx' = lx0) ∨ (token st ≠ TEof ∧ (pos lx0 < pos lx')%nat))
    | Fail _ => True | OutOfFuel => False end) as Hm.
  { intros o (lx1 & H1 & Hp & Ho). destruct o as [[lx' st]|e|]; cbn in Ho; [|done..]. destruct Ho as (H2 & Hsp & Ht).
    exists lx0. split_and!; [done|by eapply reaches_trans|done|]. right. split; [done|].
    pose proof (reaches_pos _ _ H2). lia. }
  apply Hm. case_match; [eapply comment_moves, Hr0|]. case_match; [eapply multi_comment_moves, Hr0|].
  case_match; [eapply string_moves, Hr0|].
  destruct (is_ascii_digit c) eqn:Hd.
  { unfold lex_number. eapply while_moves; [done..|]. intros lx'. apply yields_number_tail. }
  destruct (is_ascii_alphabetic c || (c =? chr "_")) eqn:Ha.
  { unfold lex_identifier. eapply while_moves; [done| |intros lx'; apply yields_done, keyword_not_eof].
    unfold ident_char, is_ascii_alphanumeric. by destruct (is_ascii_alphabetic c), (is_ascii_digit c). }
  case_match; [eapply parameter_moves, Hr0|eapply operator_moves, Hr0].
Qed.
End tokens.

(** ** Printing tokens *)
Inductive lexeme : Type :=
| LxKeyword (k : string) (t : Token)
| LxIdent (cs : text)
| LxInt (ds : text)
| LxFloat (ds frac expo : text)
| LxString (cs : text)
| LxParameter (cs : text)
| LxOperator (s : string) (t : Token)
| LxLineComment (cs : text)
| LxBlockComment (cs : text).
Definition operator_table : list (string * Token) := [
  ("+"%string, TPlus); ("-"%string, TMinus); ("*"%string, TStar); ("/"%string, TSlash); ("%"%string, TPercent);
  ("="%string, TEq); ("!="%string, TNeq); ("<>"%string, TNeq); ("<"%string, TLt); (">"%string, TGt);
  ("<="%string, TLe); (">="%string, TGe); ("||"%string, TDoublePipe); ("."%string, TDot); (".."%string, TDoubleDot);
  ("->"%string, TArrow); ("<-"%string, TLeftArrow); ("~"%string, TTilde); ("("%string, TLParen); (")"%string, TRParen);
  ("["%string, TLBracket); ("]"%string, TRBracket); ("{"%string, TLBrace); ("}"%string, TRBrace); (","%string, TComma);
  (":"%string, TColon); (";"%string, TSemicolon); ("@"%string, TAt)].
(** Quotes inside a string are doubled. *)
Definition escape_quotes (cs : text) : text := cs ≫= λ c, if c =? chr "'" then [c; c] else [c].
Definition lexeme_text (l : lexeme) : text :=
  match l with
  | LxKeyword k _ => chars_of k
  | LxIdent cs | LxInt cs => cs
  | LxFloat ds frac expo => ds ++ frac ++ expo
  | LxString cs => chr "'" :: escape_quotes cs ++ [chr "'"]
  | LxParameter cs => chr "$" :: cs
  | LxOperator s _ => chars_of s
  | LxLineComment cs => chars_of "--" ++ cs
  | LxBlockComment cs => chars_of "/*" ++ cs ++ chars_of "*/"
  end.
Definition lexeme_token (l : lexeme) : Token :=
  match l with
  | LxKeyword _ t | LxOperator _ t => t
  | LxIdent cs => TIdent cs
  | LxInt ds => TIntegerLit (digits_value ds)
  | LxFloat ds frac expo => TFloatLit (default 0 (parse_f64 (ds ++ frac ++ expo)))
  | LxString cs => TStringLit cs
  | LxParameter cs => TParameter cs
  | LxLineComment cs | LxBlockComment cs => TComment cs
  end.
Definition ident_ok (cs : text) : Prop :=
  Forall (λ c, ident_char c = true) cs ∧ match cs with c :: _ => is_ascii_digit c = false | [] => False end.
(** The parts of a float: digits; a point and digits; an exponent with a sign or none and digits *)
Definition digits (ds : text) : Prop := ds ≠ [] ∧ Forall (λ c, is_ascii_digit c = true) ds.
Definition is_exponent (c : Z) : bool := (c =? chr "e") || (c =? chr "E").
Definition is_sign (c : Z) : bool := (c =? chr "+") || (c =? chr "-").
Definition unsigned (s : text) : text := match s with c :: s' => if is_sign c then s' else s | [] => [] end.
Definition fraction_ok (frac : text) : Prop := match frac with [] => True | c :: ds => c = chr "." ∧ digits ds end.
Definition exponent_ok (expo : text) : Prop := match expo with [] => True | c :: s => is_exponent c = true ∧ digits (unsigned s) end.
Definition lexeme_ok (l : lexeme) : Prop :=
  match l with
  | LxKeyword k t => keyword_token (chars_of k) = Some t
  | LxIdent cs => ident_ok cs ∧ keyword_token cs = None
  | LxInt ds => ds ≠ [] ∧ Forall (λ c, is_ascii_digit c = true) ds ∧ digits_value ds < 2 ^ 63
  | LxFloat ds frac expo => digits ds ∧ fraction_ok frac ∧ exponent_ok expo ∧ frac ++ expo ≠ []
  | LxString _ => True
  | LxParameter cs => ident_ok cs
  | LxOperator s t => (s, t) ∈ operator_table
  | LxLineComment cs => Forall (λ c, negb (c =? 10) = true) cs
  | LxBlockComment cs => ∀ a b, cs ≠ a ++ chars_of "*/" ++ b
  end.
(** Characters that would belong to the token if they followed it *)
Definition operator_continuations : list (string * ascii) := [
  ("-"%string, "-"%char); ("-"%string, ">"%char); ("/"%string, "*"%char); ("."%string, "."%char); ("<"%string, "="%char);
  ("<"%string, ">"%char); ("<"%string, "-"%char); (">"%string, "="%char)].
Definition continues (l : lexeme) (c : Z) : bool :=
  match l with
  | LxKeyword _ _ | LxIdent _ | LxParameter _ => ident_char c
  | LxInt _ => is_ascii_digit c || (c =? chr ".") || (c =? chr "e") || (c =? chr "E")
  | LxFloat _ _ expo => is_ascii_digit c || bool_decide (expo = []) && is_exponent c
  | LxString _ => c =? chr "'"
  | LxOperator s _ => existsb (λ x, bool_decide (x.1 = s) && (c =? chr x.2)) operator_continuations
  | LxLineComment _ => negb (c =? 10)
  | LxBlockComment _ => false
  end.
Definition blank (ws : text) : Prop := Forall (λ c, is_ascii_whitespace c = true) ws.

(** Decide comparisons of a character with constants. *)
Ltac char_cases :=
  unfold ident_char, is_ascii_alphanumeric, is_ascii_alphabetic, is_ascii_digit, in_char_range, is_ascii_whitespace in *;
  change (chr "0") with 48 in *; change (chr "9") with 57 in *; change (chr "A") with 65 in *; change (chr "Z") with 90 in *;
  change (chr "a") with 97 in *; change (chr "z") with 122 in *; change (chr "_") with 95 in *; change (chr "-") with 45 in *;
  change (chr "/") with 47 in *; change (chr "'") with 39 in *;
  repeat match goal with
  | H : context [?a <=? ?b] |- _ => destruct (Z.leb_spec a b)
  | H : context [?a =? ?b] |- _ => destruct (Z.eqb_spec a b)
  | |- context [?a <=? ?b] => destruct (Z.leb_spec a b)
  | |- context [?a =? ?b] => destruct (Z.eqb_spec a b)
  end; cbn [andb orb negb] in *; try done; lia.
Section lexemes.
Implicit Types (lx : Lexer) (sp : Span) (cs r ws : text) (c w : Z).
Lemma whitespace_cases w : is_ascii_whitespace w = true → w = 32 ∨ w = 9 ∨ w = 10 ∨ w = 12 ∨ w = 13.
Proof. unfold is_ascii_whitespace. rewrite !orb_true_iff, !Z.eqb_eq. tauto. Qed.
Lemma ident_char_cases c : ident_char c = true → is_ascii_digit c = false →
  is_ascii_alphabetic c || (c =? chr "_") = true ∧ is_ascii_whitespace c = false ∧ (c =? chr "-") = false ∧
  (c =? chr "/") = false ∧ (c =? chr "'") = false.
Proof.
  unfold ident_char, is_ascii_alphanumeric. intros H1 H2. rewrite H2, orb_false_r in H1. split; [done|]. clear H2.
  split_and!; char_cases.
Qed.
Lemma digit_cases c : is_ascii_digit c = true → is_ascii_whitespace c = false ∧ (c =? chr "-") = false ∧
  (c =? chr "/") = false ∧ (c =? chr "'") = false.
Proof. intros H1. split_and!; char_cases. Qed.
Lemma advance_while_fuel p lx cs r : remaining lx = cs ++ r → Forall (λ c, p c = true) cs → stops p r →
  advance_while (fuel_of lx) p lx = Done (consume lx cs).
Proof.
  intros Hr Hcs Hs. eapply advance_while_spec; [done| |done..]. pose proof (fuel_enough lx) as Hf.
  rewrite Hr, length_app in Hf. lia.
Qed.
Lemma word_spec lx cs r : ident_ok cs → remaining lx = cs ++ r → stops ident_char r →
  lex_token lx = Done (consume lx cs, mkSpanned (default (TIdent cs) (keyword_token cs)) (current_span lx)).
Proof.
  intros [Hcs Hhd] Hr Hs. destruct cs as [|c cs]; [done|]. unfold lex_token.
  pose proof (remaining_cons _ _ _ Hr) as (-> & -> & _).
  assert (ident_char c = true) as Hc by by apply Forall_cons in Hcs as [? _].
  destruct (ident_char_cases c Hc Hhd) as (Ha & _ & -> & -> & ->). cbn [andb]. rewrite Hhd, Ha.
  unfold lex_identifier. rewrite (advance_while_fuel _ _ (c :: cs) r) by done.
  cbn [mbind outcome_bind]. by rewrite (slice_consume lx (c :: cs) r).
Qed.
Lemma int_spec lx ds r : lexeme_ok (LxInt ds) → remaining lx = ds ++ r → stops (continues (LxInt ds)) r →
  lex_token lx = Done (consume lx ds, mkSpanned (TIntegerLit (digits_value ds)) (current_span lx)).
Proof.
  intros (Hne & Hds & Hmax) Hr Hs. destruct ds as [|c ds]; [done|]. unfold lex_token.
  pose proof (remaining_cons _ _ _ Hr) as (-> & -> & _).
  assert (is_ascii_digit c = true) as Hc by by apply Forall_cons in Hds as [? _].
  destruct (digit_cases c Hc) as (_ & -> & -> & ->). cbn [andb]. rewrite Hc.
  assert (stops is_ascii_digit r ∧ (negb (is_eof (consume lx (c :: ds))) && (peek (consume lx (c :: ds)) =? chr ".")) = false ∧
    negb (is_eof (consume lx (c :: ds))) && ((peek (consume lx (c :: ds)) =? chr "e") || (peek (consume lx (c :: ds)) =? chr "E")) = false)
    as (Hd & Hdot & Hexp).
  { pose proof (remaining_consume _ _ _ Hr) as Hr'. destruct r as [|w r].
    - rewrite (remaining_nil _ Hr'). done.
    - pose proof (remaining_cons _ _ _ Hr') as (-> & -> & _). cbn in Hs |- *. apply orb_false_iff in Hs as [[[-> ->]%orb_false_iff ->]%orb_false_iff ->].
      done. }
  unfold lex_number. rewrite (advance_while_fuel _ _ (c :: ds) r) by done.
  cbn [mbind outcome_bind]. unfold lex_fraction. rewrite Hdot. cbn [andb mbind outcome_bind].
  unfold lex_exponent. rewrite Hexp. cbn [mbind outcome_bind].
  rewrite (slice_consume lx (c :: ds) r) by done. unfold parse_i64.
  assert (forallb is_ascii_digit (c :: ds) = true) as ->.
  { apply forallb_forall. intros x Hx. rewrite Forall_forall in Hds. apply Hds. by apply list_elem_of_In. }
  rewrite bool_decide_false by done. cbn [negb andb orb].
  apply Z.ltb_lt in Hmax. by rewrite Hmax.
Qed.
(** *** Floats *)
Lemma stops_peek p lx r : remaining lx = r → stops p r → negb (is_eof lx) && p (peek lx) = false.
Proof.
  intros Hr Hs. destruct r as [|c r]; [by rewrite (remaining_nil _ Hr)|].
  pose proof (remaining_cons _ _ _ Hr) as (-> & -> & _). exact Hs.
Qed.
Lemma span_digits_app ds r : Forall (λ c, is_ascii_digit c = true) ds → stops is_ascii_digit r → span_digits (ds ++ r) = (ds, r).
Proof.
  intros Hds Hr. induction Hds as [|c ds Hc _ IH]; cbn.
  - destruct r as [|c r]; [done|]. cbn in Hr |- *. by rewrite Hr.
  - by rewrite Hc, IH.
Qed.
Lemma exponent_stops expo r : exponent_ok expo → expo ≠ [] → stops is_ascii_digit (expo ++ r) ∧ stops (λ c, c =? chr ".") (expo ++ r).
Proof.
  destruct expo as [|c s]; [done|]. intros [Hc _] _. apply orb_true_iff in Hc as [->%Z.eqb_eq| ->%Z.eqb_eq]; by split.
Qed.
Lemma digits_forallb ds : digits ds → forallb is_ascii_digit ds && negb (bool_decide (ds = [])) = true.
Proof.
  intros [Hne Hds]. rewrite bool_decide_false by done. rewrite andb_true_r. apply forallb_forall. intros c Hc.
  rewrite Forall_forall in Hds. by apply Hds, list_elem_of_In.
Qed.
Lemma parse_exponent_ok expo : exponent_ok expo → is_Some (parse_exponent expo).
Proof.
  destruct expo as [|c s]; [by eexists|]. intros [Hc Hd]. cbn [parse_exponent]. unfold is_exponent in Hc. rewrite Hc.
  destruct s as [|c' s]; [by destruct Hd|]. cbn [unsigned] in Hd. unfold is_sign in Hd.
  destruct (c' =? chr "+"); [rewrite (digits_forallb _ Hd); by eexists|]. cbn [orb] in Hd.
  destruct (c' =? chr "-"); rewrite (digits_forallb _ Hd); by eexists.
Qed.
Lemma parse_f64_ok ds frac expo : lexeme_ok (LxFloat ds frac expo) → is_Some (parse_f64 (ds ++ frac ++ expo)).
Proof.
  intros ([Hne Hds] & Hf & He & _). unfold parse_f64.
  assert (∀ fp, bool_decide (ds ++ fp = []) = false) as Hnil by (intros fp; apply bool_decide_false; intros E; by apply app_eq_nil in E as [? _]).
  destruct (parse_exponent_ok expo He) as [e Hx]. destruct frac as [|c fs].
  - cbn [app]. rewrite span_digits_app; [|done|by destruct expo; [|apply (exponent_stops (_ :: _) []) in He as [? _]]].
    destruct expo as [|c s]; [rewrite Hnil; by eexists|]. destruct He as [Hc _].
    assert (c =? chr "." = false) as -> by (apply orb_true_iff in Hc as [->%Z.eqb_eq| ->%Z.eqb_eq]; done).
    rewrite Hnil, Hx. by eexists.
  - destruct Hf as [-> [_ Hfs]]. rewrite span_digits_app by done. cbn [app]. rewrite Z.eqb_refl.
    rewrite span_digits_app; [|done|by destruct expo; [|apply (exponent_stops (_ :: _) []) in He as [? _]]].
    rewrite Hnil, Hx. by eexists.
Qed.
Lemma fraction_spec lx frac r : fraction_ok frac → remaining lx = frac ++ r →
  (frac = [] → stops (λ c, c =? chr ".") r) → (frac ≠ [] → stops is_ascii_digit r) →
  lex_fraction lx = Done (consume lx frac, negb (bool_decide (frac = []))).
Proof.
  intros Hf Hr Hnone Hsome. unfold lex_fraction. destruct frac as [|c fs].
  - by rewrite (stops_peek (λ c, c =? chr ".") lx r Hr (Hnone eq_refl)).
  - destruct Hf as [-> [Hne Hfs]]. cbn [app] in Hr. pose proof (remaining_cons _ _ _ Hr) as (-> & -> & Ha & Hr1 & ->).
    destruct fs as [|c fs]; [done|]. cbn [app head negb andb]. rewrite Z.eqb_refl.
    assert (is_ascii_digit c = true) as -> by by apply Forall_cons in Hfs as [? _]. cbn [andb]. rewrite Ha. cbn [fst].
    rewrite (advance_while_fuel _ _ (c :: fs) r); [|done..|by apply Hsome]. done.
Qed.
Lemma exponent_spec lx expo r : exponent_ok expo → remaining lx = expo ++ r →
  (expo = [] → stops is_exponent r) → (expo ≠ [] → stops is_ascii_digit r) →
  lex_exponent lx = Done (consume lx expo, negb (bool_decide (expo = []))).
Proof.
  intros He Hr Hnone Hsome. unfold lex_exponent. destruct expo as [|c s].
  - pose proof (stops_peek is_exponent lx r Hr (Hnone eq_refl)) as Hp. unfold is_exponent in Hp. by rewrite Hp.
  - destruct He as [Hc Hd]. specialize (Hsome ltac:(done)). cbn [app] in Hr. pose proof (remaining_cons _ _ _ Hr) as (-> & -> & -> & Hr1 & _).
    unfold is_exponent in Hc. rewrite Hc. cbn [negb andb fst].
    assert (∀ lx1 ds, digits ds → remaining lx1 = ds ++ r →
      (if is_eof lx1 || negb (is_ascii_digit (peek lx1)) then error lx1 (chars_of "invalid numeric literal: expected digit after exponent")
       else lx ← advance_while (fuel_of lx1) is_ascii_digit lx1; Done (lx, true)) = Done (consume lx1 ds, true)) as Hdigits.
    { intros lx1 ds [Hne Hds] Hr2. rewrite (advance_while_fuel _ _ ds r) by done. destruct ds as [|c' ds]; [done|].
      pose proof (remaining_cons _ _ _ Hr2) as (-> & -> & _). apply Forall_cons in Hds as [-> _]. done. }
    destruct s as [|c' s]; [by destruct Hd|]. cbn [app] in Hr1. pose proof (remaining_cons _ _ _ Hr1) as (He1 & Hp1 & Ha1 & Hr2 & _).
    rewrite He1, Hp1. cbn [negb andb unsigned] in Hd |- *. unfold is_sign in Hd. destruct ((c' =? chr "+") || (c' =? chr "-")).
    + rewrite Ha1. cbn [fst]. by rewrite (Hdigits _ s Hd Hr2).
    + by rewrite (Hdigits _ (c' :: s) Hd Hr1).
Qed.
Lemma float_spec lx ds frac expo r : lexeme_ok (LxFloat ds frac expo) → remaining lx = (ds ++ frac ++ expo) ++ r →
  stops (continues (LxFloat ds frac expo)) r →
  lex_token lx = Done (consume lx (ds ++ frac ++ expo), mkSpanned (lexeme_token (LxFloat ds frac expo)) (current_span lx)).
Proof.
  intros Hok Hr Hs. destruct (parse_f64_ok _ _ _ Hok) as [v Hv]. destruct Hok as ([Hne Hds] & Hf & He & Hsome).
  pose proof (slice_consume lx _ r Hr) as Hslice. rewrite <- !app_assoc in Hr.
  assert (stops is_ascii_digit r ∧ (expo = [] → stops is_exponent r)) as [Hrd Hre].
  { destruct r as [|c r]; [done|]. cbn in Hs |- *. apply orb_false_iff in Hs as [Hd Hx]. split; [done|]. intros ->. exact Hx. }
  assert (stops is_ascii_digit (frac ++ expo ++ r) ∧ (frac = [] → stops (λ c, c =? chr ".") (expo ++ r)) ∧ stops is_ascii_digit (expo ++ r))
    as (H1 & H2 & H3).
  { destruct expo as [|c s].
    - destruct frac as [|c fs]; [done|]. destruct Hf as [-> _]. by split_and!.
    - destruct (exponent_stops (c :: s) r He) as [? ?]; [done|]. split_and!; [|done..].
      destruct frac as [|c' fs]; [done|]. by destruct Hf as [-> _]. }
  pose proof (remaining_consume _ _ _ Hr) as Hr1. pose proof (remaining_consume _ _ _ Hr1) as Hr2.
  assert (lex_number (current_span lx) lx = Done (consume lx (ds ++ frac ++ expo), mkSpanned (TFloatLit v) (current_span lx))) as Hnum.
  { unfold lex_number. rewrite (advance_while_fuel _ _ ds _ Hr Hds H1). cbn [mbind outcome_bind].
    rewrite (fraction_spec _ frac _ Hf Hr1 H2) by done. cbn [mbind outcome_bind].
    rewrite (exponent_spec _ expo _ He Hr2 Hre) by done. cbn [mbind outcome_bind].
    rewrite <- !consume_app, <- ?app_assoc, Hslice, Hv.
    assert (negb (bool_decide (frac = [])) || negb (bool_decide (expo = [])) = true) as ->; [|done].
    destruct frac; [|done]. destruct expo; [|done]. by destruct Hsome. }
  cbn [lexeme_token]. rewrite Hv. cbn. rewrite <- Hnum. destruct ds as [|c ds]; [done|]. unfold lex_token.
  pose proof (remaining_cons _ _ _ Hr) as (-> & -> & _). apply Forall_cons in Hds as [Hc _].
  destruct (digit_cases c Hc) as (_ & -> & -> & ->). cbn [andb]. by rewrite Hc.
Qed.
Lemma line_comment_spec lx cs r : lexeme_ok (LxLineComment cs) → remaining lx = lexeme_text (LxLineComment cs) ++ r →
  stops (continues (LxLineComment cs)) r →
  lex_token lx = Done (consume lx (lexeme_text (LxLineComment cs)), mkSpanned (TComment cs) (current_span lx)).
Proof.
  intros Hcs Hr Hs. cbn [lexeme_text lexeme_ok] in *. change (chars_of "--") with [chr "-"; chr "-"] in *. cbn [app] in *. unfold lex_token.
  pose proof (remaining_cons _ _ _ Hr) as (-> & -> & Ha & Hr1 & ->). rewrite Z.eqb_refl. cbn [head andb]. rewrite bool_decide_true by done.
  unfold lex_single_line_comment. rewrite Ha. cbn [fst]. pose proof (remaining_cons _ _ _ Hr1) as (_ & _ & -> & Hr2 & _). cbn [fst].
  rewrite (push_while_spec _ _ _ cs r []); [done|done| |done|done].
  pose proof (fuel_enough (step_over (step_over lx (chr "-")) (chr "-"))) as Hf. rewrite Hr2, length_app in Hf. lia.
Qed.
Lemma parameter_spec lx cs r : ident_ok cs → remaining lx = chr "$" :: cs ++ r → stops ident_char r →
  lex_token lx = Done (consume lx (chr "$" :: cs), mkSpanned (TParameter cs) (current_span lx)).
Proof.
  intros [Hcs Hhd] Hr Hw. unfold lex_token. pose proof (remaining_cons _ _ _ Hr) as (-> & -> & Ha & Hr1 & _).
  change (chr "$" =? chr "-") with false. change (chr "$" =? chr "/") with false. change (chr "$" =? chr "'") with false.
  change (is_ascii_digit (chr "$")) with false. change (is_ascii_alphabetic (chr "$") || (chr "$" =? chr "_")) with false.
  change (chr "$" =? chr "$") with true. cbn [andb]. unfold lex_parameter. rewrite Ha. cbn [fst].
  destruct cs as [|c cs]; [done|]. pose proof (remaining_cons _ _ _ Hr1) as (-> & -> & _).
  assert (ident_char c = true) as Hc by by apply Forall_cons in Hcs as [? _].
  destruct (ident_char_cases c Hc Hhd) as (-> & _). cbn [negb orb].
  rewrite (advance_while_fuel _ _ (c :: cs) r) by done.
  cbn [mbind outcome_bind]. by rewrite (slice_consume (step_over lx (chr "$")) (c :: cs) r).
Qed.
Lemma string_loop_spec fuel sp lx cs r acc : remaining lx = escape_quotes cs ++ chr "'" :: r → stops (λ c, c =? chr "'") r →
  (length (escape_quotes cs) < fuel)%nat →
  string_loop fuel sp lx acc = Done (consume lx (escape_quotes cs ++ [chr "'"]), acc ++ cs).
Proof.
  revert fuel lx acc. induction cs as [|c cs IH]; intros fuel lx acc Hr Hw Hf; (destruct fuel as [|fuel]; [lia|]);
    cbn [string_loop].
  - cbn in Hr. pose proof (remaining_cons _ _ _ Hr) as (-> & _ & -> & Hr' & _).
    change (chr "'" =? chr "'") with true. cbv iota. rewrite app_nil_r. destruct r as [|w r].
    + by rewrite (remaining_nil _ Hr').
    + pose proof (remaining_cons _ _ _ Hr') as (-> & -> & _). cbn in Hw. by rewrite Hw.
  - change (escape_quotes (c :: cs)) with ((if c =? chr "'" then [c; c] else [c]) ++ escape_quotes cs) in *.
    destruct (c =? chr "'") eqn:E.
    + apply Z.eqb_eq in E as ->. cbn in Hf. rewrite <- app_assoc in Hr. cbn [app] in Hr.
      pose proof (remaining_cons _ _ _ Hr) as (-> & _ & -> & Hr' & _). change (chr "'" =? chr "'") with true. cbv iota.
      pose proof (remaining_cons _ _ _ Hr') as (-> & -> & -> & Hr2 & _). change (chr "'" =? chr "'") with true. cbn [negb andb fst].
      rewrite (IH fuel _ _ Hr2 Hw) by lia. by rewrite <- !app_assoc.
    + cbn in Hf. cbn [app] in Hr. pose proof (remaining_cons _ _ _ Hr) as (-> & _ & -> & Hr' & _). rewrite E.
      rewrite (IH fuel _ _ Hr' Hw) by lia. by rewrite <- !app_assoc.
Qed.
Lemma string_spec lx cs r : remaining lx = lexeme_text (LxString cs) ++ r → stops (λ c, c =? chr "'") r →
  lex_token lx = Done (consume lx (lexeme_text (LxString cs)), mkSpanned (TStringLit cs) (current_span lx)).
Proof.
  intros Hr Hw. cbn [lexeme_text] in *. rewrite <- app_comm_cons, <- app_assoc in Hr. cbn [app] in Hr. unfold lex_token.
  pose proof (remaining_cons _ _ _ Hr) as (-> & -> & Ha & Hr1 & _).
  change (chr "'" =? chr "-") with false. change (chr "'" =? chr "/") with false. change (chr "'" =? chr "'") with true. cbn [andb].
  unfold lex_string. rewrite Ha. cbn [fst]. rewrite (string_loop_spec _ _ _ cs r); [done|done|done|].
  pose proof (fuel_enough (step_over lx (chr "'"))) as Hf. rewrite Hr1, length_app in Hf. lia.
Qed.
Lemma comment_loop_spec fuel sp lx cs r acc : remaining lx = cs ++ chars_of "*/" ++ r →
  (∀ a b, cs ≠ a ++ chars_of "*/" ++ b) → (length cs < fuel)%nat →
  comment_loop fuel sp lx acc = Done (consume lx (cs ++ chars_of "*/"), acc ++ cs).
Proof.
  revert fuel lx acc. induction cs as [|c cs IH]; intros fuel lx acc Hr Hno Hf; (destruct fuel as [|fuel]; [lia|]);
    cbn [comment_loop].
  - cbn in Hr. pose proof (remaining_cons _ _ _ Hr) as (-> & -> & -> & Hr' & ->). cbn [fst].
    pose proof (remaining_cons _ _ _ Hr') as (_ & _ & -> & _). by rewrite app_nil_r.
  - cbn [app] in Hr. cbn in Hf. pose proof (remaining_cons _ _ _ Hr) as (-> & -> & -> & Hr' & ->).
    assert ((c =? chr "*") && bool_decide (head (cs ++ chars_of "*/" ++ r) = Some (chr "/")) = false) as ->.
    { apply not_true_iff_false. intros [->%Z.eqb_eq Hh%bool_decide_eq_true]%andb_true_iff.
      destruct cs as [|c' cs]; [done|]. injection Hh as ->. apply (Hno [] cs). done. }
    rewrite (IH fuel _ _ Hr'); [by rewrite <- app_assoc| |lia]. intros a b ->. by apply (Hno (c :: a) b).
Qed.
Lemma block_comment_spec lx cs r : lexeme_ok (LxBlockComment cs) → remaining lx = lexeme_text (LxBlockComment cs) ++ r →
  lex_token lx = Done (consume lx (lexeme_text (LxBlockComment cs)), mkSpanned (TComment cs) (current_span lx)).
Proof.
  intros Hno Hr. cbn [lexeme_text lexeme_ok] in *. rewrite <- !app_assoc in Hr.
  change (chars_of "/*") with [chr "/"; chr "*"] in *. cbn [app] in *. unfold lex_token.
  pose proof (remaining_cons _ _ _ Hr) as (-> & -> & Ha & Hr1 & ->).
  change (chr "/" =? chr "-") with false. change (chr "/" =? chr "/") with true. cbn [head andb].
  rewrite bool_decide_true by done.
  unfold lex_multi_line_comment. rewrite Ha. cbn [fst]. pose proof (remaining_cons _ _ _ Hr1) as (_ & _ & -> & Hr2 & _). cbn [fst].
  rewrite (comment_loop_spec _ _ _ cs r); [done|done|done|].
  pose proof (fuel_enough (step_over (step_over lx (chr "/")) (chr "*"))) as Hf. rewrite Hr2, length_app in Hf. lia.
Qed.
Lemma next_is_cons lx c r a : remaining lx = c :: r → next_is lx a = (c =? chr a).
Proof. intros Hr. unfold next_is. by pose proof (remaining_cons _ _ _ Hr) as (-> & -> & _). Qed.
Lemma continues_operator s t c a : continues (LxOperator s t) c = false → (s, a) ∈ operator_continuations → (c =? chr a) = false.
Proof.
  intros Hc Ha. cbn [continues] in Hc. destruct (c =? chr a) eqn:E; [|done]. rewrite <- Hc. symmetry. apply existsb_exists.
  exists (s, a). split; [by apply list_elem_of_In|]. cbn [fst snd]. by rewrite bool_decide_true, E.
Qed.
(** The operator whose next character is [c] is not one of its continuations. *)
Lemma next_not lx s t r a : remaining lx = r → stops (continues (LxOperator s t)) r → (s, a) ∈ operator_continuations →
  next_is lx a = false ∧ bool_decide (head r = Some (chr a)) = false.
Proof.
  intros Hr Hs Ha. destruct r as [|w r].
  - unfold next_is. by rewrite (remaining_nil _ Hr).
  - change (continues (LxOperator s t) w = false) in Hs. pose proof (continues_operator _ _ _ _ Hs Ha) as Hw. rewrite (next_is_cons _ _ _ _ Hr). split; [done|].
    apply bool_decide_eq_false. intros [= ->]. by rewrite Z.eqb_refl in Hw.
Qed.
Lemma operator_spec lx s t r : (s, t) ∈ operator_table → remaining lx = chars_of s ++ r → stops (continues (LxOperator s t)) r →
  lex_token lx = Done (consume lx (chars_of s), mkSpanned t (current_span lx)).
Proof.
  intros Hin Hr Hs. pose proof (remaining_consume _ _ _ Hr) as Hend.
  assert (∀ a, bool_decide ((s, a) ∈ operator_continuations) = true → next_is (consume lx (chars_of s)) a = false ∧
    bool_decide (head r = Some (chr a)) = false) as Hno.
  { intros a Ha%bool_decide_eq_true. by apply (next_not _ s t). }
  unfold operator_table in Hin. repeat (apply elem_of_cons in Hin as [[= -> ->]|Hin]); [..|by apply elem_of_nil in Hin];
    cbn in Hr; unfold lex_token; pose proof (remaining_cons _ _ _ Hr) as (-> & -> & Ha & Hr1 & ->);
    cbn [head]; unfold lex_operator_or_delimiter; rewrite Ha; cbv zeta.
  all: first [ pose proof (remaining_cons _ _ _ Hr1) as (_ & _ & Ha1 & _); rewrite ?(next_is_cons _ _ _ _ Hr1), ?Ha1 | idtac ].
  all: try reflexivity.
  all: repeat match goal with
    | |- context [next_is ?x ?a] => rewrite (proj1 (Hno a eq_refl) : next_is x a = false)
    | |- context [bool_decide (head _ = Some (chr ?a))] => rewrite (proj2 (Hno a eq_refl))
    end; reflexivity.
Qed.
End lexemes.

Section printing.
Implicit Types (lx : Lexer) (l : lexeme) (cs r ws : text) (w : Z).
Lemma find_keyword_text word table t : find_keyword word table = Some t → ∃ k, k ∈ table.*1 ∧ word = chars_of k.
Proof.
  induction table as [|[k t'] table IH]; cbn; [done|]. case_decide as Hk.
  - intros _. exists k. by split; [left|].
  - intros (k' & Hin & Hw)%IH. exists k'. by split; [right|].
Qed.
(** A keyword, in any case, is an identifier by its characters. *)
Lemma keyword_ident word t : keyword_token word = Some t → ident_ok word.
Proof.
  intros (k & Hk & Hw)%find_keyword_text.
  assert (forallb (λ k, negb (bool_decide (chars_of k = [])) && forallb (in_char_range "A" "Z") (chars_of k)) keyword_table.*1 = true)
    as Hall by (vm_compute; reflexivity).
  apply list_elem_of_In, (proj1 (forallb_forall _ _) Hall), andb_true_iff in Hk as [Hne%negb_true_iff%bool_decide_eq_false Hall'].
  rewrite <- Hw in Hne, Hall'.
  assert (∀ c, c ∈ word → ident_char c = true ∧ is_ascii_digit c = false) as Hc.
  { intros c Hc. assert (in_char_range "A" "Z" (if in_char_range "a" "z" c then c - 32 else c) = true) as Hup.
    { apply (proj1 (forallb_forall _ _) Hall'), list_elem_of_In. by apply (list_elem_of_fmap_2 (λ c, if in_char_range "a" "z" c then c - 32 else c)). }
    clear -Hup. destruct (in_char_range "a" "z" c) eqn:E; split; char_cases. }
  split; [apply Forall_forall; intros c Hin; by apply Hc|]. destruct word as [|c word]; [done|]. apply Hc. left.
Qed.
Lemma lexeme_spec lx l r : lexeme_ok l → remaining lx = lexeme_text l ++ r → stops (continues l) r →
  lex_token lx = Done (consume lx (lexeme_text l), mkSpanned (lexeme_token l) (current_span lx)).
Proof.
  intros Hok Hr Hs. destruct l as [k t|cs|ds|ds frac expo|cs|cs|s t|cs|cs]; cbn [lexeme_text lexeme_token] in *.
  - by rewrite (word_spec lx _ r (keyword_ident _ _ Hok) Hr Hs), Hok.
  - destruct Hok as [Hid Hkw]. rewrite (word_spec lx _ r Hid Hr Hs), Hkw. done.
  - by apply (int_spec lx ds r).
  - by apply (float_spec lx ds frac expo r).
  - by apply (string_spec lx cs r).
  - by apply (parameter_spec lx cs r).
  - by apply (operator_spec lx s t r).
  - by apply (line_comment_spec lx cs r).
  - by apply (block_comment_spec lx cs r).
Qed.
Lemma lexeme_starts l r : lexeme_ok l → ∃ c cs, lexeme_text l = c :: cs ∧ is_ascii_whitespace c = false.
Proof.
  assert (∀ cs, ident_ok cs → ∃ c cs', cs = c :: cs' ∧ is_ascii_whitespace c = false) as Hid.
  { intros cs [Hcs Hhd]. destruct cs as [|c cs]; [done|]. apply Forall_cons in Hcs as [Hc _].
    destruct (ident_char_cases c Hc Hhd) as (_ & ? & _). eauto. }
  destruct l as [k t|cs|ds|ds frac expo|cs|cs|s t|cs|cs]; cbn [lexeme_ok lexeme_text].
  - intros Hk. by eapply Hid, keyword_ident.
  - intros [? _]. by apply Hid.
  - intros (Hne & Hds & _). destruct ds as [|c ds]; [done|]. apply Forall_cons in Hds as [Hc _].
    destruct (digit_cases c Hc) as (? & _). eauto.
  - intros ([Hne Hds] & _). destruct ds as [|c ds]; [done|]. apply Forall_cons in Hds as [Hc _].
    destruct (digit_cases c Hc) as (? & _). do 2 eexists. by split.
  - intros _. by do 2 eexists.
  - intros _. by do 2 eexists.
  - intros Hs. assert (forallb (λ x : string * Token, match chars_of x.1 with c :: _ => negb (is_ascii_whitespace c) | [] => false end)
      operator_table = true) as Ho by (vm_compute; reflexivity).
    apply list_elem_of_In, (proj1 (forallb_forall _ _) Ho) in Hs. cbn [fst] in Hs.
    destruct (chars_of s) as [|c cs]; [done|]. apply negb_true_iff in Hs. eauto.
  - intros _. by do 2 eexists.
  - intros _. by do 2 eexists.
Qed.
Lemma lex_token_eof lx : remaining lx = [] → lex_token lx = Done (lx, mkSpanned TEof (current_span lx)).
Proof. intros Hr. unfold lex_token. by rewrite (remaining_nil lx Hr). Qed.
Lemma lexeme_not_eof l : lexeme_ok l → lexeme_token l ≠ TEof.
Proof.
  destruct l as [k t|cs|ds|ds frac expo|cs|cs|s t|cs|cs]; cbn [lexeme_ok lexeme_token]; try done; intros Hin ->.
  - by pose proof (keyword_not_eof (chars_of k)) as Hk; rewrite Hin in Hk.
  - apply (list_elem_of_fmap_2 snd) in Hin. apply (bool_decide_pack _) in Hin. by vm_compute in Hin.
Qed.

(** A program: tokens, each followed by white space, which may be left out where the next character
    does not continue the token. *)
Definition program_text (ls : list (lexeme * text)) : text := ls ≫= λ x, lexeme_text x.1 ++ x.2.
Fixpoint program_ok (ls : list (lexeme * text)) : Prop :=
  match ls with
  | [] => True
  | (l, ws) :: ls' => lexeme_ok l ∧ blank ws ∧ stops (continues l) (ws ++ program_text ls') ∧ program_ok ls'
  end.
Lemma skip_spec lx ws r : remaining lx = ws ++ r → blank ws → stops is_ascii_whitespace r →
  next_token lx = lex_token (consume lx ws).
Proof.
  intros Hr Hws Hs. unfold next_token, skip_whitespace. by rewrite (advance_while_fuel _ _ ws r).
Qed.
Lemma tokenize_program fuel lx ws ls acc : program_ok ls → blank ws → remaining lx = ws ++ program_text ls →
  (length (remaining lx) < fuel)%nat →
  ∃ ts, tokenize_loop fuel lx acc = Done (acc ++ ts) ∧ token <$> ts = (lexeme_token ∘ fst <$> ls) ++ [TEof].
Proof.
  revert fuel lx ws acc. induction ls as [|[l ws'] ls IH]; intros fuel lx ws acc Hok Hws Hr Hf;
    (destruct fuel as [|fuel]; [lia|]); cbn [tokenize_loop].
  - change (program_text []) with (@nil Z) in Hr. rewrite (skip_spec lx ws []) by done.
    rewrite lex_token_eof by (by apply (remaining_consume lx ws [])).
    cbn [mbind outcome_bind token]. rewrite decide_True by done. eexists. split; [done|]. done.
  - destruct Hok as (Hl & Hws' & Hst & Hok).
    change (program_text ((l, ws') :: ls)) with ((lexeme_text l ++ ws') ++ program_text ls) in Hr.
    rewrite <- app_assoc in Hr. destruct (lexeme_starts l [] Hl) as (c & cs & Hc & Hcw).
    assert (stops is_ascii_whitespace (lexeme_text l ++ ws' ++ program_text ls)) as Hsw by by rewrite Hc.
    rewrite (skip_spec lx ws _ Hr Hws Hsw). pose proof (remaining_consume _ _ _ Hr) as Hr1.
    rewrite (lexeme_spec _ l (ws' ++ program_text ls) Hl Hr1 Hst). cbn [mbind outcome_bind token].
    rewrite decide_False by by apply lexeme_not_eof. pose proof (remaining_consume _ _ _ Hr1) as Hr2.
    destruct (IH fuel (consume (consume lx ws) (lexeme_text l)) ws'
      (acc ++ [mkSpanned (lexeme_token l) (current_span (consume lx ws))]) Hok Hws' Hr2) as (ts & E & Ht).
    + rewrite Hr2. rewrite Hr, Hc in Hf. rewrite !length_app in *. cbn [length] in Hf. lia.
    + rewrite E. eexists. rewrite <- app_assoc. split; [done|]. cbn. by rewrite Ht.
Qed.

(** Positions of the tokens of a run. *)
Lemma Lexer_new_wf s : lexer_wf (Lexer_new s).
Proof. unfold lexer_wf, line_at, column_at. cbn. rewrite take_0. cbn. split_and!; lia. Qed.
Lemma tokenize_loop_positions fuel lx acc : lexer_wf lx → (length (remaining lx) < fuel)%nat →
  match tokenize_loop fuel lx acc with
  | Done ts => ∃ ts' sp, ts = acc ++ ts' ++ [mkSpanned TEof sp] ∧ Forall (λ st, token st ≠ TEof) ts' ∧
      sp_offset sp = length (input lx) ∧
      StronglySorted (λ a b, sp_offset (span a) < sp_offset (span b))%nat (ts' ++ [mkSpanned TEof sp]) ∧
      Forall (λ st, sp_line (span st) = line_at (input lx) (sp_offset (span st)) ∧
                    sp_column (span st) = column_at (input lx) (sp_offset (span st))) (ts' ++ [mkSpanned TEof sp]) ∧
      Forall (λ st, pos lx ≤ sp_offset (span st))%nat (ts' ++ [mkSpanned TEof sp])
  | Fail _ => True
  | OutOfFuel => False
  end.
Proof.
  revert lx acc. induction fuel as [|fuel IH]; intros lx acc Hwf Hf; [lia|]. cbn [tokenize_loop].
  pose proof (next_token_spec lx) as Hn. destruct (next_token lx) as [[lx' st]|e|]; cbn [mbind outcome_bind]; [|done..].
  destruct Hn as (lx0 & H1 & H2 & Hsp & Hst). pose proof (reaches_wf _ _ Hwf H1) as (Hp0 & Hl0 & Hc0).
  pose proof (reaches_length _ _ H1) as [_ Hin0]. rewrite Hin0 in Hp0, Hl0, Hc0. pose proof (reaches_pos _ _ H1) as Hle.
  destruct Hst as [(Ht & Hrem & ->)|[Ht Hlt]].
  - rewrite decide_True by done. exists [], (span st). destruct st as [t sp]. cbn [token span] in *. subst t sp. cbn.
    assert (pos lx0 = length (input lx)) as Hend.
    { unfold remaining in Hrem. apply (f_equal length) in Hrem. rewrite length_drop, Hin0 in Hrem. cbn in Hrem. lia. }
    split_and!; [done|constructor|done|repeat constructor|by repeat constructor|by repeat constructor].
  - rewrite decide_False by done. pose proof (reaches_length _ _ H2) as [Hlen2 Hin2].
    specialize (IH lx' (acc ++ [st])). assert (lexer_wf lx') as Hwf' by (eapply reaches_wf; [|done]; by eapply reaches_wf).
    assert (length (remaining lx') < fuel)%nat as Hf'.
    { destruct Hwf' as [Hp' _]. unfold remaining in *. rewrite length_drop in *. rewrite Hin2, Hin0 in *. lia. }
    specialize (IH Hwf' Hf'). rewrite Hin2, Hin0 in IH. destruct (tokenize_loop _ _ _) as [ts|e|]; [|done..].
    destruct IH as (ts' & sp & -> & Hne & Hoff & Hsort & Hpos & Hge). exists (st :: ts'), sp. rewrite <- app_assoc.
    assert (sp_offset (span st) = pos lx0) as Ho by by rewrite Hsp.
    split_and!; [done|by constructor|done| | |]; cbn [app].
    + constructor; [done|]. eapply Forall_impl; [exact Hge|]. intros x Hx. cbv beta in *. rewrite Ho. lia.
    + constructor; [|done]. rewrite Hsp. done.
    + constructor; [lia|]. eapply Forall_impl; [exact Hge|]. intros x Hx. cbv beta in *. lia.
Qed.

(** C15: lexing inverts printing. Keywords in any case, identifiers that are not keywords, decimal integers below
    2^63, floats (digits with a fraction, an exponent or both), strings with their quotes doubled, parameters,
    every operator, line comments and block comments, printed one after the other with any white space,
    or none where the next character does not continue the token, lex back to exactly those tokens
    and the end marker. *)
Theorem lex_printed_program ws ls :
  blank ws → program_ok ls →
  ∃ ts, tokenize (Lexer_new (ws ++ program_text ls)) = Done ts ∧
    token <$> ts = (lexeme_token ∘ fst <$> ls) ++ [TEof].
Proof.
  intros Hws Hok. unfold tokenize. eapply (tokenize_program _ _ ws ls []); [done..|]. apply fuel_enough.
Qed.

(** the lexer always stops, with exact positions. On every input it returns tokens or an error,
    never running out of fuel. The tokens end with the only end marker, at the end of the input;
    their offsets increase strictly, and each carries the line and the column of its offset,
    counted from the newlines before it. *)
Theorem tokenize_positions (s : text) :
  match tokenize (Lexer_new s) with
  | Done ts => ∃ ts' sp, ts = ts' ++ [mkSpanned TEof sp] ∧ Forall (λ st, token st ≠ TEof) ts' ∧ sp_offset sp = length s ∧
      StronglySorted (λ a b, sp_offset (span a) < sp_offset (span b))%nat ts ∧
      Forall (λ st, sp_line (span st) = line_at s (sp_offset (span st)) ∧
                    sp_column (span st) = column_at s (sp_offset (span st))) ts
  | Fail _ => True
  | OutOfFuel => False
  end.
Proof.
  pose proof (tokenize_loop_positions (fuel_of (Lexer_new s)) (Lexer_new s) [] (Lexer_new_wf s) (fuel_enough _)) as Ht.
  unfold tokenize. destruct (tokenize_loop _ _ _) as [ts|e|]; [|done..].
  destruct Ht as (ts' & sp & -> & Hne & Hoff & Hs & Hpos & _). exists ts', sp. split_and!; done.
Qed.
End printing.

(** ** Witness *)
Definition sample_program : list (lexeme * text) :=
  [(LxKeyword "Match" TMatch, []); (LxOperator "(" TLParen, []); (LxIdent (chars_of "n"), []); (LxOperator ")" TRParen, [10]);
   (LxKeyword "RETURN" TReturn, []); (LxString (chars_of "it's"), []); (LxInt (chars_of "042"), [9]);
   (LxBlockComment (chars_of "x"), []); (LxParameter (chars_of "p"), [32]); (LxFloat (chars_of "3") (chars_of ".14") [], [32]);
   (LxLineComment (chars_of " y"), [10]); (LxFloat (chars_of "5") [] (chars_of "e-324"), [])].
Lemma lex_printed_program_witness :
  ∃ ts, tokenize (Lexer_new ([10] ++ program_text sample_program)) = Done ts ∧
    token <$> ts = [TMatch; TLParen; TIdent (chars_of "n"); TRParen; TReturn; TStringLit (chars_of "it's"); TIntegerLit 42;
      TComment (chars_of "x"); TParameter (chars_of "p"); TFloatLit 0x40091EB851EB851F; TComment (chars_of " y"); TFloatLit 1; TEof].
Proof.
  apply (lex_printed_program [10] sample_program).
  - by repeat constructor.
  - unfold sample_program. cbn [program_ok].
    repeat match goal with |- _ ∧ blank _ ∧ _ => split; [|split; [by repeat constructor|split; [done|]]] end; cbn [lexeme_ok].
    + reflexivity.
    + apply (bool_decide_unpack _). vm_compute. exact I.
    + split; [split; [by repeat constructor|done]|reflexivity].
    + apply (bool_decide_unpack _). vm_compute. exact I.
    + reflexivity.
    + exact I.
    + split; [done|]. split; [by repeat constructor|]. reflexivity.
    + intros a b E. apply (f_equal length) in E. rewrite !length_app in E. cbn in E. lia.
    + split; [by repeat constructor|done].
    + split; [split; [done|by repeat constructor]|]. split; [split; [done|split; [done|by repeat constructor]]|]. by split.
    + by repeat constructor.
    + split; [split; [done|by repeat constructor]|]. split; [exact I|]. split; [|done]. split; [done|]. split; [done|by repeat constructor].
    + exact I.
Defined.
