(* ===== verification/F64.v ===== *)
(** * 64-bit floats

    The language's [f64] as its 64 bits: classification, the IEEE 754 operations the evaluator
    uses ([+], [-], [*], [/], [%], unary [-], [partial_cmp], [==]) and the conversions [i as f64]
    and [f as i64]. A finite float is an integer over 2^1074, so an operation is computed
    exactly on integers and rounded once, to the nearest float and ties to even, by the function
    the lexer already uses for literals. The language leaves the sign and payload of a NaN
    produced by arithmetic open; here it is the quiet NaN of the platforms the code runs on. *)
From S2P Require Import Prelude Types Lexer.

Definition f64_inf : f64 := 2047 * 2 ^ 52.
Definition f64_nan : f64 := 0x7FF8000000000000.
Definition f64_sign (b : f64) : bool := 2 ^ 63 <=? b.
Definition f64_abs (b : f64) : f64 := b mod 2 ^ 63.
Definition f64_is_nan (b : f64) : bool := f64_inf <? f64_abs b.
Definition f64_is_inf (b : f64) : bool := f64_abs b =? f64_inf.
Definition f64_is_zero (b : f64) : bool := f64_abs b =? 0.
(** The magnitude of a finite float, in units of 2^-1074. *)
Definition f64_mag (a : f64) : Z :=
  if a / 2 ^ 52 =? 0 then a mod 2 ^ 52 else (2 ^ 52 + a mod 2 ^ 52) * 2 ^ (a / 2 ^ 52 - 1).
Definition f64_unit : Z := 2 ^ 1074.
Definition f64_scaled (b : f64) : Z := if f64_sign b then - f64_mag (f64_abs b) else f64_mag (f64_abs b).

Definition with_sign (s : bool) (a : f64) : f64 := if s then a + 2 ^ 63 else a.
(** The float nearest to [num / den] in magnitude, with sign [s]. *)
Definition f64_round (s : bool) (num den : Z) : f64 :=
  with_sign s (if num =? 0 then 0 else round_f64 num den).

Definition f64_neg (b : f64) : f64 := if f64_sign b then b - 2 ^ 63 else b + 2 ^ 63.
Definition f64_add (x y : f64) : f64 :=
  if f64_is_nan x || f64_is_nan y then f64_nan
  else if f64_is_inf x then
    if f64_is_inf y && negb (Bool.eqb (f64_sign x) (f64_sign y)) then f64_nan else x
  else if f64_is_inf y then y
  else
    let z := f64_scaled x + f64_scaled y in
    if z =? 0 then with_sign (f64_sign x && f64_sign y) 0
    else f64_round (z <? 0) (Z.abs z) f64_unit.
Definition f64_sub (x y : f64) : f64 := f64_add x (f64_neg y).
Definition f64_mul (x y : f64) : f64 :=
  let s := xorb (f64_sign x) (f64_sign y) in
  if f64_is_nan x || f64_is_nan y then f64_nan
  else if f64_is_inf x || f64_is_inf y then
    if f64_is_zero x || f64_is_zero y then f64_nan else with_sign s f64_inf
  else f64_round s (Z.abs (f64_scaled x) * Z.abs (f64_scaled y)) (f64_unit * f64_unit).
Definition f64_div (x y : f64) : f64 :=
  let s := xorb (f64_sign x) (f64_sign y) in
  if f64_is_nan x || f64_is_nan y then f64_nan
  else if f64_is_inf x then if f64_is_inf y then f64_nan else with_sign s f64_inf
  else if f64_is_inf y then with_sign s 0
  else if f64_is_zero y then if f64_is_zero x then f64_nan else with_sign s f64_inf
  else f64_round s (Z.abs (f64_scaled x)) (Z.abs (f64_scaled y)).
(** [%]: the exact remainder of truncated division, with the sign of the dividend. *)
Definition f64_rem (x y : f64) : f64 :=
  if f64_is_nan x || f64_is_nan y then f64_nan
  else if f64_is_inf x || f64_is_zero y then f64_nan
  else if f64_is_inf y then x
  else f64_round (f64_sign x) (Z.abs (Z.rem (f64_scaled x) (f64_scaled y))) f64_unit.

(** [partial_cmp]; infinities are beyond every finite float. *)
Definition f64_order (b : f64) : Z :=
  if f64_is_inf b then (if f64_sign b then -1 else 1) * 2 ^ 2100 else f64_scaled b.
Definition f64_compare (x y : f64) : option comparison :=
  if f64_is_nan x || f64_is_nan y then None else Some (f64_order x ?= f64_order y).
Definition f64_eqb (x y : f64) : bool :=
  match f64_compare x y with Some Eq => true | _ => false end.
Definition f64_ltb (x y : f64) : bool :=
  match f64_compare x y with Some Lt => true | _ => false end.

(** [i as f64] and [f as i64] (truncation, saturation, and 0 for NaN). *)
Definition i64_min : Z := - 2 ^ 63.
Definition i64_max : Z := 2 ^ 63 - 1.
Definition is_i64 (z : Z) : Prop := i64_min ≤ z ≤ i64_max.
Definition in_i64 (z : Z) : bool := (i64_min <=? z) && (z <=? i64_max).
Definition f64_of_i64 (i : Z) : f64 := f64_round (i <? 0) (Z.abs i) 1.
Definition i64_of_f64 (b : f64) : Z :=
  if f64_is_nan b then 0
  else Z.max i64_min (Z.min i64_max (Z.quot (f64_order b) f64_unit)).

Example add_1_2 : f64_add (f64_of_i64 1) 0x4000000000000000 = f64_of_i64 3.
Proof. vm_compute. reflexivity. Qed.
(** 0.1 + 0.2 = 0.30000000000000004 *)
Example add_tenths : f64_add 0x3FB999999999999A 0x3FC999999999999A = 0x3FD3333333333334.
Proof. vm_compute. reflexivity. Qed.
Example div_1_3 : f64_div (f64_of_i64 1) (f64_of_i64 3) = 0x3FD5555555555555.
Proof. vm_compute. reflexivity. Qed.
(** -7.5 % 2.0 = -1.5 *)
Example rem_neg : f64_rem 0xC01E000000000000 (f64_of_i64 2) = 0xBFF8000000000000.
Proof. vm_compute. reflexivity. Qed.
Example mul_tenths : f64_mul 0x3FB999999999999A 0x3FC999999999999A = 0x3F947AE147AE147C.
Proof. vm_compute. reflexivity. Qed.
Example big_int : f64_of_i64 (2 ^ 53 + 1) = f64_of_i64 (2 ^ 53).
Proof. vm_compute. reflexivity. Qed.
Example sat : i64_of_f64 f64_inf = i64_max ∧ i64_of_f64 0xC3E0000000000000 = i64_min ∧ i64_of_f64 0xBFF8000000000000 = -1.
Proof. vm_compute. done. Qed.
Example overflow_inf : f64_mul 0x7FEFFFFFFFFFFFFF (f64_of_i64 2) = f64_inf.
Proof. vm_compute. reflexivity. Qed.
Example minus_zero : f64_mul (f64_neg (f64_of_i64 1)) 0 = 2 ^ 63 ∧ f64_sub (f64_of_i64 1) (f64_of_i64 1) = 0.
Proof. vm_compute. done. Qed.

(** ** Rounding is exact on the floats *)
Definition scale (num den e : Z) : Z * Z := if 0 <=? e then (num, den * 2 ^ e) else (num * 2 ^ (- e), den).
Definition round_exponent (num den : Z) : Z :=
  let e0 := Z.log2 num - Z.log2 den - 52 in
  Z.max (if (scale num den e0).1 <? 2 ^ 52 * (scale num den e0).2 then e0 - 1 else e0) (-1074).
Lemma round_f64_unfold num den : round_f64 num den =
  let e := round_exponent num den in
  let q := (scale num den e).1 / (scale num den e).2 in
  let r := (scale num den e).1 mod (scale num den e).2 in
  let q' := if ((scale num den e).2 <? 2 * r) || ((2 * r =? (scale num den e).2) && Z.odd q) then q + 1 else q in
  let bits := (e + 1074) * 2 ^ 52 + q' in
  if f64_inf <=? bits then f64_inf else bits.
Proof.
  change (round_f64 num den) with
    (let e := round_exponent num den in
     let '(n, d) := scale num den e in
     let q := n / d in
     let r := n mod d in
     let q' := if (d <? 2 * r) || ((2 * r =? d) && Z.odd q) then q + 1 else q in
     let bits := (e + 1074) * 2 ^ 52 + q' in
     if f64_inf <=? bits then f64_inf else bits).
  cbv zeta. by destruct (scale num den (round_exponent num den)) as [n d].
Qed.

Lemma log2_scale num den E k : 0 < num → 0 < den → 0 ≤ k →
  2 ^ k * (scale num den E).2 ≤ (scale num den E).1 →
  E + k ≤ Z.log2 num - Z.log2 den.
Proof.
  intros Hn Hd Hk. unfold scale. destruct (Z.leb_spec 0 E) as [HE|HE]; cbn; intros Hle.
  - assert (2 ^ (k + E) * den ≤ num) as H by (rewrite Z.pow_add_r by done; lia).
    apply Z.log2_le_mono in H. rewrite (Z.mul_comm _ den), Z.log2_mul_pow2 in H by lia. lia.
  - apply Z.log2_le_mono in Hle. rewrite (Z.mul_comm _ den), !Z.log2_mul_pow2 in Hle by lia. lia.
Qed.
Lemma log2_scale_lt num den E k : 0 < num → 0 < den → 0 ≤ k →
  (scale num den E).1 < 2 ^ k * (scale num den E).2 →
  Z.log2 num - Z.log2 den ≤ E + k.
Proof.
  intros Hn Hd Hk. unfold scale. destruct (Z.leb_spec 0 E) as [HE|HE]; cbn; intros Hlt.
  - assert (num ≤ 2 ^ (k + E) * den) as H by (rewrite Z.pow_add_r by done; lia).
    apply Z.log2_le_mono in H. rewrite (Z.mul_comm _ den), Z.log2_mul_pow2 in H by lia. lia.
  - assert (num * 2 ^ (- E) ≤ 2 ^ k * den) as H by lia.
    apply Z.log2_le_mono in H. rewrite (Z.mul_comm _ den), !Z.log2_mul_pow2 in H by lia. lia.
Qed.
Lemma scale_succ num den E : (scale num den E).1 < 2 ^ 53 * (scale num den E).2 →
  (scale num den (E + 1)).1 < 2 ^ 52 * (scale num den (E + 1)).2.
Proof.
  replace (2 ^ 53) with (2 ^ 52 * 2) by done. generalize (2 ^ 52) as B. intros B. unfold scale.
  destruct (Z.leb_spec 0 E), (Z.leb_spec 0 (E + 1)); cbn [fst snd]; intros Hlt; [|lia| |].
  - rewrite Z.pow_add_r by lia. lia.
  - replace E with (-1) in * by lia. change (2 ^ (- (-1))) with 2 in Hlt. change (2 ^ (-1 + 1)) with 1. lia.
  - replace (- E) with (1 + - (E + 1)) in Hlt by lia. rewrite Z.pow_add_r in Hlt by lia. lia.
Qed.
Lemma round_exponent_normal num den E : 0 < num → 0 < den → -1074 ≤ E →
  2 ^ 52 * (scale num den E).2 ≤ (scale num den E).1 < 2 ^ 53 * (scale num den E).2 →
  round_exponent num den = E.
Proof.
  intros Hn Hd HE [Hlo Hhi]. unfold round_exponent. cbv zeta.
  pose proof (log2_scale num den E 52 Hn Hd ltac:(lia) Hlo).
  pose proof (log2_scale_lt num den E 53 Hn Hd ltac:(lia) Hhi).
  set (e0 := Z.log2 num - Z.log2 den - 52) in *.
  assert (e0 = E ∨ e0 = E + 1) as [->| ->] by lia.
  - destruct (Z.ltb_spec (scale num den E).1 (2 ^ 52 * (scale num den E).2)); lia.
  - pose proof (scale_succ num den E Hhi).
    destruct (Z.ltb_spec (scale num den (E + 1)).1 (2 ^ 52 * (scale num den (E + 1)).2)); lia.
Qed.
Lemma round_exponent_subnormal num den : 0 < num → 0 < den →
  (scale num den (-1074)).1 < 2 ^ 52 * (scale num den (-1074)).2 → round_exponent num den = -1074.
Proof.
  intros Hn Hd Hlt. pose proof (log2_scale_lt num den (-1074) 52 Hn Hd ltac:(lia) Hlt).
  unfold round_exponent. cbv zeta. case_match; lia.
Qed.
(** When the quotient at the exponent is an integer [q], nothing is rounded. *)
Lemma round_exact_at num den e q : round_exponent num den = e → 0 < (scale num den e).2 →
  (scale num den e).1 = q * (scale num den e).2 → (e + 1074) * 2 ^ 52 + q < f64_inf →
  round_f64 num den = (e + 1074) * 2 ^ 52 + q.
Proof.
  intros He Hd Hq Hlt. rewrite round_f64_unfold, He. cbv zeta. rewrite Hq, Z.div_mul, Z.mod_mul by lia.
  replace (2 * 0) with 0 by lia.
  destruct (Z.ltb_spec (scale num den e).2 0), (Z.eqb_spec 0 (scale num den e).2); cbn [orb andb]; [lia..|].
  by destruct (Z.leb_spec f64_inf ((e + 1074) * 2 ^ 52 + q)); [lia|].
Qed.

Lemma f64_mag_pos a : 0 < a → a < f64_inf → 0 < f64_mag a.
Proof.
  intros H1 H2. unfold f64_mag. pose proof (Z.mod_pos_bound a (2 ^ 52) ltac:(lia)).
  destruct (Z.eqb_spec (a / 2 ^ 52) 0) as [He|He].
  - rewrite (Z.div_mod a (2 ^ 52)), He in H1 by lia. lia.
  - assert (0 ≤ a / 2 ^ 52) by (apply Z.div_pos; lia). apply Z.mul_pos_pos; [lia|]. apply Z.pow_pos_nonneg; lia.
Qed.
(** A value that is a float rounds to that float. *)
Lemma round_exact a num den : 0 < a < f64_inf → 0 < num → 0 < den →
  num * f64_unit = f64_mag a * den → round_f64 num den = a.
Proof.
  intros Ha Hn Hd. unfold f64_mag, f64_unit.
  pose proof (Z.div_mod a (2 ^ 52) ltac:(lia)) as Hdiv.
  pose proof (Z.mod_pos_bound a (2 ^ 52) ltac:(lia)) as Hm.
  assert (0 ≤ a / 2 ^ 52 < 2047) as Hea
    by (split; [apply Z.div_pos; lia | apply Z.div_lt_upper_bound; unfold f64_inf in Ha; lia]).
  set (ea := a / 2 ^ 52) in *. set (m := a mod 2 ^ 52) in *. destruct (Z.eqb_spec ea 0) as [He|He]; intros Heq.
  - assert ((scale num den (-1074)) = (num * 2 ^ 1074, den)) as Hs by done.
    rewrite (round_exact_at num den (-1074) m); rewrite ?Hs; cbn [fst snd]; try lia.
    apply round_exponent_subnormal; rewrite ?Hs; cbn [fst snd]; nia.
  - assert ((scale num den (ea - 1075)).1 = (2 ^ 52 + m) * (scale num den (ea - 1075)).2 ∧
            0 < (scale num den (ea - 1075)).2) as [Hs Hp].
    { unfold scale. destruct (Z.leb_spec 0 (ea - 1075)) as [Hc|Hc]; cbn [fst snd].
      - replace (ea - 1) with (1074 + (ea - 1075)) in Heq by lia. rewrite Z.pow_add_r in Heq by lia.
        assert (0 < 2 ^ (ea - 1075)) by (apply Z.pow_pos_nonneg; lia).
        assert (0 < 2 ^ 1074) by (apply Z.pow_pos_nonneg; lia). split; [|lia].
        apply (Z.mul_reg_r _ _ (2 ^ 1074)); [lia|]. rewrite Heq. ring.
      - replace 1074 with (- (ea - 1075) + (ea - 1)) in Heq by lia. rewrite Z.pow_add_r in Heq by lia.
        assert (0 < 2 ^ (ea - 1)) by (apply Z.pow_pos_nonneg; lia). split; [|lia].
        apply (Z.mul_reg_r _ _ (2 ^ (ea - 1))); [lia|]. rewrite <- Z.mul_assoc, Heq. ring. }
    assert (round_exponent num den = ea - 1075) as Hr
      by (apply round_exponent_normal; [lia..| rewrite Hs; nia]).
    rewrite (round_exact_at num den (ea - 1075) (2 ^ 52 + m)); try assumption; lia.
Qed.

(** ** Every operation yields 64 bits *)
Definition is_f64 (b : f64) : Prop := 0 ≤ b < 2 ^ 64.
Lemma round_f64_range num den : 0 ≤ num → 0 < den → 0 ≤ round_f64 num den ≤ f64_inf.
Proof.
  intros Hn Hd. rewrite round_f64_unfold. cbv zeta.
  assert (-1074 ≤ round_exponent num den) as He by (unfold round_exponent; lia).
  set (e := round_exponent num den) in *.
  assert (0 ≤ (scale num den e).1 / (scale num den e).2) as Hq.
  { unfold scale. case_match; cbn [fst snd]; apply Z.div_pos; lia. }
  set (q := (scale num den e).1 / _) in *. set (q' := if _ : bool then q + 1 else q).
  assert (0 ≤ q') by (subst q'; case_match; lia).
  destruct (Z.leb_spec f64_inf ((e + 1074) * 2 ^ 52 + q')); unfold f64_inf in *; lia.
Qed.
Lemma with_sign_f64 s a : 0 ≤ a ≤ f64_inf → is_f64 (with_sign s a).
Proof. unfold with_sign, is_f64, f64_inf. case_match; lia. Qed.
Lemma f64_round_f64 s num den : 0 ≤ num → 0 < den → is_f64 (f64_round s num den).
Proof.
  intros Hn Hd. apply with_sign_f64. case_match; [unfold f64_inf; lia|]. by apply round_f64_range.
Qed.
Lemma f64_mag_nonneg a : 0 ≤ f64_mag a.
Proof.
  unfold f64_mag. pose proof (Z.mod_pos_bound a (2 ^ 52) ltac:(lia)). case_match; [lia|].
  apply Z.mul_nonneg_nonneg; [lia|]. apply Z.pow_nonneg. lia.
Qed.
Lemma f64_neg_f64 b : is_f64 b → is_f64 (f64_neg b).
Proof. unfold is_f64, f64_neg, f64_sign. destruct (Z.leb_spec (2 ^ 63) b); lia. Qed.
Lemma f64_nan_f64 : is_f64 f64_nan.
Proof. unfold is_f64, f64_nan. lia. Qed.
Lemma zero_f64 s : is_f64 (with_sign s 0).
Proof. apply with_sign_f64. unfold f64_inf. lia. Qed.
Lemma inf_f64 s : is_f64 (with_sign s f64_inf).
Proof. apply with_sign_f64. unfold f64_inf. lia. Qed.
#[export] Hint Resolve f64_round_f64 f64_neg_f64 f64_nan_f64 zero_f64 inf_f64 : synaptica.
Lemma unit_pos : 0 < f64_unit.
Proof. apply Z.pow_pos_nonneg; lia. Qed.
Lemma f64_is_zero_scaled b : is_f64 b → f64_is_zero b = false → f64_scaled b ≠ 0.
Proof.
  unfold is_f64, f64_is_zero, f64_scaled. intros Hb Hz%Z.eqb_neq.
  assert (0 < f64_abs b) as Ha by (pose proof (Z.mod_pos_bound b (2 ^ 63) ltac:(lia)); unfold f64_abs in *; lia).
  assert (0 < f64_mag (f64_abs b)); [|case_match; lia].
  unfold f64_mag. pose proof (Z.mod_pos_bound (f64_abs b) (2 ^ 52) ltac:(lia)).
  pose proof (Z.div_mod (f64_abs b) (2 ^ 52) ltac:(lia)).
  assert (0 ≤ f64_abs b / 2 ^ 52) by (apply Z.div_pos; lia).
  destruct (Z.eqb_spec (f64_abs b / 2 ^ 52) 0); [lia|]. apply Z.mul_pos_pos; [lia|]. apply Z.pow_pos_nonneg; lia.
Qed.
Lemma f64_add_f64 x y : is_f64 x → is_f64 y → is_f64 (f64_add x y).
Proof.
  intros Hx Hy. unfold f64_add. cbv zeta. pose proof unit_pos.
  repeat case_match; auto with synaptica. apply f64_round_f64; lia.
Qed.
Lemma f64_sub_f64 x y : is_f64 x → is_f64 y → is_f64 (f64_sub x y).
Proof. intros. apply f64_add_f64; auto with synaptica. Qed.
Lemma f64_mul_f64 x y : is_f64 (f64_mul x y).
Proof.
  unfold f64_mul. cbv zeta. pose proof unit_pos. repeat case_match; auto with synaptica. apply f64_round_f64; lia.
Qed.
Lemma f64_div_f64 x y : is_f64 y → is_f64 (f64_div x y).
Proof.
  intros Hy. unfold f64_div. cbv zeta. repeat case_match; auto with synaptica.
  apply f64_round_f64; [lia|]. pose proof (f64_is_zero_scaled y Hy). naive_solver lia.
Qed.
Lemma f64_rem_f64 x y : is_f64 x → is_f64 (f64_rem x y).
Proof.
  intros Hx. unfold f64_rem. pose proof unit_pos. repeat case_match; auto with synaptica. apply f64_round_f64; lia.
Qed.
Lemma f64_of_i64_f64 i : is_f64 (f64_of_i64 i).
Proof. apply f64_round_f64; lia. Qed.
Lemma i64_of_f64_i64 b : is_i64 (i64_of_f64 b).
Proof. unfold i64_of_f64, is_i64, i64_min, i64_max. case_match; lia. Qed.
#[export] Hint Resolve f64_add_f64 f64_sub_f64 f64_mul_f64 f64_div_f64 f64_rem_f64 f64_of_i64_f64 i64_of_f64_i64 : synaptica.

(** ** Small integers are floats *)
Lemma f64_mag_normal M k : 2 ^ 52 ≤ M < 2 ^ 53 → 0 ≤ k → f64_mag (k * 2 ^ 52 + M) = M * 2 ^ k.
Proof.
  intros HM Hk. unfold f64_mag. replace (k * 2 ^ 52 + M) with (M - 2 ^ 52 + (k + 1) * 2 ^ 52) by lia.
  rewrite Z.div_add, Z.mod_add, Z.div_small, Z.mod_small by lia.
  replace (0 + (k + 1) =? 0) with false by (symmetry; apply Z.eqb_neq; lia).
  f_equal; [lia|]. f_equal. lia.
Qed.
(** An integer that needs at most 53 bits, times a power of two, converts exactly. *)
Lemma round_int_exact M k : 2 ^ 52 ≤ M < 2 ^ 53 → -52 ≤ k < 900 → ∀ i, 0 < i → i * 2 ^ 52 = M * 2 ^ (52 + k) →
  0 < round_f64 i 1 < f64_inf ∧ f64_mag (round_f64 i 1) = i * f64_unit.
Proof.
  intros HM Hk i Hi Heq.
  assert (f64_mag ((1074 + k) * 2 ^ 52 + M) = i * f64_unit) as Hmag.
  { rewrite f64_mag_normal by lia. unfold f64_unit.
    apply (Z.mul_reg_r _ _ (2 ^ 52)); [lia|].
    replace (i * 2 ^ 1074 * 2 ^ 52) with (i * 2 ^ 52 * 2 ^ 1074) by ring. rewrite Heq.
    rewrite <- !Z.mul_assoc, <- !Z.pow_add_r by lia. f_equal. f_equal. lia. }
  assert (0 < (1074 + k) * 2 ^ 52 + M < f64_inf) as Hr by (unfold f64_inf; lia).
  by rewrite (round_exact ((1074 + k) * 2 ^ 52 + M)) by lia.
Qed.
Lemma round_shifted_exact m j : 0 < m < 2 ^ 53 → 0 ≤ j < 800 →
  0 < round_f64 (m * 2 ^ j) 1 < f64_inf ∧ f64_mag (round_f64 (m * 2 ^ j) 1) = m * 2 ^ j * f64_unit.
Proof.
  intros Hm Hj. pose proof (Z.log2_spec m ltac:(lia)) as Hlog. pose proof (Z.log2_nonneg m).
  assert (Z.log2 m < 53) by (apply Z.log2_lt_pow2; lia).
  assert (2 ^ 52 = 2 ^ (52 - Z.log2 m) * 2 ^ Z.log2 m) as Hp by (rewrite <- Z.pow_add_r by lia; f_equal; lia).
  assert (0 < 2 ^ (52 - Z.log2 m)) by (apply Z.pow_pos_nonneg; lia).
  apply (round_int_exact (m * 2 ^ (52 - Z.log2 m)) (Z.log2 m - 52 + j)); try lia.
  - replace (2 ^ 53) with (2 * 2 ^ 52) by done. rewrite Hp. rewrite Z.pow_succ_r in Hlog by lia. nia.
  - rewrite <- !Z.mul_assoc, <- !Z.pow_add_r by lia. f_equal. f_equal. lia.
Qed.
Lemma round_small_exact i : 0 < i ≤ 2 ^ 53 → 0 < round_f64 i 1 < f64_inf ∧ f64_mag (round_f64 i 1) = i * f64_unit.
Proof.
  intros Hi. destruct (decide (i = 2 ^ 53)) as [->|Hne].
  - apply (round_int_exact (2 ^ 52) 1); lia.
  - replace i with (i * 2 ^ 0) by lia. apply round_shifted_exact; lia.
Qed.
Lemma f64_scaled_sign s a : 0 ≤ a < f64_inf → f64_scaled (with_sign s a) = if s then - f64_mag a else f64_mag a.
Proof.
  intros Ha. unfold f64_scaled, f64_sign, f64_abs, with_sign, f64_inf in *. destruct s.
  - replace (2 ^ 63 <=? a + 2 ^ 63) with true by (symmetry; apply Z.leb_le; lia).
    replace (a + 2 ^ 63) with (a + 1 * 2 ^ 63) by lia. by rewrite Z.mod_add, Z.mod_small by lia.
  - replace (2 ^ 63 <=? a) with false by (symmetry; apply Z.leb_gt; lia). by rewrite Z.mod_small by lia.
Qed.
Lemma f64_abs_sign s a : 0 ≤ a ≤ f64_inf → f64_abs (with_sign s a) = a.
Proof.
  intros Ha. unfold f64_abs, with_sign, f64_inf in *. destruct s; [|by rewrite Z.mod_small by lia].
  replace (a + 2 ^ 63) with (a + 1 * 2 ^ 63) by lia. by rewrite Z.mod_add, Z.mod_small by lia.
Qed.
Lemma f64_finite_sign s a : 0 ≤ a < f64_inf → f64_is_nan (with_sign s a) = false ∧ f64_is_inf (with_sign s a) = false.
Proof. intros Ha. unfold f64_is_nan, f64_is_inf. rewrite f64_abs_sign by lia. lia. Qed.
Lemma f64_of_i64_exact i : - 2 ^ 53 ≤ i ≤ 2 ^ 53 →
  f64_is_nan (f64_of_i64 i) = false ∧ f64_is_inf (f64_of_i64 i) = false ∧ f64_scaled (f64_of_i64 i) = i * f64_unit.
Proof.
  intros Hi. unfold f64_of_i64, f64_round. destruct (Z.eqb_spec (Z.abs i) 0) as [H0|H0].
  - replace i with 0 by lia. done.
  - destruct (round_small_exact (Z.abs i) ltac:(lia)) as [Hr Hm].
    destruct (f64_finite_sign (i <? 0) (round_f64 (Z.abs i) 1) ltac:(lia)) as [-> ->].
    rewrite f64_scaled_sign, Hm by lia. repeat split. destruct (Z.ltb_spec i 0); lia.
Qed.
(** Comparing an integer of at most 53 bits with a float is the comparison of the numbers. *)
Lemma f64_compare_i64 i j : - 2 ^ 53 ≤ i ≤ 2 ^ 53 → - 2 ^ 53 ≤ j ≤ 2 ^ 53 →
  f64_compare (f64_of_i64 i) (f64_of_i64 j) = Some (i ?= j).
Proof.
  intros Hi Hj. destruct (f64_of_i64_exact i Hi) as (Hn & Hf & Hs), (f64_of_i64_exact j Hj) as (Hn' & Hf' & Hs').
  unfold f64_compare, f64_order. rewrite Hn, Hn', Hf, Hf', Hs, Hs'. cbn. f_equal. symmetry.
  apply Zmult_compare_compat_r. pose proof unit_pos. lia.
Qed.

(** A product of integers is exact when it is a float. *)
Lemma f64_mul_i64_exact s i j : 0 ≤ i ≤ 2 ^ 53 → 0 < j ≤ 2 ^ 53 →
  0 < round_f64 (i * j) 1 < f64_inf → f64_mag (round_f64 (i * j) 1) = i * j * f64_unit → 0 < i →
  i64_of_f64 (f64_mul (with_sign s (round_f64 i 1)) (f64_of_i64 j)) =
  Z.max i64_min (Z.min i64_max ((if s then -1 else 1) * (i * j))).
Proof.
  intros Hi Hj Hr Hm Hi0. pose proof unit_pos as Hu.
  destruct (round_small_exact i ltac:(lia)) as [Hri Hmi]. destruct (f64_of_i64_exact j ltac:(lia)) as (Hn & Hf & Hs).
  destruct (f64_finite_sign s (round_f64 i 1) ltac:(lia)) as [Hn' Hf'].
  assert (f64_mul (with_sign s (round_f64 i 1)) (f64_of_i64 j) = with_sign s (round_f64 (i * j) 1)) as ->.
  { unfold f64_mul. cbv zeta. rewrite Hn, Hn', Hf, Hf', Hs, f64_scaled_sign, Hmi by lia. cbn [orb].
    assert (f64_sign (f64_of_i64 j) = false) as ->.
    { unfold f64_scaled in Hs. destruct (f64_sign (f64_of_i64 j)); [|done].
      pose proof (f64_mag_nonneg (f64_abs (f64_of_i64 j))). nia. }
    assert (f64_sign (with_sign s (round_f64 i 1)) = s) as ->.
    { unfold f64_sign, with_sign, f64_inf in *. destruct s; [apply Z.leb_le|apply Z.leb_gt]; lia. }
    rewrite xorb_false_r. unfold f64_round.
    replace (Z.abs (if s then - (i * f64_unit) else i * f64_unit)) with (i * f64_unit) by (destruct s; nia).
    replace (Z.abs (j * f64_unit)) with (j * f64_unit) by nia.
    destruct (Z.eqb_spec (i * f64_unit * (j * f64_unit)) 0); [nia|]. f_equal.
    apply round_exact; [done|nia..|]. rewrite Hm. ring. }
  destruct (f64_finite_sign s (round_f64 (i * j) 1) ltac:(lia)) as [Hn'' Hf''].
  unfold i64_of_f64, f64_order. rewrite Hn'', Hf'', f64_scaled_sign, Hm by lia. do 2 f_equal.
  destruct s; [rewrite <- Z.mul_opp_l|]; rewrite Z.quot_mul; lia.
Qed.
