(* ===== verification/Text.v ===== *)
(** * Strings as characters

    A [String] is kept as its UTF-8 bytes; this file converts between it and the list of its
    characters (code points), and gives the standard library functions on characters that the
    evaluator and the parser use: [chars], [trim], [parse] of signed integers and of floats. *)
From S2P Require Import Prelude Types Lexer F64.
From Stdlib Require Import Ascii.

(** ** UTF-8 *)
Definition utf8_encode (c : Z) : bytes :=
  byte_of_Z <$>
    (if c <? 0x80 then [c]
     else if c <? 0x800 then [0xC0 + c / 64; 0x80 + c mod 64]
     else if c <? 0x10000 then [0xE0 + c / 4096; 0x80 + c / 64 mod 64; 0x80 + c mod 64]
     else [0xF0 + c / 262144; 0x80 + c / 4096 mod 64; 0x80 + c / 64 mod 64; 0x80 + c mod 64]).
Definition string_of_chars (t : text) : string := str_of_bytes (t ≫= utf8_encode).
(** The characters of well-formed bytes. *)
Fixpoint utf8_chars_of (l : bytes) : text :=
  match l with
  | [] => []
  | b0 :: l1 =>
      let z := bval b0 in
      if z <? 0x80 then z :: utf8_chars_of l1
      else match l1 with
      | [] => []
      | b1 :: l2 =>
          let y := bval b1 mod 64 in
          if z <? 0xE0 then ((z - 0xC0) * 64 + y) :: utf8_chars_of l2
          else match l2 with
          | [] => []
          | b2 :: l3 =>
              let x := bval b2 mod 64 in
              if z <? 0xF0 then ((z - 0xE0) * 4096 + y * 64 + x) :: utf8_chars_of l3
              else match l3 with
              | [] => []
              | b3 :: l4 => ((z - 0xF0) * 262144 + y * 4096 + x * 64 + bval b3 mod 64) :: utf8_chars_of l4
              end
          end
      end
  end.
(** [s.chars()] *)
Definition chars (s : string) : text := utf8_chars_of (str_bytes s).

(** A character: a code point that is not a surrogate. *)
Definition is_char (c : Z) : Prop := 0 ≤ c < 0x110000 ∧ ¬ (0xD800 ≤ c < 0xE000).
Lemma bval_small z : 0 ≤ z < 256 → bval (byte_of_Z z) = z.
Proof. intros H. rewrite bval_byte_of_Z. by apply Z.mod_small. Qed.
Lemma chars_encode c l : is_char c → utf8_chars_of (utf8_encode c ++ l) = c :: utf8_chars_of l.
Proof.
  intros [Hc _]. unfold utf8_encode.
  pose proof (Z.mod_pos_bound c 64 ltac:(lia)). pose proof (Z.div_mod c 64 ltac:(lia)).
  pose proof (Z.mod_pos_bound (c / 64) 64 ltac:(lia)). pose proof (Z.div_mod (c / 64) 64 ltac:(lia)).
  pose proof (Z.mod_pos_bound (c / 4096) 64 ltac:(lia)). pose proof (Z.div_mod (c / 4096) 64 ltac:(lia)).
  assert (c / 64 / 64 = c / 4096) by (by rewrite Z.div_div by lia).
  assert (c / 4096 / 64 = c / 262144) by (by rewrite Z.div_div by lia).
  assert (∀ r, 0 ≤ r < 64 → (0x80 + r) mod 64 = r) as Hlow.
  { intros r Hr. replace (0x80 + r) with (r + 2 * 64) by lia. rewrite Z.mod_add, Z.mod_small; lia. }
  repeat case_match; rewrite ?Z.ltb_lt, ?Z.ltb_ge in *; cbn [fmap list_fmap app utf8_chars_of];
    rewrite !bval_small by lia; rewrite ?Hlow by lia;
    repeat (case_match; rewrite ?Z.ltb_lt, ?Z.ltb_ge in *; try lia); f_equal; lia.
Qed.
Lemma chars_string_of_chars t : Forall is_char t → chars (string_of_chars t) = t.
Proof.
  unfold chars, string_of_chars. rewrite str_bytes_str_of_bytes.
  induction 1 as [|c t Hc Ht IH]; [done|]. cbn [mbind list_bind]. by rewrite chars_encode, IH.
Qed.
Lemma chars_ascii (s : string) : Forall (λ b, bval b < 128) (str_bytes s) → chars s = bval <$> str_bytes s.
Proof.
  unfold chars. induction 1 as [|b l Hb _ IH]; [done|]. cbn [utf8_chars_of fmap list_fmap].
  replace (bval b <? 128) with true by (symmetry; by apply Z.ltb_lt). by rewrite IH.
Qed.

(** ** [trim]: the characters with the Unicode property White_Space *)
Definition is_whitespace (c : Z) : bool :=
  ((9 <=? c) && (c <=? 13)) || (c =? 32) || (c =? 0x85) || (c =? 0xA0) || (c =? 0x1680)
  || ((0x2000 <=? c) && (c <=? 0x200A)) || (c =? 0x2028) || (c =? 0x2029) || (c =? 0x202F)
  || (c =? 0x205F) || (c =? 0x3000).
Fixpoint trim_start (t : text) : text :=
  match t with c :: t' => if is_whitespace c then trim_start t' else t | [] => [] end.
Definition trim (t : text) : text := reverse (trim_start (reverse (trim_start t))).

(** ** [parse] of a signed integer in [lo, hi] and of a float *)
Definition parse_digits (s : text) : option Z :=
  if forallb is_ascii_digit s && negb (bool_decide (s = [])) then Some (digits_value s) else None.
Definition split_sign (s : text) : bool * text :=
  match s with
  | c :: s' => if c =? chr "-" then (true, s') else if c =? chr "+" then (false, s') else (false, s)
  | [] => (false, [])
  end.
Definition parse_signed (lo hi : Z) (s : text) : option Z :=
  let '(neg, ds) := split_sign s in
  n ← parse_digits ds;
  let z := if neg then - n else n in
  if (lo <=? z) && (z <=? hi) then Some z else None.
Definition i32_min : Z := - 2 ^ 31.
Definition i32_max : Z := 2 ^ 31 - 1.
Definition str_parse_i32 (s : text) : option Z := parse_signed i32_min i32_max s.
Definition str_parse_i64 (s : text) : option Z := parse_signed i64_min i64_max s.
Definition str_parse_f64 (s : text) : option f64 :=
  let '(neg, ds) := split_sign s in
  let word := to_ascii_uppercase ds in
  with_sign neg <$>
    (if bool_decide (word = chars_of "INF") || bool_decide (word = chars_of "INFINITY") then Some f64_inf
     else if bool_decide (word = chars_of "NAN") then Some f64_nan
     else parse_f64 ds).
Example i64_neg : str_parse_i64 (chars_of "-9223372036854775808") = Some i64_min.
Proof. vm_compute. reflexivity. Qed.
Example i64_plus : str_parse_i64 (chars_of "+7") = Some 7 ∧ str_parse_i64 (chars_of "-") = None ∧ str_parse_i64 (chars_of " 7") = None.
Proof. vm_compute. done. Qed.
Example f64_neg_inf : str_parse_f64 (chars_of "-inf") = Some 0xFFF0000000000000 ∧ str_parse_f64 (chars_of "-.5") = Some 0xBFE0000000000000.
Proof. vm_compute. done. Qed.
Example chars_euro : chars (string_of_chars [0x20AC; 0x1F600; 0xE9]) = [0x20AC; 0x1F600; 0xE9].
Proof. vm_compute. reflexivity. Qed.

Lemma digits_value_nonneg s : forallb is_ascii_digit s = true → 0 ≤ digits_value s.
Proof.
  unfold digits_value. assert (∀ v, 0 ≤ v → forallb is_ascii_digit s = true → 0 ≤ foldl (λ v c, 10 * v + (c - chr "0")) v s);
    [|by auto with lia].
  induction s as [|c s IH]; cbn; [done|]. intros v Hv [Hc Hd]%andb_true_iff.
  unfold is_ascii_digit, in_char_range in Hc. apply IH; [|done]. lia.
Qed.
Lemma parse_digits_bounds s z : parse_digits s = Some z → 0 ≤ z.
Proof.
  unfold parse_digits. case_match eqn:Hc; [|done]. apply andb_true_iff in Hc as [Hd _]. intros [= <-].
  by apply digits_value_nonneg.
Qed.
Lemma parse_signed_bounds lo hi s z : parse_signed lo hi s = Some z → lo ≤ z ≤ hi.
Proof.
  unfold parse_signed. destruct (split_sign s) as [neg ds]. destruct (parse_digits ds); cbn; [|done].
  case_match eqn:Hr; [|done]. intros [= <-]. lia.
Qed.
Lemma span_digits_digits s : forallb is_ascii_digit (span_digits s).1 = true.
Proof.
  induction s as [|c s IH]; cbn; [done|]. destruct (is_ascii_digit c) eqn:Hc; [|done].
  destruct (span_digits s) as [ds rest]. cbn in *. by rewrite Hc.
Qed.
Lemma decimal_f64_range m e : 0 ≤ m → 0 ≤ decimal_f64 m e ≤ f64_inf.
Proof.
  intros Hm. unfold decimal_f64. destruct (Z.eqb_spec m 0); [unfold f64_inf; lia|].
  destruct (Z.leb_spec 0 e); apply round_f64_range; try lia.
Qed.
Lemma parse_f64_range s f : parse_f64 s = Some f → 0 ≤ f ≤ f64_inf.
Proof.
  unfold parse_f64. pose proof (span_digits_digits s) as H1. destruct (span_digits s) as [ip s1]. cbn in H1.
  assert (forallb is_ascii_digit (match s1 with
    | c :: s' => if c =? chr "." then span_digits s' else ([], s1) | [] => ([], []) end).1 = true) as H2.
  { destruct s1 as [|c s']; [done|]. case_match; [apply span_digits_digits|done]. }
  destruct (match s1 with [] => _ | _ => _ end) as [fp s2]. cbn in H2.
  case_match; [done|]. case_match; [|done]. intros [= <-].
  apply decimal_f64_range, digits_value_nonneg. rewrite forallb_app. by rewrite H1, H2.
Qed.
Lemma str_parse_f64_range s f : str_parse_f64 s = Some f → is_f64 f.
Proof.
  unfold str_parse_f64. destruct (split_sign s) as [neg ds]. cbv zeta.
  intros (a & Ha & ->)%fmap_Some. revert Ha. repeat case_match.
  - intros [= <-]. apply inf_f64.
  - intros [= <-]. unfold is_f64, with_sign, f64_nan. case_match; lia.
  - intros Ha. apply with_sign_f64. by eapply parse_f64_range.
Qed.

(** ** Printed numbers *)
Lemma chars_of_app a b : chars_of (a +:+ b) = chars_of a ++ chars_of b.
Proof.
  unfold chars_of. rewrite <- fmap_app. f_equal. induction a as [|c a IH]; [done|]. cbn. by rewrite <- IH.
Qed.
Lemma bval_byte_of_ascii a : bval (Strings.Ascii.byte_of_ascii a) = chr a.
Proof. by destruct a as [[][][][][][][][]]. Qed.
(** The characters of an ASCII string. *)
Lemma chars_chars_of s : Forall (λ c, c < 128) (chars_of s) → chars s = chars_of s.
Proof.
  assert (bval <$> str_bytes s = chars_of s) as Hs.
  { unfold str_bytes, chars_of, String.list_byte_of_string. induction s as [|a s IH]; [done|].
    cbn [String.list_ascii_of_string List.map fmap list_fmap]. rewrite bval_byte_of_ascii. by f_equal. }
  intros Hall. rewrite <- Hs in *. apply chars_ascii. by apply Forall_fmap in Hall.
Qed.
Lemma digits_value_snoc ds d : digits_value (ds ++ [d]) = 10 * digits_value ds + (d - 48).
Proof. unfold digits_value. by rewrite foldl_app. Qed.
Lemma pretty_N_char_digit x : (x < 10)%N → is_ascii_digit (chr (pretty_N_char x)) = true ∧ chr (pretty_N_char x) = 48 + Z.of_N x.
Proof.
  intros Hx. assert (x = 0 ∨ x = 1 ∨ x = 2 ∨ x = 3 ∨ x = 4 ∨ x = 5 ∨ x = 6 ∨ x = 7 ∨ x = 8 ∨ x = 9)%N as Hc by lia.
  by destruct Hc as [->|[->|[->|[->|[->|[->|[->|[->|[->| ->]]]]]]]]].
Qed.
Lemma pretty_N_go_digits x s : (0 < x)%N → ∃ ds, chars_of (pretty_N_go x s) = ds ++ chars_of s ∧
  forallb is_ascii_digit ds = true ∧ ds ≠ [] ∧ digits_value ds = Z.of_N x.
Proof.
  revert s. induction (N.lt_wf_0 x) as [x _ IH]; intros s Hx. rewrite pretty_N_go_step by done.
  set (c := pretty_N_char (x `mod` 10)).
  destruct (pretty_N_char_digit (x `mod` 10)) as [Hd Hv]; [by apply N.mod_lt|]. fold c in Hd, Hv.
  pose proof (N.div_mod x 10 ltac:(done)) as Hdm.
  destruct (decide (x `div` 10 = 0)%N) as [H0|H0].
  - exists [chr c]. rewrite H0, pretty_N_go_0. cbn. rewrite Hd. split_and!; try done.
    unfold digits_value. cbn. change (chr "0") with 48. lia.
  - destruct (IH (x `div` 10)%N ltac:(by apply N.div_lt) (String c s) (proj1 (N.neq_0_lt_0 _) H0)) as (ds & Hs & Hds & Hne & Hval).
    exists (ds ++ [chr c]). rewrite Hs, <- app_assoc. split_and!; [done| |by destruct ds|].
    + rewrite forallb_app. cbn. by rewrite Hds, Hd.
    + rewrite digits_value_snoc. lia.
Qed.
Lemma pretty_text z : ∃ ds, chars_of (pretty z) = (if z <? 0 then [chr "-"] else []) ++ ds ∧
  forallb is_ascii_digit ds = true ∧ ds ≠ [] ∧ digits_value ds = Z.abs z.
Proof.
  assert (∀ p, ∃ ds, chars_of (pretty (Npos p)) = ds ∧
    forallb is_ascii_digit ds = true ∧ ds ≠ [] ∧ digits_value ds = Zpos p) as Hp.
  { intros p. destruct (pretty_N_go_digits (Npos p) EmptyString) as (ds & Hs & ?); [done|].
    exists ds. split; [|done]. change (pretty (Npos p)) with (pretty_N_go (Npos p) EmptyString).
    by rewrite Hs, app_nil_r. }
  destruct z as [|p|p]; [by exists [48]|apply Hp|].
  destruct (Hp p) as (ds & Hs & ?). exists ds. split; [|done].
  change (pretty (Zneg p)) with ("-" +:+ pretty (Npos p)). by rewrite chars_of_app, Hs.
Qed.
Lemma split_sign_digits ds : forallb is_ascii_digit ds = true → split_sign ds = (false, ds).
Proof.
  destruct ds as [|c ds]; [done|]. cbn. intros [Hc _]%andb_true_iff.
  unfold is_ascii_digit, in_char_range in Hc. change (chr "-") with 45. change (chr "+") with 43.
  change (chr "0") with 48 in Hc.
  destruct (Z.eqb_spec c 45), (Z.eqb_spec c 43); try lia. done.
Qed.
Lemma split_sign_pretty z ds : forallb is_ascii_digit ds = true →
  split_sign ((if z <? 0 then [chr "-"] else []) ++ ds) = (z <? 0, ds).
Proof. intros Hd. destruct (z <? 0); [done|]. by apply split_sign_digits. Qed.
(** Parsing a printed integer gives it back. *)
Lemma parse_signed_pretty lo hi z : lo ≤ z ≤ hi → parse_signed lo hi (chars_of (pretty z)) = Some z.
Proof.
  intros Hz. destruct (pretty_text z) as (ds & -> & Hd & Hne & Hv). unfold parse_signed.
  rewrite split_sign_pretty by done. unfold parse_digits. rewrite Hd, bool_decide_false by done. cbn. rewrite Hv.
  replace (if z <? 0 then - Z.abs z else Z.abs z) with z by (destruct (Z.ltb_spec z 0); lia).
  replace ((lo <=? z) && (z <=? hi)) with true; [done|]. symmetry. lia.
Qed.

(** The characters of a printed integer: digits and the minus sign. *)
Definition number_char (c : Z) : bool := is_ascii_digit c || (c =? chr "-").
Lemma number_char_cases c : number_char c = true → (48 ≤ c ≤ 57) ∨ c = 45.
Proof.
  unfold number_char, is_ascii_digit, in_char_range. change (chr "0") with 48. change (chr "9") with 57.
  change (chr "-") with 45. lia.
Qed.
Lemma pretty_number_chars (z : Z) : Forall (λ c, number_char c = true) (chars_of (pretty z)).
Proof.
  destruct (pretty_text z) as (ds & -> & Hd & _). apply Forall_app. split; [by case_match; repeat constructor|].
  apply Forall_forall. intros c Hc. unfold number_char. rewrite forallb_forall in Hd.
  by rewrite Hd by (by apply list_elem_of_In).
Qed.
Lemma trim_id t : Forall (λ c, is_whitespace c = false) t → trim t = t.
Proof.
  assert (∀ t, Forall (λ c, is_whitespace c = false) t → trim_start t = t) as Hs.
  { intros t' [|c l Hc _]; [done|]. cbn. by rewrite Hc. }
  intros Ht. unfold trim. rewrite (Hs t) by done. rewrite Hs; [apply reverse_involutive|].
  by apply Forall_reverse.
Qed.
