(* ===== verification/Records.v ===== *)
(** * Records and result sets (synaptica-exec: result.rs, and the error type of engine.rs)

    What the executor shares: the outcome of a computation, the rows it computes with, and the
    parts of its environment that are not its own code: how the crates are built
    ([overflow_checks]), chrono's parsing and printing of dates and times, and the printing of
    floats. *)
From S2P Require Import Prelude Types Lexer F64 Text.

(** [overflow_checks]: whether arithmetic that overflows panics (the default of the dev and test
    profiles) or wraps (the default of the release profile; the workspace sets neither). *)
Class Platform : Type := {
  overflow_checks : bool;
  f64_fmt : f64 → string;
  date_fmt : NaiveDate → string;
  time_fmt : NaiveTime → string;
  datetime_fmt : NaiveDateTime → string;
  (** [parse_from_str(s, format)], with the error printed *)
  NaiveDate_parse : string → string → result string NaiveDate;
  NaiveTime_parse : string → string → result string NaiveTime;
  NaiveDateTime_parse : string → string → result string NaiveDateTime
}.

(** ** Outcomes: an error value of the code, or a panic *)
Inductive failure (E : Type) : Type :=
| Raised (e : E)
| Panic.
Arguments Raised {E} e.
Arguments Panic {E}.
Abbreviation may_panic E A := (result (failure E) A).
Definition raise {E A} (e : E) : may_panic E A := Err (Raised e).
Definition panic {E A} : may_panic E A := Err Panic.
(** [map_err], which a panic passes through. *)
Definition map_raised {E E' A} (f : E → E') (r : may_panic E A) : may_panic E' A :=
  map_err (λ x, match x with Raised e => Raised (f e) | Panic => Panic end) r.
Definition lift_result {E A} (r : result E A) : may_panic E A := map_err Raised r.
(** [catch_unwind(..).map_err(|_| e)] *)
Definition catch_unwind {E A} (e : E) (r : may_panic E A) : may_panic E A :=
  match r with Err Panic => raise e | _ => r end.
#[export] Instance failure_eq_dec `{EqDecision E} : EqDecision (failure E).
Proof. solve_decision. Defined.

Inductive ExecError : Type :=
| NotImplemented (msg : string)
| StorageErr (msg : string)
| TypeError (msg : string)
| ExpressionError (msg : string)
| Internal (msg : string).
#[export] Instance ExecError_eq_dec : EqDecision ExecError.
Proof. solve_decision. Defined.
Definition ExecError_fmt (e : ExecError) : string :=
  match e with
  | NotImplemented msg => "not implemented: " +:+ msg
  | StorageErr msg => "storage error: " +:+ msg
  | TypeError msg => "type error: " +:+ msg
  | ExpressionError msg => "expression error: " +:+ msg
  | Internal msg => "internal error: " +:+ msg
  end.
(** The computations of the executor. *)
Abbreviation exec A := (may_panic ExecError A).

(** ** Machine integers *)
Definition wrap_signed (lo modulus z : Z) : Z := (z - lo) mod modulus + lo.
(** The result of an arithmetic operator of type [i64] ([i32]) whose exact value is [z]. *)
Definition i64_op `{Platform} {E} (z : Z) : may_panic E Z :=
  if in_i64 z then Ok z else if overflow_checks then panic else Ok (wrap_signed i64_min two64 z).
Definition in_i32 (z : Z) : bool := (i32_min <=? z) && (z <=? i32_max).
Definition is_i32 (z : Z) : Prop := i32_min ≤ z ≤ i32_max.
Definition i32_op `{Platform} {E} (z : Z) : may_panic E Z :=
  if in_i32 z then Ok z else if overflow_checks then panic else Ok (wrap_signed i32_min (2 ^ 32) z).

Lemma in_i64_spec z : in_i64 z = true ↔ is_i64 z.
Proof. unfold in_i64, is_i64. lia. Qed.
Lemma wrap_i64_range z : is_i64 (wrap_signed i64_min two64 z).
Proof.
  unfold wrap_signed, is_i64, i64_min, i64_max, two64.
  pose proof (Z.mod_pos_bound (z - - 2 ^ 63) (2 ^ 64) ltac:(lia)). lia.
Qed.
Lemma wrap_i32_range z : is_i32 (wrap_signed i32_min (2 ^ 32) z).
Proof.
  unfold wrap_signed, is_i32, i32_min, i32_max.
  pose proof (Z.mod_pos_bound (z - - 2 ^ 31) (2 ^ 32) ltac:(lia)). lia.
Qed.
Lemma i64_op_range `{Platform} {E} z v : i64_op (E:=E) z = Ok v → is_i64 v.
Proof.
  unfold i64_op. destruct (in_i64 z) eqn:Hz; [intros [= <-]; by apply in_i64_spec|].
  destruct overflow_checks; [done|]. intros [= <-]. apply wrap_i64_range.
Qed.
Lemma i32_op_range `{Platform} {E} z v : i32_op (E:=E) z = Ok v → is_i32 v.
Proof.
  unfold i32_op. destruct (in_i32 z) eqn:Hz; [intros [= <-]; unfold in_i32, is_i32 in *; lia|].
  destruct overflow_checks; [done|]. intros [= <-]. apply wrap_i32_range.
Qed.
#[export] Hint Resolve wrap_i64_range wrap_i32_range : synaptica.

(** ** Equality of values ([PartialEq]): floats are compared as numbers *)
Definition time_eqb (a b : NaiveTime) : bool := (time_secs a =? time_secs b) && (time_nanos a =? time_nanos b).
Fixpoint list_eqb {A} (eqb : A → A → bool) (l k : list A) : bool :=
  match l, k with
  | [], [] => true
  | a :: l', b :: k' => eqb a b && list_eqb eqb l' k'
  | _, _ => false
  end.
Fixpoint Value_eqb (v w : Value) {struct v} : bool :=
  let entries := fix entries (m n : list (string * Value)) : bool :=
    match m, n with
    | [], [] => true
    | (k, a) :: m', (k', b) :: n' => String.eqb k k' && Value_eqb a b && entries m' n'
    | _, _ => false
    end in
  match v, w with
  | Null, Null => true
  | Bool a, Bool b => Bool.eqb a b
  | Integer a, Integer b => a =? b
  | Float a, Float b => f64_eqb a b
  | Str a, Str b => String.eqb a b
  | Bytes a, Bytes b => bool_decide (a = b)
  | Date a, Date b => a =? b
  | Time a, Time b => time_eqb a b
  | Timestamp a, Timestamp b => (dt_date a =? dt_date b) && time_eqb (dt_time a) (dt_time b)
  | DurationV a, DurationV b => (months a =? months b) && (days a =? days b) && (nanos a =? nanos b)
  | ListV a, ListV b => list_eqb Value_eqb a b
  | MapV a, MapV b => entries a b
  | NodeV i l p, NodeV i' l' p' => String.eqb i i' && bool_decide (l = l') && entries p p'
  | EdgeV i l s t p, EdgeV i' l' s' t' p' =>
      String.eqb i i' && String.eqb l l' && String.eqb s s' && String.eqb t t' && entries p p'
  | _, _ => false
  end.
(** Comparing with a boolean constant, as the evaluator does, is a pattern match. *)
Lemma Value_eqb_bool v b : Value_eqb v (Bool b) = match v with Bool a => Bool.eqb a b | _ => false end.
Proof. by destruct v. Qed.
Lemma Value_eqb_null v : Value_eqb v Null = is_null v.
Proof. by destruct v. Qed.

(** ** Records *)
Record Record_ := mkRecord { columns : list string; values : list Value }.
Definition Record_new (columns : list string) (values : list Value) : Record_ := mkRecord columns values.
(** [iter().position(|c| c == name)] *)
Fixpoint position (name : string) (cols : list string) : option nat :=
  match cols with
  | [] => None
  | c :: cols' => if String.eqb c name then Some 0%nat else S <$> position name cols'
  end.
(** [Record::get]: a record with fewer values than columns makes it panic. *)
Definition Record_get {E} (r : Record_) (name : string) : may_panic E (option Value) :=
  match position name (columns r) with
  | None => Ok None
  | Some i => match values r !! i with Some v => Ok (Some v) | None => panic end
  end.

(** ** Result sets *)
Record ResultSet := mkResultSet {
  rs_columns : list string;
  rs_records : list Record_;
  shared_columns : list string
}.
Definition ResultSet_new (columns : list string) : ResultSet := mkResultSet columns [] columns.
Definition add_record (values : list Value) (rs : ResultSet) : ResultSet :=
  mkResultSet (rs_columns rs) (rs_records rs ++ [mkRecord (shared_columns rs) values]) (shared_columns rs).
Definition rs_is_empty (rs : ResultSet) : bool := match rs_records rs with [] => true | _ => false end.
Definition rs_len (rs : ResultSet) : nat := length (rs_records rs).
Definition column_index (rs : ResultSet) (name : string) : option nat := position name (rs_columns rs).

(** [fmt::Display for ResultSet]: columns are as wide as their longest text in bytes, and
    [{:width$}] pads to that many characters. *)
Section display.
Context `{Platform}.
Definition fmt_value (v : Value) : string := Value_fmt f64_fmt date_fmt time_fmt datetime_fmt v.
Definition pad (s : string) (width : nat) : string :=
  s +:+ String.concat EmptyString (replicate (width - length (chars s)) " "%string).
Fixpoint widen (widths : list nat) (vs : list Value) : list nat :=
  match widths, vs with
  | w :: widths', v :: vs' => Nat.max w (str_len (fmt_value v)) :: widen widths' vs'
  | _, _ => widths
  end.
Fixpoint fmt_row (widths : list nat) (vs : list Value) : list string :=
  match vs with
  | [] => []
  | v :: vs' =>
      match widths with
      | w :: widths' => pad (fmt_value v) w :: fmt_row widths' vs'
      | [] => fmt_value v :: fmt_row [] vs'
      end
  end.
Definition newline : string := String (Ascii.ascii_of_nat 10) EmptyString.
Definition ResultSet_fmt (rs : ResultSet) : string :=
  match rs_columns rs with
  | [] => "(empty)"
  | cols =>
      let widths := foldl (λ ws r, widen ws (values r)) (str_len <$> cols) (rs_records rs) in
      String.concat " | " (zip_with pad cols widths) +:+ newline
      +:+ String.concat "-+-" ((λ w, String.concat EmptyString (replicate w "-"%string)) <$> widths) +:+ newline
      +:+ String.concat EmptyString
            ((λ r, String.concat " | " (fmt_row widths (values r)) +:+ newline) <$> rs_records rs)
  end.
End display.

(** ** Facts *)
Lemma position_Some name cols i : position name cols = Some i →
  cols !! i = Some name ∧ ∀ j, (j < i)%nat → cols !! j ≠ Some name.
Proof.
  revert i. induction cols as [|c cols IH]; cbn; [done|]. intros i.
  destruct (String.eqb_spec c name) as [->|Hne].
  - intros [= <-]. split; [done|lia].
  - destruct (position name cols) as [i'|] eqn:Hp; cbn; [|done]. intros [= <-].
    destruct (IH i' eq_refl) as [H1 H2]. split; [done|]. intros [|j] Hj; cbn; [congruence|]. apply H2. lia.
Qed.
Lemma position_None name cols : position name cols = None ↔ name ∉ cols.
Proof.
  induction cols as [|c cols IH]; cbn; [split; [set_solver|done]|].
  destruct (String.eqb_spec c name) as [->|Hne]; [set_solver|].
  destruct (position name cols); cbn; set_solver.
Qed.
(** A record is well-formed when it has a value for each column. *)
Definition record_wf (r : Record_) : Prop := length (values r) = length (columns r).
Lemma Record_get_total {E} r name : record_wf r → ∃ o, Record_get (E:=E) r name = Ok o ∧ (o = None ↔ name ∉ columns r).
Proof.
  intros Hwf. unfold Record_get. destruct (position name (columns r)) as [i|] eqn:Hp.
  - destruct (position_Some _ _ _ Hp) as [Hi _].
    destruct (lookup_lt_is_Some_2 (values r) i) as [v Hv]; [rewrite Hwf; by eapply lookup_lt_Some|].
    rewrite Hv. exists (Some v). split; [done|]. split; [done|]. intros Hn. destruct Hn. by eapply list_elem_of_lookup_2.
  - exists None. split; [done|]. by rewrite position_None in Hp.
Qed.
