(* ===== verification/Ast.v ===== *)
(** * The syntax tree of the query language (synaptica-gql: ast.rs)

    The source's structs and enums with their fields in order. An expression may hold a statement
    (EXISTS, scalar subquery) or a path pattern, and statements and patterns hold expressions, so
    most types are one mutual definition; a struct inside it is an inductive type with one
    constructor. The enums and structs that hold no expression come first. Variants are prefixed
    by the enum they belong to ([E] expressions, [L] literals, [S] statements, [Op], [Agg], ...)
    because several enums of the program share variant names. *)
From S2P Require Import Prelude Types.

(** ** Enums and structs without expressions *)
Inductive SetOp := OpUnion | OpIntersect | OpExcept.
Inductive PathMode := Walk | Trail | Simple | Acyclic.
Inductive Direction := Outgoing | Incoming | Undirected.
Inductive ShortestPathMode := Shortest | AllShortest | AnyShortestPath.
Inductive BinaryOp :=
| OpAdd | OpSub | OpMul | OpDiv | OpMod
| OpAnd | OpOr | OpXor
| OpConcat
| OpEq | OpNeq | OpLt | OpGt | OpLe | OpGe.
Inductive UnaryOp := OpNot | OpNeg | OpPos.
Inductive AggregateFunction :=
| AggCount | AggSum | AggAvg | AggMin | AggMax | AggCollect | AggStdDev | AggPercentile.
Inductive SortDirection := Asc | Desc.

#[export] Instance SetOp_eq_dec : EqDecision SetOp. Proof. solve_decision. Defined.
#[export] Instance PathMode_eq_dec : EqDecision PathMode. Proof. solve_decision. Defined.
#[export] Instance Direction_eq_dec : EqDecision Direction. Proof. solve_decision. Defined.
#[export] Instance ShortestPathMode_eq_dec : EqDecision ShortestPathMode. Proof. solve_decision. Defined.
#[export] Instance BinaryOp_eq_dec : EqDecision BinaryOp. Proof. solve_decision. Defined.
#[export] Instance UnaryOp_eq_dec : EqDecision UnaryOp. Proof. solve_decision. Defined.
#[export] Instance AggregateFunction_eq_dec : EqDecision AggregateFunction. Proof. solve_decision. Defined.
#[export] Instance SortDirection_eq_dec : EqDecision SortDirection. Proof. solve_decision. Defined.

(** [{min, max}], both [Option<u64>] *)
Record Quantifier := mkQuantifier { q_min : option Z; q_max : option Z }.

Inductive Literal :=
| LInteger (i : Z)
| LFloat (f : f64)
| LString (s : string)
| LBool (b : bool)
| LNull
| LDate (s : string)
| LTime (s : string)
| LTimestamp (s : string)
| LDuration (s : string)
| LList (items : list Literal)
| LMap (entries : list (string * Literal)).

Record PropertyDecl := mkPropertyDecl {
  decl_name : string;
  property_type : string;
  required : bool
}.
Record NodeType := mkNodeType { nt_labels : list string; nt_properties : list PropertyDecl }.
Record EdgeType := mkEdgeType {
  et_labels : list string;
  et_source : list string;
  et_destination : list string;
  et_direction : Direction;
  et_properties : list PropertyDecl
}.
Record GraphType := mkGraphType { node_types : list NodeType; edge_types : list EdgeType }.
Record CreateGraphStatement := mkCreateGraph {
  cg_name : string;
  cg_if_not_exists : bool;
  cg_graph_type : option GraphType
}.
Record DropGraphStatement := mkDropGraph { dg_name : string; dg_if_exists : bool }.
Record CreateGraphTypeStatement := mkCreateGraphType {
  cgt_name : string;
  cgt_if_not_exists : bool;
  cgt_graph_type : GraphType
}.
Record CreateIndexStatement := mkCreateIndex {
  ci_name : string;
  ci_unique : bool;
  ci_entity_type : string;
  ci_label : option string;
  ci_property_names : list string;
  ci_if_not_exists : bool
}.
Record DropIndexStatement := mkDropIndex { di_name : string; di_if_exists : bool }.

(** ** Expressions, patterns, clauses and statements *)
Inductive Expression : Type :=
| ELiteral (lit : Literal)
| EIdentifier (name : string)
| EPropertyAccess (object : Expression) (property : string)
| EFunctionCall (name : string) (args : list Expression)
| EBinaryOp (left : Expression) (op : BinaryOp) (right : Expression)
| EUnaryOp (op : UnaryOp) (operand : Expression)
| ECase (operand : option Expression) (when_clauses : list (Expression * Expression))
    (else_clause : option Expression)
| EExists (subquery : GqlStatement)
| EAggregate (function : AggregateFunction) (distinct : bool) (arg : option Expression)
| EList (exprs : list Expression)
| EMap (entries : list (string * Expression))
| EParameter (name : string)
| ESubquery (subquery : GqlStatement)
| EIsNull (inner : Expression)
| EIsNotNull (inner : Expression)
| EIn (operand list : Expression)
| ELike (operand pattern : Expression)
| ETypeCast (expr : Expression) (target_type : string)
| EPath (path : PathPattern)

with WhereClause : Type :=
| mkWhere (condition : Expression)
with OrderByItem : Type :=
| mkOrderByItem (expression : Expression) (direction : SortDirection)
with OrderByClause : Type :=
| mkOrderBy (items : list OrderByItem)
with LimitOffsetClause : Type :=
| mkLimitOffset (limit offset : option Expression)
with GroupByClause : Type :=
| mkGroupBy (expressions : list Expression)
with HavingClause : Type :=
| mkHaving (condition : Expression)
with ReturnItem : Type :=
| mkReturnItem (expression : Expression) (alias : option string)

with NodePattern : Type :=
| mkNodePattern (variable : option string) (labels : list string)
    (properties : list (string * Expression))
with EdgePattern : Type :=
| mkEdgePattern (variable : option string) (direction : Direction) (labels : list string)
    (properties : list (string * Expression)) (quantifier : option Quantifier)
with PatternElement : Type :=
| PNode (n : NodePattern)
| PEdge (e : EdgePattern)
with PathPattern : Type :=
| mkPathPattern (variable : option string) (mode : option PathMode)
    (shortest : option ShortestPathMode) (elements : list PatternElement)
    (quantifier : option Quantifier) (where_clause : option WhereClause)
with GraphPattern : Type :=
| mkGraphPattern (paths : list PathPattern) (mode : option PathMode)

with MatchStatement : Type :=
| mkMatch (graph : option string) (optional : bool) (pattern : GraphPattern)
    (where_clause : option WhereClause) (order_by : option OrderByClause)
    (limit_offset : option LimitOffsetClause)
with ReturnStatement : Type :=
| mkReturn (distinct : bool) (items : list ReturnItem) (group_by : option GroupByClause)
    (having : option HavingClause) (order_by : option OrderByClause)
    (limit_offset : option LimitOffsetClause)
with WithStatement : Type :=
| mkWith (distinct : bool) (items : list ReturnItem) (where_clause : option WhereClause)
    (order_by : option OrderByClause) (limit_offset : option LimitOffsetClause)
with InsertStatement : Type :=
| mkInsert (patterns : list PathPattern)
with SetItem : Type :=
| SetItemProperty (target : Expression) (property : string) (value : Expression)
| SetItemLabel (target : Expression) (label : string)
| SetItemAllProperties (target value : Expression)
with SetStatement : Type :=
| mkSet (items : list SetItem)
with DeleteStatement : Type :=
| mkDelete (detach : bool) (targets : list Expression)
with RemoveItem : Type :=
| RemoveItemProperty (target : Expression) (property : string)
| RemoveItemLabel (target : Expression) (label : string)
with RemoveStatement : Type :=
| mkRemove (items : list RemoveItem)
with CallStatement : Type :=
| mkCall (procedure : string) (arguments : list Expression) (yield_items : option (list string))
with SetOperand : Type :=
| OperandQuery (query : list GqlStatement)
| OperandSetOp (operation : SetOperation)
with SetOperation : Type :=
| mkSetOperation (op : SetOp) (all : bool) (left right : SetOperand)
with CompositeQueryStatement : Type :=
| mkCompositeQuery (body : SetOperation) (order_by : option OrderByClause)
    (limit_offset : option LimitOffsetClause)
with GqlStatement : Type :=
| SMatch (m : MatchStatement)
| SReturn (r : ReturnStatement)
| SInsert (i : InsertStatement)
| SSet (s : SetStatement)
| SDelete (d : DeleteStatement)
| SRemove (r : RemoveStatement)
| SCreateGraph (c : CreateGraphStatement)
| SDropGraph (d : DropGraphStatement)
| SCreateGraphType (c : CreateGraphTypeStatement)
| SCall (c : CallStatement)
| SWith (w : WithStatement)
| SCompositeQuery (c : CompositeQueryStatement)
| SCreateIndex (c : CreateIndexStatement)
| SDropIndex (d : DropIndexStatement)
| SListGraphs.

Record GqlProgram := mkProgram { statements : list GqlStatement }.

(** Clauses the grammar defines and no statement holds. *)
Record WithClause := mkWithClause {
  wc_distinct : bool;
  wc_items : list ReturnItem;
  wc_where_clause : option WhereClause;
  wc_order_by : option OrderByClause;
  wc_limit_offset : option LimitOffsetClause
}.
Record LetClause := mkLetClause { let_variable : string; let_value : Expression }.
Record ForClause := mkForClause { for_variable : string; for_list : Expression; for_body : list GqlStatement }.
Record FilterClause := mkFilterClause { filter_condition : Expression }.

(** ** Induction over literals and expressions, with hypotheses for the nested ones

    A statement or pattern inside an expression is a leaf: no operation on expressions of the
    program enters it. *)
Section literal_ind.
Variable P : Literal → Prop.
Hypothesis HInteger : ∀ i, P (LInteger i).
Hypothesis HFloat : ∀ f, P (LFloat f).
Hypothesis HString : ∀ s, P (LString s).
Hypothesis HBool : ∀ b, P (LBool b).
Hypothesis HNull : P LNull.
Hypothesis HDate : ∀ s, P (LDate s).
Hypothesis HTime : ∀ s, P (LTime s).
Hypothesis HTimestamp : ∀ s, P (LTimestamp s).
Hypothesis HDuration : ∀ s, P (LDuration s).
Hypothesis HList : ∀ l, Forall P l → P (LList l).
Hypothesis HMap : ∀ m, Forall (λ kv, P kv.2) m → P (LMap m).
Fixpoint Literal_tree_ind (l : Literal) : P l :=
  match l with
  | LInteger i => HInteger i | LFloat f => HFloat f | LString s => HString s | LBool b => HBool b
  | LNull => HNull | LDate s => HDate s | LTime s => HTime s | LTimestamp s => HTimestamp s
  | LDuration s => HDuration s
  | LList l => HList l ((fix go l : Forall P l :=
      match l with [] => Forall_nil_2 _ | w :: l' => Forall_cons_2 _ w l' (Literal_tree_ind w) (go l') end) l)
  | LMap m => HMap m ((fix go m : Forall (λ kv, P kv.2) m :=
      match m with [] => Forall_nil_2 _ | (k, w) :: m' => Forall_cons_2 _ (k, w) m' (Literal_tree_ind w) (go m') end) m)
  end.
End literal_ind.

(** A property of an optional part. *)
Definition option_holds {A} (P : A → Prop) (o : option A) : Prop := match o with Some a => P a | None => True end.

Section expression_ind.
Variable P : Expression → Prop.
Hypothesis HLiteral : ∀ lit, P (ELiteral lit).
Hypothesis HIdentifier : ∀ name, P (EIdentifier name).
Hypothesis HPropertyAccess : ∀ object property, P object → P (EPropertyAccess object property).
Hypothesis HFunctionCall : ∀ name args, Forall P args → P (EFunctionCall name args).
Hypothesis HBinaryOp : ∀ left op right, P left → P right → P (EBinaryOp left op right).
Hypothesis HUnaryOp : ∀ op operand, P operand → P (EUnaryOp op operand).
Hypothesis HCase : ∀ operand when_clauses else_clause, option_holds P operand →
  Forall (λ wt, P wt.1 ∧ P wt.2) when_clauses → option_holds P else_clause →
  P (ECase operand when_clauses else_clause).
Hypothesis HExists : ∀ q, P (EExists q).
Hypothesis HAggregate : ∀ function distinct arg, option_holds P arg → P (EAggregate function distinct arg).
Hypothesis HList : ∀ exprs, Forall P exprs → P (EList exprs).
Hypothesis HMap : ∀ entries, Forall (λ kv, P kv.2) entries → P (EMap entries).
Hypothesis HParameter : ∀ name, P (EParameter name).
Hypothesis HSubquery : ∀ q, P (ESubquery q).
Hypothesis HIsNull : ∀ inner, P inner → P (EIsNull inner).
Hypothesis HIsNotNull : ∀ inner, P inner → P (EIsNotNull inner).
Hypothesis HIn : ∀ operand list, P operand → P list → P (EIn operand list).
Hypothesis HLike : ∀ operand pattern, P operand → P pattern → P (ELike operand pattern).
Hypothesis HTypeCast : ∀ expr t, P expr → P (ETypeCast expr t).
Hypothesis HPath : ∀ p, P (EPath p).
Fixpoint Expression_tree_ind (e : Expression) : P e :=
  let optional o : option_holds P o :=
    match o with Some a => Expression_tree_ind a | None => I end in
  let all := fix all l : Forall P l :=
    match l with [] => Forall_nil_2 _ | a :: l' => Forall_cons_2 _ a l' (Expression_tree_ind a) (all l') end in
  match e with
  | ELiteral lit => HLiteral lit
  | EIdentifier name => HIdentifier name
  | EPropertyAccess object property => HPropertyAccess object property (Expression_tree_ind object)
  | EFunctionCall name args => HFunctionCall name args (all args)
  | EBinaryOp l op r => HBinaryOp l op r (Expression_tree_ind l) (Expression_tree_ind r)
  | EUnaryOp op operand => HUnaryOp op operand (Expression_tree_ind operand)
  | ECase operand when_clauses else_clause =>
      HCase operand when_clauses else_clause (optional operand)
        ((fix go l : Forall (λ wt, P wt.1 ∧ P wt.2) l :=
            match l with
            | [] => Forall_nil_2 _
            | (w, t) :: l' =>
                Forall_cons_2 _ (w, t) l' (conj (Expression_tree_ind w) (Expression_tree_ind t)) (go l')
            end) when_clauses)
        (optional else_clause)
  | EExists q => HExists q
  | EAggregate function distinct arg => HAggregate function distinct arg (optional arg)
  | EList exprs => HList exprs (all exprs)
  | EMap entries =>
      HMap entries ((fix go m : Forall (λ kv, P kv.2) m :=
        match m with [] => Forall_nil_2 _ | (k, a) :: m' => Forall_cons_2 _ (k, a) m' (Expression_tree_ind a) (go m') end) entries)
  | EParameter name => HParameter name
  | ESubquery q => HSubquery q
  | EIsNull inner => HIsNull inner (Expression_tree_ind inner)
  | EIsNotNull inner => HIsNotNull inner (Expression_tree_ind inner)
  | EIn a l => HIn a l (Expression_tree_ind a) (Expression_tree_ind l)
  | ELike a p => HLike a p (Expression_tree_ind a) (Expression_tree_ind p)
  | ETypeCast expr t => HTypeCast expr t (Expression_tree_ind expr)
  | EPath p => HPath p
  end.
End expression_ind.
