(* ===== verification/Expression.v ===== *)
(** * Expression evaluation (synaptica-exec: expression.rs)

    [evaluate] of an expression in a record, with the operators, the built-in functions and the
    parser of ISO 8601 durations. An evaluation yields a value, raises an [ExecError], or panics;
    integer overflow depends on how the crate is built ([overflow_checks]). *)
From S2P Require Import Prelude Types Lexer F64 Text Records Ast.
From Stdlib Require Import Ascii.

Section expression.
Context `{Platform, Unicode}.

(** ** Literals *)
Definition literal_index (lit : Literal) : Z :=
  match lit with
  | LInteger _ => 0 | LFloat _ => 1 | LString _ => 2 | LBool _ => 3 | LNull => 4 | LDate _ => 5 | LTime _ => 6
  | LTimestamp _ => 7 | LDuration _ => 8 | LList _ => 9 | LMap _ => 10
  end.
Definition expression_index (e : Expression) : Z :=
  match e with
  | ELiteral _ => 0 | EIdentifier _ => 1 | EPropertyAccess _ _ => 2 | EFunctionCall _ _ => 3 | EBinaryOp _ _ _ => 4
  | EUnaryOp _ _ => 5 | ECase _ _ _ => 6 | EExists _ => 7 | EAggregate _ _ _ => 8 | EList _ => 9 | EMap _ => 10
  | EParameter _ => 11 | ESubquery _ => 12 | EIsNull _ => 13 | EIsNotNull _ => 14 | EIn _ _ => 15
  | ELike _ _ => 16 | ETypeCast _ _ => 17 | EPath _ => 18
  end.
(** [format!("{:?}", std::mem::discriminant(_))] *)
Definition discriminant (i : Z) : string := "Discriminant(" +:+ pretty i +:+ ")".

Fixpoint eval_literal (lit : Literal) : exec Value :=
  match lit with
  | LInteger i => Ok (Integer i)
  | LFloat f => Ok (Float f)
  | LString s => Ok (Str s)
  | LBool b => Ok (Bool b)
  | LNull => Ok Null
  | LList items =>
      vs ← (fix go l : exec (list Value) :=
              match l with [] => Ok [] | a :: l' => v ← eval_literal a; vs ← go l'; Ok (v :: vs) end) items;
      Ok (ListV vs)
  | LMap entries =>
      m ← (fix go l (map : list (string * Value)) : exec (list (string * Value)) :=
             match l with
             | [] => Ok map
             | (k, a) :: l' => v ← eval_literal a; go l' (btree_insert k v map)
             end) entries [];
      Ok (MapV m)
  | _ => raise (NotImplemented ("literal: " +:+ discriminant (literal_index lit)))
  end.

(** ** Operators *)
Definition eval_comparison (lv : Value) (op : BinaryOp) (rv : Value) : exec Value :=
  let compared (ord : option comparison) : exec Value :=
    match ord with
    | None => Ok Null
    | Some o =>
        match op with
        | OpLt => Ok (Bool (match o with Lt => true | _ => false end))
        | OpGt => Ok (Bool (match o with Gt => true | _ => false end))
        | OpLe => Ok (Bool (match o with Gt => false | _ => true end))
        | OpGe => Ok (Bool (match o with Lt => false | _ => true end))
        | _ => panic
        end
    end in
  match lv, rv with
  | Integer a, Integer b => compared (Some (a ?= b))
  | Float a, Float b => compared (f64_compare a b)
  | Integer a, Float b => compared (f64_compare (f64_of_i64 a) b)
  | Float a, Integer b => compared (f64_compare a (f64_of_i64 b))
  | Str a, Str b => compared (Some (if String.eqb a b then Eq else if str_ltb a b then Lt else Gt))
  | Null, _ | _, Null => Ok Null
  | _, _ => raise (TypeError ("cannot compare " +:+ type_name lv +:+ " and " +:+ type_name rv))
  end.

Definition eval_arithmetic (lv rv : Value) (int_op : Z → Z → exec Z) (float_op : f64 → f64 → f64) : exec Value :=
  match lv, rv with
  | Integer a, Integer b =>
      Integer <$> catch_unwind (ExpressionError "integer arithmetic overflow") (int_op a b)
  | Float a, Float b => Ok (Float (float_op a b))
  | Integer a, Float b => Ok (Float (float_op (f64_of_i64 a) b))
  | Float a, Integer b => Ok (Float (float_op a (f64_of_i64 b)))
  | _, _ => raise (TypeError ("cannot perform arithmetic on " +:+ type_name lv +:+ " and " +:+ type_name rv))
  end.
(** The integer operators of the language: [/] and [%] truncate and panic, in every build, on a
    zero divisor and when the quotient overflows. *)
Definition int_add (a b : Z) : exec Z := i64_op (a + b).
Definition int_sub (a b : Z) : exec Z := i64_op (a - b).
Definition int_mul (a b : Z) : exec Z := i64_op (a * b).
Definition int_div (a b : Z) : exec Z :=
  if (b =? 0) || negb (in_i64 (Z.quot a b)) then panic else Ok (Z.quot a b).
Definition int_rem (a b : Z) : exec Z :=
  if (b =? 0) || negb (in_i64 (Z.quot a b)) then panic else Ok (Z.rem a b).
(** The check before [/] and [%]. *)
Definition is_zero (rv : Value) : bool :=
  match rv with Integer b => b =? 0 | Float f => f64_eqb f 0 | _ => false end.

Definition eval_binary_op (lv : Value) (op : BinaryOp) (rv : Value) : exec Value :=
  match op with
  | OpEq => Ok (Bool (Value_eqb lv rv))
  | OpNeq => Ok (Bool (negb (Value_eqb lv rv)))
  | OpLt | OpGt | OpLe | OpGe => eval_comparison lv op rv
  | OpAdd => eval_arithmetic lv rv int_add f64_add
  | OpSub => eval_arithmetic lv rv int_sub f64_sub
  | OpMul => eval_arithmetic lv rv int_mul f64_mul
  | OpDiv =>
      if is_zero rv then raise (ExpressionError "division by zero")
      else eval_arithmetic lv rv int_div f64_div
  | OpMod =>
      if is_zero rv then raise (ExpressionError "modulo by zero")
      else eval_arithmetic lv rv int_rem f64_rem
  | OpAnd =>
      match lv, rv with
      | Bool false, _ | _, Bool false => Ok (Bool false)
      | Bool true, Bool true => Ok (Bool true)
      | _, _ => Ok Null
      end
  | OpOr =>
      match lv, rv with
      | Bool true, _ | _, Bool true => Ok (Bool true)
      | Bool false, Bool false => Ok (Bool false)
      | _, _ => Ok Null
      end
  | OpXor =>
      match lv, rv with
      | Bool a, Bool b => Ok (Bool (xorb a b))
      | _, _ => Ok Null
      end
  | OpConcat =>
      match lv, rv with
      | Str a, Str b => Ok (Str (a +:+ b))
      | ListV a, ListV b => Ok (ListV (a ++ b))
      | _, _ => raise (TypeError ("cannot concatenate " +:+ type_name lv +:+ " and " +:+ type_name rv))
      end
  end.

Definition eval_unary_op (op : UnaryOp) (v : Value) : exec Value :=
  match op with
  | OpNot =>
      match v with
      | Bool b => Ok (Bool (negb b))
      | Null => Ok Null
      | _ => raise (TypeError ("NOT requires boolean, got " +:+ type_name v))
      end
  | OpNeg =>
      match v with
      | Integer i =>
          if in_i64 (- i) then Ok (Integer (- i)) else raise (ExpressionError "integer overflow in negation")
      | Float f => Ok (Float (f64_neg f))
      | Null => Ok Null
      | _ => raise (TypeError ("cannot negate " +:+ type_name v))
      end
  | OpPos =>
      match v with
      | Integer _ | Float _ => Ok v
      | Null => Ok Null
      | _ => raise (TypeError ("cannot apply unary + to " +:+ type_name v))
      end
  end.

(** ** ISO 8601 durations

    The text's characters are consumed one by one; [num_buf] collects those of a number. *)
Record duration_acc := mkAcc { num_buf : text; acc_months : Z; acc_days : Z; acc_nanos : Z }.
Definition push_char (ch : Z) (a : duration_acc) : duration_acc :=
  mkAcc (num_buf a ++ [ch]) (acc_months a) (acc_days a) (acc_nanos a).
Definition add_months (n : Z) (a : duration_acc) : may_panic string duration_acc :=
  m ← i32_op (acc_months a + n); Ok (mkAcc [] m (acc_days a) (acc_nanos a)).
Definition add_days (n : Z) (a : duration_acc) : may_panic string duration_acc :=
  d ← i32_op (acc_days a + n); Ok (mkAcc [] (acc_months a) d (acc_nanos a)).
Definition add_nanos (n : Z) (a : duration_acc) : may_panic string duration_acc :=
  z ← i64_op (acc_nanos a + n); Ok (mkAcc [] (acc_months a) (acc_days a) z).
Definition or_raise {A} (msg : string) (o : option A) : may_panic string A := ok_or (Raised msg) o.
Definition char_string (ch : Z) : string := string_of_chars [ch].

Definition date_char (ch : Z) (a : duration_acc) : may_panic string duration_acc :=
  if is_ascii_digit ch || (ch =? chr "-") then Ok (push_char ch a)
  else
    n ← or_raise ("invalid number in duration: " +:+ string_of_chars (num_buf a)) (str_parse_i32 (num_buf a));
    if ch =? chr "Y" then k ← i32_op (n * 12); add_months k a
    else if ch =? chr "M" then add_months n a
    else if ch =? chr "D" then add_days n a
    else if ch =? chr "W" then k ← i32_op (n * 7); add_days k a
    else raise ("unexpected char '" +:+ char_string ch +:+ "' in duration date part").
Definition time_char (ch : Z) (a : duration_acc) : may_panic string duration_acc :=
  if is_ascii_digit ch || (ch =? chr ".") || (ch =? chr "-") then Ok (push_char ch a)
  else if ch =? chr "H" then
    n ← or_raise ("invalid hours: " +:+ string_of_chars (num_buf a)) (str_parse_i64 (num_buf a));
    k ← i64_op (n * 3600000000000); add_nanos k a
  else if ch =? chr "M" then
    n ← or_raise ("invalid minutes: " +:+ string_of_chars (num_buf a)) (str_parse_i64 (num_buf a));
    k ← i64_op (n * 60000000000); add_nanos k a
  else if ch =? chr "S" then
    n ← or_raise ("invalid seconds: " +:+ string_of_chars (num_buf a)) (str_parse_f64 (num_buf a));
    add_nanos (i64_of_f64 (f64_mul n (f64_of_i64 1000000000))) a
  else raise ("unexpected char '" +:+ char_string ch +:+ "' in duration time part").
(** [rest.find('T')] and the two slices around it *)
Fixpoint split_time (rest : text) : text * option text :=
  match rest with
  | [] => ([], None)
  | c :: rest' => if c =? chr "T" then ([], Some rest') else let '(d, t) := split_time rest' in (c :: d, t)
  end.
Definition parse_iso_duration (s : string) : may_panic string Duration :=
  match trim (chars s) with
  | [] => raise "duration must start with 'P'"
  | c :: rest =>
      if negb (c =? chr "P") then raise "duration must start with 'P'"
      else
        let '(date_part, time_part) := split_time rest in
        a ← for_each date_char date_part (mkAcc [] 0 0 0);
        a ← match time_part with
            | Some tp => for_each time_char tp (mkAcc [] (acc_months a) (acc_days a) (acc_nanos a))
            | None => Ok a
            end;
        Ok (Duration_new (acc_months a) (acc_days a) (acc_nanos a))
  end.

(** ** Built-in functions, on their first argument *)
Definition as_i64 (z : Z) : Z := wrap_signed i64_min two64 z.
Definition cannot_convert (s : string) (what : string) : ExecError :=
  TypeError ("cannot convert '" +:+ s +:+ "' to " +:+ what).
Definition fn_tointeger (v : Value) : exec Value :=
  match v with
  | Integer i => Ok (Integer i)
  | Float f => Ok (Integer (i64_of_f64 f))
  | Str s => Integer <$> ok_or (Raised (cannot_convert s "integer")) (str_parse_i64 (chars s))
  | Bool b => Ok (Integer (if b then 1 else 0))
  | Null => Ok Null
  | _ => raise (TypeError ("cannot convert " +:+ type_name v +:+ " to integer"))
  end.
Definition fn_tofloat (v : Value) : exec Value :=
  match v with
  | Float f => Ok (Float f)
  | Integer i => Ok (Float (f64_of_i64 i))
  | Str s => Float <$> ok_or (Raised (cannot_convert s "float")) (str_parse_f64 (chars s))
  | Null => Ok Null
  | _ => raise (TypeError ("cannot convert " +:+ type_name v +:+ " to float"))
  end.
Definition fn_size (v : Value) : exec Value :=
  match v with
  | Str s => Ok (Integer (as_i64 (Z.of_nat (length (chars s)))))
  | ListV l => Ok (Integer (as_i64 (Z.of_nat (length l))))
  | MapV m => Ok (Integer (as_i64 (Z.of_nat (length m))))
  | Null => Ok Null
  | _ => raise (TypeError ("size() not supported for " +:+ type_name v))
  end.
Definition fn_keys (v : Value) : exec Value :=
  match v with
  | MapV m | NodeV _ _ m => Ok (ListV (Str <$> m.*1))
  | Null => Ok Null
  | _ => raise (TypeError ("keys() not supported for " +:+ type_name v))
  end.
Definition fn_labels (v : Value) : exec Value :=
  match v with
  | NodeV _ labels _ => Ok (ListV (Str <$> labels))
  | ListV l => Ok (ListV l)
  | Null => Ok Null
  | _ => Ok (ListV [])
  end.
Definition fn_type (v : Value) : exec Value :=
  match v with
  | EdgeV _ label _ _ _ => Ok (Str label)
  | _ => Ok (Str (type_name v))
  end.
Definition or_else {E A} (r r' : result E A) : result E A := match r with Ok a => Ok a | Err _ => r' end.
Definition invalid (what s e : string) : ExecError := TypeError ("invalid " +:+ what +:+ " '" +:+ s +:+ "': " +:+ e).
Definition expects_string (name : string) (v : Value) : exec Value :=
  raise (TypeError (name +:+ "() expects a string, got " +:+ type_name v)).
Definition fn_date (v : Value) : exec Value :=
  match v with
  | Str s => Date <$> map_raised (invalid "date" s) (lift_result (NaiveDate_parse s "%Y-%m-%d"))
  | Null => Ok Null
  | _ => expects_string "DATE" v
  end.
Definition fn_time (v : Value) : exec Value :=
  match v with
  | Str s =>
      Time <$> map_raised (invalid "time" s)
        (lift_result (or_else (NaiveTime_parse s "%H:%M:%S") (NaiveTime_parse s "%H:%M")))
  | Null => Ok Null
  | _ => expects_string "TIME" v
  end.
Definition fn_datetime (v : Value) : exec Value :=
  match v with
  | Str s =>
      Timestamp <$> map_raised (invalid "datetime" s)
        (lift_result (or_else (or_else (NaiveDateTime_parse s "%Y-%m-%dT%H:%M:%S") (NaiveDateTime_parse s "%Y-%m-%d %H:%M:%S"))
           (NaiveDateTime_parse s "%Y-%m-%dT%H:%M")))
  | Null => Ok Null
  | _ => expects_string "DATETIME" v
  end.
Definition fn_duration (v : Value) : exec Value :=
  match v with
  | Str s => DurationV <$> map_raised (invalid "duration" s) (parse_iso_duration s)
  | Null => Ok Null
  | _ => expects_string "DURATION" v
  end.
Definition fn_id (v : Value) : exec Value := Ok v.
Definition fn_tostring (v : Value) : exec Value := Ok (Str (fmt_value v)).

Definition function_table : list (string * (Value → exec Value)) := [
  ("tostring"%string, fn_tostring); ("tointeger"%string, fn_tointeger); ("tofloat"%string, fn_tofloat);
  ("size"%string, fn_size); ("keys"%string, fn_keys); ("labels"%string, fn_labels); ("type"%string, fn_type);
  ("id"%string, fn_id); ("date"%string, fn_date); ("time"%string, fn_time); ("datetime"%string, fn_datetime);
  ("timestamp"%string, fn_datetime); ("duration"%string, fn_duration)
].
Fixpoint find_function (name : string) (table : list (string * (Value → exec Value))) : option (Value → exec Value) :=
  match table with
  | [] => None
  | (k, f) :: table' => if String.eqb name k then Some f else find_function name table'
  end.
Definition eval_function (name : string) (args : list Value) : exec Value :=
  match find_function (to_lowercase name) function_table with
  | Some f => f (default Null (head args))
  | None => raise (NotImplemented ("function: " +:+ name))
  end.

(** ** Evaluation *)
Definition property_of (obj : Value) (property : string) : Value :=
  match obj with
  | MapV m | NodeV _ _ m | EdgeV _ _ _ _ m => default Null (btree_get property m)
  | _ => Null
  end.
(** The columns [v.p] and [p] tried before the variable [v] is evaluated. *)
Definition property_columns (object : Expression) (property : string) (context : Record_) : exec (option Value) :=
  match object with
  | EIdentifier var =>
      o ← Record_get context (var +:+ "." +:+ property);
      match o with
      | Some v => Ok (Some v)
      | None => Record_get context property
      end
  | _ => Ok None
  end.

Fixpoint evaluate (expr : Expression) (context : Record_) {struct expr} : exec Value :=
  let evaluate_all := fix go (l : list Expression) : exec (list Value) :=
    match l with [] => Ok [] | e :: l' => v ← evaluate e context; vs ← go l'; Ok (v :: vs) end in
  match expr with
  | ELiteral lit => eval_literal lit
  | EIdentifier name =>
      o ← Record_get context name;
      match o with
      | Some v => Ok v
      | None => raise (ExpressionError ("unknown identifier: " +:+ name))
      end
  | EPropertyAccess object property =>
      o ← property_columns object property context;
      match o with
      | Some v => Ok v
      | None => obj ← evaluate object context; Ok (property_of obj property)
      end
  | EBinaryOp l op r =>
      lv ← evaluate l context;
      match op with
      | OpAnd =>
          if Value_eqb lv (Bool false) then Ok (Bool false)
          else
            rv ← evaluate r context;
            if Value_eqb rv (Bool false) then Ok (Bool false)
            else if Value_eqb lv (Bool true) && Value_eqb rv (Bool true) then Ok (Bool true)
            else Ok Null
      | OpOr =>
          if Value_eqb lv (Bool true) then Ok (Bool true)
          else
            rv ← evaluate r context;
            if Value_eqb rv (Bool true) then Ok (Bool true)
            else if Value_eqb lv (Bool false) && Value_eqb rv (Bool false) then Ok (Bool false)
            else Ok Null
      | _ => rv ← evaluate r context; eval_binary_op lv op rv
      end
  | EUnaryOp op operand => v ← evaluate operand context; eval_unary_op op v
  | EIsNull inner => v ← evaluate inner context; Ok (Bool (is_null v))
  | EIsNotNull inner => v ← evaluate inner context; Ok (Bool (negb (is_null v)))
  | EIn operand l =>
      val ← evaluate operand context;
      list_val ← evaluate l context;
      match list_val with
      | ListV items => Ok (Bool (existsb (λ item, Value_eqb item val) items))
      | _ => raise (TypeError "IN requires a list")
      end
  | EFunctionCall name args => evaluated_args ← evaluate_all args; eval_function name evaluated_args
  | EAggregate function _ arg =>
      match arg with
      | Some inner => evaluate inner context
      | None => match function with AggCount => Ok (Integer 1) | _ => Ok Null end
      end
  | EList exprs => vs ← evaluate_all exprs; Ok (ListV vs)
  | EMap entries =>
      m ← (fix go (l : list (string * Expression)) (map : list (string * Value)) : exec (list (string * Value)) :=
             match l with
             | [] => Ok map
             | (k, e) :: l' => v ← evaluate e context; go l' (btree_insert k v map)
             end) entries [];
      Ok (MapV m)
  | ECase operand when_clauses else_clause =>
      let otherwise : exec Value :=
        match else_clause with Some e => evaluate e context | None => Ok Null end in
      let arms := fix arms (test : Value → bool) (l : list (Expression * Expression)) : exec Value :=
        match l with
        | [] => otherwise
        | (when_expr, then_expr) :: l' =>
            w ← evaluate when_expr context;
            if test w then evaluate then_expr context else arms test l'
        end in
      match operand with
      | Some op => op_val ← evaluate op context; arms (λ w, Value_eqb op_val w) when_clauses
      | None => arms (λ w, Value_eqb w (Bool true)) when_clauses
      end
  | EExists _ | EParameter _ | ESubquery _ | ELike _ _ | ETypeCast _ _ | EPath _ =>
      raise (NotImplemented ("expression: " +:+ discriminant (expression_index expr)))
  end.

(** The loops of [evaluate], and its equations in terms of them. *)
Definition evaluate_all (context : Record_) : list Expression → exec (list Value) :=
  fix go (l : list Expression) : exec (list Value) :=
    match l with [] => Ok [] | e :: l' => v ← evaluate e context; vs ← go l'; Ok (v :: vs) end.
Definition evaluate_entries (context : Record_)
    : list (string * Expression) → list (string * Value) → exec (list (string * Value)) :=
  fix go (l : list (string * Expression)) (map : list (string * Value)) : exec (list (string * Value)) :=
    match l with
    | [] => Ok map
    | (k, e) :: l' => v ← evaluate e context; go l' (btree_insert k v map)
    end.
Definition evaluate_arms (context : Record_) (otherwise : exec Value) (test : Value → bool)
    : list (Expression * Expression) → exec Value :=
  fix arms (l : list (Expression * Expression)) : exec Value :=
    match l with
    | [] => otherwise
    | (when_expr, then_expr) :: l' =>
        w ← evaluate when_expr context;
        if test w then evaluate then_expr context else arms l'
    end.
Lemma evaluate_call name args r : evaluate (EFunctionCall name args) r = (vs ← evaluate_all r args; eval_function name vs).
Proof. done. Qed.
Lemma evaluate_list exprs r : evaluate (EList exprs) r = (vs ← evaluate_all r exprs; Ok (ListV vs)).
Proof. done. Qed.
Lemma evaluate_map entries r : evaluate (EMap entries) r = (m ← evaluate_entries r entries []; Ok (MapV m)).
Proof. done. Qed.
Lemma evaluate_case operand when_clauses else_clause r : evaluate (ECase operand when_clauses else_clause) r =
  let otherwise := match else_clause with Some e => evaluate e r | None => Ok Null end in
  match operand with
  | Some op => op_val ← evaluate op r; evaluate_arms r otherwise (λ w, Value_eqb op_val w) when_clauses
  | None => evaluate_arms r otherwise (λ w, Value_eqb w (Bool true)) when_clauses
  end.
Proof.
  assert (∀ otherwise test l,
    (fix arms (test : Value → bool) (l : list (Expression * Expression)) : exec Value :=
        match l with
        | [] => otherwise
        | (when_expr, then_expr) :: l' =>
            w ← evaluate when_expr r; if test w then evaluate then_expr r else arms test l'
        end) test l = evaluate_arms r otherwise test l) as Harms.
  { intros otherwise test. induction l as [|[w t] l IH]; [done|]. cbn. destruct (evaluate w r); [|done]. cbn. by rewrite IH. }
  cbv zeta. destruct operand; cbn [evaluate]; [destruct (evaluate e r); cbn; [|done]|]; apply Harms.
Qed.
End expression.

(** ** Machine widths: well-formed values, literals and expressions

    Integers are 64-bit, floats are 64 bits, the fields of a duration are 32, 32 and 64 bits. *)
Definition duration_wf (d : Duration) : Prop := is_i32 (months d) ∧ is_i32 (days d) ∧ is_i64 (nanos d).
Fixpoint value_wf (v : Value) : Prop :=
  let entries := fix entries (m : list (string * Value)) : Prop :=
    match m with [] => True | (_, w) :: m' => value_wf w ∧ entries m' end in
  match v with
  | Integer i => is_i64 i
  | Float f => is_f64 f
  | DurationV d => duration_wf d
  | ListV l => (fix all l : Prop := match l with [] => True | w :: l' => value_wf w ∧ all l' end) l
  | MapV m | NodeV _ _ m | EdgeV _ _ _ _ m => entries m
  | _ => True
  end.
Fixpoint literal_wf (l : Literal) : Prop :=
  match l with
  | LInteger i => is_i64 i
  | LFloat f => is_f64 f
  | LList items => (fix all l : Prop := match l with [] => True | a :: l' => literal_wf a ∧ all l' end) items
  | LMap entries => (fix all l : Prop := match l with [] => True | (_, a) :: l' => literal_wf a ∧ all l' end) entries
  | _ => True
  end.
(** A property of the literals of an expression; a property of its function names. *)
Fixpoint expression_all (lit : Literal → Prop) (fn : string → Prop) (e : Expression) : Prop :=
  let optional o := match o with Some a => expression_all lit fn a | None => True end in
  let all := fix all l : Prop := match l with [] => True | a :: l' => expression_all lit fn a ∧ all l' end in
  match e with
  | ELiteral l => lit l
  | EPropertyAccess a _ | EUnaryOp _ a | EIsNull a | EIsNotNull a | ETypeCast a _ => expression_all lit fn a
  | EFunctionCall name args => fn name ∧ all args
  | EBinaryOp a _ b | EIn a b | ELike a b => expression_all lit fn a ∧ expression_all lit fn b
  | ECase operand when_clauses else_clause =>
      optional operand ∧
      (fix go l : Prop :=
         match l with [] => True | (w, t) :: l' => (expression_all lit fn w ∧ expression_all lit fn t) ∧ go l' end)
        when_clauses ∧
      optional else_clause
  | EAggregate _ _ arg => optional arg
  | EList exprs => all exprs
  | EMap entries =>
      (fix go l : Prop := match l with [] => True | (_, a) :: l' => expression_all lit fn a ∧ go l' end) entries
  | _ => True
  end.
Definition expression_wf (e : Expression) : Prop := expression_all literal_wf (λ _, True) e.

Section expression_all.
Variables (lit : Literal → Prop) (fn : string → Prop).
Lemma expression_all_list exprs : expression_all lit fn (EList exprs) ↔ Forall (expression_all lit fn) exprs.
Proof. cbn. induction exprs as [|a l IH]; [done|]. by rewrite Forall_cons, IH. Qed.
Lemma expression_all_call name args :
  expression_all lit fn (EFunctionCall name args) ↔ fn name ∧ Forall (expression_all lit fn) args.
Proof. by rewrite <- expression_all_list. Qed.
Lemma expression_all_map entries :
  expression_all lit fn (EMap entries) ↔ Forall (λ kv, expression_all lit fn kv.2) entries.
Proof. cbn. induction entries as [|[k a] l IH]; [done|]. by rewrite Forall_cons, IH. Qed.
Lemma expression_all_case operand arms els : expression_all lit fn (ECase operand arms els) ↔
  option_holds (expression_all lit fn) operand ∧
  Forall (λ wt, expression_all lit fn wt.1 ∧ expression_all lit fn wt.2) arms ∧
  option_holds (expression_all lit fn) els.
Proof.
  cbn. apply and_iff_compat_l, and_iff_compat_r. induction arms as [|[w t] l IH]; [done|]. by rewrite Forall_cons, IH.
Qed.
Lemma expression_all_true : (∀ l, lit l) → (∀ n, fn n) → ∀ e, expression_all lit fn e.
Proof.
  intros Hl Hf e.
  induction e as [l|name|object property IH|name args IH|a op b IHa IHb|op a IH|operand arms els IHo IHw IHe
    |q|g distinct arg IH|exprs IH|entries IH|name|q|a IH|a IH|a l IHa IHl|a l IHa IHl|a t IH|p] using Expression_tree_ind;
    try done; try (by cbn); try (by split).
  - by apply expression_all_call.
  - by apply expression_all_case.
  - by apply expression_all_list.
  - by apply expression_all_map.
Qed.
End expression_all.
Lemma expression_all_impl (lit fn lit' fn' : _ → Prop) e : (∀ l, lit l → lit' l) → (∀ n, fn n → fn' n) →
  expression_all lit fn e → expression_all lit' fn' e.
Proof.
  intros Hl Hf.
  induction e as [l|name|object property IH|name args IH|a op b IHa IHb|op a IH|operand arms els IHo IHw IHe
    |q|g distinct arg IH|exprs IH|entries IH|name|q|a IH|a IH|a l IHa IHl|a l IHa IHl|a t IH|p] using Expression_tree_ind;
    try (by cbn; auto); try (by intros [??]; split; auto).
  - rewrite !expression_all_call. intros [? Hall]. split; [auto|]. rewrite Forall_forall in *. auto.
  - rewrite !expression_all_case. intros (Ho & Hw & He). split_and!; [by destruct operand; cbn in *; auto| |by destruct els; cbn in *; auto].
    rewrite Forall_forall in *. intros wt Hwt. specialize (Hw wt Hwt). specialize (IHw wt Hwt). tauto.
  - cbn. destruct arg; cbn in *; auto.
  - rewrite !expression_all_list. rewrite !Forall_forall in *. auto.
  - rewrite !expression_all_map. rewrite !Forall_forall in *. auto.
Qed.

(** The nested fixpoints as [Forall]. *)
Lemma value_wf_list l : value_wf (ListV l) ↔ Forall value_wf l.
Proof. cbn. induction l as [|v l IH]; [done|]. by rewrite Forall_cons, IH. Qed.
Definition entries_wf (m : list (string * Value)) : Prop := Forall (λ kv, value_wf kv.2) m.
Lemma value_wf_map m : value_wf (MapV m) ↔ entries_wf m.
Proof. unfold entries_wf. cbn. induction m as [|[k v] m IH]; [done|]. by rewrite Forall_cons, IH. Qed.
Lemma value_wf_node i l m : value_wf (NodeV i l m) ↔ entries_wf m.
Proof. exact (value_wf_map m). Qed.
Lemma value_wf_edge i l s t m : value_wf (EdgeV i l s t m) ↔ entries_wf m.
Proof. exact (value_wf_map m). Qed.
Lemma btree_insert_wf k v m : value_wf v → entries_wf m → entries_wf (btree_insert k v m).
Proof.
  unfold entries_wf. intros Hv. induction 1 as [|[k' w] m Hw Hm IH]; cbn; [by constructor|].
  repeat case_match; repeat constructor; auto.
Qed.
Lemma btree_get_wf k m v : entries_wf m → btree_get k m = Some v → value_wf v.
Proof.
  unfold entries_wf. induction 1 as [|[k' w] m Hw Hm IH]; cbn; [done|]. case_decide; [by intros [= <-]|done].
Qed.
Lemma str_list_wf l : value_wf (ListV (Str <$> l)).
Proof. apply value_wf_list, Forall_fmap, Forall_forall. done. Qed.

Section type_soundness.
Context `{Platform, Unicode}.

(** The value of a computation, if there is one, is well-formed. *)
Definition yields_wf (r : exec Value) : Prop := ∀ v, r = Ok v → value_wf v.
Lemma yields_wf_ok v : value_wf v → yields_wf (Ok v).
Proof. by intros Hv v' [= <-]. Qed.
Lemma yields_wf_err e : yields_wf (Err e).
Proof. done. Qed.
Lemma yields_wf_raise e : yields_wf (raise e).
Proof. done. Qed.
Lemma yields_wf_panic : yields_wf panic.
Proof. done. Qed.
Lemma yields_wf_bind {A} (r : exec A) f : (∀ a, r = Ok a → yields_wf (f a)) → yields_wf (a ← r; f a).
Proof. intros Hf. destruct r as [a|e]; [by apply Hf|done]. Qed.
Lemma yields_wf_fmap {A} (r : exec A) (f : A → Value) : (∀ a, r = Ok a → value_wf (f a)) → yields_wf (f <$> r).
Proof. intros Hf. destruct r as [a|e]; [|done]. intros v [= <-]. by apply Hf. Qed.
Hint Resolve yields_wf_ok yields_wf_err yields_wf_raise yields_wf_panic yields_wf_bind yields_wf_fmap : core.

Lemma eval_literal_wf lit : literal_wf lit → yields_wf (eval_literal lit).
Proof.
  induction lit as [ | | | | | | | | |items IH|entries IH] using Literal_tree_ind; cbn; intros Hwf; auto;
    try (by apply yields_wf_ok).
  - apply yields_wf_bind. intros vs Hvs. apply yields_wf_ok, value_wf_list.
    revert vs Hvs. induction IH as [|a l Ha _ IHl]; [by intros ? [= <-]|]. destruct Hwf as [Hw Hl].
    intros vs (v & Hv & (vs' & Hr & [= <-])%bind_Ok)%bind_Ok.
    constructor; [by apply (Ha Hw)|]. by apply IHl.
  - apply yields_wf_bind. intros m Hm. apply yields_wf_ok, value_wf_map.
    assert (entries_wf []) as Hacc by constructor. revert Hm Hacc. generalize (@nil (string * Value)) as acc.
    induction IH as [|[k a] l Ha _ IHl]; [by intros ? [= <-]|]. destruct Hwf as [Hw Hl].
    intros acc (v & Hv & Hgo)%bind_Ok Hacc.
    eapply (IHl Hl); [exact Hgo|]. apply btree_insert_wf; [by apply (Ha Hw)|done].
Qed.
Lemma eval_comparison_wf lv op rv : yields_wf (eval_comparison lv op rv).
Proof.
  unfold eval_comparison. cbv zeta. repeat case_match; auto; by apply yields_wf_ok.
Qed.
Lemma eval_arithmetic_wf lv rv int_op float_op : value_wf lv → value_wf rv →
  (∀ a b z, int_op a b = Ok z → is_i64 a → is_i64 b → is_i64 z) →
  (∀ x y, is_f64 x → is_f64 y → is_f64 (float_op x y)) → yields_wf (eval_arithmetic lv rv int_op float_op).
Proof.
  intros Hl Hr Hint Hfl. unfold eval_arithmetic. destruct lv, rv; auto; cbn in Hl, Hr;
    try (apply yields_wf_ok; cbn; auto with synaptica; fail).
  apply yields_wf_fmap. intros z Hz. cbn. destruct (int_op i i0) as [z'|[e|]] eqn:Ho; cbn in Hz; try done.
  injection Hz as <-. eauto.
Qed.
Lemma int_rem_range a b z : int_rem a b = Ok z → is_i64 a → is_i64 b → is_i64 z.
Proof.
  unfold int_rem. case_match eqn:Hc; [done|]. intros [= <-] Ha Hb.
  apply orb_false_iff in Hc as [Hb0%Z.eqb_neq _]. pose proof (Z.rem_bound_abs a b Hb0).
  unfold is_i64, i64_min, i64_max in *. lia.
Qed.
Lemma eval_binary_op_wf lv op rv : value_wf lv → value_wf rv → yields_wf (eval_binary_op lv op rv).
Proof.
  intros Hl Hr. destruct op; cbn [eval_binary_op]; try apply eval_comparison_wf;
    try (by apply yields_wf_ok);
    try (repeat case_match; auto; by apply yields_wf_ok);
    try (try (case_match; [done|]); apply eval_arithmetic_wf; auto with synaptica;
         intros a b z Hz ? ?; try (by eapply i64_op_range); try (by eapply int_rem_range)).
  - unfold int_div in Hz. case_match eqn:Hc; [done|]. injection Hz as <-.
    apply orb_false_iff in Hc as [_ Hc]. apply negb_false_iff in Hc. by apply in_i64_spec.
  - destruct lv, rv; auto; apply yields_wf_ok; try done.
    apply value_wf_list. apply Forall_app. split; by apply value_wf_list.
Qed.
Lemma eval_unary_op_wf op v : value_wf v → yields_wf (eval_unary_op op v).
Proof.
  intros Hv. destruct op, v; cbn; auto; try (by apply yields_wf_ok).
  - case_match eqn:Hi; auto. apply yields_wf_ok. by apply in_i64_spec.
  - apply yields_wf_ok. cbn in *. auto with synaptica.
Qed.

(** Durations: every field is the result of an operation at its width. *)
Definition acc_wf (a : duration_acc) : Prop := is_i32 (acc_months a) ∧ is_i32 (acc_days a) ∧ is_i64 (acc_nanos a).
Lemma acc_wf_zero : acc_wf (mkAcc [] 0 0 0).
Proof. unfold acc_wf, is_i32, is_i64, i32_min, i32_max, i64_min, i64_max. cbn. lia. Qed.
Lemma add_months_wf n a a' : acc_wf a → add_months n a = Ok a' → acc_wf a'.
Proof. intros (?&?&?) (m & Hm & [= <-])%bind_Ok. refine (conj _ (conj _ _)); [|done..]. by eapply i32_op_range. Qed.
Lemma add_days_wf n a a' : acc_wf a → add_days n a = Ok a' → acc_wf a'.
Proof. intros (?&?&?) (m & Hm & [= <-])%bind_Ok. refine (conj _ (conj _ _)); [done| |done]. by eapply i32_op_range. Qed.
Lemma add_nanos_wf n a a' : acc_wf a → add_nanos n a = Ok a' → acc_wf a'.
Proof. intros (?&?&?) (m & Hm & [= <-])%bind_Ok. refine (conj _ (conj _ _)); [done..|]. by eapply i64_op_range. Qed.
Lemma date_char_wf ch a a' : acc_wf a → date_char ch a = Ok a' → acc_wf a'.
Proof.
  intros Ha. unfold date_char. case_match; [by intros [= <-]|]. intros (n & _ & Hn)%bind_Ok.
  repeat case_match; [apply bind_Ok in Hn as (k & _ & Hn)| | |apply bind_Ok in Hn as (k & _ & Hn)|done];
    eauto using add_months_wf, add_days_wf.
Qed.
Lemma time_char_wf ch a a' : acc_wf a → time_char ch a = Ok a' → acc_wf a'.
Proof.
  intros Ha. unfold time_char. case_match; [by intros [= <-]|].
  repeat case_match; [| | |done]; intros (n & _ & Hn)%bind_Ok; [apply bind_Ok in Hn as (k & _ & Hn)..|];
    eauto using add_nanos_wf.
Qed.
Lemma for_each_inv {E S A} (P : S → Prop) (body : A → S → result E S) l s s' :
  (∀ x s s', P s → body x s = Ok s' → P s') → P s → for_each body l s = Ok s' → P s'.
Proof.
  intros Hbody. revert s. induction l as [|x l IH]; cbn; intros s Hs; [by intros [= <-]|].
  destruct (body x s) as [s1|] eqn:Hx; [|done]. eauto.
Qed.
Lemma parse_iso_duration_wf s d : parse_iso_duration s = Ok d → duration_wf d.
Proof.
  unfold parse_iso_duration. case_match; [done|]. case_match; [done|]. case_match.
  intros (a & Ha & (a' & Ha' & [= <-])%bind_Ok)%bind_Ok.
  assert (acc_wf a) as Hwf.
  { eapply (for_each_inv acc_wf); [|exact acc_wf_zero|exact Ha]. intros ???. apply date_char_wf. }
  assert (acc_wf a') as Hwf'; [|done].
  case_match; [|by injection Ha' as <-].
  refine (for_each_inv acc_wf _ _ _ _ _ _ Ha'); [|exact Hwf]. intros ???. apply time_char_wf.
Qed.

Lemma as_i64_wf z : value_wf (Integer (as_i64 z)).
Proof. apply wrap_i64_range. Qed.
Lemma or_raised_wf {A} (e : ExecError) (o : option A) (f : A → Value) :
  (∀ a, o = Some a → value_wf (f a)) → yields_wf (f <$> ok_or (Raised e) o).
Proof. intros Hf. destruct o as [a|]; [|done]. apply yields_wf_ok. by apply Hf. Qed.
Lemma yields_wf_expects n v : yields_wf (expects_string n v).
Proof. done. Qed.
Hint Resolve yields_wf_expects : core.
Lemma eval_function_wf name args : Forall value_wf args → yields_wf (eval_function name args).
Proof.
  intros Hargs. unfold eval_function. destruct (find_function _ _) as [f|] eqn:Hf; [|done].
  set (v := default Null (head args)). assert (value_wf v) as Hv by (subst v; destruct Hargs; done).
  clearbody v. clear Hargs. revert Hf. generalize (to_lowercase name) as n. intros n. unfold function_table.
  cbn [find_function]. repeat (case_match; [intros [= <-]|]); [| | | | | | | | | | | | |done].
  - by apply yields_wf_ok.
  - destruct v; cbn; auto; try (by apply yields_wf_ok);
      [apply yields_wf_ok; cbn; unfold is_i64, i64_min, i64_max; destruct b; lia|apply yields_wf_ok, i64_of_f64_i64|].
    apply or_raised_wf. intros z Hz. by eapply parse_signed_bounds.
  - destruct v; cbn; auto; [apply yields_wf_ok, f64_of_i64_f64|].
    apply or_raised_wf. intros z Hz. by eapply str_parse_f64_range.
  - destruct v; cbn; auto using as_i64_wf.
  - destruct v; cbn; auto; apply yields_wf_ok, str_list_wf.
  - destruct v; cbn; auto; apply yields_wf_ok; [done..|apply str_list_wf|done].
  - destruct v; by apply yields_wf_ok.
  - by apply yields_wf_ok.
  - destruct v; cbn; auto; by apply yields_wf_fmap.
  - destruct v; cbn; auto; by apply yields_wf_fmap.
  - destruct v; cbn; auto; by apply yields_wf_fmap.
  - destruct v; cbn; auto; by apply yields_wf_fmap.
  - destruct v; cbn; auto. apply yields_wf_fmap. intros d Hd. cbn. apply (parse_iso_duration_wf s).
    by destruct (parse_iso_duration s) as [d'|[e|]]; cbn in Hd; simplify_eq.
Qed.
Lemma Record_get_wf r name v : Forall value_wf (values r) → Record_get (E:=ExecError) r name = Ok (Some v) → value_wf v.
Proof.
  unfold Record_get. intros Hr. destruct (position name (columns r)); [|done].
  case_match eqn:Hv; [|done]. intros [= <-]. rewrite Forall_lookup in Hr. eauto.
Qed.
Lemma property_of_wf obj p : value_wf obj → value_wf (property_of obj p).
Proof.
  intros Hobj. destruct obj; try done; cbn [property_of];
    try (apply value_wf_map in Hobj || apply value_wf_node in Hobj || apply value_wf_edge in Hobj);
    destruct (btree_get p _) eqn:Hg; cbn; eauto using btree_get_wf.
Qed.

Section loops.
Context (r : Record_).
Abbreviation sound := (λ e, expression_wf e → yields_wf (evaluate e r)).
Lemma evaluate_all_wf l vs : Forall sound l → Forall expression_wf l →
  evaluate_all r l = Ok vs → Forall value_wf vs.
Proof.
  intros Hs. revert vs. induction Hs as [|e l He _ IH]; intros vs Hwf; cbn; [by intros [= <-]|].
  apply Forall_cons in Hwf as [Hw Hl]. intros (v & Hv & (vs' & Hvs & [= <-])%bind_Ok)%bind_Ok.
  constructor; [by apply (He Hw)|by apply IH].
Qed.
Lemma evaluate_entries_wf l acc m : Forall (λ kv, sound kv.2) l → Forall (λ kv, expression_wf kv.2) l →
  entries_wf acc → evaluate_entries r l acc = Ok m → entries_wf m.
Proof.
  intros Hs. revert acc. induction Hs as [|[k e] l He _ IH]; intros acc Hwf Hacc; cbn; [by intros [= <-]|].
  apply Forall_cons in Hwf as [Hw Hl]. intros (v & Hv & Hm)%bind_Ok.
  eapply IH; [done| |exact Hm]. apply btree_insert_wf; [by apply (He Hw)|done].
Qed.
Lemma evaluate_arms_wf otherwise test l : Forall (λ wt, sound wt.1 ∧ sound wt.2) l →
  Forall (λ wt, expression_wf wt.1 ∧ expression_wf wt.2) l → yields_wf otherwise →
  yields_wf (evaluate_arms r otherwise test l).
Proof.
  intros Hs Hwf Ho. induction Hs as [|[w t] l [_ Ht] _ IH]; cbn; [done|].
  apply Forall_cons in Hwf as [[_ Hwt] Hl]. apply yields_wf_bind. intros v _. case_match; auto.
Qed.
End loops.

(** C12: Evaluation keeps machine widths, in every build: if the integer and float literals of an
    expression are 64-bit and so are the values of the record (durations have 32-bit months and
    days), then the value it evaluates to is well-formed in the same sense, at every depth. *)
Theorem evaluate_wf expr r v : expression_wf expr → Forall value_wf (values r) →
  evaluate expr r = Ok v → value_wf v.
Proof.
  intros Hwf Hr. apply (λ H, H v). change (yields_wf (evaluate expr r)). revert Hwf.
  induction expr as [lit|name|object property IH|name args IH|a op b IHa IHb|op a IH|operand arms els IHo IHw IHe
    |q|fn distinct arg IH|exprs IH|entries IH|name|q|a IH|a IH|a l IHa IHl|a l IHa IHl|a t IH|p] using Expression_tree_ind;
    intros Hwf; try done.
  - by apply eval_literal_wf.
  - apply yields_wf_bind. intros [v'|] Hv'; [|done]. apply yields_wf_ok. by eapply Record_get_wf.
  - cbn [evaluate]. apply yields_wf_bind. intros [v'|] Hv'.
    + apply yields_wf_ok. destruct object; try done. apply bind_Ok in Hv' as ([v''|] & Ho & Hv').
      * injection Hv' as ->. by eapply Record_get_wf.
      * by eapply Record_get_wf.
    + apply yields_wf_bind. intros obj Hobj. apply yields_wf_ok, property_of_wf. by apply (IH Hwf).
  - apply expression_all_call in Hwf as [_ Hwf]. rewrite evaluate_call. apply yields_wf_bind. intros vs Hvs.
    by eapply eval_function_wf, evaluate_all_wf.
  - destruct Hwf as [Ha Hb]. cbn [evaluate]. apply yields_wf_bind. intros lv Hlv.
    assert (yields_wf (rv ← evaluate b r; eval_binary_op lv op rv)).
    { apply yields_wf_bind. intros rv Hrv. apply eval_binary_op_wf; [by apply (IHa Ha)|by apply (IHb Hb)]. }
    destruct op; try done; case_match; try (by apply yields_wf_ok); apply yields_wf_bind; intros rv _;
      repeat case_match; by apply yields_wf_ok.
  - cbn [evaluate]. apply yields_wf_bind. intros v' Hv'. apply eval_unary_op_wf. by apply (IH Hwf).
  - apply expression_all_case in Hwf as (Ho & Hw & He). rewrite evaluate_case. cbv zeta.
    assert (yields_wf (match els with Some e => evaluate e r | None => Ok Null end))
      by (destruct els; [by apply IHe|by apply yields_wf_ok]).
    destruct operand; [apply yields_wf_bind; intros v' _|]; by apply evaluate_arms_wf.
  - cbn [evaluate]. destruct arg as [a|]; [by apply IH|]. destruct fn; by apply yields_wf_ok.
  - apply expression_all_list in Hwf. rewrite evaluate_list. apply yields_wf_bind. intros vs Hvs.
    apply yields_wf_ok, value_wf_list. by eapply evaluate_all_wf.
  - apply expression_all_map in Hwf. rewrite evaluate_map. apply yields_wf_bind. intros m Hm.
    apply yields_wf_ok, value_wf_map. by eapply evaluate_entries_wf; [..|constructor|].
  - cbn [evaluate]. apply yields_wf_bind. intros v' _. by apply yields_wf_ok.
  - cbn [evaluate]. apply yields_wf_bind. intros v' _. by apply yields_wf_ok.
  - cbn [evaluate]. apply yields_wf_bind. intros v1 _. apply yields_wf_bind. intros v2 _. destruct v2; try done. by apply yields_wf_ok.
Qed.
End type_soundness.

(** ** Arithmetic *)
Section arithmetic.
Context `{Platform, Unicode}.

Definition overflow_error {A} : exec A := raise (ExpressionError "integer arithmetic overflow").
Lemma catch_i64_op z : catch_unwind (ExpressionError "integer arithmetic overflow") (i64_op z) =
  if in_i64 z then Ok z else if overflow_checks then overflow_error else Ok (wrap_signed i64_min two64 z).
Proof. unfold i64_op, overflow_error. by repeat case_match. Qed.
Lemma quot_overflow a b : is_i64 a → is_i64 b → b ≠ 0 →
  in_i64 (Z.quot a b) = negb ((a =? i64_min) && (b =? -1)).
Proof.
  intros Ha Hb Hb0. unfold is_i64, i64_min, i64_max in *.
  destruct (decide (a = - 2 ^ 63 ∧ b = -1)) as [[-> ->]|Hne]; [done|].
  transitivity true.
  - apply in_i64_spec. unfold is_i64, i64_min, i64_max.
    destruct (decide (b = -1)) as [->|Hb1].
    + replace (-1) with (- (1)) by done. rewrite Z.quot_opp_r, Z.quot_1_r by lia. lia.
    + destruct (decide (b = 1)) as [->|Hb2]; [rewrite Z.quot_1_r; lia|].
      pose proof (Z.quot_abs a b Hb0) as Hq. pose proof (Z.quot_le_upper_bound (Z.abs a) (Z.abs b) (2 ^ 62) ltac:(lia)).
      nia.
  - symmetry. apply negb_true_iff, andb_false_iff. rewrite !Z.eqb_neq. lia.
Qed.

(** C23: Integer arithmetic is exact or reported. Sum, difference and product of 64-bit integers
    are the exact result when it fits; otherwise a build with overflow checks raises the overflow
    error and a build without them (the release profile) returns the result modulo 2^64.
    Division and remainder by zero raise their own error in every build, the one quotient that
    does not fit raises the overflow error, and every other pair satisfies the division
    equation. *)
Theorem integer_arithmetic a b : is_i64 a → is_i64 b →
  (∀ op exact, (op, exact) ∈ [(OpAdd, a + b); (OpSub, a - b); (OpMul, a * b)] →
     eval_binary_op (Integer a) op (Integer b) =
       (if in_i64 exact then Ok (Integer exact)
        else if overflow_checks then overflow_error else Ok (Integer (as_i64 exact))) ∧
     is_i64 (as_i64 exact) ∧ (as_i64 exact - exact) mod two64 = 0) ∧
  (b = 0 →
     eval_binary_op (Integer a) OpDiv (Integer b) = raise (ExpressionError "division by zero") ∧
     eval_binary_op (Integer a) OpMod (Integer b) = raise (ExpressionError "modulo by zero")) ∧
  (b = -1 → a = i64_min → ∀ op, op = OpDiv ∨ op = OpMod → eval_binary_op (Integer a) op (Integer b) = overflow_error) ∧
  (b ≠ 0 → ¬ (a = i64_min ∧ b = -1) → ∃ q r,
     eval_binary_op (Integer a) OpDiv (Integer b) = Ok (Integer q) ∧
     eval_binary_op (Integer a) OpMod (Integer b) = Ok (Integer r) ∧
     a = b * q + r ∧ Z.abs r < Z.abs b ∧ 0 ≤ a * r ∧ is_i64 q ∧ is_i64 r).
Proof.
  intros Ha Hb. split_and!.
  - intros op exact Hop. split_and!.
    + rewrite !elem_of_cons, elem_of_nil in Hop. destruct Hop as [[= -> ->]|[[= -> ->]|[[= -> ->]|[]]]];
        cbn [eval_binary_op eval_arithmetic]; unfold int_add, int_sub, int_mul;
        rewrite catch_i64_op; unfold overflow_error; by repeat case_match.
    + apply wrap_i64_range.
    + unfold as_i64, wrap_signed. set (z := exact - i64_min).
      replace (z mod two64 + i64_min - exact) with (z mod two64 - z) by (subst z; lia).
      rewrite Zminus_mod, Zmod_mod, Z.sub_diag by done. done.
  - by intros ->.
  - intros -> -> op [-> | ->]; vm_compute; by destruct overflow_checks.
  - intros Hb0 Hov. exists (Z.quot a b), (Z.rem a b).
    pose proof (quot_overflow a b Ha Hb Hb0) as Hq.
    assert (negb ((a =? i64_min) && (b =? -1)) = true) as Hn
      by (apply negb_true_iff, andb_false_iff; rewrite !Z.eqb_neq; lia).
    rewrite Hn in Hq. cbn [eval_binary_op eval_arithmetic is_zero].
    apply Z.eqb_neq in Hb0 as Hb1. unfold int_div, int_rem. rewrite Hb1, Hq. cbn.
    pose proof (Z.rem_bound_abs a b Hb0). pose proof (Z.quot_rem a b Hb0). pose proof (Z.rem_sign_mul a b Hb0).
    split_and!; try done; try lia; [by apply in_i64_spec|]. unfold is_i64, i64_min, i64_max in *. lia.
Qed.
End arithmetic.

(** ** Three-valued logic *)
Section logic.
Context `{Platform, Unicode}.

(** Kleene's logic on -1 (false), 0 (unknown), 1 (true): conjunction is the minimum, disjunction
    the maximum, negation the opposite. Every value that is not a boolean counts as unknown. *)
Definition truth_of (v : Value) : Z := match v with Bool true => 1 | Bool false => -1 | _ => 0 end.
Definition truth_value (z : Z) : Value := if z =? 1 then Bool true else if z =? -1 then Bool false else Null.
Definition is_logical (v : Value) : bool := match v with Bool _ | Null => true | _ => false end.

Lemma and_reference lv rv : eval_binary_op lv OpAnd rv = Ok (truth_value (Z.min (truth_of lv) (truth_of rv))).
Proof. destruct lv as [|[]| | | | | | | | | | | |], rv as [|[]| | | | | | | | | | | |]; reflexivity. Qed.
Lemma or_reference lv rv : eval_binary_op lv OpOr rv = Ok (truth_value (Z.max (truth_of lv) (truth_of rv))).
Proof. destruct lv as [|[]| | | | | | | | | | | |], rv as [|[]| | | | | | | | | | | |]; reflexivity. Qed.
Lemma not_reference v : is_logical v = true → eval_unary_op OpNot v = Ok (truth_value (- truth_of v)).
Proof. by destruct v as [|[]| | | | | | | | | | | |]. Qed.
Lemma evaluate_and l r ctx : evaluate (EBinaryOp l OpAnd r) ctx =
  (lv ← evaluate l ctx;
   if truth_of lv =? -1 then Ok (Bool false)
   else rv ← evaluate r ctx; Ok (truth_value (Z.min (truth_of lv) (truth_of rv)))).
Proof.
  cbn [evaluate]. destruct (evaluate l ctx) as [lv|]; [|done]. cbn.
  destruct lv as [|[]| | | | | | | | | | | |]; cbn; try done;
    destruct (evaluate r ctx) as [rv|]; try done; by destruct rv as [|[]| | | | | | | | | | | |].
Qed.
Lemma evaluate_or l r ctx : evaluate (EBinaryOp l OpOr r) ctx =
  (lv ← evaluate l ctx;
   if truth_of lv =? 1 then Ok (Bool true)
   else rv ← evaluate r ctx; Ok (truth_value (Z.max (truth_of lv) (truth_of rv)))).
Proof.
  cbn [evaluate]. destruct (evaluate l ctx) as [lv|]; [|done]. cbn.
  destruct lv as [|[]| | | | | | | | | | | |]; cbn; try done;
    destruct (evaluate r ctx) as [rv|]; try done; by destruct rv as [|[]| | | | | | | | | | | |].
Qed.

(** AND, OR and NOT implement Kleene's three-valued logic. The short-circuiting evaluation of
    AND and OR equals the reference (minimum and maximum of the truth values) and agrees with the
    operator table [eval_binary_op] whenever both operands have values; an operand that decides
    the result keeps the right operand from being evaluated at all; and De Morgan's law holds
    between expressions, errors of the operands included, when the operands' values are
    booleans or NULL. *)
Theorem and_or_kleene l r ctx :
  (∀ lv, evaluate l ctx = Ok lv →
     (∀ rv, evaluate r ctx = Ok rv →
        evaluate (EBinaryOp l OpAnd r) ctx = Ok (truth_value (Z.min (truth_of lv) (truth_of rv))) ∧
        evaluate (EBinaryOp l OpOr r) ctx = Ok (truth_value (Z.max (truth_of lv) (truth_of rv))) ∧
        evaluate (EBinaryOp l OpAnd r) ctx = eval_binary_op lv OpAnd rv ∧
        evaluate (EBinaryOp l OpOr r) ctx = eval_binary_op lv OpOr rv) ∧
     (lv = Bool false → evaluate (EBinaryOp l OpAnd r) ctx = Ok (Bool false)) ∧
     (lv = Bool true → evaluate (EBinaryOp l OpOr r) ctx = Ok (Bool true))) ∧
  ((∀ e v, e = l ∨ e = r → evaluate e ctx = Ok v → is_logical v = true) →
     evaluate (EUnaryOp OpNot (EBinaryOp l OpAnd r)) ctx =
     evaluate (EBinaryOp (EUnaryOp OpNot l) OpOr (EUnaryOp OpNot r)) ctx).
Proof.
  split.
  - intros lv Hl. rewrite evaluate_and, evaluate_or, Hl. cbn [mbind result_bind]. split_and!; [|by intros ->..].
    intros rv Hr. rewrite Hr, and_reference, or_reference. cbn [mbind result_bind].
    destruct lv as [|[]| | | | | | | | | | | |], rv as [|[]| | | | | | | | | | | |]; done.
  - intros Hlog. rewrite evaluate_or.
    change (evaluate (EUnaryOp OpNot ?e) ctx) with (v ← evaluate e ctx; eval_unary_op OpNot v).
    rewrite evaluate_and. destruct (evaluate l ctx) as [lv|] eqn:Hl; [|done].
    pose proof (Hlog l lv (or_introl eq_refl) Hl) as Hll. cbn [mbind result_bind].
    rewrite (not_reference lv) by done. cbn [mbind result_bind].
    destruct (evaluate r ctx) as [rv|] eqn:Hr; [|by destruct lv as [|[]| | | | | | | | | | | |]].
    pose proof (Hlog r rv (or_intror eq_refl) Hr) as Hrl. cbn [mbind result_bind].
    rewrite (not_reference rv) by done.
    by destruct lv as [|[]| | | | | | | | | | | |], rv as [|[]| | | | | | | | | | | |].
Qed.
End logic.

(** ** What an evaluation reads *)
Section columns_read.
Context `{Platform, Unicode}.

(** The column names an evaluation may look up. *)
Fixpoint columns_read (e : Expression) : list string :=
  let optional o := match o with Some a => columns_read a | None => [] end in
  let all := fix all l := match l with [] => [] | a :: l' => columns_read a ++ all l' end in
  match e with
  | EIdentifier name => [name]
  | EPropertyAccess object property =>
      match object with EIdentifier var => [var +:+ "." +:+ property; property] | _ => [] end ++ columns_read object
  | EFunctionCall _ args => all args
  | EBinaryOp a _ b | EIn a b => columns_read a ++ columns_read b
  | EUnaryOp _ a | EIsNull a | EIsNotNull a => columns_read a
  | ECase operand when_clauses else_clause =>
      optional operand ++
      (fix go l := match l with [] => [] | (w, t) :: l' => (columns_read w ++ columns_read t) ++ go l' end) when_clauses ++
      optional else_clause
  | EAggregate _ _ arg => optional arg
  | EList exprs => all exprs
  | EMap entries => (fix go l := match l with [] => [] | (_, a) :: l' => columns_read a ++ go l' end) entries
  | _ => []
  end.
Lemma columns_read_list c exprs : c ∈ columns_read (EList exprs) ↔ ∃ e, e ∈ exprs ∧ c ∈ columns_read e.
Proof. cbn. induction exprs as [|a l IH]; [set_solver|]. rewrite elem_of_app, IH. set_solver. Qed.
Lemma columns_read_map c entries : c ∈ columns_read (EMap entries) ↔ ∃ kv, kv ∈ entries ∧ c ∈ columns_read kv.2.
Proof.
  cbn. induction entries as [|[k a] l IH]; [set_solver|]. rewrite elem_of_app, IH. split.
  - intros [?|(kv & ? & ?)]; [exists (k, a)|exists kv]; set_solver.
  - intros (kv & [-> |?]%elem_of_cons & ?); [by left|right; eauto].
Qed.
Lemma columns_read_case c operand arms els : c ∈ columns_read (ECase operand arms els) ↔
  (∃ e, operand = Some e ∧ c ∈ columns_read e) ∨
  (∃ wt, wt ∈ arms ∧ (c ∈ columns_read wt.1 ∨ c ∈ columns_read wt.2)) ∨
  (∃ e, els = Some e ∧ c ∈ columns_read e).
Proof.
  cbn. rewrite !elem_of_app. apply Morphisms_Prop.or_iff_morphism; [destruct operand; set_solver|].
  apply Morphisms_Prop.or_iff_morphism; [|destruct els; set_solver].
  induction arms as [|[w t] l IH]; [set_solver|]. rewrite !elem_of_app, IH. split.
  - intros [?|(wt & ? & ?)]; [exists (w, t)|exists wt]; set_solver.
  - intros (wt & [-> |?]%elem_of_cons & ?); [by left|right; eauto].
Qed.

Section agree.
Context (r1 r2 : Record_).
Definition agree_on (e : Expression) : Prop :=
  ∀ c, c ∈ columns_read e → Record_get (E:=ExecError) r1 c = Record_get r2 c.
Abbreviation same := (λ e, evaluate e r1 = evaluate e r2).
Lemma evaluate_all_same l : Forall same l → evaluate_all r1 l = evaluate_all r2 l.
Proof. induction 1 as [|e l He _ IH]; [done|]. cbn. by rewrite He, IH. Qed.
Lemma evaluate_entries_same l acc : Forall (λ kv, same kv.2) l → evaluate_entries r1 l acc = evaluate_entries r2 l acc.
Proof.
  intros Hl. revert acc. induction Hl as [|[k e] l He _ IH]; [done|]. intros acc. cbn in *. rewrite He.
  destruct (evaluate e r2); [|done]. cbn. apply IH.
Qed.
Lemma evaluate_arms_same o1 o2 test l : o1 = o2 → Forall (λ wt, same wt.1 ∧ same wt.2) l →
  evaluate_arms r1 o1 test l = evaluate_arms r2 o2 test l.
Proof.
  intros ->. induction 1 as [|[w t] l [Hw Ht] _ IH]; [done|]. cbn in *. rewrite Hw, Ht.
  destruct (evaluate w r2); [|done]. cbn. by rewrite IH.
Qed.
End agree.

Lemma same_evaluation expr r1 r2 : agree_on r1 r2 expr → evaluate expr r1 = evaluate expr r2.
Proof.
  unfold agree_on.
  induction expr as [lit|name|object property IH|name args IH|a op b IHa IHb|op a IH|operand arms els IHo IHw IHe
    |q|fn distinct arg IH|exprs IH|entries IH|name|q|a IH|a IH|a l IHa IHl|a l IHa IHl|a t IH|p] using Expression_tree_ind;
    intros Hag; try done.
  - cbn [evaluate]. by rewrite Hag by set_solver.
  - cbn [evaluate]. rewrite IH by (intros c Hc; apply Hag; cbn; set_solver).
    assert (property_columns object property r1 = property_columns object property r2) as ->; [|done].
    destruct object; try done. cbn. rewrite !Hag by set_solver. done.
  - rewrite !evaluate_call. rewrite (evaluate_all_same r1 r2); [done|].
    rewrite Forall_forall in *. intros e He. apply (IH e He). intros c Hc. apply Hag.
    apply (columns_read_list c args). eauto.
  - cbn [evaluate]. by rewrite IHa, IHb by (intros c Hc; apply Hag; cbn; set_solver).
  - cbn [evaluate]. by rewrite IH by (intros c Hc; apply Hag; cbn; set_solver).
  - rewrite !evaluate_case. cbv zeta.
    assert (match els with Some e => evaluate e r1 | None => Ok Null end =
            match els with Some e => evaluate e r2 | None => Ok Null end) as Hels.
    { destruct els as [e|]; [|done]. apply IHe. intros c Hc. apply Hag, columns_read_case. eauto. }
    assert (∀ test, evaluate_arms r1 (match els with Some e => evaluate e r1 | None => Ok Null end) test arms =
      evaluate_arms r2 (match els with Some e => evaluate e r2 | None => Ok Null end) test arms) as Harms.
    { intros test. apply evaluate_arms_same; [done|]. rewrite Forall_forall in *. intros wt Hwt.
      split; apply (IHw wt Hwt); intros c Hc; apply Hag, columns_read_case; eauto 7. }
    destruct operand as [e|]; [|apply Harms]. rewrite (IHo : _ → evaluate e r1 = evaluate e r2).
    + destruct (evaluate e r2); [|done]. apply Harms.
    + intros c Hc. apply Hag, columns_read_case. eauto.
  - destruct arg as [a|]; [|done]. by apply IH.
  - rewrite !evaluate_list. rewrite (evaluate_all_same r1 r2); [done|].
    rewrite Forall_forall in *. intros e He. apply (IH e He). intros c Hc. apply Hag, columns_read_list. eauto.
  - rewrite !evaluate_map. rewrite (evaluate_entries_same r1 r2); [done|].
    rewrite Forall_forall in *. intros e He. apply (IH e He). intros c Hc. apply Hag, columns_read_map. eauto.
  - cbn [evaluate]. by rewrite IH.
  - cbn [evaluate]. by rewrite IH.
  - cbn [evaluate]. by rewrite IHa, IHl by (intros c Hc; apply Hag; cbn; set_solver).
Qed.
(** An evaluation depends on nothing but the columns the expression names: in two records
    that agree on [columns_read] (its identifiers, and for [v.p] also the columns "v.p" and "p")
    it gives the same value or the same error. *)
Theorem evaluate_columns expr r1 r2 : agree_on r1 r2 expr → evaluate expr r1 = evaluate expr r2.
Proof. apply same_evaluation. Qed.
End columns_read.

(** ** Panics *)
Section panics.
Context `{Platform, Unicode}.
(** A computation that fails, if it does, with an error outside [bad]. *)
Definition avoids {E A} (bad : failure E → Prop) (r : may_panic E A) : Prop := ∀ e, r = Err e → ¬ bad e.
Lemma avoids_bind {E A B} bad (r : may_panic E A) (f : A → may_panic E B) :
  avoids bad r → (∀ a, r = Ok a → avoids bad (f a)) → avoids bad (r ≫= f).
Proof. unfold avoids. destruct r as [a|e]; cbn; [by eauto|]. intros Hr _ e' [= <-]. by apply Hr. Qed.
Lemma avoids_fmap {E A B} bad (r : may_panic E A) (f : A → B) : avoids bad r → avoids bad (f <$> r).
Proof. unfold avoids. destruct r as [a|e]; cbn; [done|]. intros Hr e' [= <-]. by apply Hr. Qed.
Lemma avoids_ok {E A} bad (a : A) : avoids (E:=E) bad (Ok a).
Proof. done. Qed.
Definition no_panic {E A} (r : may_panic E A) : Prop := r ≠ Err Panic.
Lemma no_panic_avoids {E A} (r : may_panic E A) : no_panic r ↔ avoids (λ e, e = Panic) r.
Proof. unfold no_panic, avoids. naive_solver. Qed.
Lemma no_panic_bind {E A B} (r : may_panic E A) (f : A → may_panic E B) :
  no_panic r → (∀ a, r = Ok a → no_panic (f a)) → no_panic (r ≫= f).
Proof. rewrite !no_panic_avoids. intros Hr Hf. apply avoids_bind; [done|]. intros a Ha. by apply no_panic_avoids, Hf. Qed.
Lemma no_panic_fmap {E A B} (r : may_panic E A) (f : A → B) : no_panic r → no_panic (f <$> r).
Proof. rewrite !no_panic_avoids. apply avoids_fmap. Qed.
Lemma no_panic_catch {E A} e (r : may_panic E A) : no_panic (catch_unwind e r).
Proof. by destruct r as [|[]]. Qed.
Lemma no_panic_lift {E E' A} (f : E → E') (r : result E A) : no_panic (map_raised f (lift_result r)).
Proof. by destruct r. Qed.
Lemma no_panic_ok_or {E A} (e : E) (o : option A) : no_panic (ok_or (Raised e) o).
Proof. by destruct o. Qed.
Hint Resolve no_panic_fmap no_panic_catch no_panic_lift no_panic_ok_or : core.
Lemma no_panic_literal lit : no_panic (eval_literal lit).
Proof.
  induction lit as [ | | | | | | | | |items IH|entries IH] using Literal_tree_ind; try done.
  - cbn. apply no_panic_bind; [|done]. induction IH as [|a l Ha _ IHl]; [done|].
    apply no_panic_bind; [done|]. intros v _. by apply no_panic_bind.
  - cbn. apply no_panic_bind; [|done]. generalize (@nil (string * Value)) as acc.
    induction IH as [|[k a] l Ha _ IHl]; [done|]. intros acc. apply no_panic_bind; [done|]. intros v _. apply IHl.
Qed.
Lemma no_panic_comparison lv op rv : op ∈ [OpLt; OpGt; OpLe; OpGe] → no_panic (eval_comparison lv op rv).
Proof.
  rewrite !elem_of_cons, elem_of_nil. intros Hop. unfold eval_comparison. cbv zeta.
  repeat case_match; subst; try done; naive_solver.
Qed.
Lemma no_panic_arithmetic lv rv f g : no_panic (eval_arithmetic lv rv f g).
Proof. unfold eval_arithmetic. repeat case_match; auto; done. Qed.
Lemma no_panic_binary lv op rv : no_panic (eval_binary_op lv op rv).
Proof.
  destruct op; cbn [eval_binary_op]; try done; try apply no_panic_arithmetic;
    try (apply no_panic_comparison; rewrite !elem_of_cons; tauto);
    repeat case_match; try apply no_panic_arithmetic; done.
Qed.
Lemma no_panic_unary op v : no_panic (eval_unary_op op v).
Proof. destruct op, v; cbn; try done. by case_match. Qed.
Lemma no_panic_duration s : overflow_checks = false → no_panic (parse_iso_duration s).
Proof.
  intros Hov. assert (∀ E z, no_panic (i32_op (E:=E) z)) as H32 by (intros; unfold i32_op; by repeat case_match; simplify_eq).
  assert (∀ E z, no_panic (i64_op (E:=E) z)) as H64 by (intros; unfold i64_op; by repeat case_match; simplify_eq).
  assert (∀ S A (body : A → S → may_panic string S), (∀ x s, no_panic (body x s)) →
    ∀ l s, no_panic (for_each body l s)) as Hfor.
  { intros S A body Hb l. induction l as [|x l IH]; [done|]. intros s'. cbn. specialize (Hb x s').
    destruct (body x s') as [s1|e]; [apply IH|done]. }
  assert (∀ ch a, no_panic (date_char ch a)) as Hdate.
  { intros ch a. unfold date_char. case_match; [done|]. apply no_panic_bind; [apply no_panic_ok_or|]. intros n _.
    repeat case_match; try done; unfold add_months, add_days; repeat (apply no_panic_bind; [auto|intros ??]); done. }
  assert (∀ ch a, no_panic (time_char ch a)) as Htime.
  { intros ch a. unfold time_char. repeat case_match; try done; (apply no_panic_bind; [apply no_panic_ok_or|]);
      intros n _; unfold add_nanos; repeat (apply no_panic_bind; [auto|intros ??]); done. }
  unfold parse_iso_duration. repeat case_match; try done;
    repeat (apply no_panic_bind; [auto; done|intros ??]); done.
Qed.
Lemma find_function_in n table f : find_function n table = Some f → (n, f) ∈ table.
Proof.
  induction table as [|[k g] table IH]; cbn; [done|]. destruct (String.eqb_spec n k) as [->|Hne].
  - intros [= ->]. by left.
  - intros Hf. right. auto.
Qed.
Lemma no_panic_table :
  Forall (λ kf, overflow_checks = false ∨ kf.1 ≠ "duration"%string → ∀ v, no_panic (kf.2 v)) function_table.
Proof.
  repeat apply Forall_cons_2; [..|apply Forall_nil_2]; cbn [fst snd]; intros Hn v;
    try (destruct v; cbn; auto; done).
  destruct Hn as [Hov|]; [|done]. destruct v; try done. apply no_panic_fmap.
  pose proof (no_panic_duration s Hov). by destruct (parse_iso_duration s) as [|[]].
Qed.
Lemma no_panic_function name args : overflow_checks = false ∨ to_lowercase name ≠ "duration"%string →
  no_panic (eval_function name args).
Proof.
  unfold eval_function. intros Hn. destruct (find_function _ _) as [f|] eqn:Hf; [|done].
  apply find_function_in in Hf. pose proof no_panic_table as Ht. rewrite Forall_forall in Ht.
  by apply (Ht _ Hf).
Qed.
Lemma no_panic_get {E} r name : record_wf r → no_panic (Record_get (E:=E) r name).
Proof. intros Hr. destruct (Record_get_total (E:=E) r name Hr) as (o & -> & _). done. Qed.

Section loops.
Context (bad : failure ExecError → Prop) (r : Record_).
Abbreviation fine := (λ e, avoids bad (evaluate e r)).
Lemma avoids_all l : Forall fine l → avoids bad (evaluate_all r l).
Proof.
  induction 1 as [|e l He _ IH]; [done|]. apply avoids_bind; [done|]. intros v _. by apply avoids_bind.
Qed.
Lemma avoids_entries l acc : Forall (λ kv, fine kv.2) l → avoids bad (evaluate_entries r l acc).
Proof.
  intros Hl. revert acc. induction Hl as [|[k e] l He _ IH]; [done|]. intros acc. apply avoids_bind; [done|].
  intros v _. apply IH.
Qed.
Lemma avoids_arms o test l : avoids bad o → Forall (λ wt, fine wt.1 ∧ fine wt.2) l → avoids bad (evaluate_arms r o test l).
Proof.
  intros Ho. induction 1 as [|[w t] l [Hw Ht] _ IH]; [done|]. apply avoids_bind; [done|]. intros v _. by case_match.
Qed.
End loops.

Lemma no_panic_evaluate expr r : record_wf r →
  expression_all (λ _, True) (λ name, overflow_checks = false ∨ to_lowercase name ≠ "duration"%string) expr →
  no_panic (evaluate expr r).
Proof.
  intros Hr.
  induction expr as [lit|name|object property IH|name args IH|a op b IHa IHb|op a IH|operand arms els IHo IHw IHe
    |q|fn distinct arg IH|exprs IH|entries IH|name|q|a IH|a IH|a l IHa IHl|a l IHa IHl|a t IH|p] using Expression_tree_ind;
    intros Hall; try done.
  - apply no_panic_literal.
  - apply no_panic_bind; [by apply no_panic_get|]. by intros [v|] _.
  - apply no_panic_bind.
    + destruct object; try done. apply no_panic_bind; [by apply no_panic_get|]. intros [v|] _; [done|]. by apply no_panic_get.
    + intros [v|] _; [done|]. apply no_panic_bind; [by apply IH|done].
  - apply expression_all_call in Hall as [Hn Hall]. rewrite evaluate_call. apply no_panic_bind.
    + apply no_panic_avoids, avoids_all. rewrite Forall_forall in *. intros e He. apply no_panic_avoids. auto.
    + intros vs _. by apply no_panic_function.
  - destruct Hall as [Ha Hb]. apply no_panic_bind; [by apply IHa|]. intros lv _.
    destruct op; try (apply no_panic_bind; [by apply IHb|intros; apply no_panic_binary]);
      (case_match; [done|]); (apply no_panic_bind; [by apply IHb|]); intros rv _; by repeat case_match.
  - apply no_panic_bind; [by apply IH|]. intros v _. apply no_panic_unary.
  - apply expression_all_case in Hall as (Ho & Hw & He). rewrite evaluate_case. cbv zeta.
    assert (no_panic (match els with Some e => evaluate e r | None => Ok Null end)) by (destruct els; [by apply IHe|done]).
    assert (∀ test, no_panic (evaluate_arms r (match els with Some e => evaluate e r | None => Ok Null end) test arms)).
    { intros test. apply no_panic_avoids, avoids_arms; [by apply no_panic_avoids|]. rewrite Forall_forall in *. intros wt Hwt.
      specialize (IHw wt Hwt). specialize (Hw wt Hwt). rewrite <- !no_panic_avoids. tauto. }
    destruct operand; [apply no_panic_bind; [by apply IHo|auto]|auto].
  - cbn [evaluate]. destruct arg as [a|]; [by apply IH|]. by destruct fn.
  - apply expression_all_list in Hall. rewrite evaluate_list. apply no_panic_bind; [|done].
    apply no_panic_avoids, avoids_all. rewrite Forall_forall in *. intros e He. apply no_panic_avoids. auto.
  - apply expression_all_map in Hall. rewrite evaluate_map. apply no_panic_bind; [|done].
    apply no_panic_avoids, avoids_entries. rewrite Forall_forall in *. intros kv Hkv. apply no_panic_avoids. auto.
  - apply no_panic_bind; [by apply IH|done].
  - apply no_panic_bind; [by apply IH|done].
  - destruct Hall as [Ha Hl]. apply no_panic_bind; [by apply IHa|]. intros v _.
    apply no_panic_bind; [by apply IHl|]. intros w _. by case_match.
Qed.

(** C25: Evaluating an expression in a record that has a value for each column never panics: it
    yields a value or raises an error. Without overflow checks this holds for every expression;
    with them, for every expression that does not call [duration], the one function whose
    arithmetic is not guarded. *)
Theorem evaluate_no_panic expr r : record_wf r →
  overflow_checks = false ∨ expression_all (λ _, True) (λ name, to_lowercase name ≠ "duration"%string) expr →
  no_panic (evaluate expr r).
Proof.
  intros Hr [Hov|Hall]; apply no_panic_evaluate; try done.
  - apply expression_all_true; auto.
  - refine (expression_all_impl _ _ _ _ expr _ _ Hall); auto.
Qed.
End panics.

(** ** Numbers of different types *)
Section numbers.
Context `{Platform, Unicode}.

(** Order and equality disagree on numbers of different types. An integer and a float holding
    an integer, both of at most 53 bits, are ordered as the numbers they denote, so [1 <= 1.0]
    and [1 >= 1.0] are true; but [=] compares the variants, so [1 = 1.0] is false, and [<>] is
    true, for all of them. *)
Theorem number_comparison i j : - 2 ^ 53 ≤ i ≤ 2 ^ 53 → - 2 ^ 53 ≤ j ≤ 2 ^ 53 →
  let a := Integer i in let b := Float (f64_of_i64 j) in
  eval_binary_op a OpLt b = Ok (Bool (i <? j)) ∧ eval_binary_op b OpGt a = Ok (Bool (i <? j)) ∧
  eval_binary_op a OpLe b = Ok (Bool (i <=? j)) ∧ eval_binary_op b OpGe a = Ok (Bool (i <=? j)) ∧
  eval_binary_op a OpEq b = Ok (Bool false) ∧ eval_binary_op a OpNeq b = Ok (Bool true).
Proof.
  intros Hi Hj. cbn. rewrite !f64_compare_i64 by done. rewrite (Z.compare_antisym i j). unfold Z.ltb, Z.leb.
  by destruct (i ?= j).
Qed.
End numbers.

(** ** Durations print and parse *)
Section duration.
Context `{Platform, Unicode}.

(** The text of the parts of a printed duration. *)
Definition number_text (z : Z) (unit : Z) : text := if z =? 0 then [] else chars_of (pretty z) ++ [unit].
Definition duration_text (m d s : Z) : text :=
  chr "P" :: number_text m (chr "M") ++ number_text d (chr "D") ++
    (if s =? 0 then [] else chr "T" :: number_text s (chr "S")).
Lemma chars_of_number (z : Z) u (s : string) : chars_of s = [u] →
  chars_of (if z =? 0 then EmptyString else pretty z +:+ s) = number_text z u.
Proof. intros Hs. unfold number_text. case_match; [done|]. by rewrite chars_of_app, Hs. Qed.
Lemma pretty_sign (z : Z) : 0 < z → chars_of (pretty (- z)) = chr "-" :: chars_of (pretty z).
Proof. intros Hz. destruct z as [|p|p]; try done. Qed.
Lemma number_text_chars (P : Z → Prop) z u : P u → P 45 → (∀ c, 48 ≤ c ≤ 57 → P c) → Forall P (number_text z u).
Proof.
  intros Hu Hm Hd. unfold number_text. case_match; [constructor|]. apply Forall_app. split; [|by constructor].
  eapply Forall_impl; [apply pretty_number_chars|]. intros c [Hc| ->]%number_char_cases; auto.
Qed.
Lemma duration_text_chars (P : Z → Prop) m d s : P 45 → (∀ c, 48 ≤ c ≤ 57 → P c) →
  P (chr "P") → P (chr "M") → P (chr "D") → P (chr "T") → P (chr "S") → Forall P (duration_text m d s).
Proof.
  intros. constructor; [done|]. apply Forall_app. split; [by apply number_text_chars|].
  apply Forall_app. split; [by apply number_text_chars|]. case_match; [constructor|].
  constructor; [done|]. by apply number_text_chars.
Qed.
Lemma duration_fmt_text m d s : chars (Duration_fmt (mkDuration m d (s * 1000000000))) = duration_text m d s.
Proof.
  assert (chars_of (Duration_fmt (mkDuration m d (s * 1000000000))) = duration_text m d s) as Ht.
  { unfold Duration_fmt, duration_text. cbn [months days nanos]. cbv zeta.
    rewrite !chars_of_app, (chars_of_number m (chr "M")), (chars_of_number d (chr "D")) by done.
    change (chars_of "P") with [chr "P"]. cbn [app]. do 3 f_equal.
    replace (s * 1000000000 =? 0) with (s =? 0) by (destruct (Z.eqb_spec s 0), (Z.eqb_spec (s * 1000000000) 0); lia).
    destruct (Z.eqb_spec s 0) as [Hz|Hz]; [done|].
    replace (Z.abs (s * 1000000000)) with (Z.abs s * 1000000000) by lia. rewrite Z.mod_mul, Z.div_mul by lia.
    cbn [Z.eqb]. rewrite !chars_of_app. change (chars_of "T") with [chr "T"]. change (chars_of "S") with [chr "S"].
    cbn [app]. f_equal. unfold number_text. destruct (Z.eqb_spec s 0); [done|]. rewrite app_assoc. f_equal.
    destruct (Z.ltb_spec (s * 1000000000) 0).
    - replace s with (- Z.abs s) at 2 by lia. by rewrite pretty_sign by lia.
    - by replace (Z.abs s) with s by lia. }
  rewrite chars_chars_of; rewrite Ht; [done|]. apply duration_text_chars; try done. intros. lia.
Qed.

Lemma date_digits t rest a : Forall (λ c, number_char c = true) t →
  for_each date_char (t ++ rest) a =
  for_each date_char rest (mkAcc (num_buf a ++ t) (acc_months a) (acc_days a) (acc_nanos a)).
Proof.
  intros Ht. revert a. induction Ht as [|c t Hc _ IH]; intros a; [rewrite app_nil_r; by destruct a|].
  cbn. unfold date_char at 1. unfold number_char in Hc. rewrite Hc, IH. cbn. by rewrite <- app_assoc.
Qed.
Lemma time_digits t rest a : Forall (λ c, number_char c = true) t →
  for_each time_char (t ++ rest) a =
  for_each time_char rest (mkAcc (num_buf a ++ t) (acc_months a) (acc_days a) (acc_nanos a)).
Proof.
  intros Ht. revert a. induction Ht as [|c t Hc _ IH]; intros a; [rewrite app_nil_r; by destruct a|].
  cbn. unfold time_char at 1. unfold number_char in Hc.
  replace (is_ascii_digit c || (c =? chr ".") || (c =? chr "-")) with true;
    [rewrite IH; cbn; by rewrite <- app_assoc|].
  symmetry. destruct (is_ascii_digit c); [done|]. cbn in *. by rewrite Hc, orb_true_r.
Qed.
Lemma i32_op_ok {E} z : is_i32 z → i32_op (E:=E) z = Ok z.
Proof. intros Hz. unfold i32_op. replace (in_i32 z) with true; [done|]. unfold in_i32, is_i32 in *. lia. Qed.
Lemma i64_op_ok {E} z : is_i64 z → i64_op (E:=E) z = Ok z.
Proof. intros Hz. unfold i64_op. by rewrite (proj2 (in_i64_spec z) Hz). Qed.
Lemma date_number z u rest a k : is_i32 z → num_buf a = [] →
  (z ≠ 0 → date_char u (mkAcc (chars_of (pretty z)) (acc_months a) (acc_days a) (acc_nanos a)) = Ok k) →
  (z = 0 → k = a) → for_each date_char (number_text z u ++ rest) a = for_each date_char rest k.
Proof.
  intros Hz Ha Hk Hzero. unfold number_text. destruct (Z.eqb_spec z 0); [by rewrite Hzero|].
  rewrite <- app_assoc, date_digits, Ha by apply pretty_number_chars. cbn. by rewrite Hk.
Qed.
Lemma date_M z a : is_i32 z → acc_months a = 0 → num_buf a = chars_of (pretty z) →
  date_char (chr "M") a = Ok (mkAcc [] z (acc_days a) (acc_nanos a)).
Proof.
  intros Hz Hm Hb.
  change (date_char (chr "M") a) with
    (n ← or_raise ("invalid number in duration: " +:+ string_of_chars (num_buf a)) (str_parse_i32 (num_buf a)); add_months n a).
  rewrite Hb. unfold str_parse_i32. rewrite parse_signed_pretty by done. cbn [or_raise ok_or mbind result_bind].
  unfold add_months. by rewrite Hm, Z.add_0_l, i32_op_ok.
Qed.
Lemma date_D z a : is_i32 z → acc_days a = 0 → num_buf a = chars_of (pretty z) →
  date_char (chr "D") a = Ok (mkAcc [] (acc_months a) z (acc_nanos a)).
Proof.
  intros Hz Hm Hb.
  change (date_char (chr "D") a) with
    (n ← or_raise ("invalid number in duration: " +:+ string_of_chars (num_buf a)) (str_parse_i32 (num_buf a)); add_days n a).
  rewrite Hb. unfold str_parse_i32. rewrite parse_signed_pretty by done. cbn [or_raise ok_or mbind result_bind].
  unfold add_days. by rewrite Hm, Z.add_0_l, i32_op_ok.
Qed.
Lemma date_part_parse m d : is_i32 m → is_i32 d →
  for_each date_char (number_text m (chr "M") ++ number_text d (chr "D")) (mkAcc [] 0 0 0) = Ok (mkAcc [] m d 0).
Proof.
  intros Hm Hd. rewrite (date_number m (chr "M") _ _ (mkAcc [] m 0 0)); [|done|done|intros _; by apply date_M|by intros ->].
  rewrite <- (app_nil_r (number_text d (chr "D"))).
  rewrite (date_number d (chr "D") _ _ (mkAcc [] m d 0)); [done|done|done|intros _; by apply date_D|by intros ->].
Qed.
(** The largest number of seconds for which the text's product with 10^9 is computed exactly. *)
Definition max_seconds : Z := 4611686018.
Lemma parse_seconds s : s ≠ 0 → str_parse_f64 (chars_of (pretty s)) = Some (with_sign (s <? 0) (round_f64 (Z.abs s) 1)).
Proof.
  intros Hs. destruct (pretty_text s) as (ds & -> & Hd & Hne & Hv). unfold str_parse_f64.
  rewrite split_sign_pretty by done. cbv zeta.
  assert (∀ w, head w = Some (chr "I") ∨ head w = Some (chr "N") → to_ascii_uppercase ds ≠ w) as Hw.
  { intros w Hw <-. destruct ds as [|c ds]; [done|]. cbn in Hd, Hw. apply andb_true_iff in Hd as [Hc _].
    unfold is_ascii_digit, in_char_range in Hc. change (chr "0") with 48 in Hc. change (chr "9") with 57 in Hc.
    unfold in_char_range in Hw. change (chr "a") with 97 in Hw. change (chr "z") with 122 in Hw.
    change (chr "I") with 73 in Hw. change (chr "N") with 78 in Hw.
    replace ((97 <=? c) && (c <=? 122)) with false in Hw by (symmetry; lia). destruct Hw as [[= ->]|[= ->]]; done. }
  rewrite !bool_decide_false by (apply Hw; auto). cbn [orb].
  assert (∀ l, forallb is_ascii_digit l = true → span_digits l = (l, [])) as Hspan.
  { induction l as [|c l IH]; [done|]. cbn. intros [-> Hl]%andb_true_iff. by rewrite IH. }
  unfold parse_f64. rewrite Hspan by done. cbn. rewrite app_nil_r, bool_decide_false by done. rewrite Hv. cbn.
  unfold decimal_f64. replace (Z.abs s =? 0) with false by (symmetry; apply Z.eqb_neq; lia). cbn.
  by rewrite Z.mul_1_r.
Qed.
Lemma time_part_parse m d s : s ≠ 0 → Z.abs s ≤ max_seconds →
  for_each time_char (number_text s (chr "S")) (mkAcc [] m d 0) = Ok (mkAcc [] m d (s * 1000000000)).
Proof.
  unfold max_seconds. intros Hs Hmax. unfold number_text. destruct (Z.eqb_spec s 0); [done|].
  rewrite time_digits by apply pretty_number_chars. cbn [num_buf acc_nanos acc_months acc_days app for_each].
  set (a := mkAcc _ _ _ _). change (time_char (chr "S") a) with
    (n ← or_raise ("invalid seconds: " +:+ string_of_chars (num_buf a)) (str_parse_f64 (num_buf a));
     add_nanos (i64_of_f64 (f64_mul n (f64_of_i64 1000000000))) a).
  subst a. cbn [num_buf]. rewrite parse_seconds by done. cbn [or_raise ok_or mbind result_bind].
  unfold add_nanos. cbn [acc_nanos acc_months acc_days].
  destruct (round_shifted_exact (Z.abs s * 1953125) 9) as [Hr Hm]; [lia..|].
  replace (Z.abs s * 1953125 * 2 ^ 9) with (Z.abs s * 1000000000) in * by lia.
  rewrite f64_mul_i64_exact by (try done; lia).
  replace (Z.max i64_min (Z.min i64_max ((if s <? 0 then -1 else 1) * (Z.abs s * 1000000000)))) with (s * 1000000000)
    by (unfold i64_min, i64_max; destruct (Z.ltb_spec s 0); lia).
  rewrite Z.add_0_l, i64_op_ok by (unfold is_i64, i64_min, i64_max; lia). done.
Qed.
Lemma split_time_app d t : Forall (λ c, c ≠ 84) d →
  split_time (d ++ match t with Some t => chr "T" :: t | None => [] end) = (d, t).
Proof.
  induction 1 as [|c d Hc _ IH]; [by destruct t|]. cbn. rewrite IH. change (chr "T") with 84.
  by destruct (Z.eqb_spec c 84).
Qed.

(** Printing a duration and parsing the text back ([duration(toString(d))] up to the quotes)
    gives the duration itself, for all 32-bit months and days, negative ones included, and every
    whole number of seconds up to about 146 years. Fractions of a second go through a float whose
    product with 10^9 is truncated: a duration of 15 nanoseconds comes back as 14. *)
Theorem duration_roundtrip m d s : is_i32 m → is_i32 d → Z.abs s ≤ max_seconds →
  parse_iso_duration (Duration_fmt (mkDuration m d (s * 1000000000))) = Ok (mkDuration m d (s * 1000000000)) ∧
  parse_iso_duration (Duration_fmt (mkDuration 0 0 15)) = Ok (mkDuration 0 0 14).
Proof.
  intros Hm Hd Hs. split; [|by vm_compute].
  unfold parse_iso_duration. rewrite duration_fmt_text, trim_id
    by (apply duration_text_chars; try done; intros c Hc; unfold is_whitespace; lia).
  unfold duration_text. cbn [negb Z.eqb].
  replace (number_text m (chr "M") ++ number_text d (chr "D") ++ (if s =? 0 then [] else chr "T" :: number_text s (chr "S")))
    with ((number_text m (chr "M") ++ number_text d (chr "D")) ++
          match (if s =? 0 then None else Some (number_text s (chr "S"))) with Some t => chr "T" :: t | None => [] end)
    by (rewrite <- app_assoc; by destruct (s =? 0)).
  rewrite split_time_app
    by (apply Forall_app; split; apply number_text_chars; try done; intros c Hc ->; lia).
  rewrite Z.eqb_refl, date_part_parse by done. cbn [negb mbind result_bind].
  destruct (Z.eqb_spec s 0) as [->|Hne]; [done|]. cbn [acc_months acc_days acc_nanos].
  by rewrite time_part_parse.
Qed.
End duration.

(** ** Witnesses: a release build and a dev build with ASCII lower-casing *)
Definition build (checks : bool) : Platform := {|
  overflow_checks := checks;
  f64_fmt f := pretty f;
  date_fmt d := pretty d;
  time_fmt t := pretty (time_secs t);
  datetime_fmt t := pretty (dt_date t);
  NaiveDate_parse s f := Err "not a date"%string;
  NaiveTime_parse s f := Err "not a time"%string;
  NaiveDateTime_parse s f := Err "not a timestamp"%string
|}.
#[local] Instance dev_build : Platform := build true.
#[local] Instance dev_unicode : Unicode := ascii_unicode.
(** A row of [MATCH (n)]: the node and its property [age]. *)
Definition sample_record : Record_ :=
  mkRecord ["n"; "n.age"; "flag"]%string
    [NodeV "1" ["Person"%string] [("age"%string, Integer 41)]; Integer 41; Null].
Lemma sample_record_wf : record_wf sample_record ∧ Forall value_wf (values sample_record).
Proof. split; [done|]. repeat constructor; vm_compute; done. Qed.
Definition age_plus_one : Expression :=
  EBinaryOp (EPropertyAccess (EIdentifier "n") "age") OpAdd (ELiteral (LInteger 1)).

Lemma evaluate_wf_witness : evaluate age_plus_one sample_record = Ok (Integer 42) ∧ value_wf (Integer 42).
Proof.
  assert (evaluate age_plus_one sample_record = Ok (Integer 42)) as He by (vm_compute; reflexivity).
  split; [exact He|]. apply (evaluate_wf age_plus_one sample_record); [|apply sample_record_wf|exact He].
  vm_compute. done.
Defined.
Lemma integer_arithmetic_witness :
  eval_binary_op (H:=build true) (Integer i64_max) OpAdd (Integer 1) = overflow_error ∧
  eval_binary_op (H:=build false) (Integer i64_max) OpAdd (Integer 1) = Ok (Integer i64_min).
Proof.
  assert (is_i64 i64_max ∧ is_i64 1) as [H1 H2] by (vm_compute; done). split.
  - refine (proj1 (proj1 (@integer_arithmetic (build true) i64_max 1 H1 H2) OpAdd (i64_max + 1) _)). by left.
  - refine (proj1 (proj1 (@integer_arithmetic (build false) i64_max 1 H1 H2) OpAdd (i64_max + 1) _)). by left.
Defined.
Lemma and_or_kleene_witness :
  evaluate (EBinaryOp (ELiteral (LBool false)) OpAnd (EIdentifier "missing")) sample_record = Ok (Bool false) ∧
  evaluate (EUnaryOp OpNot (EBinaryOp (EIdentifier "flag") OpAnd (ELiteral (LBool true)))) sample_record =
  evaluate (EBinaryOp (EUnaryOp OpNot (EIdentifier "flag")) OpOr (EUnaryOp OpNot (ELiteral (LBool true)))) sample_record.
Proof.
  split.
  - apply (proj2 (proj1 (and_or_kleene (ELiteral (LBool false)) (EIdentifier "missing") sample_record) (Bool false) eq_refl)).
    reflexivity.
  - apply (and_or_kleene (EIdentifier "flag") (ELiteral (LBool true)) sample_record).
    intros e v [->| ->]; cbn; intros [= <-]; reflexivity.
Defined.
Lemma evaluate_columns_witness :
  evaluate age_plus_one sample_record = evaluate age_plus_one (mkRecord ["n.age"]%string [Integer 41]).
Proof.
  (* the columns "age" and "n" are read too, but only after "n.age" fails *)
  transitivity (evaluate age_plus_one (mkRecord ["n.age"; "n"]%string [Integer 41; NodeV "1" ["Person"%string] [("age"%string, Integer 41)]])).
  - apply (evaluate_columns age_plus_one). unfold agree_on. cbn. intros c Hc.
    rewrite !elem_of_cons, elem_of_nil in Hc. destruct Hc as [->|[->|[->|[]]]]; reflexivity.
  - reflexivity.
Defined.
Lemma evaluate_no_panic_witness : no_panic (evaluate age_plus_one sample_record).
Proof. apply (evaluate_no_panic age_plus_one sample_record); [apply sample_record_wf|right; cbn; auto]. Defined.
Lemma number_comparison_witness :
  eval_binary_op (Integer 1) OpLe (Float (f64_of_i64 1)) = Ok (Bool true) ∧
  eval_binary_op (Integer 1) OpEq (Float (f64_of_i64 1)) = Ok (Bool false).
Proof. destruct (number_comparison 1 1) as (_ & _ & Hle & _ & Heq & _); [lia..|]. split; [exact Hle|exact Heq]. Defined.
Lemma duration_roundtrip_witness :
  parse_iso_duration (Duration_fmt (mkDuration 14 (-3) (3661 * 1000000000))) = Ok (mkDuration 14 (-3) (3661 * 1000000000)).
Proof.
  refine (proj1 (duration_roundtrip 14 (-3) 3661 _ _ _));
    unfold is_i32, i32_min, i32_max, max_seconds; lia.
Defined.
