(* ===== verification/Semantic.v ===== *)
(** * Semantic analysis and the catalog (synaptica-gql: semantic.rs, catalog.rs)

    The analyzer walks a program with the set of variables in scope; the in-memory catalog maps
    graph names to metadata, labels and property names. *)
From S2P Require Import Prelude Types Lexer F64 Text Records Ast Expression.
From stdpp Require Import gmap strings.

(** ** catalog.rs

    [Catalog] is the interface a planner would use, [InMemoryCatalog] its one implementation. *)
Module Catalog.
Definition GraphId : Type := Z.
Record GraphMeta := mkGraphMeta { id : GraphId; name : string }.

Class Catalog (C : Type) := {
  get_graph : C → string → option GraphMeta;
  get_labels : C → GraphId → list string;
  get_properties : C → GraphId → string → list string
}.
(** The provided method of the trait. *)
Definition graph_exists `{Catalog C} (c : C) (name : string) : bool :=
  match get_graph c name with Some _ => true | None => false end.

Record InMemoryCatalog := mkCatalog {
  graphs : gmap string GraphMeta;
  labels : gmap GraphId (list string);
  properties : gmap (GraphId * string) (list string)
}.
Definition InMemoryCatalog_new : InMemoryCatalog := mkCatalog ∅ ∅ ∅.
Definition add_graph (name : string) (id : GraphId) (c : InMemoryCatalog) : InMemoryCatalog :=
  mkCatalog (<[name := mkGraphMeta id name]> (graphs c)) (labels c) (properties c).
Definition add_labels (graph_id : GraphId) (ls : list string) (c : InMemoryCatalog) : InMemoryCatalog :=
  mkCatalog (graphs c) (<[graph_id := default [] (labels c !! graph_id) ++ ls]> (labels c)) (properties c).
Definition add_properties (graph_id : GraphId) (label : string) (ps : list string) (c : InMemoryCatalog) : InMemoryCatalog :=
  mkCatalog (graphs c) (labels c)
    (<[(graph_id, label) := default [] (properties c !! (graph_id, label)) ++ ps]> (properties c)).
#[export] Instance InMemoryCatalog_catalog : Catalog InMemoryCatalog := {|
  get_graph c name := graphs c !! name;
  get_labels c graph_id := default [] (labels c !! graph_id);
  get_properties c graph_id label := default [] (properties c !! (graph_id, label))
|}.
End Catalog.

(** ** semantic.rs *)
Inductive SemanticError :=
| UndefinedVariable (v : string)
| DuplicateVariable (v : string)
| TypeMismatch (expected actual : string)
| InvalidLabelReference (l : string)
| InvalidPropertyReference (p : string).
#[export] Instance SemanticError_eq_dec : EqDecision SemanticError.
Proof. solve_decision. Defined.

(** The analyzer is the set of variables in scope. Methods that change it return it together with
    their outcome. *)
Record SemanticAnalyzer := mkAnalyzer { scope : gset string }.
Definition SemanticAnalyzer_new : SemanticAnalyzer := mkAnalyzer ∅.

Section check.
Variable self : SemanticAnalyzer.
Fixpoint check_expression (expr : Expression) : result SemanticError unit :=
  let all := fix all (l : list Expression) : result SemanticError unit :=
    match l with [] => Ok tt | a :: l' => _ ← check_expression a; all l' end in
  let optional (o : option Expression) : result SemanticError unit :=
    match o with Some a => check_expression a | None => Ok tt end in
  match expr with
  | EIdentifier name => if decide (name ∈ scope self) then Ok tt else Err (UndefinedVariable name)
  | EPropertyAccess object _ => check_expression object
  | EBinaryOp l _ r => _ ← check_expression l; check_expression r
  | EUnaryOp _ operand => check_expression operand
  | EFunctionCall _ args => all args
  | EAggregate _ _ arg => optional arg
  | EIsNull inner | EIsNotNull inner => check_expression inner
  | EIn operand l => _ ← check_expression operand; check_expression l
  | ELike operand pattern => _ ← check_expression operand; check_expression pattern
  | EList items => all items
  | EMap entries =>
      (fix go (l : list (string * Expression)) : result SemanticError unit :=
         match l with [] => Ok tt | (_, val) :: l' => _ ← check_expression val; go l' end) entries
  | ECase operand when_clauses else_clause =>
      _ ← optional operand;
      _ ← (fix go (l : list (Expression * Expression)) : result SemanticError unit :=
             match l with
             | [] => Ok tt
             | (when_expr, then_expr) :: l' =>
                 _ ← check_expression when_expr; _ ← check_expression then_expr; go l'
             end) when_clauses;
      optional else_clause
  | ETypeCast e _ => check_expression e
  | _ => Ok tt
  end.
Definition check_return_item (item : ReturnItem) : result SemanticError unit :=
  let '(mkReturnItem expression _) := item in check_expression expression.
Definition analyze_return (r : ReturnStatement) : result SemanticError unit :=
  let '(mkReturn _ items _ _ _ _) := r in for_each (λ item _, check_return_item item) items tt.
End check.

(** [if !self.scope.insert(var) { return Err(DuplicateVariable) }] for the variable of a pattern. *)
Definition bind_variable (variable : option string) (self : SemanticAnalyzer)
    : SemanticAnalyzer * result SemanticError unit :=
  match variable with
  | None => (self, Ok tt)
  | Some var =>
      if decide (var ∈ scope self) then (self, Err (DuplicateVariable var))
      else (mkAnalyzer ({[var]} ∪ scope self), Ok tt)
  end.
Definition element_variable (elem : PatternElement) : option string :=
  match elem with
  | PNode (mkNodePattern variable _ _) => variable
  | PEdge (mkEdgePattern variable _ _ _ _) => variable
  end.
Definition path_elements (p : PathPattern) : list PatternElement :=
  let '(mkPathPattern _ _ _ elements _ _) := p in elements.
Definition analyze_match (m : MatchStatement) (self : SemanticAnalyzer) : SemanticAnalyzer * result SemanticError unit :=
  let '(mkMatch _ _ (mkGraphPattern paths _) where_clause _ _) := m in
  let '(self, r) :=
    for_each_st (λ path self,
      for_each_st (λ elem self, bind_variable (element_variable elem) self) (path_elements path) self) paths self in
  match r with
  | Err e => (self, Err e)
  | Ok _ =>
      match where_clause with
      | Some (mkWhere condition) => (self, check_expression self condition)
      | None => (self, Ok tt)
      end
  end.
Definition analyze_statement (stmt : GqlStatement) (self : SemanticAnalyzer) : SemanticAnalyzer * result SemanticError unit :=
  match stmt with
  | SMatch m => analyze_match m self
  | SReturn r => (self, analyze_return self r)
  | _ => (self, Ok tt)
  end.
Definition analyze (program : GqlProgram) (self : SemanticAnalyzer) : SemanticAnalyzer * result SemanticError unit :=
  for_each_st analyze_statement (statements program) self.

(** ** The check of an expression as a search among its variables *)

(** The variables of an expression in the order the analyzer meets them. *)
Fixpoint identifiers (e : Expression) : list string :=
  let optional o := match o with Some a => identifiers a | None => [] end in
  let all := fix all l := match l with [] => [] | a :: l' => identifiers a ++ all l' end in
  match e with
  | EIdentifier name => [name]
  | EPropertyAccess a _ | EUnaryOp _ a | EIsNull a | EIsNotNull a | ETypeCast a _ => identifiers a
  | EBinaryOp a _ b | EIn a b | ELike a b => identifiers a ++ identifiers b
  | EFunctionCall _ args => all args
  | EAggregate _ _ arg => optional arg
  | EList items => all items
  | EMap entries => (fix go l := match l with [] => [] | (_, a) :: l' => identifiers a ++ go l' end) entries
  | ECase operand when_clauses else_clause =>
      optional operand ++
      (fix go l := match l with [] => [] | (w, t) :: l' => (identifiers w ++ identifiers t) ++ go l' end) when_clauses ++
      optional else_clause
  | _ => []
  end.
(** The first of the variables that is not in scope. *)
Fixpoint first_undefined (S : gset string) (xs : list string) : result SemanticError unit :=
  match xs with
  | [] => Ok tt
  | x :: xs' => if decide (x ∈ S) then first_undefined S xs' else Err (UndefinedVariable x)
  end.
Lemma first_undefined_app S xs ys :
  first_undefined S (xs ++ ys) = (_ ← first_undefined S xs; first_undefined S ys).
Proof. induction xs as [|x xs IH]; [done|]. cbn. by case_decide. Qed.
Lemma first_undefined_ok S xs : first_undefined S xs = Ok tt ↔ Forall (λ x, x ∈ S) xs.
Proof.
  induction xs as [|x xs IH]; cbn; [split; [by constructor|done]|]. rewrite Forall_cons, <- IH. case_decide; naive_solver.
Qed.
Lemma bind_ok_r {E} (r : result E unit) : (_ ← r; Ok tt) = r.
Proof. by destruct r as [[]|]. Qed.

Lemma check_expression_first self e : check_expression self e = first_undefined (scope self) (identifiers e).
Proof.
  induction e as [lit|name|object property IH|name args IH|a op b IHa IHb|op a IH|operand arms els IHo IHw IHe
    |q|fn distinct arg IH|exprs IH|entries IH|name|q|a IH|a IH|a l IHa IHl|a l IHa IHl|a t IH|p] using Expression_tree_ind;
    try done; cbn; try (rewrite first_undefined_app; by rewrite ?IHa, ?IHb, ?IHl).
  - induction IH as [|a l Ha _ IHl]; [done|]. by rewrite first_undefined_app, <- IHl, Ha.
  - rewrite !first_undefined_app. apply bind_ext; [by destruct operand|]. intros _.
    apply bind_ext; [|intros _; by destruct els].
    clear -IHw. induction IHw as [|[w t] l [Hw Ht] _ IHl]; [done|]. cbn in *.
    rewrite !first_undefined_app, <- IHl, Hw, Ht. by destruct (first_undefined _ _).
  - by destruct arg.
  - induction IH as [|a l Ha _ IHl]; [done|]. by rewrite first_undefined_app, <- IHl, Ha.
  - induction IH as [|[k a] l Ha _ IHl]; [done|]. cbn in *. by rewrite first_undefined_app, <- IHl, Ha.
Qed.

(** ** What the analyzer accepts *)
Definition declared (stmt : GqlStatement) : list string :=
  match stmt with
  | SMatch (mkMatch _ _ (mkGraphPattern paths _) _ _ _) => omap element_variable (paths ≫= path_elements)
  | _ => []
  end.
(** The variables an analyzed statement uses. *)
Definition used (stmt : GqlStatement) : list string :=
  match stmt with
  | SMatch (mkMatch _ _ _ (Some (mkWhere condition)) _ _) => identifiers condition
  | SReturn (mkReturn _ items _ _ _ _) => items ≫= λ '(mkReturnItem e _), identifiers e
  | _ => []
  end.
(** Every pattern variable is new and every variable used was declared by then. *)
Fixpoint well_scoped (S : gset string) (stmts : list GqlStatement) : Prop :=
  match stmts with
  | [] => True
  | stmt :: stmts' =>
      NoDup (declared stmt) ∧ (∀ x, x ∈ declared stmt → x ∉ S) ∧
      Forall (λ x, x ∈ S ∪ list_to_set (declared stmt)) (used stmt) ∧
      well_scoped (S ∪ list_to_set (declared stmt)) stmts'
  end.

Lemma for_each_st_app {E S A} (body : A → S → S * result E unit) l k s :
  for_each_st body (l ++ k) s =
  match for_each_st body l s with (s', Ok _) => for_each_st body k s' | (s', Err e) => (s', Err e) end.
Proof.
  revert s. induction l as [|x l IH]; intros s; [done|]. cbn. destruct (body x s) as [s' [[]|e]]; [apply IH|done].
Qed.
Lemma for_each_st_bind {E S A B} (f : A → list B) (body : B → S → S * result E unit) l s :
  for_each_st (λ a, for_each_st body (f a)) l s = for_each_st body (l ≫= f) s.
Proof.
  revert s. induction l as [|x l IH]; intros s; [done|]. cbn. rewrite for_each_st_app.
  destruct (for_each_st body (f x) s) as [s' [[]|e]]; [apply IH|done].
Qed.
(** Binding the variables of a list of pattern elements. *)
Lemma bind_elements elems self :
  let r := for_each_st (λ elem self, bind_variable (element_variable elem) self) elems self in
  match r.2 with
  | Ok _ => NoDup (omap element_variable elems) ∧ (∀ x, x ∈ omap element_variable elems → x ∉ scope self) ∧
      scope r.1 = scope self ∪ list_to_set (omap element_variable elems)
  | Err e => ¬ (NoDup (omap element_variable elems) ∧ (∀ x, x ∈ omap element_variable elems → x ∉ scope self)) ∧
      ∃ x, e = DuplicateVariable x ∧ x ∈ omap element_variable elems
  end.
Proof.
  cbv zeta. revert self. induction elems as [|elem elems IH]; intros self; cbn [for_each_st omap list_omap].
  - split; [constructor|]. split; [set_solver|]. cbn. set_solver.
  - destruct (bind_variable (element_variable elem) self) as [s1 o] eqn:Hb. revert Hb.
    unfold bind_variable. destruct (element_variable elem) as [x|]; [|intros [= <- <-]; apply IH].
    case_decide as Hx; intros [= <- <-]; [cbn; split; [set_solver|set_solver]|].
    specialize (IH (mkAnalyzer ({[x]} ∪ scope self))). cbn [scope] in IH.
    destruct (for_each_st _ elems _) as [s' [u|e]]; cbn in *.
    + destruct IH as (Hnd & Hnew & Hs). rewrite NoDup_cons. split_and!; [set_solver..|].
      rewrite Hs. set_solver.
    + destruct IH as [Hno (y & -> & Hy)]. split; [|set_solver]. rewrite NoDup_cons. intros [[Hx' Hnd] Hnew].
      apply Hno. split; [done|]. set_solver.
Qed.

Lemma first_undefined_return self items :
  for_each (λ item _, check_return_item self item) items tt =
  first_undefined (scope self) (items ≫= λ '(mkReturnItem e _), identifiers e).
Proof.
  induction items as [|[e alias] items IH]; [done|]. cbn. rewrite first_undefined_app, <- IH, check_expression_first.
  by destruct (first_undefined (scope self) (identifiers e)) as [[]|].
Qed.
(** One statement: the variables it declares are new, then the variables it uses are looked up. *)
Lemma analyze_statement_spec stmt self :
  let r := analyze_statement stmt self in
  match r.2 with
  | Ok _ => NoDup (declared stmt) ∧ (∀ x, x ∈ declared stmt → x ∉ scope self) ∧
      Forall (λ x, x ∈ scope self ∪ list_to_set (declared stmt)) (used stmt) ∧
      scope r.1 = scope self ∪ list_to_set (declared stmt)
  | Err _ => ¬ (NoDup (declared stmt) ∧ (∀ x, x ∈ declared stmt → x ∉ scope self) ∧
      Forall (λ x, x ∈ scope self ∪ list_to_set (declared stmt)) (used stmt))
  end.
Proof.
  cbv zeta.
  destruct stmt as [[graph optional [paths mode] where_clause order lo]|[distinct items group having order lo]| | | | | | | | | | | | | ];
    try (cbn; split; [constructor|]; split; [set_solver|]; split; [constructor|set_solver]).
  - cbn [analyze_statement analyze_match declared used]. rewrite for_each_st_bind.
    pose proof (bind_elements (paths ≫= path_elements) self) as Hb. cbv zeta in Hb.
    destruct (for_each_st _ (paths ≫= path_elements) self) as [s' [u|e]]; cbn [fst snd] in *; [|tauto].
    destruct Hb as (Hnd & Hnew & Hs). destruct where_clause as [[condition]|].
    + cbn [fst snd]. rewrite check_expression_first, Hs.
      destruct (first_undefined _ (identifiers condition)) as [[]|e] eqn:Hf.
      * by apply first_undefined_ok in Hf.
      * intros (_ & _ & Hall). apply first_undefined_ok in Hall. congruence.
    + cbn [fst snd]. auto using Forall_nil_2.
  - cbn [analyze_statement analyze_return declared used fst snd]. rewrite first_undefined_return.
    replace (scope self ∪ list_to_set []) with (scope self) by (cbn; set_solver).
    destruct (first_undefined _ _) as [[]|e] eqn:Hf.
    + apply first_undefined_ok in Hf. split; [constructor|]. split; [set_solver|]. done.
    + intros (_ & _ & Hall). apply first_undefined_ok in Hall. congruence.
Qed.

(** C16: The analyzer accepts exactly the well-scoped programs: each MATCH declares variables that
    are pairwise distinct and new, and its WHERE condition and each RETURN item use only variables
    declared so far. After accepting, its scope has grown by the declared variables. The error
    for an expression is the first of its variables that is not in scope. *)
Theorem analyze_accepts program self :
  ((analyze program self).2 = Ok tt ↔ well_scoped (scope self) (statements program)) ∧
  ((analyze program self).2 = Ok tt →
     scope (analyze program self).1 = scope self ∪ list_to_set (statements program ≫= declared)) ∧
  ∀ e, check_expression self e = first_undefined (scope self) (identifiers e).
Proof.
  destruct program as [stmts]. unfold analyze. cbn [statements].
  split_and!; [| |apply check_expression_first]; revert self;
    (induction stmts as [|stmt stmts IH]; intros self; cbn [for_each_st well_scoped mbind list_bind]; [by cbn; set_solver|]);
    pose proof (analyze_statement_spec stmt self) as Hst; cbv zeta in Hst;
    destruct (analyze_statement stmt self) as [s' [[]|e]]; cbn [fst snd] in *.
  - destruct Hst as (Hnd & Hnew & Hu & Hs). rewrite IH, Hs. tauto.
  - split; [done|]. tauto.
  - destruct Hst as (Hnd & Hnew & Hu & Hs). intros Hok. rewrite (IH s' Hok), Hs, list_to_set_app_L. set_solver.
  - done.
Qed.

(** ** Analysed expressions evaluate without unknown identifiers *)
Section evaluation.
Context `{Platform, Unicode}.

Definition unknown_identifier (e : failure ExecError) : Prop :=
  ∃ x, e = Raised (ExpressionError ("unknown identifier: " +:+ x)).
Lemma known_unless {A} (r : exec A) : (∀ x, r ≠ raise (ExpressionError ("unknown identifier: " +:+ x))) →
  avoids unknown_identifier r.
Proof. intros Hr e -> [x ->]. by apply (Hr x). Qed.
Ltac known := apply known_unless; intros ?; done.
Lemma known_literal lit : avoids unknown_identifier (eval_literal lit).
Proof.
  induction lit as [ | | | | | | | | |items IH|entries IH] using Literal_tree_ind; try known.
  - cbn. apply avoids_bind; [|done]. induction IH as [|a l Ha _ IHl]; [done|].
    apply avoids_bind; [done|]. intros v _. by apply avoids_bind.
  - cbn. apply avoids_bind; [|done]. generalize (@nil (string * Value)) as acc.
    induction IH as [|[k a] l Ha _ IHl]; [done|]. intros acc. apply avoids_bind; [done|]. intros v _. apply IHl.
Qed.
Lemma known_arithmetic lv rv f g : (∀ a b e, f a b = Err e → e = Panic) → avoids unknown_identifier (eval_arithmetic lv rv f g).
Proof.
  intros Hf. unfold eval_arithmetic. repeat case_match; try known. apply avoids_fmap.
  destruct (f i i0) as [z|e] eqn:Hz; [done|]. rewrite (Hf _ _ _ Hz). known.
Qed.
Lemma known_binary lv op rv : avoids unknown_identifier (eval_binary_op lv op rv).
Proof.
  assert (∀ z e, i64_op (E:=ExecError) z = Err e → e = Panic) as Hop
    by (intros z e; unfold i64_op; repeat case_match; by intros [= <-]).
  destruct op; cbn [eval_binary_op]; try known;
    try (unfold eval_comparison; cbv zeta; repeat case_match; known);
    try (case_match; [known|]); try (apply known_arithmetic; intros a b e; apply Hop);
    try (apply known_arithmetic; intros a b e; unfold int_div, int_rem; case_match; by intros [= <-]);
    repeat case_match; known.
Qed.
Lemma known_unary op v : avoids unknown_identifier (eval_unary_op op v).
Proof. destruct op, v; cbn; try known. case_match; known. Qed.
Lemma known_type_error {E A} (f : E → string) (r : may_panic E A) : avoids unknown_identifier (map_raised (λ e, TypeError (f e)) r).
Proof. destruct r as [a|[e|]]; known. Qed.
Lemma known_function name args : avoids unknown_identifier (eval_function name args).
Proof.
  unfold eval_function. destruct (find_function _ _) as [f|] eqn:Hf; [|known]. apply find_function_in in Hf.
  assert (Forall (λ kf, ∀ v, avoids unknown_identifier (kf.2 v)) function_table) as Ht.
  { repeat apply Forall_cons_2; [..|apply Forall_nil_2]; cbn [snd]; intros v; destruct v; try known;
      try (apply avoids_fmap); try apply known_type_error.
    - destruct (str_parse_i64 _); known.
    - destruct (str_parse_f64 _); known. }
  rewrite Forall_forall in Ht. apply (Ht _ Hf).
Qed.
Lemma known_get r name : record_wf r → avoids unknown_identifier (Record_get r name).
Proof. intros Hr. destruct (Record_get_total (E:=ExecError) r name Hr) as (o & -> & _). done. Qed.

Lemma identifiers_list x exprs e : e ∈ exprs → x ∈ identifiers e → x ∈ identifiers (EList exprs).
Proof. cbn. induction 1 as [e l|e a l _ IH]; rewrite elem_of_app; auto. Qed.
Lemma identifiers_map x entries kv : kv ∈ entries → x ∈ identifiers kv.2 → x ∈ identifiers (EMap entries).
Proof. cbn. induction 1 as [[k e] l|kv' [k a] l _ IH]; rewrite elem_of_app; auto. Qed.
Lemma identifiers_case x operand arms els :
  (∃ e, operand = Some e ∧ x ∈ identifiers e) ∨
  (∃ wt, wt ∈ arms ∧ (x ∈ identifiers wt.1 ∨ x ∈ identifiers wt.2)) ∨
  (∃ e, els = Some e ∧ x ∈ identifiers e) → x ∈ identifiers (ECase operand arms els).
Proof.
  cbn. rewrite !elem_of_app. intros [(e & -> & ?)|[(wt & Hwt & ?)|(e & -> & ?)]]; auto.
  right; left. induction Hwt as [[w t] l|wt [w t] l _ IH]; cbn in *; rewrite !elem_of_app; auto.
Qed.

(** The analysis is sound for the evaluator: an expression it accepts, evaluated in a record
    with a column for every variable in scope, never fails with an unknown identifier, whatever
    else it does. *)
Theorem checked_expression_known self expr r : check_expression self expr = Ok tt →
  record_wf r → (∀ x, x ∈ scope self → x ∈ columns r) → avoids unknown_identifier (evaluate expr r).
Proof.
  intros Hc Hr Hcols. rewrite check_expression_first, first_undefined_ok in Hc.
  assert (∀ x, x ∈ identifiers expr → x ∈ columns r) as Hids by (rewrite Forall_forall in Hc; auto). clear Hc.
  induction expr as [lit|name|object property IH|name args IH|a op b IHa IHb|op a IH|operand arms els IHo IHw IHe
    |q|fn distinct arg IH|exprs IH|entries IH|name|q|a IH|a IH|a l IHa IHl|a l IHa IHl|a t IH|p] using Expression_tree_ind;
    try known.
  - apply known_literal.
  - apply avoids_bind; [by apply known_get|]. intros [v|] Ho; [done|].
    destruct (Record_get_total (E:=ExecError) r name Hr) as (o & Ho' & Hn). rewrite Ho in Ho'. injection Ho' as <-.
    exfalso. apply (proj1 Hn eq_refl), Hids. by left.
  - apply avoids_bind.
    + destruct object; try done. apply avoids_bind; [by apply known_get|]. intros [v|] _; [done|]. by apply known_get.
    + intros [v|] _; [done|]. apply avoids_bind; [by apply IH|done].
  - rewrite evaluate_call. apply avoids_bind; [|intros vs _; apply known_function].
    apply avoids_all. rewrite Forall_forall in *. intros e He. apply (IH e He). intros x Hx.
    apply Hids. exact (identifiers_list x args e He Hx).
  - cbn in Hids. apply avoids_bind; [apply IHa; intros x Hx; apply Hids; set_solver|]. intros lv _.
    assert (avoids unknown_identifier (evaluate b r)) by (apply IHb; intros x Hx; apply Hids; set_solver).
    destruct op; try (apply avoids_bind; [done|intros; apply known_binary]);
      (case_match; [done|]); (apply avoids_bind; [done|]); intros rv _; by repeat case_match.
  - apply avoids_bind; [by apply IH|]. intros v _. apply known_unary.
  - rewrite evaluate_case. cbv zeta.
    assert (avoids unknown_identifier (match els with Some e => evaluate e r | None => Ok Null end)).
    { destruct els as [e|]; [|done]. apply IHe. intros x Hx. apply Hids, identifiers_case. eauto. }
    assert (∀ test, avoids unknown_identifier
      (evaluate_arms r (match els with Some e => evaluate e r | None => Ok Null end) test arms)).
    { intros test. apply avoids_arms; [done|]. rewrite Forall_forall in *. intros wt Hwt. destruct (IHw wt Hwt) as [Hw1 Hw2].
      split; [apply Hw1|apply Hw2]; intros x Hx; apply Hids, identifiers_case; eauto 7. }
    destruct operand as [e|]; [|auto]. apply avoids_bind; [|auto].
    apply IHo. intros x Hx. apply Hids, identifiers_case. eauto.
  - cbn [evaluate]. destruct arg as [a|]; [by apply IH|]. by destruct fn.
  - rewrite evaluate_list. apply avoids_bind; [|done]. apply avoids_all. rewrite Forall_forall in *.
    intros e He. apply (IH e He). intros x Hx. apply Hids. by eapply identifiers_list.
  - rewrite evaluate_map. apply avoids_bind; [|done]. apply avoids_entries. rewrite Forall_forall in *.
    intros kv Hkv. apply (IH kv Hkv). intros x Hx. apply Hids. by eapply identifiers_map.
  - apply avoids_bind; [by apply IH|done].
  - apply avoids_bind; [by apply IH|done].
  - cbn in Hids. apply avoids_bind; [apply IHa; intros x Hx; apply Hids; set_solver|]. intros v _.
    apply avoids_bind; [apply IHl; intros x Hx; apply Hids; set_solver|]. intros w _. case_match; done || known.
Qed.
End evaluation.

(** ** Witness: MATCH (n)-[e]->(m) WHERE n.age > 40 RETURN m *)
Definition sample_condition : Expression :=
  EBinaryOp (EPropertyAccess (EIdentifier "n") "age") OpGt (ELiteral (LInteger 40)).
Definition sample_program (returned : string) : GqlProgram :=
  let node v := PNode (mkNodePattern (Some v) [] []) in
  let edge v := PEdge (mkEdgePattern (Some v) Outgoing [] [] None) in
  mkProgram [
    SMatch (mkMatch None false
      (mkGraphPattern [mkPathPattern None None None [node "n"%string; edge "e"%string; node "m"%string] None None] None)
      (Some (mkWhere sample_condition)) None None);
    SReturn (mkReturn false [mkReturnItem (EIdentifier returned) None] None None None None)].
Lemma analyze_accepts_witness :
  (analyze (sample_program "m") SemanticAnalyzer_new).2 = Ok tt ∧
  well_scoped ∅ (statements (sample_program "m")) ∧ ¬ well_scoped ∅ (statements (sample_program "x")).
Proof.
  assert ((analyze (sample_program "m") SemanticAnalyzer_new).2 = Ok tt) as Hm by (vm_compute; reflexivity).
  split; [exact Hm|]. split; [by apply (analyze_accepts (sample_program "m") SemanticAnalyzer_new)|].
  intros Hx. apply (analyze_accepts (sample_program "x") SemanticAnalyzer_new) in Hx. vm_compute in Hx. discriminate Hx.
Defined.
#[local] Instance witness_build : Platform := build true.
#[local] Instance witness_unicode : Unicode := ascii_unicode.
Lemma checked_expression_known_witness :
  avoids unknown_identifier (evaluate sample_condition sample_record) ∧
  evaluate sample_condition sample_record = Ok (Bool true).
Proof.
  split; [|vm_compute; reflexivity].
  apply (checked_expression_known (mkAnalyzer {["n"%string]}) sample_condition sample_record);
    [vm_compute; reflexivity|apply sample_record_wf|].
  cbn. intros x ->%elem_of_singleton. by left.
Defined.
