(* ===== verification/Planner.v ===== *)
(** * Logical plans, the planner and the rule optimizer (synaptica-gql: planner.rs, optimizer.rs)

    The planner folds the statements of a program into a tree of logical operators, the plan so
    far being the input of the next statement. It raises [PlanError]s, and panics where the code
    indexes a vector out of range. *)
From S2P Require Import Prelude Types Lexer F64 Text Records Ast.

Inductive PlanError :=
| UnsupportedStatement
| PlanInternal (msg : string).
#[export] Instance PlanError_eq_dec : EqDecision PlanError.
Proof. solve_decision. Defined.
Definition PlanError_fmt (e : PlanError) : string :=
  match e with
  | UnsupportedStatement => "unsupported statement kind"
  | PlanInternal msg => "planning error: " +:+ msg
  end.

Inductive LogicalPlan :=
| Scan (labels : list string) (graph_id variable : option string)
| Filter (input : LogicalPlan) (predicate : Expression)
| Project (input : LogicalPlan) (expressions : list Expression) (aliases : list (option string))
| Expand (input : LogicalPlan) (edge_label : string) (direction : Direction) (target_labels : list string)
    (edge_variable target_variable : option string)
| Join (left right : LogicalPlan)
| Aggregate (input : LogicalPlan) (group_by aggregates : list Expression)
| Sort (input : LogicalPlan) (order_by : list (Expression * SortDirection))
| Limit (input : LogicalPlan) (count offset : option Z)
| Distinct (input : LogicalPlan)
| CreateNode (labels : list string) (properties : list (string * Expression))
| CreateEdge (label : string) (source target : LogicalPlan) (properties : list (string * Expression))
| DeleteNode (input : LogicalPlan) (targets : list string) (detach : bool)
| SetProperty (input : LogicalPlan) (target : option string) (property : string) (value : Expression)
| Union (left right : LogicalPlan) (all : bool)
| CallProcedure (procedure : string) (arguments : list Expression) (yield_items : option (list string))
| Empty
| CreateEdgeFromMatch (input : LogicalPlan) (source_var target_var label : string)
    (properties : list (string * Expression))
| IndexScan (index_name : string) (labels : list string) (variable : option string)
    (lookup_properties : list string) (lookup_values : list Expression) (remaining_predicate : option Expression)
| CreateIndex (name : string) (unique : bool) (entity_type : string) (label : option string)
    (property_names : list string)
| DropIndex (name : string)
| CreateGraph (name : string) (if_not_exists : bool)
| DropGraph (name : string) (if_exists : bool)
| ListGraphs.

Abbreviation plan_result A := (may_panic PlanError A).
Definition plan_error {A} (msg : string) : plan_result A := raise (PlanInternal msg).

(** ** Order by an alias of the projection *)
Fixpoint alias_index (name : string) (aliases : list (option string)) : option nat :=
  match aliases with
  | [] => None
  | Some a :: aliases' => if String.eqb a name then Some 0%nat else S <$> alias_index name aliases'
  | None :: aliases' => S <$> alias_index name aliases'
  end.
Definition resolve_order_alias (expr : Expression) (return_exprs : list Expression) (aliases : list (option string))
    : plan_result Expression :=
  match expr with
  | EIdentifier name =>
      match alias_index name aliases with
      | Some i => match return_exprs !! i with Some e => Ok e | None => panic end
      | None => Ok expr
      end
  | _ => Ok expr
  end.

(** ** Patterns *)
Definition pattern_nodes (elements : list PatternElement) : list NodePattern :=
  omap (λ e, match e with PNode n => Some n | PEdge _ => None end) elements.
Definition pattern_edges (elements : list PatternElement) : list EdgePattern :=
  omap (λ e, match e with PEdge e => Some e | PNode _ => None end) elements.
Definition node_variable (n : NodePattern) : option string := let '(mkNodePattern v _ _) := n in v.
Definition node_labels_of (n : NodePattern) : list string := let '(mkNodePattern _ ls _) := n in ls.
Definition node_properties_of (n : NodePattern) : list (string * Expression) := let '(mkNodePattern _ _ ps) := n in ps.

(** A Filter per property constraint [{key: val}]. *)
Definition property_predicate (variable : option string) (key : string) (val : Expression) : Expression :=
  EBinaryOp (EPropertyAccess (EIdentifier (default EmptyString variable)) key) OpEq val.
Definition apply_inline_property_filters (plan : LogicalPlan) (properties : list (string * Expression))
    (variable : option string) : LogicalPlan :=
  foldl (λ plan '(key, val), Filter plan (property_predicate variable key val)) plan properties.

(** One edge of a path: expand, then the filters of the edge and of the node it leads to. *)
Definition plan_edge (plan : LogicalPlan) (edge_pat : EdgePattern) (target_node : option NodePattern) : LogicalPlan :=
  let '(mkEdgePattern variable direction labels properties _) := edge_pat in
  let plan := Expand plan (default EmptyString (head labels)) direction
    (match target_node with Some n => node_labels_of n | None => [] end)
    variable (target_node ≫= node_variable) in
  let plan := apply_inline_property_filters plan properties variable in
  match target_node with
  | Some tn => apply_inline_property_filters plan (node_properties_of tn) (node_variable tn)
  | None => plan
  end.
Fixpoint plan_edges (plan : LogicalPlan) (edges : list EdgePattern) (targets : list NodePattern) : LogicalPlan :=
  match edges with
  | [] => plan
  | e :: edges' => plan_edges (plan_edge plan e (head targets)) edges' (tail targets)
  end.
(** The scan of the first node, or the plan so far when there is one and the node has a variable. *)
Definition plan_source (graph : option string) (input : option LogicalPlan) (labels : list string)
    (variable : option string) : LogicalPlan :=
  match input, variable with
  | Some plan, Some _ => plan
  | _, _ => Scan labels graph variable
  end.
Definition plan_path (graph : option string) (input : option LogicalPlan) (path : PathPattern) : plan_result LogicalPlan :=
  let '(mkPathPattern _ _ _ elements _ _) := path in
  let nodes := pattern_nodes elements in
  match pattern_edges elements with
  | [] =>
      let variable := head (omap node_variable nodes) in
      Ok (apply_inline_property_filters (plan_source graph input (nodes ≫= node_labels_of) variable)
            (nodes ≫= node_properties_of) variable)
  | edges =>
      match nodes with
      | [] => plan_error "edge pattern missing source node"
      | source_node :: targets =>
          let plan := plan_source graph input (node_labels_of source_node) (node_variable source_node) in
          let plan := apply_inline_property_filters plan (node_properties_of source_node) (node_variable source_node) in
          Ok (plan_edges plan edges targets)
      end
  end.
Fixpoint plan_paths (graph : option string) (input : option LogicalPlan) (paths : list PathPattern)
    : plan_result (list LogicalPlan) :=
  match paths with
  | [] => Ok []
  | p :: paths' => scan ← plan_path graph input p; scans ← plan_paths graph input paths'; Ok (scan :: scans)
  end.
(** [scans.remove(0)] panics on a pattern without paths. *)
Definition join_scans (scans : list LogicalPlan) : plan_result LogicalPlan :=
  match scans with [] => panic | plan :: rest => Ok (foldl Join plan rest) end.
Definition plan_where (plan : LogicalPlan) (where_clause : option WhereClause) : LogicalPlan :=
  match where_clause with Some (mkWhere condition) => Filter plan condition | None => plan end.
Definition plan_match (m : MatchStatement) (input : option LogicalPlan) : plan_result LogicalPlan :=
  let '(mkMatch graph _ (mkGraphPattern paths _) where_clause _ _) := m in
  scans ← plan_paths graph input paths;
  plan ← join_scans scans;
  Ok (plan_where plan where_clause).

(** ** Projections *)
Definition item_expression (i : ReturnItem) : Expression := let '(mkReturnItem e _) := i in e.
Definition item_alias (i : ReturnItem) : option string := let '(mkReturnItem _ a) := i in a.
(** [*n as u64] of an integer literal *)
Definition literal_u64 (e : option Expression) : option Z :=
  match e with Some (ELiteral (LInteger n)) => Some (wrap64 n) | _ => None end.
Definition plan_limit (plan : LogicalPlan) (lo : option LimitOffsetClause) : LogicalPlan :=
  match lo with Some (mkLimitOffset limit offset) => Limit plan (literal_u64 limit) (literal_u64 offset) | None => plan end.
Definition order_item (i : OrderByItem) : Expression * SortDirection := let '(mkOrderByItem e d) := i in (e, d).
Fixpoint resolve_order (items : list OrderByItem) (exprs : list Expression) (aliases : list (option string))
    : plan_result (list (Expression * SortDirection)) :=
  match items with
  | [] => Ok []
  | mkOrderByItem e d :: items' =>
      e' ← resolve_order_alias e exprs aliases;
      rest ← resolve_order items' exprs aliases;
      Ok ((e', d) :: rest)
  end.
Definition plan_return (r : ReturnStatement) (input : option LogicalPlan) : plan_result LogicalPlan :=
  let '(mkReturn distinct items _ _ order_by limit_offset) := r in
  let exprs := item_expression <$> items in
  let aliases := item_alias <$> items in
  let base := default Empty input in
  plan ← match order_by with
         | Some (mkOrderBy obs) => order_exprs ← resolve_order obs exprs aliases; Ok (Sort base order_exprs)
         | None => Ok base
         end;
  let plan := Project plan exprs aliases in
  let plan := if distinct then Distinct plan else plan in
  Ok (plan_limit plan limit_offset).
Definition plan_with (w : WithStatement) (input : option LogicalPlan) : LogicalPlan :=
  let '(mkWith distinct items where_clause order_by limit_offset) := w in
  let plan := Project (default Empty input) (item_expression <$> items) (item_alias <$> items) in
  let plan := if distinct then Distinct plan else plan in
  let plan := plan_where plan where_clause in
  let plan := match order_by with Some (mkOrderBy obs) => Sort plan (order_item <$> obs) | None => plan end in
  plan_limit plan limit_offset.

(** ** Updates *)
Definition plan_insert (ins : InsertStatement) (input : option LogicalPlan) : plan_result LogicalPlan :=
  let '(mkInsert patterns) := ins in
  let elements := patterns ≫= λ '(mkPathPattern _ _ _ es _ _), es in
  match pattern_edges elements, input with
  | mkEdgePattern _ _ labels properties _ :: _, Some base =>
      let variables := omap node_variable (pattern_nodes elements) in
      source_var ← ok_or (Raised (PlanInternal "edge INSERT requires source node variable")) (variables !! 0%nat);
      target_var ← ok_or (Raised (PlanInternal "edge INSERT requires target node variable")) (variables !! 1%nat);
      label ← ok_or (Raised (PlanInternal "edge INSERT requires a label")) (head labels);
      Ok (CreateEdgeFromMatch base source_var target_var label properties)
  | _, _ =>
      match pattern_nodes elements with
      | mkNodePattern _ labels properties :: _ => Ok (CreateNode labels properties)
      | [] => plan_error "INSERT requires at least one node pattern"
      end
  end.
Definition plan_delete (d : DeleteStatement) (input : option LogicalPlan) : plan_result LogicalPlan :=
  let '(mkDelete detach targets) := d in
  base ← ok_or (Raised (PlanInternal "DELETE requires a preceding MATCH")) input;
  Ok (DeleteNode base (omap (λ e, match e with EIdentifier name => Some name | _ => None end) targets) detach).
Definition set_item (item : SetItem) (plan : LogicalPlan) : plan_result LogicalPlan :=
  match item with
  | SetItemProperty target property value =>
      Ok (SetProperty plan (match target with EIdentifier name => Some name | _ => None end) property value)
  | _ => plan_error "unsupported SET item"
  end.
Definition plan_set (s : SetStatement) (input : option LogicalPlan) : plan_result LogicalPlan :=
  let '(mkSet items) := s in
  base ← ok_or (Raised (PlanInternal "SET requires a preceding MATCH")) input;
  for_each set_item items base.

Definition plan_statement (stmt : GqlStatement) (input : option LogicalPlan) : plan_result LogicalPlan :=
  match stmt with
  | SMatch m => plan_match m input
  | SReturn r => plan_return r input
  | SInsert ins => plan_insert ins input
  | SWith w => Ok (plan_with w input)
  | SCall (mkCall procedure arguments yield_items) => Ok (CallProcedure procedure arguments yield_items)
  | SDelete d => plan_delete d input
  | SSet s => plan_set s input
  | SCreateIndex ci =>
      Ok (CreateIndex (ci_name ci) (ci_unique ci) (ci_entity_type ci) (ci_label ci) (ci_property_names ci))
  | SDropIndex di => Ok (DropIndex (di_name di))
  | SCreateGraph cg => Ok (CreateGraph (cg_name cg) (cg_if_not_exists cg))
  | SDropGraph dg => Ok (DropGraph (dg_name dg) (dg_if_exists dg))
  | SListGraphs => Ok ListGraphs
  | SRemove _ | SCreateGraphType _ | SCompositeQuery _ => raise UnsupportedStatement
  end.
Definition plan_step (stmt : GqlStatement) (current : option LogicalPlan) : plan_result (option LogicalPlan) :=
  plan ← plan_statement stmt current; Ok (Some plan).
Definition plan (program : GqlProgram) : plan_result LogicalPlan :=
  match statements program with
  | [] => Ok Empty
  | stmts =>
      current ← for_each plan_step stmts None;
      ok_or (Raised (PlanInternal "empty plan")) current
  end.

(** ** optimizer.rs *)
Class OptimizerRule (R : Type) := { rule_name : R → string; rule_apply : R → LogicalPlan → option LogicalPlan }.
Inductive FilterPushdown := mkFilterPushdown.
Definition FilterPushdown_apply (plan : LogicalPlan) : option LogicalPlan :=
  match plan with
  | Filter (Project proj_input expressions aliases) predicate =>
      Some (Project (Filter proj_input predicate) expressions aliases)
  | _ => None
  end.
#[export] Instance FilterPushdown_rule : OptimizerRule FilterPushdown := {|
  rule_name _ := "FilterPushdown";
  rule_apply _ plan := FilterPushdown_apply plan
|}.
(** A [Box<dyn OptimizerRule>]: a rule of any type. *)
Inductive boxed_rule := Boxed (R : Type) (rule : OptimizerRule R) (r : R).
Definition boxed_apply (b : boxed_rule) (plan : LogicalPlan) : option LogicalPlan := let '(Boxed _ _ r) := b in rule_apply r plan.
Record QueryOptimizer := mkOptimizer { rules : list boxed_rule }.
Definition QueryOptimizer_new : QueryOptimizer := mkOptimizer [Boxed FilterPushdown _ mkFilterPushdown].
Definition with_rules (rules : list boxed_rule) : QueryOptimizer := mkOptimizer rules.
Definition rule_optimize (self : QueryOptimizer) (plan : LogicalPlan) : LogicalPlan :=
  foldl (λ current rule, default current (boxed_apply rule current)) plan (rules self).

(** ** Plans the executor can run *)
(** The operators the planner may produce, those that write only when [updates] is set; the executor
    has no case for Aggregate, CreateEdge and Union. *)
Fixpoint plan_within (updates : bool) (p : LogicalPlan) : bool :=
  match p with
  | Filter i _ | Project i _ _ | Expand i _ _ _ _ _ | Sort i _ | Limit i _ _ | Distinct i => plan_within updates i
  | DeleteNode i _ _ | SetProperty i _ _ _ | CreateEdgeFromMatch i _ _ _ _ => updates && plan_within updates i
  | Join l r => plan_within updates l && plan_within updates r
  | Aggregate _ _ _ | CreateEdge _ _ _ _ | Union _ _ _ | IndexScan _ _ _ _ _ _ => false
  | CreateNode _ _ | CreateIndex _ _ _ _ _ | DropIndex _ | CreateGraph _ _ | DropGraph _ _ => updates
  | Scan _ _ _ | CallProcedure _ _ _ | Empty | ListGraphs => true
  end.
Definition executable : LogicalPlan → bool := plan_within true.
Definition reads_only : LogicalPlan → bool := plan_within false.
Definition is_update (s : GqlStatement) : bool :=
  match s with
  | SMatch _ | SReturn _ | SCall _ | SWith _ | SCompositeQuery _ | SListGraphs => false
  | _ => true
  end.
(** A MATCH has at least one path, as the grammar has it. *)
Definition has_path (s : GqlStatement) : bool :=
  match s with SMatch (mkMatch _ _ (mkGraphPattern [] _) _ _ _) => false | _ => true end.

(** What planning may give: a plan of these operators, an error, and a panic only when [may] holds *)
Definition plans (updates : bool) (may : Prop) (r : plan_result LogicalPlan) : Prop :=
  match r with Ok p => plan_within updates p = true | Err (Raised _) => True | Err Panic => may end.
Section within.
Variables (updates : bool) (may : Prop).
#[local] Abbreviation within := (plan_within updates).
#[local] Abbreviation plans' := (plans updates may).
Lemma plans_bind {A} (P : A → Prop) (r : plan_result A) (f : A → plan_result LogicalPlan) :
  match r with Ok a => P a | Err (Raised _) => True | Err Panic => may end →
  (∀ a, P a → plans' (f a)) → plans' (a ← r; f a).
Proof. intros Hr Hf. destruct r as [a|[e|]]; [by apply Hf|done..]. Qed.

Lemma within_filters p props v : within p = true → within (apply_inline_property_filters p props v) = true.
Proof. revert p. induction props as [|[k e] props IH]; intros p Hp; [done|]. by apply IH. Qed.
Lemma within_edge p e t : within p = true → within (plan_edge p e t) = true.
Proof. intros Hp. destruct e. cbn. destruct t; by repeat apply within_filters. Qed.
Lemma within_edges p es ts : within p = true → within (plan_edges p es ts) = true.
Proof. revert p ts. induction es as [|e es IH]; intros p ts Hp; [done|]. apply IH. by apply within_edge. Qed.
Lemma within_source g input ls v : (∀ p, input = Some p → within p = true) → within (plan_source g input ls v) = true.
Proof. intros Hi. destruct input as [p|], v; try done. by apply Hi. Qed.
Lemma plans_path g input path : (∀ p, input = Some p → within p = true) → plans' (plan_path g input path).
Proof.
  intros Hi. destruct path as [v mode sh elements q w]. cbn.
  destruct (pattern_edges elements) as [|e es]; [by apply within_filters, within_source|].
  destruct (pattern_nodes elements) as [|n ns]; [done|].
  apply (within_edges _ (e :: es) ns). by apply within_filters, within_source.
Qed.
Lemma plans_paths g input paths : (∀ p, input = Some p → within p = true) →
  match plan_paths g input paths with
  | Ok scans => length scans = length paths ∧ Forall (λ p, within p = true) scans
  | Err (Raised _) => True
  | Err Panic => may
  end.
Proof.
  intros Hi. induction paths as [|path paths IH]; [done|]. cbn. pose proof (plans_path g input path Hi) as Hp.
  destruct (plan_path g input path) as [p|[]]; [|done..]. cbn.
  destruct (plan_paths g input paths) as [ps|[]]; [|done..]. destruct IH as [Hl Hps]. split; [cbn; by rewrite Hl|by constructor].
Qed.
Lemma within_joins p ps : within p = true → Forall (λ p, within p = true) ps → within (foldl Join p ps) = true.
Proof.
  revert p. induction ps as [|q ps IH]; intros p Hp Hps; [done|]. apply Forall_cons in Hps as [Hq Hps].
  apply IH; [|done]. cbn. by rewrite Hp, Hq.
Qed.
Lemma alias_index_lt name aliases i : alias_index name aliases = Some i → (i < length aliases)%nat.
Proof.
  revert i. induction aliases as [|a aliases IH]; intros i; cbn; [done|].
  destruct a as [a|]; [destruct (String.eqb a name); [intros [= <-]; lia|]|];
    (destruct (alias_index name aliases) as [j|]; [|done]; intros [= <-]; specialize (IH j eq_refl); lia).
Qed.
Lemma resolve_order_total items exprs aliases : length exprs = length aliases →
  ∃ l, resolve_order items exprs aliases = Ok l.
Proof.
  intros Hl. induction items as [|[e d] items [l Hitems]]; [by eexists|]. cbn.
  assert (∃ e', resolve_order_alias e exprs aliases = Ok e') as [e' He].
  { destruct e; cbn; eauto. destruct (alias_index name aliases) as [i|] eqn:Hi; [|eauto].
    apply alias_index_lt in Hi. rewrite <- Hl in Hi. destruct (lookup_lt_is_Some_2 exprs i Hi) as [e' ->]. eauto. }
  rewrite He, Hitems. cbn. eauto.
Qed.
Lemma plans_insert patterns input : updates = true → (∀ p, input = Some p → within p = true) →
  plans' (plan_insert (mkInsert patterns) input).
Proof.
  intros Hu Hi. cbn. set (elements := patterns ≫= _). clearbody elements.
  assert (plans' (match pattern_nodes elements with
                  | mkNodePattern _ labels properties :: _ => Ok (CreateNode labels properties)
                  | [] => plan_error "INSERT requires at least one node pattern" end)) as Hn
    by (destruct (pattern_nodes elements) as [|[]]; cbn; done).
  destruct (pattern_edges elements) as [|[v dir ls ps q] es]; [done|]. destruct input as [base|]; [|done].
  destruct (omap node_variable (pattern_nodes elements)) as [|v1 [|v2 vs]]; [done..|]. cbn. destruct ls; [done|].
  cbn. by rewrite (Hi base), Hu.
Qed.
Lemma plans_statement s input : has_path s = true ∨ may → (is_update s = true → updates = true) →
  (∀ p, input = Some p → within p = true) → plans' (plan_statement s input).
Proof.
  intros Hs Hu Hi. assert (within (default Empty input) = true) as Hd by (destruct input; auto).
  destruct s as [m|r|i|st|d|r|c|d|c|c|w|c|c|d|]; try done; try (cbn in Hu; cbn; by apply Hu).
  - destruct m as [g o [paths md] w ob lo]. cbn [plan_statement plan_match].
    destruct paths as [|path paths]; [by destruct Hs|].
    eapply (plans_bind (λ scans, scans ≠ [] ∧ Forall (λ p, within p = true) scans)).
    { pose proof (plans_paths g input (path :: paths) Hi) as Hp. destruct (plan_paths g input (path :: paths)) as [scans|[]]; try done.
      destruct Hp as [Hl Hp]. split; [by intros ->|done]. }
    intros [|p scans] [Hne Hp]; [done|]. apply Forall_cons in Hp as [Hp Hps]. cbn.
    destruct w as [[]|]; cbn; by apply within_joins.
  - destruct r as [dist items gb hv ob lo]. cbn. destruct ob as [[obs]|]; cbn.
    + destruct (resolve_order_total obs (item_expression <$> items) (item_alias <$> items)) as [l Hl]; [by rewrite !length_fmap|].
      rewrite Hl. cbn. destruct dist, lo as [[]|]; done.
    + destruct dist, lo as [[]|]; done.
  - destruct i as [patterns]. apply plans_insert; auto.
  - destruct st as [items]. cbn. destruct input as [base|]; [|done]. cbn. specialize (Hi base eq_refl).
    specialize (Hu eq_refl). clear Hd Hs. revert base Hi. induction items as [|it items IH]; intros base Hi; [done|]. cbn.
    destruct it; [|done..]. cbn. apply IH. cbn. by rewrite Hi, Hu.
  - destruct d as [detach targets]. cbn. destruct input as [base|]; [|done]. cbn. by rewrite (Hi base), Hu.
  - by destruct c.
  - destruct w as [dist items wh ob lo]. cbn. destruct dist, wh as [[]|], ob as [[]|], lo as [[]|]; done.
Qed.
Lemma plans_program program : (∀ s, s ∈ statements program → (has_path s = true ∨ may) ∧ (is_update s = true → updates = true)) →
  plans' (plan program).
Proof.
  intros Hp. unfold plan.
  assert (∀ stmts current, (∀ s, s ∈ stmts → (has_path s = true ∨ may) ∧ (is_update s = true → updates = true)) →
    (∀ p, current = Some p → within p = true) → (current ≠ None ∨ stmts ≠ []) →
    plans' (current ← for_each plan_step stmts current; ok_or (Raised (PlanInternal "empty plan")) current)) as Hloop.
  { induction stmts as [|s stmts IH]; intros current Hs Hc Hsome.
    - destruct current as [p|]; [by apply Hc|]. by destruct Hsome.
    - destruct (Hs s ltac:(by left)) as [Hs1 Hs2]. pose proof (plans_statement s current Hs1 Hs2 Hc) as Hst.
      cbn. unfold plan_step at 1. destruct (plan_statement s current) as [p|[]]; [|done..]. cbn.
      apply IH; [set_solver| |by left]. by intros ? [= <-]. }
  destruct (statements program) as [|s stmts] eqn:Hst; [done|]. apply Hloop; [done|done|by right].
Qed.
End within.

(** C13: The planner is total: for a program whose MATCHes have a path each, it never panics, and what it
    returns is a plan made of the operators the executor runs, never one of those it answers
    with "not implemented" (Aggregate, CreateEdge, Union). The empty program is the empty plan. *)
Theorem plan_executable program : forallb has_path (statements program) = true →
  plan program ≠ panic ∧ (∀ p, plan program = Ok p → executable p = true) ∧ plan (mkProgram []) = Ok Empty.
Proof.
  intros Hp. assert (plans true False (plan program)) as Hplans.
  { apply plans_program. intros s Hs. split; [left|done]. rewrite forallb_forall in Hp.
    by apply Hp, list_elem_of_In. }
  split_and!; [by intros He; rewrite He in Hplans| |done]. intros p He. by rewrite He in Hplans.
Qed.

(** ** What the planner does not read *)
Definition erase_edge (e : EdgePattern) : EdgePattern :=
  let '(mkEdgePattern variable direction labels properties _) := e in
  mkEdgePattern variable direction (take 1 labels) properties None.
Definition erase_element (e : PatternElement) : PatternElement :=
  match e with PNode n => PNode n | PEdge e => PEdge (erase_edge e) end.
Definition erase_path (p : PathPattern) : PathPattern :=
  let '(mkPathPattern _ _ _ elements _ _) := p in mkPathPattern None None None (erase_element <$> elements) None None.
(** Without OPTIONAL, path variables, path modes, SHORTEST, quantifiers, the WHERE of a path, the second and
    later labels of an edge, ORDER BY and LIMIT of a MATCH, GROUP BY, HAVING, the graph type of
    CREATE GRAPH and the IF [NOT] EXISTS of indexes *)
Definition erase_statement (s : GqlStatement) : GqlStatement :=
  match s with
  | SMatch (mkMatch graph _ (mkGraphPattern paths _) where_clause _ _) =>
      SMatch (mkMatch graph false (mkGraphPattern (erase_path <$> paths) None) where_clause None None)
  | SReturn (mkReturn distinct items _ _ order_by limit_offset) =>
      SReturn (mkReturn distinct items None None order_by limit_offset)
  | SInsert (mkInsert patterns) => SInsert (mkInsert (erase_path <$> patterns))
  | SCreateGraph c => SCreateGraph (mkCreateGraph (cg_name c) (cg_if_not_exists c) None)
  | SCreateIndex c =>
      SCreateIndex (mkCreateIndex (ci_name c) (ci_unique c) (ci_entity_type c) (ci_label c) (ci_property_names c) false)
  | SDropIndex d => SDropIndex (mkDropIndex (di_name d) false)
  | _ => s
  end.

Lemma erase_nodes elements : pattern_nodes (erase_element <$> elements) = pattern_nodes elements.
Proof. induction elements as [|[n|e] es IH]; [done|exact (f_equal (cons n) IH)|exact IH]. Qed.
Lemma erase_edges elements : pattern_edges (erase_element <$> elements) = erase_edge <$> pattern_edges elements.
Proof. induction elements as [|[n|e] es IH]; [done|exact IH|exact (f_equal (cons (erase_edge e)) IH)]. Qed.
Lemma plan_edge_erase p e t : plan_edge p (erase_edge e) t = plan_edge p e t.
Proof. destruct e as [v d ls ps q]. by destruct ls. Qed.
Lemma plan_edges_erase p es ts : plan_edges p (erase_edge <$> es) ts = plan_edges p es ts.
Proof. revert p ts. induction es as [|e es IH]; intros p ts; [done|]. cbn. by rewrite plan_edge_erase, IH. Qed.
Lemma plan_path_erase g input p : plan_path g input (erase_path p) = plan_path g input p.
Proof.
  destruct p as [v m sh elements q w]. unfold erase_path, plan_path. rewrite erase_nodes, erase_edges.
  destruct (pattern_edges elements) as [|e es]; [done|]. destruct (pattern_nodes elements) as [|n ns]; [done|].
  exact (f_equal Ok (plan_edges_erase _ (e :: es) ns)).
Qed.
Lemma plan_paths_erase g input ps : plan_paths g input (erase_path <$> ps) = plan_paths g input ps.
Proof. induction ps as [|p ps IH]; [done|]. cbn. by rewrite plan_path_erase, IH. Qed.
Lemma erase_patterns patterns : (erase_path <$> patterns) ≫= (λ '(mkPathPattern _ _ _ es _ _), es) =
  erase_element <$> (patterns ≫= (λ '(mkPathPattern _ _ _ es _ _), es)).
Proof. induction patterns as [|[v m sh es q w] ps IH]; [done|]. cbn. by rewrite fmap_app, IH. Qed.
Lemma plan_statement_erase s input : plan_statement (erase_statement s) input = plan_statement s input.
Proof.
  destruct s as [[g o [paths md] w ob lo]|[]|[patterns]| | | | | | | | | | | |]; try done.
  - cbn. by rewrite plan_paths_erase.
  - cbn. rewrite erase_patterns, erase_nodes, erase_edges.
    by destruct (pattern_edges _) as [|[v d [|] ps q] es].
Qed.

(** The planner reads less than the grammar accepts. Erasing OPTIONAL, path modes, SHORTEST, path
    variables and their WHERE, quantifiers ("*1..5"), all labels of an edge but the first, the
    ORDER BY and LIMIT of a MATCH, GROUP BY and HAVING leaves every plan, and every planning
    error, unchanged. An INSERT with no statement before it plans the first node of its patterns
    alone, whatever nodes and edges follow it. *)
Theorem plan_ignores stmts patterns : plan (mkProgram (erase_statement <$> stmts)) = plan (mkProgram stmts) ∧
  ∀ variable labels properties rest,
    pattern_nodes (patterns ≫= (λ '(mkPathPattern _ _ _ es _ _), es)) = mkNodePattern variable labels properties :: rest →
    plan (mkProgram [SInsert (mkInsert patterns)]) = Ok (CreateNode labels properties).
Proof.
  split.
  - unfold plan. cbn [statements]. destruct stmts as [|s stmts]; [done|]. rewrite fmap_cons.
    assert (∀ l current, for_each plan_step (erase_statement <$> l) current = for_each plan_step l current) as Hloop.
    { induction l as [|t l IH]; intros current; [done|]. cbn. unfold plan_step at 1 3. rewrite plan_statement_erase.
      destruct (plan_statement t current); [|done]. cbn. apply IH. }
    rewrite <- fmap_cons, Hloop. done.
  - intros v ls ps rest Hn. unfold plan. cbn. rewrite Hn. by destruct (pattern_edges _) as [|[]].
Qed.

(** ** Samples *)
(** [MATCH (a:P)-[r:KNOWS*1..5]->(b) WHERE b.age = 1 RETURN b.age AS age ORDER BY age LIMIT 2] *)
Definition age_of (v : string) : Expression := EPropertyAccess (EIdentifier v) "age".
Definition knows (labels : list string) (q : option Quantifier) : PathPattern :=
  mkPathPattern None None None
    [PNode (mkNodePattern (Some "a"%string) ["P"%string] []); PEdge (mkEdgePattern (Some "r"%string) Outgoing labels [] q);
     PNode (mkNodePattern (Some "b"%string) [] [])] None None.
Definition sample_program : GqlProgram := mkProgram
  [SMatch (mkMatch None true (mkGraphPattern [knows ["KNOWS"; "LIKES"]%string None] None)
     (Some (mkWhere (EBinaryOp (age_of "b") OpEq (ELiteral (LInteger 1))))) None None);
   SReturn (mkReturn false [mkReturnItem (age_of "b") (Some "age"%string)] None None
     (Some (mkOrderBy [mkOrderByItem (EIdentifier "age") Asc])) (Some (mkLimitOffset (Some (ELiteral (LInteger 2))) None)))].
Definition sample_plan : LogicalPlan :=
  Limit (Project (Sort (Filter
      (Expand (Scan ["P"%string] None (Some "a"%string)) "KNOWS" Outgoing [] (Some "r"%string) (Some "b"%string))
      (EBinaryOp (age_of "b") OpEq (ELiteral (LInteger 1)))) [(age_of "b", Asc)])
    [age_of "b"] [Some "age"%string]) (Some 2) None.
Lemma plan_executable_witness : plan sample_program = Ok sample_plan ∧ plan sample_program ≠ panic ∧ executable sample_plan = true.
Proof.
  split; [reflexivity|]. destruct (plan_executable sample_program) as (Hnp & Hex & _); [reflexivity|].
  split; [exact Hnp|]. by apply Hex.
Defined.
Lemma plan_ignores_witness :
  plan (mkProgram [SInsert (mkInsert [knows ["KNOWS"%string] None])]) = Ok (CreateNode ["P"%string] []) ∧
  plan (mkProgram (erase_statement <$> statements sample_program)) = Ok sample_plan.
Proof.
  split.
  - exact (proj2 (plan_ignores [] [knows ["KNOWS"%string] None]) (Some "a"%string) ["P"%string] []
             [mkNodePattern (Some "b"%string) [] []] eq_refl).
  - etransitivity; [apply (plan_ignores (statements sample_program) [])|]. reflexivity.
Defined.
