(* ===== verification/Debug.v ===== *)
(** * Values as text ([derive(Debug)] of synaptica-core: types.rs)

    The executor compares rows for DISTINCT, groups them, and hashes them for joins by the text
    [format!("{:?}", value)]. The text is written out here from the derived implementation; how
    strings are quoted, and how floats, dates and times print, is the standard library's and
    chrono's, given with the law that such a text shows where it ends. The theorem of the file is
    that the text determines the value, so comparing texts compares values: all NaNs are one
    value, 0.0 and -0.0 are two, and an integer is never a float. *)
From S2P Require Import Prelude Types Lexer F64 Text.
From Stdlib Require Import Ascii.

Class DebugFormat : Type := {
  str_debug : string → string;
  f64_debug : f64 → string;
  date_debug : NaiveDate → string;
  time_debug : NaiveTime → string;
  datetime_debug : NaiveDateTime → string
}.

(** A text that shows where it ends, up to [same] printed objects, when followed by [stop]. *)
Definition delimited {A} (stop : string) (same : A → A → Prop) (fmt : A → string) : Prop :=
  ∀ x y a b, fmt x +:+ stop +:+ a = fmt y +:+ stop +:+ b → same x y ∧ a = b.
(** Floats with the same text: equal bits, or both NaN. *)
Definition same_f64 (x y : f64) : Prop := x = y ∨ (f64_is_nan x = true ∧ f64_is_nan y = true).
(** Quotes and escapes delimit a string; the others are followed by the closing parenthesis. *)
Class DebugLaws `{DebugFormat} : Prop := {
  str_quoted s : ∃ r, str_debug s = String (ascii_of_nat 34) r;
  str_delimited : delimited EmptyString eq str_debug;
  f64_delimited : delimited ")" same_f64 f64_debug;
  f64_nan_text x y : same_f64 x y → f64_debug x = f64_debug y;
  date_delimited : delimited ")" eq date_debug;
  time_delimited : delimited ")" eq time_debug;
  datetime_delimited : delimited ")" eq datetime_debug
}.

Section debug.
Context `{DebugFormat}.

(** [f.debug_list()] and [f.debug_map()] *)
Definition debug_list (texts : list string) : string := "[" +:+ String.concat ", " texts +:+ "]".
Definition debug_map (texts : list string) : string := "{" +:+ String.concat ", " texts +:+ "}".
Definition Duration_debug (d : Duration) : string :=
  "Duration { months: " +:+ pretty (months d) +:+ ", days: " +:+ pretty (days d) +:+ ", nanos: " +:+ pretty (nanos d) +:+ " }".

Fixpoint Value_debug (v : Value) : string :=
  let entries := fix entries (m : list (string * Value)) : list string :=
    match m with [] => [] | (k, w) :: m' => (str_debug k +:+ ": " +:+ Value_debug w) :: entries m' end in
  match v with
  | Null => "Null"
  | Bool b => "Bool(" +:+ (if b then "true" else "false") +:+ ")"
  | Integer i => "Integer(" +:+ pretty i +:+ ")"
  | Float f => "Float(" +:+ f64_debug f +:+ ")"
  | Str s => "String(" +:+ str_debug s +:+ ")"
  | Bytes b => "Bytes(" +:+ debug_list ((λ c, pretty (bval c)) <$> b) +:+ ")"
  | Date d => "Date(" +:+ date_debug d +:+ ")"
  | Time t => "Time(" +:+ time_debug t +:+ ")"
  | Timestamp t => "Timestamp(" +:+ datetime_debug t +:+ ")"
  | DurationV d => "Duration(" +:+ Duration_debug d +:+ ")"
  | ListV l => "List(" +:+ debug_list (map Value_debug l) +:+ ")"
  | MapV m => "Map(" +:+ debug_map (entries m) +:+ ")"
  | NodeV id labels properties =>
      "Node { id: " +:+ str_debug id +:+ ", labels: " +:+ debug_list (str_debug <$> labels)
        +:+ ", properties: " +:+ debug_map (entries properties) +:+ " }"
  | EdgeV id label source_id target_id properties =>
      "Edge { id: " +:+ str_debug id +:+ ", label: " +:+ str_debug label +:+ ", source_id: " +:+ str_debug source_id
        +:+ ", target_id: " +:+ str_debug target_id +:+ ", properties: " +:+ debug_map (entries properties) +:+ " }"
  end.
End debug.

(** ** Values with the same text *)
Fixpoint same_value (v w : Value) : Prop :=
  let entries := fix entries (m n : list (string * Value)) : Prop :=
    match m, n with
    | [], [] => True
    | (k, a) :: m', (k', b) :: n' => k = k' ∧ same_value a b ∧ entries m' n'
    | _, _ => False
    end in
  match v, w with
  | Float x, Float y => same_f64 x y
  | ListV l, ListV k =>
      (fix all (l k : list Value) : Prop :=
         match l, k with [], [] => True | a :: l', b :: k' => same_value a b ∧ all l' k' | _, _ => False end) l k
  | MapV m, MapV n => entries m n
  | NodeV i ls m, NodeV i' ls' n => i = i' ∧ ls = ls' ∧ entries m n
  | EdgeV i l s t m, EdgeV i' l' s' t' n => i = i' ∧ l = l' ∧ s = s' ∧ t = t' ∧ entries m n
  | _, _ => v = w
  end.
Definition same_entry (a b : string * Value) : Prop := a.1 = b.1 ∧ same_value a.2 b.2.
Lemma same_value_list l k : same_value (ListV l) (ListV k) ↔ Forall2 same_value l k.
Proof.
  cbn. revert k. induction l as [|a l IH]; intros [|b k]; try (by split; [intros []|inversion 1]).
  rewrite Forall2_cons, IH. done.
Qed.
Lemma same_value_map m n : same_value (MapV m) (MapV n) ↔ Forall2 same_entry m n.
Proof.
  cbn. revert n. induction m as [|[k a] m IH]; intros [|[k' b] n]; try (by split; [intros []|inversion 1]).
  rewrite Forall2_cons, IH. unfold same_entry. cbn. tauto.
Qed.

(** ** The text determines the value *)
Section injective.
Context `{DebugLaws}.

Lemma app_cons_str (c : Ascii.ascii) s t : (String c s) +:+ t = String c (s +:+ t).
Proof. done. Qed.
Lemma str_app_assoc (s t u : string) : (s +:+ t) +:+ u = s +:+ (t +:+ u).
Proof. induction s as [|c s IH]; [done|]. exact (f_equal (String c) IH). Qed.
Lemma str_app_nil_r (s : string) : s +:+ EmptyString = s.
Proof. induction s as [|c s IH]; [done|]. exact (f_equal (String c) IH). Qed.
Lemma str_app_cancel (s t u : string) : s +:+ t = s +:+ u → t = u.
Proof. induction s as [|c s IH]; [done|]. cbn. intros [= Hs]. auto. Qed.

(** Printed integers end at the first character that is not a digit. *)
Definition digit_char (c : Ascii.ascii) : bool := is_ascii_digit (chr c).
Definition nondigit (s : string) : Prop := match s with String c _ => digit_char c = false | EmptyString => True end.
Lemma digits_delimited ds es a b : forallb is_ascii_digit ds = true → forallb is_ascii_digit es = true →
  (∀ c r, a = c :: r → is_ascii_digit c = false) → (∀ c r, b = c :: r → is_ascii_digit c = false) →
  ds ++ a = es ++ b → ds = es ∧ a = b.
Proof.
  revert es. induction ds as [|d ds IH]; intros [|e es]; cbn; intros Hds Hes Ha Hb Heq.
  - done.
  - exfalso. apply andb_true_iff in Hes as [He _]. specialize (Ha _ _ Heq). congruence.
  - exfalso. apply andb_true_iff in Hds as [Hd _]. specialize (Hb _ _ (eq_sym Heq)). congruence.
  - apply andb_true_iff in Hds as [_ Hds], Hes as [_ Hes]. injection Heq as -> Heq.
    by destruct (IH es Hds Hes Ha Hb Heq) as [-> ->].
Qed.
Lemma chars_of_inj s t : chars_of s = chars_of t → s = t.
Proof.
  unfold chars_of. revert t. induction s as [|c s IH]; intros [|c' t]; try done. cbn. intros [= Hc Hs].
  f_equal; [|by apply IH]. unfold chr in Hc. apply N2Z.inj in Hc.
  by rewrite <- (Ascii.ascii_N_embedding c), Hc, Ascii.ascii_N_embedding.
Qed.
Lemma pretty_delimited (x y : Z) a b : nondigit a → nondigit b → pretty x +:+ a = pretty y +:+ b → x = y ∧ a = b.
Proof.
  intros Ha Hb Heq. apply (f_equal chars_of) in Heq. rewrite !chars_of_app in Heq.
  destruct (pretty_text x) as (ds & Hx & Hds & Hne & Hvx), (pretty_text y) as (es & Hy & Hes & Hne' & Hvy).
  rewrite Hx, Hy, <- !app_assoc in Heq.
  assert (∀ s, nondigit s → ∀ c r, chars_of s = c :: r → is_ascii_digit c = false) as Hnd
    by (intros [|c s] Hs c' r; [done|]; by intros [= <- _]).
  assert (∀ t, ds ++ t ≠ chr "-"%char :: es ++ chars_of b) as Hneg.
  { intros t. destruct ds as [|d ds]; [done|]. intros [= -> _]. by cbn in Hds. }
  assert (∀ t, chr "-"%char :: ds ++ chars_of a ≠ es ++ t) as Hneg'.
  { intros t. destruct es as [|e es]; [done|]. intros [= <- _]. by cbn in Hes. }
  assert (∀ (ds' es' : text), ds' ++ chars_of a = es' ++ chars_of b → ds' = ds → es' = es →
    Z.abs x = Z.abs y ∧ a = b) as Hmain.
  { intros ds' es' Heq' -> ->.
    destruct (digits_delimited ds es _ _ Hds Hes (Hnd a Ha) (Hnd b Hb) Heq') as [He Hab].
    split; [congruence|by apply chars_of_inj]. }
  destruct (Z.ltb_spec x 0), (Z.ltb_spec y 0); cbn [app] in Heq.
  - injection Heq as Heq. destruct (Hmain _ _ Heq) as [? ->]; [done..|]. split; [lia|done].
  - by apply Hneg' in Heq.
  - by apply Hneg in Heq.
  - destruct (Hmain _ _ Heq) as [? ->]; [done..|]. split; [lia|done].
Qed.

(** Lists: items that show where they end and start neither like a separator nor like the end. *)
Section lists.
Context {A B : Type} (same : A → A → Prop) (fmt : A → string) (close : Ascii.ascii).
(** [delimits l]: every item of [l] is told apart from any other item, before any text that
    starts with a comma or the closing bracket. *)
Definition item_delimits (x : A) : Prop := ∀ y a b,
  (∃ r, a = String ","%char r ∨ a = String close r) → (∃ r, b = String ","%char r ∨ b = String close r) →
  fmt x +:+ a = fmt y +:+ b → same x y ∧ a = b.
Definition list_tail (l : list A) (a : string) : string :=
  foldr (λ x acc, ", " +:+ fmt x +:+ acc) (String close a) l.
Lemma concat_tail x l a : String.concat ", " (fmt x :: (fmt <$> l)) +:+ String close a = fmt x +:+ list_tail l a.
Proof.
  revert x. induction l as [|y l IH]; intros x; [done|].
  change (String.concat ", " (fmt x :: (fmt <$> (y :: l)))) with (fmt x +:+ ", " +:+ String.concat ", " (fmt y :: (fmt <$> l))).
  rewrite !str_app_assoc, IH. done.
Qed.
Lemma list_tail_start l a : ∃ r, list_tail l a = String ","%char r ∨ list_tail l a = String close r.
Proof. destruct l; cbn; eauto. Qed.
Lemma list_tail_delimited l k a b : close ≠ ","%char → Forall item_delimits l →
  list_tail l a = list_tail k b → Forall2 same l k ∧ a = b.
Proof.
  intros Hc Hl. revert k. induction Hl as [|x l Hx _ IH]; intros [|y k]; cbn; intros Heq.
  - injection Heq as ->. done.
  - injection Heq as ? _. congruence.
  - injection Heq as ? _. congruence.
  - injection Heq as Heq. destruct (Hx y _ _ (list_tail_start l a) (list_tail_start k b) Heq) as [Hs Ht].
    destruct (IH k Ht) as [Hlk ->]. auto.
Qed.
Lemma concat_delimited l k a b : close ≠ ","%char →
  (∀ x c r, fmt x = String c r → c ≠ close) → (∀ x, fmt x ≠ EmptyString) → Forall item_delimits l →
  String.concat ", " (fmt <$> l) +:+ String close a = String.concat ", " (fmt <$> k) +:+ String close b →
  Forall2 same l k ∧ a = b.
Proof.
  intros Hc Hstart Hne Hl.
  assert (∀ x l a b, String.concat ", " (fmt <$> (x :: l)) +:+ String close a ≠ String close b) as Hno.
  { intros x l' a' b'. change (fmt <$> (x :: l')) with (fmt x :: (fmt <$> l')). rewrite concat_tail.
    destruct (fmt x) as [|c r] eqn:Hx; [by destruct (Hne x)|]. intros [= Hcc _]. by apply (Hstart x c r) in Hx. }
  destruct l as [|x l], k as [|y k]; intros Heq.
  - injection Heq as ->. done.
  - symmetry in Heq. by apply Hno in Heq.
  - by apply Hno in Heq.
  - change (fmt <$> (x :: l)) with (fmt x :: (fmt <$> l)) in Heq. change (fmt <$> (y :: k)) with (fmt y :: (fmt <$> k)) in Heq.
    rewrite !concat_tail in Heq. inversion Hl as [|? ? Hx Hl']; subst.
    destruct (Hx y _ _ (list_tail_start l a) (list_tail_start k b) Heq) as [Hs Ht].
    destruct (list_tail_delimited l k a b Hc Hl' Ht) as [Hlk ->]. auto.
Qed.
End lists.

Lemma str_debug_inj s t a b : str_debug s +:+ a = str_debug t +:+ b → s = t ∧ a = b.
Proof. apply str_delimited. Qed.
Lemma Value_debug_start v : ∃ c r, Value_debug v = String c r ∧ c ≠ "]"%char ∧ c ≠ "}"%char.
Proof. destruct v; cbn; eauto. Qed.
Definition debugs_apart (v : Value) : Prop := ∀ w a b, Value_debug v +:+ a = Value_debug w +:+ b → same_value v w ∧ a = b.

Definition entry_text (kv : string * Value) : string := str_debug kv.1 +:+ ": " +:+ Value_debug kv.2.
Lemma debug_entries m :
  (fix entries (m : list (string * Value)) : list string :=
    match m with [] => [] | (k, w) :: m' => (str_debug k +:+ ": " +:+ Value_debug w) :: entries m' end) m = entry_text <$> m.
Proof. induction m as [|[k w] m IH]; [done|]. cbn. by rewrite IH. Qed.
Lemma debug_map_apart m n a b : Forall (λ kv, debugs_apart kv.2) m →
  debug_map (entry_text <$> m) +:+ a = debug_map (entry_text <$> n) +:+ b → Forall2 same_entry m n ∧ a = b.
Proof.
  intros Hm. unfold debug_map. rewrite !str_app_assoc. intros Heq%str_app_cancel.
  apply (concat_delimited same_entry entry_text "}"%char); [done| | | |exact Heq].
  - intros [k v] c r. unfold entry_text. cbn [fst]. destruct (str_quoted k) as [q ->]. by intros [= <- _].
  - intros [k v]. unfold entry_text. cbn [fst]. by destruct (str_quoted k) as [q ->].
  - eapply Forall_impl; [exact Hm|]. intros [k v] Hv [k' w] a' b' _ _. unfold entry_text, same_entry. cbn [fst snd].
    rewrite !str_app_assoc. intros [-> He]%str_debug_inj. apply str_app_cancel in He.
    by destruct (Hv _ _ _ He) as [? ->].
Qed.
Lemma debug_labels_apart (ls ks : list string) a b :
  debug_list (str_debug <$> ls) +:+ a = debug_list (str_debug <$> ks) +:+ b → ls = ks ∧ a = b.
Proof.
  unfold debug_list. rewrite !str_app_assoc. intros Heq%str_app_cancel.
  destruct (concat_delimited eq str_debug "]"%char ls ks a b) as [Hf ->]; [done| | | |exact Heq|].
  - intros x c r. destruct (str_quoted x) as [q ->]. by intros [= <- _].
  - intros x. by destruct (str_quoted x) as [q ->].
  - apply Forall_forall. intros x _ y a' b' _ _. apply str_debug_inj.
  - split; [|done]. by apply list_eq_Forall2.
Qed.
Lemma debug_bytes_apart (l k : bytes) a b :
  debug_list ((λ c, pretty (bval c)) <$> l) +:+ a = debug_list ((λ c, pretty (bval c)) <$> k) +:+ b → l = k ∧ a = b.
Proof.
  assert (∀ x : byte, ∃ c r, pretty (bval x) = String c r ∧ c ≠ "]"%char) as Hs by (intros []; eexists _, _; by split).
  unfold debug_list. rewrite !str_app_assoc. intros Heq%str_app_cancel.
  destruct (concat_delimited eq (λ c : byte, pretty (bval c)) "]"%char l k a b) as [Hf ->]; [done| | | |exact Heq|].
  - intros x c r. destruct (Hs x) as (c' & r' & -> & Hne). by intros [= <- _].
  - intros x. by destruct (Hs x) as (c' & r' & -> & Hne).
  - apply Forall_forall. intros x _ y a' b' Ha Hb He.
    apply pretty_delimited in He as [He ->]; [split; [by apply bval_inj|done]|..];
      (destruct Ha as [ra [-> | ->]], Hb as [rb [-> | ->]]; done).
  - split; [|done]. by apply list_eq_Forall2.
Qed.
Lemma duration_apart d e a b : Duration_debug d +:+ a = Duration_debug e +:+ b → d = e ∧ a = b.
Proof.
  unfold Duration_debug. rewrite !str_app_assoc. intros Heq%str_app_cancel.
  apply pretty_delimited in Heq as [Hm Heq]; [|done..]. apply str_app_cancel in Heq.
  apply pretty_delimited in Heq as [Hd Heq]; [|done..]. apply str_app_cancel in Heq.
  apply pretty_delimited in Heq as [Hn Heq]; [|done..]. apply str_app_cancel in Heq.
  destruct d, e; cbn in *. by subst.
Qed.

(** The text of a value followed by anything determines both. *)
Lemma debug_delimited v : debugs_apart v.
Proof.
  induction v as [|b|i|f|s|bs|d|t|t|d|l IH|m IH|i ls m IH|i l s t m IH] using Value_tree_ind; intros w a b' Heq;
    destruct w as [|c|i0|f0|s0|bs0|d0|t0|t0|d0|k|n|i0 ls0 n|i0 l0 s0 t0 n];
    try (exfalso; clear -Heq; cbn in Heq; discriminate Heq); cbn [Value_debug] in Heq;
    rewrite ?debug_entries, ?str_app_assoc in Heq.
  - by apply str_app_cancel in Heq.
  - destruct b, c; cbn in Heq; injection Heq; try discriminate; intros Hab; change (a = b') in Hab; by subst.
  - apply str_app_cancel, pretty_delimited in Heq as [-> Heq]; [|done..]. by apply str_app_cancel in Heq.
  - by apply str_app_cancel, f64_delimited in Heq.
  - apply str_app_cancel, str_debug_inj in Heq as [-> Heq]. by apply str_app_cancel in Heq.
  - apply str_app_cancel, debug_bytes_apart in Heq as [-> Heq]. by apply str_app_cancel in Heq.
  - apply str_app_cancel, date_delimited in Heq as [-> ->]. done.
  - apply str_app_cancel, time_delimited in Heq as [-> ->]. done.
  - apply str_app_cancel, datetime_delimited in Heq as [-> ->]. done.
  - apply str_app_cancel, duration_apart in Heq as [-> Heq]. by apply str_app_cancel in Heq.
  - apply str_app_cancel in Heq. unfold debug_list in Heq. rewrite !str_app_assoc in Heq. apply str_app_cancel in Heq.
    destruct (concat_delimited same_value Value_debug "]"%char l k (")" +:+ a) (")" +:+ b')) as [Hf He];
      [done| | | |exact Heq|].
    + intros x c r Hx. destruct (Value_debug_start x) as (c' & r' & Hx' & Hne & _). congruence.
    + intros x. by destruct (Value_debug_start x) as (c' & r' & -> & _).
    + eapply Forall_impl; [exact IH|]. intros x Hx y a' b'' _ _. apply Hx.
    + apply str_app_cancel in He as ->. split; [|done]. by apply same_value_list.
  - apply str_app_cancel, debug_map_apart in Heq as [Hf Heq]; [|done]. apply str_app_cancel in Heq as ->.
    split; [|done]. by apply same_value_map.
  - apply str_app_cancel, str_debug_inj in Heq as [-> Heq]. apply str_app_cancel, debug_labels_apart in Heq as [-> Heq].
    apply str_app_cancel, debug_map_apart in Heq as [Hf Heq]; [|done]. apply str_app_cancel in Heq as ->.
    split; [|done]. split; [done|]. split; [done|]. by apply same_value_map.
  - apply str_app_cancel, str_debug_inj in Heq as [-> Heq]. apply str_app_cancel, str_debug_inj in Heq as [-> Heq].
    apply str_app_cancel, str_debug_inj in Heq as [-> Heq]. apply str_app_cancel, str_debug_inj in Heq as [-> Heq].
    apply str_app_cancel, debug_map_apart in Heq as [Hf Heq]; [|done]. apply str_app_cancel in Heq as ->.
    split; [|done]. split_and!; try done. by apply same_value_map.
Qed.

(** Values with the same text are the same values. *)
Lemma same_entries_text m n : Forall (λ kv, ∀ w, same_value kv.2 w → Value_debug kv.2 = Value_debug w) m →
  Forall2 same_entry m n → entry_text <$> m = entry_text <$> n.
Proof.
  intros Hm Hmn. induction Hmn as [|[k a] [k' b] m n [Hk Hab] _ IH]; [done|]. apply Forall_cons in Hm as [Ha Hm].
  cbn in *. subst k'. unfold entry_text at 1 3. cbn. by rewrite (Ha _ Hab), IH.
Qed.
Lemma same_value_debug v w : same_value v w → Value_debug v = Value_debug w.
Proof.
  revert w. induction v as [|b|i|f|s|bs|d|t|t|d|l IH|m IH|i ls m IH|i l s t m IH] using Value_tree_ind;
    intros w Hw; destruct w as [|c|i0|f0|s0|bs0|d0|t0|t0|d0|k|n|i0 ls0 n|i0 l0 s0 t0 n];
    try (cbn in Hw; discriminate Hw); try (by injection Hw as ->);
    cbn [Value_debug]; rewrite ?debug_entries.
  - done.
  - apply f64_nan_text in Hw. by rewrite Hw.
  - apply same_value_list in Hw. do 2 f_equal. unfold debug_list. do 3 f_equal.
    induction Hw as [|x y l k Hxy _ IHl]; [done|]. apply Forall_cons in IH as [Hx IH]. cbn. by rewrite (Hx _ Hxy), IHl.
  - apply same_value_map in Hw. by rewrite (same_entries_text m n IH Hw).
  - destruct Hw as (-> & -> & Hw%same_value_map). by rewrite (same_entries_text m n IH Hw).
  - destruct Hw as (-> & -> & -> & -> & Hw%same_value_map). by rewrite (same_entries_text m n IH Hw).
Qed.
Lemma Value_debug_same v w : Value_debug v = Value_debug w ↔ same_value v w.
Proof.
  split; [|apply same_value_debug]. intros Heq.
  apply (debug_delimited v w EmptyString EmptyString). by rewrite Heq.
Qed.
#[export] Instance same_value_dec v w : Decision (same_value v w).
Proof.
  destruct (decide (Value_debug v = Value_debug w)) as [Heq|Hne]; [left|right]; by rewrite <- Value_debug_same.
Defined.
#[export] Instance same_value_equivalence : Equivalence same_value.
Proof.
  split; [intros v|intros v w|intros u v w]; rewrite <- !Value_debug_same; congruence.
Qed.
(** Texts of several values, each followed by the same nonempty text, determine the values. *)
Definition debug_texts (sep : string) (vs : list Value) : string :=
  foldr (λ v acc, Value_debug v +:+ sep +:+ acc) EmptyString vs.
Lemma debug_texts_same sep vs ws : debug_texts sep vs = debug_texts sep ws ↔ Forall2 same_value vs ws.
Proof.
  split.
  - revert ws. induction vs as [|v vs IH]; intros [|w ws]; cbn; intros Heq; [done| | |].
    + by destruct (Value_debug_start w) as (c & r & Hw & _); rewrite Hw in Heq.
    + by destruct (Value_debug_start v) as (c & r & Hv & _); rewrite Hv in Heq.
    + apply debug_delimited in Heq as [Hvw Heq]. apply str_app_cancel in Heq. auto.
  - induction 1 as [|v w vs ws Hvw _ IH]; [done|]. unfold debug_texts in *. cbn.
    by rewrite IH, (proj2 (Value_debug_same v w) Hvw).
Qed.
Lemma same_texts vs ws : Forall2 same_value vs ws → Value_debug <$> vs = Value_debug <$> ws.
Proof.
  induction 1 as [|x y l k Hxy _ IH]; [done|]. rewrite !fmap_cons, IH. by rewrite (proj2 (Value_debug_same x y) Hxy).
Qed.
(** The same for texts joined by a separator. *)
Lemma concat_debug_texts sep v vs :
  String.concat sep (Value_debug <$> (v :: vs)) +:+ sep = debug_texts sep (v :: vs).
Proof.
  revert v. induction vs as [|w vs IH]; intros v; [cbn; by rewrite str_app_nil_r|].
  change (String.concat sep (Value_debug <$> (v :: w :: vs)))
    with (Value_debug v +:+ sep +:+ String.concat sep (Value_debug <$> (w :: vs))).
  rewrite !str_app_assoc, IH. done.
Qed.
Lemma joined_debug_same sep vs ws : length vs = length ws →
  String.concat sep (Value_debug <$> vs) = String.concat sep (Value_debug <$> ws) ↔ Forall2 same_value vs ws.
Proof.
  intros Hlen. rewrite <- (debug_texts_same sep). destruct vs as [|v vs], ws as [|w ws]; try done.
  rewrite <- !concat_debug_texts. split; [by intros ->|]. intros Heq.
  assert (Value_debug <$> (v :: vs) = Value_debug <$> (w :: ws)) as ->; [|done].
  rewrite !concat_debug_texts in Heq. apply debug_texts_same in Heq.
  by apply same_texts.
Qed.
End injective.

(** ** A format that satisfies the laws: strings quoted with escapes, numbers in decimal *)
Definition quote : Ascii.ascii := ascii_of_nat 34.
Definition backslash : Ascii.ascii := ascii_of_nat 92.
Fixpoint escape (s : string) : string :=
  match s with
  | EmptyString => EmptyString
  | String c s' =>
      if Ascii.eqb c quote || Ascii.eqb c backslash then String backslash (String c (escape s')) else String c (escape s')
  end.
Definition escape_debug (s : string) : string := String quote (escape s +:+ String quote EmptyString).
#[local] Instance plain_debug : DebugFormat := {|
  str_debug := escape_debug;
  f64_debug f := if f64_is_nan f then "NaN" else pretty (A:=Z) f;
  date_debug d := pretty (A:=Z) d;
  time_debug t := pretty (time_secs t) +:+ ":" +:+ pretty (time_nanos t);
  datetime_debug t := pretty (A:=Z) (dt_date t) +:+ "T" +:+ pretty (time_secs (dt_time t)) +:+ ":" +:+ pretty (time_nanos (dt_time t))
|}.
Lemma escape_delimited s t a b :
  escape s +:+ String quote a = escape t +:+ String quote b → s = t ∧ a = b.
Proof.
  revert t. induction s as [|c s IH]; intros [|c' t]; cbn.
  - by intros [= ->].
  - destruct (Ascii.eqb_spec c' quote) as [->|Hq]; cbn; [done|].
    destruct (Ascii.eqb_spec c' backslash) as [->|Hb]; cbn; [done|]. intros [= <- _]. done.
  - destruct (Ascii.eqb_spec c quote) as [->|Hq]; cbn; [done|].
    destruct (Ascii.eqb_spec c backslash) as [->|Hb]; cbn; [done|]. intros [= -> _]. done.
  - destruct (Ascii.eqb_spec c quote) as [->|Hq], (Ascii.eqb_spec c' quote) as [->|Hq'];
      try (destruct (Ascii.eqb_spec c backslash) as [->|Hb]); try (destruct (Ascii.eqb_spec c' backslash) as [->|Hb']);
      cbn; intros Heq; simplify_eq Heq; intros; subst; try congruence; naive_solver.
Qed.
#[local] Instance plain_laws : DebugLaws.
Proof.
  split.
  - intros s. by eexists.
  - intros s t a b. cbn [str_debug plain_debug]. unfold escape_debug. rewrite !app_cons_str, !str_app_assoc.
    intros [= Heq]. by apply escape_delimited.
  - intros x y a b. cbn [f64_debug plain_debug]. unfold same_f64.
    destruct (f64_is_nan x) eqn:Hx, (f64_is_nan y) eqn:Hy.
    + intros Heq%str_app_cancel%str_app_cancel. auto.
    + intros Heq. exfalso. destruct (pretty_text y) as (ds & Hy' & Hds & _).
      apply (f_equal chars_of) in Heq. rewrite !chars_of_app, Hy' in Heq. destruct (y <? 0); [done|].
      destruct ds as [|d ds]; [done|]. injection Heq as <- _. done.
    + intros Heq. exfalso. destruct (pretty_text x) as (ds & Hx' & Hds & _).
      apply (f_equal chars_of) in Heq. rewrite !chars_of_app, Hx' in Heq. destruct (x <? 0); [done|].
      destruct ds as [|d ds]; [done|]. injection Heq as -> _. done.
    + intros [-> Heq]%pretty_delimited; [|done..]. apply str_app_cancel in Heq. auto.
  - intros x y [->|[Hx Hy]]; [done|]. cbn [f64_debug plain_debug]. by rewrite Hx, Hy.
  - intros x y a b [-> Heq]%pretty_delimited; [|done..]. by apply str_app_cancel in Heq.
  - intros [s n] [s' n'] a b. cbn. rewrite !str_app_assoc. intros [-> Heq]%pretty_delimited; [|done..].
    apply str_app_cancel, pretty_delimited in Heq as [-> Heq]; [|done..]. by apply str_app_cancel in Heq.
  - intros [d [s n]] [d' [s' n']] a b. cbn. rewrite !str_app_assoc. intros [-> Heq]%pretty_delimited; [|done..].
    apply str_app_cancel, pretty_delimited in Heq as [-> Heq]; [|done..].
    apply str_app_cancel, pretty_delimited in Heq as [-> Heq]; [|done..]. by apply str_app_cancel in Heq.
Qed.
