(* ===== verification/Relational.v ===== *)
(** * Relational operators (synaptica-exec: engine.rs)

    The operators of the executor that work on result sets alone: filter, projection, aggregation,
    limit, sort, join and distinct. Rows are compared by the debug text of their values. Lists of
    fewer than 21 rows are sorted by insertion, as the standard library does; its merge sort of
    longer lists gives the same list whenever the comparison is a total preorder. *)
From S2P Require Import Prelude Types Lexer F64 Text Records Ast Expression Debug.
From Stdlib Require Import Ascii.

(** [starts_with("__")] and [contains('.')] of a column name *)
Definition is_internal (c : string) : bool := String.prefix "__" c.
Fixpoint contains_dot (s : string) : bool :=
  match s with EmptyString => false | String c s' => Ascii.eqb c "."%char || contains_dot s' end.

(** The name of a projected column without an alias *)
Fixpoint expr_column_name (expr : Expression) (idx : nat) : string :=
  match expr with
  | EIdentifier name => name
  | EPropertyAccess object property => expr_column_name object idx +:+ "." +:+ property
  | _ => "col_" +:+ pretty idx
  end.
Definition projected_columns (expressions : list Expression) (aliases : list (option string)) : list string :=
  imap (λ i expr, match aliases !! i with Some (Some alias) => alias | _ => expr_column_name expr i end) expressions.

Definition cmp_values (a b : Value) : comparison :=
  match a, b with
  | Null, Null => Eq
  | Null, _ => Lt
  | _, Null => Gt
  | Integer x, Integer y => x ?= y
  | Float x, Float y => default Eq (f64_compare x y)
  | Integer x, Float y => default Eq (f64_compare (f64_of_i64 x) y)
  | Float x, Integer y => default Eq (f64_compare x (f64_of_i64 y))
  | Str x, Str y => if String.eqb x y then Eq else if str_ltb x y then Lt else Gt
  | Bool x, Bool y => match x, y with false, true => Lt | true, false => Gt | _, _ => Eq end
  | _, _ => Eq
  end.

Fixpoint contains_aggregate (expr : Expression) : bool :=
  match expr with
  | EAggregate _ _ _ => true
  | EBinaryOp l _ r => contains_aggregate l || contains_aggregate r
  | EUnaryOp _ operand => contains_aggregate operand
  | EFunctionCall _ args => existsb contains_aggregate args
  | _ => false
  end.

Section relational.
Context `{Platform, Unicode, DebugFormat}.

(** ** Filter *)
Definition filter_record (predicate : Expression) (record : Record_) (rs : ResultSet) : exec ResultSet :=
  val ← evaluate predicate record;
  Ok (if Value_eqb val (Bool true) then add_record (values record) rs else rs).
Definition exec_filter (input : ResultSet) (predicate : Expression) : exec ResultSet :=
  for_each (filter_record predicate) (rs_records input) (ResultSet_new (rs_columns input)).

(** ** Aggregation *)
Definition is_some {A} (o : option A) : bool := match o with Some _ => true | None => false end.
(** [if let Ok(v) = evaluate(arg, r) { if v != Null ... }]: errors count as NULL, panics do not. *)
Definition present (arg : Expression) (r : Record_) : exec (option Value) :=
  match evaluate arg r with
  | Ok v => Ok (if Value_eqb v Null then None else Some v)
  | Err (Raised _) => Ok None
  | Err Panic => panic
  end.
Fixpoint collect {A B} (f : A → exec B) (l : list A) : exec (list B) :=
  match l with
  | [] => Ok []
  | a :: l' => b ← f a; bs ← collect f l'; Ok (b :: bs)
  end.
(** The values of the argument, in the order of the records; none when there is no argument. *)
Definition arguments (arg : option Expression) (records : list Record_) : exec (list Value) :=
  match arg with Some inner => collect (evaluate inner) records | None => Ok [] end.

Record sums := mkSums { total : Z; has_float : bool; ftotal : f64 }.
Definition sum_step (r : Record_) (inner : Expression) (s : sums) : exec sums :=
  v ← evaluate inner r;
  match v with
  | Integer n =>
      t ← i64_op (total s + n);
      Ok (mkSums t (has_float s) (f64_add (ftotal s) (f64_of_i64 n)))
  | Float f => Ok (mkSums (total s) true (f64_add (ftotal s) f))
  | _ => Ok s
  end.
Definition exec_sum (arg : option Expression) (records : list Record_) : exec Value :=
  s ← for_each (λ r s, match arg with Some inner => sum_step r inner s | None => Ok s end) records (mkSums 0 false 0);
  Ok (if has_float s then Float (ftotal s) else Integer (total s)).
Definition avg_step (r : Record_) (inner : Expression) (s : f64 * nat) : exec (f64 * nat) :=
  v ← evaluate inner r;
  Ok (match v with
      | Integer n => (f64_add s.1 (f64_of_i64 n), S s.2)
      | Float f => (f64_add s.1 f, S s.2)
      | _ => s
      end).
Definition exec_avg (arg : option Expression) (records : list Record_) : exec Value :=
  s ← for_each (λ r s, match arg with Some inner => avg_step r inner s | None => Ok s end) records (0, 0%nat);
  Ok (if (0 <? s.2)%nat then Float (f64_div s.1 (f64_of_i64 (Z.of_nat s.2))) else Null).
(** [a < b] of the pairs MIN compares; the others keep the value found so far. *)
Definition lt_values (a b : Value) : bool :=
  match a, b with
  | Integer x, Integer y => x <? y
  | Float x, Float y => f64_ltb x y
  | Str x, Str y => str_ltb x y
  | _, _ => false
  end.
Definition extremum_step (better : Value → Value → bool) (best v : Value) : Value :=
  if Value_eqb best Null then v else if better v best then v else best.
Definition exec_extremum (better : Value → Value → bool) (arg : option Expression) (records : list Record_) : exec Value :=
  for_each (λ r best, match arg with Some inner => extremum_step better best <$> evaluate inner r | None => Ok best end)
    records Null.
Definition exec_count (arg : option Expression) (distinct : bool) (records : list Record_) : exec Value :=
  match arg with
  | None => Ok (Integer (as_i64 (Z.of_nat (length records))))
  | Some inner =>
      vs ← collect (present inner) records;
      let found := omap id vs in
      Ok (Integer (as_i64 (Z.of_nat
        (if distinct then size (list_to_set (Value_debug <$> found) : gset string) else length found))))
  end.
Definition eval_aggregate (function : AggregateFunction) (distinct : bool) (arg : option Expression)
    (records : list Record_) : exec Value :=
  match function with
  | AggCount => exec_count arg distinct records
  | AggSum => exec_sum arg records
  | AggAvg => exec_avg arg records
  | AggMin => exec_extremum lt_values arg records
  | AggMax => exec_extremum (λ v best, lt_values best v) arg records
  | AggCollect => ListV <$> arguments arg records
  | AggStdDev | AggPercentile => Ok Null
  end.
(** The row of an aggregation without groups and without input *)
Definition aggregate_default (expr : Expression) : Value :=
  match expr with
  | EAggregate AggCount _ _ | EAggregate AggSum _ _ => Integer 0
  | EAggregate AggCollect _ _ => ListV []
  | _ => Null
  end.

Definition group_exprs (expressions : list Expression) : list Expression :=
  List.filter (λ e, negb (contains_aggregate e)) expressions.
Definition group_key (keys : list Expression) (record : Record_) : exec string :=
  vs ← collect (λ e, evaluate e record) keys;
  Ok (debug_texts "|" vs).
(** [groups.entry(key).or_default().push(record)] *)
Definition push_group {A} (key : string) (a : A) (groups : list (string * list A)) : list (string * list A) :=
  btree_insert key (default [] (btree_get key groups) ++ [a]) groups.
Definition group_record (keys : list Expression) (record : Record_) (groups : list (string * list Record_))
    : exec (list (string * list Record_)) :=
  key ← group_key keys record; Ok (push_group key record groups).
Definition group_records (keys : list Expression) (records : list Record_) : exec (list (string * list Record_)) :=
  for_each (group_record keys) records [].
Definition group_value (records : list Record_) (expr : Expression) : exec Value :=
  match expr with
  | EAggregate function distinct arg => eval_aggregate function distinct arg records
  | _ => match records with first_record :: _ => evaluate expr first_record | [] => panic end
  end.
Definition add_group (expressions : list Expression) (group : string * list Record_) (rs : ResultSet) : exec ResultSet :=
  vs ← collect (group_value group.2) expressions; Ok (add_record vs rs).
Definition exec_project_with_aggregation (input : ResultSet) (expressions : list Expression)
    (aliases : list (option string)) : exec ResultSet :=
  let rs := ResultSet_new (projected_columns expressions aliases) in
  groups ← group_records (group_exprs expressions) (rs_records input);
  match groups, group_exprs expressions with
  | [], [] => Ok (add_record (aggregate_default <$> expressions) rs)
  | _, _ => for_each (add_group expressions) groups rs
  end.

(** ** Projection *)
Definition internal_columns (columns projected : list string) : list string :=
  List.filter (λ c, is_internal c && negb (existsb (String.eqb c) projected)) columns.
Definition project_record (input : ResultSet) (expressions : list Expression) (internal : list string)
    (record : Record_) (rs : ResultSet) : exec ResultSet :=
  vs ← collect (λ e, evaluate e record) expressions;
  Ok (add_record
        (vs ++ ((λ ic, default Null (column_index input ic ≫= λ i, values record !! i)) <$> internal)) rs).
Definition exec_project (input : ResultSet) (expressions : list Expression) (aliases : list (option string))
    : exec ResultSet :=
  if existsb contains_aggregate expressions then exec_project_with_aggregation input expressions aliases
  else
    let columns := projected_columns expressions aliases in
    let internal := internal_columns (rs_columns input) columns in
    let rs := ResultSet_new (columns ++ internal) in
    match rs_records input, rs_columns input with
    | [], [] =>
        vs ← collect (λ e, evaluate e (mkRecord [] [])) expressions;
        Ok (add_record vs rs)
    | records, _ => for_each (project_record input expressions internal) records rs
    end.

(** ** Limit *)
(** [skip(n)] and [take(n)] of a count that may exceed the number of records *)
Definition at_most (n : Z) (l : list Record_) : nat := Z.to_nat (Z.min n (Z.of_nat (length l))).
Definition exec_limit (input : ResultSet) (count offset : option Z) : exec ResultSet :=
  let skipped := drop (at_most (default 0 offset) (rs_records input)) (rs_records input) in
  let taken := match count with Some c => take (at_most c skipped) skipped | None => skipped end in
  Ok (foldl (λ rs record, add_record (values record) rs) (ResultSet_new (rs_columns input)) taken).

(** ** Sort *)
(** The comparison closure: it keeps the first error and calls everything equal from then on.
    [true]: [a] goes before [b]. *)
Fixpoint compare_records (order_by : list (Expression * SortDirection)) (a b : Record_) (err : option ExecError)
    : exec (bool * option ExecError) :=
  match err with
  | Some _ => Ok (false, err)
  | None =>
      match order_by with
      | [] => Ok (false, None)
      | (expr, dir) :: order_by' =>
          match evaluate expr a, evaluate expr b with
          | Err Panic, _ => panic
          | Err (Raised e), _ => Ok (false, Some e)
          | _, Err Panic => panic
          | _, Err (Raised e) => Ok (false, Some e)
          | Ok va, Ok vb =>
              match cmp_values va vb, dir with
              | Eq, _ => compare_records order_by' a b None
              | Lt, Asc | Gt, Desc => Ok (true, None)
              | _, _ => Ok (false, None)
              end
          end
      end
  end.
(** The sorted prefix is kept last record first: a new record is compared with the last one. *)
Fixpoint insert_tail (order_by : list (Expression * SortDirection)) (x : Record_) (sorted_rev : list Record_)
    (err : option ExecError) : exec (list Record_ * option ExecError) :=
  match sorted_rev with
  | [] => Ok ([x], err)
  | y :: rest =>
      c ← compare_records order_by x y err;
      if c.1 : bool then (r ← insert_tail order_by x rest c.2; Ok (y :: r.1, r.2)) else Ok (x :: y :: rest, c.2)
  end.
Definition sort_by (order_by : list (Expression * SortDirection)) (records : list Record_)
    : exec (list Record_ * option ExecError) :=
  r ← for_each (λ x acc, insert_tail order_by x acc.1 acc.2) records ([], None);
  Ok (rev r.1, r.2).
Definition exec_sort (input : ResultSet) (order_by : list (Expression * SortDirection)) : exec ResultSet :=
  r ← sort_by order_by (rs_records input);
  match r.2 with
  | Some e => raise e
  | None => Ok (mkResultSet (rs_columns input) r.1 (shared_columns input))
  end.

(** ** Join *)
Definition exec_cross_join (left right : ResultSet) : exec ResultSet :=
  Ok (foldl (λ rs l, foldl (λ rs r, add_record (values l ++ values r) rs) rs (rs_records right))
        (ResultSet_new (rs_columns left ++ rs_columns right)) (rs_records left)).
(** Columns "v.p" of both sides: their positions in the left and in the right input *)
Definition join_columns (left right : list string) : list (nat * nat) :=
  omap id (imap (λ li lc,
    if negb (contains_dot lc) || is_internal lc then None else (λ ri, (li, ri)) <$> position lc right) left).
(** [record.values[i]] panics out of range. *)
Definition value_at {E} (record : Record_) (i : nat) : may_panic E Value := ok_or Panic (values record !! i).
(** The key: each text followed by the byte 0xFF *)
Definition join_key (record : Record_) (cols : list nat) : exec string :=
  vs ← collect (value_at record) cols;
  Ok (debug_texts (String "255"%char EmptyString) vs).
Definition build_row (right_cols : list nat) (record : Record_) (table : nat * gmap string (list nat))
    : exec (nat * gmap string (list nat)) :=
  let '(idx, hash_map) := table in
  key ← join_key record right_cols;
  Ok (S idx, <[key := default [] (hash_map !! key) ++ [idx]]> hash_map).
Definition join_row (right : ResultSet) (right_keep : list nat) (l_record : Record_) (r_idx : nat) (rs : ResultSet)
    : exec ResultSet :=
  r_record ← ok_or Panic (rs_records right !! r_idx);
  kept ← collect (value_at r_record) right_keep;
  Ok (add_record (values l_record ++ kept) rs).
Definition probe_row (right : ResultSet) (left_cols right_keep : list nat) (hash_map : gmap string (list nat))
    (l_record : Record_) (rs : ResultSet) : exec ResultSet :=
  key ← join_key l_record left_cols;
  match hash_map !! key with
  | Some matches => for_each (join_row right right_keep l_record) matches rs
  | None => Ok rs
  end.
Definition kept_columns (right : list string) (shared : list (nat * nat)) : list nat :=
  List.filter (λ ri, negb (existsb (λ p, Nat.eqb p.2 ri) shared)) (seq 0 (length right)).
Definition exec_join (left right : ResultSet) : exec ResultSet :=
  let shared := join_columns (rs_columns left) (rs_columns right) in
  match shared with
  | [] => exec_cross_join left right
  | _ =>
      let right_keep := kept_columns (rs_columns right) shared in
      let columns := rs_columns left ++ omap (λ ri, rs_columns right !! ri) right_keep in
      table ← for_each (build_row (snd <$> shared)) (rs_records right) (0%nat, ∅);
      for_each (probe_row right (fst <$> shared) right_keep table.2) (rs_records left) (ResultSet_new columns)
  end.

(** ** Distinct *)
Definition user_columns (columns : list string) : list nat :=
  omap id (imap (λ i c, if is_internal c then None else Some i) columns).
Definition distinct_values (cols : list nat) (record : Record_) : list Value :=
  (λ i, default Null (values record !! i)) <$> cols.
Definition distinct_row (cols : list nat) (acc : ResultSet * gset string) (record : Record_) : ResultSet * gset string :=
  let key_str := String.concat "|" (Value_debug <$> distinct_values cols record) in
  if decide (key_str ∈ acc.2) then acc else (add_record (values record) acc.1, {[key_str]} ∪ acc.2).
Definition exec_distinct (rs : ResultSet) : exec ResultSet :=
  Ok (foldl (distinct_row (user_columns (rs_columns rs))) (ResultSet_new (rs_columns rs), ∅) (rs_records rs)).1.
End relational.

(** ** Result sets as lists of rows *)
Definition of_rows (cols : list string) (rows : list (list Value)) : ResultSet :=
  mkResultSet cols (mkRecord cols <$> rows) cols.
Definition rs_wf (rs : ResultSet) : Prop :=
  ∃ rows, rs = of_rows (rs_columns rs) rows ∧ Forall (λ row, length row = length (rs_columns rs)) rows.
Definition rows_of (rs : ResultSet) : list (list Value) := values <$> rs_records rs.
Lemma rows_of_rows cols rows : rows_of (of_rows cols rows) = rows.
Proof. unfold rows_of, of_rows. cbn. rewrite <- list_fmap_compose. by apply list_fmap_id. Qed.
Lemma of_rows_new cols : ResultSet_new cols = of_rows cols [].
Proof. done. Qed.
Lemma add_record_rows cols rows row : add_record row (of_rows cols rows) = of_rows cols (rows ++ [row]).
Proof. unfold add_record, of_rows. cbn. by rewrite fmap_app. Qed.
Lemma rs_wf_rows rs : rs_wf rs → rs = of_rows (rs_columns rs) (rows_of rs) ∧ Forall (λ row, length row = length (rs_columns rs)) (rows_of rs).
Proof.
  intros (rows & Heq & Hlen). assert (rows_of rs = rows) as -> by (rewrite Heq; apply rows_of_rows). done.
Qed.
Lemma of_rows_wf cols rows : Forall (λ row, length row = length cols) rows → rs_wf (of_rows cols rows).
Proof. intros Hl. by exists rows. Qed.
Lemma rs_wf_records rs : rs_wf rs → Forall record_wf (rs_records rs).
Proof.
  intros (rows & Heq & Hl). rewrite Heq. cbn. apply Forall_fmap. eapply Forall_impl; [exact Hl|].
  intros row Hrow. exact Hrow.
Qed.

Lemma foldl_rows {A} (f : A → list Value) cols l acc :
  foldl (λ rs a, add_record (f a) rs) (of_rows cols acc) l = of_rows cols (acc ++ (f <$> l)).
Proof.
  revert acc. induction l as [|a l IH]; intros acc; [cbn; by rewrite app_nil_r|].
  cbn. rewrite add_record_rows, IH. by rewrite <- app_assoc.
Qed.
(** A loop whose body appends rows appends the rows of all its iterations. *)
Lemma for_each_rows {A} (body : A → ResultSet → exec ResultSet) (f : A → exec (list (list Value))) cols l acc :
  (∀ a acc, a ∈ l → body a (of_rows cols acc) = (rows ← f a; Ok (of_rows cols (acc ++ rows)))) →
  for_each body l (of_rows cols acc) = (rows ← collect f l; Ok (of_rows cols (acc ++ concat rows))).
Proof.
  revert acc. induction l as [|a l IH]; intros acc Hbody; [cbn; by rewrite app_nil_r|].
  cbn. rewrite Hbody by set_solver. destruct (f a) as [rows|]; [|done]. cbn.
  rewrite IH by (intros; apply Hbody; set_solver). destruct (collect f l); [|done]. cbn. by rewrite app_assoc.
Qed.
Lemma collect_ok {A B} (f : A → exec B) (g : A → B) l : (∀ a, a ∈ l → f a = Ok (g a)) → collect f l = Ok (g <$> l).
Proof.
  intros Hf. induction l as [|a l IH]; [done|]. cbn. rewrite Hf by set_solver. cbn. by rewrite IH by set_solver.
Qed.
Lemma collect_Forall2 {A B} (f : A → exec B) l bs : collect f l = Ok bs ↔ Forall2 (λ a b, f a = Ok b) l bs.
Proof.
  split.
  - revert bs. induction l as [|a l IH]; cbn; intros bs; [by intros [= <-]|].
    intros (b & Hb & (bs' & Hbs & [= <-])%bind_Ok)%bind_Ok. auto.
  - induction 1 as [|a b l bs Ha _ IH]; [done|]. cbn. by rewrite Ha, IH.
Qed.
Lemma collect_length {A B} (f : A → exec B) l bs : collect f l = Ok bs → length bs = length l.
Proof. intros Hc%collect_Forall2. symmetry. by eapply Forall2_length. Qed.
Lemma collect_no_panic {A B} (f : A → exec B) l : (∀ a, a ∈ l → no_panic (f a)) → no_panic (collect f l).
Proof.
  intros Hf. induction l as [|a l IH]; [done|]. cbn. apply no_panic_bind; [apply Hf; set_solver|].
  intros b _. apply no_panic_bind; [apply IH; set_solver|done].
Qed.

Section rows.
Context `{Platform, Unicode, DebugFormat}.

Definition selects (predicate : Expression) (record : Record_) : Prop := evaluate predicate record = Ok (Bool true).
#[export] Instance selects_dec p r : Decision (selects p r).
Proof.
  unfold selects. destruct (evaluate p r) as [v|]; [|by right].
  destruct (decide (v = Bool true)) as [->|Hv]; [by left|right; congruence].
Defined.
Definition filter_rows (predicate : Expression) (record : Record_) : exec (list (list Value)) :=
  v ← evaluate predicate record; Ok (if Value_eqb v (Bool true) then [values record] else []).
Lemma exec_filter_rows input p :
  exec_filter input p = (rows ← collect (filter_rows p) (rs_records input); Ok (of_rows (rs_columns input) (concat rows))).
Proof.
  unfold exec_filter. rewrite of_rows_new. apply (for_each_rows (filter_record p) (filter_rows p)).
  intros r acc _. unfold filter_record, filter_rows. destruct (evaluate p r) as [v|]; [|done]. cbn.
  destruct (Value_eqb v (Bool true)); [by rewrite add_record_rows|by rewrite app_nil_r].
Qed.
Lemma is_true_value v : Value_eqb v (Bool true) = true ↔ v = Bool true.
Proof. rewrite Value_eqb_bool. destruct v as [|[]| | | | | | | | | | | |]; cbn; split; congruence. Qed.
(** When the predicate evaluates on every record, the filter keeps those that satisfy it. *)
Lemma exec_filter_ok input p rs : exec_filter input p = Ok rs ↔
  (∀ r, r ∈ rs_records input → ∃ v, evaluate p r = Ok v) ∧
  rs = of_rows (rs_columns input) (values <$> filter (selects p) (rs_records input)).
Proof.
  rewrite exec_filter_rows. generalize (rs_columns input) as cols. generalize (rs_records input) as l. intros l cols.
  assert ((∀ r, r ∈ l → ∃ v, evaluate p r = Ok v) →
    ∃ rows, collect (filter_rows p) l = Ok rows ∧ concat rows = values <$> filter (selects p) l) as Hall.
  { intros Hl. induction l as [|r l IH]; [by exists []|].
    destruct (Hl r) as [v Hv]; [set_solver|]. destruct IH as (rows & Hr & Hc); [set_solver|].
    assert (filter_rows p r = Ok (if Value_eqb v (Bool true) then [values r] else [])) as Hfr
      by (unfold filter_rows; by rewrite Hv).
    cbn [collect]. rewrite Hfr, Hr. eexists; split; [done|]. cbn [concat]. rewrite Hc, filter_cons.
    destruct (Value_eqb v (Bool true)) eqn:Ht; case_decide as Hs; unfold selects in Hs; try done.
    - apply is_true_value in Ht. congruence.
    - assert (Value_eqb v (Bool true) = true) by (apply is_true_value; congruence). congruence. }
  split.
  - intros (rows & Hr & [= <-])%bind_Ok.
    assert (∀ r, r ∈ l → ∃ v, evaluate p r = Ok v) as Hl.
    { intros r Hin. apply collect_Forall2 in Hr. apply list_elem_of_lookup in Hin as [i Hi].
      destruct (Forall2_lookup_l _ _ _ _ _ Hr Hi) as (b & _ & Hb). unfold filter_rows in Hb.
      apply bind_Ok in Hb as (v & Hv & _). eauto. }
    split; [done|]. destruct (Hall Hl) as (rows' & Hr' & Hc). rewrite Hr in Hr'. injection Hr' as <-. by rewrite Hc.
  - intros [Hl ->]. destruct (Hall Hl) as (rows & -> & Hc). cbn. by rewrite Hc.
Qed.
End rows.

(** ** Projection, limit, join and distinct on rows *)
Section operators.
Context `{Platform, Unicode, DebugFormat}.

Definition internal_value (input : ResultSet) (record : Record_) (ic : string) : Value :=
  default Null (column_index input ic ≫= λ i, values record !! i).
Definition project_rows (input : ResultSet) (expressions : list Expression) (internal : list string)
    (record : Record_) : exec (list (list Value)) :=
  vs ← collect (λ e, evaluate e record) expressions;
  Ok [vs ++ (internal_value input record <$> internal)].
Lemma project_for_each input exprs internal cols records :
  for_each (project_record input exprs internal) records (ResultSet_new cols) =
  (rows ← collect (project_rows input exprs internal) records; Ok (of_rows cols (concat rows))).
Proof.
  rewrite of_rows_new. apply (for_each_rows _ (project_rows input exprs internal)).
  intros r acc _. unfold project_record, project_rows. destruct (collect _ exprs) as [vs|]; [|done]. cbn.
  by rewrite add_record_rows.
Qed.
Lemma exec_project_rows input exprs aliases : existsb contains_aggregate exprs = false →
  rs_columns input ≠ [] →
  exec_project input exprs aliases =
  (let columns := projected_columns exprs aliases in
   let internal := internal_columns (rs_columns input) columns in
   rows ← collect (project_rows input exprs internal) (rs_records input);
   Ok (of_rows (columns ++ internal) (concat rows))).
Proof.
  intros Ha Hc. unfold exec_project. rewrite Ha. cbv zeta. rewrite <- project_for_each.
  by destruct (rs_records input), (rs_columns input).
Qed.
Lemma projected_columns_length exprs aliases : length (projected_columns exprs aliases) = length exprs.
Proof. unfold projected_columns. by rewrite length_imap. Qed.

Lemma exec_limit_rows input count offset :
  exec_limit input count offset =
  Ok (of_rows (rs_columns input)
       (let skipped := drop (Z.to_nat (default 0 offset)) (rows_of input) in
        match count with Some c => take (Z.to_nat c) skipped | None => skipped end)).
Proof.
  unfold exec_limit, rows_of. f_equal. rewrite of_rows_new.
  rewrite (foldl_rows values). f_equal. cbn.
  assert (∀ n l, drop (at_most n l) l = drop (Z.to_nat n) l) as Hdrop.
  { intros n l. unfold at_most. destruct (Z.leb_spec n (Z.of_nat (length l))); [by rewrite Z.min_l|].
    rewrite Z.min_r by lia. rewrite !drop_ge by lia. done. }
  assert (∀ n l, take (at_most n l) l = take (Z.to_nat n) l) as Htake.
  { intros n l. unfold at_most. destruct (Z.leb_spec n (Z.of_nat (length l))); [by rewrite Z.min_l|].
    rewrite Z.min_r by lia. rewrite !take_ge by lia. done. }
  destruct count; rewrite ?Htake, ?Hdrop, ?fmap_take, ?fmap_drop; done.
Qed.

(** [values_at cols r]: the values of [r] in the positions [cols] *)
Abbreviation values_at := distinct_values.
Lemma collect_value_at (r : Record_) cols : Forall (λ i, (i < length (values r))%nat) cols →
  collect (value_at (E:=ExecError) r) cols = Ok (values_at cols r).
Proof.
  intros Hc. apply collect_ok. intros i Hi. rewrite Forall_forall in Hc.
  destruct (lookup_lt_is_Some_2 (values r) i (Hc i Hi)) as [v Hv]. unfold value_at. by rewrite Hv.
Qed.
Definition separator : string := String "255"%char EmptyString.
Definition row_key (cols : list nat) (r : Record_) : string := debug_texts separator (values_at cols r).
Lemma join_key_ok r cols : Forall (λ i, (i < length (values r))%nat) cols → join_key r cols = Ok (row_key cols r).
Proof. intros Hc. unfold join_key. by rewrite collect_value_at. Qed.

Definition joined (left_cols right_cols : list nat) (l r : Record_) : Prop :=
  Forall2 same_value (values_at left_cols l) (values_at right_cols r).
Context `{!DebugLaws}.
#[export] Instance joined_dec lc rc l r : Decision (joined lc rc l r).
Proof. unfold joined. apply Forall2_dec. apply _. Defined.
Lemma row_key_joined lc rc l r : row_key lc l = row_key rc r ↔ joined lc rc l r.
Proof. apply debug_texts_same. Qed.

(** The positions the table holds for a key lead to the records with that key. *)
Definition table_ok (records done : list Record_) (cols : list nat) (m : gmap string (list nat)) : Prop :=
  ∀ key, Forall2 (λ i r, records !! i = Some r) (default [] (m !! key)) (filter (λ r, row_key cols r = key) done).
Lemma build_table records cols : Forall (λ r, Forall (λ i, (i < length (values r))%nat) cols) records →
  ∃ n m, for_each (build_row cols) records (0%nat, ∅) = Ok (n, m) ∧ table_ok records records cols m.
Proof.
  intros Hwf.
  assert (∀ rest finished m, records = finished ++ rest → table_ok records finished cols m →
    ∃ n' m', for_each (build_row cols) rest (length finished, m) = Ok (n', m') ∧ table_ok records records cols m') as Hloop.
  { induction rest as [|r rest IH]; intros finished m Hr Hm.
    - rewrite app_nil_r in Hr. subst finished. by exists (length records), m.
    - assert (records !! length finished = Some r) as Hat.
      { rewrite Hr, lookup_app_r, Nat.sub_diag by done. done. }
      rewrite Forall_forall in Hwf. cbn [for_each build_row].
      rewrite join_key_ok by (apply Hwf; rewrite Hr; set_solver). cbn.
      replace (S (length finished)) with (length (finished ++ [r])) by (rewrite length_app; cbn; lia).
      apply IH; [by rewrite <- app_assoc|]. intros key. rewrite filter_app, filter_cons, filter_nil.
      destruct (decide (row_key cols r = key)) as [<-|Hne].
      + rewrite lookup_insert_eq. cbn. apply Forall2_app; [apply Hm|]. by constructor.
      + rewrite lookup_insert_ne by done. rewrite app_nil_r. apply Hm. }
  apply (Hloop records [] ∅); [done|]. intros key. rewrite lookup_empty, filter_nil. constructor.
Qed.

Lemma join_rows_loop records keep l r_ids rows acc cols : Forall (λ r, Forall (λ i, (i < length (values r))%nat) keep) records →
  Forall2 (λ i r, records !! i = Some r) r_ids rows →
  ∀ right, rs_records right = records →
  for_each (join_row right keep l) r_ids (of_rows cols acc) =
  Ok (of_rows cols (acc ++ ((λ r, values l ++ values_at keep r) <$> rows))).
Proof.
  intros Hwf Hrows right <-. revert acc. induction Hrows as [|i r r_ids rows Hi _ IH]; intros acc; [cbn; by rewrite app_nil_r|].
  cbn. unfold join_row at 1. rewrite Hi. cbn. rewrite collect_value_at by (rewrite Forall_forall in Hwf; eauto using list_elem_of_lookup_2).
  cbn. rewrite add_record_rows, IH, <- app_assoc. done.
Qed.
(** The nested-loop join: the rows of the left input, each with the kept columns of the rows of
    the right input that have the same values in the shared columns. *)
Definition nested_loop (lc rc keep : list nat) (ls rs : list Record_) : list (list Value) :=
  ls ≫= λ l, (λ r, values l ++ values_at keep r) <$> filter (joined lc rc l) rs.
Lemma position_lt name cols i : position name cols = Some i → (i < length cols)%nat.
Proof. intros [Hi _]%position_Some. by eapply lookup_lt_Some. Qed.
Lemma join_columns_lt left right li ri : (li, ri) ∈ join_columns left right → (li < length left ∧ ri < length right)%nat.
Proof.
  unfold join_columns. rewrite list_elem_of_omap. intros (o & Ho & Hid). cbn in Hid. subst o.
  apply list_elem_of_lookup in Ho as [i Hi]. rewrite list_lookup_imap in Hi.
  destruct (left !! i) as [lc|] eqn:Hl; [|done]. cbn in Hi. case_match; [done|].
  destruct (position lc right) eqn:Hp; [|done]. injection Hi as <- <-.
  split; [by eapply lookup_lt_Some|by eapply position_lt].
Qed.
Lemma kept_columns_lt right shared i : i ∈ kept_columns right shared → (i < length right)%nat.
Proof.
  unfold kept_columns. rewrite list_elem_of_In, filter_In, in_seq. lia.
Qed.
Lemma kept_columns_names right shared :
  length (omap (λ ri, right !! ri) (kept_columns right shared)) = length (kept_columns right shared).
Proof.
  assert (∀ l, Forall (λ i, (i < length right)%nat) l → length (omap (λ ri, right !! ri) l) = length l) as Hl.
  { induction 1 as [|i l Hi _ IH]; [done|]. cbn. destruct (lookup_lt_is_Some_2 right i Hi) as [c ->]. cbn. by rewrite IH. }
  apply Hl, Forall_forall. apply kept_columns_lt.
Qed.
Lemma cross_join_rows left right :
  exec_cross_join left right = Ok (of_rows (rs_columns left ++ rs_columns right)
    (rs_records left ≫= λ l, (λ r, values l ++ values r) <$> rs_records right)).
Proof.
  unfold exec_cross_join. f_equal. rewrite of_rows_new. generalize (rs_columns left ++ rs_columns right) as cols. intros cols.
  assert (∀ ls acc, foldl (λ rs l, foldl (λ rs r, add_record (values l ++ values r) rs) rs (rs_records right)) (of_rows cols acc) ls =
    of_rows cols (acc ++ (ls ≫= λ l, (λ r, values l ++ values r) <$> rs_records right))) as Hout.
  { induction ls as [|l ls IH]; intros acc; [cbn; by rewrite app_nil_r|]. cbn.
    rewrite (foldl_rows (λ r, values l ++ values r)), IH, <- app_assoc. done. }
  by rewrite Hout.
Qed.
End operators.

Section join.
Context `{Platform, Unicode, DebugLaws}.

Lemma filter_all {A} (P : A → Prop) `{∀ x, Decision (P x)} (l : list A) : (∀ x, x ∈ l → P x) → filter P l = l.
Proof.
  intros HP. induction l as [|x l IH]; [done|]. rewrite filter_cons, decide_True by set_solver.
  f_equal. apply IH. set_solver.
Qed.

Lemma omap_all {A} (l : list A) : omap (λ i, l !! i) (seq 0 (length l)) = l.
Proof.
  assert (∀ k, omap (λ i, (k ++ l) !! i) (seq (length k) (length l)) = l) as Hk; [|apply (Hk [])].
  induction l as [|a l IH]; intros k; [done|]. cbn.
  rewrite lookup_app_r, Nat.sub_diag by done. cbn. f_equal.
  specialize (IH (k ++ [a])). rewrite length_app, Nat.add_1_r in IH. by rewrite <- app_assoc in IH.
Qed.
Lemma values_at_all r : distinct_values (seq 0 (length (values r))) r = values r.
Proof.
  apply list_eq. intros i. unfold distinct_values. rewrite list_lookup_fmap.
  destruct (decide (i < length (values r))%nat) as [Hi|Hi].
  - rewrite lookup_seq_lt by done. cbn. by destruct (lookup_lt_is_Some_2 (values r) i Hi) as [v ->].
  - rewrite lookup_seq_ge, lookup_ge_None_2 by lia. done.
Qed.
Lemma kept_all right : kept_columns right [] = seq 0 (length right).
Proof. unfold kept_columns. cbn. induction (seq 0 (length right)) as [|i l IH]; [done|]. cbn. by rewrite IH. Qed.
Lemma rs_wf_in_range rs cols : rs_wf rs → Forall (λ i, (i < length (rs_columns rs))%nat) cols →
  Forall (λ r, Forall (λ i, (i < length (values r))%nat) cols) (rs_records rs).
Proof.
  intros (rows & Heq & Hl) Hc. rewrite Heq. cbn. apply Forall_fmap. eapply Forall_impl; [exact Hl|].
  intros row Hrow. cbn. by rewrite Hrow.
Qed.

Lemma concat_fmap_bind {A B} (f : A → list B) (l : list A) : concat (f <$> l) = l ≫= f.
Proof. induction l as [|a l IH]; [done|]. cbn. by rewrite IH. Qed.

(** C14: The hash join is the nested-loop join, and never panics: on well-formed inputs its rows are,
    in order, the pairs of a left and a right row whose values in the shared columns are the same
    (the columns with a dot and not internal that both sides have), without the shared columns of
    the right side; with no shared column it is the cross product. *)
Theorem join_nested_loop left right : rs_wf left → rs_wf right →
  let shared := join_columns (rs_columns left) (rs_columns right) in
  let keep := kept_columns (rs_columns right) shared in
  exec_join left right =
  Ok (of_rows (rs_columns left ++ omap (λ ri, rs_columns right !! ri) keep)
        (nested_loop (fst <$> shared) (snd <$> shared) keep (rs_records left) (rs_records right))).
Proof.
  intros Hl Hr shared keep. unfold exec_join. fold shared.
  destruct (decide (shared = [])) as [Hs|Hs].
  - rewrite Hs, cross_join_rows. do 2 f_equal; subst keep; rewrite Hs, kept_all; [by rewrite omap_all|].
    unfold nested_loop. apply list_bind_ext; [|done]. intros l. rewrite (filter_all _ (rs_records right)).
    + apply list_fmap_ext. intros i r Hi. f_equal. rewrite <- (values_at_all r) at 1. do 2 f_equal.
      apply rs_wf_records in Hr as Hrec. rewrite Forall_lookup in Hrec. rewrite (Hrec i r Hi).
      destruct Hr as (rows & Heq & _). rewrite Heq in Hi. cbn in Hi. rewrite list_lookup_fmap in Hi.
      by destruct (rows !! i); simplify_eq/=.
    + intros r _. constructor.
  - assert (∀ p, p ∈ shared → (p.1 < length (rs_columns left) ∧ p.2 < length (rs_columns right))%nat) as Hin
      by (intros [li ri]; apply join_columns_lt).
    destruct (build_table (rs_records right) (snd <$> shared)) as (n & m & Hbuild & Hm).
    { apply rs_wf_in_range; [done|]. apply Forall_fmap, Forall_forall. intros p Hp. apply (Hin p Hp). }
    assert (for_each (probe_row right (fst <$> shared) keep m) (rs_records left)
              (of_rows (rs_columns left ++ omap (λ ri, rs_columns right !! ri) keep) []) =
            Ok (of_rows (rs_columns left ++ omap (λ ri, rs_columns right !! ri) keep)
              (nested_loop (fst <$> shared) (snd <$> shared) keep (rs_records left) (rs_records right)))) as Hprobe.
    { rewrite (for_each_rows _ (λ l, Ok ((λ r, values l ++ distinct_values keep r)
                 <$> filter (joined (fst <$> shared) (snd <$> shared) l) (rs_records right)))).
      - erewrite collect_ok by done. cbn. by rewrite concat_fmap_bind.
      - intros l acc Hll. unfold probe_row. rewrite join_key_ok.
        2:{ assert (Forall (λ i, (i < length (rs_columns left))%nat) (fst <$> shared)) as Hlc
              by (apply Forall_fmap, Forall_forall; intros p Hp; apply (Hin p Hp)).
            pose proof (rs_wf_in_range _ _ Hl Hlc) as Hall. rewrite Forall_forall in Hall. auto. }
        cbn. set (key := row_key (fst <$> shared) l). specialize (Hm key).
        assert (filter (λ r, row_key (snd <$> shared) r = key) (rs_records right) =
                filter (joined (fst <$> shared) (snd <$> shared) l) (rs_records right)) as Hf.
        { apply list_filter_iff. intros r. subst key. rewrite <- row_key_joined. split; congruence. }
        rewrite Hf in Hm. destruct (m !! key) as [ids|]; cbn in Hm.
        + erewrite join_rows_loop; [done| |exact Hm|done]. apply rs_wf_in_range; [done|].
          apply Forall_forall. apply kept_columns_lt.
        + inversion Hm. by rewrite app_nil_r. }
    destruct shared as [|p shared']; [done|]. rewrite Hbuild. cbn [mbind result_bind]. exact Hprobe.
Qed.

(** ** Distinct *)
(** The reference: a row is kept unless an earlier row has the same values. *)
Definition same_row (cols : list nat) (r1 r2 : Record_) : Prop :=
  Forall2 same_value (distinct_values cols r1) (distinct_values cols r2).
#[export] Instance same_row_dec cols r1 r2 : Decision (same_row cols r1 r2).
Proof. unfold same_row. apply Forall2_dec. apply _. Defined.
Fixpoint first_rows (cols : list nat) (rs : list Record_) : list Record_ :=
  match rs with
  | [] => []
  | r :: rs' => r :: filter (λ r', ¬ same_row cols r r') (first_rows cols rs')
  end.
Definition distinct_key (cols : list nat) (r : Record_) : string := String.concat "|" (Value_debug <$> distinct_values cols r).
Lemma distinct_key_same cols r1 r2 : distinct_key cols r1 = distinct_key cols r2 ↔ same_row cols r1 r2.
Proof. apply joined_debug_same. unfold distinct_values. by rewrite !length_fmap. Qed.
Lemma distinct_fold cols names rs acc seen :
  (foldl (distinct_row cols) (of_rows names acc, seen) rs).1 =
  of_rows names (acc ++ (values <$> filter (λ r, distinct_key cols r ∉ seen) (first_rows cols rs))).
Proof.
  revert acc seen. induction rs as [|r rs IH]; intros acc seen; [cbn; by rewrite app_nil_r|].
  cbn [foldl first_rows]. unfold distinct_row at 2. cbn [fst snd]. fold (distinct_key cols r).
  rewrite filter_cons. destruct (decide (distinct_key cols r ∈ seen)) as [Hin|Hin].
  - rewrite IH, decide_False by tauto. do 3 f_equal. rewrite list_filter_filter. apply list_filter_iff. intros r'.
    split; [|tauto]. intros Hr'. split; [done|]. intros Hs. apply distinct_key_same in Hs. congruence.
  - rewrite decide_True by done. rewrite add_record_rows, IH, <- app_assoc. do 2 f_equal. cbn. f_equal.
    rewrite list_filter_filter. f_equal. apply list_filter_iff. intros r'.
    rewrite <- distinct_key_same. set_solver.
Qed.
Lemma ForallOrdPairs_filter {A} (R : A → A → Prop) (P : A → Prop) `{∀ x, Decision (P x)} l :
  ForallOrdPairs R l → ForallOrdPairs R (filter P l).
Proof.
  induction 1 as [|x l Hx _ IH]; [constructor|]. rewrite filter_cons. case_decide; [|done].
  constructor; [|done]. apply Forall_forall. intros y [_ Hy]%list_elem_of_filter. rewrite Forall_forall in Hx. auto.
Qed.
Lemma first_rows_distinct cols rs : ForallOrdPairs (λ r1 r2, ¬ same_row cols r1 r2) (first_rows cols rs).
Proof.
  induction rs as [|r rs IH]; cbn; [constructor|]. constructor.
  - apply Forall_forall. intros r' Hr'%list_elem_of_filter. tauto.
  - by apply ForallOrdPairs_filter.
Qed.
Lemma first_rows_cover cols rs r : r ∈ rs → ∃ r', r' ∈ first_rows cols rs ∧ same_row cols r' r.
Proof.
  induction rs as [|r0 rs IH]; [by intros ?%elem_of_nil|]. cbn. intros [->|Hr]%elem_of_cons.
  - exists r0. split; [by left|]. by apply distinct_key_same.
  - destruct (IH Hr) as (r' & Hr' & Hs). destruct (decide (same_row cols r0 r')) as [Hrr|Hrr].
    + exists r0. split; [by left|]. apply distinct_key_same in Hs, Hrr. apply distinct_key_same. congruence.
    + exists r'. split; [right; by apply list_elem_of_filter|done].
Qed.

(** DISTINCT is exact: of the rows of its input, in their order, it keeps each one that has no
    earlier row with the same values in the columns that are not internal. So no two rows kept
    are the same there, and every row of the input has a representative. *)
Theorem distinct_exact rs : let cols := user_columns (rs_columns rs) in
  exec_distinct rs = Ok (of_rows (rs_columns rs) (values <$> first_rows cols (rs_records rs))) ∧
  ForallOrdPairs (λ r1 r2, ¬ same_row cols r1 r2) (first_rows cols (rs_records rs)) ∧
  (∀ r, r ∈ rs_records rs → ∃ r', r' ∈ first_rows cols (rs_records rs) ∧ same_row cols r' r).
Proof.
  intros cols. split_and!; [|apply first_rows_distinct|apply first_rows_cover].
  unfold exec_distinct. rewrite of_rows_new, distinct_fold. cbn [app]. do 3 f_equal.
  apply filter_all. intros r _. set_solver.
Qed.
End join.

(** ** Samples *)
#[local] Existing Instances dev_build dev_unicode plain_debug plain_laws.
Definition persons : ResultSet :=
  of_rows ["__node_id"; "p.name"; "p.city"]%string
    [[Str "1"; Str "Ann"; Integer 10]; [Str "2"; Str "Bob"; Integer 20]; [Str "3"; Str "Ann"; Integer 10]].
Definition cities : ResultSet := of_rows ["c"; "p.city"]%string [[Str "Oslo"; Integer 10]; [Str "Rome"; Integer 30]].
Lemma persons_wf : rs_wf persons.
Proof. apply of_rows_wf. repeat constructor. Qed.
Lemma cities_wf : rs_wf cities.
Proof. apply of_rows_wf. repeat constructor. Qed.
Lemma join_nested_loop_witness :
  exec_join persons cities =
  Ok (of_rows ["__node_id"; "p.name"; "p.city"; "c"]%string
        [[Str "1"; Str "Ann"; Integer 10; Str "Oslo"]; [Str "3"; Str "Ann"; Integer 10; Str "Oslo"]]).
Proof.
  etransitivity; [apply (join_nested_loop persons cities); [exact persons_wf|exact cities_wf]|].
  vm_compute. reflexivity.
Defined.
Lemma distinct_exact_witness :
  exec_distinct persons =
    Ok (of_rows (rs_columns persons) [[Str "1"; Str "Ann"; Integer 10]; [Str "2"; Str "Bob"; Integer 20]]).
Proof. etransitivity; [apply (distinct_exact persons)|]. vm_compute. reflexivity. Defined.
