(* ===== verification/Grouping.v ===== *)
(** * Grouping (the aggregating projection of synaptica-exec: engine.rs)

    What a [BTreeMap<String, Vec<A>>] filled by pushing holds, and from it that the groups of an
    aggregation partition the records by the values of the group-by expressions. *)
From S2P Require Import Prelude Types Lexer F64 Text Records Ast Expression Debug Relational.

(** ** Groups *)
Section btree_groups.
Context {A : Type}.
Implicit Types m : list (string * A).
Lemma btree_insert_keys k v m : fst <$> btree_insert k v m = btree_set_insert k (fst <$> m).
Proof.
  induction m as [|[k' v'] m IH]; [done|]. cbn. destruct (decide (k = k')) as [->|Hne]; [done|].
  destruct (str_ltb k k'); [done|]. cbn. by rewrite IH.
Qed.
Lemma str_lt_irrefl k : ¬ str_lt k k.
Proof. unfold str_lt, str_ltb. intros Hk. by apply bytes_lt_irrefl in Hk. Qed.
Lemma sorted_keys_NoDup (ks : list string) : StronglySorted str_lt ks → NoDup ks.
Proof.
  induction 1 as [|k ks _ IH Hk]; constructor; [|done]. intros Hin. rewrite Forall_forall in Hk.
  by apply (str_lt_irrefl k), Hk.
Qed.
Lemma btree_get_elem k v m : NoDup (fst <$> m) → btree_get k m = Some v ↔ (k, v) ∈ m.
Proof.
  induction m as [|[k' v'] m IH]; cbn; [by rewrite elem_of_nil|]. intros [Hk Hm]%NoDup_cons. rewrite elem_of_cons.
  destruct (decide (k = k')) as [->|Hne].
  - split; [intros [= ->]; by left|]. intros [[= ->]|Hin]; [done|]. destruct Hk. by apply (list_elem_of_fmap_2 fst) in Hin.
  - rewrite IH by done. split; [by right|]. intros [[= -> ->]|Hin]; done.
Qed.
End btree_groups.

Section grouping.
Context {A : Type} (key : A → string).
Implicit Types groups : list (string * list A).
(** The groups of [l] by [key]: under each key, in key order, the elements with that key. *)
Definition grouped (l : list A) groups : Prop :=
  StronglySorted str_lt (fst <$> groups) ∧
  (∀ k, default [] (btree_get k groups) = filter (λ a, key a = k) l) ∧
  Forall (λ kg, kg.2 ≠ []) groups.
Lemma grouped_nil : grouped [] [].
Proof. split_and!; [constructor|done|constructor]. Qed.
Lemma grouped_push l groups a : grouped l groups → grouped (l ++ [a]) (push_group (key a) a groups).
Proof.
  intros (Hs & Hget & Hne). unfold push_group. split_and!.
  - rewrite btree_insert_keys. by apply btree_set_insert_sorted.
  - intros k. rewrite filter_app, filter_cons, filter_nil. destruct (decide (key a = k)) as [<-|Hk].
    + rewrite btree_get_insert_eq. cbn. by rewrite Hget.
    + rewrite btree_get_insert_ne by done. by rewrite Hget, app_nil_r.
  - generalize (default [] (btree_get (key a) groups)) as g. intros g. generalize (key a) as k. intros k. clear Hs Hget.
    induction Hne as [|[k' g'] groups Hg Hne IH]; cbn.
    + constructor; [|constructor]. cbn. by destruct g.
    + destruct (decide (k = k')); [constructor; [by destruct g|done]|].
      destruct (str_ltb k k'); constructor; try done; [by destruct g|by constructor].
Qed.
Lemma grouped_elem l groups k g : grouped l groups → (k, g) ∈ groups → g = filter (λ a, key a = k) l ∧ g ≠ [].
Proof.
  intros (Hs & Hget & Hne) Hin. rewrite Forall_forall in Hne. split; [|by apply (Hne _ Hin)].
  rewrite <- Hget. apply btree_get_elem in Hin; [|by apply sorted_keys_NoDup]. by rewrite Hin.
Qed.
Lemma grouped_key l groups a : grouped l groups → a ∈ l → ∃ g, (key a, g) ∈ groups ∧ a ∈ g.
Proof.
  intros (Hs & Hget & Hne) Ha. specialize (Hget (key a)).
  assert (a ∈ filter (λ b, key b = key a) l) as Hin by (by apply list_elem_of_filter).
  rewrite <- Hget in Hin. destruct (btree_get (key a) groups) as [g|] eqn:Hg; [|by apply elem_of_nil in Hin].
  exists g. split; [|done]. apply btree_get_elem; [by apply sorted_keys_NoDup|done].
Qed.
Lemma partition_perm l groups : NoDup (fst <$> groups) → (∀ k g, (k, g) ∈ groups → g = filter (λ a, key a = k) l) →
  (∀ a, a ∈ l → key a ∈ fst <$> groups) → concat (snd <$> groups) ≡ₚ l.
Proof.
  revert l. induction groups as [|[k g] groups IH]; intros l Hnd Hg Hl; cbn.
  - destruct l as [|a l]; [done|]. specialize (Hl a ltac:(by left)). by apply elem_of_nil in Hl.
  - apply NoDup_cons in Hnd as [Hk Hnd]. rewrite (Hg k g) by (by left).
    rewrite (IH (filter (λ a, key a ≠ k) l)); [apply filter_app_complement|done| |].
    + intros k' g' Hin. rewrite (Hg k' g') by (by right). rewrite list_filter_filter. apply list_filter_iff.
      intros a. split; [|tauto]. intros <-. split; [done|]. intros <-. destruct Hk. by apply (list_elem_of_fmap_2 fst) in Hin.
    + intros a [Ha Hin]%list_elem_of_filter. apply Hl, elem_of_cons in Hin as [Hka|Hin]; done.
Qed.
Lemma grouped_perm l groups : grouped l groups → concat (snd <$> groups) ≡ₚ l.
Proof.
  intros Hg. pose proof Hg as (Hs & _ & _). apply partition_perm; [by apply sorted_keys_NoDup| |].
  - intros k g Hin. by apply (grouped_elem l groups).
  - intros a Ha. destruct (grouped_key l groups a Hg Ha) as (g & Hin & _). by apply (list_elem_of_fmap_2 fst) in Hin.
Qed.
End grouping.

Section aggregation.
Context `{Platform, Unicode, DebugLaws}.

Definition record_key (keys : list Expression) (r : Record_) : string :=
  match group_key keys r with Ok k => k | Err _ => EmptyString end.
Lemma group_records_ok keys records groups : group_records keys records = Ok groups →
  (∀ r, r ∈ records → ∃ vs, collect (λ e, evaluate e r) keys = Ok vs) ∧ grouped (record_key keys) records groups.
Proof.
  unfold group_records.
  assert (∀ rest done groups0, grouped (record_key keys) done groups0 →
    for_each (group_record keys) rest groups0 = Ok groups →
    (∀ r, r ∈ rest → ∃ vs, collect (λ e, evaluate e r) keys = Ok vs) ∧ grouped (record_key keys) (done ++ rest) groups) as Hloop.
  { induction rest as [|r rest IH]; intros finished groups0 Hg; cbn.
    - intros [= <-]. rewrite app_nil_r. split; [|done]. by intros r ?%elem_of_nil.
    - unfold group_record at 1. destruct (group_key keys r) as [k|] eqn:Hk; [|done]. cbn. intros Hrest.
      destruct (IH (finished ++ [r]) (push_group k r groups0)) as [Hrs Hg']; [|done|].
      + assert (k = record_key keys r) as -> by (unfold record_key; by rewrite Hk). by apply grouped_push.
      + rewrite <- app_assoc in Hg'. split; [|done]. intros r' [->|Hr']%elem_of_cons; [|auto].
        unfold group_key in Hk. apply bind_Ok in Hk as (vs & Hvs & _). eauto. }
  intros Hf. by apply (Hloop records [] []); [apply grouped_nil|].
Qed.
(** Two records are in the same group when their group-by expressions have the same values. *)
Definition same_group (keys : list Expression) (r1 r2 : Record_) : Prop :=
  ∃ vs1 vs2, collect (λ e, evaluate e r1) keys = Ok vs1 ∧ collect (λ e, evaluate e r2) keys = Ok vs2 ∧
    Forall2 same_value vs1 vs2.
Lemma record_key_same keys r1 r2 vs1 vs2 :
  collect (λ e, evaluate e r1) keys = Ok vs1 → collect (λ e, evaluate e r2) keys = Ok vs2 →
  record_key keys r1 = record_key keys r2 ↔ same_group keys r1 r2.
Proof.
  intros Hr1 Hr2. unfold record_key, group_key, same_group. rewrite Hr1, Hr2. cbn. rewrite debug_texts_same.
  split; [eauto|]. intros (vs1' & vs2' & [= <-] & [= <-] & Hf). done.
Qed.
Definition add_group_rows (exprs : list Expression) (group : string * list Record_) : exec (list (list Value)) :=
  vs ← collect (group_value group.2) exprs; Ok [vs].
Lemma add_groups exprs groups cols rs : for_each (add_group exprs) groups (ResultSet_new cols) = Ok rs →
  ∃ rows, rs = of_rows cols rows ∧ Forall2 (λ g row, collect (group_value g) exprs = Ok row) (snd <$> groups) rows.
Proof.
  rewrite of_rows_new, (for_each_rows _ (add_group_rows exprs)).
  2:{ intros g acc _. unfold add_group, add_group_rows. destruct (collect _ exprs); [|done]. cbn. by rewrite add_record_rows. }
  intros (rows & Hrows & [= <-])%bind_Ok. exists (concat rows). split; [done|].
  apply collect_Forall2 in Hrows. induction Hrows as [|g row groups rows Hg _ IH]; [constructor|].
  unfold add_group_rows in Hg. apply bind_Ok in Hg as (vs & Hvs & [= <-]). cbn. by constructor.
Qed.

(** C17: A projection with aggregates has one row per group, and the groups partition the records: the
    groups are not empty, hold every record exactly once, and two records are in the same group
    exactly when the expressions without aggregates have the same values on both. Each row holds
    the aggregates of its group, and the other expressions on the group's first record. *)
Theorem aggregation_partitions input exprs aliases rs :
  exec_project_with_aggregation input exprs aliases = Ok rs →
  rs_records input ≠ [] ∨ group_exprs exprs ≠ [] →
  ∃ groups rows, rs = of_rows (projected_columns exprs aliases) rows ∧
    Forall2 (λ g row, collect (group_value g) exprs = Ok row) groups rows ∧
    concat groups ≡ₚ rs_records input ∧ Forall (λ g, g ≠ []) groups ∧
    ∀ i j g1 g2 r1 r2, groups !! i = Some g1 → groups !! j = Some g2 → r1 ∈ g1 → r2 ∈ g2 →
      i = j ↔ same_group (group_exprs exprs) r1 r2.
Proof.
  unfold exec_project_with_aggregation. intros (groups & Hgr & Hrs)%bind_Ok Hsome.
  destruct (group_records_ok _ _ _ Hgr) as [Hvs Hg].
  assert (for_each (add_group exprs) groups (ResultSet_new (projected_columns exprs aliases)) = Ok rs) as Hrs'.
  { destruct groups as [|? ?]; [|done]. destruct (group_exprs exprs); [|done].
    destruct Hsome as [Hr|Hr]; [|done]. destruct Hr.
    pose proof (grouped_perm _ _ _ Hg) as Hp. by apply Permutation_nil in Hp. }
  destruct (add_groups _ _ _ _ Hrs') as (rows & -> & Hrows). exists (snd <$> groups), rows.
  split_and!; [done..|by apply (grouped_perm _ _ _ Hg)| |].
  - apply Forall_fmap. by apply Hg.
  - intros i j g1 g2 r1 r2 Hi Hj Hr1 Hr2. rewrite !list_lookup_fmap in Hi, Hj.
    destruct (groups !! i) as [[k1 g1']|] eqn:Hgi; [|done]. destruct (groups !! j) as [[k2 g2']|] eqn:Hgj; [|done].
    injection Hi as ->. injection Hj as ->.
    destruct (grouped_elem _ _ _ _ _ Hg (list_elem_of_lookup_2 _ _ _ Hgi)) as [-> _].
    destruct (grouped_elem _ _ _ _ _ Hg (list_elem_of_lookup_2 _ _ _ Hgj)) as [-> _].
    apply list_elem_of_filter in Hr1 as [<- Hin1], Hr2 as [<- Hin2].
    destruct (Hvs r1 Hin1) as [vs1 Hvs1], (Hvs r2 Hin2) as [vs2 Hvs2].
    rewrite <- (record_key_same _ _ _ _ _ Hvs1 Hvs2). split.
    + intros <-. rewrite Hgi in Hgj. by injection Hgj.
    + intros Hk. destruct Hg as (Hs & _ & _). apply sorted_keys_NoDup in Hs.
      eapply NoDup_lookup; [exact Hs|by rewrite list_lookup_fmap, Hgi|by rewrite list_lookup_fmap, Hgj, Hk].
Qed.
End aggregation.

(** ** Samples *)
#[local] Existing Instances dev_build dev_unicode plain_debug plain_laws.
(** [RETURN p.name, COUNT( * ), COUNT( * ) + 1]: the nested aggregate is 1 + 1 for every group. *)
Definition count_names : list Expression :=
  [EPropertyAccess (EIdentifier "p") "name"; EAggregate AggCount false None;
   EBinaryOp (EAggregate AggCount false None) OpAdd (ELiteral (LInteger 1))].
Definition named_counts : ResultSet :=
  of_rows ["p.name"; "col_1"; "col_2"]%string [[Str "Ann"; Integer 2; Integer 2]; [Str "Bob"; Integer 1; Integer 2]].
Lemma aggregation_partitions_witness :
  exec_project_with_aggregation persons count_names [] = Ok named_counts ∧
  ∃ groups rows, named_counts = of_rows (projected_columns count_names []) rows ∧
    Forall2 (λ g row, collect (group_value g) count_names = Ok row) groups rows ∧
    concat groups ≡ₚ rs_records persons.
Proof.
  assert (exec_project_with_aggregation persons count_names [] = Ok named_counts) as Hrun by (vm_compute; reflexivity).
  split; [exact Hrun|].
  destruct (aggregation_partitions persons count_names [] named_counts Hrun) as (groups & rows & Hrs & Hrows & Hperm & _);
    [left; discriminate|].
  exists groups, rows. auto.
Defined.
