(* ===== verification/Sorting.v ===== *)
(** * Sorting (exec_sort and cmp_values of synaptica-exec: engine.rs)

    [cmp_values] is a total preorder on values of one kind and NULL, and then ORDER BY gives the
    stable sort of its input; on values of different kinds it is not transitive. *)
From S2P Require Import Prelude Types Lexer F64 Text Records Ast Expression Debug Relational.
From Stdlib Require Import Sorting.Sorted.

(** ** Total preorders given by a comparison *)
Record preorder {A} (P : A → Prop) (cmp : A → A → comparison) : Prop := {
  preorder_anti a b : P a → P b → cmp b a = CompOpp (cmp a b);
  preorder_trans a b c : P a → P b → P c → cmp a b ≠ Gt → cmp b c ≠ Gt → cmp a c ≠ Gt
}.
Section preorder.
Context {A : Type} {P : A → Prop} {cmp : A → A → comparison} (Hcmp : preorder P cmp).
Lemma preorder_refl a : P a → cmp a a = Eq.
Proof. intros Ha. pose proof (preorder_anti _ _ Hcmp a a Ha Ha) as Haa. revert Haa. by destruct (cmp a a). Qed.
Lemma preorder_Eq_l a b c : P a → P b → P c → cmp a b = Eq → cmp a c = cmp b c.
Proof.
  intros Ha Hb Hc Hab. pose proof (preorder_anti _ _ Hcmp a b Ha Hb) as Hba. rewrite Hab in Hba. cbn in Hba.
  pose proof (preorder_anti _ _ Hcmp a c Ha Hc) as Hac. pose proof (preorder_anti _ _ Hcmp b c Hb Hc) as Hbc.
  pose proof (preorder_trans _ _ Hcmp a b c Ha Hb Hc) as Ht1. pose proof (preorder_trans _ _ Hcmp b a c Hb Ha Hc) as Ht2.
  pose proof (preorder_trans _ _ Hcmp c a b Hc Ha Hb) as Ht3. pose proof (preorder_trans _ _ Hcmp c b a Hc Hb Ha) as Ht4.
  revert Ht1 Ht2 Ht3 Ht4. rewrite Hab, Hba, Hac, Hbc.
  destruct (cmp a c), (cmp b c); cbn; naive_solver.
Qed.
Lemma preorder_Lt_trans a b c : P a → P b → P c → cmp a b = Lt → cmp b c ≠ Gt → cmp a c = Lt.
Proof.
  intros Ha Hb Hc Hab Hbc.
  pose proof (preorder_trans _ _ Hcmp a b c Ha Hb Hc) as Hac. rewrite Hab in Hac.
  destruct (cmp a c) eqn:He; [exfalso|done|by destruct Hac].
  pose proof (preorder_Eq_l a c b Ha Hc Hb He) as Hcb. pose proof (preorder_anti _ _ Hcmp c b Hc Hb) as Hbc'.
  rewrite <- Hcb, Hab in Hbc'. by rewrite Hbc' in Hbc.
Qed.
End preorder.

(** ** Values of one kind *)
Inductive sort_class := OfIntegers | OfFloats | OfStrings | OfBooleans.
Definition in_class (c : sort_class) (v : Value) : Prop :=
  match v with
  | Null => True
  | Integer _ => c = OfIntegers
  | Float f => c = OfFloats ∧ f64_is_nan f = false
  | Str _ => c = OfStrings
  | Bool _ => c = OfBooleans
  | _ => False
  end.
Definition cmp_str (x y : string) : comparison := if String.eqb x y then Eq else if str_ltb x y then Lt else Gt.
Lemma str_lt_total x y : x ≠ y → str_ltb x y = negb (str_ltb y x).
Proof.
  intros Hne. unfold str_ltb. destruct (bytes_lt_total (str_bytes x) (str_bytes y)) as [Hlt|[Heq|Hlt]].
  - rewrite Hlt. destruct (bytes_ltb (str_bytes y) (str_bytes x)) eqn:Hyx; [|done]. by destruct (bytes_lt_asymm _ _ Hlt).
  - by apply str_bytes_inj in Heq.
  - rewrite Hlt. destruct (bytes_ltb (str_bytes x) (str_bytes y)) eqn:Hxy; [|done]. by destruct (bytes_lt_asymm _ _ Hlt).
Qed.
Lemma cmp_str_le x y : cmp_str x y ≠ Gt ↔ bytes_le (str_bytes x) (str_bytes y).
Proof.
  unfold cmp_str, bytes_le. destruct (String.eqb_spec x y) as [->|Hne].
  - split; [intros _; apply bytes_le_refl|done].
  - rewrite (str_lt_total x y Hne). unfold str_ltb. by destruct (bytes_ltb (str_bytes y) (str_bytes x)).
Qed.
Lemma preorder_str : preorder (λ _, True) cmp_str.
Proof.
  split.
  - intros x y _ _. unfold cmp_str. rewrite (String.eqb_sym y x). destruct (String.eqb_spec x y) as [->|Hne]; [done|].
    rewrite (str_lt_total x y Hne). by destruct (str_ltb y x).
  - intros x y z _ _ _. rewrite !cmp_str_le. apply bytes_le_trans.
Qed.
Lemma preorder_Z {A} (f : A → Z) : preorder (λ _, True) (λ a b, f a ?= f b).
Proof.
  split; [intros a b _ _; apply Z.compare_antisym|]. intros a b c _ _ _. rewrite !Z.compare_ngt_iff. lia.
Qed.
(** NULL goes before the values of a preorder. *)
Lemma cmp_values_preorder c : preorder (in_class c) cmp_values.
Proof.
  pose proof (preorder_Z f64_order) as Hf. pose proof (preorder_Z (λ z : Z, z)) as Hz. pose proof preorder_str as Hs.
  assert (∀ x y, f64_is_nan x = false → f64_is_nan y = false → f64_compare x y = Some (f64_order x ?= f64_order y)) as Hcmp.
  { intros x y Hx Hy. unfold f64_compare. by rewrite Hx, Hy. }
  split.
  - intros a b Ha Hb. destruct a as [|x|x|x|x| | | | | | | | |], b as [|y|y|y|y| | | | | | | | |]; try done;
      cbn in *; destruct_and?; subst; try done.
    + by destruct x, y.
    + apply (preorder_anti _ _ Hz); done.
    + rewrite !Hcmp by done. cbn. apply (preorder_anti _ _ Hf); done.
    + apply (preorder_anti _ _ Hs); done.
  - intros a b d Ha Hb Hd.
    destruct a as [|x|x|x|x| | | | | | | | |], b as [|y|y|y|y| | | | | | | | |], d as [|z|z|z|z| | | | | | | | |];
      try done; cbn in *; destruct_and?; subst; try done.
    + by destruct x, y, z.
    + apply (preorder_trans _ _ Hz x y z); done.
    + rewrite !Hcmp by done. cbn. apply (preorder_trans _ _ Hf); done.
    + apply (preorder_trans _ _ Hs); done.
Qed.

(** Keys are compared one column after the other. *)
Definition directed (d : SortDirection) (c : comparison) : comparison := match d with Asc => c | Desc => CompOpp c end.
Fixpoint cmp_keys (dirs : list SortDirection) (vs ws : list Value) : comparison :=
  match dirs, vs, ws with
  | d :: dirs', v :: vs', w :: ws' =>
      match cmp_values v w with Eq => cmp_keys dirs' vs' ws' | c => directed d c end
  | _, _, _ => Eq
  end.
Lemma cmp_keys_preorder classes dirs : preorder (Forall2 in_class classes) (cmp_keys dirs).
Proof.
  revert dirs. induction classes as [|k classes IH]; intros dirs.
  { split; [intros a b Ha Hb|intros a b c Ha Hb Hc]; inversion Ha; inversion Hb; subst; by destruct dirs. }
  pose proof (cmp_values_preorder k) as Hk.
  destruct dirs as [|d dirs]; [by split|]. specialize (IH dirs). split.
  - intros [|v vs] [|w ws] Ha Hb; try (by apply Forall2_length in Ha); try (by apply Forall2_length in Hb).
    apply Forall2_cons in Ha as [Hv Ha], Hb as [Hw Hb]. cbn. rewrite (preorder_anti _ _ Hk v w Hv Hw).
    destruct (cmp_values v w); cbn; [by apply (preorder_anti _ _ IH)|by destruct d..].
  - intros [|u us] [|v vs] [|w ws] Ha Hb Hc; try (by apply Forall2_length in Ha); try (by apply Forall2_length in Hb);
      try (by apply Forall2_length in Hc).
    apply Forall2_cons in Ha as [Hu Ha], Hb as [Hv Hb], Hc as [Hw Hc]. cbn.
    pose proof (preorder_Eq_l Hk u v w Hu Hv Hw) as Heq1.
    pose proof (preorder_anti _ _ Hk v w Hv Hw) as Hwv. pose proof (preorder_anti _ _ Hk u v Hu Hv) as Hvu.
    pose proof (preorder_anti _ _ Hk u w Hu Hw) as Hwu.
    pose proof (preorder_Eq_l Hk v w u Hv Hw Hu) as Heq2.
    pose proof (preorder_trans _ _ IH us vs ws Ha Hb Hc) as Hrest.
    pose proof (preorder_Lt_trans Hk u v w Hu Hv Hw) as Hlt.
    pose proof (preorder_Lt_trans Hk w v u Hw Hv Hu) as Hgt.
    rewrite Hwu, Hvu in Heq2. rewrite Hwu, Hvu, Hwv in Hgt. revert Heq1 Heq2 Hlt Hgt. clear Hwv Hvu Hwu.
    destruct (cmp_values u v), (cmp_values v w), (cmp_values u w), d; cbn; naive_solver.
Qed.

(** ** Insertion sort *)
Section insertion.
Context {A : Type} (cmp : A → A → comparison).
Fixpoint insert_rev (x : A) (sorted_rev : list A) : list A :=
  match sorted_rev with
  | [] => [x]
  | y :: rest => match cmp x y with Lt => y :: insert_rev x rest | _ => x :: y :: rest end
  end.
Definition insertion_sort (l : list A) : list A := rev (foldl (λ acc x, insert_rev x acc) [] l).
Lemma insert_rev_perm x l : insert_rev x l ≡ₚ x :: l.
Proof.
  induction l as [|y l IH]; [done|]. cbn. destruct (cmp x y); [done| |done]. rewrite IH. apply Permutation_swap.
Qed.
Lemma foldl_insert_perm l acc : foldl (λ acc x, insert_rev x acc) acc l ≡ₚ l ++ acc.
Proof.
  revert acc. induction l as [|x l IH]; intros acc; [done|]. cbn. rewrite IH, insert_rev_perm. by rewrite Permutation_middle.
Qed.
Lemma insertion_sort_perm l : insertion_sort l ≡ₚ l.
Proof. unfold insertion_sort. rewrite <- Permutation_rev, foldl_insert_perm. by rewrite app_nil_r. Qed.

Context {P : A → Prop} (Hcmp : preorder P cmp).
Lemma insert_rev_Forall x l : P x → Forall P l → Forall P (insert_rev x l).
Proof. intros Hx Hl. by rewrite insert_rev_perm, Forall_cons. Qed.
Lemma insert_rev_sorted x l : P x → Forall P l → StronglySorted (λ a b, cmp b a ≠ Gt) l →
  StronglySorted (λ a b, cmp b a ≠ Gt) (insert_rev x l).
Proof.
  intros Hx Hl Hs. induction Hs as [|y l Hs IH Hy]; [repeat constructor|].
  apply Forall_cons in Hl as [HPy Hl]. cbn.
  pose proof (preorder_anti _ _ Hcmp x y Hx HPy) as Hyx.
  assert (cmp x y = Lt ∨ cmp y x ≠ Gt) as [Hlt|Hge] by (rewrite Hyx; destruct (cmp x y); auto).
  - rewrite Hlt. constructor; [auto|]. rewrite insert_rev_perm. constructor; [by rewrite Hlt|done].
  - assert (StronglySorted (λ a b, cmp b a ≠ Gt) (x :: y :: l)) as Hxy.
    { constructor; [by constructor|]. constructor; [done|]. rewrite Forall_forall in *. intros z Hz.
      apply (preorder_trans _ _ Hcmp z y x); auto. }
    destruct (cmp x y); [done| |done]. by rewrite Hyx in Hge.
Qed.
Lemma rev_sorted {B} (R : B → B → Prop) (l : list B) : StronglySorted (λ a b, R b a) l → StronglySorted R (rev l).
Proof.
  induction 1 as [|x l _ IH Hx]; [constructor|]. cbn.
  assert (∀ k, StronglySorted R k → Forall (λ b, R b x) k → StronglySorted R (k ++ [x])) as Hsnoc.
  { induction 1 as [|y k _ IHk Hy]; intros Hk; [repeat constructor|]. apply Forall_cons in Hk as [Hyx Hk].
    constructor; [auto|]. apply Forall_app. by rewrite Forall_singleton. }
  apply Hsnoc; [done|]. rewrite <- Permutation_rev. done.
Qed.
Lemma insertion_sort_sorted l : Forall P l → StronglySorted (λ a b, cmp a b ≠ Gt) (insertion_sort l).
Proof.
  intros Hl. unfold insertion_sort. apply rev_sorted.
  assert (∀ acc, Forall P acc → StronglySorted (λ a b, cmp b a ≠ Gt) acc →
    StronglySorted (λ a b, cmp b a ≠ Gt) (foldl (λ acc x, insert_rev x acc) acc l)) as Hfold; [|apply Hfold; constructor].
  induction Hl as [|x l Hx _ IH]; [done|]. intros acc Ha Hs. cbn.
  apply IH; [by apply insert_rev_Forall|by apply insert_rev_sorted].
Qed.
(** Elements that compare equal keep their order. *)
Lemma insert_rev_filter e x l : P e → P x → Forall P l →
  filter (λ a, cmp e a = Eq) (insert_rev x l) = filter (λ a, cmp e a = Eq) (x :: l).
Proof.
  intros He Hx Hl. induction Hl as [|y l Hy _ IH]; [done|]. cbn. destruct (cmp x y) eqn:Hxy; [done| |done].
  rewrite filter_cons, IH, !filter_cons. destruct (decide (cmp e x = Eq)) as [Hex|]; [|done].
  assert (cmp e y ≠ Eq) as Hey by (rewrite (preorder_Eq_l Hcmp e x y), Hxy; done).
  by case_decide.
Qed.
Lemma insertion_sort_stable e l : P e → Forall P l →
  filter (λ a, cmp e a = Eq) (insertion_sort l) = filter (λ a, cmp e a = Eq) l.
Proof.
  intros He Hl. unfold insertion_sort.
  assert (∀ k, filter (λ a, cmp e a = Eq) (rev k) = rev (filter (λ a, cmp e a = Eq) k)) as Hrev.
  { induction k as [|a k IH]; [done|]. cbn [rev]. rewrite filter_app, IH, !filter_cons, filter_nil.
    case_decide; [done|]. by rewrite app_nil_r. }
  assert (∀ acc, Forall P acc → filter (λ a, cmp e a = Eq) (foldl (λ acc x, insert_rev x acc) acc l) =
    rev (filter (λ a, cmp e a = Eq) l) ++ filter (λ a, cmp e a = Eq) acc) as Hfold.
  { induction Hl as [|x l Hx _ IH]; intros acc Ha; [done|]. cbn [foldl].
    rewrite IH by (by apply insert_rev_Forall). rewrite insert_rev_filter, !filter_cons by done.
    case_decide; [|done]. cbn. by rewrite <- app_assoc. }
  rewrite Hrev, Hfold by constructor. rewrite filter_nil, app_nil_r. apply rev_involutive.
Qed.
End insertion.

(** ** ORDER BY *)
Section sorting.
Context `{Platform, Unicode}.
Implicit Types order_by : list (Expression * SortDirection).

Definition sort_keys order_by (r : Record_) : exec (list Value) := collect (λ od, evaluate od.1 r) order_by.
Definition keys_of order_by (r : Record_) : list Value := match sort_keys order_by r with Ok vs => vs | Err _ => [] end.
(** The order of two records: their keys, column by column *)
Definition order_of order_by (a b : Record_) : comparison := cmp_keys (snd <$> order_by) (keys_of order_by a) (keys_of order_by b).
(** The keys evaluate, each to NULL or a value of its class. *)
Definition sortable order_by (classes : list sort_class) (r : Record_) : Prop :=
  ∃ vs, sort_keys order_by r = Ok vs ∧ Forall2 in_class classes vs.

Lemma compare_records_ok order_by a b va vb : sort_keys order_by a = Ok va → sort_keys order_by b = Ok vb →
  compare_records order_by a b None =
  Ok (match cmp_keys (snd <$> order_by) va vb with Lt => true | _ => false end, None).
Proof.
  unfold sort_keys. revert va vb. induction order_by as [|[e d] order_by IH]; intros va vb; cbn.
  - by intros [= <-] [= <-].
  - intros (v & Hv & (va' & Hva & [= <-])%bind_Ok)%bind_Ok (w & Hw & (vb' & Hvb & [= <-])%bind_Ok)%bind_Ok.
    rewrite Hv, Hw. destruct (cmp_values v w) eqn:Hc; rewrite ?Hc; [by apply IH|by destruct d..].
Qed.
Lemma insert_tail_ok order_by x l : (∀ r, r ∈ x :: l → ∃ vs, sort_keys order_by r = Ok vs) →
  insert_tail order_by x l None = Ok (insert_rev (order_of order_by) x l, None).
Proof.
  induction l as [|y l IH]; intros Hok; [done|]. cbn.
  destruct (Hok x) as [vx Hx]; [by left|]. destruct (Hok y) as [vy Hy]; [right; by left|].
  rewrite (compare_records_ok _ _ _ _ _ Hx Hy). cbn.
  assert (cmp_keys order_by.*2 vx vy = order_of order_by x y) as ->.
  { unfold order_of, keys_of. by rewrite Hx, Hy. }
  destruct (order_of order_by x y); [done| |done]. rewrite IH; [done|]. set_solver.
Qed.
Lemma sort_by_ok order_by l : (∀ r, r ∈ l → ∃ vs, sort_keys order_by r = Ok vs) →
  sort_by order_by l = Ok (insertion_sort (order_of order_by) l, None).
Proof.
  intros Hok. unfold sort_by, insertion_sort.
  assert (∀ acc, (∀ r, r ∈ acc → ∃ vs, sort_keys order_by r = Ok vs) →
    for_each (λ x acc, insert_tail order_by x acc.1 acc.2) l (acc, None) =
    Ok (foldl (λ acc x, insert_rev (order_of order_by) x acc) acc l, None)) as Hloop.
  { induction l as [|x l IH]; intros acc Hacc; [done|]. cbn. rewrite insert_tail_ok by set_solver.
    apply IH; [set_solver|]. intros r. rewrite insert_rev_perm. set_solver. }
  rewrite Hloop by (by intros r ?%elem_of_nil). done.
Qed.
Lemma order_of_preorder order_by classes : preorder (sortable order_by classes) (order_of order_by).
Proof.
  pose proof (cmp_keys_preorder classes (snd <$> order_by)) as Hk.
  assert (∀ r, sortable order_by classes r → Forall2 in_class classes (keys_of order_by r)) as Hin.
  { intros r (vs & Hvs & Hc). unfold keys_of. by rewrite Hvs. }
  split; unfold order_of.
  - intros a b Ha Hb. apply (preorder_anti _ _ Hk); auto.
  - intros a b c Ha Hb Hc. apply (preorder_trans _ _ Hk); auto.
Qed.

(** Rows of one column, sorted by it *)
Definition column_of (vs : list Value) : ResultSet := of_rows ["k"%string] ((λ v, [v]) <$> vs).

(** C18: ORDER BY is a stable sort wherever its comparison is an order: if each key expression
    evaluates on every record to NULL or a value of one kind (integers, floats that are not NaN,
    strings, or booleans), the result is a permutation of the records, sorted by the keys column
    by column with DESC reversed and NULL first under ASC, and records with equal keys keep their
    order. Between kinds the comparison says "equal", which is no order: 2, 'a', 1 is returned as
    it is, although 1 goes before 2. *)
Theorem sort_stable input order_by classes : Forall (sortable order_by classes) (rs_records input) →
  (∃ sorted, exec_sort input order_by = Ok (mkResultSet (rs_columns input) sorted (shared_columns input)) ∧
    sorted ≡ₚ rs_records input ∧
    StronglySorted (λ a b, order_of order_by a b ≠ Gt) sorted ∧
    ∀ r, sortable order_by classes r →
      filter (λ x, order_of order_by r x = Eq) sorted = filter (λ x, order_of order_by r x = Eq) (rs_records input)) ∧
  exec_sort (column_of [Integer 2; Str "a"; Integer 1]) [(EIdentifier "k", Asc)] =
    Ok (column_of [Integer 2; Str "a"; Integer 1]).
Proof.
  intros Hall. split; [|reflexivity]. pose proof (order_of_preorder order_by classes) as Hp.
  exists (insertion_sort (order_of order_by) (rs_records input)). split_and!.
  - unfold exec_sort. rewrite sort_by_ok; [done|]. rewrite Forall_forall in Hall. intros r Hr.
    destruct (Hall r Hr) as (vs & Hvs & _). eauto.
  - apply insertion_sort_perm.
  - by eapply insertion_sort_sorted.
  - intros r Hr. by eapply insertion_sort_stable.
Qed.
End sorting.

(** ** Samples *)
#[local] Existing Instances dev_build dev_unicode.
Definition by_name_desc : list (Expression * SortDirection) := [(EPropertyAccess (EIdentifier "p") "name", Desc)].
Lemma sort_stable_witness :
  ∃ sorted, exec_sort persons by_name_desc = Ok (mkResultSet (rs_columns persons) sorted (shared_columns persons)) ∧
    sorted ≡ₚ rs_records persons ∧ StronglySorted (λ a b, order_of by_name_desc a b ≠ Gt) sorted.
Proof.
  destruct (sort_stable persons by_name_desc [OfStrings]) as [(sorted & Hrun & Hperm & Hsorted & _) _].
  - repeat (apply Forall_cons; split; [by eexists; split; [reflexivity|repeat constructor]|]). constructor.
  - eauto.
Defined.
