(* ===== verification/Operators.v ===== *)
(** * What the relational operators keep (engine.rs; FilterPushdown of optimizer.rs)

    Every operator maps well-formed result sets, whose records have one value per column, to
    well-formed ones, and panics only where evaluating an expression does. The rewriting rule of
    the optimizer keeps the result of a plan under conditions that it does not check. *)
From S2P Require Import Prelude Types Lexer F64 Text Records Ast Expression Debug Relational Sorting Planner.

Section operators.
Context `{Platform, Unicode, DebugLaws}.

Lemma collect_rows_length {A} (f : A → exec (list (list Value))) n l rows :
  (∀ a out, a ∈ l → f a = Ok out → Forall (λ row, length row = n) out) →
  collect f l = Ok rows → Forall (λ row, length row = n) (concat rows).
Proof.
  intros Hf Hc%collect_Forall2. apply Forall_concat. apply Forall_forall. intros out Hout.
  apply list_elem_of_lookup in Hout as [i Hi]. destruct (Forall2_lookup_r _ _ _ _ _ Hc Hi) as (a & Ha & Hfa).
  eapply Hf; [by eapply list_elem_of_lookup_2|done].
Qed.
Lemma project_rows_wf input exprs cols internal rows :
  length cols = length exprs → collect (project_rows input exprs internal) (rs_records input) = Ok rows →
  rs_wf (of_rows (cols ++ internal) (concat rows)).
Proof.
  intros Hl Hrows. apply of_rows_wf. rewrite length_app, Hl. eapply collect_rows_length; [|exact Hrows].
  intros r out _ (vs & Hvs & [= <-])%bind_Ok. rewrite Forall_singleton, length_app, length_fmap.
  by rewrite (collect_length _ _ _ Hvs).
Qed.
Lemma aggregation_wf input exprs aliases rs : exec_project_with_aggregation input exprs aliases = Ok rs →
  rs_wf rs ∧ rs_columns rs = projected_columns exprs aliases.
Proof.
  intros (groups & _ & Hrs)%bind_Ok.
  assert (∀ rs, for_each (add_group exprs) groups (ResultSet_new (projected_columns exprs aliases)) = Ok rs →
    rs_wf rs ∧ rs_columns rs = projected_columns exprs aliases) as Hgroups.
  { intros rs' Hrs'. rewrite of_rows_new in Hrs'.
    rewrite (for_each_rows _ (λ g, vs ← collect (group_value g.2) exprs; Ok [vs])) in Hrs'.
    - apply bind_Ok in Hrs' as (rows & Hrows & [= <-]). split; [|done]. apply of_rows_wf.
      eapply collect_rows_length; [|exact Hrows]. intros g out _ (vs & Hvs & [= <-])%bind_Ok.
      by rewrite Forall_singleton, (collect_length _ _ _ Hvs), projected_columns_length.
    - intros g acc _. unfold add_group. destruct (collect _ exprs); [|done]. cbn. by rewrite add_record_rows. }
  destruct groups; [|by apply Hgroups]. destruct (group_exprs exprs); [|by apply Hgroups].
  injection Hrs as <-. rewrite of_rows_new, add_record_rows. split; [|done]. apply of_rows_wf.
  cbn [app]. by rewrite Forall_singleton, length_fmap, projected_columns_length.
Qed.
Lemma filter_wf input p rs : rs_wf input → exec_filter input p = Ok rs → rs_wf rs ∧ rs_columns rs = rs_columns input.
Proof.
  intros Hwf. rewrite exec_filter_rows. intros (rows & Hrows & [= <-])%bind_Ok. split; [|done]. apply of_rows_wf.
  apply rs_wf_rows in Hwf as [Heq Hl]. eapply collect_rows_length; [|exact Hrows].
  intros r out Hr (v & _ & [= <-])%bind_Ok. case_match; [|constructor]. apply Forall_singleton.
  rewrite Forall_forall in Hl. apply Hl. unfold rows_of. by apply list_elem_of_fmap_2.
Qed.
Lemma project_wf input exprs aliases rs : exec_project input exprs aliases = Ok rs → rs_wf rs.
Proof.
  unfold exec_project. destruct (existsb contains_aggregate exprs); [by intros [? _]%aggregation_wf|].
  destruct (rs_records input) as [|r records] eqn:Hr, (rs_columns input) as [|c cols] eqn:Hc; cbv zeta.
  - intros (vs & Hvs & [= <-])%bind_Ok. rewrite of_rows_new, add_record_rows. apply of_rows_wf. cbn.
    rewrite Forall_singleton, app_nil_r, projected_columns_length. by apply collect_length in Hvs.
  - intros [= <-]. rewrite of_rows_new. by apply of_rows_wf.
  - rewrite <- Hr, project_for_each. intros (rows & Hrows & [= <-])%bind_Ok.
    eapply project_rows_wf; [apply projected_columns_length|exact Hrows].
  - rewrite <- Hr, project_for_each. intros (rows & Hrows & [= <-])%bind_Ok.
    eapply project_rows_wf; [apply projected_columns_length|exact Hrows].
Qed.
Lemma limit_wf input count offset rs : rs_wf input → exec_limit input count offset = Ok rs →
  rs_wf rs ∧ rs_columns rs = rs_columns input.
Proof.
  intros Hwf. rewrite exec_limit_rows. intros [= <-]. split; [|done]. apply of_rows_wf.
  apply rs_wf_rows in Hwf as [_ Hl]. cbv zeta. destruct count; [apply Forall_take|]; by apply Forall_drop.
Qed.
Lemma distinct_wf rs rs' : rs_wf rs → exec_distinct rs = Ok rs' → rs_wf rs' ∧ rs_columns rs' = rs_columns rs.
Proof.
  intros Hwf. unfold exec_distinct. rewrite of_rows_new, distinct_fold. intros [= <-]. split; [|done]. apply of_rows_wf.
  apply rs_wf_records in Hwf as Hrec. apply rs_wf_rows in Hwf as [_ Hl]. cbn. apply Forall_fmap.
  apply Forall_forall. intros r [_ Hr]%list_elem_of_filter.
  assert (∀ cols l, r ∈ first_rows cols l → r ∈ l) as Hsub.
  { induction l as [|r0 l IH]; [done|]. cbn. intros [->|[_ Hin]%list_elem_of_filter]%elem_of_cons; [by left|right; auto]. }
  apply Hsub in Hr. rewrite Forall_forall in Hl. apply Hl. unfold rows_of. by apply list_elem_of_fmap_2.
Qed.
Lemma insert_tail_perm order_by x l err l' err' : insert_tail order_by x l err = Ok (l', err') → l' ≡ₚ x :: l.
Proof.
  revert err l' err'. induction l as [|y l IH]; intros err l' err'; cbn; [by intros [= <- _]|].
  intros ([c e] & _ & Hc)%bind_Ok. destruct c; cbn in Hc; [|by injection Hc as <- _].
  apply bind_Ok in Hc as ([l'' e'] & Hi & [= <- <-]). cbn. rewrite (IH _ _ _ Hi). apply Permutation_swap.
Qed.
Lemma sort_by_perm order_by l l' err : sort_by order_by l = Ok (l', err) → l' ≡ₚ l.
Proof.
  unfold sort_by. intros ([k e] & Hk & [= <- _])%bind_Ok. cbn. rewrite <- Permutation_rev.
  assert (∀ acc e0, for_each (λ x acc, insert_tail order_by x acc.1 acc.2) l (acc, e0) = Ok (k, e) → k ≡ₚ l ++ acc) as Hloop.
  { clear Hk. induction l as [|x l IH]; intros acc e0; [by intros [= <- _]|]. cbn.
    destruct (insert_tail order_by x acc e0) as [[acc' e1]|] eqn:Hi; [|done]. intros Hk.
    rewrite (IH _ _ Hk), (insert_tail_perm _ _ _ _ _ _ Hi). by rewrite Permutation_middle. }
  rewrite (Hloop _ _ Hk). by rewrite app_nil_r.
Qed.
Lemma sort_wf input order_by rs : rs_wf input → exec_sort input order_by = Ok rs → rs_wf rs ∧ rs_columns rs = rs_columns input.
Proof.
  intros (rows & Heq & Hl). unfold exec_sort. intros ([l err] & Hs & Hr)%bind_Ok. cbn in Hr.
  destruct err; [done|]. injection Hr as <-. split; [|done]. apply sort_by_perm in Hs.
  rewrite Heq in Hs. cbn in Hs. apply Permutation_map_inv in Hs as (rows' & -> & Hp).
  exists rows'. split; [by rewrite Heq|]. cbn. by rewrite <- Hp.
Qed.

(** The columns of a join: those of the left side, and those of the right side that are not shared *)
Definition joined_columns (left right : ResultSet) : list string :=
  rs_columns left ++
  omap (λ ri, rs_columns right !! ri) (kept_columns (rs_columns right) (join_columns (rs_columns left) (rs_columns right))).
Definition has_shape (cols : list string) (rs : ResultSet) : Prop := rs_wf rs ∧ rs_columns rs = cols.
Lemma has_shape_new cols : has_shape cols (ResultSet_new cols).
Proof. split; [|done]. rewrite of_rows_new. by apply of_rows_wf. Qed.
Lemma add_record_shape cols row rs : has_shape cols rs → length row = length cols → has_shape cols (add_record row rs).
Proof.
  intros [[Heq Hl]%rs_wf_rows Hc] Hr. rewrite Hc in Heq, Hl. rewrite Heq, add_record_rows. split; [|done].
  apply of_rows_wf, Forall_app. by rewrite Forall_singleton.
Qed.
Lemma row_length rs r : rs_wf rs → r ∈ rs_records rs → length (values r) = length (rs_columns rs).
Proof.
  intros [_ Hl]%rs_wf_rows Hr. rewrite Forall_forall in Hl. apply Hl. unfold rows_of. by apply list_elem_of_fmap_2.
Qed.
Lemma cross_join_shape left right rs : rs_wf left → rs_wf right → exec_cross_join left right = Ok rs →
  has_shape (rs_columns left ++ rs_columns right) rs.
Proof.
  intros Hl Hr [= <-]. apply (foldl_inv (has_shape _)); [apply has_shape_new|]. intros l rs Hin Hrs.
  apply (foldl_inv (has_shape _)); [done|]. intros r rs' Hin' Hrs'. apply add_record_shape; [done|].
  rewrite !length_app. f_equal; by apply row_length.
Qed.
Lemma join_shape left right rs : rs_wf left → rs_wf right → exec_join left right = Ok rs → has_shape (joined_columns left right) rs.
Proof.
  intros Hl Hr. unfold exec_join, joined_columns. destruct (join_columns _ _) as [|p shared].
  - rewrite kept_all, omap_all. by apply cross_join_shape.
  - set (keep := kept_columns _ _). intros (table & _ & Hrs)%bind_Ok. revert Hrs. apply for_each_preserves; [apply has_shape_new|].
    intros l acc rs' Hin Hacc. unfold probe_row. intros (key & _ & Hrs)%bind_Ok. destruct (table.2 !! key) as [ids|]; [|by injection Hrs as <-].
    revert Hrs. apply for_each_preserves; [done|]. intros i acc' rs'' _ Hacc'. unfold join_row. intros (r & _ & Hrs)%bind_Ok.
    apply bind_Ok in Hrs as (kept & Hk%collect_length & [= <-]). apply add_record_shape; [done|].
    rewrite !length_app. f_equal; [by apply row_length|]. rewrite Hk. symmetry. apply kept_columns_names.
Qed.

(** C21: The operators on result sets keep them well-formed, whatever the expressions are: when filter,
    projection (with aggregates or without), limit, sort, distinct or join returns a result set, its
    records have one value for each of its columns; filter, limit, sort and distinct keep the columns
    of their input, and a join has those of its left side and the unshared ones of its right side. *)
Theorem operators_wf input : rs_wf input →
  (∀ p rs, exec_filter input p = Ok rs → has_shape (rs_columns input) rs) ∧
  (∀ exprs aliases rs, exec_project input exprs aliases = Ok rs → rs_wf rs) ∧
  (∀ count offset rs, exec_limit input count offset = Ok rs → has_shape (rs_columns input) rs) ∧
  (∀ order_by rs, exec_sort input order_by = Ok rs → has_shape (rs_columns input) rs) ∧
  (∀ rs, exec_distinct input = Ok rs → has_shape (rs_columns input) rs) ∧
  (∀ right rs, rs_wf right → exec_join input right = Ok rs → has_shape (joined_columns input right) rs).
Proof.
  intros Hwf. split_and!; intros.
  - by eapply filter_wf.
  - by eapply project_wf.
  - by eapply limit_wf.
  - by eapply sort_wf.
  - by eapply distinct_wf.
  - by apply join_shape.
Qed.
End operators.

(** ** Pushing a filter below a projection *)
Section pushdown.
Context `{Platform, Unicode, DebugFormat}.

Definition carried_columns (input : ResultSet) exprs aliases : list string :=
  internal_columns (rs_columns input) (projected_columns exprs aliases).
(** The record a projection makes of [r] when its expressions have the values [vs] *)
Definition projected_record (input : ResultSet) exprs aliases (r : Record_) (vs : list Value) : Record_ :=
  mkRecord (projected_columns exprs aliases ++ carried_columns input exprs aliases)
    (vs ++ (internal_value input r <$> carried_columns input exprs aliases)).
Definition expr_values exprs (r : Record_) : list Value :=
  match collect (λ e, evaluate e r) exprs with Ok vs => vs | Err _ => [] end.
Definition project_total (input : ResultSet) exprs aliases (r : Record_) : list Value :=
  values (projected_record input exprs aliases r (expr_values exprs r)).
Lemma exec_project_total input exprs aliases :
  existsb contains_aggregate exprs = false → rs_columns input ≠ [] →
  (∀ r, r ∈ rs_records input → ∃ vs, collect (λ e, evaluate e r) exprs = Ok vs) →
  exec_project input exprs aliases =
  Ok (of_rows (projected_columns exprs aliases ++ carried_columns input exprs aliases)
        (project_total input exprs aliases <$> rs_records input)).
Proof.
  intros Ha Hc Hall. rewrite exec_project_rows by done. cbv zeta.
  rewrite (collect_ok _ (λ r, [project_total input exprs aliases r])).
  - cbn [mbind result_bind]. do 2 f_equal. rewrite concat_fmap_bind. clear.
    induction (rs_records input) as [|r l IH]; [done|]. exact (f_equal (cons _) IH).
  - intros r Hr. destruct (Hall r Hr) as [vs Hvs]. unfold project_rows, project_total, expr_values. by rewrite Hvs.
Qed.
Lemma of_rows_records input : rs_wf input → mkRecord (rs_columns input) <$> rows_of input = rs_records input.
Proof. intros [Heq _]%rs_wf_rows. by rewrite Heq at 3. Qed.

(** Pushing a filter below a projection, which the optimizer rule does for every such pair, is
    sound when the projection has no aggregates, its expressions and the predicate evaluate on
    every record, and the columns the predicate reads have the same values in a record and in its
    projection: then both plans give the same rows in the same order. The rule does not check it:
    with an alias, [WITH n.age AS years WHERE years > 30], the rewritten plan raises an error. *)
Theorem pushdown_sound input exprs aliases p plan :
  FilterPushdown_apply (Filter (Project plan exprs aliases) p) = Some (Project (Filter plan p) exprs aliases) ∧
  (rs_wf input → existsb contains_aggregate exprs = false → rs_columns input ≠ [] →
   (∀ r, r ∈ rs_records input → ∃ vs v, collect (λ e, evaluate e r) exprs = Ok vs ∧ evaluate p r = Ok v ∧
      agree_on r (projected_record input exprs aliases r vs) p) →
   (rs ← exec_project input exprs aliases; exec_filter rs p) =
   (rs ← exec_filter input p; exec_project rs exprs aliases)) ∧
  (let ages := of_rows ["n.age"%string] [[Integer 41]] in
   let years := EPropertyAccess (EIdentifier "n") "age" in
   let p := EBinaryOp (EIdentifier "years") OpGt (ELiteral (LInteger 30)) in
   (rs ← exec_project ages [years] [Some "years"%string]; exec_filter rs p) = Ok (of_rows ["years"%string] [[Integer 41]]) ∧
   (rs ← exec_filter ages p; exec_project rs [years] [Some "years"%string]) =
     raise (ExpressionError "unknown identifier: years")).
Proof.
  split_and!; [done| |by split].
  intros Hwf Ha Hc Hall.
  assert (∀ r, r ∈ rs_records input → evaluate p (projected_record input exprs aliases r (expr_values exprs r)) = evaluate p r) as Hsame.
  { intros r Hr. destruct (Hall r Hr) as (vs & v & Hvs & _ & Hag). unfold expr_values. rewrite Hvs.
    symmetry. by apply same_evaluation. }
  set (cols := projected_columns exprs aliases ++ carried_columns input exprs aliases).
  assert (∀ r, r ∈ rs_records input → ∃ v, evaluate p r = Ok v) as Hp
    by (intros r Hr; destruct (Hall r Hr) as (vs & v & _ & Hv & _); eauto).
  assert (∀ r, r ∈ rs_records input → ∃ vs, collect (λ e, evaluate e r) exprs = Ok vs) as He
    by (intros r Hr; destruct (Hall r Hr) as (vs & v & Hvs & _); eauto).
  rewrite exec_project_total by done. fold cols. cbn [mbind result_bind].
  rewrite (proj2 (exec_filter_ok input p _) (conj Hp eq_refl)). cbn [mbind result_bind].
  set (input' := of_rows (rs_columns input) (values <$> filter (selects p) (rs_records input))).
  assert (rs_records input' = filter (selects p) (rs_records input)) as Hrec.
  { subst input'. cbn. rewrite <- list_fmap_compose. rewrite <- (list_fmap_id (filter _ _)) at 2.
    apply list_fmap_ext. intros i r Hr%list_elem_of_lookup_2. apply list_elem_of_filter in Hr as [_ Hr].
    destruct Hwf as (rows & Heq & _). rewrite Heq in Hr. cbn in Hr. by apply list_elem_of_fmap in Hr as (row & -> & _). }
  rewrite (exec_project_total input') by (try done; rewrite Hrec; intros r Hr; apply list_elem_of_filter in Hr as [_ Hr]; auto).
  change (carried_columns input' exprs aliases) with (carried_columns input exprs aliases). fold cols.
  change (project_total input' exprs aliases) with (project_total input exprs aliases). rewrite Hrec.
  apply exec_filter_ok. cbn [of_rows rs_records rs_columns]. rewrite <- list_fmap_compose.
  assert (∀ r, r ∈ rs_records input → evaluate p (mkRecord cols (project_total input exprs aliases r)) = evaluate p r) as Hsame'
    by (intros r Hr; apply (Hsame r Hr)).
  split.
  - intros r' Hr'. apply list_elem_of_fmap in Hr' as (r & -> & Hr).
    change (∃ v, evaluate p (mkRecord cols (project_total input exprs aliases r)) = Ok v). rewrite (Hsame' r Hr). auto.
  - f_equal. clear -Hsame'. induction (rs_records input) as [|r l IH]; [done|].
    rewrite fmap_cons, !filter_cons. cbn [compose].
    assert (selects p (mkRecord cols (project_total input exprs aliases r)) ↔ selects p r) as Hs
      by (unfold selects; by rewrite Hsame' by (by left)).
    specialize (IH (λ r Hr, Hsame' r (list_elem_of_further _ _ _ Hr))).
    destruct (decide (selects p r)) as [Hr|Hr].
    + rewrite decide_True by tauto. rewrite !fmap_cons. by rewrite IH.
    + rewrite decide_False by tauto. done.
Qed.
End pushdown.

(** ** Samples *)
#[local] Existing Instances dev_build dev_unicode plain_debug plain_laws.
Definition ann : Expression := EBinaryOp (EPropertyAccess (EIdentifier "p") "name") OpEq (ELiteral (LString "Ann")).
Lemma operators_wf_witness :
  let annas := of_rows (rs_columns persons) [[Str "1"; Str "Ann"; Integer 10]; [Str "3"; Str "Ann"; Integer 10]] in
  let joined := of_rows ["__node_id"; "p.name"; "p.city"; "c"]%string
    [[Str "1"; Str "Ann"; Integer 10; Str "Oslo"]; [Str "3"; Str "Ann"; Integer 10; Str "Oslo"]] in
  exec_filter persons ann = Ok annas ∧ exec_join persons cities = Ok joined ∧ rs_wf annas ∧ rs_wf joined.
Proof.
  intros annas joined. assert (exec_filter persons ann = Ok annas) as Hf by (vm_compute; reflexivity).
  assert (exec_join persons cities = Ok joined) as Hj by (vm_compute; reflexivity).
  destruct (operators_wf persons persons_wf) as (Hfilter & _ & _ & _ & _ & Hjoin).
  split; [exact Hf|]. split; [exact Hj|]. split; [exact (proj1 (Hfilter _ _ Hf))|exact (proj1 (Hjoin _ _ cities_wf Hj))].
Defined.
Lemma pushdown_sound_witness :
  let names := [EPropertyAccess (EIdentifier "p") "name"] in
  (rs ← exec_project persons names [None]; exec_filter rs ann) =
  (rs ← exec_filter persons ann; exec_project rs names [None]).
Proof.
  intros names. apply (proj1 (proj2 (pushdown_sound persons names [None] ann Empty))).
  - exact persons_wf.
  - reflexivity.
  - discriminate.
  - intros r Hr. cbn in Hr. rewrite !elem_of_cons, elem_of_nil in Hr.
    destruct Hr as [->|[->|[->|[]]]]; (eexists _, _; split; [reflexivity|]; split; [reflexivity|]);
      intros c Hc; cbn in Hc; rewrite !elem_of_cons, elem_of_nil in Hc;
      destruct Hc as [->|[->|[->|[]]]]; reflexivity.
Defined.
