(* ===== verification/Executor.v ===== *)
(** * Executing plans on the storage engine (synaptica-exec: engine.rs)

    The operators that read or write the graph, the choice of an index, and the entry points. A
    computation takes the state of the execution (the database, the mutation counts and the
    number of random draws so far) to the state after it and a result: an error keeps the writes
    made before it. Drawing a UUID and the iteration order of a [HashSet] depend on the number of
    draws; how UUIDs and storage errors print and parse are parameters. *)
From S2P Require Import Prelude Types Rocks Encoding Engine Index Lexer F64 Text Records Ast Expression Debug Relational Planner.

Record ExecStats := mkStats {
  nodes_created : Z;
  nodes_deleted : Z;
  edges_created : Z;
  edges_deleted : Z;
  properties_set : Z
}.
Definition zero_stats : ExecStats := mkStats 0 0 0 0 0.
Record ExecOptions := mkExecOptions {
  parameters : gmap string Value;
  graph_type : option string;
  transaction_id : option string
}.
Inductive ProgramError := PlanFailed (msg : string) | ExecutionFailed (msg : string).
Definition ProgramError_fmt (e : ProgramError) : string :=
  match e with PlanFailed msg => msg | ExecutionFailed msg => msg end.
Record ProgramOutput := mkOutput { output_result : ResultSet; output_stats : ExecStats }.

(** What the executor uses that is not its own code *)
Class Environment : Type := {
  fresh_uuid : nat → Uuid;
  (** the order in which a [HashSet] of these distinct strings is iterated *)
  hash_order : nat → list string → list string;
  Uuid_fmt : Uuid → string;
  Uuid_parse : string → result string Uuid;
  Uuid_new_v5 : bytes → bytes → Uuid;
  index_hash : string → Z;
  StorageError_fmt : StorageError → string
}.
Class EnvironmentLaws `{Environment} : Prop := {
  hash_order_perm n l : hash_order n l ≡ₚ l;
  Uuid_parse_fmt u : Uuid_parse (Uuid_fmt u) = Ok u
}.

(** ** Choosing an index *)
Fixpoint strip_prefix (prefix s : string) : option string :=
  match prefix, s with
  | EmptyString, _ => Some s
  | String a prefix', String b s' => if Ascii.eqb a b then strip_prefix prefix' s' else None
  | String _ _, EmptyString => None
  end.
Definition extract_property_name (expr : Expression) (variable : option string) : option string :=
  match expr with
  | EPropertyAccess (EIdentifier var) property =>
      match variable with
      | None => Some property
      | Some v => if String.eqb v var then Some property else None
      end
  | EIdentifier name => v ← variable; strip_prefix (v +:+ ".") name
  | _ => None
  end.
Definition is_literal_expr (expr : Expression) : bool := match expr with ELiteral _ => true | _ => false end.
Definition rebuild_eq_predicate (variable : option string) (prop : string) (val : Expression) : Expression :=
  EBinaryOp (match variable with Some v => EPropertyAccess (EIdentifier v) prop | None => EIdentifier prop end) OpEq val.
Fixpoint extract_eq_predicates (expr : Expression) (variable : option string)
    (out : list (string * Expression) * list Expression) : list (string * Expression) * list Expression :=
  match expr with
  | EBinaryOp l OpAnd r => extract_eq_predicates r variable (extract_eq_predicates l variable out)
  | EBinaryOp l OpEq r =>
      match extract_property_name l variable, is_literal_expr r with
      | Some prop, true => (out.1 ++ [(prop, r)], out.2)
      | _, _ =>
          match extract_property_name r variable, is_literal_expr l with
          | Some prop, true => (out.1 ++ [(prop, l)], out.2)
          | _, _ => (out.1, out.2 ++ [expr])
          end
      end
  | _ => (out.1, out.2 ++ [expr])
  end.
(** The first predicate on a property, with its position *)
Fixpoint find_predicate (prop : string) (eqs : list (string * Expression)) (i : nat) : option (nat * Expression) :=
  match eqs with
  | [] => None
  | (p, val) :: eqs' => if String.eqb p prop then Some (i, val) else find_predicate prop eqs' (S i)
  end.
Fixpoint cover_index (props : list string) (eqs : list (string * Expression)) : option (list (nat * Expression)) :=
  match props with
  | [] => Some []
  | prop :: props' => found ← find_predicate prop eqs 0; rest ← cover_index props' eqs; Some (found :: rest)
  end.
Definition and_all (parts : list Expression) : option Expression :=
  match parts with [] => None | a :: rest => Some (foldl (λ a b, EBinaryOp a OpAnd b) a rest) end.
Definition remaining_parts (variable : option string) (eqs : list (string * Expression)) (others : list Expression)
    (used : list nat) : list Expression :=
  omap id (imap (λ i '(prop, val), if existsb (Nat.eqb i) used then None else Some (rebuild_eq_predicate variable prop val)) eqs)
  ++ others.
Fixpoint choose_index (labels : list string) (variable : option string) (eqs : list (string * Expression))
    (others : list Expression) (indexes : list IndexDefinition) : option LogicalPlan :=
  match indexes with
  | [] => None
  | def :: indexes' =>
      match idx_entity_type def, cover_index (idx_property_names def) eqs with
      | IndexNode, Some ((_ :: _) as found) =>
          Some (IndexScan (idx_name def) labels variable (idx_property_names def) (snd <$> found)
                  (and_all (remaining_parts variable eqs others (fst <$> found))))
      | _, _ => choose_index labels variable eqs others indexes'
      end
  end.
Definition try_index_scan (labels : list string) (variable : option string) (predicate : Expression)
    (indexes : result StorageError (list IndexDefinition)) : option LogicalPlan :=
  match indexes with
  | Ok ((_ :: _) as defs) =>
      let '(eqs, others) := extract_eq_predicates predicate variable ([], []) in
      match eqs with [] => None | _ => choose_index labels variable eqs others defs end
  | _ => None
  end.

Section executor.
Context `{RocksDB db, Bincode Node, Bincode Edge, Bincode GraphMeta, Bincode Value, Bincode IndexDefinition}.
Context `{Platform, Unicode, DebugFormat, Environment}.

(** ** Computations *)
Record exec_state := mkState { storage : db; stats : ExecStats; draws : nat }.
Definition M (A : Type) : Type := exec_state → exec_state * exec A.
#[export] Instance M_ret : MRet M := λ A a s, (s, Ok a).
#[export] Instance M_bind : MBind M := λ A B f m s,
  match m s with (s', Ok a) => f a s' | (s', Err e) => (s', Err e) end.
Definition lift {A} (r : exec A) : M A := λ s, (s, r).
Definition fail {A} (e : ExecError) : M A := lift (raise e).
(** A read and a write of the storage, with the wrapping of its errors *)
Definition reads {A} (wrap : string → ExecError) (f : db → result StorageError A) : M A := λ s,
  (s, map_err (λ e, Raised (wrap (StorageError_fmt e))) (f (storage s))).
Definition writes (wrap : string → ExecError) (f : db → result StorageError db) : M unit := λ s,
  match f (storage s) with
  | Ok d => (mkState d (stats s) (draws s), Ok tt)
  | Err e => (s, raise (wrap (StorageError_fmt e)))
  end.
Definition writes_st (wrap : string → ExecError) (f : db → db * result StorageError unit) : M unit := λ s,
  let '(d, r) := f (storage s) in
  (mkState d (stats s) (draws s), map_err (λ e, Raised (wrap (StorageError_fmt e))) r).
(** [let Ok(x) = ... else] and [let _ = ...]: the error is dropped. *)
Definition reads_ok {A} (f : db → result StorageError A) : M (option A) := λ s,
  (s, Ok (match f (storage s) with Ok a => Some a | Err _ => None end)).
Definition try_write (f : db → result StorageError db) : M unit := λ s,
  match f (storage s) with Ok d => (mkState d (stats s) (draws s), Ok tt) | Err _ => (s, Ok tt) end.
Definition draw_uuid : M Uuid := λ s, (mkState (storage s) (stats s) (S (draws s)), Ok (fresh_uuid (draws s))).
Definition draw_order (keys : list string) : M (list string) := λ s,
  (mkState (storage s) (stats s) (S (draws s)), Ok (hash_order (draws s) keys)).
Fixpoint traverse {A B} (f : A → M B) (l : list A) : M (list B) :=
  match l with
  | [] => mret []
  | a :: l' => b ← f a; bs ← traverse f l'; mret (b :: bs)
  end.
Fixpoint fold {A S} (f : A → S → M S) (l : list A) (acc : S) : M S :=
  match l with [] => mret acc | a :: l' => acc' ← f a acc; fold f l' acc' end.

Definition add_stats (nc nd ec ed ps : Z) : M unit := λ s,
  let t := stats s in
  match (a ← i64_op (nodes_created t + nc); b ← i64_op (nodes_deleted t + nd); c ← i64_op (edges_created t + ec);
         d ← i64_op (edges_deleted t + ed); e ← i64_op (properties_set t + ps); Ok (mkStats a b c d e)) with
  | Ok t' => (mkState (storage s) t' (draws s), Ok tt)
  | Err e => (s, Err e)
  end.
Definition parse_id (what : string) (s : string) : exec Uuid :=
  map_err (λ e, Raised (Internal ("invalid " +:+ what +:+ ": " +:+ e))) (Uuid_parse s).

Variable graph_id : GraphId.

(** ** Index maintenance *)
Definition covers (def : IndexDefinition) (node : Node) : bool :=
  match idx_entity_type def with
  | IndexNode => existsb (λ p, btree_contains_key p (node_properties node)) (idx_property_names def)
  | IndexEdge => false
  end.
Definition for_indexes (node : Node) (f : db → IndexDefinition → Node → result StorageError db) : M unit :=
  indexes ← reads_ok (λ d, engine_list_indexes d graph_id);
  match indexes with
  | Some defs => fold (λ def _, if covers def node then try_write (λ d, f d def node) else mret tt) defs tt
  | None => mret tt
  end.
Definition index_node_on_write (node : Node) : M unit := for_indexes node (λ d, engine_index_node index_hash d).
Definition unindex_node_on_delete (node : Node) : M unit := for_indexes node (λ d, engine_unindex_node index_hash d).

(** ** Rows of nodes *)
Definition property_keys (entities : list Properties) : list string := remove_dups (entities ≫= λ p, fst <$> p).
Definition qualified (v : string) (keys : list string) : list string := (λ k, v +:+ "." +:+ k) <$> keys.
Definition property_values (keys : list string) (p : Properties) : list Value := (λ k, default Null (btree_get k p)) <$> keys.
Definition node_value (node : Node) : Value := NodeV (Uuid_fmt (node_id node)) (node_labels node) (node_properties node).
Definition scan_columns (keys : list string) (variable : option string) : list string :=
  ["__node_id"; "__labels"]%string ++ keys ++ match variable with Some v => v :: qualified v keys | None => [] end.
Definition scan_row (keys : list string) (variable : option string) (node : Node) : list Value :=
  [Str (Uuid_fmt (node_id node)); ListV (Str <$> node_labels node)] ++ property_values keys (node_properties node) ++
  match variable with Some _ => node_value node :: property_values keys (node_properties node) | None => [] end.
Definition node_rows (nodes : list Node) (variable : option string) : M ResultSet :=
  all_keys ← draw_order (property_keys (node_properties <$> nodes));
  mret (foldl (λ rs node, add_record (scan_row all_keys variable node) rs)
          (ResultSet_new (scan_columns all_keys variable)) nodes).

(** ** Scan *)
Definition has_all_labels (labels : list string) (node : Node) : bool := forallb (has_label node) labels.
Definition exec_scan (labels : list string) (variable : option string) : M ResultSet :=
  nodes ← match labels with
          | [] => reads StorageErr (λ d, scan_nodes d graph_id)
          | label :: more =>
              result ← reads StorageErr (λ d, scan_nodes_by_label d graph_id label);
              mret (match more with [] => result | _ => List.filter (has_all_labels labels) result end)
          end;
  node_rows nodes variable.

(** ** Expand *)
Definition expand_edges (node_id : NodeId) (direction : Direction) (label_filter : option Label) : M (list Edge) :=
  match direction with
  | Outgoing => reads StorageErr (λ d, get_outgoing_edges d graph_id node_id label_filter)
  | Incoming => reads StorageErr (λ d, get_incoming_edges d graph_id node_id label_filter)
  | Undirected =>
      edges ← reads StorageErr (λ d, get_outgoing_edges d graph_id node_id label_filter);
      incoming ← reads StorageErr (λ d, get_incoming_edges d graph_id node_id label_filter);
      mret (edges ++ List.filter (λ e, negb (bool_decide (edge_id e ∈ edge_id <$> edges))) incoming)
  end.
Definition expand_target (node_id : NodeId) (direction : Direction) (edge : Edge) : NodeId :=
  match direction with
  | Incoming => edge_source edge
  | Outgoing => edge_target edge
  | Undirected => if decide (edge_source edge = node_id) then edge_target edge else edge_source edge
  end.
Definition expand_edge (node_id : NodeId) (direction : Direction) (target_labels : list string) (edge : Edge)
    : M (option (Edge * Node)) :=
  target ← reads_ok (λ d, get_node d graph_id (expand_target node_id direction edge));
  mret (match target with
        | None => None
        | Some t =>
            match target_labels with
            | [] => Some (edge, t)
            | _ => if existsb (has_label t) target_labels then Some (edge, t) else None
            end
        end).
Definition expand_record (edge_label : string) (direction : Direction) (target_labels : list string) (record : Record_)
    : M (list (list Value * Edge * Node)) :=
  id_value ← lift (Record_get record "__node_id");
  node_id_str ← lift (ok_or (Raised (Internal "missing __node_id in expand input")) (id_value ≫= as_str));
  node_id ← lift (parse_id "node id" node_id_str);
  edges ← expand_edges node_id direction (if String.eqb edge_label EmptyString then None else Some edge_label);
  found ← traverse (expand_edge node_id direction target_labels) edges;
  mret ((λ et, (values record, et.1, et.2)) <$> omap id found).
Definition edge_value (edge : Edge) : Value :=
  EdgeV (Uuid_fmt (edge_id edge)) (edge_label edge) (Uuid_fmt (edge_source edge)) (Uuid_fmt (edge_target edge))
    (edge_properties edge).
(** [values[idx] = ...] of a position that may be past the end panics. *)
Definition set_value (idx : option nat) (v : Value) (vs : list Value) : exec (list Value) :=
  match idx with
  | None => Ok vs
  | Some i => if decide (i < length vs)%nat then Ok (<[i := v]> vs) else panic
  end.
Definition expand_row (edge_variable target_variable : option string) (edge_keys target_keys : list string)
    (node_id_col : option nat) (row : list Value * Edge * Node) : exec (list Value) :=
  let '(source_values, edge, target) := row in
  let values := source_values ++
    match edge_variable with Some _ => edge_value edge :: property_values edge_keys (edge_properties edge) | None => [] end in
  match target_variable with
  | Some _ => set_value node_id_col (Str (Uuid_fmt (node_id target)))
                (values ++ node_value target :: property_values target_keys (node_properties target))
  | None => Ok values
  end.
Definition expand_columns (edge_variable target_variable : option string) (edge_keys target_keys columns : list string)
    : list string :=
  columns ++ match edge_variable with Some ev => ev :: qualified ev edge_keys | None => [] end
    ++ match target_variable with Some tv => tv :: qualified tv target_keys | None => [] end.
Definition exec_expand (input : ResultSet) (edge_label : string) (direction : Direction) (target_labels : list string)
    (edge_variable target_variable : option string) : M ResultSet :=
  found ← traverse (expand_record edge_label direction target_labels) (rs_records input);
  let expanded := concat found in
  target_keys ← draw_order (property_keys ((λ row, node_properties row.2) <$> expanded));
  edge_keys ← draw_order (property_keys ((λ row, edge_properties row.1.2) <$> expanded));
  let rs := ResultSet_new (expand_columns edge_variable target_variable edge_keys target_keys (rs_columns input)) in
  let node_id_col := position "__node_id" (rs_columns rs) in
  lift (for_each (λ row rs, vs ← expand_row edge_variable target_variable edge_keys target_keys node_id_col row;
                            Ok (add_record vs rs)) expanded rs).

(** ** Creation *)
Definition dummy : Record_ := mkRecord [] [].
Definition evaluate_properties {A} (set_property : A → string → Value → A) (properties : list (string * Expression)) (a : A)
    : exec A :=
  for_each (λ '(key, expr) a, val ← evaluate expr dummy; Ok (set_property a key val)) properties a.
Definition exec_create_node (labels : list string) (properties : list (string * Expression)) : M ResultSet :=
  id ← draw_uuid;
  node ← lift (evaluate_properties node_set_property properties (foldl add_label (Node_new id graph_id) labels));
  _ ← writes StorageErr (λ d, put_node d node);
  _ ← add_stats 1 0 0 0 0;
  _ ← index_node_on_write node;
  mret (add_record [Str (Uuid_fmt (node_id node))] (ResultSet_new ["__node_id"%string])).

(** The node a variable stands for: the value itself, or one of the columns of identifiers *)
Fixpoint first_id (record : Record_) (columns : list (string * (Value → option string))) : exec (option string) :=
  match columns with
  | [] => Ok None
  | (c, read) :: columns' =>
      o ← Record_get record c;
      match o ≫= read with Some s => Ok (Some s) | None => first_id record columns' end
  end.
Definition source_columns (v : string) : list (string * (Value → option string)) :=
  [(v, as_node_id); (v +:+ ".__node_id", as_str); ("__node_id"%string, as_str)].
Definition target_columns (v : string) : list (string * (Value → option string)) :=
  [(v, as_node_id); (v +:+ ".__node_id", as_str)].
Definition resolve_endpoint (which v : string) (columns : list (string * (Value → option string))) (record : Record_)
    : exec string :=
  o ← first_id record columns;
  ok_or (Raised (Internal ("cannot resolve " +:+ which +:+ " node from variable '" +:+ v +:+ "'"))) o.
Definition create_edge_record (source_var target_var label : string) (properties : list (string * Expression))
    (record : Record_) (rs : ResultSet) : M ResultSet :=
  source_id_str ← lift (resolve_endpoint "source" source_var (source_columns source_var) record);
  target_id_str ← lift (resolve_endpoint "target" target_var (target_columns target_var) record);
  source_uuid ← lift (parse_id "source UUID" source_id_str);
  target_uuid ← lift (parse_id "target UUID" target_id_str);
  id ← draw_uuid;
  edge ← lift (evaluate_properties edge_set_property properties (Edge_new id graph_id source_uuid target_uuid label));
  _ ← writes StorageErr (λ d, put_edge d edge);
  _ ← add_stats 0 0 1 0 0;
  mret (add_record [Str (Uuid_fmt (edge_id edge))] rs).
Definition exec_create_edge_from_match (input : ResultSet) (source_var target_var label : string)
    (properties : list (string * Expression)) : M ResultSet :=
  fold (create_edge_record source_var target_var label properties) (rs_records input) (ResultSet_new ["__edge_id"%string]).

(** ** Deletion *)
Definition checked_values (targets : list string) (record : Record_) : exec (list Value) :=
  match targets with
  | [] => Ok (values record)
  | _ => (λ vs : list (option Value), omap id vs) <$> collect (Record_get record) targets
  end.
Record deletion := mkDeletion { seen : gset string; deleted : Z }.
Definition delete_edge_value (v : Value) (acc : deletion) : M deletion :=
  match v with
  | EdgeV id _ _ _ _ =>
      if decide (id ∈ seen acc) then mret acc
      else
        eid ← lift (parse_id "edge id" id);
        _ ← writes Internal (λ d, delete_edge d graph_id eid);
        _ ← add_stats 0 0 0 1 0;
        mret (mkDeletion ({[id]} ∪ seen acc) (deleted acc + 1))
  | _ => mret acc
  end.
Definition count_incident_edges (node_id : NodeId) : M Z :=
  outgoing ← reads StorageErr (λ d, get_outgoing_edges d graph_id node_id None);
  incoming ← reads StorageErr (λ d, get_incoming_edges d graph_id node_id None);
  mret (as_i64 (Z.of_nat (length (remove_dups (edge_id <$> outgoing ++ incoming))))).
Definition delete_node_value (v : Value) (acc : deletion) : M deletion :=
  match v with
  | NodeV id _ _ =>
      if decide (id ∈ seen acc) then mret acc
      else
        nid ← lift (parse_id "node id" id);
        found ← reads_ok (λ d, get_node d graph_id nid);
        _ ← match found with Some node => unindex_node_on_delete node | None => mret tt end;
        incident ← count_incident_edges nid;
        _ ← writes_st Internal (λ d, delete_node d graph_id nid);
        _ ← add_stats 0 1 0 incident 0;
        mret (mkDeletion ({[id]} ∪ seen acc) (deleted acc + 1))
  | _ => mret acc
  end.
Definition delete_pass (delete_value : Value → deletion → M deletion) (targets : list string) (record : Record_)
    (acc : deletion) : M deletion :=
  values_to_check ← lift (checked_values targets record);
  fold delete_value values_to_check acc.
(** Edges first, then nodes; DETACH is accepted and not consulted. *)
Definition exec_delete_nodes (rs : ResultSet) (targets : list string) (detach : bool) : M ResultSet :=
  edges ← fold (delete_pass delete_edge_value targets) (rs_records rs) (mkDeletion ∅ 0);
  nodes ← fold (delete_pass delete_node_value targets) (rs_records rs) (mkDeletion ∅ (deleted edges));
  mret (add_record [Integer (as_i64 (deleted nodes))] (ResultSet_new ["deleted"%string])).

(** ** Updates *)
Definition set_entity (property : string) (val entity : Value) (modified : Z) : M Z :=
  match entity with
  | NodeV id _ _ =>
      nid ← lift (parse_id "node id" id);
      node ← reads Internal (λ d, get_node d graph_id nid);
      _ ← unindex_node_on_delete node;
      let node := node_set_property node property val in
      _ ← writes Internal (λ d, put_node d node);
      _ ← index_node_on_write node;
      _ ← add_stats 0 0 0 0 1;
      mret (modified + 1)
  | EdgeV id _ _ _ _ =>
      eid ← lift (parse_id "edge id" id);
      edge ← reads Internal (λ d, get_edge d graph_id eid);
      _ ← writes Internal (λ d, put_edge d (edge_set_property edge property val));
      _ ← add_stats 0 0 0 0 1;
      mret (modified + 1)
  | _ => mret modified
  end.
Definition set_record (target : option string) (property : string) (value_expr : Expression) (record : Record_)
    (modified : Z) : M Z :=
  val ← lift (evaluate value_expr record);
  match target with
  | Some tgt =>
      o ← lift (Record_get record tgt);
      match o with Some entity => set_entity property val entity modified | None => mret modified end
  | None => fold (set_entity property val) (values record) modified
  end.
Definition exec_set_property (rs : ResultSet) (target : option string) (property : string) (value_expr : Expression)
    : M ResultSet :=
  modified ← fold (set_record target property value_expr) (rs_records rs) 0;
  mret (add_record [Integer (as_i64 modified)] (ResultSet_new ["modified"%string])).

(** ** Indexes *)
Definition load_nodes (labels : list string) (ids : list NodeId) : M (list Node) :=
  found ← traverse (λ nid, reads_ok (λ d, get_node d graph_id nid)) ids;
  mret (List.filter (has_all_labels labels) (omap id found)).
Definition exec_index_scan (index_name : string) (labels : list string) (variable : option string)
    (lookup_exprs : list Expression) (remaining_predicate : option Expression) : M ResultSet :=
  indexes ← reads StorageErr (λ d, engine_list_indexes d graph_id);
  def ← lift (ok_or (Raised (Internal ("index '" +:+ index_name +:+ "' not found")))
                (List.find (λ d, String.eqb (idx_name d) index_name) indexes));
  vs ← lift (collect (λ e, evaluate e dummy) lookup_exprs);
  node_ids ← reads StorageErr (λ d, engine_lookup_index index_hash d def vs);
  nodes ← load_nodes labels node_ids;
  rs ← node_rows nodes variable;
  match remaining_predicate with Some pred => lift (exec_filter rs pred) | None => mret rs end.
Definition message (text : string) : ResultSet := add_record [Str text] (ResultSet_new ["result"%string]).
Definition exec_create_index (name : string) (unique : bool) (entity_type : string) (label : option string)
    (property_names : list string) : M ResultSet :=
  let et := if String.eqb entity_type "edge" then IndexEdge else IndexNode in
  let def := mkIndexDefinition name graph_id et property_names unique in
  _ ← writes StorageErr (λ d, engine_create_index d def);
  _ ← match et with
      | IndexNode =>
          nodes ← reads StorageErr (λ d, match label with
                                         | Some lbl => scan_nodes_by_label d graph_id lbl
                                         | None => scan_nodes d graph_id
                                         end);
          fold (λ node _,
                  if existsb (λ p, btree_contains_key p (node_properties node)) property_names
                  then try_write (λ d, engine_index_node index_hash d def node) else mret tt) nodes tt
      | IndexEdge => mret tt
      end;
  mret (message ("Index '" +:+ name +:+ "' created (" +:+ pretty (length property_names) +:+ " properties)")).
Definition exec_drop_index (name : string) : M ResultSet :=
  _ ← writes StorageErr (λ d, engine_drop_index index_hash d graph_id name);
  mret (message ("Index '" +:+ name +:+ "' dropped")).

(** ** Graphs *)
Definition exec_create_graph (name : string) (if_not_exists : bool) : M ResultSet :=
  let gid := GraphId_from_name Uuid_new_v5 name in
  existing ← reads_ok (λ d, get_graph_meta d gid);
  match existing with
  | Some _ =>
      let text := "Graph '" +:+ name +:+ "' already exists" in
      if if_not_exists then mret (message text) else fail (StorageErr text)
  | None =>
      _ ← writes StorageErr (λ d, put_graph_meta d (mkGraphMeta gid name None));
      mret (message ("Graph '" +:+ name +:+ "' created"))
  end.
Definition exec_drop_graph (name : string) (if_exists : bool) : M ResultSet :=
  let gid := GraphId_from_name Uuid_new_v5 name in
  existing ← reads_ok (λ d, get_graph_meta d gid);
  match existing with
  | None =>
      if if_exists then mret (message ("Graph '" +:+ name +:+ "' does not exist"))
      else fail (StorageErr ("Graph '" +:+ name +:+ "' not found"))
  | Some _ =>
      _ ← writes_st StorageErr (λ d, delete_graph d gid);
      mret (message ("Graph '" +:+ name +:+ "' dropped"))
  end.
Definition exec_list_graphs : M ResultSet :=
  graphs ← reads StorageErr (λ d, list_graphs d);
  mret (foldl (λ rs meta, add_record [Str (meta_name meta); Str (Uuid_fmt (meta_id meta))] rs)
          (ResultSet_new ["name"; "id"]%string) graphs).

(** ** Procedures *)
Definition set_of (l : list string) : list string := foldl (λ s x, btree_set_insert x s) [] l.
(** The nodes of the graph, each with its outgoing edges *)
Definition nodes_with_edges : M (list (Node * list Edge)) :=
  nodes ← reads StorageErr (λ d, scan_nodes d graph_id);
  traverse (λ node, edges ← reads StorageErr (λ d, get_outgoing_edges d graph_id (node_id node) None);
                    mret (node, edges)) nodes.
Definition labels_of (l : list (Node * list Edge)) : list string := set_of (l ≫= λ ne, node_labels ne.1).
Definition edge_types_of (l : list (Node * list Edge)) : list string := set_of (l ≫= λ ne, edge_label <$> ne.2).
Definition keys_of (l : list (Node * list Edge)) : list string :=
  set_of (l ≫= λ ne, (fst <$> node_properties ne.1) ++ (ne.2 ≫= λ e, fst <$> edge_properties e)).
Definition column (name : string) (l : list string) : ResultSet :=
  foldl (λ rs s, add_record [Str s] rs) (ResultSet_new [name]) l.
Definition run_procedure (procedure : string) : M ResultSet :=
  if String.eqb procedure "db.labels" then
    nodes ← reads StorageErr (λ d, scan_nodes d graph_id);
    mret (column "label" (set_of (nodes ≫= node_labels)))
  else if String.eqb procedure "db.relationshipTypes" || String.eqb procedure "db.edgeTypes" then
    l ← nodes_with_edges; mret (column "relationshipType" (edge_types_of l))
  else if String.eqb procedure "db.propertyKeys" then
    l ← nodes_with_edges; mret (column "propertyKey" (keys_of l))
  else if String.eqb procedure "db.schema" then
    l ← nodes_with_edges;
    mret (add_record [ListV (Str <$> labels_of l); ListV (Str <$> edge_types_of l); ListV (Str <$> keys_of l)]
            (ResultSet_new ["labels"; "relationshipTypes"; "propertyKeys"]%string))
  else if String.eqb procedure "db.nodeCount" then
    nodes ← reads StorageErr (λ d, scan_nodes d graph_id);
    mret (add_record [Integer (as_i64 (Z.of_nat (length nodes)))] (ResultSet_new ["count"%string]))
  else if String.eqb procedure "db.edgeCount" then
    nodes ← reads StorageErr (λ d, scan_nodes d graph_id);
    count ← fold (λ node count,
                    edges ← reads StorageErr (λ d, get_outgoing_edges d graph_id (node_id node) None);
                    lift (i64_op (count + as_i64 (Z.of_nat (length edges))))) nodes 0;
    mret (add_record [Integer count] (ResultSet_new ["count"%string]))
  else fail (NotImplemented ("procedure: " +:+ procedure)).
Definition yield_record (col_indices : list (option nat)) (record : Record_) (rs : ResultSet) : exec ResultSet :=
  vs ← collect (λ idx, match idx with Some i => value_at record i | None => Ok Null end) col_indices;
  Ok (add_record vs rs).
Definition exec_call_procedure (procedure : string) (yield_items : option (list string)) : M ResultSet :=
  result ← run_procedure procedure;
  match yield_items with
  | None => mret result
  | Some items => lift (for_each (yield_record (column_index result <$> items)) (rs_records result) (ResultSet_new items))
  end.

(** ** Optimizing and running plans *)
Fixpoint optimize (d : db) (plan : LogicalPlan) : LogicalPlan :=
  match plan with
  | Filter input predicate =>
      let optimized_input := optimize d input in
      let filtered := Filter optimized_input predicate in
      match optimized_input with
      | Scan labels _ variable =>
          default filtered (try_index_scan labels variable predicate (engine_list_indexes d graph_id))
      | _ => filtered
      end
  | Project input expressions aliases => Project (optimize d input) expressions aliases
  | Sort input order_by => Sort (optimize d input) order_by
  | Limit input count offset => Limit (optimize d input) count offset
  | Distinct input => Distinct (optimize d input)
  | Expand input edge_label direction target_labels edge_variable target_variable =>
      Expand (optimize d input) edge_label direction target_labels edge_variable target_variable
  | DeleteNode input targets detach => DeleteNode (optimize d input) targets detach
  | SetProperty input target property value => SetProperty (optimize d input) target property value
  | Join l r => Join (optimize d l) (optimize d r)
  | other => other
  end.

Fixpoint execute_node (plan : LogicalPlan) : M ResultSet :=
  match plan with
  | Scan labels _ variable => exec_scan labels variable
  | Filter input predicate => rs ← execute_node input; lift (exec_filter rs predicate)
  | Project input expressions aliases => rs ← execute_node input; lift (exec_project rs expressions aliases)
  | Limit input count offset => rs ← execute_node input; lift (exec_limit rs count offset)
  | Sort input order_by => rs ← execute_node input; lift (exec_sort rs order_by)
  | CreateNode labels properties => exec_create_node labels properties
  | Join l r => left_rs ← execute_node l; right_rs ← execute_node r; lift (exec_join left_rs right_rs)
  | CreateEdgeFromMatch input source_var target_var label properties =>
      rs ← execute_node input; exec_create_edge_from_match rs source_var target_var label properties
  | Empty => mret (ResultSet_new [])
  | CallProcedure procedure _ yield_items => exec_call_procedure procedure yield_items
  | Expand input edge_label direction target_labels edge_variable target_variable =>
      rs ← execute_node input; exec_expand rs edge_label direction target_labels edge_variable target_variable
  | DeleteNode input targets detach => rs ← execute_node input; exec_delete_nodes rs targets detach
  | SetProperty input target property value => rs ← execute_node input; exec_set_property rs target property value
  | Distinct input => rs ← execute_node input; lift (exec_distinct rs)
  | IndexScan index_name labels variable _ lookup_exprs remaining_predicate =>
      exec_index_scan index_name labels variable lookup_exprs remaining_predicate
  | CreateIndex name unique entity_type label property_names => exec_create_index name unique entity_type label property_names
  | DropIndex name => exec_drop_index name
  | CreateGraph name if_not_exists => exec_create_graph name if_not_exists
  | DropGraph name if_exists => exec_drop_graph name if_exists
  | ListGraphs => exec_list_graphs
  | Aggregate _ _ _ => fail (NotImplemented (discriminant 5))
  | CreateEdge _ _ _ _ => fail (NotImplemented (discriminant 10))
  | Union _ _ _ => fail (NotImplemented (discriminant 13))
  end.
(** The statistics start at zero; the plan is optimized against the database as it is. *)
Definition execute_plan_with (plan : LogicalPlan) (options : ExecOptions) : M ResultSet := λ s,
  execute_node (optimize (storage s) plan) (mkState (storage s) zero_stats (draws s)).
Definition execute_plan (plan : LogicalPlan) : M ResultSet := execute_plan_with plan (mkExecOptions ∅ None None).
End executor.

(** ** Programs *)
Section programs.
Context `{RocksDB db, Bincode Node, Bincode Edge, Bincode GraphMeta, Bincode Value, Bincode IndexDefinition}.
Context `{Platform, Unicode, DebugFormat, Environment}.

(** A new engine for each program; the result is the database and the number of draws after it. *)
Definition execute_program (d : db) (n : nat) (graph_id : GraphId) (program : GqlProgram) (options : ExecOptions)
    : db * nat * may_panic ProgramError ProgramOutput :=
  match map_raised (λ e, PlanFailed (PlanError_fmt e)) (plan program) with
  | Err e => (d, n, Err e)
  | Ok p =>
      let '(s, r) := execute_plan_with graph_id p options (mkState d zero_stats n) in
      (storage s, draws s, (λ rs, mkOutput rs (stats s)) <$> map_raised (λ e, ExecutionFailed (ExecError_fmt e)) r)
  end.
End programs.
