(* ===== verification/Execution.v ===== *)
(** * What executing a plan does to the graph (properties of Executor.v)

    Plans without updates leave the database as it is. The updates implement those of the
    abstract graph of Engine.v: a database that represents a graph represents, after an update,
    the updated graph; index entries live in a column family of their own. *)
From S2P Require Import Prelude Types Rocks Encoding Engine Index Lexer F64 Text Records Ast Expression Debug Relational Planner Executor.
Import Encoding ColumnFamilies.

Section execution.
Context `{RocksDB db, Bincode Node, Bincode Edge, Bincode GraphMeta, Bincode Value, Bincode IndexDefinition}.
Context `{Platform, Unicode, DebugFormat, Environment}.
Abbreviation M := (Executor.M (db := db)).
Abbreviation state := (exec_state (db := db)).
Variable graph_id : GraphId.

Lemma run_bind {A B} (m : M A) (f : A → M B) s s' a : m s = (s', Ok a) → (m ≫= f) s = f a s'.
Proof. intros Hm. unfold mbind, M_bind. by rewrite Hm. Qed.
Lemma run_bind_err {A B} (m : M A) (f : A → M B) s s' e : m s = (s', Err e) → (m ≫= f) s = (s', Err e).
Proof. intros Hm. unfold mbind, M_bind. by rewrite Hm. Qed.
Lemma run_lift {A} (r : exec A) (s : state) a : r = Ok a → lift r s = (s, Ok a).
Proof. by intros ->. Qed.
Lemma run_reads {A} wrap (f : db → result StorageError A) (s : state) a : f (storage s) = Ok a → reads wrap f s = (s, Ok a).
Proof. intros Hf. unfold reads. by rewrite Hf. Qed.
Lemma run_reads_ok {A} (f : db → result StorageError A) (s : state) a : f (storage s) = Ok a → reads_ok f s = (s, Ok (Some a)).
Proof. intros Hf. unfold reads_ok. by rewrite Hf. Qed.
Lemma run_writes wrap f (s : state) d : f (storage s) = Ok d → writes wrap f s = (mkState d (stats s) (draws s), Ok tt).
Proof. intros Hf. unfold writes. by rewrite Hf. Qed.
Lemma run_writes_st wrap f (s : state) d : f (storage s) = (d, Ok tt) → writes_st wrap f s = (mkState d (stats s) (draws s), Ok tt).
Proof. intros Hf. unfold writes_st. by rewrite Hf. Qed.

(** ** Computations that only read *)
Definition keeps {A} (m : M A) : Prop := ∀ s, storage (m s).1 = storage s ∧ stats (m s).1 = stats s.
Lemma keeps_ret {A} (a : A) : keeps (mret a).
Proof. done. Qed.
Lemma keeps_lift {A} (r : exec A) : keeps (lift r).
Proof. done. Qed.
Lemma keeps_reads {A} wrap (f : db → result StorageError A) : keeps (reads wrap f).
Proof. done. Qed.
Lemma keeps_reads_ok {A} (f : db → result StorageError A) : keeps (reads_ok f).
Proof. done. Qed.
Lemma keeps_order l : keeps (draw_order l).
Proof. done. Qed.
Lemma keeps_bind {A B} (m : M A) (f : A → M B) : keeps m → (∀ a, keeps (f a)) → keeps (m ≫= f).
Proof.
  intros Hm Hf s. destruct (Hm s) as [H1' H2']. unfold mbind, M_bind. destruct (m s) as [s' [a|e]]; [|done].
  cbn in *. destruct (Hf a s') as [H3' H4']. by rewrite H3', H4'.
Qed.
Lemma keeps_traverse {A B} (f : A → M B) l : (∀ a, keeps (f a)) → keeps (traverse f l).
Proof. intros Hf. induction l as [|a l IH]; [done|]. cbn. repeat (apply keeps_bind; [auto|intros ?]). apply keeps_ret. Qed.
Lemma keeps_fold {A S} (f : A → S → M S) l acc : (∀ a acc, keeps (f a acc)) → keeps (fold f l acc).
Proof. intros Hf. revert acc. induction l as [|a l IH]; intros acc; [done|]. cbn. apply keeps_bind; auto. Qed.
End execution.
#[export] Hint Resolve keeps_ret keeps_lift keeps_reads keeps_reads_ok keeps_order keeps_bind keeps_traverse keeps_fold : keeps.

Section reading.
Context `{RocksDB db, Bincode Node, Bincode Edge, Bincode GraphMeta, Bincode Value, Bincode IndexDefinition}.
Context `{Platform, Unicode, DebugFormat, Environment}.
Abbreviation M := (Executor.M (db := db)).
Variable graph_id : GraphId.
Ltac keeps := repeat first
  [ apply keeps_ret | apply keeps_lift | apply keeps_reads | apply keeps_reads_ok | apply keeps_order
  | apply keeps_bind; [|intros ?] | apply keeps_traverse; intros ? | apply keeps_fold; intros ? ? | case_match ].

Lemma keeps_node_rows nodes variable : keeps (node_rows (db := db) nodes variable).
Proof. unfold node_rows. keeps. Qed.
Lemma keeps_scan labels variable : keeps (exec_scan (db := db) graph_id labels variable).
Proof. unfold exec_scan. destruct labels; keeps; apply keeps_node_rows. Qed.
Lemma keeps_expand input edge_label direction target_labels ev tv :
  keeps (exec_expand (db := db) graph_id input edge_label direction target_labels ev tv).
Proof.
  unfold exec_expand, expand_record, expand_edges, expand_edge. destruct direction; keeps.
Qed.
Lemma keeps_index_scan name labels variable exprs remaining :
  keeps (exec_index_scan (db := db) graph_id name labels variable exprs remaining).
Proof. unfold exec_index_scan, load_nodes. keeps; apply keeps_node_rows. Qed.
Lemma keeps_nodes_with_edges : keeps (nodes_with_edges (db := db) graph_id).
Proof. unfold nodes_with_edges. keeps. Qed.
Lemma keeps_call procedure items : keeps (exec_call_procedure (db := db) graph_id procedure items).
Proof.
  unfold exec_call_procedure. apply keeps_bind; [|intros ?; keeps].
  unfold run_procedure. repeat case_match; keeps; apply keeps_nodes_with_edges.
Qed.
Lemma keeps_list_graphs : keeps (exec_list_graphs (db := db)).
Proof. unfold exec_list_graphs. keeps. Qed.

(** Optimizing turns a plan that only reads into one that only reads, with index scans. *)
Fixpoint only_reads (p : LogicalPlan) : bool :=
  match p with
  | Filter i _ | Project i _ _ | Expand i _ _ _ _ _ | Sort i _ | Limit i _ _ | Distinct i => only_reads i
  | Join l r => only_reads l && only_reads r
  | Scan _ _ _ | CallProcedure _ _ _ | Empty | ListGraphs | IndexScan _ _ _ _ _ _ => true
  | _ => false
  end.
Lemma reads_only_only p : reads_only p = true → only_reads p = true.
Proof. unfold reads_only. induction p; cbn; rewrite ?andb_true_iff; naive_solver. Qed.
Lemma choose_index_reads labels variable eqs others indexes p :
  choose_index labels variable eqs others indexes = Some p → only_reads p = true.
Proof. induction indexes as [|def l IH]; [done|]. cbn. repeat case_match; auto. by intros [= <-]. Qed.
Lemma optimize_reads d p : only_reads p = true → only_reads (optimize graph_id d p) = true.
Proof.
  induction p; cbn; rewrite ?andb_true_iff; try naive_solver. intros Hp. specialize (IHp Hp).
  destruct (optimize graph_id d p); try done. unfold try_index_scan. repeat case_match; try done.
  destruct (choose_index _ _ _ _ _) eqn:Hc; [|done]. cbn. by eapply choose_index_reads.
Qed.
Lemma execute_keeps p : only_reads p = true → keeps (execute_node (db := db) graph_id p).
Proof.
  induction p; cbn; rewrite ?andb_true_iff; intros Hp; try done; destruct_and?;
    auto using keeps_scan, keeps_index_scan, keeps_call, keeps_list_graphs with keeps;
    repeat (apply keeps_bind; [by auto|intros ?]); auto using keeps_expand with keeps.
Qed.
(** A program whose plan only reads *)
Lemma execute_program_reads d n program options p : plan program = Ok p → reads_only p = true →
  ∃ n' r, execute_program d n graph_id program options = (d, n', r) ∧
    ∀ o, r = Ok o → output_stats o = zero_stats.
Proof.
  intros Hp Hr. unfold execute_program. rewrite Hp. cbn [map_raised map_err].
  destruct (execute_plan_with graph_id p options (mkState d zero_stats n)) as [s r] eqn:He.
  assert (storage s = d ∧ stats s = zero_stats) as [Hs Ht].
  { unfold execute_plan_with in He. cbn in He.
    destruct (execute_keeps (optimize graph_id d p) (optimize_reads d p (reads_only_only p Hr)) (mkState d zero_stats n)) as [H1' H2'].
    rewrite He in H1', H2'. done. }
  rewrite Hs, Ht. eexists _, _. split; [done|]. intros o Ho. destruct r; cbn in Ho; [|done]. by injection Ho as <-.
Qed.
End reading.

(** ** Index writes keep to their own column family *)
Section index_writes.
Context `{RocksDBLaws db, BincodeLaws Node, BincodeLaws Edge, BincodeLaws GraphMeta, Bincode Value, Bincode IndexDefinition}.
Implicit Types (d : db) (G : graph).
Definition same_graph d d' : Prop := ∀ cf k, cf ≠ PROP_INDEX → get_cf d' cf k = get_cf d cf k.
Lemma same_graph_refl d : same_graph d d.
Proof. done. Qed.
Lemma same_graph_trans d1 d2 d3 : same_graph d1 d2 → same_graph d2 d3 → same_graph d1 d3.
Proof. intros H12 H23 cf k Hcf. by rewrite H23, H12. Qed.
Lemma same_graph_represents d d' G : same_graph d d' → represents d G → represents d' G.
Proof.
  intros Hd HR. split; [apply HR|..]; intros k v; rewrite Hd by discriminate; apply HR.
Qed.
Lemma same_graph_put d k v : same_graph d (put_cf d PROP_INDEX k v).
Proof. intros cf k' Hcf. rewrite get_cf_put_ne; [done|congruence]. Qed.
Lemma same_graph_delete d k : same_graph d (delete_cf d PROP_INDEX k).
Proof. intros cf k' Hcf. rewrite get_cf_delete_ne; [done|congruence]. Qed.
Lemma index_node_same h d def x d' : engine_index_node h d def x = Ok d' → same_graph d d'.
Proof.
  unfold engine_index_node, index_node. rewrite cf_open_all by in_cfs. cbn.
  destruct (idx_unique def); [intros (_ & _ & Hd)%bind_Ok|intros Hd]; injection Hd as <-; apply same_graph_put.
Qed.
Lemma unindex_node_same h d def x d' : engine_unindex_node h d def x = Ok d' → same_graph d d'.
Proof.
  unfold engine_unindex_node, unindex_node. rewrite cf_open_all by in_cfs. cbn. intros [= <-]. apply same_graph_delete.
Qed.
End index_writes.

(** One step of a computation, whose run [tac] gives *)
Ltac run tac := erewrite run_bind; [|tac].

(** ** Updates implement the abstract graph's *)
Section updating.
Context `{RocksDBLaws db, BincodeLaws Node, BincodeLaws Edge, BincodeLaws GraphMeta, Bincode Value, Bincode IndexDefinition}.
Context `{Platform, Unicode, DebugFormat, EnvironmentLaws}.
Abbreviation state := (exec_state (db := db)).
Implicit Types (s : state) (G : graph).
Variable graph_id : GraphId.

(** A state that differs in index entries only *)
Definition index_step s s' : Prop := same_graph (storage s) (storage s') ∧ stats s' = stats s ∧ draws s' = draws s.
Lemma index_step_refl s : index_step s s.
Proof. done. Qed.
Lemma try_write_step (f : db → result StorageError db) s : (∀ d d', f d = Ok d' → same_graph d d') →
  ∃ s', try_write f s = (s', Ok tt) ∧ index_step s s'.
Proof.
  intros Hf. unfold try_write. destruct (f (storage s)) as [d'|] eqn:Hd; eexists; (split; [done|]); [|done].
  split; [by apply Hf|done].
Qed.
Lemma for_indexes_step x f s : (∀ d def d', f d def x = Ok d' → same_graph d d') →
  ∃ s', for_indexes graph_id x f s = (s', Ok tt) ∧ index_step s s'.
Proof.
  intros Hf. unfold for_indexes. unfold mbind, M_bind, reads_ok.
  destruct (engine_list_indexes (storage s) graph_id) as [defs|]; [|by exists s].
  revert s. induction defs as [|def defs IH]; intros s; [by exists s|]. cbn. unfold mbind, M_bind.
  destruct (covers def x).
  - destruct (try_write_step (λ d, f d def x) s) as (s1 & -> & H1'); [by eauto|]. cbn.
    destruct (IH s1) as (s2 & Hs2 & H2'). exists s2. split; [exact Hs2|].
    destruct H1' as (?&?&?), H2' as (?&?&?). split_and!; [by eapply same_graph_trans|congruence..].
  - cbn. destruct (IH s) as (s2 & Hs2 & H2'). by exists s2.
Qed.
Lemma index_on_write_step x s : ∃ s', index_node_on_write graph_id x s = (s', Ok tt) ∧ index_step s s'.
Proof. apply for_indexes_step. intros d def d'. apply index_node_same. Qed.
Lemma unindex_step x s : ∃ s', unindex_node_on_delete graph_id x s = (s', Ok tt) ∧ index_step s s'.
Proof. apply for_indexes_step. intros d def d'. apply unindex_node_same. Qed.

Definition plus_stats (t : ExecStats) (nc nd ec ed ps : Z) : ExecStats :=
  mkStats (nodes_created t + nc) (nodes_deleted t + nd) (edges_created t + ec) (edges_deleted t + ed) (properties_set t + ps).
Definition stats_fit (t : ExecStats) : Prop :=
  is_i64 (nodes_created t) ∧ is_i64 (nodes_deleted t) ∧ is_i64 (edges_created t) ∧ is_i64 (edges_deleted t) ∧
  is_i64 (properties_set t).
Lemma add_stats_ok nc nd ec ed ps s : stats_fit (plus_stats (stats s) nc nd ec ed ps) →
  add_stats nc nd ec ed ps s = (mkState (storage s) (plus_stats (stats s) nc nd ec ed ps) (draws s), Ok tt).
Proof.
  intros (?&?&?&?&?). unfold add_stats. by rewrite !i64_op_ok.
Qed.

Lemma set_properties_keep properties x x' : evaluate_properties node_set_property properties x = Ok x' →
  node_key x' = node_key x ∧ node_labels x' = node_labels x.
Proof.
  unfold evaluate_properties. intros Hx.
  apply (for_each_inv (λ y, node_key y = node_key x ∧ node_labels y = node_labels x) _ _ _ _) in Hx; [done| |done].
  intros [k e] y y' Hy (v & _ & [= <-])%bind_Ok. done.
Qed.
Lemma add_labels_keep labels x : node_key (foldl add_label x labels) = node_key x ∧
  ∀ l, l ∈ node_labels (foldl add_label x labels) ↔ l ∈ labels ∨ l ∈ node_labels x.
Proof.
  revert x. induction labels as [|l labels IH]; intros x; cbn; [split; [done|]; intros l; set_solver|].
  destruct (IH (add_label x l)) as [Hk Hl]. split; [done|]. intros l'. rewrite Hl, add_label_labels. set_solver.
Qed.

(** Creating a node implements [insert_node], or writes nothing when a property fails to evaluate. *)
Lemma create_node_run s G labels properties :
  represents (storage s) G → stats_fit (plus_stats (stats s) 1 0 0 0 0) →
  let x0 := foldl add_label (Node_new (fresh_uuid (draws s)) graph_id) labels in
  match evaluate_properties node_set_property properties x0 with
  | Ok x => ∃ s', exec_create_node graph_id labels properties s =
        (s', Ok (of_rows ["__node_id"%string] [[Str (Uuid_fmt (fresh_uuid (draws s)))]])) ∧
      represents (storage s') (insert_node x G) ∧ node_key x = (graph_id, fresh_uuid (draws s)) ∧
      (∀ l, l ∈ node_labels x ↔ l ∈ labels) ∧
      stats s' = plus_stats (stats s) 1 0 0 0 0 ∧ draws s' = S (draws s)
  | Err e => exec_create_node graph_id labels properties s = (mkState (storage s) (stats s) (S (draws s)), Err e)
  end.
Proof.
  intros HR Hfit x0. unfold exec_create_node. rewrite (run_bind _ _ _ _ _ eq_refl). fold x0.
  destruct (evaluate_properties node_set_property properties x0) as [x|e] eqn:Hx.
  2:{ by rewrite (run_bind_err _ _ _ _ _ eq_refl). }
  destruct (set_properties_keep _ _ _ Hx) as [Hk Hl].
  destruct (add_labels_keep labels (Node_new (fresh_uuid (draws s)) graph_id)) as [Hk0 Hl0]. fold x0 in Hk0, Hl0.
  destruct (put_node_rep (storage s) G x HR) as (d1 & Hput & HR1 & _).
  set (s1 := mkState d1 (plus_stats (stats s) 1 0 0 0 0) (S (draws s))).
  destruct (index_on_write_step x s1) as (s2 & Hs2 & Hsame & Hst & Hdr).
  exists s2. split_and!; [|by eapply same_graph_represents|by rewrite Hk, Hk0| |done|done].
  - run ltac:(reflexivity). run ltac:(apply run_writes; exact Hput). run ltac:(apply add_stats_ok; exact Hfit).
    run ltac:(exact Hs2).
    unfold mret, M_ret. rewrite of_rows_new, add_record_rows. cbn [app]. rewrite Hk0 in Hk.
    injection Hk as _ ->. done.
  - intros l. rewrite Hl, Hl0. cbn. set_solver.
Qed.

(** ** Scans *)
Lemma node_rows_run nodes variable s :
  let keys := hash_order (draws s) (property_keys (node_properties <$> nodes)) in
  node_rows nodes variable s =
    (mkState (storage s) (stats s) (S (draws s)), Ok (of_rows (scan_columns keys variable) (scan_row keys variable <$> nodes))).
Proof.
  intros keys. unfold node_rows. run ltac:(reflexivity). fold keys. unfold mret, M_ret.
  by rewrite of_rows_new, (foldl_rows (scan_row keys variable)).
Qed.
Lemma property_keys_elem k entities : k ∈ property_keys entities ↔ ∃ p, p ∈ entities ∧ k ∈ (fst <$> p).
Proof. unfold property_keys. rewrite elem_of_remove_dups, list_elem_of_bind. naive_solver. Qed.
Lemma has_all_labels_spec labels x : has_all_labels labels x = true ↔ ∀ l, l ∈ labels → l ∈ node_labels x.
Proof.
  unfold has_all_labels, has_label. rewrite forallb_forall. setoid_rewrite <- list_elem_of_In.
  by setoid_rewrite bool_decide_eq_true.
Qed.
Definition labels_fit (labels : list string) G : Prop :=
  Forall label_fits labels ∧ ∀ x l, has_node G x → l ∈ node_labels x → label_fits l.
Definition matching_nodes G (labels : list string) (x : Node) : Prop :=
  has_node G x ∧ node_graph_id x = graph_id ∧ ∀ l, l ∈ labels → l ∈ node_labels x.
Lemma scan_nodes_run G labels s : represents (storage s) G → labels_fit labels G →
  ∃ nodes, (∀ x, x ∈ nodes ↔ matching_nodes G labels x) ∧ NoDup nodes ∧
    ∀ v, exec_scan graph_id labels v s = node_rows nodes v s.
Proof.
  intros HR [Hl Hfits]. unfold exec_scan, matching_nodes. destruct labels as [|l more].
  - destruct (scan_nodes_rep _ _ graph_id HR) as (xs & Hxs & Hin & Hsort). exists xs. split_and!.
    + intros x. rewrite Hin. set_solver.
    + eapply StronglySorted_NoDup, Hsort. intros x. apply bytes_lt_irrefl.
    + intros v. run ltac:(apply run_reads; exact Hxs). done.
  - destruct (scan_nodes_by_label_rep _ _ graph_id l HR) as (xs & Hxs & Hin & Hsort).
    apply Forall_cons in Hl as [Hl _].
    assert (∀ x, x ∈ xs ↔ has_node G x ∧ node_graph_id x = graph_id ∧ l ∈ node_labels x) as Hin'.
    { intros x. rewrite Hin. split.
      - intros (Hx & Hg & l' & Hl' & Hc). split_and!; [done..|]. rewrite !label_cut_fits in Hc by eauto.
        apply str_bytes_inj in Hc. by subst.
      - intros (Hx & Hg & Hl'). eauto 6. }
    assert (NoDup xs) as Hnd by (eapply StronglySorted_NoDup, Hsort; intros x; apply bytes_lt_irrefl).
    exists (match more with [] => xs | _ => List.filter (has_all_labels (l :: more)) xs end). split_and!.
    + intros x. destruct more as [|l' more]; [rewrite Hin'; set_solver|].
      rewrite list_elem_of_In, filter_In, <- list_elem_of_In, Hin', has_all_labels_spec. set_solver.
    + destruct more; [done|]. apply NoDup_ListNoDup, List.NoDup_filter, NoDup_ListNoDup; exact Hnd.
    + intros v. run ltac:(run ltac:(apply run_reads; exact Hxs); reflexivity). done.
Qed.

(** A node scan is exact: MATCH (v:L1:L2...) gives one row per node of the graph that has all the
    labels, each node once, in every column order a hash set may produce. The row holds the
    identifier, the labels, the node itself, and for each property key that occurs in a node of
    the result the node's value or NULL, twice: as "k" and as "v.k". *)
Theorem label_scan_exact s G labels v : represents (storage s) G → labels_fit labels G →
  ∃ nodes keys, exec_scan graph_id labels (Some v) s =
      (mkState (storage s) (stats s) (S (draws s)),
       Ok (of_rows (["__node_id"; "__labels"]%string ++ keys ++ v :: qualified v keys)
            ((λ x, [Str (Uuid_fmt (node_id x)); ListV (Str <$> node_labels x)]
                   ++ property_values keys (node_properties x)
                   ++ node_value x :: property_values keys (node_properties x)) <$> nodes))) ∧
    (∀ x, x ∈ nodes ↔ matching_nodes G labels x) ∧ NoDup nodes ∧ NoDup keys ∧
    (∀ k, k ∈ keys ↔ ∃ x, x ∈ nodes ∧ k ∈ (fst <$> node_properties x)).
Proof.
  intros HR Hfit. destruct (scan_nodes_run G labels s HR Hfit) as (nodes & Hin & Hnd & Hrun).
  exists nodes, (hash_order (draws s) (property_keys (node_properties <$> nodes))). split_and!.
  - by rewrite Hrun, node_rows_run.
  - done.
  - done.
  - rewrite hash_order_perm. apply NoDup_remove_dups.
  - intros k. rewrite hash_order_perm, property_keys_elem. setoid_rewrite list_elem_of_fmap. naive_solver.
Qed.
End updating.

(** ** Deletion *)
Section deleting.
Context `{RocksDBLaws db, BincodeLaws Node, BincodeLaws Edge, BincodeLaws GraphMeta, Bincode Value, Bincode IndexDefinition}.
Context `{Platform, Unicode, DebugFormat, EnvironmentLaws}.
Abbreviation state := (exec_state (db := db)).
Implicit Types (s : state) (G : graph).
Variable graph_id : GraphId.

Definition edge_count G : Z := Z.of_nat (size (g_edges G)).
Definition node_count G : Z := Z.of_nat (size (g_nodes G)).
Lemma Uuid_fmt_inj u v : Uuid_fmt u = Uuid_fmt v → u = v.
Proof. intros Heq. pose proof (Uuid_parse_fmt u) as Hu. rewrite Heq, Uuid_parse_fmt in Hu. congruence. Qed.
Lemma run_parse_id what u s : lift (parse_id what (Uuid_fmt u)) s = (s, Ok u).
Proof. unfold parse_id. by rewrite Uuid_parse_fmt. Qed.

Lemma as_i64_id z : is_i64 z → as_i64 z = z.
Proof.
  unfold as_i64, wrap_signed, is_i64, i64_min, i64_max, two64. intros Hz. rewrite Z.mod_small by lia. lia.
Qed.
Lemma edges_removed G n ids : keyed G → NoDup ids →
  (∀ i, i ∈ ids ↔ ∃ e, has_edge G e ∧ touches graph_id n e ∧ edge_id e = i) →
  Z.of_nat (length ids) = edge_count G - edge_count (remove_node graph_id n G).
Proof.
  intros HK Hnd Hids. unfold edge_count. cbn [remove_node g_edges].
  set (T := filter (λ ke : GraphId * EdgeId * Edge, touches graph_id n ke.2) (g_edges G)).
  assert (size (g_edges G) = (size T + size (filter (λ ke : GraphId * EdgeId * Edge, ¬ touches graph_id n ke.2) (g_edges G)))%nat) as ->.
  { rewrite <- (map_filter_union_complement (λ ke : GraphId * EdgeId * Edge, touches graph_id n ke.2) (g_edges G)) at 1.
    apply map_size_disj_union, map_disjoint_filter_complement. }
  assert (size T = length ids) as ->; [|lia].
  rewrite <- size_dom. assert (dom T = list_to_set ((λ i, (graph_id, i)) <$> ids)) as ->.
  - apply set_eq. intros [g i]. rewrite elem_of_dom, elem_of_list_to_set, list_elem_of_fmap. split.
    + intros [e He]. apply map_lookup_filter_Some in He as [He Ht]. cbn in Ht.
      pose proof (proj1 (proj2 HK) _ _ He) as Hk. unfold edge_key in Hk. pose proof Ht as [Hg _].
      injection Hk as -> ->. exists (edge_id e). split; [by rewrite Hg|]. apply Hids. exists e. unfold has_edge. auto.
    + intros (i' & [= -> ->] & (e & He & Ht & <-)%Hids). exists e. apply map_lookup_filter_Some. split; [|done].
      unfold has_edge, edge_key in He. by rewrite (proj1 Ht) in He.
  - rewrite size_list_to_set; [by rewrite length_fmap|]. apply NoDup_fmap_2; [|done]. by intros ?? [= ->].
Qed.
Lemma count_incident_run G n s : represents (storage s) G → edge_count G ≤ i64_max →
  count_incident_edges graph_id n s = (s, Ok (edge_count G - edge_count (remove_node graph_id n G))).
Proof.
  intros HR Hmax. unfold count_incident_edges.
  destruct (get_outgoing_edges_rep _ _ graph_id n None HR) as (out & Hout & Hoin & _).
  destruct (get_incoming_edges_rep _ _ graph_id n None HR) as (inc & Hinc & Hiin & _).
  run ltac:(apply run_reads; exact Hout). run ltac:(apply run_reads; exact Hinc). unfold mret, M_ret. do 2 f_equal.
  assert (Z.of_nat (length (remove_dups (edge_id <$> out ++ inc))) = edge_count G - edge_count (remove_node graph_id n G)) as Heq.
  { apply edges_removed; [apply HR|apply NoDup_remove_dups|]. intros i. rewrite elem_of_remove_dups, list_elem_of_fmap.
    setoid_rewrite elem_of_app. setoid_rewrite Hoin. setoid_rewrite Hiin. unfold touches. cbn. naive_solver. }
  rewrite Heq. apply as_i64_id. unfold is_i64, edge_count, i64_min in *. lia.
Qed.
Lemma delete_node_step G n labels props acc s :
  represents (storage s) G → is_Some (g_nodes G !! (graph_id, n)) → edge_count G ≤ i64_max →
  stats_fit (plus_stats (stats s) 0 1 0 (edge_count G - edge_count (remove_node graph_id n G)) 0) →
  Uuid_fmt n ∉ seen acc →
  ∃ s', delete_node_value graph_id (NodeV (Uuid_fmt n) labels props) acc s =
      (s', Ok (mkDeletion ({[Uuid_fmt n]} ∪ seen acc) (deleted acc + 1))) ∧
    represents (storage s') (remove_node graph_id n G) ∧
    stats s' = plus_stats (stats s) 0 1 0 (edge_count G - edge_count (remove_node graph_id n G)) 0.
Proof.
  intros HR [x Hx] Hmax Hfit Hseen. unfold delete_node_value. rewrite decide_False by done.
  destruct (unindex_step graph_id x s) as (s1 & Hs1 & Hsame & Hst & Hdr).
  assert (represents (storage s1) G) as HR1 by (by eapply same_graph_represents).
  pose proof (delete_node_rep _ _ graph_id n HR1) as Hdel. rewrite Hx in Hdel. destruct Hdel as (d2 & Hdel & HR2 & _).
  eexists. split; [|split].
  - run ltac:(apply run_parse_id).
    run ltac:(apply (run_reads_ok (λ d, get_node d graph_id n)); rewrite (get_node_rep _ _ _ _ HR), Hx; reflexivity).
    run ltac:(exact Hs1). run ltac:(apply count_incident_run; [exact HR1|exact Hmax]).
    run ltac:(apply run_writes_st; exact Hdel).
    run ltac:(apply add_stats_ok; cbn [stats]; rewrite Hst; exact Hfit). reflexivity.
  - exact HR2.
  - cbn. by rewrite Hst.
Qed.

(** What deleting a list of distinct nodes leaves *)
Definition remove_nodes (ids : list NodeId) G : graph := foldl (λ G n, remove_node graph_id n G) G ids.
Lemma remove_nodes_lookup ids G n : n ∉ ids → g_nodes (remove_nodes ids G) !! (graph_id, n) = g_nodes G !! (graph_id, n).
Proof.
  revert G. induction ids as [|i ids IH]; intros G Hn; [done|].
  change (remove_nodes (i :: ids) G) with (remove_nodes ids (remove_node graph_id i G)). rewrite IH by set_solver.
  cbn. apply lookup_delete_ne. set_solver.
Qed.
Lemma remove_nodes_edges ids G : edge_count (remove_nodes ids G) ≤ edge_count G.
Proof.
  revert G. induction ids as [|i ids IH]; intros G; [done|].
  change (remove_nodes (i :: ids) G) with (remove_nodes ids (remove_node graph_id i G)). etrans; [apply IH|].
  unfold edge_count. cbn. apply inj_le, map_size_filter.
Qed.
Lemma remove_nodes_count ids G : NoDup ids → (∀ n, n ∈ ids → is_Some (g_nodes G !! (graph_id, n))) →
  Z.of_nat (length ids) = node_count G - node_count (remove_nodes ids G).
Proof.
  intros Hnd. revert G. induction Hnd as [|n ids Hn _ IH]; intros G Hin; [cbn; lia|]. cbn [length].
  change (remove_nodes (n :: ids) G) with (remove_nodes ids (remove_node graph_id n G)).
  specialize (IH (remove_node graph_id n G)). cbn [remove_node g_nodes] in IH.
  assert (node_count (remove_node graph_id n G) = node_count G - 1) as Hc.
  { unfold node_count. cbn. rewrite map_size_delete. destruct (Hin n ltac:(by left)) as [x ->].
    assert (size (g_nodes G) ≠ 0%nat); [|lia]. apply map_size_non_empty_iff. intros He.
    destruct (Hin n ltac:(by left)) as [y Hy]. by rewrite He, lookup_empty in Hy. }
  assert (∀ m, m ∈ ids → is_Some (delete (graph_id, n) (g_nodes G) !! (graph_id, m))) as Hm.
  { intros m Hm. rewrite lookup_delete_ne by set_solver. apply Hin. by right. }
  specialize (IH Hm). lia.
Qed.

(** Values that DELETE may be given here: nodes of the graph, and values that are no entities *)
Definition deletable G (v : Value) : Prop :=
  match v with
  | NodeV i _ _ => ∃ n, i = Uuid_fmt n ∧ is_Some (g_nodes G !! (graph_id, n))
  | EdgeV _ _ _ _ _ => False
  | _ => True
  end.
Definition is_node_id (n : NodeId) (v : Value) : Prop := ∃ ls ps, v = NodeV (Uuid_fmt n) ls ps.
(** The state of the second pass: the nodes [ids] are deleted. *)
Record deleting G (ids : list NodeId) (s : state) (acc : deletion) : Prop := {
  del_rep : represents (storage s) (remove_nodes ids G);
  del_stats : stats s = mkStats 0 (Z.of_nat (length ids)) 0 (edge_count G - edge_count (remove_nodes ids G)) 0;
  del_nodup : NoDup ids;
  del_present n : n ∈ ids → is_Some (g_nodes G !! (graph_id, n));
  del_seen : seen acc = list_to_set (Uuid_fmt <$> ids);
  del_count : deleted acc = Z.of_nat (length ids)
}.
Lemma deleting_value G ids s acc v : node_count G ≤ i64_max → edge_count G ≤ i64_max → deletable G v →
  deleting G ids s acc →
  ∃ s' acc' ids', delete_node_value graph_id v acc s = (s', Ok acc') ∧ deleting G ids' s' acc' ∧
    ∀ n, n ∈ ids' ↔ n ∈ ids ∨ is_node_id n v.
Proof.
  intros Hnm Hem Hv Hd.
  assert ((∀ n, ¬ is_node_id n v) → delete_node_value graph_id v acc s = (s, Ok acc) →
    ∃ s' acc' ids', delete_node_value graph_id v acc s = (s', Ok acc') ∧ deleting G ids' s' acc' ∧
      ∀ n, n ∈ ids' ↔ n ∈ ids ∨ is_node_id n v) as Hskip.
  { intros Hno Hrun. exists s, acc, ids. split_and!; [done..|]. naive_solver. }
  destruct v as [| | | | | | | | | | | |i ls ps|]; try done; try (by apply Hskip; [intros n (?&?&?)|]).
  destruct Hv as (n & -> & Hn).
  assert (∀ m, is_node_id m (NodeV (Uuid_fmt n) ls ps) ↔ m = n) as Hid.
  { intros m. split; [intros (?&?&[= Heq _ _]); symmetry; by apply Uuid_fmt_inj|intros ->; by eexists _, _]. }
  destruct (decide (n ∈ ids)) as [Hin|Hin].
  - exists s, acc, ids. split_and!; [|done|setoid_rewrite Hid; naive_solver].
    unfold delete_node_value. rewrite decide_True; [done|]. rewrite (del_seen _ _ _ _ Hd).
    apply elem_of_list_to_set, list_elem_of_fmap. eauto.
  - assert (remove_nodes (ids ++ [n]) G = remove_node graph_id n (remove_nodes ids G)) as Hsnoc
      by (unfold remove_nodes; by rewrite foldl_app).
    assert (NoDup (ids ++ [n])) as Hnd'.
    { apply NoDup_app. split_and!; [apply Hd|set_solver|apply NoDup_singleton]. }
    assert (∀ m, m ∈ ids ++ [n] → is_Some (g_nodes G !! (graph_id, m))) as Hpres.
    { intros m [Hm|Hm%list_elem_of_singleton]%elem_of_app; [by apply (del_present _ _ _ _ Hd)|by subst]. }
    pose proof (remove_nodes_count _ G Hnd' Hpres) as Hcount. rewrite length_app in Hcount. cbn in Hcount.
    pose proof (remove_nodes_edges (ids ++ [n]) G) as Hle. rewrite Hsnoc in Hle.
    pose proof (remove_nodes_edges ids G) as Hle0.
    assert (edge_count (remove_node graph_id n (remove_nodes ids G)) ≤ edge_count (remove_nodes ids G)) as Hle1
      by (apply (remove_nodes_edges [n])).
    assert (0 ≤ edge_count (remove_node graph_id n (remove_nodes ids G)) ∧ 0 ≤ node_count (remove_nodes (ids ++ [n]) G)) as [? ?]
      by (unfold edge_count, node_count; lia).
    destruct (delete_node_step (remove_nodes ids G) n ls ps acc s) as (s' & Hrun & HR' & Hst').
    + apply Hd.
    + by rewrite remove_nodes_lookup.
    + lia.
    + rewrite (del_stats _ _ _ _ Hd). unfold stats_fit, plus_stats, is_i64, i64_min, i64_max in *. cbn. lia.
    + rewrite (del_seen _ _ _ _ Hd). rewrite elem_of_list_to_set, list_elem_of_fmap. intros (m & ->%Uuid_fmt_inj & Hm). done.
    + exists s', (mkDeletion ({[Uuid_fmt n]} ∪ seen acc) (deleted acc + 1)), (ids ++ [n]). split_and!; [done| |].
      * split; [by rewrite Hsnoc| |done|done| |].
        -- rewrite Hst', (del_stats _ _ _ _ Hd), Hsnoc, length_app. unfold plus_stats. cbn. f_equal; lia.
        -- cbn. rewrite (del_seen _ _ _ _ Hd), fmap_app. set_solver.
        -- cbn. rewrite (del_count _ _ _ _ Hd), length_app. cbn. lia.
      * setoid_rewrite Hid. intros m. rewrite elem_of_app, list_elem_of_singleton. done.
Qed.
Lemma deleting_values G vs ids s acc : node_count G ≤ i64_max → edge_count G ≤ i64_max → Forall (deletable G) vs →
  deleting G ids s acc →
  ∃ s' acc' ids', fold (delete_node_value graph_id) vs acc s = (s', Ok acc') ∧ deleting G ids' s' acc' ∧
    ∀ n, n ∈ ids' ↔ n ∈ ids ∨ ∃ v, v ∈ vs ∧ is_node_id n v.
Proof.
  intros Hn He Hvs. revert ids s acc. induction Hvs as [|v vs Hv _ IH]; intros ids s acc Hd.
  - exists s, acc, ids. split_and!; [done..|]. set_solver.
  - destruct (deleting_value G ids s acc v Hn He Hv Hd) as (s1 & acc1 & ids1 & Hrun & Hd1 & Hids1).
    destruct (IH ids1 s1 acc1 Hd1) as (s2 & acc2 & ids2 & Hrun2 & Hd2 & Hids2).
    exists s2, acc2, ids2. split_and!; [cbn [fold]; by run ltac:(exact Hrun)|done|].
    intros n. rewrite Hids2, Hids1. set_solver.
Qed.
Lemma no_edges G vs acc s : Forall (deletable G) vs → fold (delete_edge_value graph_id) vs acc s = (s, Ok acc).
Proof.
  induction 1 as [|v vs Hv _ IH]; [done|]. cbn [fold].
  assert (delete_edge_value graph_id v acc s = (s, Ok acc)) as Hrun by (destruct v; done).
  by run ltac:(exact Hrun).
Qed.

(** C8: DELETE implements the removal of nodes, DETACH or not. When the rows hold nodes of the graph
    (several times, perhaps, and next to values that are no entities), the nodes are removed
    once each, with all their edges; "deleted" and the node count are the number of distinct
    nodes, and the edge count is the number of edges the graph has lost. *)
Theorem delete_refines s G rs targets detach :
  represents (storage s) G → stats s = zero_stats → node_count G ≤ i64_max → edge_count G ≤ i64_max →
  (∀ r, r ∈ rs_records rs → ∃ vs, checked_values targets r = Ok vs ∧ Forall (deletable G) vs) →
  ∃ s' ids, exec_delete_nodes graph_id rs targets detach s =
      (s', Ok (of_rows ["deleted"%string] [[Integer (Z.of_nat (length ids))]])) ∧
    represents (storage s') (remove_nodes ids G) ∧
    stats s' = mkStats 0 (Z.of_nat (length ids)) 0 (edge_count G - edge_count (remove_nodes ids G)) 0 ∧
    NoDup ids ∧ ∀ n, n ∈ ids ↔
      ∃ r vs v, r ∈ rs_records rs ∧ checked_values targets r = Ok vs ∧ v ∈ vs ∧ is_node_id n v.
Proof.
  intros HR Hst Hn He Hrows.
  assert (fold (delete_pass (delete_edge_value graph_id) targets) (rs_records rs) (mkDeletion ∅ 0) s =
    (s, Ok (mkDeletion ∅ 0))) as Hedges.
  { revert Hrows. induction (rs_records rs) as [|r l IH]; intros Hrows; [done|]. cbn [fold].
    destruct (Hrows r ltac:(by left)) as (vs & Hvs & Hdel).
    assert (delete_pass (delete_edge_value graph_id) targets r (mkDeletion ∅ 0) s = (s, Ok (mkDeletion ∅ 0))) as Hrun.
    { unfold delete_pass. run ltac:(apply run_lift; exact Hvs). by eapply no_edges. }
    run ltac:(exact Hrun). apply IH. intros r' Hr'. apply Hrows. by right. }
  assert (∀ l ids s acc, (∀ r, r ∈ l → ∃ vs, checked_values targets r = Ok vs ∧ Forall (deletable G) vs) →
    deleting G ids s acc →
    ∃ s' acc' ids', fold (delete_pass (delete_node_value graph_id) targets) l acc s = (s', Ok acc') ∧ deleting G ids' s' acc' ∧
      ∀ n, n ∈ ids' ↔ n ∈ ids ∨ ∃ r vs v, r ∈ l ∧ checked_values targets r = Ok vs ∧ v ∈ vs ∧ is_node_id n v) as Hnodes.
  { induction l as [|r l IH]; intros ids s0 acc Hl Hd.
    - exists s0, acc, ids. split_and!; [done..|]. intros n. split; [by left|]. intros [Hin|(r & _ & _ & Hr & _)]; [done|].
      by apply elem_of_nil in Hr.
    - destruct (Hl r ltac:(by left)) as (vs & Hvs & Hdel).
      destruct (deleting_values G vs ids s0 acc Hn He Hdel Hd) as (s1 & acc1 & ids1 & Hrun1 & Hd1 & Hids1).
      destruct (IH ids1 s1 acc1) as (s2 & acc2 & ids2 & Hrun2 & Hd2 & Hids2); [intros r' Hr'; apply Hl; by right|done|].
      exists s2, acc2, ids2. split_and!; [|done|].
      + cbn [fold]. assert (delete_pass (delete_node_value graph_id) targets r acc s0 = (s1, Ok acc1)) as Hrun.
        { unfold delete_pass. run ltac:(apply run_lift; exact Hvs). exact Hrun1. }
        by run ltac:(exact Hrun).
      + intros n. rewrite Hids2, Hids1. split.
        * intros [[?|(v & Hv & Hid)]|(r' & vs' & v & Hr' & Hrest)]; [by left| |].
          -- right. exists r, vs, v. split; [by left|done].
          -- right. exists r', vs', v. split; [by right|done].
        * intros [?|(r' & vs' & v & [->|Hr']%elem_of_cons & Hvs' & Hv & Hid)]; [by do 2 left| |].
          -- left. right. exists v. split; [congruence|done].
          -- right. eauto 10. }
  destruct (Hnodes (rs_records rs) [] s (mkDeletion ∅ 0) Hrows) as (s' & acc' & ids & Hrun & Hd & Hids).
  { split; try done; [|constructor|by intros n ?%elem_of_nil]. rewrite Hst. unfold zero_stats. cbn. by rewrite Z.sub_diag. }
  exists s', ids. split_and!; [|apply Hd..|].
  - unfold exec_delete_nodes. run ltac:(exact Hedges). run ltac:(exact Hrun). unfold mret, M_ret.
    rewrite (del_count _ _ _ _ Hd), as_i64_id, of_rows_new, add_record_rows; [done|].
    pose proof (remove_nodes_count ids G (del_nodup _ _ _ _ Hd) (del_present _ _ _ _ Hd)) as Hc.
    unfold is_i64, i64_min, node_count in *. lia.
  - intros n. rewrite Hids. split; [|by right]. intros [Hin|?]; [by apply elem_of_nil in Hin|done].
Qed.
End deleting.

(** ** Expansion along edges *)
Section expanding.
Context `{RocksDBLaws db, BincodeLaws Node, BincodeLaws Edge, BincodeLaws GraphMeta, Bincode Value, Bincode IndexDefinition}.
Context `{Platform, Unicode, DebugFormat, EnvironmentLaws}.
Abbreviation state := (exec_state (db := db)).
Implicit Types (s : state) (G : graph).
Variable graph_id : GraphId.

(** The edges of a direction at a node *)
Definition leads (n : NodeId) (direction : Direction) (e : Edge) : Prop :=
  match direction with
  | Outgoing => edge_source e = n
  | Incoming => edge_target e = n
  | Undirected => edge_source e = n ∨ edge_target e = n
  end.
Definition edge_labels_fit (lf : option Label) G : Prop :=
  (∀ l, lf = Some l → label_fits l) ∧ ∀ e, has_edge G e → label_fits (edge_label e).
Lemma label_matches_fit lf G e : edge_labels_fit lf G → has_edge G e →
  label_matches lf e ↔ ∀ l, lf = Some l → edge_label e = l.
Proof.
  intros [Hl Hfits] He. unfold label_matches. destruct lf as [l|]; [|done]. split.
  - intros Hc l' [= <-]. rewrite !label_cut_fits in Hc by eauto. by apply str_bytes_inj.
  - intros Heq. by rewrite (Heq l).
Qed.
Definition expands G n direction lf e : Prop :=
  has_edge G e ∧ edge_graph_id e = graph_id ∧ leads n direction e ∧ ∀ l, lf = Some l → edge_label e = l.
Lemma expand_edges_run G n direction lf s : represents (storage s) G → edge_labels_fit lf G →
  ∃ edges, expand_edges graph_id n direction lf s = (s, Ok edges) ∧ NoDup edges ∧ ∀ e, e ∈ edges ↔ expands G n direction lf e.
Proof.
  intros HR Hfit. unfold expands, leads.
  destruct (get_outgoing_edges_rep _ _ graph_id n lf HR) as (out & Hout & Hoin & Hos).
  destruct (get_incoming_edges_rep _ _ graph_id n lf HR) as (inc & Hinc & Hiin & His).
  assert (NoDup out ∧ NoDup inc) as [Hndo Hndi].
  { split; [eapply StronglySorted_NoDup, Hos|eapply StronglySorted_NoDup, His]; intros x; apply bytes_lt_irrefl. }
  assert (∀ e, e ∈ out ↔ has_edge G e ∧ edge_graph_id e = graph_id ∧ edge_source e = n ∧ ∀ l, lf = Some l → edge_label e = l) as Ho.
  { intros e. rewrite Hoin. split; intros (He & Hg & Hs & Hl); (split_and!; [done..|by apply (label_matches_fit lf G)]). }
  assert (∀ e, e ∈ inc ↔ has_edge G e ∧ edge_graph_id e = graph_id ∧ edge_target e = n ∧ ∀ l, lf = Some l → edge_label e = l) as Hi.
  { intros e. rewrite Hiin. split; intros (He & Hg & Hs & Hl); (split_and!; [done..|by apply (label_matches_fit lf G)]). }
  destruct direction; cbn [expand_edges].
  - exists out. split; [apply run_reads; exact Hout|done].
  - exists inc. split; [apply run_reads; exact Hinc|done].
  - eexists. split; [run ltac:(apply run_reads; exact Hout); run ltac:(apply run_reads; exact Hinc); reflexivity|].
    assert (∀ e, e ∈ List.filter (λ e, negb (bool_decide (edge_id e ∈ edge_id <$> out))) inc ↔ e ∈ inc ∧ e ∉ out) as Hf.
    { intros e. rewrite list_elem_of_In, filter_In, <- list_elem_of_In, negb_true_iff, bool_decide_eq_false. split.
      - intros [Hin Hno]. split; [done|]. intros Hout'. apply Hno. by apply list_elem_of_fmap_2.
      - intros [Hin Hno]. split; [done|]. intros (f & Heq & Hf)%list_elem_of_fmap. apply Hno.
        assert (e = f) as ->; [|done]. apply Hi in Hin as (He & Hg & _). apply Ho in Hf as (Hf & Hg' & _).
        apply (has_edge_key G); [done..|]. unfold edge_key. congruence. }
    split.
    + apply NoDup_app. split_and!; [done| |].
      * intros e He Hf'. apply Hf in Hf'. tauto.
      * apply NoDup_ListNoDup, List.NoDup_filter, NoDup_ListNoDup. done.
    + intros e. rewrite elem_of_app, Hf, Ho, Hi. destruct (decide (edge_source e = n)); tauto.
Qed.
Lemma traverse_run {A B} (f : A → Executor.M (db := db) B) (g : A → B) l s : (∀ a, a ∈ l → f a s = (s, Ok (g a))) →
  traverse f l s = (s, Ok (g <$> l)).
Proof.
  intros Hf. induction l as [|a l IH]; [done|]. cbn [traverse]. run ltac:(apply Hf; by left).
  run ltac:(apply IH; intros a' Ha'; apply Hf; by right). done.
Qed.
Definition accepts (target_labels : list string) (t : Node) : Prop :=
  target_labels = [] ∨ Exists (λ l, l ∈ node_labels t) target_labels.
#[local] Instance accepts_dec target_labels t : Decision (accepts target_labels t).
Proof. unfold accepts. apply or_dec; [destruct target_labels; [by left|by right]|apply _]. Defined.
Definition target_of G n direction (target_labels : list string) (e : Edge) : option (Edge * Node) :=
  t ← g_nodes G !! (graph_id, expand_target n direction e); if decide (accepts target_labels t) then Some (e, t) else None.
Lemma expand_edge_run G n direction target_labels e s : represents (storage s) G →
  expand_edge graph_id n direction target_labels e s = (s, Ok (target_of G n direction target_labels e)).
Proof.
  intros HR. unfold expand_edge, target_of.
  assert (reads_ok (λ d, get_node d graph_id (expand_target n direction e)) s =
    (s, Ok (g_nodes G !! (graph_id, expand_target n direction e)))) as Hread.
  { unfold reads_ok. rewrite (get_node_rep _ _ _ _ HR). by destruct (g_nodes G !! _). }
  run ltac:(exact Hread). unfold mret, M_ret. do 2 f_equal.
  destruct (g_nodes G !! (graph_id, expand_target n direction e)) as [t|]; [|done]. cbn [mbind option_bind].
  destruct target_labels as [|l ls]; [rewrite decide_True; [done|by left]|].
  assert (existsb (has_label t) (l :: ls) = bool_decide (accepts (l :: ls) t)) as ->.
  { apply eq_true_iff_eq. rewrite existsb_exists, bool_decide_eq_true. unfold accepts, has_label.
    setoid_rewrite bool_decide_eq_true. setoid_rewrite <- list_elem_of_In. rewrite Exists_exists. naive_solver. }
  by case_bool_decide; case_decide.
Qed.

(** C19: Expanding a row is exact: from the node a row stands at, a step -[:L]->(:A|B) leads along each
    edge of that direction and label to its other end, provided that end is stored and has one of
    the labels asked for; each edge once, an edge of a node to itself once even when undirected. *)
Theorem expand_exact s G edge_label direction target_labels record n :
  let lf := if String.eqb edge_label EmptyString then None else Some edge_label in
  represents (storage s) G → edge_labels_fit lf G →
  Record_get (E:=ExecError) record "__node_id" = Ok (Some (Str (Uuid_fmt n))) →
  ∃ found, expand_record graph_id edge_label direction target_labels record s =
      (s, Ok ((λ et, (values record, et.1, et.2)) <$> found)) ∧
    NoDup found ∧ ∀ e t, (e, t) ∈ found ↔ expands G n direction lf e ∧
      g_nodes G !! (graph_id, expand_target n direction e) = Some t ∧ accepts target_labels t.
Proof.
  intros lf HR Hfit Hid. destruct (expand_edges_run G n direction lf s HR Hfit) as (edges & Hrun & Hnd & Hin).
  assert (∀ e p, target_of G n direction target_labels e = Some p →
    p.1 = e ∧ g_nodes G !! (graph_id, expand_target n direction e) = Some p.2 ∧ accepts target_labels p.2) as Ht.
  { intros e [e' t] Ht. unfold target_of in Ht. destruct (g_nodes G !! _) as [t'|]; [|done]. cbn in Ht.
    case_decide; [|done]. by injection Ht as <- <-. }
  exists (omap (target_of G n direction target_labels) edges). split_and!.
  - unfold expand_record. run ltac:(apply run_lift; exact Hid). run ltac:(reflexivity). run ltac:(apply run_parse_id).
    run ltac:(exact Hrun). run ltac:(apply traverse_run; intros e _; by apply expand_edge_run).
    unfold mret, M_ret. do 4 f_equal. clear. induction edges as [|e l IH]; [done|]. cbn.
    destruct (target_of G n direction target_labels e); cbn; by rewrite IH.
  - clear Hrun Hin. induction Hnd as [|e l He _ IH]; [constructor|]. cbn.
    destruct (target_of G n direction target_labels e) as [p|] eqn:Hp; [|done]. constructor; [|done].
    intros (e' & He' & Hp')%list_elem_of_omap. apply Ht in Hp as [Hp _], Hp' as [Hp' _]. congruence.
  - intros e t. rewrite list_elem_of_omap. split.
    + intros (e' & He' & Hp). apply Ht in Hp as (Hp1 & Hp2 & Hp3). cbn in *. subst e'. split_and!; [by apply Hin|done..].
    + intros (He & Hg & Ha). exists e. split; [by apply Hin|]. unfold target_of. rewrite Hg. cbn. by rewrite decide_True.
Qed.
End expanding.

(** ** Programs *)
Section running.
Context `{RocksDBLaws db, BincodeLaws Node, BincodeLaws Edge, BincodeLaws GraphMeta, Bincode Value, Bincode IndexDefinition}.
Context `{Platform, Unicode, DebugFormat, EnvironmentLaws}.
Implicit Types (d : db) (G : graph).

(** [INSERT (v:L1:L2... {p: e, ...})] *)
Definition insert_node_program (variable : option string) (labels : list string) (properties : list (string * Expression))
    : GqlProgram :=
  mkProgram [SInsert (mkInsert [mkPathPattern None None None [PNode (mkNodePattern variable labels properties)] None None])].

Lemma insert_node_run d n G graph_id options variable labels properties : represents d G →
  let id := fresh_uuid n in
  let run := execute_program d n graph_id (insert_node_program variable labels properties) options in
  match evaluate_properties node_set_property properties (foldl add_label (Node_new id graph_id) labels) with
  | Ok x => ∃ d', run = (d', S n, Ok (mkOutput (of_rows ["__node_id"%string] [[Str (Uuid_fmt id)]]) (mkStats 1 0 0 0 0))) ∧
      represents d' (insert_node x G) ∧ node_key x = (graph_id, id) ∧ ∀ l, l ∈ node_labels x ↔ l ∈ labels
  | Err e => run = (d, S n, Err match e with Raised e => Raised (ExecutionFailed (ExecError_fmt e)) | Panic => Panic end)
  end.
Proof.
  intros HR id run.
  assert (run = let '(s, r) := exec_create_node graph_id labels properties (mkState d zero_stats n) in
                (storage s, draws s, (λ rs, mkOutput rs (stats s)) <$> map_raised (λ e, ExecutionFailed (ExecError_fmt e)) r)) as Hrun
    by done.
  pose proof (create_node_run graph_id (mkState d zero_stats n) G labels properties HR) as Hc.
  cbn [draws stats storage] in Hc. fold id in Hc.
  assert (stats_fit (plus_stats zero_stats 1 0 0 0 0)) as Hfit by (unfold stats_fit, is_i64, i64_min, i64_max; cbn; lia).
  specialize (Hc Hfit). cbv zeta in Hc. rewrite Hrun. clear Hrun run.
  destruct (evaluate_properties _ _ _) as [x|e].
  - destruct Hc as (s' & -> & HR' & Hk & Hl & Hst & Hdr). exists (storage s'). rewrite Hst, Hdr. split_and!; done.
  - rewrite Hc. by destruct e.
Qed.

(** C7: INSERT of a node, from the program to the graph. On a database that represents a graph, with
    properties that evaluate, the database then represents the graph with one node more: the
    identifier drawn, the labels as a set, the last value given for each property. The result is
    the identifier, and one node is counted. If a property fails to evaluate, its error is the
    program's and nothing is written. *)
Theorem insert_refines d n G graph_id options variable labels properties : represents d G →
  let id := fresh_uuid n in
  let run := execute_program d n graph_id (insert_node_program variable labels properties) options in
  match evaluate_properties node_set_property properties (foldl add_label (Node_new id graph_id) labels) with
  | Ok x => ∃ d', run = (d', S n, Ok (mkOutput (of_rows ["__node_id"%string] [[Str (Uuid_fmt id)]]) (mkStats 1 0 0 0 0))) ∧
      represents d' (insert_node x G) ∧ node_key x = (graph_id, id) ∧ ∀ l, l ∈ node_labels x ↔ l ∈ labels
  | Err (Raised e) => run = (d, S n, Err (Raised (ExecutionFailed (ExecError_fmt e))))
  | Err Panic => run = (d, S n, Err Panic)
  end.
Proof.
  intros HR id run. pose proof (insert_node_run d n G graph_id options variable labels properties HR) as Hrun. cbv zeta in Hrun.
  fold id in Hrun. destruct (evaluate_properties _ _ _) as [x|[]]; exact Hrun.
Qed.
End running.

(** ** Samples: the finite-map store, UUIDs printed in hexadecimal *)
#[local] Existing Instances countable_bincode countable_bincode_laws dev_build dev_unicode plain_debug.
Definition nibble (c : Ascii.ascii) : Z := let z := chr c in if z <? 97 then z - 48 else z - 87.
Fixpoint hex_decode (s : string) : bytes :=
  match s with
  | String a (String b s') => byte_of_Z (16 * nibble a + nibble b) :: hex_decode s'
  | _ => []
  end.
Lemma hex_decode_encode b : hex_decode (hex_encode b) = b.
Proof.
  unfold hex_encode. induction b as [|c b IH]; [done|].
  transitivity (c :: hex_decode (String.concat EmptyString ((λ c, hex_digit (bval c / 16) +:+ hex_digit (bval c mod 16)) <$> b))).
  - destruct b; by destruct c.
  - by rewrite IH.
Qed.
(** The draws from [first] on are the UUIDs of repeated bytes. *)
Definition sample_env (first : Z) : Environment := {|
  fresh_uuid n := sample_uuid (byte_of_Z (first + Z.of_nat n));
  hash_order _ l := l;
  Uuid_fmt u := hex_encode (uuid_bytes u);
  Uuid_parse s := ok_or "invalid length"%string (uuid_of_bytes (hex_decode s));
  Uuid_new_v5 _ _ := sample_g;
  index_hash := sample_hash;
  StorageError_fmt _ := "storage"
|}.
Lemma sample_env_laws first : @EnvironmentLaws (sample_env first).
Proof. split; [done|]. intros u. cbn. by rewrite hex_decode_encode, uuid_of_bytes_bytes. Qed.
#[local] Instance env1 : Environment := sample_env 1.
#[local] Instance env1_laws : EnvironmentLaws := sample_env_laws 1.
Definition no_options : ExecOptions := mkExecOptions ∅ None None.
Definition age_is (a : Z) : list (string * Expression) := [("age"%string, ELiteral (LInteger a))].
Definition the_node : Node := mkNode (sample_uuid Byte.x05) sample_g ["Person"%string] [("age"%string, Integer 30)].
Lemma insert_refines_witness :
  ∃ d', execute_program sample_graph_db 4 sample_g (insert_node_program None ["Person"%string] (age_is 30)) no_options =
      (d', 5%nat, Ok (mkOutput (of_rows ["__node_id"%string] [[Str "05050505050505050505050505050505"]]) (mkStats 1 0 0 0 0))) ∧
    represents d' (insert_node the_node sample_graph).
Proof.
  destruct (insert_refines sample_graph_db 4 sample_graph sample_g no_options None ["Person"%string] (age_is 30) sample_represents)
    as (d' & Hrun & HR & _).
  exists d'. split; [exact Hrun|exact HR].
Defined.
Lemma sample_labels_fit labels : Forall label_fits labels → labels_fit labels sample_graph.
Proof.
  intros Hl. split; [exact Hl|].
  intros x l [->| ->]%sample_nodes Hin; cbn in Hin; rewrite !elem_of_cons in Hin;
    destruct Hin as [->|Hin]; try destruct Hin as [->|Hin]; try (by apply not_elem_of_nil in Hin);
    apply (bool_decide_unpack _); vm_compute; reflexivity.
Qed.
Lemma label_scan_exact_witness :
  ∃ nodes rs, exec_scan sample_g ["Robot"%string] (Some "n"%string) (mkState sample_graph_db zero_stats 0) =
      (mkState sample_graph_db zero_stats 1, Ok rs) ∧ length (rs_records rs) = length nodes ∧ NoDup nodes ∧
    ∀ x, x ∈ nodes ↔ matching_nodes sample_g sample_graph ["Robot"%string] x.
Proof.
  destruct (label_scan_exact sample_g (mkState sample_graph_db zero_stats 0) sample_graph ["Robot"%string] "n")
    as (nodes & keys & Hrun & Hin & Hnd & _).
  - exact sample_represents.
  - apply sample_labels_fit, Forall_singleton. apply (bool_decide_unpack _). vm_compute. reflexivity.
  - eexists nodes, _. split; [exact Hrun|]. split; [cbn; by rewrite !length_fmap|]. auto.
Defined.
(** The first node, in two rows *)
Definition node_rows_sample : ResultSet :=
  of_rows ["n"; "n.age"]%string (let v := NodeV "01010101010101010101010101010101" ["Person"%string] [] in
    [[v; Integer 7]; [v; Integer 7]]).
Lemma delete_refines_witness :
  ∃ s' ids, exec_delete_nodes sample_g node_rows_sample ["n"%string] false (mkState sample_graph_db zero_stats 0) =
      (s', Ok (of_rows ["deleted"%string] [[Integer (Z.of_nat (length ids))]])) ∧
    represents (storage s') (remove_nodes sample_g ids sample_graph) ∧ NoDup ids.
Proof.
  destruct (delete_refines sample_g (mkState sample_graph_db zero_stats 0) sample_graph node_rows_sample ["n"%string] false)
    as (s' & ids & Hrun & HR & _ & Hnd & _).
  - exact sample_represents.
  - reflexivity.
  - vm_compute. discriminate.
  - vm_compute. discriminate.
  - intros r Hr. cbn in Hr. rewrite !elem_of_cons, elem_of_nil in Hr.
    destruct Hr as [->|[->|[]]]; (eexists; split; [reflexivity|]); repeat constructor;
      (exists (sample_uuid Byte.x01); split; [reflexivity|]); eexists; vm_compute; reflexivity.
  - exists s', ids. auto.
Defined.
(** From the first node, undirected: the edge to the second node and the self-loop *)
Definition at_first : Record_ := mkRecord ["__node_id"]%string [Str "01010101010101010101010101010101"].
Lemma expand_exact_witness :
  ∃ found, expand_record sample_g "KNOWS" Undirected [] at_first (mkState sample_graph_db zero_stats 0) =
      (mkState sample_graph_db zero_stats 0, Ok ((λ et, (values at_first, et.1, et.2)) <$> found)) ∧ NoDup found ∧
    ∀ e t, (e, t) ∈ found ↔ expands sample_g sample_graph (sample_uuid Byte.x01) Undirected (Some "KNOWS"%string) e ∧
      g_nodes sample_graph !! (sample_g, expand_target (sample_uuid Byte.x01) Undirected e) = Some t ∧ accepts [] t.
Proof.
  apply (expand_exact sample_g (mkState sample_graph_db zero_stats 0) sample_graph "KNOWS" Undirected [] at_first (sample_uuid Byte.x01)).
  - exact sample_represents.
  - split; [intros l [= <-]|intros e ->%sample_edges]; apply (bool_decide_unpack _); vm_compute; reflexivity.
  - reflexivity.
Defined.
