(* ===== verification/Service.v ===== *)
(** * Queries as the service runs them (synaptica-server: client_service.rs; state_machine.rs)

    The path of a query from the request to the response: the graph it addresses, the programs
    that go through Raft, execution, and the conversion and chunking of rows; the schema, index
    and import requests; and the applier that runs committed writes. Parsing, and what Raft does
    with a write, are parameters; timing only fills the statistics. *)
From S2P Require Import Prelude Types Rocks Encoding Engine Index LogStore Lexer F64 Text Records Ast Expression Debug Relational Planner Executor Execution.

(** ** Messages (client.proto); a map field is the list of its entries *)
Inductive GqlValue :=
| NullValue (b : bool)
| BoolValue (b : bool)
| IntegerValue (i : Z)
| FloatValue (f : f64)
| StringValue (s : string)
| BytesValue (b : bytes)
| ListValue (items : list GqlValue)
| MapValue (entries : list (string * GqlValue))
| NodeValue (id : string) (labels : list string) (properties : list (string * GqlValue))
| EdgeValue (id label source_id target_id : string) (properties : list (string * GqlValue)).
Record QueryStats := mkQueryStats {
  q_nodes_created : Z; q_nodes_deleted : Z; q_edges_created : Z; q_edges_deleted : Z; q_properties_set : Z;
  rows_returned : Z; execution_time_ms : Z
}.
Record QueryResponse := mkResponse {
  resp_columns : list string;
  resp_rows : list (list GqlValue);
  resp_stats : option QueryStats;
  resp_error : option string
}.
Record QueryRequest := mkRequest { req_query : string; req_graph_name : string }.
Record IndexInfo := mkIndexInfo { ii_name : string; ii_entity_type : string; ii_property_names : list string; ii_is_unique : bool }.
Record CreateIndexRequest := mkCreateIndexRequest {
  cir_graph_name : string; cir_name : string; cir_entity_type : string; cir_property_names : list string; cir_is_unique : bool
}.
Record ImportResponse := mkImportResponse { statements_executed : Z; import_error : option string }.

Definition STREAM_CHUNK_ROWS : nat := 256.
Definition query_error (message : string) : QueryResponse := mkResponse [] [] None (Some message).
Definition query_stats (rows elapsed_ms : Z) (stats : ExecStats) : QueryStats :=
  mkQueryStats (nodes_created stats) (nodes_deleted stats) (edges_created stats) (edges_deleted stats)
    (properties_set stats) rows elapsed_ms.
Definition raft_result_response (elapsed_ms : Z) (result : RaftResponse) : QueryResponse :=
  if success result then
    mkResponse [] [] (Some (mkQueryStats (r_nodes_created result) (r_nodes_deleted result) (r_edges_created result)
      (r_edges_deleted result) (r_properties_set result) (rows_affected result) (Z.max 1 elapsed_ms))) None
  else query_error (default "raft write failed"%string (LogStore.error result)).

(** ** Streaming *)
(** [rows.chunks(size)] for [size > 0] *)
Fixpoint chunks {A} (fuel size : nat) (l : list A) : list (list A) :=
  match fuel, l with
  | S fuel', _ :: _ => take size l :: chunks fuel' size (drop size l)
  | _, _ => []
  end.
Definition chunk_rows (response : QueryResponse) (chunk_size : nat) : list QueryResponse :=
  let chunk_size := Nat.max chunk_size 1 in
  match resp_error response, resp_rows response with
  | None, _ :: _ =>
      let total := length (resp_rows response) in
      imap (λ i chunk,
        mkResponse (resp_columns response) chunk
          (if (total <=? (i + 1) * chunk_size)%nat then resp_stats response else None) None)
        (chunks total chunk_size (resp_rows response))
  | _, _ => [response]
  end.

(** Statements that go through Raft *)
Definition is_write_statement (s : GqlStatement) : bool :=
  match s with
  | SInsert _ | SSet _ | SDelete _ | SRemove _ | SCreateGraph _ | SDropGraph _ | SCreateGraphType _ | SCreateIndex _ | SDropIndex _ => true
  | _ => false
  end.
Definition is_write_query (program : GqlProgram) : bool := existsb is_write_statement (statements program).

Class QueryParser : Type := { parse_query : string → result string GqlProgram }.

Section service.
Context `{RocksDB db, Bincode Node, Bincode Edge, Bincode GraphMeta, Bincode Value, Bincode IndexDefinition}.
Context `{Platform, Unicode, DebugFormat, Environment, QueryParser}.
Implicit Types d : db.

(** ** Values of the wire: dates, times and durations become their texts *)
Fixpoint value_to_proto (v : Value) : GqlValue :=
  let entries := fix entries (m : list (string * Value)) : list (string * GqlValue) :=
    match m with [] => [] | (k, w) :: m' => (k, value_to_proto w) :: entries m' end in
  match v with
  | Null => NullValue true
  | Bool b => BoolValue b
  | Integer i => IntegerValue i
  | Float f => FloatValue f
  | Str s => StringValue s
  | Bytes b => BytesValue b
  | ListV l => ListValue (map value_to_proto l)
  | MapV m => MapValue (entries m)
  | NodeV id labels properties => NodeValue id labels (entries properties)
  | EdgeV id label source_id target_id properties => EdgeValue id label source_id target_id (entries properties)
  | Date _ | Time _ | Timestamp _ | DurationV _ => StringValue (fmt_value v)
  end.

(** ** state_machine.rs on the executor *)
Definition apply_write (d : db) (n : nat) (query graph_name : string) : db * nat * may_panic string RaftResponse :=
  let graph_id := GraphId_from_name Uuid_new_v5 graph_name in
  match parse_query query with
  | Err e => (d, n, Ok (raft_failure ("parse error: " +:+ e)))
  | Ok program =>
      match execute_program d n graph_id program (mkExecOptions ∅ None None) with
      | (d', n', Ok output) =>
          let st := output_stats output in
          (d', n', Ok (mkRaftResponse true None (as_i64 (Z.of_nat (length (rs_records (output_result output)))))
             (nodes_created st) (nodes_deleted st) (edges_created st) (edges_deleted st) (properties_set st)))
      | (d', n', Err (Raised (PlanFailed e))) => (d', n', Ok (raft_failure ("plan error: " +:+ e)))
      | (d', n', Err (Raised (ExecutionFailed e))) => (d', n', Ok (raft_failure ("execution error: " +:+ e)))
      | (d', n', Err Panic) => (d', n', panic)
      end
  end.

(** ** The service: its default graph, and the Raft node of a cluster member *)
Variable default_graph_id : GraphId.
Definition resolve_graph_id (graph_name : string) : GraphId :=
  if String.eqb graph_name EmptyString then default_graph_id else GraphId_from_name Uuid_new_v5 graph_name.
Definition resolve_graph_name (graph_name : string) : string :=
  if String.eqb graph_name EmptyString then Uuid_fmt default_graph_id else graph_name.

Definition execute_local d (n : nat) (program : GqlProgram) (graph_id : GraphId) (elapsed : Z)
    : db * nat * may_panic string QueryResponse :=
  match execute_program d n graph_id program (mkExecOptions ∅ None None) with
  | (d', n', Ok output) =>
      let rs := output_result output in
      (d', n', Ok (mkResponse (rs_columns rs) ((λ r, value_to_proto <$> values r) <$> rs_records rs)
         (Some (query_stats (as_i64 (Z.of_nat (length (rs_records rs)))) (Z.max 1 elapsed) (output_stats output))) None))
  | (d', n', Err (Raised (PlanFailed e))) => (d', n', Ok (query_error ("plan error: " +:+ e)))
  | (d', n', Err (Raised (ExecutionFailed e))) => (d', n', Ok (query_error ("execution error: " +:+ e)))
  | (d', n', Err Panic) => (d', n', panic)
  end.
(** [client_write] is the Raft node's answer to a write of this query to this graph name. *)
Definition dispatch_query (client_write : option (db → nat → string → string → db * nat * may_panic string QueryResponse))
    d (n : nat) (req : QueryRequest) (elapsed : Z) : db * nat * may_panic string QueryResponse :=
  let graph_name := resolve_graph_name (req_graph_name req) in
  let graph_id := resolve_graph_id (req_graph_name req) in
  match parse_query (req_query req) with
  | Err e => (d, n, Ok (query_error ("parse error: " +:+ e)))
  | Ok program =>
      match client_write with
      | Some raft => if is_write_query program then raft d n (req_query req) graph_name else execute_local d n program graph_id elapsed
      | None => execute_local d n program graph_id elapsed
      end
  end.
(** The answer of a single-node Raft cluster, whose log store applies the entry before it answers. *)
Definition single_node_write (elapsed : Z) d (n : nat) (query graph_name : string) : db * nat * may_panic string QueryResponse :=
  let '(d', n', r) := apply_write d n query graph_name in (d', n', raft_result_response elapsed <$> r).

(** ** Schema requests *)
Definition status_internal (e : StorageError) : string := "storage error: " +:+ StorageError_fmt e.
Definition bump (label : string) (counts : gmap string Z) : gmap string Z := <[label := default 0 (counts !! label) + 1]> counts.
(** The outgoing edges of a node; none when reading them fails *)
Definition edges_or_none d (graph_id : GraphId) (node : Node) : list Edge :=
  match get_outgoing_edges d graph_id (node_id node) None with Ok edges => edges | Err _ => [] end.
Definition list_labels d (graph_name : string) : result string (gmap string Z * gmap string Z) :=
  let graph_id := resolve_graph_id graph_name in
  nodes ← map_err status_internal (scan_nodes d graph_id);
  Ok (foldl (λ acc node,
        (foldl (λ m label, bump label m) acc.1 (node_labels node),
         foldl (λ m e, bump (edge_label e) m) acc.2 (edges_or_none d graph_id node))) (∅, ∅) nodes).
Definition schema_entry (label : string) (keys : list string) (m : gmap string (list string * Z)) : gmap string (list string * Z) :=
  let '(seen, count) := default ([], 0) (m !! label) in
  <[label := (foldl (λ s k, btree_set_insert k s) seen keys, count + 1)]> m.
Definition get_schema d (graph_name : string)
    : result string (gmap string (list string * Z) * gmap string (list string * Z)) :=
  let graph_id := resolve_graph_id graph_name in
  nodes ← map_err status_internal (scan_nodes d graph_id);
  Ok (foldl (λ acc node,
        (foldl (λ m label, schema_entry label (fst <$> node_properties node) m) acc.1 (node_labels node),
         foldl (λ m e, schema_entry (edge_label e) (fst <$> edge_properties e) m) acc.2 (edges_or_none d graph_id node)))
      (∅, ∅) nodes).
Definition index_info (def : IndexDefinition) : IndexInfo :=
  mkIndexInfo (idx_name def) (match idx_entity_type def with IndexNode => "node" | IndexEdge => "edge" end)
    (idx_property_names def) (idx_unique def).
Definition rpc_list_indexes d (graph_name : string) : result string (list IndexInfo) :=
  defs ← map_err status_internal (engine_list_indexes d (resolve_graph_id graph_name)); Ok (map index_info defs).
Definition graph_info (m : GraphMeta) : string * string := (meta_name m, Uuid_fmt (meta_id m)).
Definition rpc_list_graphs d : result string (list (string * string)) :=
  metas ← map_err status_internal (list_graphs d); Ok (map graph_info metas).
(** The definition is stored; existing nodes are not indexed. The answer is the error, if any. *)
Definition rpc_create_index d (req : CreateIndexRequest) : db * option string :=
  let graph_id := resolve_graph_id (cir_graph_name req) in
  let create (et : IndexEntityType) :=
    match engine_create_index d (mkIndexDefinition (cir_name req) graph_id et (cir_property_names req) (cir_is_unique req)) with
    | Ok d' => (d', None)
    | Err e => (d, Some (StorageError_fmt e))
    end in
  if String.eqb (cir_entity_type req) "node" then create IndexNode
  else if String.eqb (cir_entity_type req) "edge" then create IndexEdge
  else (d, Some ("unknown entity_type: " +:+ cir_entity_type req)).
Definition rpc_drop_index d (graph_name name : string) : db * option string :=
  match engine_drop_index index_hash d (resolve_graph_id graph_name) name with
  | Ok d' => (d', None)
  | Err e => (d, Some (StorageError_fmt e))
  end.

(** ** Import: each line is a program, run on this node *)
Definition lf : Ascii.ascii := Ascii.ascii_of_nat 10.
Definition cr : Ascii.ascii := Ascii.ascii_of_nat 13.
Fixpoint strip_cr (s : string) : string :=
  match s with
  | String c EmptyString => if Ascii.eqb c cr then EmptyString else s
  | String c s' => String c (strip_cr s')
  | EmptyString => EmptyString
  end.
(** [str::lines]; the line being read is kept *)
Fixpoint lines_from (line s : string) : list string :=
  match s with
  | EmptyString => match line with EmptyString => [] | _ => [line] end
  | String c s' => if Ascii.eqb c lf then strip_cr line :: lines_from EmptyString s' else lines_from (line +:+ String c EmptyString) s'
  end.
Definition is_comment (line : string) : bool :=
  String.eqb line EmptyString || String.prefix "//" line || String.prefix "--" line.
Fixpoint import_lines d (n : nat) (graph_id : GraphId) (lines : list string) (executed : Z)
    : db * nat * may_panic string ImportResponse :=
  let failed (what e : string) := mkImportResponse executed (Some (what +:+ " error at statement " +:+ pretty (executed + 1) +:+ ": " +:+ e)) in
  match lines with
  | [] => (d, n, Ok (mkImportResponse executed None))
  | line :: rest =>
      let line := string_of_chars (trim (chars line)) in
      if is_comment line then import_lines d n graph_id rest executed
      else
        match parse_query line with
        | Err e => (d, n, Ok (failed "parse"%string e))
        | Ok program =>
            match execute_program d n graph_id program (mkExecOptions ∅ None None) with
            | (d', n', Ok _) => import_lines d' n' graph_id rest (executed + 1)
            | (d', n', Err (Raised (PlanFailed e))) => (d', n', Ok (failed "planning"%string e))
            | (d', n', Err (Raised (ExecutionFailed e))) => (d', n', Ok (failed "execution"%string e))
            | (d', n', Err Panic) => (d', n', panic)
            end
        end
  end.
Definition import_graph d (n : nat) (graph_name gql_data : string) : db * nat * may_panic string ImportResponse :=
  import_lines d n (resolve_graph_id graph_name) (lines_from EmptyString gql_data) 0.
End service.

(** ** Chunks *)
Lemma chunks_concat {A} fuel size (l : list A) : (0 < size)%nat → (length l ≤ fuel)%nat → concat (chunks fuel size l) = l.
Proof.
  intros Hs. revert l. induction fuel as [|fuel IH]; intros [|a l] Hl; try (cbn in Hl; lia); try done.
  cbn [chunks concat]. rewrite IH; [apply take_drop|]. rewrite length_drop. cbn in *. lia.
Qed.
Lemma chunks_nth {A} fuel size (l : list A) i c : (0 < size)%nat → (length l ≤ fuel)%nat → chunks fuel size l !! i = Some c →
  c = take size (drop (i * size) l) ∧ (i * size < length l)%nat.
Proof.
  intros Hs. revert l i. induction fuel as [|fuel IH]; intros [|a l] i Hl; try (cbn in Hl; lia); try done.
  cbn [chunks]. destruct i as [|i]; [intros [= <-]; cbn; split; [done|lia]|]. intros Hi.
  apply IH in Hi as [-> Hi]; [|rewrite length_drop; cbn in *; lia]. rewrite length_drop in Hi.
  rewrite drop_drop. split; [do 2 f_equal; lia|lia].
Qed.
Lemma chunks_length {A} fuel size (l : list A) i : (0 < size)%nat → (length l ≤ fuel)%nat → (i * size < length l)%nat →
  is_Some (chunks fuel size l !! i).
Proof.
  intros Hs. revert l i. induction fuel as [|fuel IH]; intros l i Hl Hi; [lia|]. destruct l as [|a l]; [cbn in Hi; lia|].
  cbn [chunks]. destruct i as [|i]; [done|]. apply IH; rewrite length_drop; [cbn in *; lia|lia].
Qed.

(** Streaming loses nothing. The chunks of a response with rows carry its rows, in order and each once;
    every chunk has at least one row and at most the size asked for (a size of 0 counts as 1), repeats
    the columns and is free of errors; the statistics are on the last chunk and on no other. *)
Theorem chunk_rows_exact response size : resp_error response = None → resp_rows response ≠ [] →
  let cs := chunk_rows response size in
  concat (resp_rows <$> cs) = resp_rows response ∧
  (∀ c, c ∈ cs → (0 < length (resp_rows c) ≤ Nat.max size 1)%nat ∧ resp_columns c = resp_columns response ∧ resp_error c = None) ∧
  ∀ i c, cs !! i = Some c → resp_stats c = if decide (S i = length cs) then resp_stats response else None.
Proof.
  intros He Hr cs. unfold cs, chunk_rows. rewrite He. destruct response as [cols rows st err]. cbn in He, Hr |- *.
  destruct rows as [|r rows]; [done|]. set (l := r :: rows). set (sz := Nat.max size 1).
  assert (0 < sz)%nat as Hsz by (unfold sz; lia).
  change (match l with [] => [] | _ :: _ => take sz l :: chunks (length rows) sz (drop sz l) end) with (chunks (length l) sz l).
  set (ck := chunks (length l) sz l). set (f := λ i chunk, mkResponse cols chunk (if (length l <=? (i + 1) * sz)%nat then st else None) None).
  assert (∀ i c, imap f ck !! i = Some c → ∃ chunk, ck !! i = Some chunk ∧ c = f i chunk) as Hf.
  { intros i c. rewrite list_lookup_imap. destruct (ck !! i) as [chunk|]; [|done]. intros [= <-]. eauto. }
  change (concat (resp_rows <$> imap f ck) = l ∧ (∀ c, c ∈ imap f ck → (0 < length (resp_rows c) ≤ sz)%nat ∧ resp_columns c = cols ∧ resp_error c = None) ∧
    ∀ i c, imap f ck !! i = Some c → resp_stats c = if decide (S i = length (imap f ck)) then st else None).
  split_and!.
  - rewrite fmap_imap. transitivity (concat (imap (λ _ c, c) ck)); [done|]. replace (imap (λ _ c, c) ck) with ck; [by apply chunks_concat|].
    apply list_eq. intros i. rewrite list_lookup_imap. by destruct (ck !! i).
  - intros c [i Hc]%list_elem_of_lookup. apply Hf in Hc as (chunk & Hc & ->). split; [|done]. cbn.
    apply chunks_nth in Hc as [-> Hi]; [|done..]. rewrite length_take, length_drop. lia.
  - intros i c Hc. apply Hf in Hc as (chunk & Hc & ->). rewrite length_imap. unfold f. cbn [resp_stats].
    pose proof (chunks_nth _ _ _ _ _ Hsz (Nat.le_refl _) Hc) as [_ Hi].
    destruct (decide (S i = length ck)) as [Hl|Hl]; destruct (Nat.leb_spec (length l) ((i + 1) * sz)) as [Hle|Hle]; try done; exfalso.
    + destruct (chunks_length (length l) sz l (S i) Hsz (Nat.le_refl _)) as [c' Hc']; [lia|].
      apply lookup_lt_Some in Hc'. unfold ck in Hl. lia.
    + apply lookup_lt_Some in Hc. destruct (lookup_lt_is_Some_2 ck (S i)) as [c' Hc']; [lia|].
      apply chunks_nth in Hc' as [_ Hi']; [|done..]. lia.
Qed.

(** ** Where queries run *)
Section dispatching.
Context `{RocksDBLaws db, BincodeLaws Node, BincodeLaws Edge, BincodeLaws GraphMeta, Bincode Value, Bincode IndexDefinition}.
Context `{Platform, Unicode, DebugFormat, EnvironmentLaws, QueryParser}.
Variable default_graph_id : GraphId.
Implicit Types (d : db) (G : graph).

Lemma is_write_update s : is_write_statement s = is_update s.
Proof. by destruct s. Qed.
Lemma read_program_keeps d n program graph_id options : is_write_query program = false →
  ∃ n' r, execute_program d n graph_id program options = (d, n', r) ∧ ∀ o, r = Ok o → output_stats o = zero_stats.
Proof.
  intros Hw. assert (plans false True (plan program)) as Hp.
  { apply plans_program. intros s Hs. split; [by right|]. intros Hu. unfold is_write_query in Hw.
    rewrite <- not_true_iff_false, existsb_exists in Hw. destruct Hw. exists s.
    split; [by apply list_elem_of_In|by rewrite is_write_update]. }
  destruct (plan program) as [p|e] eqn:Hpl; [by apply (execute_program_reads _ _ _ _ _ p)|].
  unfold execute_program. rewrite Hpl. by eexists _, _.
Qed.

(** C22: A program of a cluster member that is not classed as a write stays local and reads only: the Raft
    node is not asked whatever it would answer, the database is as it was, and the statistics of a
    response that is no error count the rows returned and nothing else. So no statement that
    writes is missing from the classification. *)
Theorem reads_stay_local client_write d n req elapsed program :
  parse_query (req_query req) = Ok program → is_write_query program = false →
  let run := dispatch_query default_graph_id client_write d n req elapsed in
  run = dispatch_query default_graph_id None d n req elapsed ∧
  run.1.1 = d ∧
  ∀ response, run.2 = Ok response → resp_error response = None →
    resp_stats response = Some (mkQueryStats 0 0 0 0 0 (as_i64 (Z.of_nat (length (resp_rows response)))) (Z.max 1 elapsed)).
Proof.
  intros Hp Hw run. assert (run = dispatch_query default_graph_id None d n req elapsed) as Hrun.
  { unfold run, dispatch_query. rewrite Hp, Hw. by destruct client_write. }
  split; [exact Hrun|]. rewrite Hrun. clear Hrun run. unfold dispatch_query. rewrite Hp. unfold execute_local.
  destruct (read_program_keeps d n program (resolve_graph_id default_graph_id (req_graph_name req)) (mkExecOptions ∅ None None) Hw)
    as (n' & r & -> & Hst).
  destruct r as [o|[[e|e]|]]; cbn; (split; [done|]); intros response [= <-]; try done. intros _. cbn.
  rewrite length_fmap, (Hst o eq_refl). done.
Qed.

(** The applier on an INSERT of a node whose properties evaluate *)
Definition inserted (n : nat) (graph_id : GraphId) (labels : list string) (properties : list (string * Expression)) : option Node :=
  match evaluate_properties node_set_property properties (foldl add_label (Node_new (fresh_uuid n) graph_id) labels) with
  | Ok x => Some x
  | Err _ => None
  end.
Lemma inserted_run d n G graph_id v labels properties x : represents d G → inserted n graph_id labels properties = Some x →
  node_key x = (graph_id, fresh_uuid n) ∧
  ∃ d' rs, execute_program d n graph_id (insert_node_program v labels properties) (mkExecOptions ∅ None None) =
      (d', S n, Ok (mkOutput rs (mkStats 1 0 0 0 0))) ∧ length (rs_records rs) = 1%nat ∧ represents d' (insert_node x G).
Proof.
  intros HR Hx. pose proof (insert_node_run d n G graph_id (mkExecOptions ∅ None None) v labels properties HR) as Hrun.
  cbv zeta in Hrun. unfold inserted in Hx. destruct (evaluate_properties _ _ _) as [x'|]; [|done]. injection Hx as ->.
  destruct Hrun as (d' & Hrun & HR' & Hk & _). split; [exact Hk|]. eexists d', _. split; [exact Hrun|]. done.
Qed.
Lemma applied_insert d n G query name v labels properties x : represents d G →
  parse_query query = Ok (insert_node_program v labels properties) →
  inserted n (GraphId_from_name Uuid_new_v5 name) labels properties = Some x →
  ∃ d', apply_write d n query name = (d', S n, Ok (mkRaftResponse true None 1 1 0 0 0 0)) ∧ represents d' (insert_node x G) ∧
    node_key x = (GraphId_from_name Uuid_new_v5 name, fresh_uuid n).
Proof.
  intros HR Hp Hx. destruct (inserted_run d n G _ v labels properties x HR Hx) as (Hk & d' & rs & Hrun & Hl & HR').
  exists d'. split_and!; [|done|done]. unfold apply_write. rewrite Hp, Hrun. cbn. by rewrite Hl.
Qed.

(** An INSERT that leaves the graph name empty addresses two graphs. A standalone server creates the
    node in its default graph; a member of a cluster submits the printed id of that graph as the
    name, the applier takes the UUID of this text, and the node is created in the graph of that UUID,
    where the reads of the same server with an empty name do not look. Both answers report one node. *)
Theorem default_graph_split d n G query elapsed v labels properties x y :
  let split_id := GraphId_from_name Uuid_new_v5 (Uuid_fmt default_graph_id) in
  let req := mkRequest query EmptyString in
  represents d G → parse_query query = Ok (insert_node_program v labels properties) →
  inserted n default_graph_id labels properties = Some x → inserted n split_id labels properties = Some y →
  ∃ d1 d2 r1 r2,
    dispatch_query default_graph_id None d n req elapsed = (d1, S n, Ok r1) ∧
    dispatch_query default_graph_id (Some (single_node_write elapsed)) d n req elapsed = (d2, S n, Ok r2) ∧
    represents d1 (insert_node x G) ∧ represents d2 (insert_node y G) ∧
    node_graph_id x = default_graph_id ∧ node_graph_id y = split_id ∧
    resp_stats r1 = resp_stats r2 ∧ resp_error r1 = None ∧ resp_error r2 = None.
Proof.
  intros split_id req HR Hp Hx Hy.
  destruct (inserted_run d n G _ v labels properties x HR Hx) as (Hk & d1 & rs & Hrun & Hl & HR1).
  destruct (applied_insert d n G query (Uuid_fmt default_graph_id) v labels properties y HR Hp Hy) as (d2 & Happ & HR2 & Hk2).
  injection Hk as Hkx _. injection Hk2 as Hky _. unfold dispatch_query. cbn [req_query req req_graph_name]. rewrite Hp.
  eexists d1, d2, _, _. split_and!; [| |exact HR1|exact HR2|exact Hkx|exact Hky|..].
  - unfold execute_local. change (resolve_graph_id default_graph_id EmptyString) with default_graph_id. rewrite Hrun. reflexivity.
  - change (is_write_query _) with true. change (resolve_graph_name default_graph_id EmptyString) with (Uuid_fmt default_graph_id).
    cbv iota. unfold single_node_write. rewrite Happ. reflexivity.
  - cbn. by rewrite Hl.
  - done.
  - done.
Qed.

(** C38: Replicas that apply the same entry to equal databases may end with different ones. INSERT draws
    the new node's UUID where it is applied, so two replicas whose random draws differ answer alike,
    yet each stores a node the other does not have. *)
Theorem replicas_diverge d n m G query name v labels properties x y :
  let graph_id := GraphId_from_name Uuid_new_v5 name in
  represents d G → parse_query query = Ok (insert_node_program v labels properties) →
  inserted n graph_id labels properties = Some x → inserted m graph_id labels properties = Some y →
  fresh_uuid n ≠ fresh_uuid m → g_nodes G !! (graph_id, fresh_uuid n) = None →
  ∃ d1 d2 response,
    apply_write d n query name = (d1, S n, Ok response) ∧ apply_write d m query name = (d2, S m, Ok response) ∧
    success response = true ∧
    get_node d1 graph_id (fresh_uuid n) = Ok x ∧ get_node d2 graph_id (fresh_uuid n) = Err SNotFound.
Proof.
  intros graph_id HR Hp Hx Hy Hne Hfresh.
  destruct (applied_insert d n G query name v labels properties x HR Hp Hx) as (d1 & Hrun1 & HR1 & Hk1).
  destruct (applied_insert d m G query name v labels properties y HR Hp Hy) as (d2 & Hrun2 & HR2 & Hk2).
  eexists d1, d2, _. split_and!; [exact Hrun1|exact Hrun2|done| |].
  - rewrite (get_node_rep _ _ _ _ HR1). cbn. fold graph_id in Hk1. rewrite Hk1, lookup_insert_eq. done.
  - rewrite (get_node_rep _ _ _ _ HR2). cbn. fold graph_id in Hk2. rewrite Hk2, lookup_insert_ne; [exact (f_equal (ok_or SNotFound) Hfresh)|congruence].
Qed.
End dispatching.

(** ** Samples: a parser that knows one INSERT and one query *)
#[local] Existing Instances countable_bincode countable_bincode_laws dev_build dev_unicode plain_debug env1 env1_laws.
Definition insert_person : GqlProgram := insert_node_program None ["Person"%string] (age_is 30).
(** MATCH (n:Person) WHERE n.age = 30 RETURN n.age *)
Definition persons_of_age (label : string) (age : Z) : GqlProgram := mkProgram [
  SMatch (mkMatch None false (mkGraphPattern [mkPathPattern None None None [PNode (mkNodePattern (Some "n"%string) [label] [])] None None] None)
    (Some (mkWhere (EBinaryOp (EPropertyAccess (EIdentifier "n") "age") OpEq (ELiteral (LInteger age))))) None None);
  SReturn (mkReturn false [mkReturnItem (EPropertyAccess (EIdentifier "n") "age") None] None None None None)].
#[local] Instance sample_parser : QueryParser := {|
  parse_query q := if String.eqb q "insert" then Ok insert_person
                   else if String.eqb q "query" then Ok (persons_of_age "Person" 30) else Err "syntax"%string
|}.
Definition insert_robot : GqlProgram := insert_node_program None ["Robot"%string] (age_is 30).
(** A person and a robot, both of age 30 *)
Definition two_nodes : MemDB :=
  (execute_program (execute_program empty_db 0 sample_g insert_person no_options).1.1 1 sample_g insert_robot no_options).1.1.
Definition rows_found (d : MemDB) (program : GqlProgram) : option nat :=
  match (execute_program d 9 sample_g program no_options).2 with Ok o => Some (length (rs_records (output_result o))) | Err _ => None end.
Definition create_index_statement (label : option string) : GqlProgram :=
  mkProgram [SCreateIndex (mkCreateIndex "by_age" false "node" label ["age"%string] false)].
Definition index_request : CreateIndexRequest := mkCreateIndexRequest EmptyString "by_age" "node" ["age"%string] false.

(** Creating an index changes the answers of queries. The index request of the service stores the
    definition only, so the query that found a person and a robot of age 30 finds neither afterwards,
    since the optimizer turns it into a scan of the empty index. CREATE INDEX on a label indexes the
    nodes with this label only, while the scan is used for every label: the robot is lost. On a label
    that is left out it indexes all nodes, and the answers are as before. *)
Example indexes_hide_nodes :
  let found d := (rows_found d (persons_of_age "Person" 30), rows_found d (persons_of_age "Robot" 30)) in
  let run label := (execute_program two_nodes 9 sample_g (create_index_statement label) no_options).1.1 in
  found two_nodes = (Some 1%nat, Some 1%nat) ∧
  (rpc_create_index sample_g two_nodes index_request).2 = None ∧
  found (rpc_create_index sample_g two_nodes index_request).1 = (Some 0%nat, Some 0%nat) ∧
  found (run (Some "Person"%string)) = (Some 1%nat, Some 0%nat) ∧
  found (run None) = (Some 1%nat, Some 1%nat).
Proof. cbv zeta. split_and!; vm_compute; reflexivity. Qed.

Definition three_rows : QueryResponse :=
  mkResponse ["n"%string] [[IntegerValue 1]; [IntegerValue 2]; [IntegerValue 3]] (Some (mkQueryStats 0 0 0 0 0 3 1)) None.
Lemma chunk_rows_exact_witness :
  concat (resp_rows <$> chunk_rows three_rows 2) = resp_rows three_rows ∧ length (chunk_rows three_rows 2) = 2%nat.
Proof. split; [|reflexivity]. apply (chunk_rows_exact three_rows 2); [reflexivity|discriminate]. Defined.
Lemma reads_stay_local_witness :
  (dispatch_query sample_g (Some (single_node_write 5)) sample_graph_db 0 (mkRequest "query" EmptyString) 5).1.1 = sample_graph_db.
Proof.
  destruct (reads_stay_local sample_g (Some (single_node_write 5)) sample_graph_db 0 (mkRequest "query" EmptyString) 5
    (persons_of_age "Person" 30)) as (_ & Hd & _); [reflexivity|reflexivity|exact Hd].
Defined.
Definition other_graph : GraphId := sample_uuid Byte.x0b.
Lemma default_graph_split_witness :
  ∃ d1 d2 r1 r2,
    dispatch_query other_graph None sample_graph_db 4 (mkRequest "insert" EmptyString) 1 = (d1, 5%nat, Ok r1) ∧
    dispatch_query other_graph (Some (single_node_write 1)) sample_graph_db 4 (mkRequest "insert" EmptyString) 1 = (d2, 5%nat, Ok r2) ∧
    represents d1 (insert_node (mkNode (sample_uuid Byte.x05) other_graph ["Person"%string] [("age"%string, Integer 30)]) sample_graph) ∧
    represents d2 (insert_node the_node sample_graph) ∧ resp_stats r1 = resp_stats r2.
Proof.
  destruct (default_graph_split other_graph sample_graph_db 4 sample_graph "insert" 1 None ["Person"%string] (age_is 30)
    (mkNode (sample_uuid Byte.x05) other_graph ["Person"%string] [("age"%string, Integer 30)]) the_node)
    as (d1 & d2 & r1 & r2 & H1 & H2 & HR1 & HR2 & _ & _ & Hst & _).
  - exact sample_represents.
  - reflexivity.
  - reflexivity.
  - reflexivity.
  - exists d1, d2, r1, r2. split_and!; assumption.
Defined.
Lemma replicas_diverge_witness :
  ∃ d1 d2 response,
    apply_write sample_graph_db 4 "insert" "default" = (d1, 5%nat, Ok response) ∧
    apply_write sample_graph_db 5 "insert" "default" = (d2, 6%nat, Ok response) ∧
    get_node d1 sample_g (sample_uuid Byte.x05) = Ok the_node ∧ get_node d2 sample_g (sample_uuid Byte.x05) = Err SNotFound.
Proof.
  destruct (replicas_diverge sample_graph_db 4 5 sample_graph "insert" "default" None ["Person"%string] (age_is 30)
    the_node (mkNode (sample_uuid Byte.x06) sample_g ["Person"%string] [("age"%string, Integer 30)]))
    as (d1 & d2 & response & H1 & H2 & _ & H3 & H4).
  - exact sample_represents.
  - reflexivity.
  - reflexivity.
  - reflexivity.
  - vm_compute. discriminate.
  - vm_compute. reflexivity.
  - exists d1, d2, response. split_and!; assumption.
Defined.
