(* ===== verification/Parser.v ===== *)
(** * The parser of the query language (synaptica-gql: parser.rs)

    Recursive descent over the tokens of the lexer, a computation per method. A computation reads
    the parser (tokens, position, nesting depth) and yields a value and the parser after it, or a
    [ParseError]. The methods call each other through [parse_expression] and [parse_statement]; the
    definitions take these two as variables and the last section ties the knot on fuel, which with
    the fuel of the loops is one more than the number of tokens left. [Starved] is proved never
    to occur (in [Parsing.v]). *)
From S2P Require Import Prelude Types Lexer F64 Text Ast Debug.

(** ** Errors *)
Record ParseError := mkParseError { pe_message : string; pe_line : nat; pe_column : nat }.
Definition ParseError_fmt (e : ParseError) : string :=
  "Parse error at " +:+ pretty (pe_line e) +:+ ":" +:+ pretty (pe_column e) +:+ ": " +:+ pe_message e.

(** The name of a token's variant, and its debug text *)
Definition variant_name (t : Token) : string :=
  match t with
  | TMatch => "Match" | TWhere => "Where" | TReturn => "Return" | TCreate => "Create" | TInsert => "Insert"
  | TDelete => "Delete" | TSet => "Set" | TRemove => "Remove" | TDrop => "Drop" | TGraph => "Graph" | TType => "Type"
  | TNode => "Node" | TEdge => "Edge" | TTrue => "True" | TFalse => "False" | TNull => "Null" | TNot => "Not"
  | TAnd => "And" | TOr => "Or" | TXor => "Xor" | TIs => "Is" | TIn => "In" | TLike => "Like" | TAs => "As" | TBy => "By"
  | TOrder => "Order" | TAsc => "Asc" | TDesc => "Desc" | TLimit => "Limit" | TOffset => "Offset" | TGroup => "Group"
  | THaving => "Having" | TWith => "With" | TLet => "Let" | TFor => "For" | TFilter => "Filter" | TCall => "Call"
  | TYield => "Yield" | TOptional => "Optional" | TMandatory => "Mandatory" | TExists => "Exists" | TCase => "Case"
  | TWhen => "When" | TThen => "Then" | TElse => "Else" | TEnd => "End" | TUnion => "Union" | TIntersect => "Intersect"
  | TExcept => "Except" | TAll => "All" | TDistinct => "Distinct" | TCount => "Count" | TSum => "Sum" | TAvg => "Avg"
  | TMin => "Min" | TMax => "Max" | TCollect => "Collect" | TWalk => "Walk" | TTrail => "Trail" | TSimple => "Simple"
  | TAcyclic => "Acyclic" | TShortest => "Shortest" | TPath => "Path" | TAny => "Any" | TCommit => "Commit"
  | TRollback => "Rollback" | TBegin => "Begin" | TIf => "If" | TDetach => "Detach" | TNodetach => "Nodetach"
  | TCost => "Cost" | TOf => "Of" | TTo => "To" | TFrom => "From" | TIndex => "Index" | TUnique => "Unique" | TOn => "On"
  | TList => "List" | TIntegerLit _ => "IntegerLit" | TFloatLit _ => "FloatLit" | TStringLit _ => "StringLit"
  | TBoolLit _ => "BoolLit" | TNullLit => "NullLit" | TIdent _ => "Ident" | TParameter _ => "Parameter" | TPlus => "Plus"
  | TMinus => "Minus" | TStar => "Star" | TSlash => "Slash" | TPercent => "Percent" | TEq => "Eq" | TNeq => "Neq"
  | TLt => "Lt" | TGt => "Gt" | TLe => "Le" | TGe => "Ge" | TDoublePipe => "DoublePipe" | TDot => "Dot"
  | TDoubleDot => "DoubleDot" | TArrow => "Arrow" | TLeftArrow => "LeftArrow" | TTilde => "Tilde" | TLParen => "LParen"
  | TRParen => "RParen" | TLBracket => "LBracket" | TRBracket => "RBracket" | TLBrace => "LBrace" | TRBrace => "RBrace"
  | TComma => "Comma" | TColon => "Colon" | TSemicolon => "Semicolon" | TAt => "At" | TEof => "Eof" | TComment _ => "Comment"
  end.
Definition Token_debug `{DebugFormat} (t : Token) : string :=
  let field text := variant_name t +:+ "(" +:+ text +:+ ")" in
  match t with
  | TIntegerLit z => field (pretty z)
  | TFloatLit bits => field (f64_debug bits)
  | TStringLit s | TIdent s | TParameter s | TComment s => field (str_debug (string_of_chars s))
  | TBoolLit b => field (if b then "true" else "false")%string
  | _ => variant_name t
  end.

(** ** The parser and its computations *)
Definition MAX_EXPR_DEPTH : nat := 256.
Record Parser := mkParser { tokens : list SpannedToken; pos : nat; depth : nat }.
Definition is_comment_token (st : SpannedToken) : bool := match token st with TComment _ => true | _ => false end.
Definition Parser_new (tokens : list SpannedToken) : Parser :=
  mkParser (List.filter (λ st, negb (is_comment_token st)) tokens) 0 0.

Inductive parsed (A : Type) : Type :=
| Parsed (a : A) (p : Parser)
| Failed (e : ParseError)
| Starved.
Arguments Parsed {A} a p.
Arguments Failed {A} e.
Arguments Starved {A}.
Definition P (A : Type) : Type := Parser → parsed A.
#[export] Instance P_ret : MRet P := λ A a p, Parsed a p.
#[export] Instance P_bind : MBind P := λ A B f m p,
  match m p with Parsed a p' => f a p' | Failed e => Failed e | Starved => Starved end.

Definition peek (p : Parser) : Token := match tokens p !! pos p with Some st => token st | None => TEof end.
Definition peek_span (p : Parser) : Span := match tokens p !! pos p with Some st => span st | None => mkSpan 0 0 0 end.
Definition peek_at (p : Parser) (offset : nat) : option Token := token <$> tokens p !! (pos p + offset)%nat.
Definition at_end (p : Parser) : bool := bool_decide (peek p = TEof).
Definition advance (p : Parser) : Parser := if at_end p then p else mkParser (tokens p) (S (pos p)) (depth p).
Definition error {A} (message : string) : P A := λ p,
  Failed (mkParseError message (sp_line (peek_span p)) (sp_column (peek_span p))).
(** [self.peek()] and [self.advance()] as computations *)
Definition look : P Token := λ p, Parsed (peek p) p.
Definition next : P unit := λ p, Parsed tt (advance p).
Definition match_token (expected : Token) : P bool :=
  t ← look; if decide (t = expected) then _ ← next; mret true else mret false.

(** A loop runs at most once more than there are tokens left. *)
Definition left (p : Parser) : nat := length (tokens p) - pos p.
Fixpoint iterate_n {A} (n : nat) (body : A → P (option A)) (a : A) (p : Parser) : parsed A :=
  match n with
  | O => Starved
  | S n' => (o ← body a; match o with Some a' => iterate_n n' body a' | None => mret a end) p
  end.
Definition iterate {A} (body : A → P (option A)) (a : A) : P A := λ p, iterate_n (S (left p)) body a p.
(** [while self.match_token(t) { l.push(item()?) }] *)
Definition while_match {A} (t : Token) (item : P A) : list A → P (list A) :=
  iterate (λ l, b ← match_token t; if b : bool then a ← item; mret (Some (l ++ [a])) else mret None).
Definition comma_separated {A} (item : P A) : P (list A) := a ← item; while_match TComma item [a].
(** [if self.peek() == t { Some(m()?) } else { None }] *)
Definition when_token {A} (t : Token) (m : P A) : P (option A) :=
  u ← look; if decide (u = t) then a ← m; mret (Some a) else mret None.
(** The same after consuming the token *)
Definition after_token {A} (t : Token) (m : P A) : P (option A) :=
  b ← match_token t; if b : bool then a ← m; mret (Some a) else mret None.

Section parser.
Context `{Unicode, DebugFormat}.

(** [Err(self.error(format!(..., found {:?}, self.peek())))] *)
Definition error_found {A} (what : string) : P A := λ p, error (what +:+ Token_debug (peek p)) p.
Definition expect (expected : Token) : P unit :=
  b ← match_token expected;
  if b : bool then mret tt else error_found ("expected " +:+ Token_debug expected +:+ ", found ").
Definition enter_depth : P unit := λ p,
  let p := mkParser (tokens p) (pos p) (S (depth p)) in
  if (MAX_EXPR_DEPTH <? depth p)%nat then error "expression nesting depth exceeded" p else Parsed tt p.
Definition exit_depth : P unit := λ p, Parsed tt (mkParser (tokens p) (pos p) (pred (depth p))).
Definition lookahead_is_lparen (p : Parser) : bool := bool_decide (peek_at p 1 = Some TLParen).
Definition keyword_to_string (t : Token) : string :=
  match t with
  | TType => "type" | TCount => "count" | TSum => "sum" | TAvg => "avg" | TMin => "min" | TMax => "max"
  | TCollect => "collect"
  | _ => to_lowercase (Token_debug t)
  end.
Definition expect_ident : P string :=
  t ← look;
  match t with TIdent name => _ ← next; mret (string_of_chars name) | _ => error_found "expected identifier, found " end.
Definition keyword_name (t : Token) : option string :=
  match t with
  | TMatch => Some "match" | TReturn => Some "return" | TWhere => Some "where" | TInsert => Some "insert"
  | TCreate => Some "create" | TSet => Some "set" | TDelete => Some "delete" | TDetach => Some "detach"
  | TRemove => Some "remove" | TDrop => Some "drop" | TWith => Some "with" | TOrder => Some "order" | TBy => Some "by"
  | TLimit => Some "limit" | TOffset => Some "offset" | TAsc => Some "asc" | TDesc => Some "desc"
  | TDistinct => Some "distinct" | TAs => Some "as" | TAnd => Some "and" | TOr => Some "or" | TNot => Some "not"
  | TXor => Some "xor" | TIs => Some "is" | TNull => Some "null" | TTrue => Some "true" | TFalse => Some "false"
  | TIn => Some "in" | TExists => Some "exists" | TCase => Some "case" | TWhen => Some "when" | TThen => Some "then"
  | TElse => Some "else" | TEnd => Some "end" | TUnion => Some "union" | TAll => Some "all"
  | TOptional => Some "optional" | TCall => Some "call" | TYield => Some "yield" | TLike => Some "like"
  | TNode => Some "node" | TEdge => Some "edge" | TGraph => Some "graph" | TType => Some "type" | TGroup => Some "group"
  | THaving => Some "having" | TLet => Some "let" | TFor => Some "for" | TFilter => Some "filter"
  | TCount => Some "count" | TSum => Some "sum" | TAvg => Some "avg" | TMin => Some "min" | TMax => Some "max"
  | TCollect => Some "collect" | TPath => Some "path" | TCost => Some "cost" | TFrom => Some "from" | TTo => Some "to"
  | _ => None
  end%string.
Definition expect_ident_or_keyword : P string :=
  t ← look;
  match t with
  | TIdent name => _ ← next; mret (string_of_chars name)
  | _ =>
      match keyword_name t with
      | Some name => _ ← next; mret name
      | None => error_found "expected identifier, found "
      end
  end.
(** [if self.peek() != close { first; , more }; self.expect(close)] *)
Definition list_until {A} (close : Token) (item : P A) : P (list A) :=
  t ← look;
  items ← (if decide (t = close) then mret [] else comma_separated item);
  _ ← expect close; mret items.

(** ** Graph types *)
Definition parse_if_not_exists : P bool :=
  b ← match_token TIf; if b : bool then _ ← expect TNot; _ ← expect TExists; mret true else mret false.
Definition parse_if_exists : P bool :=
  b ← match_token TIf; if b : bool then _ ← expect TExists; mret true else mret false.
Definition parse_property_decl : P PropertyDecl :=
  name ← expect_ident;
  _ ← expect TColon;
  property_type ← expect_ident;
  b ← match_token TNot;
  required ← (if b : bool then _ ← expect TNull; mret true else mret false);
  _ ← match_token TComma;
  mret (mkPropertyDecl name property_type required).
(** [while self.peek() != RBrace && !self.at_end()] *)
Definition until_rbrace {A} (body : A → P A) : A → P A :=
  iterate (λ a, t ← look; if decide (t = TRBrace ∨ t = TEof) then mret None else a' ← body a; mret (Some a')).
Definition parse_property_decls : P (list PropertyDecl) :=
  _ ← expect TLBrace;
  props ← until_rbrace (λ props, decl ← parse_property_decl; mret (props ++ [decl])) [];
  _ ← expect TRBrace; mret props.
Definition optional_decls : P (list PropertyDecl) := o ← when_token TLBrace parse_property_decls; mret (default [] o).
Definition parse_node_type_decl : P NodeType :=
  labels ← while_match TColon expect_ident [];
  properties ← optional_decls;
  mret (mkNodeType labels properties).
Definition endpoint (t : Token) : P (list string) :=
  o ← after_token t expect_ident; mret (match o with Some s => [s] | None => [] end).
Definition parse_edge_type_decl : P EdgeType :=
  labels ← while_match TColon expect_ident [];
  source ← endpoint TFrom;
  destination ← endpoint TTo;
  properties ← optional_decls;
  mret (mkEdgeType labels source destination Outgoing properties).
Definition parse_graph_type_def : P GraphType :=
  _ ← expect TLBrace;
  types ← until_rbrace (λ types : list NodeType * list EdgeType,
    t ← look;
    types ← match t with
            | TNode => _ ← next; decl ← parse_node_type_decl; mret (types.1 ++ [decl], types.2)
            | TEdge => _ ← next; decl ← parse_edge_type_decl; mret (types.1, types.2 ++ [decl])
            | _ => error "expected NODE or EDGE in graph type"
            end;
    _ ← match_token TComma;
    mret types) ([], []);
  _ ← expect TRBrace;
  mret (mkGraphType types.1 types.2).

(** ** Data definition *)
Definition parse_create_graph_rest : P GqlStatement :=
  if_not_exists ← parse_if_not_exists;
  name ← expect_ident;
  graph_type ← when_token TLBrace parse_graph_type_def;
  mret (SCreateGraph (mkCreateGraph name if_not_exists graph_type)).
Definition parse_create_graph_type_rest : P GqlStatement :=
  if_not_exists ← parse_if_not_exists;
  name ← expect_ident;
  graph_type ← parse_graph_type_def;
  mret (SCreateGraphType (mkCreateGraphType name if_not_exists graph_type)).
(** "v.prop" or "prop" *)
Definition parse_index_property : P string :=
  first ← expect_ident_or_keyword;
  o ← after_token TDot expect_ident_or_keyword;
  mret (default first o).
Definition parse_create_index_rest : P GqlStatement :=
  unique ← match_token TUnique;
  _ ← expect TIndex;
  if_not_exists ← parse_if_not_exists;
  name ← expect_ident_or_keyword;
  _ ← expect TFor;
  _ ← expect TLParen;
  _ ← expect_ident_or_keyword;
  label ← after_token TColon expect_ident_or_keyword;
  _ ← expect TRParen;
  _ ← expect TOn;
  _ ← expect TLParen;
  property_names ← comma_separated parse_index_property;
  _ ← expect TRParen;
  mret (SCreateIndex (mkCreateIndex name unique "node" label property_names if_not_exists)).
Definition parse_create_statement : P GqlStatement :=
  _ ← expect TCreate;
  t ← look;
  match t with
  | TUnique | TIndex => parse_create_index_rest
  | TGraph =>
      _ ← next;
      b ← match_token TType;
      if b : bool then parse_create_graph_type_rest else parse_create_graph_rest
  | _ => error_found "expected GRAPH, INDEX, or UNIQUE after CREATE, found "
  end.
Definition parse_drop_statement : P GqlStatement :=
  _ ← expect TDrop;
  t ← look;
  match t with
  | TIndex => _ ← next; if_exists ← parse_if_exists; name ← expect_ident_or_keyword; mret (SDropIndex (mkDropIndex name if_exists))
  | TGraph => _ ← next; if_exists ← parse_if_exists; name ← expect_ident; mret (SDropGraph (mkDropGraph name if_exists))
  | _ => error_found "expected GRAPH or INDEX after DROP, found "
  end.
(** [s.eq_ignore_ascii_case(word)] *)
Definition is_word (s : text) (word : string) : bool := bool_decide (to_ascii_uppercase s = to_ascii_uppercase (chars_of word)).
Definition parse_list_statement : P GqlStatement :=
  _ ← expect TList;
  t ← look;
  match t with
  | TGraph =>
      _ ← next;
      u ← look;
      _ ← match u with TIdent s => if is_word s "s" || is_word s "graphs" then next else mret tt | _ => mret tt end;
      mret SListGraphs
  | TIdent s => if is_word s "GRAPHS" then _ ← next; mret SListGraphs else error_found "expected GRAPHS after LIST, found "
  | _ => error_found "expected GRAPHS after LIST, found "
  end.

(** ** Patterns without expressions *)
Definition parse_optional_path_mode : P (option PathMode) :=
  t ← look;
  match t with
  | TWalk => _ ← next; mret (Some Walk)
  | TTrail => _ ← next; mret (Some Trail)
  | TSimple => _ ← next; mret (Some Simple)
  | TAcyclic => _ ← next; mret (Some Acyclic)
  | _ => mret None
  end.
Definition parse_bound (what : string) : P (option Z) :=
  t ← look;
  match t with
  | TIntegerLit n =>
      _ ← next; if n <? 0 then error ("quantifier " +:+ what +:+ " must be non-negative") else mret (Some n)
  | _ => mret None
  end.
Definition check_bounds (min max : option Z) : P unit :=
  match min, max with
  | Some min_val, Some max_val =>
      if max_val <? min_val then
        error ("invalid quantifier: max (" +:+ pretty max_val +:+ ") cannot be less than min (" +:+ pretty min_val +:+ ")")
      else mret tt
  | _, _ => mret tt
  end.
Definition quantifier_body : P (option Quantifier) :=
  _ ← next;
  min ← parse_bound "min";
  comma ← match_token TComma;
  max ← (if comma : bool then parse_bound "max" else mret min);
  _ ← check_bounds min max;
  _ ← expect TRBrace;
  mret (Some (mkQuantifier min max)).
Definition parse_optional_quantifier : P (option Quantifier) := λ p,
  match peek p, peek_at p 1 with
  | TLBrace, Some (TIntegerLit _) | TLBrace, Some TComma => quantifier_body p
  | _, _ => Parsed None p
  end.
(** The variable of a pattern: an identifier followed by one of [stops] *)
Definition pattern_variable (stops : list Token) : P (option string) := λ p,
  match peek p, peek_at p 1 with
  | TIdent _, Some t => if decide (t ∈ stops) then (name ← expect_ident; mret (Some name)) p else Parsed None p
  | _, _ => Parsed None p
  end.
Definition parse_target_expr : P Expression :=
  name ← expect_ident;
  iterate (λ expr, b ← match_token TDot;
                   if b : bool then prop ← expect_ident_or_keyword; mret (Some (EPropertyAccess expr prop)) else mret None)
    (EIdentifier name).
Definition is_edge_start (p : Parser) : bool :=
  match peek p with
  | TLeftArrow | TArrow => true
  | TMinus => match peek_at p 1 with Some TLBracket => true | _ => false end
  | _ => false
  end.
End parser.

(** ** Expressions

    [parse_expression] and [parse_statement] below stand for the calls of these methods. *)
Section expressions.
Context `{Unicode, DebugFormat}.
Variable parse_expression : P Expression.
Variable parse_statement : P GqlStatement.

Definition key_value (key : P string) : P (string * Expression) :=
  k ← key; _ ← expect TColon; value ← parse_expression; mret (k, value).
Definition parse_property_map : P (list (string * Expression)) :=
  _ ← expect TLBrace; list_until TRBrace (key_value expect_ident_or_keyword).
Definition parse_aggregate (function : AggregateFunction) : P Expression :=
  _ ← next;
  _ ← expect TLParen;
  star ← match_token TStar;
  if star : bool then _ ← expect TRParen; mret (EAggregate function false None)
  else
    distinct ← match_token TDistinct;
    t ← look;
    arg ← (if decide (t = TRParen) then mret None else e ← parse_expression; mret (Some e));
    _ ← expect TRParen;
    mret (EAggregate function distinct arg).
Definition when_clause : P (Expression * Expression) :=
  condition ← parse_expression; _ ← expect TThen; result ← parse_expression; mret (condition, result).
Definition parse_case_expression : P Expression :=
  _ ← expect TCase;
  t ← look;
  operand ← (if decide (t = TWhen) then mret None else e ← parse_expression; mret (Some e));
  when_clauses ← while_match TWhen when_clause [];
  else_clause ← after_token TElse parse_expression;
  _ ← expect TEnd;
  mret (ECase operand when_clauses else_clause).
(** A name, and a call when a parenthesis follows *)
Definition name_or_call (name : string) : P Expression :=
  _ ← next;
  o ← after_token TLParen (list_until TRParen parse_expression);
  mret (match o with Some args => EFunctionCall name args | None => EIdentifier name end).
Definition aggregate_keyword (t : Token) : option AggregateFunction :=
  match t with
  | TCount => Some AggCount | TSum => Some AggSum | TAvg => Some AggAvg | TMin => Some AggMin | TMax => Some AggMax
  | TCollect => Some AggCollect
  | _ => None
  end.
Definition literal (lit : Literal) : P Expression := _ ← next; mret (ELiteral lit).
(** The match of [parse_primary] on the token; [lookahead] says that a parenthesis follows. *)
Definition primary_of (t : Token) (lookahead : bool) : P Expression :=
  match t with
  | TIntegerLit n => literal (LInteger n)
  | TFloatLit n => literal (LFloat n)
  | TStringLit s => literal (LString (string_of_chars s))
  | TTrue | TBoolLit true => literal (LBool true)
  | TFalse | TBoolLit false => literal (LBool false)
  | TNull | TNullLit => literal LNull
  | TParameter name => _ ← next; mret (EParameter (string_of_chars name))
  | TLParen => _ ← enter_depth; _ ← next; expr ← parse_expression; _ ← expect TRParen; _ ← exit_depth; mret expr
  | TLBracket => _ ← next; items ← list_until TRBracket parse_expression; mret (EList items)
  | TLBrace => _ ← next; entries ← list_until TRBrace (key_value expect_ident); mret (EMap entries)
  | TCase => parse_case_expression
  | TExists => _ ← next; _ ← expect TLBrace; stmt ← parse_statement; _ ← expect TRBrace; mret (EExists stmt)
  | TType => name_or_call (keyword_to_string TType)
  | TIdent name => name_or_call (string_of_chars name)
  | TStar => _ ← next; mret (EIdentifier "*")
  | _ =>
      match aggregate_keyword t with
      | Some function => if lookahead then parse_aggregate function else _ ← next; mret (EIdentifier (keyword_to_string t))
      | None => error_found "unexpected token in expression: "
      end
  end.
Definition parse_primary : P Expression := λ p, primary_of (peek p) (lookahead_is_lparen p) p.
Definition parse_postfix_expr : P Expression :=
  e ← parse_primary;
  iterate (λ expr, b ← match_token TDot;
                   if b : bool then property ← expect_ident_or_keyword; mret (Some (EPropertyAccess expr property))
                   else mret None) e.
(** Signs recurse on themselves: each level takes a token. *)
Definition sign_op (t : Token) : option UnaryOp :=
  match t with TMinus => Some OpNeg | TPlus => Some OpPos | _ => None end.
Definition not_op (t : Token) : option UnaryOp := match t with TNot => Some OpNot | _ => None end.
Fixpoint prefixed (n : nat) (ops : Token → option UnaryOp) (operand : P Expression) (p : Parser) : parsed Expression :=
  match n with
  | O => Starved
  | S n' =>
      match ops (peek p) with
      | Some op => (_ ← next; _ ← enter_depth; e ← prefixed n' ops operand; _ ← exit_depth; mret (EUnaryOp op e)) p
      | None => operand p
      end
  end.
Definition parse_unary_expr : P Expression := λ p, prefixed (S (left p)) sign_op parse_postfix_expr p.
(** [while let op = ... { right = sub()?; left = BinaryOp }] *)
Definition binary_level (ops : Token → option BinaryOp) (sub : P Expression) : P Expression :=
  e ← sub;
  iterate (λ e1, t ← look;
                 match ops t with
                 | Some op => _ ← next; e2 ← sub; mret (Some (EBinaryOp e1 op e2))
                 | None => mret None
                 end) e.
Definition multiplication_op (t : Token) : option BinaryOp :=
  match t with TStar => Some OpMul | TSlash => Some OpDiv | TPercent => Some OpMod | _ => None end.
Definition addition_op (t : Token) : option BinaryOp := match t with TPlus => Some OpAdd | TMinus => Some OpSub | _ => None end.
Definition concat_op (t : Token) : option BinaryOp := match t with TDoublePipe => Some OpConcat | _ => None end.
Definition comparison_op (t : Token) : option BinaryOp :=
  match t with
  | TEq => Some OpEq | TNeq => Some OpNeq | TLt => Some OpLt | TGt => Some OpGt | TLe => Some OpLe | TGe => Some OpGe
  | _ => None
  end.
Definition and_op (t : Token) : option BinaryOp := match t with TAnd => Some OpAnd | _ => None end.
Definition xor_op (t : Token) : option BinaryOp := match t with TXor => Some OpXor | _ => None end.
Definition or_op (t : Token) : option BinaryOp := match t with TOr => Some OpOr | _ => None end.
Definition parse_multiplication_expr : P Expression := binary_level multiplication_op parse_unary_expr.
Definition parse_addition_expr : P Expression := binary_level addition_op parse_multiplication_expr.
Definition parse_concat_expr : P Expression := binary_level concat_op parse_addition_expr.
(** The loop of comparisons, with [had_comparison] *)
Definition comparison_step (acc : Expression * bool) : P (option (Expression * bool)) :=
  let '(e, had_comparison) := acc in
  t ← look;
  match comparison_op t with
  | Some op =>
      if had_comparison : bool then error "chained comparison operators are not allowed; use AND to combine conditions"
      else _ ← next; e2 ← parse_concat_expr; mret (Some (EBinaryOp e op e2, true))
  | None =>
      match t with
      | TIs =>
          _ ← next;
          b ← match_token TNot;
          _ ← expect TNull;
          mret (Some ((if b : bool then EIsNotNull e else EIsNull e), had_comparison))
      | TIn => _ ← next; l ← parse_concat_expr; mret (Some (EIn e l, had_comparison))
      | TLike => _ ← next; pattern ← parse_concat_expr; mret (Some (ELike e pattern, had_comparison))
      | _ => mret None
      end
  end.
Definition parse_comparison_expr : P Expression :=
  e ← parse_concat_expr; r ← iterate comparison_step (e, false); mret r.1.
Definition parse_not_expr : P Expression := λ p, prefixed (S (left p)) not_op parse_comparison_expr p.
Definition parse_and_expr : P Expression := binary_level and_op parse_not_expr.
Definition parse_xor_expr : P Expression := binary_level xor_op parse_and_expr.
Definition parse_or_expr : P Expression := binary_level or_op parse_xor_expr.

(** ** Clauses *)
Definition parse_where_clause : P WhereClause := _ ← expect TWhere; condition ← parse_expression; mret (mkWhere condition).
Definition parse_order_by_item : P OrderByItem :=
  expression ← parse_expression;
  desc ← match_token TDesc;
  if desc : bool then mret (mkOrderByItem expression Desc) else _ ← match_token TAsc; mret (mkOrderByItem expression Asc).
Definition parse_order_by_clause : P OrderByClause :=
  _ ← expect TOrder; _ ← expect TBy; items ← comma_separated parse_order_by_item; mret (mkOrderBy items).
Definition parse_limit_offset : P (option LimitOffsetClause) :=
  limit ← after_token TLimit parse_expression;
  offset ← after_token TOffset parse_expression;
  mret (match limit, offset with None, None => None | _, _ => Some (mkLimitOffset limit offset) end).
Definition parse_group_by_clause : P GroupByClause :=
  _ ← expect TGroup; _ ← expect TBy; expressions ← comma_separated parse_expression; mret (mkGroupBy expressions).
Definition parse_return_item : P ReturnItem :=
  expression ← parse_expression; alias ← after_token TAs expect_ident_or_keyword; mret (mkReturnItem expression alias).
Definition parse_return_items : P (list ReturnItem) := comma_separated parse_return_item.

(** ** Patterns *)
Definition optional_map : P (list (string * Expression)) := o ← when_token TLBrace parse_property_map; mret (default [] o).
Definition parse_node_pattern : P NodePattern :=
  _ ← expect TLParen;
  variable ← pattern_variable [TColon; TRParen; TLBrace];
  labels ← while_match TColon expect_ident [];
  properties ← optional_map;
  _ ← expect TRParen;
  mret (mkNodePattern variable labels properties).
Definition parse_edge_internals : P (option string * list string * list (string * Expression)) :=
  variable ← pattern_variable [TColon; TRBracket; TLBrace];
  labels ← while_match TColon expect_ident [];
  properties ← optional_map;
  mret (variable, labels, properties).
Definition no_internals : option string * list string * list (string * Expression) := (None, [], []).
Definition parse_edge_pattern : P EdgePattern :=
  t ← look;
  '(internals, direction) ← match t with
    | TLeftArrow =>
        _ ← next;
        b ← match_token TLBracket;
        internals ← (if b : bool then i ← parse_edge_internals; _ ← expect TRBracket; _ ← expect TMinus; mret i
                     else mret no_internals);
        mret (internals, Incoming)
    | TArrow => _ ← next; mret (no_internals, Outgoing)
    | TMinus =>
        _ ← next;
        _ ← expect TLBracket;
        internals ← parse_edge_internals;
        _ ← expect TRBracket;
        b ← match_token TArrow;
        if b : bool then mret (internals, Outgoing) else _ ← expect TMinus; mret (internals, Undirected)
    | _ => error "expected edge pattern"
    end;
  quantifier ← parse_optional_quantifier;
  let '(variable, labels, properties) := internals in
  mret (mkEdgePattern variable direction labels properties quantifier).
Definition optional_node : P (list PatternElement) :=
  o ← when_token TLParen parse_node_pattern; mret (match o with Some n => [PNode n] | None => [] end).
Definition path_step (elements : list PatternElement) : P (option (list PatternElement)) := λ p,
  if is_edge_start p then
    (edge ← parse_edge_pattern; node ← optional_node; mret (Some (elements ++ PEdge edge :: node))) p
  else Parsed None p.
Definition parse_path_pattern : P PathPattern :=
  mode ← parse_optional_path_mode;
  source ← optional_node;
  elements ← iterate path_step source;
  quantifier ← parse_optional_quantifier;
  mret (mkPathPattern None mode None elements quantifier None).
Definition parse_graph_pattern : P GraphPattern :=
  paths ← comma_separated parse_path_pattern; mret (mkGraphPattern paths None).

(** ** Statements *)
Definition set_op (t : Token) : option SetOp :=
  match t with TUnion => Some OpUnion | TIntersect => Some OpIntersect | TExcept => Some OpExcept | _ => None end.
Definition maybe_parse_composite (first_stmt : GqlStatement) : P GqlStatement :=
  t ← look;
  match set_op t with
  | None => mret first_stmt
  | Some op =>
      _ ← next;
      _ ← enter_depth;
      all ← match_token TAll;
      right_stmt ← parse_statement;
      _ ← exit_depth;
      let right := match right_stmt with
                   | SCompositeQuery (mkCompositeQuery body _ _) => OperandSetOp body
                   | other => OperandQuery [other]
                   end in
      mret (SCompositeQuery (mkCompositeQuery (mkSetOperation op all (OperandQuery [first_stmt]) right) None None))
  end.
Definition parse_match_statement (optional : bool) : P GqlStatement :=
  _ ← expect TMatch;
  pattern ← parse_graph_pattern;
  where_clause ← when_token TWhere parse_where_clause;
  order_by ← when_token TOrder parse_order_by_clause;
  limit_offset ← parse_limit_offset;
  maybe_parse_composite (SMatch (mkMatch None optional pattern where_clause order_by limit_offset)).
Definition parse_return_statement : P GqlStatement :=
  _ ← expect TReturn;
  distinct ← match_token TDistinct;
  items ← parse_return_items;
  group_by ← when_token TGroup parse_group_by_clause;
  having ← after_token THaving (condition ← parse_expression; mret (mkHaving condition));
  order_by ← when_token TOrder parse_order_by_clause;
  limit_offset ← parse_limit_offset;
  maybe_parse_composite (SReturn (mkReturn distinct items group_by having order_by limit_offset)).
Definition parse_with_statement : P GqlStatement :=
  _ ← expect TWith;
  distinct ← match_token TDistinct;
  items ← parse_return_items;
  where_clause ← when_token TWhere parse_where_clause;
  order_by ← when_token TOrder parse_order_by_clause;
  limit_offset ← parse_limit_offset;
  mret (SWith (mkWith distinct items where_clause order_by limit_offset)).
Definition parse_call_statement : P GqlStatement :=
  _ ← expect TCall;
  first ← expect_ident;
  name ← iterate (λ name, b ← match_token TDot;
                          if b : bool then part ← expect_ident; mret (Some (name +:+ "." +:+ part)) else mret None) first;
  arguments ← after_token TLParen (list_until TRParen parse_expression);
  yield_items ← after_token TYield (comma_separated expect_ident);
  mret (SCall (mkCall name (default [] arguments) yield_items)).
Definition parse_insert_statement : P GqlStatement :=
  _ ← expect TInsert; patterns ← comma_separated parse_path_pattern; mret (SInsert (mkInsert patterns)).
Definition parse_set_item : P SetItem :=
  target ← parse_target_expr;
  colon ← match_token TColon;
  if colon : bool then label ← expect_ident; mret (SetItemLabel target label)
  else
    eq ← match_token TEq;
    if eq : bool then
      value ← parse_expression;
      mret (match target with
            | EPropertyAccess object property => SetItemProperty object property value
            | _ => SetItemAllProperties target value
            end)
    else error "expected '=' or ':' in SET clause".
Definition parse_set_statement : P GqlStatement :=
  _ ← expect TSet; items ← comma_separated parse_set_item; mret (SSet (mkSet items)).
Definition parse_delete_statement : P GqlStatement :=
  detach ← match_token TDetach;
  _ ← expect TDelete;
  targets ← comma_separated parse_expression;
  mret (SDelete (mkDelete detach targets)).
Definition parse_remove_item : P RemoveItem :=
  target ← parse_target_expr;
  colon ← match_token TColon;
  if colon : bool then label ← expect_ident; mret (RemoveItemLabel target label)
  else
    match target with
    | EPropertyAccess object property => mret (RemoveItemProperty object property)
    | _ => error "expected property access or label in REMOVE"
    end.
Definition parse_remove_statement : P GqlStatement :=
  _ ← expect TRemove; items ← comma_separated parse_remove_item; mret (SRemove (mkRemove items)).
(** [parse_statement] *)
Definition statement : P GqlStatement :=
  t ← look;
  match t with
  | TMatch => parse_match_statement false
  | TOptional => _ ← next; parse_match_statement true
  | TReturn => parse_return_statement
  | TWith => parse_with_statement
  | TCall => parse_call_statement
  | TInsert => parse_insert_statement
  | TSet => parse_set_statement
  | TDelete | TDetach => parse_delete_statement
  | TRemove => parse_remove_statement
  | TCreate => parse_create_statement
  | TDrop => parse_drop_statement
  | TList => parse_list_statement
  | _ => error_found "unexpected token "
  end.
End expressions.

(** ** The knot *)
Section knot.
Context `{Unicode, DebugFormat}.
Fixpoint parse_expression_n (n : nat) (p : Parser) {struct n} : parsed Expression :=
  match n with O => Starved | S n' => parse_or_expr (parse_expression_n n') (parse_statement_n n') p end
with parse_statement_n (n : nat) (p : Parser) {struct n} : parsed GqlStatement :=
  match n with O => Starved | S n' => statement (parse_expression_n n') (parse_statement_n n') p end.
Definition parse_expression : P Expression := λ p, parse_expression_n (S (left p)) p.
Definition parse_statement : P GqlStatement := λ p, parse_statement_n (S (left p)) p.
Definition parse_program : P GqlProgram :=
  statements ← iterate (λ statements, t ← look;
                          if decide (t = TEof) then mret None
                          else stmt ← parse_statement; _ ← match_token TSemicolon; mret (Some (statements ++ [stmt]))) [];
  mret (mkProgram statements).

(** [parse(input)]: the characters of the query *)
Definition parse (input : text) : parsed GqlProgram :=
  match tokenize (Lexer_new input) with
  | Done ts => parse_program (Parser_new ts)
  | Fail e => Failed (mkParseError (string_of_chars (message e)) (err_line e) (err_column e))
  | OutOfFuel => Starved
  end.
End knot.
