(* ===== verification/Parsing.v ===== *)
(** * What the parser returns (parser.rs)

    Every method of the parser terminates: with the fuel of its loops and of the recursion it yields
    a value or an error, having moved forward. Along with this the literals of what it yields stay
    in their widths and a MATCH has a path, so that planning and evaluating a parsed program meet
    the assumptions of the theorems of [Planner.v] and [Expression.v]. *)
From S2P Require Import Prelude Types Lexer F64 Text Records Ast Expression Debug Planner Parser.

(** ** Weakest preconditions *)
Definition wp {A} (m : P A) (p : Parser) (Q : A → Parser → Prop) : Prop :=
  match m p with Parsed a p' => Q a p' | Failed _ => True | Starved => False end.
(** [p'] comes after [p]: the same tokens, and fewer of them left or as many *)
Definition reaches (p p' : Parser) : Prop := tokens p' = tokens p ∧ (left p' ≤ left p)%nat.
Definition moves (p p' : Parser) : Prop := tokens p' = tokens p ∧ (left p' < left p)%nat.

Lemma parser_reaches_refl p : reaches p p.
Proof. done. Qed.
Lemma moves_reaches p p' : moves p p' → reaches p p'.
Proof. intros [? ?]. split; [done|lia]. Qed.
Lemma parser_reaches_trans p p' p'' : reaches p p' → reaches p' p'' → reaches p p''.
Proof. intros [? ?] [? ?]. split; [congruence|lia]. Qed.
Lemma moves_reaches_l p p' p'' : moves p p' → reaches p' p'' → moves p p''.
Proof. intros [? ?] [? ?]. split; [congruence|lia]. Qed.
Lemma moves_reaches_r p p' p'' : reaches p p' → moves p' p'' → moves p p''.
Proof. intros [? ?] [? ?]. split; [congruence|lia]. Qed.
Create HintDb forward.
#[export] Hint Resolve parser_reaches_refl moves_reaches parser_reaches_trans moves_reaches_l moves_reaches_r : forward.

Section wp.
Context {A B : Type}.
Implicit Types (m : P A) (p : Parser).
Lemma wp_mono m p (Q R : A → Parser → Prop) : wp m p Q → (∀ a p', Q a p' → R a p') → wp m p R.
Proof. unfold wp. destruct (m p); auto. Qed.
Lemma wp_ret (a : A) p (Q : A → Parser → Prop) : Q a p → wp (mret a) p Q.
Proof. done. Qed.
Lemma wp_bind m (f : A → P B) p (Q : B → Parser → Prop) : wp m p (λ a p', wp (f a) p' Q) → wp (m ≫= f) p Q.
Proof. unfold wp, mbind, P_bind. destruct (m p); auto. Qed.
Lemma wp_error msg p (Q : A → Parser → Prop) : wp (error msg) p Q.
Proof. done. Qed.
Lemma wp_error_found `{DebugFormat} what p (Q : A → Parser → Prop) : wp (error_found what) p Q.
Proof. done. Qed.
(** A loop whose steps move: an invariant of the value at each state reached, and what holds where it ends *)
Lemma wp_iterate_until (I : A → Prop) (E : Parser → Prop) body p a : I a →
  (∀ a p', reaches p p' → I a →
    wp (body a) p' (λ o p'', match o with Some a' => moves p' p'' ∧ I a' | None => reaches p' p'' ∧ E p'' end)) →
  wp (iterate body a) p (λ a' p', reaches p p' ∧ I a' ∧ E p').
Proof.
  intros Ha Hb. unfold iterate, wp.
  assert (∀ n p' a, (left p' < n)%nat → reaches p p' → I a →
    match iterate_n n body a p' with Parsed a' p'' => reaches p p'' ∧ I a' ∧ E p'' | Failed _ => True | Starved => False end) as Hn.
  { clear a Ha. intros n. induction n as [|n IH]; intros p' a Hl Hr Ha; [lia|].
    cbn [iterate_n]. unfold mbind, P_bind. pose proof (Hb a p' Hr Ha) as Hs. unfold wp in Hs.
    destruct (body a p') as [[a'|] p''|e|]; [|cbn|done|done].
    - destruct Hs as [Hm Ha']. apply IH; [destruct Hm; lia|by eauto with forward|done].
    - destruct Hs. split_and!; [by eauto with forward|done..]. }
  apply Hn; [lia|apply parser_reaches_refl|done].
Qed.
Lemma wp_iterate (I : A → Prop) body p a : I a →
  (∀ a p', reaches p p' → I a → wp (body a) p' (λ o p'', match o with Some a' => moves p' p'' ∧ I a' | None => reaches p' p'' end)) →
  wp (iterate body a) p (λ a' p', reaches p p' ∧ I a').
Proof.
  intros Ha Hb. eapply wp_mono; [apply (wp_iterate_until I (λ _, True)); [done|]|cbv beta; tauto].
  intros b q Hr Hi. specialize (Hb b q Hr Hi). unfold wp in *. by destruct (body b q) as [[]| |].
Qed.
End wp.

Section tokens.
Implicit Types (p : Parser) (t : Token).
Lemma parser_advance_moves p : peek p ≠ TEof → moves p (advance p).
Proof.
  intros Hp. unfold advance, at_end. rewrite bool_decide_false by done. split; [done|]. unfold left. cbn.
  unfold peek in Hp. destruct (tokens p !! pos p) as [st|] eqn:Hl; [|done]. apply lookup_lt_Some in Hl. lia.
Qed.
Lemma advance_reaches p : reaches p (advance p).
Proof.
  destruct (decide (peek p = TEof)) as [He|He].
  - unfold advance, at_end. by rewrite bool_decide_true.
  - by apply moves_reaches, parser_advance_moves.
Qed.
Lemma wp_next p Q : Q tt (advance p) → wp next p Q.
Proof. done. Qed.
Lemma wp_look p (Q : Token → Parser → Prop) : Q (peek p) p → wp look p Q.
Proof. done. Qed.
Lemma wp_match t p (Q : bool → Parser → Prop) : t ≠ TEof →
  (∀ p', moves p p' → Q true p') → (peek p ≠ t → Q false p) → wp (match_token t) p Q.
Proof.
  intros Ht Htrue Hfalse. apply wp_bind, wp_look. destruct (decide (peek p = t)) as [He|He].
  - apply wp_bind, wp_next, wp_ret, Htrue, parser_advance_moves. congruence.
  - by apply wp_ret, Hfalse.
Qed.
End tokens.

(** Tokens with 64-bit literals; a parser over [toks] with at most [n] tokens left, or fewer *)
Definition token_wf (t : Token) : Prop := match t with TIntegerLit z => is_i64 z | TFloatLit b => is_f64 b | _ => True end.
Definition tokens_wf (toks : list SpannedToken) : Prop := Forall (λ st, token_wf (token st)) toks.
Definition within (toks : list SpannedToken) (n : nat) (p : Parser) : Prop := tokens p = toks ∧ (left p ≤ n)%nat.
Definition below (toks : list SpannedToken) (n : nat) (p : Parser) : Prop := tokens p = toks ∧ (left p < n)%nat.
(** Arithmetic on what is left *)
Ltac forward :=
  unfold within, below, moves, reaches in *; repeat match goal with H : _ ∧ _ |- _ => destruct H end;
  first [done | split_and?; first [congruence | lia | done]].
(** One step of a computation: what comes first in it *)
Ltac wp_step :=
  cbv beta iota;
  lazymatch goal with
  | |- wp (mbind _ _) _ _ => apply wp_bind
  | |- wp (mret _) _ _ => apply wp_ret
  | |- wp (error _) _ _ => apply wp_error
  | |- wp (error_found _) _ _ => apply wp_error_found
  | |- wp look _ _ => apply wp_look
  | |- wp next ?p _ =>
      apply wp_next;
      let H := fresh in
      first [ assert (moves p (advance p)) as H by (apply parser_advance_moves; congruence)
            | pose proof (advance_reaches p) as H ];
      revert H; generalize (advance p); intros ? ?
  | |- wp (match_token _) _ _ => apply wp_match; [done|intros ? ?|intros ?]
  | |- wp (if decide _ then _ else _) _ _ => case_decide
  | |- wp (if ?b : bool then _ else _) _ _ => destruct b
  | |- wp (let '(_, _) := ?x in _) _ _ => destruct x
  | |- wp _ _ _ => eapply wp_mono; [solve [eauto with parse]|cbv beta; intros ? ? ?]
  end.
Create HintDb parse.

(** ** What is known of the trees: 64-bit literals in the expressions that execution evaluates, and a
    path in every MATCH *)
Definition entries_good (l : list (string * Expression)) : Prop := Forall (λ kv, expression_wf kv.2) l.
Definition where_good (w : WhereClause) : Prop := let '(mkWhere e) := w in expression_wf e.
Definition having_good (h : HavingClause) : Prop := let '(mkHaving e) := h in expression_wf e.
Definition order_item_good (i : OrderByItem) : Prop := let '(mkOrderByItem e _) := i in expression_wf e.
Definition order_good (o : OrderByClause) : Prop := let '(mkOrderBy l) := o in Forall order_item_good l.
Definition limit_good (l : LimitOffsetClause) : Prop :=
  let '(mkLimitOffset a b) := l in option_holds expression_wf a ∧ option_holds expression_wf b.
Definition group_good (g : GroupByClause) : Prop := let '(mkGroupBy l) := g in Forall expression_wf l.
Definition item_good (i : ReturnItem) : Prop := let '(mkReturnItem e _) := i in expression_wf e.
Definition node_good (n : NodePattern) : Prop := let '(mkNodePattern _ _ props) := n in entries_good props.
Definition edge_good (e : EdgePattern) : Prop := let '(mkEdgePattern _ _ _ props _) := e in entries_good props.
Definition element_good (e : PatternElement) : Prop := match e with PNode n => node_good n | PEdge e => edge_good e end.
Definition path_good (p : PathPattern) : Prop := let '(mkPathPattern _ _ _ elements _ _) := p in Forall element_good elements.
Definition graph_good (g : GraphPattern) : Prop := let '(mkGraphPattern paths _) := g in paths ≠ [] ∧ Forall path_good paths.
Definition set_item_good (i : SetItem) : Prop :=
  match i with SetItemProperty t _ v | SetItemAllProperties t v => expression_wf t ∧ expression_wf v | SetItemLabel t _ => expression_wf t end.
Definition remove_item_good (i : RemoveItem) : Prop :=
  match i with RemoveItemProperty t _ | RemoveItemLabel t _ => expression_wf t end.
(** Of the operands of UNION nothing is needed: planning rejects them. *)
Definition statement_good (s : GqlStatement) : Prop :=
  match s with
  | SMatch (mkMatch _ _ pattern w ob lo) =>
      graph_good pattern ∧ option_holds where_good w ∧ option_holds order_good ob ∧ option_holds limit_good lo
  | SReturn (mkReturn _ items gb hv ob lo) =>
      Forall item_good items ∧ option_holds group_good gb ∧ option_holds having_good hv ∧ option_holds order_good ob ∧
      option_holds limit_good lo
  | SInsert (mkInsert patterns) => Forall path_good patterns
  | SSet (mkSet items) => Forall set_item_good items
  | SDelete (mkDelete _ targets) => Forall expression_wf targets
  | SRemove (mkRemove items) => Forall remove_item_good items
  | SCall (mkCall _ arguments _) => Forall expression_wf arguments
  | SWith (mkWith _ items w ob lo) =>
      Forall item_good items ∧ option_holds where_good w ∧ option_holds order_good ob ∧ option_holds limit_good lo
  | _ => True
  end.

Section simple.
Context `{Unicode, DebugFormat}.
Implicit Types (p : Parser).

Lemma expect_moves t p : t ≠ TEof → wp (expect t) p (λ _ p', moves p p').
Proof. intros Ht. unfold expect. repeat wp_step; done. Qed.
Lemma expect_ident_moves p : wp expect_ident p (λ _ p', moves p p').
Proof.
  unfold expect_ident. do 2 wp_step. cbv beta. destruct (peek p) eqn:Hp; try apply wp_error_found. repeat wp_step. done.
Qed.
Lemma expect_name_moves p : wp expect_ident_or_keyword p (λ _ p', moves p p').
Proof.
  unfold expect_ident_or_keyword. do 2 wp_step. cbv beta.
  destruct (keyword_name (peek p)) as [name|] eqn:Hk.
  - assert (peek p ≠ TEof) by (intros He; by rewrite He in Hk). destruct (peek p) eqn:Hp; repeat wp_step; done.
  - destruct (peek p) eqn:Hp; repeat wp_step; try done.
Qed.
#[local] Hint Extern 1 (wp (expect _) _ _) => apply expect_moves; discriminate : parse.
#[local] Hint Resolve expect_ident_moves expect_name_moves : parse.

(** The end of a method: forward, and the parts are good *)
Ltac good :=
  split; [forward|]; unfold expression_wf in *; cbn [expression_all option_holds fst snd]; destruct_and?; split_and?; auto.

(** *** Loops and options; [G] is what is known of the values *)
Lemma while_match_wp {A} (G : A → Prop) t (item : P A) p l : t ≠ TEof → Forall G l →
  (∀ p', moves p p' → wp item p' (λ a p'', reaches p' p'' ∧ G a)) →
  wp (while_match t item l) p (λ l' p', reaches p p' ∧ Forall G l').
Proof.
  intros Ht Hl Hitem. apply (wp_iterate (Forall G)); [done|]. intros l' p' Hr Hl'. wp_step. wp_step.
  - apply wp_bind. eapply wp_mono; [apply Hitem; forward|]. cbv beta. intros a p2 [? ?]. apply wp_ret.
    split; [forward|]. apply Forall_app. by repeat constructor.
  - apply wp_ret. forward.
Qed.
Lemma comma_separated_wp {A} (G : A → Prop) (item : P A) p :
  (∀ p', reaches p p' → wp item p' (λ a p'', moves p' p'' ∧ G a)) →
  wp (comma_separated item) p (λ l p', moves p p' ∧ Forall G l).
Proof.
  intros Hitem. apply wp_bind. eapply wp_mono; [apply Hitem, parser_reaches_refl|]. cbv beta. intros a p1 [Hm Ha].
  eapply wp_mono; [apply (while_match_wp G); [done|by repeat constructor|]|].
  - intros p' Hp'. eapply wp_mono; [apply Hitem; forward|]. intros b p2 [? ?]. split; [forward|done].
  - cbv beta. intros l p2 [? ?]. split; [forward|done].
Qed.
Lemma list_until_wp {A} (G : A → Prop) close (item : P A) p : close ≠ TEof →
  (∀ p', reaches p p' → wp item p' (λ a p'', moves p' p'' ∧ G a)) →
  wp (list_until close item) p (λ l p', moves p p' ∧ Forall G l).
Proof.
  intros Hc Hitem. unfold list_until. wp_step. wp_step. cbv beta. wp_step.
  eapply (wp_mono _ _ (λ l p', reaches p p' ∧ Forall G l)).
  - case_decide; [apply wp_ret; by split; [forward|]|].
    eapply wp_mono; [apply (comma_separated_wp G); exact Hitem|]. intros l p1 [? ?]. split; [forward|done].
  - cbv beta. intros l p1 [? ?]. wp_step. eapply wp_mono; [by apply expect_moves|]. cbv beta. intros _ p2 ?.
    apply wp_ret. split; [forward|done].
Qed.
Lemma when_token_wp {A} (G : A → Prop) t (m : P A) p : (peek p = t → wp m p (λ a p', reaches p p' ∧ G a)) →
  wp (when_token t m) p (λ o p', reaches p p' ∧ option_holds G o).
Proof.
  intros Hm. unfold when_token. wp_step. wp_step. cbv beta. case_decide; [|apply wp_ret; by split; [forward|]].
  apply wp_bind. eapply wp_mono; [by apply Hm|]. cbv beta. intros a p' [? ?]. by apply wp_ret.
Qed.
Lemma after_token_wp {A} (G : A → Prop) t (m : P A) p : t ≠ TEof → (∀ p', moves p p' → wp m p' (λ a p'', reaches p' p'' ∧ G a)) →
  wp (after_token t m) p (λ o p', reaches p p' ∧ option_holds G o).
Proof.
  intros Ht Hm. unfold after_token. wp_step. wp_step; [|apply wp_ret; by split; [forward|]].
  apply wp_bind. eapply wp_mono; [by apply Hm|]. cbv beta. intros a p2 [? ?]. apply wp_ret. split; [forward|done].
Qed.
Lemma until_rbrace_wp {A} (body : A → P A) a p :
  (∀ a p', reaches p p' → wp (body a) p' (λ _ p'', moves p' p'')) →
  wp (until_rbrace body a) p (λ _ p', reaches p p').
Proof.
  intros Hb. eapply wp_mono; [apply (wp_iterate (λ _, True)); [done|]|cbv beta; by intros ? ? [? _]].
  intros a' p' Hr _. wp_step. wp_step. cbv beta. case_decide; [apply wp_ret; forward|].
  apply wp_bind. eapply wp_mono; [by apply Hb|]. cbv beta. intros a2 p2 ?. apply wp_ret. done.
Qed.
(** Weaker forms, for items of which nothing is known *)
Lemma wp_true {A} (R : Parser → Parser → Prop) (m : P A) p : wp m p (λ _ p', R p p') → wp m p (λ _ p', R p p' ∧ True).
Proof. intros Hm. eapply wp_mono; [exact Hm|]. done. Qed.
Lemma wp_moved {A} (G : A → Prop) (m : P A) p : wp m p (λ a p', moves p p' ∧ G a) → wp m p (λ a p', reaches p p' ∧ G a).
Proof. intros Hm. eapply wp_mono; [exact Hm|]. cbv beta. intros a p' [? ?]. split; [forward|done]. Qed.

(** *** Graph types and data definition *)
Lemma if_not_exists_wp p : wp parse_if_not_exists p (λ _ p', reaches p p').
Proof. unfold parse_if_not_exists. repeat wp_step; forward. Qed.
Lemma if_exists_wp p : wp parse_if_exists p (λ _ p', reaches p p').
Proof. unfold parse_if_exists. repeat wp_step; forward. Qed.
#[local] Hint Resolve if_not_exists_wp if_exists_wp : parse.
Lemma property_decl_wp p : wp parse_property_decl p (λ _ p', moves p p').
Proof. unfold parse_property_decl. repeat wp_step; forward. Qed.
#[local] Hint Resolve property_decl_wp : parse.
Lemma property_decls_wp p : wp parse_property_decls p (λ _ p', moves p p').
Proof.
  unfold parse_property_decls. do 2 wp_step. wp_step.
  eapply wp_mono; [apply until_rbrace_wp|cbv beta; intros l q ?; repeat wp_step; forward].
  intros l q _. repeat wp_step. done.
Qed.
#[local] Hint Resolve property_decls_wp : parse.
Lemma optional_decls_wp p : wp optional_decls p (λ _ p', reaches p p').
Proof.
  unfold optional_decls. wp_step. eapply wp_mono; [apply (when_token_wp (λ _, True)); intros _; apply wp_moved, wp_true; eauto with parse|].
  cbv beta. intros o p' [? _]. by apply wp_ret.
Qed.
Lemma labels_wp p : wp (while_match TColon expect_ident []) p (λ _ p', reaches p p').
Proof.
  eapply wp_mono; [apply (while_match_wp (λ _, True)); [done..|]|cbv beta; by intros ? ? [? _]].
  intros p' _. apply wp_moved, wp_true. eauto with parse.
Qed.
Lemma after_name_wp {A} t (name : P A) p : t ≠ TEof → (∀ p, wp name p (λ _ p', moves p p')) →
  wp (after_token t name) p (λ _ p', reaches p p').
Proof.
  intros Ht Hn. eapply wp_mono; [apply (after_token_wp (λ _, True)); [done|]|cbv beta; by intros ? ? [? _]].
  intros p' _. apply wp_moved, wp_true. eauto with parse.
Qed.
#[local] Hint Resolve optional_decls_wp labels_wp : parse.
#[local] Hint Extern 1 (wp (after_token _ _) _ _) => apply after_name_wp; [discriminate|by eauto with parse] : parse.
Lemma endpoint_wp t p : t ≠ TEof → wp (endpoint t) p (λ _ p', reaches p p').
Proof.
  intros Ht. unfold endpoint. wp_step. eapply wp_mono; [apply after_name_wp; [done|eauto with parse]|].
  cbv beta. intros o p' ?. by apply wp_ret.
Qed.
#[local] Hint Extern 1 (wp (endpoint _) _ _) => apply endpoint_wp; discriminate : parse.
Lemma node_type_wp p : wp parse_node_type_decl p (λ _ p', reaches p p').
Proof. unfold parse_node_type_decl. repeat wp_step. forward. Qed.
Lemma edge_type_wp p : wp parse_edge_type_decl p (λ _ p', reaches p p').
Proof. unfold parse_edge_type_decl. repeat wp_step. forward. Qed.
#[local] Hint Resolve node_type_wp edge_type_wp : parse.
Lemma graph_type_wp p : wp parse_graph_type_def p (λ _ p', moves p p').
Proof.
  unfold parse_graph_type_def. do 2 wp_step. wp_step.
  eapply wp_mono; [apply until_rbrace_wp|cbv beta; intros l q ?; repeat wp_step; forward].
  intros l q _. wp_step. wp_step. cbv beta. wp_step. destruct (peek q) eqn:Hp; repeat wp_step; forward.
Qed.
#[local] Hint Resolve graph_type_wp : parse.
Lemma index_property_wp p : wp parse_index_property p (λ _ p', moves p p').
Proof. unfold parse_index_property. repeat wp_step. forward. Qed.
#[local] Hint Resolve index_property_wp : parse.
Lemma names_wp {A} (name : P A) p : (∀ p, wp name p (λ _ p', moves p p')) → wp (comma_separated name) p (λ _ p', moves p p').
Proof.
  intros Hn. eapply wp_mono; [apply (comma_separated_wp (λ _, True)); intros p' _; apply wp_true, Hn|cbv beta; by intros ? ? [? _]].
Qed.
#[local] Hint Extern 1 (wp (comma_separated _) _ _) => apply names_wp; by eauto with parse : parse.

Definition good_statement (p : Parser) (s : GqlStatement) (p' : Parser) : Prop := moves p p' ∧ statement_good s.
Lemma create_wp p : wp parse_create_statement p (good_statement p).
Proof.
  unfold parse_create_statement, good_statement. wp_step. wp_step. do 2 wp_step. cbv beta.
  unfold parse_create_index_rest, parse_create_graph_rest, parse_create_graph_type_rest.
  destruct (peek _) eqn:Hp; try apply wp_error_found; repeat wp_step; try (by split; [forward|]).
  eapply wp_mono; [apply (when_token_wp (λ _, True)); intros _; apply wp_moved, wp_true; eauto with parse|].
  cbv beta. intros o q [? _]. apply wp_ret. by split; [forward|].
Qed.
Lemma drop_wp p : wp parse_drop_statement p (good_statement p).
Proof.
  unfold parse_drop_statement, good_statement. wp_step. wp_step. do 2 wp_step. cbv beta.
  destruct (peek _) eqn:Hp; try apply wp_error_found; repeat wp_step; by split; [forward|].
Qed.
Lemma list_wp p : wp parse_list_statement p (good_statement p).
Proof.
  unfold parse_list_statement, good_statement. wp_step. wp_step. do 2 wp_step. cbv beta.
  destruct (peek _) eqn:Hp; try apply wp_error_found.
  - do 4 wp_step. cbv beta. wp_step. destruct (peek p0) eqn:Hp'; repeat wp_step; by split; [forward|].
  - repeat wp_step. by split; [forward|].
Qed.

(** *** Parts of patterns *)
Lemma path_mode_wp p : wp parse_optional_path_mode p (λ _ p', reaches p p').
Proof. unfold parse_optional_path_mode. do 2 wp_step. cbv beta. destruct (peek p) eqn:Hp; repeat wp_step; forward. Qed.
Lemma bound_wp what p : wp (parse_bound what) p (λ _ p', reaches p p').
Proof. unfold parse_bound. do 2 wp_step. cbv beta. destruct (peek p) eqn:Hp; repeat wp_step; forward. Qed.
Lemma check_bounds_wp min max p : wp (check_bounds min max) p (λ _ p', reaches p p').
Proof. unfold check_bounds. destruct min, max; repeat wp_step; forward. Qed.
#[local] Hint Resolve path_mode_wp bound_wp check_bounds_wp : parse.
Lemma quantifier_wp p : wp parse_optional_quantifier p (λ _ p', reaches p p').
Proof.
  assert (peek p = TLBrace → wp quantifier_body p (λ _ p', reaches p p')) as Hb.
  { intros Hp. unfold quantifier_body. repeat wp_step; forward. }
  unfold wp, parse_optional_quantifier. destruct (peek p) eqn:Hp; try apply parser_reaches_refl.
  destruct (peek_at p 1) as [t|]; [|apply parser_reaches_refl]. destruct t; try apply parser_reaches_refl; by apply Hb.
Qed.
Lemma pattern_variable_wp stops p : wp (pattern_variable stops) p (λ _ p', reaches p p').
Proof.
  unfold wp, pattern_variable. destruct (peek p) eqn:Hp; try apply parser_reaches_refl. destruct (peek_at p 1); [|apply parser_reaches_refl].
  case_decide; [|apply parser_reaches_refl].
  change (wp (name ← expect_ident; mret (Some name)) p (λ _ p', reaches p p')). repeat wp_step. forward.
Qed.
Lemma property_chain_wp p e : expression_wf e →
  wp (iterate (λ expr, b ← match_token TDot;
                       if b : bool then prop ← expect_ident_or_keyword; mret (Some (EPropertyAccess expr prop)) else mret None) e) p
    (λ e p', reaches p p' ∧ expression_wf e).
Proof.
  intros He. apply (wp_iterate expression_wf); [done|]. intros e' q _ He'. repeat wp_step; [split; [forward|done]|forward].
Qed.
Lemma target_wp p : wp parse_target_expr p (λ e p', moves p p' ∧ expression_wf e).
Proof.
  unfold parse_target_expr. do 2 wp_step. eapply wp_mono; [by apply property_chain_wp|]. cbv beta. intros e q [? ?].
  split; [forward|done].
Qed.
#[local] Hint Resolve quantifier_wp pattern_variable_wp target_wp : parse.

(** ** The methods that parse expressions, given that the recursive calls are right on fewer tokens *)
Section methods.
Variables (parse_expression : P Expression) (parse_statement : P GqlStatement).
Variables (toks : list SpannedToken) (n : nat).
Hypothesis Htoks : tokens_wf toks.
Hypothesis Hexpr : ∀ p, below toks n p → wp parse_expression p (λ e p', moves p p' ∧ expression_wf e).
Hypothesis Hstmt : ∀ p, below toks n p → wp parse_statement p (λ s p', moves p p' ∧ statement_good s).
#[local] Abbreviation within := (within toks n).
#[local] Abbreviation below := (below toks n).
#[local] Hint Extern 1 (wp parse_expression _ _) => apply Hexpr; forward : parse.
#[local] Hint Extern 1 (wp parse_statement _ _) => apply Hstmt; forward : parse.
(** What a method for expressions promises *)
Definition yields_expression (m : P Expression) (p : Parser) : Prop := wp m p (λ e p', moves p p' ∧ expression_wf e).

Lemma enter_depth_wp p : wp enter_depth p (λ _ p', reaches p p').
Proof. unfold wp, enter_depth. by destruct (MAX_EXPR_DEPTH <? _)%nat. Qed.
Lemma exit_depth_wp p : wp exit_depth p (λ _ p', reaches p p').
Proof. by split. Qed.
#[local] Hint Resolve enter_depth_wp exit_depth_wp : parse.
Lemma expressions_wp close p : close ≠ TEof → below p →
  wp (list_until close parse_expression) p (λ l p', moves p p' ∧ Forall expression_wf l).
Proof. intros Hc Hb. apply list_until_wp; [done|]. intros q ?. apply Hexpr. forward. Qed.
Lemma key_value_wp key p : within p → (∀ p, wp key p (λ _ p', moves p p')) →
  wp (key_value parse_expression key) p (λ kv p', moves p p' ∧ expression_wf kv.2).
Proof. intros Hw Hk. unfold key_value. wp_step. eapply wp_mono; [apply Hk|]. intros k q ?. repeat wp_step. split; [forward|]. by forward. Qed.
Lemma entries_wp close key p : close ≠ TEof → within p → (∀ p, wp key p (λ _ p', moves p p')) →
  wp (list_until close (key_value parse_expression key)) p (λ l p', moves p p' ∧ entries_good l).
Proof. intros Hc Hb Hk. apply (list_until_wp (λ kv, expression_wf kv.2)); [done|]. intros q ?. apply key_value_wp; [forward|done]. Qed.
Lemma property_map_wp p : within p → wp (parse_property_map parse_expression) p (λ l p', moves p p' ∧ entries_good l).
Proof.
  intros Hw. unfold parse_property_map. do 2 wp_step. eapply wp_mono; [apply entries_wp; [done|forward|apply expect_name_moves]|].
  cbv beta. intros l q [? ?]. split; [forward|done].
Qed.
Lemma aggregate_wp function p : within p → peek p ≠ TEof → yields_expression (parse_aggregate parse_expression function) p.
Proof. intros Hw Hp. unfold yields_expression, parse_aggregate. repeat wp_step; good. Qed.
Lemma when_clause_wp p : below p → wp (when_clause parse_expression) p
  (λ wt p', moves p p' ∧ expression_wf wt.1 ∧ expression_wf wt.2).
Proof. intros Hw. unfold when_clause. repeat wp_step; good. Qed.
Lemma optional_expression_wp t p : t ≠ TEof → within p →
  wp (after_token t parse_expression) p (λ o p', reaches p p' ∧ option_holds expression_wf o).
Proof. intros Ht Hw. apply after_token_wp; [done|]. intros q ?. apply wp_moved, Hexpr. forward. Qed.
Lemma case_wp p : within p → yields_expression (parse_case_expression parse_expression) p.
Proof.
  intros Hw. unfold yields_expression, parse_case_expression. do 5 wp_step. cbv beta.
  eapply (wp_mono _ _ (λ o q, moves p q ∧ option_holds expression_wf o)); [repeat wp_step; good|]. cbv beta. intros o q [? ?].
  wp_step. eapply wp_mono; [apply (while_match_wp (λ wt, expression_wf wt.1 ∧ expression_wf wt.2)); [done|done|]|].
  { intros q' ?. apply wp_moved, when_clause_wp. forward. }
  cbv beta. intros arms q1 [? ?]. wp_step. eapply wp_mono; [apply optional_expression_wp; [done|forward]|].
  cbv beta. intros els q2 [? ?]. repeat wp_step. split; [forward|]. by apply expression_all_case.
Qed.
Lemma name_or_call_wp name p : within p → peek p ≠ TEof → yields_expression (name_or_call parse_expression name) p.
Proof.
  intros Hw Hp. unfold yields_expression, name_or_call. do 3 wp_step.
  eapply wp_mono; [apply (after_token_wp (Forall expression_wf)); [done|]|].
  { intros q ?. apply wp_moved, expressions_wp; [done|forward]. }
  cbv beta. intros o q [? Ho]. apply wp_ret. split; [forward|]. destruct o; [|done]. by apply expression_all_call.
Qed.
Lemma peek_wf p : within p → token_wf (peek p).
Proof.
  intros [Ht _]. unfold peek. rewrite Ht. destruct (toks !! pos p) as [st|] eqn:Hst; [|done].
  unfold tokens_wf in Htoks. rewrite Forall_forall in Htoks. by apply Htoks, list_elem_of_lookup_2 with (pos p).
Qed.
Lemma literal_wp lit p : peek p ≠ TEof → literal_wf lit → yields_expression (literal lit) p.
Proof. intros Hp Hl. unfold yields_expression, literal. repeat wp_step. good. Qed.
Lemma exists_wp p : within p → peek p ≠ TEof →
  yields_expression (_ ← next; _ ← expect TLBrace; stmt ← parse_statement; _ ← expect TRBrace; mret (EExists stmt)) p.
Proof. intros Hw Hp. unfold yields_expression. repeat wp_step. good. Qed.
Lemma parens_wp p : within p → peek p = TLParen →
  yields_expression (_ ← enter_depth; _ ← next; expr ← parse_expression; _ ← expect TRParen; _ ← exit_depth; mret expr) p.
Proof.
  intros Hw Hp. unfold yields_expression. apply wp_bind.
  eapply (wp_mono _ _ (λ _ p', reaches p p' ∧ peek p' = peek p)).
  { unfold wp, enter_depth. by destruct (MAX_EXPR_DEPTH <? _)%nat. }
  cbv beta. intros _ q [Hr Hq]. assert (peek q ≠ TEof) by congruence. repeat wp_step. good.
Qed.
Lemma list_literal_wp p : within p → peek p ≠ TEof →
  yields_expression (_ ← next; items ← list_until TRBracket parse_expression; mret (EList items)) p.
Proof.
  intros Hw Hp. unfold yields_expression. do 3 wp_step. eapply wp_mono; [apply expressions_wp; [done|forward]|].
  cbv beta. intros l q [? ?]. apply wp_ret. split; [forward|]. by apply expression_all_list.
Qed.
Lemma map_literal_wp p : within p → peek p ≠ TEof →
  yields_expression (_ ← next; entries ← list_until TRBrace (key_value parse_expression expect_ident); mret (EMap entries)) p.
Proof.
  intros Hw Hp. unfold yields_expression. do 3 wp_step.
  eapply wp_mono; [apply entries_wp; [done|forward|apply expect_ident_moves]|].
  cbv beta. intros l q [? ?]. apply wp_ret. split; [forward|]. by apply expression_all_map.
Qed.
Lemma keyword_wp p e : peek p ≠ TEof → expression_wf e → yields_expression (_ ← next; mret e) p.
Proof. intros Hp He. unfold yields_expression. repeat wp_step. good. Qed.
Lemma primary_of_wp t lookahead p : within p → peek p = t → yields_expression (primary_of parse_expression parse_statement t lookahead) p.
Proof.
  intros Hw Hp. pose proof (peek_wf p Hw) as Ht. rewrite Hp in Ht.
  assert (t ≠ TEof → peek p ≠ TEof) as Hne by congruence.
  destruct t; cbn [primary_of aggregate_keyword]; try apply wp_error_found; specialize (Hne ltac:(discriminate));
    lazymatch goal with
    | |- yields_expression (literal _) _ => apply literal_wp; [exact Hne|exact Ht || exact I]
    | |- yields_expression (name_or_call _ _) _ => by apply name_or_call_wp
    | |- yields_expression (parse_case_expression _) _ => by apply case_wp
    | |- yields_expression (if lookahead then _ else _) _ => destruct lookahead; [by apply aggregate_wp|by apply keyword_wp]
    | |- yields_expression (if _ then _ else _) _ => idtac
    | _ => idtac
    end.
  - by apply exists_wp.
  - destruct b; by apply literal_wp.
  - by apply keyword_wp.
  - by apply keyword_wp.
  - by apply parens_wp.
  - by apply list_literal_wp.
  - by apply map_literal_wp.
Qed.
Lemma primary_wp p : within p → yields_expression (parse_primary parse_expression parse_statement) p.
Proof. intros Hw. by apply (primary_of_wp (peek p) (lookahead_is_lparen p) p). Qed.
Lemma postfix_wp p : within p → yields_expression (parse_postfix_expr parse_expression parse_statement) p.
Proof.
  intros Hw. unfold yields_expression, parse_postfix_expr. wp_step. eapply wp_mono; [by apply primary_wp|].
  cbv beta. intros e q [? ?]. eapply wp_mono; [by apply property_chain_wp|]. cbv beta. intros e' q' [? ?]. good.
Qed.
Lemma prefixed_wp ops operand (m : nat) p : (left p < m)%nat → within p → (∀ t op, ops t = Some op → t ≠ TEof) →
  (∀ q, within q → yields_expression operand q) → yields_expression (prefixed m ops operand) p.
Proof.
  intros Hl Hw Hops Ho. revert p Hl Hw. induction m as [|m IH]; intros p Hl Hw; [lia|].
  unfold yields_expression, wp. cbn [prefixed]. destruct (ops (peek p)) as [op|] eqn:Hop; [|by apply Ho].
  specialize (Hops _ _ Hop).
  change (wp (_ ← next; _ ← enter_depth; e ← prefixed m ops operand; _ ← exit_depth; mret (EUnaryOp op e)) p
    (λ e p', moves p p' ∧ expression_wf e)).
  do 3 wp_step. do 2 wp_step. eapply wp_mono; [apply IH; forward|]. cbv beta. intros e q [? ?]. repeat wp_step. good.
Qed.
Lemma binary_wp ops sub p : within p → (∀ t op, ops t = Some op → t ≠ TEof) → (∀ q, within q → yields_expression sub q) →
  yields_expression (binary_level ops sub) p.
Proof.
  intros Hw Hops Hsub. unfold yields_expression, binary_level. wp_step. eapply wp_mono; [by apply Hsub|]. cbv beta. intros e q [? ?].
  eapply wp_mono; [apply (wp_iterate expression_wf); [done|]|cbv beta; intros e' q' [? ?]; good].
  intros e1 q1 ? He1. do 2 wp_step. cbv beta. destruct (ops (peek q1)) as [op|] eqn:Hop; [|wp_step; forward].
  specialize (Hops _ _ Hop). do 2 wp_step. wp_step. eapply wp_mono; [apply Hsub; forward|].
  cbv beta. intros e2 q2 [? ?]. apply wp_ret. good.
Qed.

Lemma unary_wp p : within p → yields_expression (parse_unary_expr parse_expression parse_statement) p.
Proof.
  intros Hw. apply prefixed_wp; [lia|done|by intros []|]. apply postfix_wp.
Qed.
Lemma concat_wp p : within p → yields_expression (parse_concat_expr parse_expression parse_statement) p.
Proof.
  intros Hw. apply binary_wp; [done|by intros []|]. intros q Hq. apply binary_wp; [done|by intros []|].
  intros q' Hq'. apply binary_wp; [done|by intros []|]. apply unary_wp.
Qed.
Lemma comparison_step_wp acc p : within p → expression_wf acc.1 →
  wp (comparison_step parse_expression parse_statement acc) p
    (λ o p', match o with Some acc' => moves p p' ∧ expression_wf acc'.1 | None => reaches p p' end).
Proof.
  intros Hw Hacc. destruct acc as [e had]. cbn in Hacc. unfold comparison_step. do 2 wp_step. cbv beta.
  destruct (comparison_op (peek p)) as [op|] eqn:Hop.
  - assert (peek p ≠ TEof) by (intros He; by rewrite He in Hop). wp_step; [apply wp_error|]. do 3 wp_step.
    eapply wp_mono; [apply concat_wp; forward|]. cbv beta. intros e2 q [? ?]. apply wp_ret. good.
  - destruct (peek p) eqn:Hp; try done; try (apply wp_ret; forward).
    + repeat wp_step; good.
    + do 3 wp_step. eapply wp_mono; [apply concat_wp; forward|]. cbv beta. intros e2 q [? ?]. apply wp_ret. good.
    + do 3 wp_step. eapply wp_mono; [apply concat_wp; forward|]. cbv beta. intros e2 q [? ?]. apply wp_ret. good.
Qed.
Lemma comparison_wp p : within p → yields_expression (parse_comparison_expr parse_expression parse_statement) p.
Proof.
  intros Hw. unfold yields_expression, parse_comparison_expr. wp_step. eapply wp_mono; [by apply concat_wp|].
  cbv beta. intros e q [? ?]. wp_step.
  eapply wp_mono; [apply (wp_iterate (λ acc, expression_wf acc.1)); [done|]|].
  - intros acc q' ? ?. apply comparison_step_wp; [forward|done].
  - cbv beta. intros acc q' [? ?]. apply wp_ret. good.
Qed.
Lemma or_wp p : within p → yields_expression (parse_or_expr parse_expression parse_statement) p.
Proof.
  intros Hw. apply binary_wp; [done|by intros []|]. intros q Hq. apply binary_wp; [done|by intros []|].
  intros q' Hq'. apply binary_wp; [done|by intros []|]. intros r Hr. apply prefixed_wp; [lia|done|by intros []|].
  apply comparison_wp.
Qed.

(** *** Clauses *)
Lemma where_wp p : within p → wp (parse_where_clause parse_expression) p (λ w p', moves p p' ∧ where_good w).
Proof. intros Hw. unfold parse_where_clause. repeat wp_step. good. Qed.
Lemma order_item_wp p : below p → wp (parse_order_by_item parse_expression) p (λ i p', moves p p' ∧ order_item_good i).
Proof. intros Hw. unfold parse_order_by_item. repeat wp_step; (split; [forward|by forward]). Qed.
Lemma order_wp p : within p → wp (parse_order_by_clause parse_expression) p (λ o p', moves p p' ∧ order_good o).
Proof.
  intros Hw. unfold parse_order_by_clause. do 5 wp_step. eapply wp_mono; [apply (comma_separated_wp order_item_good)|].
  - intros q ?. apply order_item_wp. forward.
  - cbv beta. intros l q [? ?]. apply wp_ret. split; [forward|done].
Qed.
Lemma limit_wp p : within p → wp (parse_limit_offset parse_expression) p (λ o p', reaches p p' ∧ option_holds limit_good o).
Proof.
  intros Hw. unfold parse_limit_offset. wp_step. eapply wp_mono; [apply optional_expression_wp; [done|forward]|].
  cbv beta. intros a q [? ?]. wp_step. eapply wp_mono; [apply optional_expression_wp; [done|forward]|].
  cbv beta. intros b q' [? ?]. apply wp_ret. split; [forward|]. by destruct a, b.
Qed.
Lemma group_wp p : within p → wp (parse_group_by_clause parse_expression) p (λ g p', moves p p' ∧ group_good g).
Proof.
  intros Hw. unfold parse_group_by_clause. do 5 wp_step. eapply wp_mono; [apply (comma_separated_wp expression_wf)|].
  - intros q ?. apply Hexpr. forward.
  - cbv beta. intros l q [? ?]. apply wp_ret. split; [forward|done].
Qed.
Lemma return_items_wp p : below p → wp (parse_return_items parse_expression) p (λ l p', moves p p' ∧ Forall item_good l).
Proof.
  intros Hw. apply comma_separated_wp. intros q ?. unfold parse_return_item. repeat wp_step. split; [forward|by forward].
Qed.
(** [if self.peek() == WHERE ...] and the like *)
Lemma optional_clause_wp {A} (G : A → Prop) t (m : P A) p : within p →
  (∀ q, within q → wp m q (λ a q', moves q q' ∧ G a)) → wp (when_token t m) p (λ o p', reaches p p' ∧ option_holds G o).
Proof. intros Hw Hm. apply when_token_wp. intros _. by apply wp_moved, Hm. Qed.

(** *** Patterns *)
Lemma optional_map_wp p : within p → wp (optional_map parse_expression) p (λ l p', reaches p p' ∧ entries_good l).
Proof.
  intros Hw. unfold optional_map. wp_step. eapply wp_mono; [apply (optional_clause_wp entries_good); [done|apply property_map_wp]|].
  cbv beta. intros o q [? ?]. apply wp_ret. split; [forward|]. destruct o; [done|by constructor].
Qed.
Lemma node_wp p : within p → wp (parse_node_pattern parse_expression) p (λ n p', moves p p' ∧ node_good n).
Proof.
  intros Hw. unfold parse_node_pattern. do 6 wp_step. wp_step. eapply wp_mono; [apply optional_map_wp; forward|].
  cbv beta. intros l q [? ?]. repeat wp_step. split; [forward|done].
Qed.
Definition internals_good (i : option string * list string * list (string * Expression)) : Prop := entries_good i.2.
Lemma internals_wp p : within p → wp (parse_edge_internals parse_expression) p (λ i p', reaches p p' ∧ internals_good i).
Proof.
  intros Hw. unfold parse_edge_internals. do 4 wp_step. wp_step. eapply wp_mono; [apply optional_map_wp; forward|].
  cbv beta. intros l q [? ?]. apply wp_ret. split; [forward|done].
Qed.
Definition internals_direction (x : option string * list string * list (string * Expression) * Direction) : Prop := internals_good x.1.
Lemma edge_wp p : within p → wp (parse_edge_pattern parse_expression) p (λ e p', moves p p' ∧ edge_good e).
Proof.
  intros Hw. unfold parse_edge_pattern. do 3 wp_step. cbv beta.
  eapply (wp_mono _ _ (λ x q, moves p q ∧ internals_direction x)).
  - destruct (peek p) eqn:Hp; try apply wp_error; do 2 wp_step.
    + do 2 wp_step. wp_step. eapply wp_mono; [apply internals_wp; forward|]. cbv beta. intros i q [? ?].
      repeat wp_step; (split; [forward|done]).
    + repeat wp_step. by split; [forward|constructor].
    + do 3 wp_step; [|repeat wp_step; by split; [forward|constructor]].
      wp_step. eapply wp_mono; [apply internals_wp; forward|]. cbv beta. intros i q [? ?].
      repeat wp_step. split; [forward|done].
  - cbv beta. intros [[[v ls] props] dir] q [? Hi]. repeat wp_step. split; [forward|exact Hi].
Qed.
Lemma optional_node_wp p : within p → wp (optional_node parse_expression) p (λ l p', reaches p p' ∧ Forall element_good l).
Proof.
  intros Hw. unfold optional_node. wp_step. eapply wp_mono; [apply (optional_clause_wp node_good); [done|apply node_wp]|].
  cbv beta. intros o q [? ?]. apply wp_ret. split; [forward|]. destruct o; by repeat constructor.
Qed.
Lemma path_step_wp elements p : within p → Forall element_good elements →
  wp (path_step parse_expression elements) p
    (λ o p', match o with Some l => moves p p' ∧ Forall element_good l | None => reaches p p' end).
Proof.
  intros Hw Hl. unfold wp, path_step. destruct (is_edge_start p); [|apply parser_reaches_refl].
  change (wp (edge ← parse_edge_pattern parse_expression; node ← optional_node parse_expression;
    mret (Some (elements ++ PEdge edge :: node))) p
    (λ o p', match o with Some l => moves p p' ∧ Forall element_good l | None => reaches p p' end)).
  wp_step. eapply wp_mono; [by apply edge_wp|]. cbv beta. intros e q [? ?]. wp_step.
  eapply wp_mono; [apply optional_node_wp; forward|]. cbv beta. intros l q' [? ?]. apply wp_ret. split; [forward|].
  apply Forall_app. split; [done|]. by constructor.
Qed.
Lemma path_wp p : within p → wp (parse_path_pattern parse_expression) p (λ x p', reaches p p' ∧ path_good x).
Proof.
  intros Hw. unfold parse_path_pattern. do 3 wp_step. eapply wp_mono; [apply optional_node_wp; forward|].
  cbv beta. intros source q [? ?]. wp_step. eapply wp_mono; [apply (wp_iterate (Forall element_good)); [done|]|].
  - intros l q' ? ?. apply path_step_wp; [forward|done].
  - cbv beta. intros l q' [? ?]. repeat wp_step. split; [forward|done].
Qed.
(** A path pattern may be empty: its loop moves by the commas. *)
Lemma paths_wp p : within p →
  wp (comma_separated (parse_path_pattern parse_expression)) p (λ l p', reaches p p' ∧ l ≠ [] ∧ Forall path_good l).
Proof.
  intros Hw. unfold comma_separated. wp_step. eapply wp_mono; [by apply path_wp|]. cbv beta. intros x q [? ?].
  unfold while_match. eapply wp_mono; [apply (wp_iterate (λ l, l ≠ [] ∧ Forall path_good l))|cbv beta; intros; forward].
  - split; [done|by constructor].
  - intros l q' ? [? ?]. do 2 wp_step; [|apply wp_ret; forward].
    wp_step. eapply wp_mono; [apply path_wp; forward|]. cbv beta. intros y q2 [? ?]. apply wp_ret. split; [forward|].
    split; [by destruct l|]. apply Forall_app. split; [done|by constructor].
Qed.
Lemma graph_wp p : within p → wp (parse_graph_pattern parse_expression) p (λ g p', reaches p p' ∧ graph_good g).
Proof.
  intros Hw. unfold parse_graph_pattern. wp_step. eapply wp_mono; [by apply paths_wp|]. cbv beta. intros l q [? ?]. by apply wp_ret.
Qed.

(** *** Statements *)
Lemma composite_wp first_stmt p : within p → statement_good first_stmt →
  wp (maybe_parse_composite parse_statement first_stmt) p (λ s p', reaches p p' ∧ statement_good s).
Proof.
  intros Hw Hs. unfold maybe_parse_composite. do 2 wp_step. cbv beta.
  destruct (set_op (peek p)) as [op|] eqn:Hop; [|apply wp_ret; forward].
  assert (peek p ≠ TEof) by (intros He; by rewrite He in Hop).
  repeat wp_step; by split; [forward|].
Qed.
Lemma optional_where_wp p : within p →
  wp (when_token TWhere (parse_where_clause parse_expression)) p (λ o p', reaches p p' ∧ option_holds where_good o).
Proof. intros Hw. apply optional_clause_wp; [done|apply where_wp]. Qed.
Lemma optional_order_wp p : within p →
  wp (when_token TOrder (parse_order_by_clause parse_expression)) p (λ o p', reaches p p' ∧ option_holds order_good o).
Proof. intros Hw. apply optional_clause_wp; [done|apply order_wp]. Qed.
#[local] Hint Extern 1 (wp (when_token TWhere _) _ _) => apply optional_where_wp; forward : parse.
#[local] Hint Extern 1 (wp (when_token TOrder _) _ _) => apply optional_order_wp; forward : parse.
#[local] Hint Extern 1 (wp (when_token TGroup _) _ _) => apply (optional_clause_wp group_good); [forward|apply group_wp] : parse.
#[local] Hint Extern 1 (wp (parse_limit_offset _) _ _) => apply limit_wp; forward : parse.
#[local] Hint Extern 1 (wp (parse_return_items _) _ _) => apply return_items_wp; forward : parse.
#[local] Hint Extern 1 (wp (parse_graph_pattern _) _ _) => apply graph_wp; forward : parse.
#[local] Hint Extern 1 (wp (maybe_parse_composite _ _) _ _) => apply composite_wp; [forward|cbn; forward] : parse.

Lemma having_wp p : within p →
  wp (after_token THaving (condition ← parse_expression; mret (mkHaving condition))) p (λ o p', reaches p p' ∧ option_holds having_good o).
Proof. intros Hw. apply after_token_wp; [done|]. intros q ?. repeat wp_step. split; [forward|by forward]. Qed.
#[local] Hint Extern 1 (wp (after_token THaving _) _ _) => apply having_wp; forward : parse.
Lemma match_wp optional p : within p → wp (parse_match_statement parse_expression parse_statement optional) p (good_statement p).
Proof. intros Hw. unfold parse_match_statement, good_statement. repeat wp_step. split; [forward|by forward]. Qed.
Lemma return_wp p : within p → wp (parse_return_statement parse_expression parse_statement) p (good_statement p).
Proof.
  intros Hw. unfold parse_return_statement, good_statement. do 2 wp_step. repeat wp_step; (split; [forward|by forward]).
Qed.
Lemma with_wp p : within p → wp (parse_with_statement parse_expression) p (good_statement p).
Proof. intros Hw. unfold parse_with_statement, good_statement. repeat wp_step; (split; [forward|by forward]). Qed.
Lemma call_wp p : within p → wp (parse_call_statement parse_expression) p (good_statement p).
Proof.
  intros Hw. unfold parse_call_statement, good_statement. do 4 wp_step. wp_step.
  eapply wp_mono; [apply (wp_iterate (λ _, True)); [done|]|].
  - intros name q _ _. repeat wp_step; forward.
  - cbv beta. intros name q [? _]. wp_step.
    eapply wp_mono; [apply (after_token_wp (Forall expression_wf)); [done|]|].
    { intros q' ?. apply wp_moved, expressions_wp; [done|forward]. }
    cbv beta. intros args q' [? Hargs]. repeat wp_step. split; [forward|]. destruct args; [done|by constructor].
Qed.
Lemma insert_wp p : within p → wp (parse_insert_statement parse_expression) p (good_statement p).
Proof.
  intros Hw. unfold parse_insert_statement, good_statement. do 2 wp_step. wp_step.
  eapply wp_mono; [apply paths_wp; forward|]. cbv beta. intros l q [? [? ?]]. apply wp_ret. split; [forward|done].
Qed.
Lemma set_item_wp p : within p → wp (parse_set_item parse_expression) p (λ i p', moves p p' ∧ set_item_good i).
Proof.
  intros Hw. unfold parse_set_item. repeat wp_step; (split; [forward|]); destruct_and?; [done|].
  destruct a; cbn; destruct_and?; done.
Qed.
Lemma set_wp p : within p → wp (parse_set_statement parse_expression) p (good_statement p).
Proof.
  intros Hw. unfold parse_set_statement, good_statement. do 2 wp_step. wp_step.
  eapply wp_mono; [apply (comma_separated_wp set_item_good)|].
  - intros q ?. apply set_item_wp. forward.
  - cbv beta. intros l q [? ?]. apply wp_ret. split; [forward|done].
Qed.
Lemma delete_wp p : within p → peek p = TDelete ∨ peek p = TDetach →
  wp (parse_delete_statement parse_expression) p (good_statement p).
Proof.
  intros Hw Hp. unfold parse_delete_statement, good_statement. do 2 wp_step; do 2 wp_step; wp_step;
    (eapply wp_mono; [apply (comma_separated_wp expression_wf); intros q ?; apply Hexpr; forward|]);
    cbv beta; intros l q [? ?]; apply wp_ret; (split; [forward|done]).
Qed.
Lemma remove_item_wp p : within p → wp parse_remove_item p (λ i p', moves p p' ∧ remove_item_good i).
Proof.
  intros Hw. unfold parse_remove_item. do 2 wp_step. destruct_and?. repeat wp_step; [split; [forward|done]|].
  destruct a; try apply wp_error. apply wp_ret. split; [forward|done].
Qed.
Lemma remove_wp p : within p → wp parse_remove_statement p (good_statement p).
Proof.
  intros Hw. unfold parse_remove_statement, good_statement. do 2 wp_step. wp_step.
  eapply wp_mono; [apply (comma_separated_wp remove_item_good)|].
  - intros q ?. apply remove_item_wp. forward.
  - cbv beta. intros l q [? ?]. apply wp_ret. split; [forward|done].
Qed.
Lemma statement_wp p : within p → wp (statement parse_expression parse_statement) p (good_statement p).
Proof.
  intros Hw. unfold statement. do 2 wp_step. cbv beta. destruct (peek p) eqn:Hp; try apply wp_error_found.
  - by apply match_wp.
  - by apply return_wp.
  - apply create_wp.
  - by apply insert_wp.
  - apply delete_wp; [done|by left].
  - by apply set_wp.
  - by apply remove_wp.
  - apply drop_wp.
  - by apply with_wp.
  - by apply call_wp.
  - do 2 wp_step. eapply wp_mono; [apply match_wp; forward|]. cbv beta. intros s q [? ?]. split; [forward|done].
  - apply delete_wp; [done|by right].
  - apply list_wp.
Qed.
End methods.

(** ** The knot: with more fuel than tokens left, both methods yield good trees *)
Section knot.
Variable toks : list SpannedToken.
Hypothesis Htoks : tokens_wf toks.
Lemma knot_wp n p : below toks n p →
  wp (parse_expression_n n) p (λ e p', moves p p' ∧ expression_wf e) ∧ wp (parse_statement_n n) p (good_statement p).
Proof.
  revert p. induction n as [|n IH]; intros p Hb; [destruct Hb; lia|]. assert (within toks n p) by forward. split.
  - apply (or_wp _ _ toks n); [done|intros q Hq; by apply IH..|done].
  - eapply (statement_wp _ _ toks n); [intros q Hq; by apply IH..|done].
Qed.
Lemma parse_expression_wp p : tokens p = toks → wp parse_expression p (λ e p', moves p p' ∧ expression_wf e).
Proof.
  intros Hp. pose proof (knot_wp (S (Parser.left p)) p) as Hk. unfold wp in *. destruct Hk as [He _]; [split; [done|lia]|].
  unfold parse_expression. exact He.
Qed.
Lemma parse_statement_wp p : tokens p = toks → wp parse_statement p (good_statement p).
Proof.
  intros Hp. pose proof (knot_wp (S (Parser.left p)) p) as Hk. unfold wp in *. destruct Hk as [_ He]; [split; [done|lia]|].
  unfold parse_statement. exact He.
Qed.
(** The loop of the program ends at the end of the tokens. *)
Lemma parse_program_wp p : tokens p = toks →
  wp parse_program p (λ prog p', tokens p' = toks ∧ peek p' = TEof ∧ Forall statement_good (statements prog)).
Proof.
  intros Hp. unfold parse_program. wp_step.
  eapply wp_mono; [apply (wp_iterate_until (Forall statement_good) (λ q, peek q = TEof)); [done|]|].
  - intros l q Hr Hl. do 2 wp_step. wp_step; [apply wp_ret; by split|]. wp_step.
    eapply wp_mono; [apply parse_statement_wp; forward|]. cbv beta. intros s q' [? ?].
    repeat wp_step; (split; [forward|apply Forall_app; split; [done|by constructor]]).
  - cbv beta. intros l q (? & ? & ?). apply wp_ret. split; [forward|done].
Qed.
End knot.
End simple.

(** ** The tokens of a text have 64-bit literals *)
Section lexed.
Definition lexes_wf (o : outcome (Lexer * SpannedToken)) : Prop :=
  match o with Done r => token_wf (token r.2) | _ => True end.
Lemma lexes_bind {A} (m : outcome A) (f : A → outcome (Lexer * SpannedToken)) : (∀ a, lexes_wf (f a)) → lexes_wf (m ≫= f).
Proof. intros Hf. destruct m; cbn; [apply Hf|done..]. Qed.
Lemma parse_i64_range s z : parse_i64 s = Some z → is_i64 z.
Proof.
  unfold parse_i64. destruct (forallb _ s) eqn:Hs; cbn [andb]; [|done]. apply digits_value_nonneg in Hs.
  repeat case_match; try done. intros [= <-]. unfold is_i64, i64_min, i64_max in *. lia.
Qed.
Lemma number_wf sp lx : lexes_wf (lex_number sp lx).
Proof.
  unfold lex_number. cbv zeta. apply lexes_bind. intros lx1. apply lexes_bind. intros [lx2 frac]. apply lexes_bind. intros [lx3 expo].
  destruct (frac || expo).
  - destruct (parse_f64 _) eqn:Hf; [|done]. apply parse_f64_range in Hf. cbn. unfold is_f64, f64_inf in *. lia.
  - destruct (parse_i64 _) eqn:Hf; [|done]. by apply parse_i64_range in Hf.
Qed.
Definition has_no_number (t : Token) : bool := match t with TIntegerLit _ | TFloatLit _ => false | _ => true end.
Lemma no_number_wf t : has_no_number t = true → token_wf t.
Proof. by destruct t. Qed.
Lemma keyword_wf word t : keyword_token word = Some t → token_wf t.
Proof.
  intros Ht. apply find_keyword_in in Ht. apply no_number_wf.
  assert (forallb has_no_number keyword_table.*2 = true) as Hall by reflexivity.
  rewrite forallb_forall in Hall. by apply Hall, list_elem_of_In.
Qed.
Lemma identifier_wf sp lx : lexes_wf (lex_identifier sp lx).
Proof.
  unfold lex_identifier. cbv zeta. apply lexes_bind. intros lx1. cbn [lexes_wf snd token].
  destruct (keyword_token _) as [t|] eqn:Ht; [|exact I]. exact (keyword_wf _ _ Ht).
Qed.
Lemma operator_wf sp lx : lexes_wf (lex_operator_or_delimiter sp lx).
Proof.
  unfold lex_operator_or_delimiter. destruct (Lexer.advance lx) as [lx1 ch]. cbv zeta.
  destruct (find_single ch single_tokens) as [t|] eqn:Ht.
  - cbn in *. apply no_number_wf. revert Ht. unfold single_tokens. cbn [find_single]. repeat case_match; by intros [= <-].
  - repeat case_match; done.
Qed.
Lemma lex_token_wf lx : lexes_wf (lex_token lx).
Proof.
  unfold lex_token. cbv zeta. repeat case_match; try apply number_wf; try apply identifier_wf; try apply operator_wf; try done.
  - unfold lex_single_line_comment. cbv zeta. apply lexes_bind. by intros [].
  - unfold lex_multi_line_comment. cbv zeta. apply lexes_bind. by intros [].
  - unfold lex_string. cbv zeta. apply lexes_bind. by intros [].
  - unfold lex_parameter. cbv zeta. case_match; [done|]. apply lexes_bind. by intros.
Qed.
Lemma tokenize_loop_wf fuel lx acc : tokens_wf acc →
  match tokenize_loop fuel lx acc with Done ts => tokens_wf ts | _ => True end.
Proof.
  revert lx acc. induction fuel as [|fuel IH]; intros lx acc Hacc; [done|]. cbn [tokenize_loop].
  assert (lexes_wf (next_token lx)) as Hn by (unfold next_token; apply lexes_bind; intros; apply lex_token_wf).
  destruct (next_token lx) as [[lx' st]|e|]; cbn [mbind outcome_bind]; [|done..].
  assert (tokens_wf (acc ++ [st])) as Hacc' by (apply Forall_app; by split; [|constructor]).
  case_decide; [done|]. by apply IH.
Qed.
(** The parser of a text never starves. *)
Lemma tokenize_wf (s : text) : match tokenize (Lexer_new s) with Done ts => tokens_wf ts | Fail _ => True | OutOfFuel => False end.
Proof.
  pose proof (tokenize_loop_positions (fuel_of (Lexer_new s)) (Lexer_new s) [] (Lexer_new_wf s) (fuel_enough _)) as Hp.
  pose proof (tokenize_loop_wf (fuel_of (Lexer_new s)) (Lexer_new s) []) as Hw.
  unfold tokenize. destruct (tokenize_loop _ _ _); [|done..]. apply Hw. constructor.
Qed.
End lexed.

(** ** Parsing a text *)
Section parsing.
Context `{Unicode, DebugFormat}.
Lemma good_has_path s : statement_good s → has_path s = true.
Proof.
  destruct s as [m| | | | | | | | | | | | | |]; try done. destruct m as [g o [paths ?] w ob lo]. cbn. intros [[Hne _] _].
  by destruct paths.
Qed.
Lemma parse_good (s : text) :
  match parse s with
  | Parsed prog p => peek p = TEof ∧ Forall statement_good (statements prog)
  | Failed _ => True
  | Starved => False
  end.
Proof.
  unfold parse. pose proof (tokenize_wf s) as Ht. destruct (tokenize (Lexer_new s)) as [ts|e|]; [|done..].
  assert (tokens_wf (tokens (Parser_new ts))) as Hw.
  { unfold tokens_wf in *. rewrite Forall_forall in *. cbn. intros st Hst. apply Ht.
    apply list_elem_of_In, filter_In in Hst as [Hst _]. by apply list_elem_of_In. }
  pose proof (parse_program_wp _ Hw (Parser_new ts) eq_refl) as Hp. unfold wp in Hp.
  destruct (parse_program (Parser_new ts)); [|done..]. tauto.
Qed.
(** What the executor is promised of an accepted program *)
Definition plans_well (prog : GqlProgram) : Prop :=
  plan prog ≠ panic ∧ ∀ pl, plan prog = Ok pl → executable pl = true.
(** C11: Parsing terminates and what it accepts can be planned. On every input the parser returns a
    program or an error, the recursion and every loop of it having enough with the tokens there are;
    it accepts only when it has read everything up to the end of the input. An accepted program never
    makes the planner panic, and what the planner returns for it is made of the operators that the
    executor runs. *)
Theorem parse_then_plan (s : text) :
  match parse s with
  | Parsed prog p => at_end p = true ∧ plans_well prog
  | Failed _ => True
  | Starved => False
  end.
Proof.
  pose proof (parse_good s) as Hp. destruct (parse s) as [prog p|e|]; [|done..]. destruct Hp as [He Hg].
  assert (plans true False (plan prog)) as Hplans.
  { apply plans_program. intros st Hst. split; [left|done]. apply good_has_path. rewrite Forall_forall in Hg. by apply Hg. }
  split; [unfold at_end; by apply bool_decide_true|]. split; [by intros Hn; rewrite Hn in Hplans|]. intros pl Hpl. by rewrite Hpl in Hplans.
Qed.
End parsing.
