(* ===== verification/Printing.v ===== *)
(** * Printing programs as tokens

    The grammar that parser.rs accepts, from the side of the trees: [print] writes an expression with
    parentheses exactly where its level asks for them, [print_statement] a statement and
    [print_program] a program, and [writable] says which trees can be written (no clause that has no
    syntax, nesting within the limit). [RoundTrip.v] proves that the parser reads what is printed. *)
From S2P Require Import Prelude Types Lexer F64 Text Ast Parser.

(** ** Names *)
Definition utf8_string (s : string) : bool := bool_decide (string_of_chars (chars s) = s).
Definition ident (s : string) : Token := TIdent (chars s).
(** Where the parser takes a keyword as a name *)
Definition name_keywords : list Token :=
  [TMatch; TReturn; TWhere; TInsert; TCreate; TSet; TDelete; TDetach; TRemove; TDrop; TWith; TOrder; TBy; TLimit; TOffset;
   TAsc; TDesc; TDistinct; TAs; TAnd; TOr; TNot; TXor; TIs; TNull; TTrue; TFalse; TIn; TExists; TCase; TWhen; TThen; TElse;
   TEnd; TUnion; TAll; TOptional; TCall; TYield; TLike; TNode; TEdge; TGraph; TType; TGroup; THaving; TLet; TFor; TFilter;
   TCount; TSum; TAvg; TMin; TMax; TCollect; TPath; TCost; TFrom; TTo].
Definition name_token (s : string) : Token :=
  default (ident s) (List.find (λ t, bool_decide (keyword_name t = Some s)) name_keywords).
(** Identifiers in expressions: "*" and the keywords that stand for themselves *)
Definition identifier_tokens : list (string * Token) :=
  [("*", TStar); ("type", TType); ("count", TCount); ("sum", TSum); ("avg", TAvg); ("min", TMin); ("max", TMax);
   ("collect", TCollect)]%string.
Fixpoint find_name (table : list (string * Token)) (s : string) : Token :=
  match table with [] => ident s | (name, t) :: table' => if decide (s = name) then t else find_name table' s end.
Definition identifier_token : string → Token := find_name identifier_tokens.
Definition function_token : string → Token := find_name [("type"%string, TType)].
Definition aggregate_token (f : AggregateFunction) : option Token :=
  match f with
  | AggCount => Some TCount | AggSum => Some TSum | AggAvg => Some TAvg | AggMin => Some TMin | AggMax => Some TMax
  | AggCollect => Some TCollect
  | _ => None
  end.

(** ** Lists of tokens *)
Definition commas {A} (pr : A → list Token) (l : list A) : list Token :=
  match l with [] => [] | a :: l' => pr a ++ flat_map (λ b, TComma :: pr b) l' end.
Definition optionally {A} (pr : A → list Token) (o : option A) : list Token := match o with Some a => pr a | None => [] end.
Definition flag (b : bool) (ts : list Token) : list Token := if b then ts else [].
Definition colon_labels (labels : list string) : list Token := flat_map (λ s, [TColon; ident s]) labels.

(** ** Levels of expressions: the methods from [parse_or_expr], 0, to [parse_primary], 10 *)
Definition op_level (op : BinaryOp) : nat :=
  match op with
  | OpOr => 0 | OpXor => 1 | OpAnd => 2
  | OpEq | OpNeq | OpLt | OpGt | OpLe | OpGe => 4
  | OpConcat => 5 | OpAdd | OpSub => 6 | OpMul | OpDiv | OpMod => 7
  end.
Definition op_token (op : BinaryOp) : Token :=
  match op with
  | OpOr => TOr | OpXor => TXor | OpAnd => TAnd | OpEq => TEq | OpNeq => TNeq | OpLt => TLt | OpGt => TGt | OpLe => TLe
  | OpGe => TGe | OpConcat => TDoublePipe | OpAdd => TPlus | OpSub => TMinus | OpMul => TStar | OpDiv => TSlash
  | OpMod => TPercent
  end.
Definition unary_level (op : UnaryOp) : nat := match op with OpNot => 3 | OpNeg | OpPos => 8 end.
Definition unary_token (op : UnaryOp) : Token := match op with OpNot => TNot | OpNeg => TMinus | OpPos => TPlus end.
Definition prec (e : Expression) : nat :=
  match e with
  | EBinaryOp _ op _ => op_level op
  | EUnaryOp op _ => unary_level op
  | EIsNull _ | EIsNotNull _ | EIn _ _ | ELike _ _ => 4
  | EPropertyAccess _ _ => 9
  | _ => 10
  end.
(** A comparison was read in the chain of this level, so no other may follow. *)
Fixpoint compared (e : Expression) : bool :=
  match e with
  | EBinaryOp _ op _ => bool_decide (op_level op = 4%nat)
  | EIsNull a | EIsNotNull a | EIn a _ | ELike a _ => compared a
  | _ => false
  end.
(** The level at which the left operand of [op] is read *)
Definition left_level (op : BinaryOp) (l : Expression) : nat :=
  if bool_decide (op_level op = 4%nat) && compared l then 5 else op_level op.

Definition print_literal (lit : Literal) : list Token :=
  match lit with
  | LInteger z => [TIntegerLit z] | LFloat b => [TFloatLit b] | LString s => [TStringLit (chars s)]
  | LBool true => [TTrue] | LBool false => [TFalse] | LNull => [TNull]
  | _ => []
  end.
Definition writable_literal (lit : Literal) : bool :=
  match lit with LInteger _ | LFloat _ | LBool _ | LNull => true | LString s => utf8_string s | _ => false end.
(** The target of SET and REMOVE *)
Fixpoint print_target (e : Expression) : list Token :=
  match e with
  | EIdentifier s => [ident s]
  | EPropertyAccess o property => print_target o ++ [TDot; name_token property]
  | _ => []
  end.
Fixpoint writable_target (e : Expression) : bool :=
  match e with
  | EIdentifier s => utf8_string s
  | EPropertyAccess o property => writable_target o && utf8_string property
  | _ => false
  end.

(** ** Clauses and patterns, given how expressions are printed *)
Section clauses.
Variable pe : Expression → list Token.
Definition print_where (w : WhereClause) : list Token := let '(mkWhere e) := w in TWhere :: pe e.
Definition print_having (h : HavingClause) : list Token := let '(mkHaving e) := h in THaving :: pe e.
Definition print_order_item (i : OrderByItem) : list Token :=
  let '(mkOrderByItem e d) := i in pe e ++ match d with Asc => [TAsc] | Desc => [TDesc] end.
Definition print_order (o : OrderByClause) : list Token := let '(mkOrderBy l) := o in TOrder :: TBy :: commas print_order_item l.
Definition print_limit (l : LimitOffsetClause) : list Token :=
  let '(mkLimitOffset limit offset) := l in
  optionally (λ e, TLimit :: pe e) limit ++ optionally (λ e, TOffset :: pe e) offset.
Definition print_group (g : GroupByClause) : list Token := let '(mkGroupBy l) := g in TGroup :: TBy :: commas pe l.
Definition print_item (i : ReturnItem) : list Token :=
  let '(mkReturnItem e alias) := i in pe e ++ optionally (λ s, [TAs; name_token s]) alias.
Definition print_entry (kv : string * Expression) : list Token := name_token kv.1 :: TColon :: pe kv.2.
Definition print_properties (l : list (string * Expression)) : list Token :=
  match l with [] => [] | _ => TLBrace :: commas print_entry l ++ [TRBrace] end.
Definition print_node (n : NodePattern) : list Token :=
  let '(mkNodePattern variable labels properties) := n in
  TLParen :: optionally (λ s, [ident s]) variable ++ colon_labels labels ++ print_properties properties ++ [TRParen].
Definition print_quantifier (q : Quantifier) : list Token :=
  TLBrace :: optionally (λ n, [TIntegerLit n]) (q_min q) ++ TComma :: optionally (λ n, [TIntegerLit n]) (q_max q) ++ [TRBrace].
Definition print_edge (e : EdgePattern) : list Token :=
  let '(mkEdgePattern variable direction labels properties quantifier) := e in
  let inside := optionally (λ s, [ident s]) variable ++ colon_labels labels ++ print_properties properties in
  match direction with
  | Outgoing => match inside with [] => [TArrow] | _ => TMinus :: TLBracket :: inside ++ [TRBracket; TArrow] end
  | Incoming => match inside with [] => [TLeftArrow] | _ => TLeftArrow :: TLBracket :: inside ++ [TRBracket; TMinus] end
  | Undirected => TMinus :: TLBracket :: inside ++ [TRBracket; TMinus]
  end ++ optionally print_quantifier quantifier.
Definition print_element (e : PatternElement) : list Token := match e with PNode n => print_node n | PEdge e => print_edge e end.
Definition mode_token (m : PathMode) : Token :=
  match m with Walk => TWalk | Trail => TTrail | Simple => TSimple | Acyclic => TAcyclic end.
Definition print_path (p : PathPattern) : list Token :=
  let '(mkPathPattern _ mode _ elements quantifier _) := p in
  optionally (λ m, [mode_token m]) mode ++ flat_map print_element elements ++ optionally print_quantifier quantifier.
Definition print_graph (g : GraphPattern) : list Token := let '(mkGraphPattern paths _) := g in commas print_path paths.
Definition print_set_item (i : SetItem) : list Token :=
  match i with
  | SetItemProperty target property value => print_target (EPropertyAccess target property) ++ TEq :: pe value
  | SetItemLabel target label => print_target target ++ [TColon; ident label]
  | SetItemAllProperties target value => print_target target ++ TEq :: pe value
  end.
Definition print_remove_item (i : RemoveItem) : list Token :=
  match i with
  | RemoveItemProperty target property => print_target (EPropertyAccess target property)
  | RemoveItemLabel target label => print_target target ++ [TColon; ident label]
  end.
End clauses.

(** The dotted name of a procedure *)
Fixpoint split_dots (acc t : text) : list text :=
  match t with
  | [] => [rev acc]
  | c :: t' => if c =? 46 then rev acc :: split_dots [] t' else split_dots (c :: acc) t'
  end.
Definition procedure_parts (s : string) : list text := split_dots [] (chars s).
Definition join_parts (parts : list text) : string :=
  match parts with
  | [] => EmptyString
  | first :: rest => foldl (λ name part, name +:+ "." +:+ string_of_chars part) (string_of_chars first) rest
  end.
Definition print_procedure (s : string) : list Token :=
  match procedure_parts s with [] => [] | first :: rest => TIdent first :: flat_map (λ part, [TDot; TIdent part]) rest end.

(** ** Data definition *)
Definition print_decl (d : PropertyDecl) : list Token :=
  [ident (decl_name d); TColon; ident (property_type d)] ++ flag (required d) [TNot; TNull] ++ [TComma].
Definition print_decls (l : list PropertyDecl) : list Token :=
  match l with [] => [] | _ => TLBrace :: flat_map print_decl l ++ [TRBrace] end.
Definition print_node_type (n : NodeType) : list Token :=
  TNode :: colon_labels (nt_labels n) ++ print_decls (nt_properties n) ++ [TComma].
Definition print_edge_type (e : EdgeType) : list Token :=
  TEdge :: colon_labels (et_labels e) ++ flat_map (λ s, [TFrom; ident s]) (et_source e) ++
  flat_map (λ s, [TTo; ident s]) (et_destination e) ++ print_decls (et_properties e) ++ [TComma].
Definition print_graph_type (g : GraphType) : list Token :=
  TLBrace :: flat_map print_node_type (node_types g) ++ flat_map print_edge_type (edge_types g) ++ [TRBrace].
Definition if_not_exists (b : bool) : list Token := flag b [TIf; TNot; TExists].
Definition if_exists (b : bool) : list Token := flag b [TIf; TExists].
Definition print_definition (s : GqlStatement) : list Token :=
  match s with
  | SCreateGraph c =>
      TCreate :: TGraph :: if_not_exists (cg_if_not_exists c) ++ ident (cg_name c) :: optionally print_graph_type (cg_graph_type c)
  | SCreateGraphType c =>
      TCreate :: TGraph :: TType :: if_not_exists (cgt_if_not_exists c) ++ ident (cgt_name c) :: print_graph_type (cgt_graph_type c)
  | SCreateIndex c =>
      TCreate :: flag (ci_unique c) [TUnique] ++ TIndex :: if_not_exists (ci_if_not_exists c) ++
      name_token (ci_name c) :: TFor :: TLParen :: ident "n" :: optionally (λ l, [TColon; name_token l]) (ci_label c) ++
      TRParen :: TOn :: TLParen :: commas (λ p, [name_token p]) (ci_property_names c) ++ [TRParen]
  | SDropGraph d => TDrop :: TGraph :: if_exists (dg_if_exists d) ++ [ident (dg_name d)]
  | SDropIndex d => TDrop :: TIndex :: if_exists (di_if_exists d) ++ [name_token (di_name d)]
  | SListGraphs => [TList; ident "graphs"]
  | _ => []
  end.
Definition set_token (op : SetOp) : Token := match op with OpUnion => TUnion | OpIntersect => TIntersect | OpExcept => TExcept end.

(** ** Expressions and statements *)
Fixpoint print (k : nat) (e : Expression) {struct e} : list Token :=
  let ts :=
    match e with
    | ELiteral lit => print_literal lit
    | EIdentifier s => [identifier_token s]
    | EPropertyAccess o property => print 9 o ++ [TDot; name_token property]
    | EFunctionCall name args => function_token name :: TLParen :: commas (print 0) args ++ [TRParen]
    | EBinaryOp l op r => print (left_level op l) l ++ op_token op :: print (S (op_level op)) r
    | EUnaryOp op a => unary_token op :: print (unary_level op) a
    | ECase operand whens els =>
        TCase :: optionally (print 0) operand ++ flat_map (λ wt, TWhen :: print 0 wt.1 ++ TThen :: print 0 wt.2) whens ++
        optionally (λ a, TElse :: print 0 a) els ++ [TEnd]
    | EExists s => TExists :: TLBrace :: print_statement s ++ [TRBrace]
    | EAggregate f distinct arg =>
        optionally (λ t, [t]) (aggregate_token f) ++ TLParen :: flag distinct [TDistinct] ++
        match arg with Some a => print 0 a | None => flag (negb distinct) [TStar] end ++ [TRParen]
    | EList l => TLBracket :: commas (print 0) l ++ [TRBracket]
    | EMap l => TLBrace :: commas (λ kv, ident kv.1 :: TColon :: print 0 kv.2) l ++ [TRBrace]
    | EParameter s => [TParameter (chars s)]
    | EIsNull a => print 4 a ++ [TIs; TNull]
    | EIsNotNull a => print 4 a ++ [TIs; TNot; TNull]
    | EIn a l => print 4 a ++ TIn :: print 5 l
    | ELike a l => print 4 a ++ TLike :: print 5 l
    | ESubquery _ | ETypeCast _ _ | EPath _ => []
    end in
  if (prec e <? k)%nat then TLParen :: ts ++ [TRParen] else ts
with print_statement (s : GqlStatement) {struct s} : list Token :=
  match s with
  | SMatch (mkMatch _ optional pattern w ob lo) =>
      flag optional [TOptional] ++ TMatch :: print_graph (print 0) pattern ++ optionally (print_where (print 0)) w ++
      optionally (print_order (print 0)) ob ++ optionally (print_limit (print 0)) lo
  | SReturn (mkReturn distinct items gb hv ob lo) =>
      TReturn :: flag distinct [TDistinct] ++ commas (print_item (print 0)) items ++ optionally (print_group (print 0)) gb ++
      optionally (print_having (print 0)) hv ++ optionally (print_order (print 0)) ob ++ optionally (print_limit (print 0)) lo
  | SWith (mkWith distinct items w ob lo) =>
      TWith :: flag distinct [TDistinct] ++ commas (print_item (print 0)) items ++ optionally (print_where (print 0)) w ++
      optionally (print_order (print 0)) ob ++ optionally (print_limit (print 0)) lo
  | SInsert (mkInsert patterns) => TInsert :: commas (print_path (print 0)) patterns
  | SSet (mkSet items) => TSet :: commas (print_set_item (print 0)) items
  | SDelete (mkDelete detach targets) => flag detach [TDetach] ++ TDelete :: commas (print 0) targets
  | SRemove (mkRemove items) => TRemove :: commas print_remove_item items
  | SCall (mkCall procedure arguments yields) =>
      TCall :: print_procedure procedure ++ TLParen :: commas (print 0) arguments ++ TRParen ::
      optionally (λ l, TYield :: commas (λ s, [ident s]) l) yields
  | SCompositeQuery (mkCompositeQuery body _ _) => print_operation body
  | _ => print_definition s
  end
with print_operation (o : SetOperation) {struct o} : list Token :=
  let '(mkSetOperation op all l r) := o in
  match l with OperandQuery [first] => print_statement first | _ => [] end ++
  set_token op :: flag all [TAll] ++
  match r with OperandQuery [second] => print_statement second | OperandSetOp o' => print_operation o' | _ => [] end.
Definition print_program (prog : GqlProgram) (semicolons : list bool) : list Token :=
  flat_map (λ sb, print_statement sb.1 ++ flag sb.2 [TSemicolon]) (combine (statements prog) semicolons).

(** ** What can be written: [d] more levels of nesting *)
Definition all_of {A} (w : A → bool) (o : option A) : bool := match o with Some a => w a | None => true end.
Section writable.
Variable we : Expression → bool.
Definition writable_where (w : WhereClause) : bool := let '(mkWhere e) := w in we e.
Definition writable_having (h : HavingClause) : bool := let '(mkHaving e) := h in we e.
Definition writable_order_item (i : OrderByItem) : bool := let '(mkOrderByItem e _) := i in we e.
Definition nonempty {A} (l : list A) : bool := match l with [] => false | _ => true end.
Definition writable_order (o : OrderByClause) : bool := let '(mkOrderBy l) := o in nonempty l && forallb writable_order_item l.
Definition writable_limit (l : LimitOffsetClause) : bool :=
  let '(mkLimitOffset limit offset) := l in
  all_of we limit && all_of we offset && match limit, offset with None, None => false | _, _ => true end.
Definition writable_group (g : GroupByClause) : bool := let '(mkGroupBy l) := g in nonempty l && forallb we l.
Definition writable_item (i : ReturnItem) : bool := let '(mkReturnItem e alias) := i in we e && all_of utf8_string alias.
Definition writable_items (l : list ReturnItem) : bool := nonempty l && forallb writable_item l.
Definition writable_entry (kv : string * Expression) : bool := utf8_string kv.1 && we kv.2.
Definition writable_node (n : NodePattern) : bool :=
  let '(mkNodePattern variable labels properties) := n in
  all_of utf8_string variable && forallb utf8_string labels && forallb writable_entry properties.
Definition writable_quantifier (q : Quantifier) : bool :=
  all_of (Z.leb 0) (q_min q) && all_of (Z.leb 0) (q_max q) &&
  match q_min q, q_max q with Some a, Some b => a <=? b | _, _ => true end.
Definition writable_edge (e : EdgePattern) : bool :=
  let '(mkEdgePattern variable _ labels properties quantifier) := e in
  all_of utf8_string variable && forallb utf8_string labels && forallb writable_entry properties &&
  all_of writable_quantifier quantifier.
Definition writable_element (e : PatternElement) : bool := match e with PNode n => writable_node n | PEdge e => writable_edge e end.
(** Nodes do not follow each other, and a quantifier after an edge is the edge's. *)
Fixpoint chained (es : list PatternElement) : bool :=
  match es with PNode _ :: (PNode _ :: _) as es' => false | _ :: es' => chained es' | [] => true end.
Fixpoint takes_quantifier (es : list PatternElement) : bool :=
  match es with
  | [] => true
  | [PEdge (mkEdgePattern _ _ _ _ None)] => false
  | _ :: es' => takes_quantifier es'
  end.
Definition writable_path (p : PathPattern) : bool :=
  let '(mkPathPattern variable mode shortest elements quantifier w) := p in
  match variable, shortest, w with None, None, None => true | _, _, _ => false end &&
  forallb writable_element elements && chained elements && all_of writable_quantifier quantifier &&
  (takes_quantifier elements || match quantifier with None => true | _ => false end).
Definition writable_paths (l : list PathPattern) : bool := nonempty l && forallb writable_path l.
Definition writable_graph (g : GraphPattern) : bool :=
  let '(mkGraphPattern paths mode) := g in writable_paths paths && match mode with None => true | _ => false end.
Definition writable_set_item (i : SetItem) : bool :=
  match i with
  | SetItemProperty target property value => writable_target target && utf8_string property && we value
  | SetItemLabel target label => writable_target target && utf8_string label
  | SetItemAllProperties target value =>
      match target with EIdentifier s => utf8_string s | _ => false end && we value
  end.
Definition writable_remove_item (i : RemoveItem) : bool :=
  match i with
  | RemoveItemProperty target property => writable_target target && utf8_string property
  | RemoveItemLabel target label => writable_target target && utf8_string label
  end.
End writable.
Definition writable_decl (d : PropertyDecl) : bool := utf8_string (decl_name d) && utf8_string (property_type d).
Definition writable_node_type (n : NodeType) : bool :=
  forallb utf8_string (nt_labels n) && forallb writable_decl (nt_properties n).
Definition at_most_one (l : list string) : bool := match l with [] => true | [s] => utf8_string s | _ => false end.
Definition writable_edge_type (e : EdgeType) : bool :=
  forallb utf8_string (et_labels e) && at_most_one (et_source e) && at_most_one (et_destination e) &&
  forallb writable_decl (et_properties e) && bool_decide (et_direction e = Outgoing).
Definition writable_graph_type (g : GraphType) : bool :=
  forallb writable_node_type (node_types g) && forallb writable_edge_type (edge_types g).
Definition writable_definition (s : GqlStatement) : bool :=
  match s with
  | SCreateGraph c => utf8_string (cg_name c) && all_of writable_graph_type (cg_graph_type c)
  | SCreateGraphType c => utf8_string (cgt_name c) && writable_graph_type (cgt_graph_type c)
  | SCreateIndex c =>
      utf8_string (ci_name c) && bool_decide (ci_entity_type c = "node"%string) && all_of utf8_string (ci_label c) &&
      nonempty (ci_property_names c) && forallb utf8_string (ci_property_names c)
  | SDropGraph d => utf8_string (dg_name d)
  | SDropIndex d => utf8_string (di_name d)
  | SListGraphs => true
  | _ => false
  end.
Definition composable (s : GqlStatement) : bool := match s with SMatch _ | SReturn _ => true | _ => false end.
Definition single (s : GqlStatement) : bool := match s with SCompositeQuery _ => false | _ => true end.

(** CASE has an operand or a branch. *)
Definition has_branch (operand : option Expression) (whens : list (Expression * Expression)) : bool :=
  match operand with Some _ => true | None => nonempty whens end.
Fixpoint writable (d k : nat) (e : Expression) {struct e} : bool :=
  let parens := (prec e <? k)%nat in
  let inner := if parens then pred d else d in
  (negb parens || (0 <? d)%nat) &&
  match e with
  | ELiteral lit => writable_literal lit
  | EIdentifier s | EParameter s => utf8_string s
  | EPropertyAccess o property => writable inner 9 o && utf8_string property
  | EFunctionCall name args => utf8_string name && forallb (writable inner 0) args
  | EBinaryOp l op r => writable inner (left_level op l) l && writable inner (S (op_level op)) r
  | EUnaryOp op a => (0 <? inner)%nat && writable (pred inner) (unary_level op) a
  | ECase operand whens els =>
      has_branch operand whens &&
      all_of (writable inner 0) operand && forallb (λ wt, writable inner 0 wt.1 && writable inner 0 wt.2) whens &&
      all_of (writable inner 0) els
  | EExists s => writable_statement inner s
  | EAggregate f distinct arg =>
      match aggregate_token f with Some _ => true | None => false end &&
      match arg with
      | Some a => writable inner 0 a && (distinct || negb (bool_decide (head (print 0 a) = Some TStar)))
      | None => true
      end
  | EList l => forallb (writable inner 0) l
  | EMap l => forallb (λ kv, utf8_string kv.1 && writable inner 0 kv.2) l
  | EIsNull a | EIsNotNull a => writable inner 4 a
  | EIn a l | ELike a l => writable inner 4 a && writable inner 5 l
  | ESubquery _ | ETypeCast _ _ | EPath _ => false
  end
with writable_statement (d : nat) (s : GqlStatement) {struct s} : bool :=
  match s with
  | SMatch (mkMatch graph _ pattern w ob lo) =>
      match graph with None => true | _ => false end && writable_graph (writable d 0) pattern &&
      all_of (writable_where (writable d 0)) w && all_of (writable_order (writable d 0)) ob &&
      all_of (writable_limit (writable d 0)) lo
  | SReturn (mkReturn _ items gb hv ob lo) =>
      writable_items (writable d 0) items && all_of (writable_group (writable d 0)) gb &&
      all_of (writable_having (writable d 0)) hv && all_of (writable_order (writable d 0)) ob &&
      all_of (writable_limit (writable d 0)) lo
  | SWith (mkWith _ items w ob lo) =>
      writable_items (writable d 0) items && all_of (writable_where (writable d 0)) w &&
      all_of (writable_order (writable d 0)) ob && all_of (writable_limit (writable d 0)) lo
  | SInsert (mkInsert patterns) => writable_paths (writable d 0) patterns
  | SSet (mkSet items) => nonempty items && forallb (writable_set_item (writable d 0)) items
  | SDelete (mkDelete _ targets) => nonempty targets && forallb (writable d 0) targets
  | SRemove (mkRemove items) => nonempty items && forallb writable_remove_item items
  | SCall (mkCall procedure arguments yields) =>
      bool_decide (join_parts (procedure_parts procedure) = procedure) && forallb (writable d 0) arguments &&
      all_of (λ l, nonempty l && forallb utf8_string l) yields
  | SCompositeQuery (mkCompositeQuery body ob lo) =>
      match ob, lo with None, None => true | _, _ => false end && writable_operation d body
  | _ => writable_definition s
  end
with writable_operation (d : nat) (o : SetOperation) {struct o} : bool :=
  let '(mkSetOperation op all l r) := o in
  match l with OperandQuery [first] => composable first && writable_statement d first | _ => false end &&
  (0 <? d)%nat &&
  match r with
  | OperandQuery [second] => single second && writable_statement (pred d) second
  | OperandSetOp o' => writable_operation (pred d) o'
  | _ => false
  end.
Definition writable_program (prog : GqlProgram) : bool := forallb (writable_statement MAX_EXPR_DEPTH) (statements prog).
