(* ===== verification/RoundTrip.v ===== *)
(** * The parser reads what the printer writes

    [reads m s a s']: from every parser that has the tokens and the levels of nesting of the place
    [s], the computation [m] succeeds with [a] and leaves the place [s']. The method of each level and
    of each statement is shown to read the tokens that [Printing.v] writes for a tree, whatever
    follows them that does not continue the tree, and to return that tree. *)
From S2P Require Import Prelude Types Lexer F64 Text Ast Expression Debug Parser Printing.

(** ** Places *)
Definition ahead (p : Parser) : list Token := token <$> drop (pos p) (tokens p).
(** The levels of nesting left, and the tokens ahead *)
Definition place : Type := nat * list Token.
Definition stands (p : Parser) (s : place) : Prop := ahead p = s.2 ∧ (depth p + s.1 = MAX_EXPR_DEPTH)%nat.
Definition reads {A} (m : P A) (s : place) (a : A) (s' : place) : Prop :=
  ∀ p, stands p s → ∃ p', m p = Parsed a p' ∧ stands p' s'.
Definition front (i : list Token) : Token := match i with t :: _ => t | [] => TEof end.

Lemma peek_ahead p : peek p = front (ahead p).
Proof. unfold peek, ahead. rewrite <- (Nat.add_0_r (pos p)) at 1. rewrite <- lookup_drop. by destruct (drop (pos p) (tokens p)). Qed.
Lemma peek_at_ahead p n : peek_at p n = ahead p !! n.
Proof. unfold peek_at, ahead. by rewrite list_lookup_fmap, lookup_drop. Qed.
Lemma peek_stands p s : stands p s → peek p = front s.2.
Proof. intros [<- _]. apply peek_ahead. Qed.
Lemma left_stands p s : stands p s → Parser.left p = length s.2.
Proof. intros [<- _]. unfold Parser.left, ahead. by rewrite length_fmap, length_drop. Qed.
Lemma advance_stands p d t i : t ≠ TEof → stands p (d, t :: i) → stands (advance p) (d, i).
Proof.
  intros Ht Hs. pose proof (peek_stands _ _ Hs) as Hp. cbn in Hp. unfold advance, at_end.
  rewrite bool_decide_false by congruence. destruct Hs as [Ha Hd]. cbn in *. split; [|done]. unfold ahead in *. cbn.
  replace (S (pos p)) with (pos p + 1)%nat by lia. by rewrite <- drop_drop, fmap_drop, Ha.
Qed.

Section reads.
Context {A B : Type}.
Implicit Types (m : P A) (d : nat) (i j : list Token) (s : place).
Lemma reads_ret (a : A) s : reads (mret a) s a s.
Proof. intros p Hp. by exists p. Qed.
Lemma reads_bind m (f : A → P B) s a s1 b s2 : reads m s a s1 → reads (f a) s1 b s2 → reads (m ≫= f) s b s2.
Proof.
  intros Hm Hf p Hp. destruct (Hm p Hp) as (p1 & Hp1 & Hs1). destruct (Hf p1 Hs1) as (p2 & Hp2 & Hs2).
  exists p2. unfold mbind, P_bind. by rewrite Hp1.
Qed.
(** What a reader may assume: that it stands somewhere *)
Lemma reads_assume m s a s' : ((s.1 ≤ MAX_EXPR_DEPTH)%nat → reads m s a s') → reads m s a s'.
Proof. intros Hm p Hp. apply Hm; [|done]. destruct Hp as [_ Hd]. lia. Qed.
Lemma reads_ext m m' s a s' : (∀ p, stands p s → m p = m' p) → reads m' s a s' → reads m s a s'.
Proof. intros He Hm p Hp. rewrite He by done. by apply Hm. Qed.
Lemma reads_eq m s a a' s1 s2 : reads m s a s1 → a = a' → s1 = s2 → reads m s a' s2.
Proof. by intros ? -> ->. Qed.
End reads.

Lemma reads_look d i : reads look (d, i) (front i) (d, i).
Proof. intros p Hp. exists p. unfold look. by rewrite (peek_stands _ _ Hp). Qed.
Lemma reads_next d t i : t ≠ TEof → reads next (d, t :: i) tt (d, i).
Proof. intros Ht p Hp. exists (advance p). split; [done|]. by eapply advance_stands. Qed.
Lemma reads_match d t i : t ≠ TEof → reads (match_token t) (d, t :: i) true (d, i).
Proof.
  intros Ht. unfold match_token. eapply reads_bind; [apply reads_look|]. cbn. rewrite decide_True by done.
  eapply reads_bind; [by apply reads_next|apply reads_ret].
Qed.
Lemma reads_match_no d t i : front i ≠ t → reads (match_token t) (d, i) false (d, i).
Proof.
  intros Ht. unfold match_token. eapply reads_bind; [apply reads_look|]. cbn. rewrite decide_False by done. apply reads_ret.
Qed.
Lemma reads_flag d t (b : bool) i : t ≠ TEof → front i ≠ t → reads (match_token t) (d, flag b [t] ++ i) b (d, i).
Proof. intros Ht Hi. destruct b; [by apply reads_match|by apply reads_match_no]. Qed.
Lemma reads_expect `{DebugFormat} d t i : t ≠ TEof → reads (expect t) (d, t :: i) tt (d, i).
Proof. intros Ht. unfold expect. eapply reads_bind; [by apply reads_match|]. apply reads_ret. Qed.
Lemma reads_enter {B} (f : () → P B) d i b s :
  ((d < MAX_EXPR_DEPTH)%nat → reads (f tt) (d, i) b s) → reads (enter_depth ≫= f) (S d, i) b s.
Proof.
  intros Hf p [Ha Hd]. cbn in *. destruct (Hf ltac:(lia) (mkParser (tokens p) (pos p) (S (depth p)))) as (p' & Hp' & Hs').
  { split; [exact Ha|cbn; lia]. }
  exists p'. split; [|done]. unfold mbind, P_bind, enter_depth. cbn [depth tokens pos].
  destruct (Nat.ltb_spec MAX_EXPR_DEPTH (S (depth p))); [lia|done].
Qed.
Lemma reads_exit d i : (d < MAX_EXPR_DEPTH)%nat → reads exit_depth (d, i) tt (S d, i).
Proof. intros Hl p [Ha Hd]. cbn in *. eexists. split; [done|]. split; [exact Ha|cbn; lia]. Qed.

Section optional.
Context {A : Type}.
Implicit Types (m : P A) (d : nat) (i : list Token).
Lemma reads_when t m d i a s : front i = t → reads m (d, i) a s → reads (when_token t m) (d, i) (Some a) s.
Proof.
  intros Ht Hm. unfold when_token. eapply reads_bind; [apply reads_look|]. cbn. rewrite decide_True by done.
  eapply reads_bind; [done|]. apply reads_ret.
Qed.
Lemma reads_when_no t m d i : front i ≠ t → reads (when_token t m) (d, i) None (d, i).
Proof. intros Ht. unfold when_token. eapply reads_bind; [apply reads_look|]. cbn. rewrite decide_False by done. apply reads_ret. Qed.
Lemma reads_after t m d i a s : t ≠ TEof → reads m (d, i) a s → reads (after_token t m) (d, t :: i) (Some a) s.
Proof.
  intros Ht Hm. unfold after_token. eapply reads_bind; [by apply reads_match|]. cbn. eapply reads_bind; [done|]. apply reads_ret.
Qed.
Lemma reads_after_no t m d i : front i ≠ t → reads (after_token t m) (d, i) None (d, i).
Proof. intros Ht. unfold after_token. eapply reads_bind; [by apply reads_match_no|]. cbn. apply reads_ret. Qed.
End optional.

(** ** Loops *)
Section chain.
Context {A : Type} (body : A → P (option A)).
(** Runs of the loop that shrink the tokens at each turn *)
Inductive chain : A → place → A → place → Prop :=
| chain_refl a s : chain a s a s
| chain_snoc a s b s1 c s2 : chain a s b s1 → reads (body b) s1 (Some c) s2 → (length s2.2 < length s1.2)%nat → chain a s c s2.
Lemma chain_run a s b s1 : chain a s b s1 → ∀ p, stands p s →
  ∃ p1 k, stands p1 s1 ∧ (k + length s1.2 ≤ length s.2)%nat ∧ ∀ n, iterate_n (k + n) body a p = iterate_n n body b p1.
Proof.
  induction 1 as [a s|a s b s1 c s2 _ IH Hb Hl]; intros p Hp.
  - exists p, 0%nat. split_and!; [done|lia|done].
  - destruct (IH p Hp) as (p1 & k & Hp1 & Hk & Hn). destruct (Hb p1 Hp1) as (p2 & Hp2 & Hs2).
    exists p2, (S k). split_and!; [done|lia|]. intros n. replace (S k + n)%nat with (k + S n)%nat by lia.
    rewrite Hn. cbn [iterate_n]. unfold mbind, P_bind. by rewrite Hp2.
Qed.
Lemma reads_iterate a s b s1 s2 : chain a s b s1 → reads (body b) s1 None s2 → reads (iterate body a) s b s2.
Proof.
  intros Hc Hb p Hp. destruct (chain_run _ _ _ _ Hc p Hp) as (p1 & k & Hp1 & Hk & Hn).
  destruct (Hb p1 Hp1) as (p2 & Hp2 & Hs2). exists p2. split; [|done]. unfold iterate. rewrite (left_stands _ _ Hp).
  replace (S (length s.2)) with (k + S (length s.2 - k))%nat by lia. rewrite Hn. cbn [iterate_n]. unfold mbind, P_bind.
  by rewrite Hp2.
Qed.
Lemma chain_trans a s b s1 c s2 : chain a s b s1 → chain b s1 c s2 → chain a s c s2.
Proof.
  intros H1 H2. revert H1. induction H2 as [|? ? ? ? ? ? _ IH Hb Hl]; intros H1; [done|]. eapply chain_snoc; [by apply IH|exact Hb|exact Hl].
Qed.
Lemma chain_step a s b s1 : reads (body a) s (Some b) s1 → (length s1.2 < length s.2)%nat → chain a s b s1.
Proof. intros Hb Hl. eapply chain_snoc; [apply chain_refl|done..]. Qed.
End chain.

Section lists.
Context {A : Type}.
Implicit Types (item : P A) (pr : A → list Token) (d : nat) (rest : list Token).
(** What an item is to read: its tokens, when a token that [F] admits follows *)
Definition reads_items item pr d (F : Token → Prop) (l : list A) : Prop :=
  ∀ a rest, a ∈ l → F (front rest) → reads item (d, pr a ++ rest) a (d, rest).
Lemma reads_while t item pr d F l acc rest : t ≠ TEof → reads_items item pr d F l → F t → F (front rest) → front rest ≠ t →
  reads (while_match t item acc) (d, flat_map (λ a, t :: pr a) l ++ rest) (acc ++ l) (d, rest).
Proof.
  intros Ht Hitem Hft Hfr Hne. unfold while_match.
  eapply (reads_iterate _ _ _ (acc ++ l) (d, rest)); [|eapply reads_bind; [by apply reads_match_no|apply reads_ret]].
  revert acc. induction l as [|a l IH]; intros acc; [rewrite app_nil_r; apply chain_refl|]. cbn [flat_map]. rewrite <- app_assoc.
  eapply chain_trans; [eapply chain_step|].
  - eapply reads_bind; [by apply reads_match|]. eapply reads_bind; [|apply reads_ret].
    apply Hitem; [by left|]. destruct l; [done|]. cbn. done.
  - cbn. rewrite !length_app. lia.
  - cbn [app]. rewrite (cons_middle a acc l), app_assoc. apply IH. intros b r Hb. apply Hitem. by right.
Qed.
Lemma reads_commas item pr d F l rest : l ≠ [] → reads_items item pr d F l → F TComma → F (front rest) → front rest ≠ TComma →
  reads (comma_separated item) (d, commas pr l ++ rest) l (d, rest).
Proof.
  intros Hl Hitem Hfc Hfr Hne. destruct l as [|a l]; [done|]. unfold comma_separated, commas. rewrite <- app_assoc.
  eapply reads_bind.
  - apply Hitem; [by left|]. destruct l; [done|]. cbn. done.
  - change (a :: l) with ([a] ++ l). eapply reads_while; [done| |done..]. intros b r Hb. apply Hitem. by right.
Qed.
Lemma reads_list_until `{DebugFormat} close item pr d F l rest : close ≠ TEof → close ≠ TComma →
  reads_items item pr d F l → F TComma → F close → (∀ a r, a ∈ l → front (pr a ++ r) ≠ close) →
  reads (list_until close item) (d, commas pr l ++ close :: rest) l (d, rest).
Proof.
  intros Hc Hcc Hitem Hfc Hfl Hfirst. unfold list_until. eapply reads_bind; [apply reads_look|].
  eapply (reads_bind _ _ _ l (d, close :: rest)).
  - destruct l as [|a l]; [cbn; rewrite decide_True by done; apply reads_ret|]. rewrite decide_False.
    + eapply reads_commas; [done|exact Hitem|done..].
    + unfold commas. rewrite <- app_assoc. apply Hfirst. by left.
  - eapply reads_bind; [by apply reads_expect|]. apply reads_ret.
Qed.
Lemma flat_map_length (f : A → list Token) l a : a ∈ l → (length (f a) ≤ length (flat_map f l))%nat.
Proof. induction 1; cbn; rewrite length_app; lia. Qed.
Lemma commas_length (pr : A → list Token) l a : a ∈ l → (length (pr a) ≤ length (commas pr l))%nat.
Proof.
  destruct l as [|b l]; [by intros ?%elem_of_nil|]. cbn. rewrite length_app. intros [->|Ha]%elem_of_cons; [lia|].
  pose proof (flat_map_length (λ b, TComma :: pr b) l a Ha). cbn in *. lia.
Qed.
End lists.

(** ** Steps of a computation *)
Create HintDb reads.
#[export] Hint Resolve reads_ret reads_look : reads.
#[export] Hint Extern 1 (reads next _ _ _) => apply reads_next; discriminate : reads.
#[export] Hint Extern 1 (reads (match_token _) (_, ?t :: _) _ _) => apply reads_match; discriminate : reads.
#[export] Hint Extern 2 (reads (match_token _) _ _ _) => apply reads_match_no : reads.
#[export] Hint Extern 1 (reads (expect _) _ _ _) => apply reads_expect; discriminate : reads.
Ltac tidy := cbv beta iota; repeat first [rewrite <- app_assoc | progress cbn [app front flag optionally fst snd]].
(** The next computation of a sequence, by a hint *)
Ltac read :=
  tidy;
  lazymatch goal with
  | |- reads (mbind _ _) _ _ _ => eapply reads_bind; [first [solve [eauto with reads] | solve [repeat read]]|cbv beta; tidy]
  | |- reads (mret _) _ _ _ => apply reads_ret
  | |- reads (if true then _ else _) _ _ _ => cbv beta iota
  | |- reads (if false then _ else _) _ _ _ => cbv beta iota
  end.

Section names.
Context `{DebugFormat}.
Implicit Types (d : nat) (rest : list Token) (s : string).
Lemma reads_ident d s rest : utf8_string s = true → reads expect_ident (d, ident s :: rest) s (d, rest).
Proof.
  intros Hs%bool_decide_eq_true. unfold expect_ident. read. cbn. unfold ident. read. rewrite Hs. apply reads_ret.
Qed.
Lemma reads_keyword d t s rest : keyword_name t = Some s → reads expect_ident_or_keyword (d, t :: rest) s (d, rest).
Proof.
  intros Ht. unfold expect_ident_or_keyword. read. cbn. destruct t; try discriminate; injection Ht as <-; cbn; read; apply reads_ret.
Qed.
Lemma reads_ident_name d s rest : utf8_string s = true → reads expect_ident_or_keyword (d, ident s :: rest) s (d, rest).
Proof.
  intros Hs%bool_decide_eq_true. unfold expect_ident_or_keyword, ident. read. read. rewrite Hs. apply reads_ret.
Qed.
Lemma reads_name d s rest : utf8_string s = true → reads expect_ident_or_keyword (d, name_token s :: rest) s (d, rest).
Proof.
  intros Hs. unfold name_token. destruct (List.find _ name_keywords) as [t|] eqn:Ht.
  - apply find_some in Ht as [_ Ht%bool_decide_eq_true]. by apply reads_keyword.
  - by apply reads_ident_name.
Qed.
#[local] Hint Resolve reads_ident reads_name : reads.
Lemma reads_after_name t name (pr : string → Token) d (o : option string) rest : t ≠ TEof →
  (∀ s rest, utf8_string s = true → reads name (d, pr s :: rest) s (d, rest)) →
  all_of utf8_string o = true → front rest ≠ t →
  reads (after_token t name) (d, optionally (λ s, [t; pr s]) o ++ rest) o (d, rest).
Proof.
  intros Ht Hn Ho Hr. destruct o as [s|]; [|by apply reads_after_no]. cbn in *. apply reads_after; [done|]. by apply Hn.
Qed.
Lemma reads_labels d labels rest : forallb utf8_string labels = true → front rest ≠ TColon →
  reads (while_match TColon expect_ident []) (d, colon_labels labels ++ rest) labels (d, rest).
Proof.
  intros Hl Hr. eapply (reads_while _ _ (λ s, [ident s]) d (λ _, True) labels []); [done| |done..].
  intros s r Hs _. apply reads_ident. rewrite forallb_forall in Hl. by apply Hl, list_elem_of_In.
Qed.

(** *** Targets of SET and REMOVE *)
Lemma target_chain d e rest : writable_target e = true →
  ∃ s j, utf8_string s = true ∧ print_target e ++ rest = ident s :: j ∧
    chain (λ expr, b ← match_token TDot;
                   if b : bool then prop ← expect_ident_or_keyword; mret (Some (EPropertyAccess expr prop)) else mret None)
      (EIdentifier s) (d, j) e (d, rest).
Proof.
  revert rest. induction e as [| s|o property IH| | | | | | | | | | | | | | | | ] using Expression_tree_ind; intros rest Hw; try done.
  - exists s, rest. split_and!; [done|done|apply chain_refl].
  - cbn in Hw. apply andb_true_iff in Hw as [Ho Hp]. destruct (IH (TDot :: name_token property :: rest) Ho) as (s & j & Hs & Hj & Hc).
    exists s, j. split_and!; [done|cbn; by rewrite <- app_assoc|]. eapply chain_snoc; [exact Hc| |cbn; lia].
    repeat read.
Qed.
Lemma reads_target d e rest : writable_target e = true → front rest ≠ TDot →
  reads parse_target_expr (d, print_target e ++ rest) e (d, rest).
Proof.
  intros Hw Hr. destruct (target_chain d e rest Hw) as (s & j & Hs & -> & Hc). unfold parse_target_expr. read.
  eapply reads_iterate; [exact Hc|]. eapply reads_bind; [by apply reads_match_no|apply reads_ret].
Qed.
End names.
#[export] Hint Resolve reads_ident reads_name : reads.
#[export] Hint Extern 1 (reads (after_token _ expect_ident_or_keyword) _ _ _) =>
  apply (reads_after_name _ _ name_token); [discriminate|apply reads_name|assumption|cbn; discriminate] : reads.

Lemma forallb_elem {A} (f : A → bool) l a : forallb f l = true → a ∈ l → f a = true.
Proof. intros Hl Ha. rewrite forallb_forall in Hl. by apply Hl, list_elem_of_In. Qed.

(** ** Data definition *)
Section definition.
Context `{DebugFormat}.
Implicit Types (d : nat) (rest : list Token).
Definition opens_item {X} (pr : X → list Token) : Prop := ∀ x, ∃ t ts, pr x = t :: ts ∧ t ≠ TRBrace ∧ t ≠ TEof.
Lemma rbrace_chain {A X} (body : A → P A) (pr : X → list Token) (step : A → X → A) d l a rest : opens_item pr →
  (∀ x a r, x ∈ l → reads (body a) (d, pr x ++ r) (step a x) (d, r)) →
  chain (λ a, t ← look; if decide (t = TRBrace ∨ t = TEof) then mret None else a' ← body a; mret (Some a'))
    a (d, flat_map pr l ++ rest) (foldl step a l) (d, rest).
Proof.
  intros Ho. revert a. induction l as [|x l IH]; intros a Hb; [apply chain_refl|]. cbn [flat_map foldl]. rewrite <- app_assoc.
  destruct (Ho x) as (t & ts & Hx & Ht1 & Ht2).
  eapply chain_trans; [eapply chain_step|apply IH].
  - eapply reads_bind; [apply reads_look|]. rewrite Hx. cbn [front app]. rewrite decide_False by tauto.
    eapply reads_bind; [|apply reads_ret]. pose proof (Hb x a (flat_map pr l ++ rest) ltac:(by left)) as Hr. by rewrite Hx in Hr.
  - cbn. rewrite Hx, !length_app. cbn. lia.
  - intros y b r Hy. apply Hb. by right.
Qed.
Lemma reads_rbrace {A} (body : A → P A) a s b d rest :
  chain (λ a, t ← look; if decide (t = TRBrace ∨ t = TEof) then mret None else a' ← body a; mret (Some a')) a s b (d, TRBrace :: rest) →
  reads (until_rbrace body a) s b (d, TRBrace :: rest).
Proof.
  intros Hc. eapply reads_iterate; [exact Hc|]. eapply reads_bind; [apply reads_look|]. cbn [front].
  rewrite decide_True by tauto. apply reads_ret.
Qed.
Lemma reads_if_not_exists d b t rest : t ≠ TIf → reads parse_if_not_exists (d, if_not_exists b ++ t :: rest) b (d, t :: rest).
Proof. intros Ht. unfold parse_if_not_exists. destruct b; cbn; repeat read. Qed.
Lemma reads_if_exists d b t rest : t ≠ TIf → reads parse_if_exists (d, if_exists b ++ t :: rest) b (d, t :: rest).
Proof. intros Ht. unfold parse_if_exists. destruct b; cbn; repeat read. Qed.

Lemma reads_decl d decl rest : writable_decl decl = true → reads parse_property_decl (d, print_decl decl ++ rest) decl (d, rest).
Proof.
  destruct decl as [name type req]. intros [Hn Ht]%andb_true_iff. cbn in *. unfold parse_property_decl, print_decl. cbn.
  destruct req; cbn; repeat read.
Qed.
Lemma foldl_snoc {A} (l acc : list A) : foldl (λ l a, l ++ [a]) acc l = acc ++ l.
Proof. revert acc. induction l as [|a l IH]; intros acc; cbn; [by rewrite app_nil_r|]. rewrite IH. cbn. by rewrite <- app_assoc. Qed.
Lemma reads_decls d l rest : forallb writable_decl l = true → front rest ≠ TLBrace →
  reads optional_decls (d, print_decls l ++ rest) l (d, rest).
Proof.
  intros Hl Hr. unfold optional_decls. destruct l as [|decl l].
  - eapply reads_bind; [by apply reads_when_no|]. apply reads_ret.
  - eapply (reads_bind _ _ _ (Some (decl :: l))); [|apply reads_ret]. apply reads_when; [done|]. unfold print_decls, parse_property_decls.
    read. eapply reads_bind; [|repeat read].
    eapply reads_eq; [apply reads_rbrace, (rbrace_chain _ print_decl (λ l a, l ++ [a]))|apply (foldl_snoc (decl :: l) [])|done].
    + by intros [? ? []]; do 2 eexists.
    + intros x a r Hx. eapply reads_bind; [apply reads_decl; by eapply forallb_elem|apply reads_ret].
Qed.
Lemma reads_endpoint d t l rest : t ≠ TEof → at_most_one l = true → front rest ≠ t →
  reads (endpoint t) (d, flat_map (λ s, [t; ident s]) l ++ rest) l (d, rest).
Proof.
  intros Ht Hl Hr. unfold endpoint. destruct l as [|s [|]]; [| |done].
  - eapply reads_bind; [by apply reads_after_no|]. apply reads_ret.
  - cbn in *. eapply reads_bind; [apply reads_after; [done|by apply reads_ident]|]. apply reads_ret.
Qed.
Lemma print_decls_front l t rest : t ≠ TLBrace → front (print_decls l ++ t :: rest) = TLBrace ∨ front (print_decls l ++ t :: rest) = t.
Proof. destruct l; cbn; auto. Qed.
Lemma reads_node_type d n rest : writable_node_type n = true →
  reads parse_node_type_decl (d, colon_labels (nt_labels n) ++ print_decls (nt_properties n) ++ TComma :: rest) n (d, TComma :: rest).
Proof.
  destruct n as [labels decls]. intros [Hl Hd]%andb_true_iff. cbn in *. unfold parse_node_type_decl.
  eapply reads_bind; [apply reads_labels; [done|by destruct decls]|].
  eapply reads_bind; [by apply reads_decls|]. apply reads_ret.
Qed.
Lemma reads_edge_type d e rest : writable_edge_type e = true →
  reads parse_edge_type_decl (d, colon_labels (et_labels e) ++ flat_map (λ s, [TFrom; ident s]) (et_source e) ++
    flat_map (λ s, [TTo; ident s]) (et_destination e) ++ print_decls (et_properties e) ++ TComma :: rest) e (d, TComma :: rest).
Proof.
  destruct e as [labels src dst dir decls]. cbn.
  intros [[[[Hl Hs]%andb_true_iff Ht]%andb_true_iff Hd]%andb_true_iff Hdir%bool_decide_eq_true]%andb_true_iff. cbn in *. subst dir.
  unfold parse_edge_type_decl.
  eapply reads_bind; [apply reads_labels; [done|by destruct src, dst, decls]|].
  eapply reads_bind; [apply reads_endpoint; [done..|by destruct dst, decls]|].
  eapply reads_bind; [apply reads_endpoint; [done..|by destruct decls]|].
  eapply reads_bind; [by apply reads_decls|]. apply reads_ret.
Qed.
Definition push_node (types : list NodeType * list EdgeType) (n : NodeType) := (types.1 ++ [n], types.2).
Definition push_edge (types : list NodeType * list EdgeType) (e : EdgeType) := (types.1, types.2 ++ [e]).
Lemma push_nodes ns acc : foldl push_node acc ns = (acc.1 ++ ns, acc.2).
Proof. revert acc. induction ns as [|n ns IH]; intros [a b]; cbn; [by rewrite app_nil_r|]. rewrite IH. cbn. by rewrite <- app_assoc. Qed.
Lemma push_edges es acc : foldl push_edge acc es = (acc.1, acc.2 ++ es).
Proof. revert acc. induction es as [|n es IH]; intros [a b]; cbn; [by rewrite app_nil_r|]. rewrite IH. cbn. by rewrite <- app_assoc. Qed.
Lemma reads_graph_type d g rest : writable_graph_type g = true → reads parse_graph_type_def (d, print_graph_type g ++ rest) g (d, rest).
Proof.
  destruct g as [ns es]. intros [Hn He]%andb_true_iff. cbn in Hn, He. unfold parse_graph_type_def, print_graph_type. cbn [node_types edge_types].
  read. eapply (reads_bind _ _ _ (ns, es)); [|repeat read]. apply reads_rbrace. eapply chain_trans.
  - apply (rbrace_chain _ print_node_type push_node); [by intros [? ?]; do 2 eexists|]. intros x a r Hx. read.
    unfold print_node_type. cbn [front app]. rewrite <- !app_assoc. eapply (reads_bind _ _ _ (push_node a x) (d, TComma :: r)); [|repeat read]. read.
    eapply reads_bind; [|apply reads_ret]. tidy. apply reads_node_type. by eapply forallb_elem.
  - rewrite push_nodes. cbn [fst snd app]. replace (ns, es) with (foldl push_edge (ns, []) es) by apply push_edges.
    apply (rbrace_chain _ print_edge_type push_edge); [by intros [? ?]; do 2 eexists|]. intros x a r Hx. read.
    unfold print_edge_type. cbn [front app]. rewrite <- !app_assoc. eapply (reads_bind _ _ _ (push_edge a x) (d, TComma :: r)); [|repeat read]. read.
    eapply reads_bind; [|apply reads_ret]. tidy. apply reads_edge_type. by eapply forallb_elem.
Qed.

(** What follows a statement: the end, a semicolon, a brace or another statement *)
Definition ends (t : Token) : bool :=
  match t with
  | TEof | TSemicolon | TRBrace | TMatch | TOptional | TReturn | TWith | TCall | TInsert | TSet | TDelete | TDetach | TRemove
  | TCreate | TDrop | TList => true
  | _ => false
  end.
Lemma ends_not t u : ends t = true → ends u = false → t ≠ u.
Proof. congruence. Qed.
#[local] Arguments print_graph_type : simpl never.
#[local] Arguments commas : simpl never.
#[global] Arguments name_token : simpl never.
Lemma reads_index_property d s rest : utf8_string s = true → front rest ≠ TDot →
  reads parse_index_property (d, name_token s :: rest) s (d, rest).
Proof.
  intros Hs Hr. unfold parse_index_property. read. eapply reads_bind; [by apply reads_after_no|]. apply reads_ret.
Qed.
Lemma name_token_not s t : keyword_name t = None → match t with TIdent _ => false | _ => true end = true → name_token s ≠ t.
Proof.
  intros Hk Ht <-. revert Hk Ht. unfold name_token. destruct (List.find _ name_keywords) as [t|] eqn:Hf; [|done].
  apply find_some in Hf as [_ Hf%bool_decide_eq_true]. cbn. congruence.
Qed.
Lemma name_token_if s : name_token s ≠ TIf.
Proof. by apply name_token_not. Qed.
(** A definition statement, by the token it starts with *)
Definition reads_definition_of (d : nat) (s : GqlStatement) (rest : list Token) : Prop :=
  match print_definition s with
  | TCreate :: _ => reads parse_create_statement (d, print_definition s ++ rest) s (d, rest)
  | TDrop :: _ => reads parse_drop_statement (d, print_definition s ++ rest) s (d, rest)
  | TList :: _ => reads parse_list_statement (d, print_definition s ++ rest) s (d, rest)
  | _ => False
  end.
Lemma reads_create_graph d c rest : writable_definition (SCreateGraph c) = true → ends (front rest) = true →
  reads_definition_of d (SCreateGraph c) rest.
Proof.
  destruct c as [name ine gt]. intros [Hn Hg]%andb_true_iff He. cbn in Hn, Hg. unfold reads_definition_of. cbn.
  unfold parse_create_statement. read. read. read.
  eapply reads_bind; [apply reads_match_no; by destruct ine|]. unfold parse_create_graph_rest. tidy.
  eapply reads_bind; [by apply reads_if_not_exists|]. read. destruct gt as [g|]; cbn.
  - eapply reads_bind; [|apply reads_ret]. apply reads_when; [done|]. by apply reads_graph_type.
  - eapply reads_bind; [|apply reads_ret]. apply reads_when_no. by eapply ends_not.
Qed.
Lemma reads_create_graph_type d c rest : writable_definition (SCreateGraphType c) = true → reads_definition_of d (SCreateGraphType c) rest.
Proof.
  destruct c as [name ine g]. intros [Hn Hg]%andb_true_iff. cbn in Hn, Hg. unfold reads_definition_of. cbn.
  unfold parse_create_statement. read. read. read. read. unfold parse_create_graph_type_rest. tidy.
  eapply reads_bind; [by apply reads_if_not_exists|]. read. eapply reads_bind; [by apply reads_graph_type|apply reads_ret].
Qed.
Lemma reads_create_index d c rest : writable_definition (SCreateIndex c) = true → reads_definition_of d (SCreateIndex c) rest.
Proof.
  destruct c as [name u ty label ps ine]. cbn.
  intros [[[[Hn Ht%bool_decide_eq_true]%andb_true_iff Hl]%andb_true_iff Hne]%andb_true_iff Hps]%andb_true_iff. cbn in *. subst ty.
  assert (reads parse_create_index_rest (d, flag u [TUnique] ++ TIndex :: if_not_exists ine ++
      name_token name :: TFor :: TLParen :: ident "n" :: optionally (λ l, [TColon; name_token l]) label ++
      TRParen :: TOn :: TLParen :: commas (λ p, [name_token p]) ps ++ TRParen :: rest)
    (SCreateIndex (mkCreateIndex name u "node" label ps ine)) (d, rest)) as Hi.
  { unfold parse_create_index_rest. eapply reads_bind; [by apply reads_flag|]. read.
    eapply reads_bind; [apply reads_if_not_exists, name_token_if|]. read. read. read.
    eapply reads_bind; [by apply reads_ident_name|].
    eapply (reads_bind _ _ _ label (d, TRParen :: TOn :: TLParen :: commas (λ p, [name_token p]) ps ++ TRParen :: rest)).
    { apply (reads_after_name _ _ name_token); [done|apply reads_name|done|done]. }
    read. read. read. eapply (reads_bind _ _ _ ps); [|repeat read].
    apply (reads_commas _ (λ p, [name_token p]) d (λ t, t ≠ TDot)); [by destruct ps| |done..].
    intros s r Hs Hr. apply reads_index_property; [by eapply forallb_elem|done]. }
  unfold reads_definition_of. cbn. unfold parse_create_statement. read. eapply reads_bind; [apply reads_look|].
  tidy. destruct u; exact Hi.
Qed.
Lemma reads_drop_graph d c rest : writable_definition (SDropGraph c) = true → reads_definition_of d (SDropGraph c) rest.
Proof.
  destruct c as [name ie]. intros Hn. cbn in Hn. unfold reads_definition_of. cbn. unfold parse_drop_statement. read. read. read.
  eapply reads_bind; [by apply reads_if_exists|]. repeat read.
Qed.
Lemma reads_drop_index d c rest : writable_definition (SDropIndex c) = true → reads_definition_of d (SDropIndex c) rest.
Proof.
  destruct c as [name ie]. intros Hn. cbn in Hn. unfold reads_definition_of. cbn. unfold parse_drop_statement. read. read. read.
  eapply reads_bind; [apply reads_if_exists, name_token_if|]. repeat read.
Qed.
Lemma reads_list_graphs d rest : reads_definition_of d SListGraphs rest.
Proof.
  unfold reads_definition_of. cbn. unfold parse_list_statement. read. read. unfold ident.
  change (is_word _ _) with true. repeat read.
Qed.
End definition.

(** ** Parts of patterns *)
Section parts.
Context `{DebugFormat}.
Implicit Types (d : nat) (rest : list Token).
Lemma reads_mode d mode rest : match front rest with TWalk | TTrail | TSimple | TAcyclic => false | _ => true end = true →
  reads parse_optional_path_mode (d, optionally (λ m, [mode_token m]) mode ++ rest) mode (d, rest).
Proof.
  intros Hr. unfold parse_optional_path_mode. destruct mode as [[]|]; cbn; repeat read.
  destruct (front rest); done || apply reads_ret.
Qed.
Lemma reads_bound what d o t rest : all_of (Z.leb 0) o = true → match t with TIntegerLit _ => false | _ => true end = true →
  reads (parse_bound what) (d, optionally (λ n, [TIntegerLit n]) o ++ t :: rest) o (d, t :: rest).
Proof.
  intros Ho Ht. unfold parse_bound. destruct o as [n|]; cbn in *.
  - read. read. destruct (Z.ltb_spec n 0); [lia|]. apply reads_ret.
  - read. destruct t; done || apply reads_ret.
Qed.
Lemma reads_bounds_ok d min max i : match min, max with Some a, Some b => a <=? b | _, _ => true end = true →
  reads (check_bounds min max) (d, i) tt (d, i).
Proof.
  intros Hb. unfold check_bounds. destruct min as [a|], max as [b|]; try apply reads_ret.
  destruct (Z.ltb_spec b a); [lia|]. apply reads_ret.
Qed.
Lemma reads_quantifier d q rest : all_of writable_quantifier q = true → (q = None → front rest ≠ TLBrace) →
  reads parse_optional_quantifier (d, optionally print_quantifier q ++ rest) q (d, rest).
Proof.
  intros Hq Hr. destruct q as [[min max]|].
  - cbn in Hq. apply andb_true_iff in Hq as [[Hmin Hmax]%andb_true_iff Hle]. cbn [q_min q_max] in *.
    apply (reads_ext _ quantifier_body).
    { intros p Hp. unfold parse_optional_quantifier. rewrite (peek_stands _ _ Hp), peek_at_ahead, (proj1 Hp). cbn. by destruct min. }
    unfold quantifier_body, print_quantifier. cbn [optionally q_min q_max]. read.
    eapply reads_bind; [by apply reads_bound|]. read. eapply reads_bind; [by apply reads_bound|].
    eapply reads_bind; [by apply reads_bounds_ok|]. repeat read.
  - cbn. apply (reads_ext _ (mret None)); [|apply reads_ret]. intros p Hp. unfold parse_optional_quantifier.
    rewrite (peek_stands _ _ Hp). specialize (Hr eq_refl). cbn. by destruct (front rest).
Qed.
Lemma reads_variable stops d v t rest : all_of utf8_string v = true → t ∈ stops → match t with TIdent _ => false | _ => true end = true →
  reads (pattern_variable stops) (d, optionally (λ s, [ident s]) v ++ t :: rest) v (d, t :: rest).
Proof.
  intros Hv Ht Hi. destruct v as [s|].
  - apply (reads_ext _ (name ← expect_ident; mret (Some name))).
    { intros p Hp. unfold pattern_variable. rewrite (peek_stands _ _ Hp), peek_at_ahead, (proj1 Hp). cbn. by rewrite decide_True. }
    repeat read.
  - apply (reads_ext _ (mret None)); [|apply reads_ret]. intros p Hp. unfold pattern_variable. rewrite (peek_stands _ _ Hp). cbn.
    by destruct t.
Qed.
End parts.

(** ** How expressions start and how they go on *)
Definition starts (k : nat) (t : Token) : bool :=
  match t with
  | TIntegerLit _ | TFloatLit _ | TStringLit _ | TTrue | TFalse | TNull | TParameter _ | TLParen | TLBracket | TLBrace | TCase
  | TExists | TCount | TSum | TAvg | TMin | TMax | TCollect | TType | TIdent _ | TStar => true
  | TMinus | TPlus => (k <=? 8)%nat
  | TNot => (k <=? 3)%nat
  | _ => false
  end.
(** The level whose method reads on at a token *)
Definition strength (t : Token) : option nat :=
  match t with
  | TOr => Some 0 | TXor => Some 1 | TAnd => Some 2 | TEq | TNeq | TLt | TGt | TLe | TGe | TIs | TIn | TLike => Some 4
  | TDoublePipe => Some 5 | TPlus | TMinus => Some 6 | TStar | TSlash | TPercent => Some 7 | TDot => Some 9 | TLParen => Some 10
  | _ => None
  end%nat.
Definition stops (k : nat) (t : Token) : bool := match strength t with Some s => (s <? k)%nat | None => true end.

Lemma print_eq k e : print k e = if (prec e <? k)%nat then TLParen :: print 0 e ++ [TRParen] else print 0 e.
Proof. by destruct e. Qed.
Lemma writable_eq d k e : writable d k e = if (prec e <? k)%nat then (0 <? d)%nat && writable (pred d) 0 e else writable d 0 e.
Proof. destruct e; cbn -[Nat.ltb pred]; destruct (_ <? k)%nat; cbn -[Nat.ltb pred]; reflexivity. Qed.
Lemma starts_mono k k' t : (k ≤ k')%nat → starts k' t = true → starts k t = true.
Proof. intros Hk. destruct t; cbn; rewrite ?Nat.leb_le; lia || done. Qed.
Lemma stops_mono k k' t : (k ≤ k')%nat → stops k t = true → stops k' t = true.
Proof. unfold stops. intros Hk. destruct (strength t) as [s|]; [|done]. rewrite !Nat.ltb_lt. lia. Qed.
Lemma find_name_cases table s : find_name table s = ident s ∨ ∃ name, (name, find_name table s) ∈ table ∧ s = name.
Proof.
  induction table as [|[name t] table IH]; [by left|]. cbn. case_decide; [right; exists name; split; [by left|done]|].
  destruct IH as [IH|(n & Hn & ->)]; [by left|]. right. exists n. split; [by right|done].
Qed.
Lemma identifier_starts s : ∀ k, starts k (identifier_token s) = true.
Proof.
  intros k. unfold identifier_token. destruct (find_name_cases identifier_tokens s) as [->|(name & Hin & _)]; [done|].
  revert Hin. generalize (find_name identifier_tokens s). intros t Ht. unfold identifier_tokens in Ht.
  repeat (apply elem_of_cons in Ht as [Ht|Ht]; [by injection Ht as -> ->|]). by apply elem_of_nil in Ht.
Qed.
Lemma left_level_ge op l : (op_level op ≤ left_level op l)%nat.
Proof. unfold left_level. case_bool_decide as Ho; [rewrite Ho; destruct (compared l); cbn; lia|done]. Qed.
Lemma op_level_lt op : (op_level op < 8)%nat.
Proof. destruct op; cbn; lia. Qed.
Lemma writable_left d op l r : writable d 0 (EBinaryOp l op r) = writable d (left_level op l) l && writable d (S (op_level op)) r.
Proof. done. Qed.
(** The first operand of what does not start with a token of its own *)
Definition first_operand (e : Expression) : option (nat * Expression) :=
  match e with
  | EBinaryOp l op _ => Some (left_level op l, l)
  | EPropertyAccess o _ => Some (9%nat, o)
  | EIsNull a | EIsNotNull a | EIn a _ | ELike a _ => Some (4%nat, a)
  | _ => None
  end.
Lemma first_operand_print e k a : first_operand e = Some (k, a) →
  (prec e ≤ k ≤ 10)%nat ∧ ∃ t ts, print 0 e = print k a ++ t :: ts.
Proof.
  destruct e as [| | | |l op r| | | | | | | | | | | | | |]; try done; intros [= <- <-]; (split; [|by do 2 eexists]); cbn; try lia.
  pose proof (left_level_ge op l). pose proof (op_level_lt op). unfold left_level in *. destruct (_ && _); lia.
Qed.
Lemma first_operand_writable e k a d : first_operand e = Some (k, a) → writable d 0 e = true → writable d k a = true.
Proof. destruct e; try done; intros [= <- <-]; cbn -[writable]; try done; rewrite writable_eq; cbn; by intros [? _]%andb_true_iff. Qed.
(** An expression starts with a token of an operand, or with a prefix operator of its level. *)
Lemma print_front d k e rest : (k ≤ 10)%nat → writable d k e = true → starts k (front (print k e ++ rest)) = true.
Proof.
  intros Hk. remember (length (print k e)) as n eqn:Hn. revert d k e rest Hk Hn. induction n as [n IH] using lt_wf_ind. intros d k e rest Hk Hn Hw.
  rewrite print_eq in Hn |- *. rewrite writable_eq in Hw. destruct (Nat.ltb_spec (prec e) k) as [|Hp]; [done|].
  destruct (first_operand e) as [[k' a]|] eqn:Ho.
  - destruct (first_operand_print _ _ _ Ho) as ([Hk1 Hk2] & t & ts & Hts). rewrite Hts, <- app_assoc. rewrite Hts, length_app in Hn.
    apply (starts_mono k k'); [lia|]. eapply IH; [|done|done|by eapply first_operand_writable]. cbn in Hn. lia.
  - destruct e as [[]| | |name| |[]| | |f| | | | | | | | | |]; try done; cbn in *; try done; try (apply Nat.leb_le; lia).
    + by destruct b.
    + apply identifier_starts.
    + by case_decide.
    + by destruct f.
Qed.
#[export] Hint Extern 1 (starts _ _ = true) => reflexivity : reads.
#[global] Arguments print : simpl never.
#[global] Arguments writable : simpl never.

(** ** The methods, given that the recursive calls read trees with fewer than [N] tokens *)
Section step.
Context `{Unicode, DebugFormat}.
Variables (parse_expression : P Expression) (parse_statement : P GqlStatement) (N : nat).
Hypothesis Hexpr : ∀ d e rest, writable d 0 e = true → (length (print 0 e) < N)%nat → stops 0 (front rest) = true →
  reads parse_expression (d, print 0 e ++ rest) e (d, rest).
Hypothesis Hstmt : ∀ d s rest, writable_statement d s = true → (length (print_statement s) < N)%nat → ends (front rest) = true →
  reads parse_statement (d, print_statement s ++ rest) s (d, rest).
Implicit Types (d k : nat) (e : Expression) (rest : list Token).
#[local] Abbreviation parse_primary := (parse_primary parse_expression parse_statement).
Definition level (k : nat) : P Expression :=
  match k with
  | 0%nat => parse_or_expr parse_expression parse_statement
  | 1%nat => parse_xor_expr parse_expression parse_statement
  | 2%nat => parse_and_expr parse_expression parse_statement
  | 3%nat => parse_not_expr parse_expression parse_statement
  | 4%nat => parse_comparison_expr parse_expression parse_statement
  | 5%nat => parse_concat_expr parse_expression parse_statement
  | 6%nat => parse_addition_expr parse_expression parse_statement
  | 7%nat => parse_multiplication_expr parse_expression parse_statement
  | 8%nat => parse_unary_expr parse_expression parse_statement
  | 9%nat => parse_postfix_expr parse_expression parse_statement
  | _ => parse_primary
  end.
Definition reads_level (k : nat) : Prop := ∀ d e rest, writable d k e = true → (length (print k e) ≤ N)%nat →
  stops k (front rest) = true → reads (level k) (d, print k e ++ rest) e (d, rest).

(** Expressions inside brackets *)
Lemma reads_expressions close d l rest : stops 0 close = true → close ≠ TEof → close ≠ TComma →
  (starts 0 close = false) → forallb (writable d 0) l = true → (length (commas (print 0) l) < N)%nat →
  reads (list_until close parse_expression) (d, commas (print 0) l ++ close :: rest) l (d, rest).
Proof.
  intros Hs Hc Hcc Hst Hw Hn. apply (reads_list_until _ _ _ _ (λ t, stops 0 t = true)); try done.
  - intros e r He Hr. apply Hexpr; [by eapply forallb_elem| |done]. pose proof (commas_length (print 0) l e He). lia.
  - intros e r He Heq. pose proof (print_front d 0 e r ltac:(lia) (forallb_elem _ _ _ Hw He)) as Hf. rewrite Heq in Hf. congruence.
Qed.
#[local] Abbreviation primary_of := (primary_of parse_expression parse_statement).
Lemma reads_parens d e rest b : writable d 0 e = true → (length (print 0 e) < N)%nat →
  reads (primary_of TLParen b) (S d, TLParen :: print 0 e ++ TRParen :: rest) e (S d, rest).
Proof.
  intros Hw Hn. cbn. apply reads_enter. intros Hd. read. eapply reads_bind; [by apply Hexpr|]. read.
  eapply reads_bind; [by apply reads_exit|apply reads_ret].
Qed.
Lemma reads_call d name args rest t : forallb (writable d 0) args = true → (length (commas (print 0) args) < N)%nat → t ≠ TEof →
  reads (name_or_call parse_expression name) (d, t :: TLParen :: commas (print 0) args ++ TRParen :: rest) (EFunctionCall name args) (d, rest).
Proof.
  intros Hw Hn Ht. unfold name_or_call. eapply reads_bind; [by apply reads_next|].
  eapply reads_bind; [apply reads_after; [done|by apply reads_expressions]|apply reads_ret].
Qed.
Lemma reads_identifier d name rest t : t ≠ TEof → front rest ≠ TLParen →
  reads (name_or_call parse_expression name) (d, t :: rest) (EIdentifier name) (d, rest).
Proof.
  intros Ht Hr. unfold name_or_call. eapply reads_bind; [by apply reads_next|].
  eapply reads_bind; [by apply reads_after_no|apply reads_ret].
Qed.
Lemma reads_map d l rest b : forallb (λ kv, utf8_string kv.1 && writable d 0 kv.2) l = true →
  (length (commas (λ kv, ident kv.1 :: TColon :: print 0 kv.2) l) < N)%nat →
  reads (primary_of TLBrace b) (d, TLBrace :: commas (λ kv, ident kv.1 :: TColon :: print 0 kv.2) l ++ TRBrace :: rest) (EMap l) (d, rest).
Proof.
  intros Hw Hn. cbn. read. eapply reads_bind; [|apply reads_ret].
  apply (reads_list_until _ _ _ _ (λ t, stops 0 t = true)); try done. intros [key e] r He Hr.
  pose proof (forallb_elem _ _ _ Hw He) as [Hk Hv]%andb_true_iff. cbn [fst snd] in *. unfold key_value. read. read.
  eapply reads_bind; [apply Hexpr; [done| |done]|apply reads_ret].
  pose proof (commas_length (λ kv, ident kv.1 :: TColon :: print 0 kv.2) l _ He). cbn in *. lia.
Qed.
Lemma reads_exists d s rest b : writable_statement d s = true → (length (print_statement s) < N)%nat →
  reads (primary_of TExists b) (d, TExists :: TLBrace :: print_statement s ++ TRBrace :: rest) (EExists s) (d, rest).
Proof. intros Hw Hn. cbn. read. read. eapply reads_bind; [by apply Hstmt|]. repeat read. Qed.
Lemma reads_aggregate d f dist arg t rest : aggregate_token f = Some t →
  match arg with Some a => writable d 0 a && (dist || negb (bool_decide (head (print 0 a) = Some TStar))) | None => true end = true →
  (length (optionally (print 0) arg) < N)%nat →
  reads (parse_aggregate parse_expression f)
    (d, t :: TLParen :: flag dist [TDistinct] ++ match arg with Some a => print 0 a | None => flag (negb dist) [TStar] end ++ TRParen :: rest)
    (EAggregate f dist arg) (d, rest).
Proof.
  intros Ht Hw Hn. unfold parse_aggregate. assert (t ≠ TEof) by (by intros ->; destruct f).
  eapply reads_bind; [by apply reads_next|]. read. destruct arg as [a|].
  - apply andb_true_iff in Hw as [Hw Hstar]. cbn in Hn.
    pose proof (print_front d 0 a (TRParen :: rest) ltac:(lia) Hw) as Hf. eapply reads_bind; [apply reads_match_no|].
    { destruct dist; [done|]. cbn in *. destruct (print 0 a) as [|u ts]; [done|]. cbn in *. intros ->.
      by rewrite bool_decide_true in Hstar. }
    cbv iota. eapply reads_bind; [apply reads_flag; [done|by intros He; rewrite He in Hf]|]. eapply reads_bind; [apply reads_look|].
    rewrite decide_False by (intros He; by rewrite He in Hf).
    eapply reads_bind; [eapply reads_bind; [by apply Hexpr|apply reads_ret]|]. repeat read.
  - destruct dist; cbn; [|repeat read]. eapply reads_bind; [by apply reads_match_no|]. read. read.
    rewrite decide_True by done. repeat read.
Qed.
Lemma front_optionally (pr : Expression → list Token) o t rest u : (∀ a, o = Some a → front (pr a ++ t :: rest) ≠ u) → t ≠ u →
  front (optionally pr o ++ t :: rest) ≠ u.
Proof. destruct o; cbn; auto. Qed.
Lemma reads_after_expression d t o rest : t ≠ TEof → all_of (writable d 0) o = true →
  (length (optionally (λ a, t :: print 0 a) o) < N)%nat → front rest ≠ t → stops 0 (front rest) = true →
  reads (after_token t parse_expression) (d, optionally (λ a, t :: print 0 a) o ++ rest) o (d, rest).
Proof.
  intros Ht Hw Hn Hr Hs. destruct o as [a|]; [|by apply reads_after_no]. cbn in *. apply reads_after; [done|]. apply Hexpr; [done|lia|done].
Qed.
Definition print_when (wt : Expression * Expression) : list Token := print 0 wt.1 ++ TThen :: print 0 wt.2.
Lemma reads_case d operand whens els rest : has_branch operand whens = true →
  all_of (writable d 0) operand = true → forallb (λ wt, writable d 0 wt.1 && writable d 0 wt.2) whens = true → all_of (writable d 0) els = true →
  (length (optionally (print 0) operand ++ flat_map (λ wt, TWhen :: print_when wt) whens ++ optionally (λ a, TElse :: print 0 a) els) < N)%nat →
  reads (parse_case_expression parse_expression)
    (d, TCase :: optionally (print 0) operand ++ flat_map (λ wt, TWhen :: print_when wt) whens ++
      optionally (λ a, TElse :: print 0 a) els ++ TEnd :: rest) (ECase operand whens els) (d, rest).
Proof.
  intros Hc Ho Hw He Hn. rewrite !length_app in Hn. unfold parse_case_expression. read.
  set (after := flat_map (λ wt, TWhen :: print_when wt) whens ++ optionally (λ a, TElse :: print 0 a) els ++ TEnd :: rest).
  assert (stops 0 (front after) = true) as Hafter by (unfold after; destruct whens, els; done).
  eapply reads_bind; [apply reads_look|]. eapply (reads_bind _ _ _ operand (d, after)).
  { destruct operand as [a|]; cbn in *.
    - pose proof (print_front d 0 a after ltac:(lia) Ho) as Hf. rewrite decide_False by (intros Heq; by rewrite Heq in Hf).
      eapply reads_bind; [apply Hexpr; [done|lia|done]|apply reads_ret].
    - destruct whens; [done|]. cbn. apply reads_ret. }
  eapply (reads_bind _ _ _ whens).
  - apply (reads_while TWhen _ print_when d (λ t, stops 0 t = true) whens []); [done| |done|by destruct els|by destruct els].
    intros [w t] r Hin Hr. pose proof (forallb_elem _ _ _ Hw Hin) as [Hww Hwt]%andb_true_iff. cbn [fst snd] in *.
    pose proof (flat_map_length (λ wt, TWhen :: print_when wt) whens _ Hin) as Hl.
    unfold print_when at 1 in Hl. cbn in Hl. rewrite length_app in Hl. cbn in Hl.
    unfold when_clause, print_when. tidy. eapply reads_bind; [apply Hexpr; [done|lia|done]|]. read.
    eapply reads_bind; [apply Hexpr; [done|lia|done]|apply reads_ret].
  - eapply reads_bind; [apply reads_after_expression; [done..|lia|done|done]|]. repeat read.
Qed.
(** An expression that stands without parentheses at the last level *)
Definition reads_operand d e rest : Prop :=
  reads (primary_of (front (print 0 e ++ rest)) (bool_decide ((print 0 e ++ rest) !! 1%nat = Some TLParen)))
    (d, print 0 e ++ rest) e (d, rest).
Lemma reads_literal_operand d lit rest : writable_literal lit = true → reads_operand d (ELiteral lit) rest.
Proof.
  intros Hw. unfold reads_operand. change (print 0 (ELiteral lit)) with (print_literal lit).
  destruct lit as [| |s|[]| | | | | | |]; try done; cbn; unfold literal; read; try apply reads_ret.
  apply bool_decide_eq_true in Hw. rewrite Hw. apply reads_ret.
Qed.
Lemma reads_identifier_operand d s rest : utf8_string s = true → front rest ≠ TLParen → reads_operand d (EIdentifier s) rest.
Proof.
  intros Hw Hr. unfold reads_operand. change (print 0 (EIdentifier s)) with [identifier_token s]. cbn [app front].
  change ((identifier_token s :: rest) !! 1%nat) with (rest !! 0%nat).
  assert (bool_decide (rest !! 0%nat = Some TLParen) = false) as ->.
  { apply bool_decide_eq_false. destruct rest; [done|]. cbn in *. congruence. }
  unfold identifier_token. destruct (find_name_cases identifier_tokens s) as [->|(name & Hin & ->)].
  - cbn. unfold ident. apply bool_decide_eq_true in Hw. rewrite Hw. by apply reads_identifier.
  - revert Hin. generalize (find_name identifier_tokens name). intros t Ht. unfold identifier_tokens in Ht.
    repeat (apply elem_of_cons in Ht as [Ht|Ht]; [injection Ht as -> ->; first [by apply reads_identifier|cbn; read; apply reads_ret]|]).
    by apply elem_of_nil in Ht.
Qed.
Lemma reads_function_operand d name args rest : utf8_string name = true → forallb (writable d 0) args = true →
  (length (print 0 (EFunctionCall name args)) ≤ N)%nat → reads_operand d (EFunctionCall name args) rest.
Proof.
  intros Hw Ha Hn. unfold reads_operand.
  change (print 0 (EFunctionCall name args)) with (function_token name :: TLParen :: commas (print 0) args ++ [TRParen]) in *.
  cbn in Hn. rewrite length_app in Hn. cbn in Hn. cbn [app front]. rewrite <- app_assoc. cbn [app].
  unfold function_token. destruct (find_name_cases [("type"%string, TType)] name) as [->|(n' & [= -> Ht]%list_elem_of_singleton & ->)].
  - cbn. unfold ident. apply bool_decide_eq_true in Hw. rewrite Hw. apply reads_call; [done|lia|done].
  - apply reads_call; [done|lia|done].
Qed.
Lemma reads_primary : reads_level 10.
Proof.
  intros d e rest Hw Hn Hs. set (i := print 10 e ++ rest).
  apply (reads_ext _ (primary_of (front i) (bool_decide (i !! 1%nat = Some TLParen)))).
  { intros p Hp. change (level 10 p) with (primary_of (peek p) (lookahead_is_lparen p) p). unfold lookahead_is_lparen. by rewrite (peek_stands _ _ Hp), peek_at_ahead, (proj1 Hp). }
  unfold i. clear i. rewrite print_eq in Hn |- *. rewrite writable_eq in Hw. destruct (Nat.ltb_spec (prec e) 10) as [Hp|Hp].
  { apply andb_true_iff in Hw as [Hd%Nat.ltb_lt Hw]. destruct d as [|d]; [lia|]. cbn in Hn. rewrite length_app in Hn. cbn in Hn.
    cbn [app front]. rewrite <- app_assoc. apply reads_parens; [done|lia]. }
  assert (front rest ≠ TLParen) as Hr by (intros He; by rewrite He in Hs). change (reads_operand d e rest).
  destruct e as [lit|s|o p|name args|l op r|op a|operand whens els|s|f dist arg|l|l|s|s|a|a|a l|a l| | ]; cbn in Hp; try lia; try done.
  - by apply reads_literal_operand.
  - by apply reads_identifier_operand.
  - change (utf8_string name && forallb (writable d 0) args = true) in Hw. apply andb_true_iff in Hw as [? ?]. by apply reads_function_operand.
  - pose proof (op_level_lt op). lia.
  - destruct op; cbn in Hp; lia.
  - change (has_branch operand whens && all_of (writable d 0) operand &&
      forallb (λ wt, writable d 0 wt.1 && writable d 0 wt.2) whens && all_of (writable d 0) els = true) in Hw.
    apply andb_true_iff in Hw as [[[Hc Ho]%andb_true_iff Hwh]%andb_true_iff He]. unfold reads_operand.
    change (print 0 (ECase operand whens els)) with (TCase :: optionally (print 0) operand ++
      flat_map (λ wt, TWhen :: print_when wt) whens ++ optionally (λ a, TElse :: print 0 a) els ++ [TEnd]) in *.
    cbn in Hn. rewrite !length_app in Hn. cbn in Hn. cbn [app front]. rewrite <- !app_assoc. 
    apply reads_case; [exact Hc|exact Ho|exact Hwh|exact He|]. rewrite !length_app. lia.
  - unfold reads_operand. change (print 0 (EExists s)) with (TExists :: TLBrace :: print_statement s ++ [TRBrace]) in *.
    cbn in Hn. rewrite length_app in Hn. cbn in Hn. tidy. apply reads_exists; [done|lia].
  - change (match aggregate_token f with Some _ => true | None => false end && match arg with
      | Some a => writable d 0 a && (dist || negb (bool_decide (head (print 0 a) = Some TStar))) | None => true end = true) in Hw.
    apply andb_true_iff in Hw as [Hf Hw]. destruct (aggregate_token f) as [t|] eqn:Ht; [|done]. unfold reads_operand.
    assert (print 0 (EAggregate f dist arg) = t :: TLParen :: flag dist [TDistinct] ++
      match arg with Some a => print 0 a | None => flag (negb dist) [TStar] end ++ [TRParen]) as Hp'.
    { unfold print. cbn. by rewrite Ht. }
    rewrite Hp' in Hn |- *. cbn in Hn. rewrite !length_app in Hn. cbn in Hn. tidy.
    pose proof (reads_aggregate d f dist arg t rest Ht Hw) as Ha. destruct f; try done; injection Ht as <-; apply Ha; destruct arg; cbn; lia.
  - unfold reads_operand. change (print 0 (EList l)) with (TLBracket :: commas (print 0) l ++ [TRBracket]) in *.
    cbn in Hn. rewrite length_app in Hn. cbn in Hn. tidy. cbn. read. eapply reads_bind; [apply reads_expressions; done || lia|apply reads_ret].
  - unfold reads_operand. change (print 0 (EMap l)) with (TLBrace :: commas (λ kv, ident kv.1 :: TColon :: print 0 kv.2) l ++ [TRBrace]) in *.
    cbn in Hn. rewrite length_app in Hn. cbn in Hn. tidy. apply reads_map; [done|lia].
  - unfold reads_operand. change (print 0 (EParameter s)) with [TParameter (chars s)]. cbn. apply bool_decide_eq_true in Hw.
    read. rewrite Hw. apply reads_ret.
Qed.

(** *** From each level to the one below it in the grammar *)
(** Off its own level an expression is written as on the next one. *)
Lemma print_next k e : prec e ≠ k → print k e = print (S k) e.
Proof. intros Hk. rewrite (print_eq k), (print_eq (S k)). destruct (Nat.ltb_spec (prec e) k), (Nat.ltb_spec (prec e) (S k)); (done || lia). Qed.
Lemma writable_next d k e : prec e ≠ k → writable d k e = writable d (S k) e.
Proof.
  intros Hk. rewrite (writable_eq d k), (writable_eq d (S k)).
  destruct (Nat.ltb_spec (prec e) k), (Nat.ltb_spec (prec e) (S k)); (done || lia).
Qed.
Lemma print_own k e : prec e = k → print k e = print 0 e.
Proof. intros <-. rewrite print_eq. destruct (Nat.ltb_spec (prec e) (prec e)); [lia|done]. Qed.
Lemma writable_own d k e : prec e = k → writable d k e = writable d 0 e.
Proof. intros <-. rewrite writable_eq. destruct (Nat.ltb_spec (prec e) (prec e)); [lia|done]. Qed.
(** The first operand of the chain and the way from it to the expression *)
Definition read_chain {A} (body : A → P (option A)) (inject : Expression → A) (k : nat) (a : A) d e rest : Prop :=
  ∃ e0 j, reads (level (S k)) (d, print k e ++ rest) e0 (d, j) ∧ chain body (inject e0) (d, j) a (d, rest).
Lemma chain_stop {A} (body : A → P (option A)) inject k a d e rest : prec e ≠ k → reads_level (S k) → a = inject e →
  writable d k e = true → (length (print k e) ≤ N)%nat → stops (S k) (front rest) = true → read_chain body inject k a d e rest.
Proof.
  intros Hp Hl -> Hw Hn Hs. rewrite print_next in Hn by done. exists e, rest. split; [|apply chain_refl].
  rewrite print_next by done. apply Hl; [by rewrite <- writable_next|done|done].
Qed.

(** A level of binary operators, all of them associating to the left *)
Lemma binary_chain k ops : (∀ op, op_level op = k → ops (op_token op) = Some op) → k ≠ 4%nat → k ≠ 3%nat → (k < 8)%nat →
  reads_level (S k) → ∀ e d rest, writable d k e = true → (length (print k e) ≤ N)%nat → stops (S k) (front rest) = true →
  read_chain (λ e1, t ← look;
                    match ops t with
                    | Some op => _ ← next; e2 ← level (S k); mret (Some (EBinaryOp e1 op e2))
                    | None => mret None
                    end) id k e d e rest.
Proof.
  intros Hops H4 H3 H8 Hl e. remember (length (print k e)) as n eqn:Hlen. revert e Hlen.
  induction n as [n IH] using lt_wf_ind. intros e -> d rest Hw Hn Hs.
  destruct (decide (prec e = k)) as [Hp|Hp]; [|by apply chain_stop].
  destruct e as [| | | |l op r|op| | | | | | | | | | | | |]; cbn in Hp; try lia; [|destruct op; cbn in Hp; lia].
  rewrite writable_own in Hw by done. rewrite print_own in Hn, IH by done. unfold read_chain. rewrite print_own by done.
  change (writable d (left_level op l) l && writable d (S (op_level op)) r = true) in Hw. apply andb_true_iff in Hw as [Hwl Hwr].
  change (print 0 (EBinaryOp l op r)) with (print (left_level op l) l ++ op_token op :: print (S (op_level op)) r) in *.
  assert (left_level op l = k) as Hleft by (unfold left_level; rewrite bool_decide_false by lia; done).
  rewrite Hleft, Hp in *. rewrite length_app in Hn, IH. cbn [length] in Hn, IH.
  assert (stops (S k) (op_token op) = true) as Hstop by (destruct op; cbn in Hp; subst k; reflexivity).
  destruct (IH (length (print k l)) ltac:(lia) l eq_refl d (op_token op :: print (S k) r ++ rest)) as (e0 & j & He0 & Hc); [done|lia|done|].
  exists e0, j. rewrite <- app_assoc. split; [exact He0|]. eapply chain_snoc; [exact Hc| |cbn; rewrite length_app; lia].
  eapply reads_bind; [apply reads_look|]. cbn [front]. rewrite Hops by done.
  eapply reads_bind; [apply reads_next; by destruct op|]. eapply reads_bind; [apply Hl; [done|lia|done]|apply reads_ret].
Qed.
Lemma binary_reads k ops : level k = binary_level ops (level (S k)) → (∀ op, op_level op = k → ops (op_token op) = Some op) →
  (∀ t, stops k t = true → ops t = None) → k ≠ 4%nat → k ≠ 3%nat → (k < 8)%nat → reads_level (S k) → reads_level k.
Proof.
  intros Hk Hops Hnone H4 H3 H8 Hl d e rest Hw Hn Hs. rewrite Hk. unfold binary_level.
  destruct (binary_chain k ops Hops H4 H3 H8 Hl e d rest Hw Hn) as (e0 & j & He0 & Hc); [eapply stops_mono; [|exact Hs]; lia|].
  eapply reads_bind; [exact He0|]. eapply reads_iterate; [exact Hc|]. eapply reads_bind; [apply reads_look|].
  rewrite Hnone by done. apply reads_ret.
Qed.

(** A level of prefix operators *)
Lemma prefixed_reads k ops : (∀ op, unary_level op = k → ops (unary_token op) = Some op) →
  (∀ t, starts (S k) t = true → ops t = None) → (k = 3 ∨ k = 8)%nat → reads_level (S k) →
  ∀ n d e rest, (length (print k e) ≤ n)%nat → writable d k e = true → (length (print k e) ≤ N)%nat → stops k (front rest) = true →
  reads (prefixed (S n) ops (level (S k))) (d, print k e ++ rest) e (d, rest).
Proof.
  intros Hops Hnone Hk Hl n. induction n as [n IH] using lt_wf_ind. intros d e rest Hln Hw Hn Hs.
  destruct (decide (prec e = k)) as [Hp|Hp].
  - destruct e as [| | | |l op r|op a| | | | | | | | | | | | |]; cbn in Hp; try lia; [destruct op; cbn in Hp; lia|].
    rewrite print_own in * by done. rewrite writable_own in Hw by done.
    change ((0 <? d)%nat && writable (pred d) (unary_level op) a = true) in Hw. apply andb_true_iff in Hw as [Hd%Nat.ltb_lt Hw].
    change (print 0 (EUnaryOp op a)) with (unary_token op :: print (unary_level op) a) in *. rewrite Hp in *. cbn [length] in Hn, Hln.
    destruct d as [|d]; [lia|]. destruct n as [|n]; [lia|].
    apply (reads_ext _ (_ ← next; _ ← enter_depth; e ← prefixed (S n) ops (level (S k)); _ ← exit_depth; mret (EUnaryOp op e))).
    { intros p Hst. cbn [prefixed]. rewrite (peek_stands _ _ Hst). cbn [fst snd app front]. by rewrite Hops. }
    eapply reads_bind; [apply reads_next; by destruct op|]. apply reads_enter. intros Hd'.
    eapply reads_bind; [apply IH; [lia|lia|done|lia|done]|]. eapply reads_bind; [by apply reads_exit|apply reads_ret].
  - pose proof (print_front d (S k) e rest ltac:(lia)) as Hf. rewrite <- print_next, <- writable_next in Hf by done.
    apply (reads_ext _ (level (S k))).
    { intros p Hst. cbn [prefixed]. rewrite (peek_stands _ _ Hst). cbn [snd]. by rewrite Hnone by auto. }
    rewrite print_next in Hn |- * by done. apply Hl; [by rewrite <- writable_next|done|]. eapply stops_mono; [|exact Hs]. lia.
Qed.
Lemma prefix_level_reads k ops : (∀ p, level k p = prefixed (S (Parser.left p)) ops (level (S k)) p) →
  (∀ op, unary_level op = k → ops (unary_token op) = Some op) →
  (∀ t, starts (S k) t = true → ops t = None) → (k = 3 ∨ k = 8)%nat → reads_level (S k) → reads_level k.
Proof.
  intros Hk Hops Hnone H38 Hl d e rest Hw Hn Hs.
  apply (reads_ext _ (prefixed (S (length (print k e ++ rest))) ops (level (S k)))).
  { intros p Hst. by rewrite Hk, (left_stands _ _ Hst). }
  apply (prefixed_reads k); try done. rewrite length_app. lia.
Qed.

(** Property accesses *)
Lemma postfix_chain : reads_level 10 → ∀ e d rest, writable d 9 e = true → (length (print 9 e) ≤ N)%nat → stops 10 (front rest) = true →
  read_chain (λ expr, b ← match_token TDot;
                      if b : bool then property ← expect_ident_or_keyword; mret (Some (EPropertyAccess expr property)) else mret None)
    id 9 e d e rest.
Proof.
  intros Hl e. remember (length (print 9 e)) as n eqn:Hlen. revert e Hlen.
  induction n as [n IH] using lt_wf_ind. intros e -> d rest Hw Hn Hs.
  destruct (decide (prec e = 9%nat)) as [Hp|Hp]; [|by apply chain_stop].
  destruct e as [| |o property| |l op r|op| | | | | | | | | | | | |]; cbn in Hp; try lia; [|pose proof (op_level_lt op); lia|destruct op; cbn in Hp; lia].
  rewrite writable_own in Hw by done. rewrite print_own in Hn, IH by done. unfold read_chain. rewrite print_own by done.
  change (writable d 9 o && utf8_string property = true) in Hw. apply andb_true_iff in Hw as [Hwo Hwp].
  change (print 0 (EPropertyAccess o property)) with (print 9 o ++ [TDot; name_token property]) in *.
  rewrite length_app in Hn, IH. cbn [length] in Hn, IH.
  destruct (IH (length (print 9 o)) ltac:(lia) o eq_refl d (TDot :: name_token property :: rest)) as (e0 & j & He0 & Hc); [done|lia|done|].
  exists e0, j. rewrite <- app_assoc. split; [exact He0|]. eapply chain_snoc; [exact Hc| |cbn; lia]. repeat read.
Qed.
Lemma postfix_reads : reads_level 10 → reads_level 9.
Proof.
  intros Hl d e rest Hw Hn Hs. unfold level, parse_postfix_expr.
  destruct (postfix_chain Hl e d rest Hw Hn) as (e0 & j & He0 & Hc); [eapply stops_mono; [|exact Hs]; lia|].
  eapply reads_bind; [exact He0|]. eapply reads_iterate; [exact Hc|].
  eapply reads_bind; [apply reads_match_no; intros He; by rewrite He in Hs|apply reads_ret].
Qed.

(** Comparisons: at most one in a chain, along with IS NULL, IN and LIKE *)
#[local] Abbreviation comparison_step := (comparison_step parse_expression parse_statement).
Definition compare_chain e d rest : Prop := read_chain comparison_step (λ e, (e, false)) 4 (e, compared e) d e rest.
Lemma comparison_own_step e : prec e = 4%nat → ∃ k l ts, first_operand e = Some (k, l) ∧ print 0 e = print k l ++ ts ∧ ts ≠ [] ∧
  stops 5 (front ts) = true ∧
  ∀ d rest, writable d 0 e = true → (length (print 0 e) ≤ N)%nat → reads_level 5 → stops 5 (front rest) = true →
    reads (comparison_step (l, if (k =? 5)%nat then false else compared l)) (d, ts ++ rest) (Some (e, compared e)) (d, rest).
Proof.
  intros Hp. destruct e as [| | | |l op r|op a| | | | | | | |a|a|a l|a l| |]; cbn in Hp; try lia; [|destruct op; cbn in Hp; lia|..].
  - assert (print 0 (EBinaryOp l op r) = print (left_level op l) l ++ op_token op :: print 5 r) as Hpr.
    { change (print 0 (EBinaryOp l op r)) with (print (left_level op l) l ++ op_token op :: print (S (op_level op)) r). by rewrite Hp. }
    exists (left_level op l), l, (op_token op :: print 5 r). split_and!; [done|done|done|by destruct op|].
    intros d rest Hw Hn Hl Hs. change (writable d (left_level op l) l && writable d (S (op_level op)) r = true) in Hw.
    apply andb_true_iff in Hw as [_ Hwr]. rewrite Hp in Hwr. rewrite Hpr, length_app in Hn. cbn [length] in Hn.
    assert ((if (left_level op l =? 5)%nat then false else compared l) = false) as ->.
    { unfold left_level. rewrite Hp. cbn. by destruct (compared l). }
    cbn [compared]. rewrite (bool_decide_true (op_level op = 4%nat)) by done. unfold Parser.comparison_step. cbn [app]. read.
    assert (comparison_op (op_token op) = Some op) as -> by by destruct op.
    eapply reads_bind; [apply reads_next; by destruct op|]. eapply reads_bind; [apply Hl; [done|lia|done]|apply reads_ret].
  - exists 4%nat, a, [TIs; TNull]. split_and!; [done..|]. intros d rest Hw Hn Hl Hs. unfold Parser.comparison_step. read. cbn [comparison_op Nat.eqb compared]. repeat read.
  - exists 4%nat, a, [TIs; TNot; TNull]. split_and!; [done..|]. intros d rest Hw Hn Hl Hs. unfold Parser.comparison_step. read. cbn [comparison_op Nat.eqb compared]. repeat read.
  - exists 4%nat, a, (TIn :: print 5 l). split_and!; [done..|]. intros d rest Hw Hn Hl Hs.
    change (writable d 4 a && writable d 5 l = true) in Hw. apply andb_true_iff in Hw as [_ Hwl].
    change (print 0 (EIn a l)) with (print 4 a ++ TIn :: print 5 l) in Hn. rewrite length_app in Hn. cbn in Hn.
    unfold Parser.comparison_step. read. cbn [comparison_op Nat.eqb compared]. read. eapply reads_bind; [apply Hl; [done|lia|done]|apply reads_ret].
  - exists 4%nat, a, (TLike :: print 5 l). split_and!; [done..|]. intros d rest Hw Hn Hl Hs.
    change (writable d 4 a && writable d 5 l = true) in Hw. apply andb_true_iff in Hw as [_ Hwl].
    change (print 0 (ELike a l)) with (print 4 a ++ TLike :: print 5 l) in Hn. rewrite length_app in Hn. cbn in Hn.
    unfold Parser.comparison_step. read. cbn [comparison_op Nat.eqb compared]. read. eapply reads_bind; [apply Hl; [done|lia|done]|apply reads_ret].
Qed.
Lemma not_compared e : prec e ≠ 4%nat → compared e = false.
Proof. destruct e; cbn; try done. intros Hp. by rewrite bool_decide_false. Qed.
Lemma comparison_chain : reads_level 5 → ∀ e d rest, writable d 4 e = true → (length (print 4 e) ≤ N)%nat → stops 5 (front rest) = true →
  compare_chain e d rest.
Proof.
  intros Hl e. remember (length (print 4 e)) as n eqn:Hlen. revert e Hlen.
  induction n as [n IH] using lt_wf_ind. intros e -> d rest Hw Hn Hs.
  destruct (decide (prec e = 4%nat)) as [Hp|Hp]; [|apply chain_stop; try done; by rewrite not_compared].
  destruct (comparison_own_step e Hp) as (k & l & ts & Hf & Hpr & Hts & Hst & Hstep). rewrite writable_own in Hw by done.
  pose proof (first_operand_writable _ _ _ _ Hf Hw) as Hwl. rewrite print_own in Hn, IH by done.
  specialize (Hstep d rest Hw Hn Hl Hs). assert (k = 4 ∨ k = 5)%nat as Hk.
  { destruct e; try done; injection Hf as <- <-; cbn in Hp; auto. unfold left_level. rewrite Hp. cbn. destruct (compared _); auto. }
  unfold compare_chain, read_chain. rewrite print_own by done. rewrite Hpr in Hn, IH |- *. rewrite length_app in Hn, IH.
  assert (0 < length ts)%nat by (destruct ts; cbn; [done|lia]). rewrite <- app_assoc.
  assert (stops 5 (front (ts ++ rest)) = true) as Hst' by (by destruct ts).
  assert (length rest < length (ts ++ rest))%nat by (rewrite length_app; lia).
  destruct Hk as [-> | ->]; cbn [Nat.eqb] in Hstep.
  - destruct (IH (length (print 4 l)) ltac:(lia) l eq_refl d (ts ++ rest)) as (e0 & j & He0 & Hc); [done|lia|done|].
    exists e0, j. split; [exact He0|]. eapply chain_snoc; [exact Hc|exact Hstep|done].
  - exists l, (ts ++ rest). split; [apply Hl; [done|lia|done]|]. apply chain_step; [exact Hstep|done].
Qed.
Lemma comparison_reads : reads_level 5 → reads_level 4.
Proof.
  intros Hl d e rest Hw Hn Hs. unfold level, parse_comparison_expr.
  destruct (comparison_chain Hl e d rest Hw Hn) as (e0 & j & He0 & Hc); [eapply stops_mono; [|exact Hs]; lia|].
  eapply reads_bind; [exact He0|]. eapply (reads_bind _ _ _ (e, compared e)); [|apply reads_ret]. eapply reads_iterate; [exact Hc|].
  unfold Parser.comparison_step. eapply reads_bind; [apply reads_look|].
  destruct (front rest); try done; apply reads_ret.
Qed.
(** The method of every level reads what is printed for it. *)
Lemma levels_read k : (k ≤ 10)%nat → reads_level k.
Proof.
  assert (reads_level 10) as H10 by apply reads_primary. assert (reads_level 9) as H9 by by apply postfix_reads.
  assert (reads_level 8) as H8.
  { apply (prefix_level_reads 8 sign_op); [done|by intros []|by intros []|by right|done]. }
  assert (reads_level 7) as H7 by (apply (binary_reads 7 multiplication_op); [done|by intros []|by intros []|done|done|lia|done]).
  assert (reads_level 6) as H6 by (apply (binary_reads 6 addition_op); [done|by intros []|by intros []|done|done|lia|done]).
  assert (reads_level 5) as H5 by (apply (binary_reads 5 concat_op); [done|by intros []|by intros []|done|done|lia|done]).
  assert (reads_level 4) as H4 by by apply comparison_reads.
  assert (reads_level 3) as H3.
  { apply (prefix_level_reads 3 not_op); [done|by intros []|by intros []|by left|done]. }
  assert (reads_level 2) as H2 by (apply (binary_reads 2 and_op); [done|by intros []|by intros []|done|done|lia|done]).
  assert (reads_level 1) as H1 by (apply (binary_reads 1 xor_op); [done|by intros []|by intros []|done|done|lia|done]).
  assert (reads_level 0) as H0' by (apply (binary_reads 0 or_op); [done|by intros []|by intros []|done|done|lia|done]).
  intros Hk. do 11 (destruct k as [|k]; [assumption|]). lia.
Qed.

(** *** Clauses *)
(** What follows an item of a clause: a comma, another clause, a set operator or the end *)
Definition clause (t : Token) : bool :=
  match t with
  | TWhere | TOrder | TLimit | TOffset | TGroup | THaving | TUnion | TIntersect | TExcept => true
  | _ => ends t
  end.
Definition item_end (t : Token) : Prop := t = TComma ∨ clause t = true.
Lemma clause_item t : clause t = true → item_end t.
Proof. by right. Qed.
Lemma item_end_stops t : item_end t → stops 0 t = true.
Proof. intros [->|Ht]; [done|]. by destruct t. Qed.
Lemma item_end_not t u : item_end t → u ≠ TComma → clause u = false → t ≠ u.
Proof. intros [->|Ht] Hu Hc; [done|]. congruence. Qed.
#[local] Hint Resolve clause_item item_end_stops : reads.
Lemma reads_optional {A} t (m : P A) (pr : A → list Token) o d rest :
  (∀ a, o = Some a → reads m (d, pr a ++ rest) a (d, rest)) → (∀ a r, front (pr a ++ r) = t) → front rest ≠ t →
  reads (when_token t m) (d, optionally pr o ++ rest) o (d, rest).
Proof. intros Hm Hf Hr. destruct o as [a|]; [apply reads_when; [apply Hf|by apply Hm]|by apply reads_when_no]. Qed.
(** A list of items separated by commas; [d], and the length of each item, less than [N] *)
Lemma reads_item_list {A} (item : P A) (pr : A → list Token) (w : A → bool) d l rest : nonempty l = true → forallb w l = true →
  (length (commas pr l) ≤ N)%nat → clause (front rest) = true →
  (∀ a r, w a = true → (length (pr a) ≤ N)%nat → item_end (front r) → reads item (d, pr a ++ r) a (d, r)) →
  reads (comma_separated item) (d, commas pr l ++ rest) l (d, rest).
Proof.
  intros Hne Hw Hn Hr Hitem. eapply (reads_commas _ _ _ item_end); [by destruct l| |by left|by right|by intros He; rewrite He in Hr].
  intros a r Ha Hi. apply Hitem; [by eapply forallb_elem| |done]. pose proof (commas_length pr l a Ha). lia.
Qed.
Lemma reads_where d w rest : writable_where (writable d 0) w = true → (length (print_where (print 0) w) ≤ N)%nat →
  clause (front rest) = true → reads (parse_where_clause parse_expression) (d, print_where (print 0) w ++ rest) w (d, rest).
Proof.
  destruct w as [e]. cbn. intros Hw Hn Hr. unfold parse_where_clause. read.
  eapply reads_bind; [apply Hexpr; [done|lia|by auto with reads]|apply reads_ret].
Qed.
Lemma reads_having d h rest : all_of (writable_having (writable d 0)) h = true →
  (length (optionally (print_having (print 0)) h) ≤ N)%nat → clause (front rest) = true → front rest ≠ THaving →
  reads (after_token THaving (condition ← parse_expression; mret (mkHaving condition)))
    (d, optionally (print_having (print 0)) h ++ rest) h (d, rest).
Proof.
  intros Hw Hn Hr Hh. destruct h as [[e]|]; [|by apply reads_after_no]. cbn in *. apply reads_after; [done|].
  eapply reads_bind; [apply Hexpr; [done|lia|by auto with reads]|apply reads_ret].
Qed.
Lemma reads_order_item d i rest : writable_order_item (writable d 0) i = true → (length (print_order_item (print 0) i) ≤ N)%nat →
  item_end (front rest) → reads (parse_order_by_item parse_expression) (d, print_order_item (print 0) i ++ rest) i (d, rest).
Proof.
  destruct i as [e dir]. cbn. intros Hw Hn Hr. rewrite length_app in Hn. unfold parse_order_by_item. rewrite <- app_assoc.
  eapply reads_bind; [apply Hexpr; [done|destruct dir; cbn in Hn; lia|by destruct dir]|]. destruct dir; repeat read.
Qed.
Lemma reads_order d o rest : writable_order (writable d 0) o = true → (length (print_order (print 0) o) ≤ N)%nat →
  clause (front rest) = true → reads (parse_order_by_clause parse_expression) (d, print_order (print 0) o ++ rest) o (d, rest).
Proof.
  destruct o as [l]. cbn. intros [Hne Hw]%andb_true_iff Hn Hr. unfold parse_order_by_clause. read. read.
  eapply reads_bind; [eapply (reads_item_list _ (print_order_item (print 0))); [done|exact Hw|lia|done|]|apply reads_ret].
  intros i r Hi Hl He. by apply reads_order_item.
Qed.
Lemma reads_group d g rest : writable_group (writable d 0) g = true → (length (print_group (print 0) g) ≤ N)%nat →
  clause (front rest) = true → reads (parse_group_by_clause parse_expression) (d, print_group (print 0) g ++ rest) g (d, rest).
Proof.
  destruct g as [l]. cbn. intros [Hne Hw]%andb_true_iff Hn Hr. unfold parse_group_by_clause. read. read.
  eapply reads_bind; [|apply reads_ret].
  eapply (reads_commas _ (print 0) _ item_end); [by destruct l| |by left|by right|by intros He; rewrite He in Hr].
  intros e r He Hi. apply Hexpr; [by eapply forallb_elem| |by auto with reads]. pose proof (commas_length (print 0) l e He). lia.
Qed.
Lemma reads_limit d lo rest : all_of (writable_limit (writable d 0)) lo = true → (length (optionally (print_limit (print 0)) lo) ≤ N)%nat →
  clause (front rest) = true → front rest ≠ TLimit → front rest ≠ TOffset →
  reads (parse_limit_offset parse_expression) (d, optionally (print_limit (print 0)) lo ++ rest) lo (d, rest).
Proof.
  intros Hw Hn Hr Hl Ho. unfold parse_limit_offset. destruct lo as [[limit offset]|].
  - cbn in Hw, Hn. apply andb_true_iff in Hw as [[Hwl Hwo]%andb_true_iff Hne]. rewrite length_app in Hn. cbn [optionally print_limit].
    rewrite <- app_assoc.
    assert (∀ t o r, t ≠ TEof → all_of (writable d 0) o = true → (length (optionally (λ e, t :: print 0 e) o) ≤ N)%nat →
      stops 0 (front r) = true → front r ≠ t →
      reads (after_token t parse_expression) (d, optionally (λ e, t :: print 0 e) o ++ r) o (d, r)) as Hafter.
    { intros t o r Ht Hwo' Hlo Hs Hf. destruct o as [a|]; [|by apply reads_after_no]. cbn in *. apply reads_after; [done|].
      apply Hexpr; [done|lia|done]. }
    eapply reads_bind; [apply Hafter; [done|done|lia|destruct offset; [done|by auto with reads]|by destruct offset]|].
    eapply reads_bind; [apply Hafter; [done|done|lia|by auto with reads|done]|]. destruct limit, offset; done || apply reads_ret.
  - eapply reads_bind; [by apply reads_after_no|]. eapply reads_bind; [by apply reads_after_no|]. apply reads_ret.
Qed.
Lemma reads_return_item d i rest : writable_item (writable d 0) i = true → (length (print_item (print 0) i) < N)%nat →
  item_end (front rest) → reads (parse_return_item parse_expression) (d, print_item (print 0) i ++ rest) i (d, rest).
Proof.
  destruct i as [e alias]. cbn. intros [Hw Ha]%andb_true_iff Hn Hr. rewrite length_app in Hn. unfold parse_return_item.
  rewrite <- app_assoc. eapply reads_bind; [apply Hexpr; [done|lia|destruct alias; [done|by auto with reads]]|].
  eapply reads_bind; [|apply reads_ret]. apply (reads_after_name _ _ name_token); [done|apply reads_name|done|].
  eapply item_end_not; [exact Hr|done|done].
Qed.
Lemma reads_return_items d l rest : writable_items (writable d 0) l = true → (length (commas (print_item (print 0)) l) < N)%nat →
  clause (front rest) = true → reads (parse_return_items parse_expression) (d, commas (print_item (print 0)) l ++ rest) l (d, rest).
Proof.
  intros [Hne Hw]%andb_true_iff Hn Hr.
  eapply (reads_commas _ _ _ item_end); [by destruct l| |by left|by right|by intros He; rewrite He in Hr].
  intros i r Hi He. apply reads_return_item; [by eapply forallb_elem| |done]. pose proof (commas_length (print_item (print 0)) l i Hi). lia.
Qed.

(** *** Patterns *)
Lemma reads_properties d l rest : forallb (writable_entry (writable d 0)) l = true → (length (print_properties (print 0) l) ≤ N)%nat →
  front rest ≠ TLBrace → reads (optional_map parse_expression) (d, print_properties (print 0) l ++ rest) l (d, rest).
Proof.
  intros Hw Hn Hr. unfold optional_map. destruct l as [|kv l].
  { eapply reads_bind; [by apply reads_when_no|apply reads_ret]. }
  change (print_properties (print 0) (kv :: l)) with (TLBrace :: commas (print_entry (print 0)) (kv :: l) ++ [TRBrace]) in *.
  cbn [length] in Hn. rewrite length_app in Hn. cbn [length] in Hn. revert Hw Hn. generalize (kv :: l) as l'. intros l' Hw Hn.
  eapply (reads_bind _ _ _ (Some l')); [|apply reads_ret]. apply reads_when; [done|]. unfold parse_property_map. read.
  apply (reads_list_until _ _ _ _ (λ t, stops 0 t = true)); try done.
  - intros [key e] r He Hr'. pose proof (forallb_elem _ _ _ Hw He) as [Hk Hv]%andb_true_iff. cbn [fst snd] in *.
    pose proof (commas_length (print_entry (print 0)) l' _ He) as Hl. cbn in Hl. unfold key_value, print_entry. read. read.
    eapply reads_bind; [apply Hexpr; [done|lia|done]|apply reads_ret].
  - intros [key e] r He. by apply name_token_not.
Qed.
(** What stands inside the parentheses of a node and the brackets of an edge *)
Definition print_inside (v : option string) (labels : list string) (l : list (string * Expression)) : list Token :=
  optionally (λ s, [ident s]) v ++ colon_labels labels ++ print_properties (print 0) l.
Lemma reads_inside {B} (f : option string → list string → list (string * Expression) → P B) d v labels l t rest b s :
  all_of utf8_string v = true → forallb utf8_string labels = true → forallb (writable_entry (writable d 0)) l = true →
  (length (print_inside v labels l) ≤ N)%nat → t = TRParen ∨ t = TRBracket →
  reads (f v labels l) (d, t :: rest) b s →
  reads (variable ← pattern_variable [TColon; t; TLBrace]; labels ← while_match TColon expect_ident [];
         properties ← optional_map parse_expression; f variable labels properties)
    (d, print_inside v labels l ++ t :: rest) b s.
Proof.
  intros Hv Hl Hp Hn Ht Hf. unfold print_inside in *. rewrite !length_app in Hn. rewrite <- !app_assoc.
  eapply (reads_bind _ _ _ v (d, colon_labels labels ++ print_properties (print 0) l ++ t :: rest)).
  - assert (∃ u i, colon_labels labels ++ print_properties (print 0) l ++ t :: rest = u :: i ∧ u ∈ [TColon; t; TLBrace] ∧
      match u with TIdent _ => false | _ => true end = true) as (u & i & -> & Hu & Hi); [|by apply reads_variable].
    destruct labels as [|x labels]; [|do 2 eexists; split_and!; [done|left|done]].
    destruct l as [|x l]; do 2 eexists; (split_and!; [done| |]); try done; [right; left|by destruct Ht as [-> | ->]|by right; right; left].
  - assert (t ≠ TColon ∧ t ≠ TLBrace) as [Ht1 Ht2] by by destruct Ht as [-> | ->].
    eapply reads_bind; [apply reads_labels; [done|by destruct l]|].
    eapply reads_bind; [apply reads_properties; [done|lia|done]|]. exact Hf.
Qed.
Lemma reads_node d n rest : writable_node (writable d 0) n = true → (length (print_node (print 0) n) ≤ N)%nat →
  reads (parse_node_pattern parse_expression) (d, print_node (print 0) n ++ rest) n (d, rest).
Proof.
  destruct n as [v labels l]. cbn. intros [[Hv Hl]%andb_true_iff Hp]%andb_true_iff Hn. unfold parse_node_pattern. read.
  rewrite !length_app in Hn. cbn in Hn.
  pose proof (reads_inside (λ v labels l, _ ← expect TRParen; mret (mkNodePattern v labels l)) d v labels l TRParen rest) as Hi.
  unfold print_inside in Hi. rewrite <- !app_assoc in Hi. apply Hi; [done..|rewrite !length_app; lia|by left|]. repeat read.
Qed.
Lemma reads_internals d v labels l rest :
  all_of utf8_string v = true → forallb utf8_string labels = true → forallb (writable_entry (writable d 0)) l = true →
  (length (print_inside v labels l) ≤ N)%nat →
  reads (parse_edge_internals parse_expression) (d, print_inside v labels l ++ TRBracket :: rest) (v, labels, l) (d, TRBracket :: rest).
Proof.
  intros Hv Hl Hp Hn. apply (reads_inside (λ v labels l, mret (v, labels, l))); [done..|by right|apply reads_ret].
Qed.
Lemma print_inside_nil v labels l : print_inside v labels l = [] → v = None ∧ labels = [] ∧ l = [].
Proof. by destruct v, labels, l. Qed.
(** The arrow of an edge, with its brackets *)
Definition print_arrow (direction : Direction) (inside : list Token) : list Token :=
  match direction with
  | Outgoing => match inside with [] => [TArrow] | _ => TMinus :: TLBracket :: inside ++ [TRBracket; TArrow] end
  | Incoming => match inside with [] => [TLeftArrow] | _ => TLeftArrow :: TLBracket :: inside ++ [TRBracket; TMinus] end
  | Undirected => TMinus :: TLBracket :: inside ++ [TRBracket; TMinus]
  end.
Lemma print_edge_eq v direction labels l q : print_edge (print 0) (mkEdgePattern v direction labels l q) =
  print_arrow direction (print_inside v labels l) ++ optionally print_quantifier q.
Proof. done. Qed.
Lemma reads_edge d (e : EdgePattern) rest : writable_edge (writable d 0) e = true → (length (print_edge (print 0) e) ≤ N)%nat →
  front rest ≠ TLBracket → (match e with mkEdgePattern _ _ _ _ q => q = None end → front rest ≠ TLBrace) →
  reads (parse_edge_pattern parse_expression) (d, print_edge (print 0) e ++ rest) e (d, rest).
Proof.
  destruct e as [v direction labels l q]. cbn [writable_edge]. rewrite print_edge_eq.
  intros [[[Hv Hl]%andb_true_iff Hp]%andb_true_iff Hq]%andb_true_iff Hn Hr Hr'. rewrite length_app in Hn. rewrite <- app_assoc.
  unfold parse_edge_pattern. set (after := optionally print_quantifier q ++ rest).
  assert (front after ≠ TLBracket) as Ha by (unfold after; by destruct q).
  eapply reads_bind; [apply reads_look|].
  eapply (reads_bind _ _ _ ((v, labels, l), direction) (d, after)).
  2: { cbn. eapply reads_bind; [by apply reads_quantifier|apply reads_ret]. }
  assert ((length (print_inside v labels l) ≤ N)%nat) as Hlen.
  { destruct direction; cbn [print_arrow] in Hn; destruct (print_inside v labels l); cbn [length app] in *; rewrite ?length_app in Hn; cbn in Hn; lia. }
  pose proof (λ r, reads_internals d v labels l r Hv Hl Hp Hlen) as Hi.
  destruct (print_inside v labels l) as [|t ts] eqn:He.
  - destruct (print_inside_nil _ _ _ He) as (-> & -> & ->). destruct direction; cbn [print_arrow]; tidy.
    + repeat read.
    + read. eapply reads_bind; [by apply reads_match_no|]. repeat read.
    + read. read. eapply reads_bind; [apply Hi|]. read. eapply reads_bind; [by apply reads_match_no|]. repeat read.
  - rewrite <- He in *. assert (∀ direction, print_arrow direction (print_inside v labels l) = match direction with
      | Outgoing => TMinus :: TLBracket :: print_inside v labels l ++ [TRBracket; TArrow]
      | Incoming => TLeftArrow :: TLBracket :: print_inside v labels l ++ [TRBracket; TMinus]
      | Undirected => TMinus :: TLBracket :: print_inside v labels l ++ [TRBracket; TMinus] end) as ->
      by (intros []; cbn; by rewrite He).
    destruct direction; tidy.
    + read. read. eapply reads_bind; [apply Hi|]. repeat read.
    + read. read. eapply reads_bind; [eapply reads_bind; [apply Hi|]; repeat read|]. repeat read.
    + read. read. eapply reads_bind; [apply Hi|]. read. eapply reads_bind; [by apply reads_match_no|]. repeat read.
Qed.

Definition edge_ahead (i : list Token) : bool :=
  match front i with
  | TLeftArrow | TArrow => true
  | TMinus => match i !! 1%nat with Some TLBracket => true | _ => false end
  | _ => false
  end.
Lemma is_edge_start_ahead p s : stands p s → is_edge_start p = edge_ahead s.2.
Proof. intros Hs. unfold is_edge_start, edge_ahead. by rewrite (peek_stands _ _ Hs), peek_at_ahead, (proj1 Hs). Qed.
Lemma print_edge_ahead (e : EdgePattern) r : edge_ahead (print_edge (print 0) e ++ r) = true.
Proof.
  destruct e as [v direction labels l q]. rewrite print_edge_eq. destruct direction; cbn [print_arrow]; try done;
    by destruct (print_inside v labels l).
Qed.
Definition is_arrow (t : Token) : bool := match t with TLeftArrow | TArrow | TMinus => true | _ => false end.
Lemma print_edge_front (e : EdgePattern) r : is_arrow (front (print_edge (print 0) e ++ r)) = true.
Proof.
  destruct e as [v direction labels l q]. rewrite print_edge_eq. destruct direction; cbn [print_arrow]; try done;
    by destruct (print_inside v labels l).
Qed.
Definition begins_with_node (es : list PatternElement) : bool := match es with PNode _ :: _ => true | _ => false end.
(** What comes after the elements does not continue a path, nor is it a quantifier taken by a last edge. *)
Definition path_goes_on (t : Token) : bool := match t with TLParen | TLBracket => true | _ => is_arrow t end.
Definition after_elements (es : list PatternElement) (t : Token) : Prop :=
  path_goes_on t = false ∧ (takes_quantifier es = false → t ≠ TLBrace).
Lemma elements_front es rest : begins_with_node es = false →
  is_arrow (front (flat_map (print_element (print 0)) es ++ rest)) = true ∨ es = [].
Proof. intros Hb. destruct es as [|[n|e] es]; [by right|done|]. left. cbn. rewrite <- app_assoc. apply print_edge_front. Qed.
Lemma node_front n r : front (print_node (print 0) n ++ r) = TLParen.
Proof. by destruct n. Qed.
Lemma edge_length (e : EdgePattern) : (0 < length (print_edge (print 0) e))%nat.
Proof. pose proof (print_edge_front e []) as Hf. rewrite app_nil_r in Hf. destruct (print_edge (print 0) e); [done|cbn; lia]. Qed.
Lemma path_step_reads d (acc : list PatternElement) (e : EdgePattern) i node j : edge_ahead i = true →
  reads (edge ← parse_edge_pattern parse_expression; node ← optional_node parse_expression; mret (Some (acc ++ PEdge edge :: node)))
    (d, i) (Some (acc ++ PEdge e :: node)) (d, j) →
  reads (path_step parse_expression acc) (d, i) (Some (acc ++ PEdge e :: node)) (d, j).
Proof.
  intros Hi Hr p Hp. destruct (Hr p Hp) as (p' & H1 & H2). exists p'. split; [|done]. unfold path_step.
  rewrite (is_edge_start_ahead p _ Hp). cbn [snd]. by rewrite Hi.
Qed.
Lemma elements_chain d es : ∀ acc rest, forallb (writable_element (writable d 0)) es = true → chained es = true → begins_with_node es = false →
  (length (flat_map (print_element (print 0)) es) ≤ N)%nat → after_elements es (front rest) →
  chain (path_step parse_expression) acc (d, flat_map (print_element (print 0)) es ++ rest) (acc ++ es) (d, rest).
Proof.
  induction es as [es IH] using (induction_ltof1 _ (@length _)). unfold ltof in IH. intros acc rest Hw Hc Hb Hn Ha.
  destruct es as [|[n|e] es]; [rewrite app_nil_r; apply chain_refl|done|]. cbn in Hw, Hn. rewrite length_app in Hn.
  apply andb_true_iff in Hw as [He Hw]. cbn [flat_map print_element]. rewrite <- app_assoc.
  destruct (begins_with_node es) eqn:Hbe.
  - destruct es as [|[n|] es]; try done. cbn in Hw, Hc, Hn. rewrite length_app in Hn. apply andb_true_iff in Hw as [Hnode Hw].
    assert (begins_with_node es = false ∧ chained es = true) as [Hbe' Hc'] by (destruct es as [|[]]; cbn in *; done).
    cbn [flat_map print_element]. rewrite <- app_assoc.
    replace (acc ++ PEdge e :: PNode n :: es) with ((acc ++ PEdge e :: [PNode n]) ++ es) by by rewrite <- app_assoc.
    eapply chain_trans; [eapply chain_step|apply IH; [cbn; lia|done|done|done|lia|]].
    + apply path_step_reads; [apply print_edge_ahead|]. eapply reads_bind.
      * apply reads_edge; [done|lia|by rewrite node_front|by rewrite node_front].
      * unfold optional_node. eapply reads_bind; [|apply reads_ret].
        eapply reads_bind; [apply reads_when; [by rewrite node_front|apply reads_node; [done|lia]]|apply reads_ret].
    + cbn. rewrite !length_app. destruct n; cbn; lia.
    + destruct Ha as [Ha1 Ha2]. split; [done|]. intros Ht. apply Ha2. by destruct e as [? ? ? ? []], es.
  - replace (acc ++ PEdge e :: es) with ((acc ++ PEdge e :: []) ++ es) by by rewrite <- app_assoc.
    assert (∀ t, path_goes_on t = true → is_arrow t = false → front (flat_map (print_element (print 0)) es ++ rest) ≠ t) as Hnot.
    { intros t Ht Ht' He'. destruct (elements_front es rest Hbe) as [Hf| ->]; [rewrite He' in Hf; congruence|].
      cbn in He'. destruct Ha as [Ha _]. rewrite He' in Ha. congruence. }
    eapply chain_trans; [eapply chain_step|apply IH; [cbn; lia|done|by destruct es|done|lia|]].
    + apply path_step_reads; [apply print_edge_ahead|]. eapply reads_bind.
      * apply reads_edge; [done|lia|by apply Hnot|]. intros Hq Hf. destruct (elements_front es rest Hbe) as [Ht| ->]; [by rewrite Hf in Ht|].
        destruct Ha as [_ Ha]. revert Hf. apply Ha. destruct e. by subst.
      * unfold optional_node. eapply reads_bind; [|apply reads_ret].
        eapply reads_bind; [by apply reads_when_no, Hnot|apply reads_ret].
    + cbn. rewrite !length_app. pose proof (edge_length e). lia.
    + destruct Ha as [Ha1 Ha2]. split; [done|]. intros Ht. apply Ha2. destruct e as [? ? ? ? []], es; done.
Qed.
Lemma path_step_stops d acc rest : path_goes_on (front rest) = false → reads (path_step parse_expression acc) (d, rest) None (d, rest).
Proof.
  intros Hr p Hp. exists p. split; [|done]. unfold path_step. rewrite (is_edge_start_ahead p _ Hp). cbn [snd].
  unfold edge_ahead. by destruct (front rest).
Qed.
Lemma elements_no_mode es rest : front rest = TLBrace ∨ item_end (front rest) →
  match front (flat_map (print_element (print 0)) es ++ rest) with TWalk | TTrail | TSimple | TAcyclic => false | _ => true end = true.
Proof.
  intros Hr. destruct es as [|[n|e] es]; cbn [flat_map app print_element].
  - destruct Hr as [->|[->|Hr]]; [done|done|by destruct (front rest)].
  - by rewrite <- app_assoc, node_front.
  - rewrite <- app_assoc. pose proof (print_edge_front e (flat_map (print_element (print 0)) es ++ rest)) as Hf. revert Hf.
    generalize (front (print_edge (print 0) e ++ flat_map (print_element (print 0)) es ++ rest)). by intros [].
Qed.
(** The node a path may start with, and the rest of its elements *)
Lemma split_elements d es after : chained es = true → path_goes_on (front after) = false → forallb (writable_element (writable d 0)) es = true →
  (length (flat_map (print_element (print 0)) es) ≤ N)%nat →
  ∃ first es', es = first ++ es' ∧ begins_with_node es' = false ∧ chained es' = true ∧ takes_quantifier es' = takes_quantifier es ∧
    reads (optional_node parse_expression) (d, flat_map (print_element (print 0)) es ++ after) first
      (d, flat_map (print_element (print 0)) es' ++ after).
Proof.
  intros Hc Hgo Hw Hn. destruct es as [|[n|e] es].
  - exists [], []. split_and!; [done..|]. unfold optional_node. eapply (reads_bind _ _ _ None); [|apply reads_ret].
    apply reads_when_no. intros He. cbn in He. by rewrite He in Hgo.
  - cbn in Hw, Hn. rewrite length_app in Hn. apply andb_true_iff in Hw as [Hnode _].
    exists [PNode n], es. cbn in Hc. split_and!; [done|by destruct es as [|[]]|by destruct es as [|[]]|by destruct es|].
    unfold optional_node. cbn [flat_map print_element]. rewrite <- app_assoc.
    eapply (reads_bind _ _ _ (Some n)); [|apply reads_ret]. apply reads_when; [by rewrite node_front|apply reads_node; [done|lia]].
  - exists [], (PEdge e :: es). split_and!; [done..|]. unfold optional_node. eapply (reads_bind _ _ _ None); [|apply reads_ret].
    apply reads_when_no. cbn. rewrite <- app_assoc. intros He.
    pose proof (print_edge_front e (flat_map (print_element (print 0)) es ++ after)) as Hf. by rewrite He in Hf.
Qed.
Lemma reads_path d p rest : writable_path (writable d 0) p = true → (length (print_path (print 0) p) ≤ N)%nat → item_end (front rest) →
  reads (parse_path_pattern parse_expression) (d, print_path (print 0) p ++ rest) p (d, rest).
Proof.
  destruct p as [v mode shortest es q w]. cbn.
  intros [[[[Hn Hw]%andb_true_iff Hc]%andb_true_iff Hq]%andb_true_iff Ht]%andb_true_iff Hl Hr.
  assert (v = None ∧ shortest = None ∧ w = None) as (-> & -> & ->) by (by destruct v, shortest, w). clear Hn.
  rewrite !length_app in Hl. rewrite <- !app_assoc. unfold parse_path_pattern.
  assert (path_goes_on (front rest) = false) as Hgo by (destruct Hr as [->|Hr]; [done|by destruct (front rest)]).
  set (after := optionally print_quantifier q ++ rest).
  assert (after_elements es (front after)) as Ha.
  { unfold after, after_elements. destruct q; cbn; [split; [done|]; intros He; by rewrite He in Ht|].
    split; [done|]. intros _. eapply item_end_not; [exact Hr|done|done]. }
  assert (front after = TLBrace ∨ item_end (front after)) as Hafter by (unfold after; destruct q; [by left|by right]).
  eapply reads_bind; [apply reads_mode, elements_no_mode, Hafter|].
  destruct (split_elements d es after Hc (proj1 Ha) Hw) as (first & es' & -> & Hb' & Hc' & Ht' & Hfirst).
  { lia. }
  rewrite flat_map_app, length_app in Hl. rewrite forallb_app in Hw. apply andb_true_iff in Hw as [_ Hw].
  eapply reads_bind; [exact Hfirst|]. eapply reads_bind.
  - eapply reads_iterate; [apply (elements_chain d es'); [done|done|done|lia|by destruct Ha; split; [|rewrite Ht']]|].
    by apply path_step_stops, Ha.
  - eapply reads_bind; [apply reads_quantifier; [done|]|apply reads_ret]. intros ->. eapply item_end_not; [exact Hr|done|done].
Qed.
Lemma reads_paths d l rest : writable_paths (writable d 0) l = true → (length (commas (print_path (print 0)) l) ≤ N)%nat →
  clause (front rest) = true →
  reads (comma_separated (parse_path_pattern parse_expression)) (d, commas (print_path (print 0)) l ++ rest) l (d, rest).
Proof.
  intros [Hne Hw]%andb_true_iff Hn Hr. eapply (reads_item_list _ (print_path (print 0))); [done|exact Hw|done|done|].
  intros p r Hp Hl Hi. by apply reads_path.
Qed.
Lemma reads_graph d g rest : writable_graph (writable d 0) g = true → (length (print_graph (print 0) g) ≤ N)%nat → clause (front rest) = true →
  reads (parse_graph_pattern parse_expression) (d, print_graph (print 0) g ++ rest) g (d, rest).
Proof.
  destruct g as [l [mode|]]; cbn; [by intros [_ ?]%andb_true_iff|]. intros [Hw _]%andb_true_iff Hn Hr.
  unfold parse_graph_pattern. eapply reads_bind; [by apply reads_paths|apply reads_ret].
Qed.

(** *** Statements *)
(** The tokens that statements start with *)
Definition opens (t : Token) : bool :=
  match t with
  | TMatch | TOptional | TReturn | TWith | TCall | TInsert | TSet | TDelete | TDetach | TRemove | TCreate | TDrop | TList => true
  | _ => false
  end.
Lemma opens_ends t : opens t = true → ends t = true.
Proof. by destruct t. Qed.
Lemma statement_front d s r : writable_statement d s = true → opens (front (print_statement s ++ r)) = true.
Proof.
  assert (∀ s r, composable s = true → opens (front (print_statement s ++ r)) = true) as Hc.
  { intros [[? [] ? ? ? ?]|[]| | | | | | | | | | | | |] r' Hs; done. }
  destruct s as [m|q|i|t|dl|rm|c|c|c|c|w|c|c|c|]; intros Hw; try done; try by destruct m as [? [] ? ? ? ?].
  - by destruct q.
  - by destruct i.
  - by destruct t.
  - by destruct dl as [[] ?].
  - by destruct rm.
  - by destruct c.
  - by destruct w.
  - destruct c as [[op all [[|first [|]]|] right] ob lo]; cbn in Hw; try (by destruct ob, lo).
    apply andb_true_iff in Hw as [_ [[[Hf _]%andb_true_iff _]%andb_true_iff _]%andb_true_iff].
    cbn. rewrite <- app_assoc. by apply Hc.
Qed.
(** What may follow a query: the end of a statement or a set operator *)
Definition after_query (t : Token) : bool := match set_op t with Some _ => true | None => ends t end.
Lemma after_query_clause t : after_query t = true → clause t = true.
Proof. by destruct t. Qed.
Lemma after_query_not t u : after_query t = true → after_query u = false → t ≠ u.
Proof. congruence. Qed.
#[local] Hint Resolve after_query_clause : reads.
#[local] Arguments commas : simpl never.
#[local] Arguments print_graph : simpl never.
(** The clauses at the end of MATCH, WITH and RETURN *)
Lemma reads_optional_where d w rest : all_of (writable_where (writable d 0)) w = true →
  (length (optionally (print_where (print 0)) w) ≤ N)%nat → clause (front rest) = true → front rest ≠ TWhere →
  reads (when_token TWhere (parse_where_clause parse_expression)) (d, optionally (print_where (print 0)) w ++ rest) w (d, rest).
Proof.
  intros Hw Hn Hr Ht. apply reads_optional; [|by intros []|done]. intros a ->. by apply reads_where.
Qed.
Lemma reads_optional_order d o rest : all_of (writable_order (writable d 0)) o = true →
  (length (optionally (print_order (print 0)) o) ≤ N)%nat → clause (front rest) = true → front rest ≠ TOrder →
  reads (when_token TOrder (parse_order_by_clause parse_expression)) (d, optionally (print_order (print 0)) o ++ rest) o (d, rest).
Proof.
  intros Hw Hn Hr Ht. apply reads_optional; [|by intros []|done]. intros a ->. by apply reads_order.
Qed.
Lemma reads_optional_group d o rest : all_of (writable_group (writable d 0)) o = true →
  (length (optionally (print_group (print 0)) o) ≤ N)%nat → clause (front rest) = true → front rest ≠ TGroup →
  reads (when_token TGroup (parse_group_by_clause parse_expression)) (d, optionally (print_group (print 0)) o ++ rest) o (d, rest).
Proof.
  intros Hw Hn Hr Ht. apply reads_optional; [|by intros []|done]. intros a ->. by apply reads_group.
Qed.
(** The front of a sequence of optional clauses before what follows a query, or a statement *)
Ltac clause_front :=
  repeat match goal with
  | |- context [front (optionally _ ?o ++ _)] =>
      lazymatch type of o with
      | option LimitOffsetClause => destruct o as [[[] []]|]
      | option _ => destruct o as [[]|]
      end; cbn [optionally print_where print_order print_limit print_group print_having app front]
  end; first [done | by auto with reads | by eapply after_query_not].
Lemma reads_match_statement d m i s rest : writable_statement d (SMatch m) = true → (length (print_statement (SMatch m)) ≤ N)%nat →
  after_query (front i) = true → reads (maybe_parse_composite parse_statement (SMatch m)) (d, i) s (d, rest) →
  reads (statement parse_expression parse_statement) (d, print_statement (SMatch m) ++ i) s (d, rest).
Proof.
  intros Hw Hn Hi Hm. destruct m as [graph opt pattern w ob lo].
  change (match graph with None => true | _ => false end && writable_graph (writable d 0) pattern &&
      all_of (writable_where (writable d 0)) w && all_of (writable_order (writable d 0)) ob &&
      all_of (writable_limit (writable d 0)) lo = true) in Hw.
  apply andb_true_iff in Hw as [[[[Hg Hp]%andb_true_iff Hwh]%andb_true_iff Ho]%andb_true_iff Hl].
  destruct graph; [done|].
  change (print_statement (SMatch (mkMatch None opt pattern w ob lo))) with
    (flag opt [TOptional] ++ TMatch :: print_graph (print 0) pattern ++ optionally (print_where (print 0)) w ++
      optionally (print_order (print 0)) ob ++ optionally (print_limit (print 0)) lo) in *.
  rewrite length_app in Hn. cbn [length] in Hn. rewrite !length_app in Hn.
  assert (reads (parse_match_statement parse_expression parse_statement opt) (d, TMatch :: print_graph (print 0) pattern ++
    optionally (print_where (print 0)) w ++ optionally (print_order (print 0)) ob ++ optionally (print_limit (print 0)) lo ++ i) s (d, rest)) as Hb.
  { unfold parse_match_statement. read.
    eapply reads_bind; [apply reads_graph; [done|lia|clause_front]|].
    eapply reads_bind; [apply reads_optional_where; [done|lia|clause_front|clause_front]|].
    eapply reads_bind; [apply reads_optional_order; [done|lia|clause_front|clause_front]|].
    eapply reads_bind; [apply reads_limit; [done|lia|by auto with reads|by eapply after_query_not..]|]. exact Hm. }
  unfold statement. eapply reads_bind; [apply reads_look|]. destruct opt; tidy; [read|]; exact Hb.
Qed.
Lemma items_front d l r t : writable_items (writable d 0) l = true → starts 0 t = false →
  front (commas (print_item (print 0)) l ++ r) ≠ t.
Proof.
  intros [Hne Hw]%andb_true_iff Ht He. destruct l as [|[e alias] l]; [done|]. cbn in Hw.
  apply andb_true_iff in Hw as [[Hw _]%andb_true_iff _]. unfold commas in He. cbn in He. rewrite <- !app_assoc in He.
  pose proof (print_front d 0 e (optionally (λ s, [TAs; name_token s]) alias ++ flat_map (λ b, TComma :: print_item (print 0) b) l ++ r)
    ltac:(lia) Hw) as Hf. rewrite He in Hf. congruence.
Qed.
Lemma reads_return_statement d q i s rest : writable_statement d (SReturn q) = true → (length (print_statement (SReturn q)) ≤ N)%nat →
  after_query (front i) = true → reads (maybe_parse_composite parse_statement (SReturn q)) (d, i) s (d, rest) →
  reads (statement parse_expression parse_statement) (d, print_statement (SReturn q) ++ i) s (d, rest).
Proof.
  intros Hw Hn Hi Hm. destruct q as [dist items gb hv ob lo].
  change (writable_items (writable d 0) items && all_of (writable_group (writable d 0)) gb &&
      all_of (writable_having (writable d 0)) hv && all_of (writable_order (writable d 0)) ob &&
      all_of (writable_limit (writable d 0)) lo = true) in Hw.
  apply andb_true_iff in Hw as [[[[Hit Hg]%andb_true_iff Hh]%andb_true_iff Ho]%andb_true_iff Hl].
  change (print_statement (SReturn (mkReturn dist items gb hv ob lo))) with
    (TReturn :: flag dist [TDistinct] ++ commas (print_item (print 0)) items ++ optionally (print_group (print 0)) gb ++
      optionally (print_having (print 0)) hv ++ optionally (print_order (print 0)) ob ++ optionally (print_limit (print 0)) lo) in *.
  cbn [length] in Hn. rewrite !length_app in Hn. unfold statement. read. unfold parse_return_statement. read.
  eapply reads_bind; [apply reads_flag; [done|by eapply items_front]|].
  eapply reads_bind; [apply reads_return_items; [done|lia|clause_front]|].
  eapply reads_bind; [apply reads_optional_group; [done|lia|clause_front|clause_front]|].
  eapply reads_bind; [apply reads_having; [done|lia|clause_front|clause_front]|].
  eapply reads_bind; [apply reads_optional_order; [done|lia|clause_front|clause_front]|].
  eapply reads_bind; [apply reads_limit; [done|lia|clause_front|clause_front|clause_front]|]. exact Hm.
Qed.
Lemma ends_query t : ends t = true → after_query t = true.
Proof. by destruct t. Qed.
#[local] Hint Resolve ends_query : reads.
Lemma reads_with_statement d w rest : writable_statement d (SWith w) = true → (length (print_statement (SWith w)) ≤ N)%nat →
  ends (front rest) = true → reads (statement parse_expression parse_statement) (d, print_statement (SWith w) ++ rest) (SWith w) (d, rest).
Proof.
  intros Hw Hn Hr. destruct w as [dist items wh ob lo]. assert (after_query (front rest) = true) as Hi by auto with reads.
  change (writable_items (writable d 0) items && all_of (writable_where (writable d 0)) wh && all_of (writable_order (writable d 0)) ob &&
      all_of (writable_limit (writable d 0)) lo = true) in Hw.
  apply andb_true_iff in Hw as [[[Hit Hwh]%andb_true_iff Ho]%andb_true_iff Hl].
  change (print_statement (SWith (mkWith dist items wh ob lo))) with
    (TWith :: flag dist [TDistinct] ++ commas (print_item (print 0)) items ++ optionally (print_where (print 0)) wh ++
      optionally (print_order (print 0)) ob ++ optionally (print_limit (print 0)) lo) in *.
  cbn [length] in Hn. rewrite !length_app in Hn. unfold statement. read. unfold parse_with_statement. read.
  eapply reads_bind; [apply reads_flag; [done|by eapply items_front]|].
  eapply reads_bind; [apply reads_return_items; [done|lia|clause_front]|].
  eapply reads_bind; [apply reads_optional_where; [done|lia|clause_front|clause_front]|].
  eapply reads_bind; [apply reads_optional_order; [done|lia|clause_front|clause_front]|].
  eapply reads_bind; [apply reads_limit; [done|lia|clause_front|clause_front|clause_front]|]. apply reads_ret.
Qed.
Lemma reads_insert_statement d patterns rest : writable_statement d (SInsert (mkInsert patterns)) = true →
  (length (print_statement (SInsert (mkInsert patterns))) ≤ N)%nat → ends (front rest) = true →
  reads (statement parse_expression parse_statement) (d, print_statement (SInsert (mkInsert patterns)) ++ rest) (SInsert (mkInsert patterns)) (d, rest).
Proof.
  intros Hw Hn Hr. change (print_statement (SInsert (mkInsert patterns))) with (TInsert :: commas (print_path (print 0)) patterns) in *.
  cbn [length] in Hn. unfold statement. read. unfold parse_insert_statement. read.
  eapply reads_bind; [apply reads_paths; [exact Hw|lia|by auto with reads]|apply reads_ret].
Qed.
Lemma reads_delete_statement d detach targets rest : writable_statement d (SDelete (mkDelete detach targets)) = true →
  (length (print_statement (SDelete (mkDelete detach targets))) ≤ N)%nat → ends (front rest) = true →
  reads (statement parse_expression parse_statement) (d, print_statement (SDelete (mkDelete detach targets)) ++ rest)
    (SDelete (mkDelete detach targets)) (d, rest).
Proof.
  intros Hw Hn Hr. change (nonempty targets && forallb (writable d 0) targets = true) in Hw. apply andb_true_iff in Hw as [Hne Hw].
  change (print_statement (SDelete (mkDelete detach targets))) with (flag detach [TDetach] ++ TDelete :: commas (print 0) targets) in *.
  rewrite length_app in Hn. cbn [length] in Hn.
  assert (reads (parse_delete_statement parse_expression) (d, flag detach [TDetach] ++ TDelete :: commas (print 0) targets ++ rest)
    (SDelete (mkDelete detach targets)) (d, rest)) as Hd.
  { unfold parse_delete_statement. eapply reads_bind; [by apply reads_flag|]. read. eapply reads_bind; [|apply reads_ret].
    eapply (reads_commas _ (print 0) _ item_end); [by destruct targets| |by left|by right; auto with reads|by intros He; rewrite He in Hr].
    intros e r He Hi. apply Hexpr; [by eapply forallb_elem| |by auto with reads]. pose proof (commas_length (print 0) targets e He). lia. }
  unfold statement. eapply reads_bind; [apply reads_look|]. destruct detach; tidy; exact Hd.
Qed.
Lemma target_access target property : print_target (EPropertyAccess target property) = print_target target ++ [TDot; name_token property].
Proof. done. Qed.
Lemma writable_access target property : writable_target target = true → utf8_string property = true →
  writable_target (EPropertyAccess target property) = true.
Proof. intros Ht Hp. cbn. by rewrite Ht, Hp. Qed.
Lemma reads_set_item d i rest : writable_set_item (writable d 0) i = true → (length (print_set_item (print 0) i) ≤ N)%nat →
  item_end (front rest) → reads (parse_set_item parse_expression) (d, print_set_item (print 0) i ++ rest) i (d, rest).
Proof.
  intros Hw Hn Hr. unfold parse_set_item. destruct i as [target property value|target label|target value]; cbn [writable_set_item print_set_item] in *.
  - apply andb_true_iff in Hw as [[Ht Hp]%andb_true_iff Hv]. rewrite length_app in Hn. cbn [length] in Hn. rewrite <- app_assoc. cbn [app].
    eapply reads_bind; [apply reads_target; [by apply writable_access|done]|]. read. read.
    eapply reads_bind; [apply Hexpr; [done|lia|by auto with reads]|apply reads_ret].
  - apply andb_true_iff in Hw as [Ht Hl]. rewrite <- app_assoc. cbn [app].
    eapply reads_bind; [by apply reads_target|]. repeat read.
  - apply andb_true_iff in Hw as [Ht Hv]. destruct target as [|s| | | | | | | | | | | | | | | | |]; try done.
    rewrite length_app in Hn. cbn [length] in Hn. rewrite <- app_assoc. cbn [app].
    eapply reads_bind; [by apply reads_target|]. read. read.
    eapply reads_bind; [apply Hexpr; [done|lia|by auto with reads]|apply reads_ret].
Qed.
Lemma reads_remove_item d i rest : writable_remove_item i = true → item_end (front rest) →
  reads parse_remove_item (d, print_remove_item i ++ rest) i (d, rest).
Proof.
  intros Hw Hr. unfold parse_remove_item. destruct i as [target property|target label]; cbn [writable_remove_item print_remove_item] in *;
    apply andb_true_iff in Hw as [Ht Hl].
  - eapply reads_bind; [apply reads_target; [by apply writable_access|by eapply item_end_not]|].
    eapply reads_bind; [apply reads_match_no; by eapply item_end_not|]. apply reads_ret.
  - rewrite <- app_assoc. cbn [app]. eapply reads_bind; [by apply reads_target|]. repeat read.
Qed.
Lemma reads_set_statement d items rest : writable_statement d (SSet (mkSet items)) = true →
  (length (print_statement (SSet (mkSet items))) ≤ N)%nat → ends (front rest) = true →
  reads (statement parse_expression parse_statement) (d, print_statement (SSet (mkSet items)) ++ rest) (SSet (mkSet items)) (d, rest).
Proof.
  intros Hw Hn Hr. change (nonempty items && forallb (writable_set_item (writable d 0)) items = true) in Hw. apply andb_true_iff in Hw as [Hne Hw].
  change (print_statement (SSet (mkSet items))) with (TSet :: commas (print_set_item (print 0)) items) in *. cbn [length] in Hn.
  unfold statement. read. unfold parse_set_statement. read. eapply reads_bind; [|apply reads_ret].
  eapply (reads_item_list _ (print_set_item (print 0))); [done|exact Hw|lia|by auto with reads|].
  intros i r Hi Hl He. by apply reads_set_item.
Qed.
Lemma reads_remove_statement d items rest : writable_statement d (SRemove (mkRemove items)) = true →
  (length (print_statement (SRemove (mkRemove items))) ≤ N)%nat → ends (front rest) = true →
  reads (statement parse_expression parse_statement) (d, print_statement (SRemove (mkRemove items)) ++ rest) (SRemove (mkRemove items)) (d, rest).
Proof.
  intros Hw Hn Hr. change (nonempty items && forallb writable_remove_item items = true) in Hw. apply andb_true_iff in Hw as [Hne Hw].
  change (print_statement (SRemove (mkRemove items))) with (TRemove :: commas print_remove_item items) in *. cbn [length] in Hn.
  unfold statement. read. unfold parse_remove_statement. read. eapply reads_bind; [|apply reads_ret].
  eapply (reads_item_list _ print_remove_item); [done|exact Hw|lia|by auto with reads|].
  intros i r Hi Hl He. by apply reads_remove_item.
Qed.

Lemma split_dots_nonempty acc t : split_dots acc t ≠ [].
Proof. revert acc. induction t as [|c t IH]; intros acc; cbn; [done|]. by destruct (c =? 46). Qed.
Lemma procedure_chain d parts name rest :
  chain (λ name, b ← match_token TDot;
                 if b : bool then part ← expect_ident; mret (Some (name +:+ "." +:+ part)) else mret None)
    name (d, flat_map (λ part, [TDot; TIdent part]) parts ++ rest)
    (foldl (λ name part, name +:+ "." +:+ string_of_chars part) name parts) (d, rest).
Proof.
  revert name. induction parts as [|part parts IH]; intros name; [apply chain_refl|]. cbn [flat_map foldl app].
  eapply chain_trans; [eapply chain_step|apply IH]; [|cbn; rewrite ?length_app; lia].
  read. unfold expect_ident. eapply reads_bind; [repeat read|apply reads_ret].
Qed.
Lemma reads_call_statement d c rest : writable_statement d (SCall c) = true → (length (print_statement (SCall c)) ≤ N)%nat →
  ends (front rest) = true → reads (statement parse_expression parse_statement) (d, print_statement (SCall c) ++ rest) (SCall c) (d, rest).
Proof.
  intros Hw Hn Hr. destruct c as [name args yields].
  change (bool_decide (join_parts (procedure_parts name) = name) && forallb (writable d 0) args &&
    all_of (λ l, nonempty l && forallb utf8_string l) yields = true) in Hw.
  apply andb_true_iff in Hw as [[Hname%bool_decide_eq_true Hargs]%andb_true_iff Hy].
  change (print_statement (SCall (mkCall name args yields))) with
    (TCall :: print_procedure name ++ TLParen :: commas (print 0) args ++ TRParen ::
      optionally (λ l, TYield :: commas (λ s, [ident s]) l) yields) in *.
  cbn [length] in Hn. rewrite length_app in Hn. cbn [length] in Hn. rewrite length_app in Hn.
  unfold statement. read. unfold parse_call_statement. read. unfold print_procedure.
  destruct (procedure_parts name) as [|first parts] eqn:Hp; [by apply split_dots_nonempty in Hp|].
  eapply (reads_bind _ _ _ (string_of_chars first)).
  { unfold expect_ident. repeat read. }
  eapply (reads_bind _ _ _ name).
  { rewrite <- Hname at 1. cbn [join_parts]. eapply reads_iterate; [apply procedure_chain|]. repeat read. }
  cbn [app].
  eapply (reads_bind _ _ _ (Some args)); [apply reads_after; [done|apply reads_expressions; done || lia]|].
  eapply (reads_bind _ _ _ yields); [|apply reads_ret]. destruct yields as [l|]; cbn in Hy |- *.
  - apply andb_true_iff in Hy as [Hne Hl]. apply reads_after; [done|].
    apply (reads_commas _ (λ s, [ident s]) d (λ _, True)); [by destruct l| |done..|by intros He; rewrite He in Hr].
    intros s r Hs _. apply reads_ident. by eapply forallb_elem.
  - apply reads_after_no. by intros He; rewrite He in Hr.
Qed.
Lemma reads_definition_statement d s rest : reads_definition_of d s rest →
  reads (statement parse_expression parse_statement) (d, print_definition s ++ rest) s (d, rest).
Proof.
  unfold reads_definition_of. intros Hs. unfold statement. eapply reads_bind; [apply reads_look|].
  destruct (print_definition s) as [|[] ts]; done.
Qed.
(** A query with set operators: the part after an operator is a statement of its own. *)
Lemma reads_no_composite d s rest : ends (front rest) = true → reads (maybe_parse_composite parse_statement s) (d, rest) s (d, rest).
Proof. intros Hr. unfold maybe_parse_composite. eapply reads_bind; [apply reads_look|]. destruct (front rest); done || apply reads_ret. Qed.
Definition print_right (r : SetOperand) : list Token :=
  match r with OperandQuery [second] => print_statement second | OperandSetOp o' => print_operation o' | _ => [] end.
Definition writable_right (d : nat) (r : SetOperand) : bool :=
  match r with
  | OperandQuery [second] => single second && writable_statement d second
  | OperandSetOp o' => writable_operation d o'
  | _ => false
  end.
Lemma reads_composite d op all first r rest : (0 < d)%nat → writable_right (pred d) r = true → (length (print_right r) < N)%nat →
  ends (front rest) = true →
  reads (maybe_parse_composite parse_statement first) (d, set_token op :: flag all [TAll] ++ print_right r ++ rest)
    (SCompositeQuery (mkCompositeQuery (mkSetOperation op all (OperandQuery [first]) r) None None)) (d, rest).
Proof.
  intros Hd Hw Hn Hr. destruct d as [|d]; [lia|]. cbn [pred] in Hw.
  assert (∃ s, print_right r = print_statement s ∧ writable_statement d s = true ∧
    match s with SCompositeQuery (mkCompositeQuery body _ _) => OperandSetOp body | other => OperandQuery [other] end = r)
    as (s & Hp & Hws & Hs).
  { destruct r as [[|second [|]]|o']; try done.
    - apply andb_true_iff in Hw as [Hsi Hw]. exists second. split_and!; [done|done|by destruct second].
    - exists (SCompositeQuery (mkCompositeQuery o' None None)). by split_and!. }
  rewrite Hp in *. unfold maybe_parse_composite. eapply reads_bind; [apply reads_look|]. cbn [front].
  assert (set_op (set_token op) = Some op) as -> by by destruct op.
  eapply reads_bind; [apply reads_next; by destruct op|]. apply reads_enter. intros Hd'.
  eapply reads_bind; [apply reads_flag; [done|]|].
  { intros He. pose proof (statement_front d s rest Hws) as Hf. by rewrite He in Hf. }
  eapply reads_bind; [by apply Hstmt|]. eapply reads_bind; [by apply reads_exit|]. rewrite Hs. apply reads_ret.
Qed.
Lemma reads_statement d s rest : writable_statement d s = true → (length (print_statement s) ≤ N)%nat → ends (front rest) = true →
  reads (statement parse_expression parse_statement) (d, print_statement s ++ rest) s (d, rest).
Proof.
  intros Hw Hn Hr.
  assert (∀ first i s', composable first = true → writable_statement d first = true → (length (print_statement first) ≤ N)%nat →
    after_query (front i) = true → reads (maybe_parse_composite parse_statement first) (d, i) s' (d, rest) →
    reads (statement parse_expression parse_statement) (d, print_statement first ++ i) s' (d, rest)) as Hquery.
  { intros [m|q| | | | | | | | | | | | |] j s' Hc Hwf Hnf Hi Hm; try done; [by apply reads_match_statement|by apply reads_return_statement]. }
  destruct s as [m|q|i|t|dl|rm|c|c|c|c|w|c|c|c|].
  - apply Hquery; try done; [by auto with reads|by apply reads_no_composite].
  - apply Hquery; try done; [by auto with reads|by apply reads_no_composite].
  - destruct i. by apply reads_insert_statement.
  - destruct t. by apply reads_set_statement.
  - destruct dl. by apply reads_delete_statement.
  - destruct rm. by apply reads_remove_statement.
  - by apply reads_definition_statement, reads_create_graph.
  - by apply reads_definition_statement, reads_drop_graph.
  - by apply reads_definition_statement, reads_create_graph_type.
  - by apply reads_call_statement.
  - by apply reads_with_statement.
  - destruct c as [[op all l r] ob lo].
    change (match ob, lo with None, None => true | _, _ => false end && writable_operation d (mkSetOperation op all l r) = true) in Hw.
    apply andb_true_iff in Hw as [Hnone Hw]. destruct ob, lo; try done.
    destruct l as [[|first [|]]|]; try done.
    change (composable first && writable_statement d first && (0 <? d)%nat && writable_right (pred d) r = true) in Hw.
    apply andb_true_iff in Hw as [[[Hc Hf]%andb_true_iff Hd%Nat.ltb_lt]%andb_true_iff Hwr].
    change (print_statement (SCompositeQuery (mkCompositeQuery (mkSetOperation op all (OperandQuery [first]) r) None None))) with
      (print_statement first ++ set_token op :: flag all [TAll] ++ print_right r) in *.
    rewrite length_app in Hn. cbn [length] in Hn. rewrite length_app in Hn. rewrite <- app_assoc. cbn [app]. rewrite <- app_assoc.
    apply Hquery; [done|done|lia|by destruct op|]. apply reads_composite; [done|done|lia|done].
  - by apply reads_definition_statement, reads_create_index.
  - by apply reads_definition_statement, reads_drop_index.
  - by apply reads_definition_statement, reads_list_graphs.
Qed.
End step.

(** ** The knot *)
Section knot.
Context `{Unicode, DebugFormat}.
Implicit Types (d : nat) (e : Expression) (s : GqlStatement) (rest : list Token).
Lemma knot_reads n :
  (∀ d e rest, writable d 0 e = true → (length (print 0 e) < n)%nat → stops 0 (front rest) = true →
    reads (parse_expression_n n) (d, print 0 e ++ rest) e (d, rest)) ∧
  (∀ d s rest, writable_statement d s = true → (length (print_statement s) < n)%nat → ends (front rest) = true →
    reads (parse_statement_n n) (d, print_statement s ++ rest) s (d, rest)).
Proof.
  induction n as [|n [IHe IHs]]; [split; intros; lia|]. split.
  - intros d e rest Hw Hn Hr. eapply reads_ext; [|exact (levels_read _ _ n IHe IHs 0 ltac:(lia) d e rest Hw ltac:(lia) Hr)].
    intros p _. cbn [parse_expression_n level]. reflexivity.
  - intros d s rest Hw Hn Hr. eapply reads_ext; [|exact (reads_statement _ _ n IHe IHs d s rest Hw ltac:(lia) Hr)].
    intros p _. cbn [parse_statement_n]. reflexivity.
Qed.
Lemma parse_statement_reads d s rest : writable_statement d s = true → ends (front rest) = true →
  reads parse_statement (d, print_statement s ++ rest) s (d, rest).
Proof.
  intros Hw Hr. apply (reads_ext _ (parse_statement_n (S (length (print_statement s ++ rest))))).
  { intros p Hp. unfold parse_statement. rewrite (left_stands _ _ Hp). cbn [snd]. reflexivity. }
  apply knot_reads; [done| |done]. rewrite length_app. lia.
Qed.
Lemma parse_expression_reads d e rest : writable d 0 e = true → stops 0 (front rest) = true →
  reads parse_expression (d, print 0 e ++ rest) e (d, rest).
Proof.
  intros Hw Hr. apply (reads_ext _ (parse_expression_n (S (length (print 0 e ++ rest))))).
  { intros p Hp. unfold parse_expression. rewrite (left_stands _ _ Hp). cbn [snd]. reflexivity. }
  apply knot_reads; [done| |done]. rewrite length_app. lia.
Qed.
End knot.

(** ** Programs and texts *)
Section programs.
Context `{Unicode, DebugFormat}.
Definition print_one (sb : GqlStatement * bool) : list Token := print_statement sb.1 ++ flag sb.2 [TSemicolon].
Lemma print_one_front sb r : writable_statement MAX_EXPR_DEPTH sb.1 = true → opens (front (print_one sb ++ r)) = true.
Proof. intros Hw. unfold print_one. rewrite <- app_assoc. by eapply statement_front. Qed.
Lemma program_chain sbs acc : Forall (λ sb, writable_statement MAX_EXPR_DEPTH sb.1 = true) sbs →
  chain (λ statements, t ← look;
                       if decide (t = TEof) then mret None
                       else stmt ← parse_statement; _ ← match_token TSemicolon; mret (Some (statements ++ [stmt])))
    acc (MAX_EXPR_DEPTH, flat_map print_one sbs ++ [TEof]) (acc ++ sbs.*1) (MAX_EXPR_DEPTH, [TEof]).
Proof.
  intros Hsbs. revert acc. induction Hsbs as [|[s b] sbs Hw Hsbs IH]; intros acc; [rewrite app_nil_r; apply chain_refl|].
  cbn [flat_map]. rewrite <- app_assoc. cbn in Hw.
  assert (opens (front (flat_map print_one sbs ++ [TEof])) = true ∨ flat_map print_one sbs ++ [TEof] = [TEof]) as Hnext.
  { destruct Hsbs as [|sb' sbs' Hw']; [by right|left]. cbn [flat_map]. rewrite <- app_assoc. by apply print_one_front. }
  eapply chain_trans; [eapply chain_step|].
  - pose proof (print_one_front (s, b) (flat_map print_one sbs ++ [TEof]) Hw) as Hf. eapply reads_bind; [apply reads_look|].
    rewrite decide_False by (intros He; by rewrite He in Hf). unfold print_one at 1. cbn [fst snd]. rewrite <- app_assoc.
    eapply reads_bind; [apply parse_statement_reads; [done|]|].
    { destruct b; [done|]. destruct Hnext as [Hn| ->]; [by apply opens_ends|done]. }
    eapply reads_bind; [apply (reads_flag _ TSemicolon b); [done|]|apply reads_ret].
    intros He. destruct Hnext as [Hn|Hn]; [by rewrite He in Hn|by rewrite Hn in He].
  - pose proof (print_one_front (s, b) [] Hw) as Hf. rewrite app_nil_r in Hf. cbn [snd].
    rewrite !length_app. destruct (print_one (s, b)); [done|cbn [length]; lia].
  - cbn [fmap list_fmap fst]. replace (acc ++ s :: sbs.*1) with ((acc ++ [s]) ++ sbs.*1) by by rewrite <- app_assoc. apply IH.
Qed.
Lemma combine_fst {A B} (l : list A) (l' : list B) : length l' = length l → (combine l l').*1 = l.
Proof. revert l'. induction l as [|a l IH]; intros [|b l'] Hl; try done. cbn. f_equal. apply IH. cbn in Hl. lia. Qed.
Lemma parse_program_reads prog semicolons : length semicolons = length (statements prog) → writable_program prog = true →
  reads parse_program (MAX_EXPR_DEPTH, print_program prog semicolons ++ [TEof]) prog (MAX_EXPR_DEPTH, [TEof]).
Proof.
  intros Hl Hw. destruct prog as [l]. unfold parse_program, print_program. cbn [statements] in *.
  eapply (reads_bind _ _ _ l); [|apply reads_ret]. eapply reads_iterate.
  - replace l with ([] ++ (combine l semicolons).*1) at 2 by by apply combine_fst. apply program_chain.
    apply Forall_forall. intros [s b] Hsb. apply list_elem_of_In, in_combine_l in Hsb. cbn.
    by eapply forallb_elem; [|apply list_elem_of_In].
  - eapply reads_bind; [apply reads_look|]. apply reads_ret.
Qed.
Definition comment_token (t : Token) : bool := match t with TComment _ => true | _ => false end.
(** The tokens of lexemes, without the comments *)
Definition meant_tokens (ls : list (lexeme * text)) : list Token :=
  List.filter (λ t, match t with TComment _ => false | _ => true end) (lexeme_token ∘ fst <$> ls).
Lemma Parser_new_ahead ts : ahead (Parser_new ts) = List.filter (λ t, match t with TComment _ => false | _ => true end) (token <$> ts).
Proof.
  unfold ahead, Parser_new. cbn [pos tokens]. rewrite drop_0. induction ts as [|[t sp] ts IH]; [done|]. cbn.
  destruct t; cbn; try (f_equal; exact IH); exact IH.
Qed.
Lemma Parser_new_stands ws ls prog semicolons : blank ws → program_ok ls → meant_tokens ls = print_program prog semicolons →
  ∃ ts, tokenize (Lexer_new (ws ++ program_text ls)) = Done ts ∧
    stands (Parser_new ts) (MAX_EXPR_DEPTH, print_program prog semicolons ++ [TEof]).
Proof.
  intros Hws Hok Hmeant. destruct (tokenize_program (fuel_of (Lexer_new (ws ++ program_text ls))) (Lexer_new (ws ++ program_text ls)) ws ls [])
    as (ts & Hts & Htok); [done..|apply fuel_enough|].
  exists ts. split; [exact Hts|]. split; [|done]. rewrite Parser_new_ahead, Htok. cbn [snd].
  rewrite List.filter_app. unfold meant_tokens in Hmeant. by rewrite Hmeant.
Qed.

(** Tokens with a text: keywords, operators, identifiers that are not keywords, strings, parameters, integers
    from 0 below 2^63 and the floats that are the value of a decimal literal *)
Definition spellable (t : Token) : Prop :=
  match t with TComment _ => False | _ => ∃ l, lexeme_ok l ∧ lexeme_token l = t end.
Lemma space_continues l : comment_token (lexeme_token l) = false → continues l 32 = false.
Proof. destruct l; cbn; try done; intros Hc; by rewrite ?andb_false_r. Qed.
Lemma spellable_text ts : Forall spellable ts → ∃ ls, program_ok ls ∧ meant_tokens ls = ts.
Proof.
  induction 1 as [|t ts Ht _ (ls & Hok & Hls)]; [by exists []|].
  assert (comment_token t = false ∧ ∃ l, lexeme_ok l ∧ lexeme_token l = t) as (Hc & l & Hl & <-) by (destruct t; done).
  exists ((l, [32]) :: ls). split.
  - cbn [program_ok]. split_and!; [done|by repeat constructor|by apply space_continues|done].
  - unfold meant_tokens in *. cbn [fmap list_fmap compose fst List.filter]. rewrite Hls. by destruct (lexeme_token l).
Qed.

(** C4: Parsing inverts printing. Take any program whose statements and expressions are of forms that the
    grammar has (subqueries, casts, paths and literals of dates and times, which the tree also has, have no
    syntax), with nesting within the limit of 256. Print it to tokens with parentheses only where
    operator levels and left association ask for them, and write these tokens as text: keywords in any
    case, names that are identifiers and not keywords, integers from 0 below 2^63, any decimal
    spelling of a float's value, strings with their quotes doubled; with any white space and any line and block
    comments between (or nothing where tokens do not run together), and semicolons after all, some or
    none of the statements. The parser returns that very program, having read the whole text. (When
    each token has such a spelling there is such a text, [spellable_text].) *)
Theorem parse_printed ws ls prog semicolons : blank ws → program_ok ls → writable_program prog = true →
  length semicolons = length (statements prog) → meant_tokens ls = print_program prog semicolons →
  ∃ p, parse (ws ++ program_text ls) = Parsed prog p ∧ at_end p = true.
Proof.
  intros Hws Hok Hw Hl Hmeant. destruct (Parser_new_stands ws ls prog semicolons Hws Hok Hmeant) as (ts & Hts & Hs).
  destruct (parse_program_reads prog semicolons Hl Hw _ Hs) as (p & Hp & Hend). exists p. unfold parse. rewrite Hts. split; [exact Hp|].
  unfold at_end. apply bool_decide_eq_true. by rewrite (peek_stands _ _ Hend).
Qed.
End programs.

(** ** Witness *)
Section sample.
#[local] Existing Instance dev_unicode.
#[local] Existing Instance plain_debug.
Definition kw (k : string) : lexeme := LxKeyword k (default TEof (keyword_token (chars_of k))).
Definition op (s : string) : lexeme := LxOperator s (default TEof (snd <$> List.find (λ x, bool_decide (x.1 = s)) operator_table)).
Definition id (s : string) : lexeme := LxIdent (chars_of s).
Definition int (s : string) : lexeme := LxInt (chars_of s).
(** MATCH (a:P {x: 1})-[e:K]->(b) WHERE NOT a.x - 1 - (2 - 3.14) = 4 OR b IS NULL /*!*/
    RETURN DISTINCT count( * ) AS n, [1, 'it''s'] ORDER BY n DESC LIMIT 10; RETURN $p UNION ALL RETURN a *)
Definition sample_lexemes : list lexeme :=
  [kw "MATCH"; op "("; id "a"; op ":"; id "P"; op "{"; id "x"; op ":"; int "1"; op "}"; op ")"; op "-"; op "["; id "e"; op ":"; id "K";
   op "]"; op "->"; op "("; id "b"; op ")"; kw "WHERE"; kw "NOT"; id "a"; op "."; id "x"; op "-"; int "1"; op "-"; op "("; int "2";
   op "-"; LxFloat (chars_of "3") (chars_of ".14") []; op ")"; op "="; int "4"; kw "OR"; id "b"; kw "IS"; kw "NULL"; LxBlockComment (chars_of "!"); kw "RETURN";
   kw "DISTINCT"; kw "COUNT"; op "("; op "*"; op ")"; kw "AS"; id "n"; op ","; op "["; int "1"; op ",";
   LxString (chars_of "it's"); op "]"; kw "ORDER"; kw "BY"; id "n"; kw "DESC"; kw "LIMIT"; int "10"; op ";"; kw "RETURN";
   LxParameter (chars_of "p"); kw "UNION"; kw "ALL"; kw "RETURN"; id "a"]%string.
(** Each lexeme with white space after it, and a comment to the end of the last line *)
Definition sample_text : list (lexeme * text) := ((λ l, (l, [32; 10])) <$> sample_lexemes) ++ [(LxLineComment (chars_of " all"), [10; 32])].
Definition returning (e : Expression) : GqlStatement := SReturn (mkReturn false [mkReturnItem e None] None None None None).
Definition sample_tree : GqlProgram :=
  let x := EPropertyAccess (EIdentifier "a") "x" in
  let int i := ELiteral (LInteger i) in
  mkProgram
    [SMatch (mkMatch None false
       (mkGraphPattern [mkPathPattern None None None
          [PNode (mkNodePattern (Some "a") ["P"] [("x", int 1)]); PEdge (mkEdgePattern (Some "e") Outgoing ["K"] [] None);
           PNode (mkNodePattern (Some "b") [] [])] None None] None)
       (Some (mkWhere (EBinaryOp (EUnaryOp OpNot (EBinaryOp (EBinaryOp (EBinaryOp x OpSub (int 1)) OpSub (EBinaryOp (int 2) OpSub (ELiteral (LFloat 0x40091EB851EB851F))))
          OpEq (int 4))) OpOr (EIsNull (EIdentifier "b"))))) None None);
     SReturn (mkReturn true
       [mkReturnItem (EAggregate AggCount false None) (Some "n"); mkReturnItem (EList [int 1; ELiteral (LString "it's")]) None]
       None None (Some (mkOrderBy [mkOrderByItem (EIdentifier "n") Desc])) (Some (mkLimitOffset (Some (int 10)) None)));
     SCompositeQuery (mkCompositeQuery (mkSetOperation OpUnion true (OperandQuery [returning (EParameter "p")])
       (OperandQuery [returning (EIdentifier "a")])) None None)]%string.
Ltac sample_lexeme :=
  first [ exact I
        | reflexivity
        | apply (bool_decide_unpack _); vm_compute; exact I
        | split; [split; [by repeat constructor|done]|reflexivity]
        | split; [done|split; [by repeat constructor|reflexivity]]
        | split; [by repeat constructor|done]
        | split; [split; [done|by repeat constructor]|split; [split; [done|split; [done|by repeat constructor]]|by split]]
        | by repeat constructor
        | let E := fresh in intros ? ? E; apply (f_equal length) in E; rewrite !length_app in E; cbn in E; lia ].
Lemma parse_printed_witness : ∃ p,
  parse ([10] ++ program_text sample_text) = Parsed sample_tree p ∧ at_end p = true.
Proof.
  apply (parse_printed [10] sample_text sample_tree [false; true; false]).
  - by repeat constructor.
  - unfold sample_text, sample_lexemes. cbn [fmap list_fmap app program_ok].
    repeat match goal with
      | |- _ ∧ blank _ ∧ _ => split; [cbn [lexeme_ok kw op id int]; sample_lexeme|split; [by repeat constructor|split; [reflexivity|]]]
      end.
    exact I.
  - vm_compute. reflexivity.
  - reflexivity.
  - vm_compute. reflexivity.
Defined.
End sample.
