(* ===== verification/Limits.v ===== *)
(** * Nesting and the documented syntax (parser.rs)

    How deep expressions may nest, and what the documentation of the language promises that the
    parser does not read. *)
From S2P Require Import Prelude Types Lexer F64 Text Ast Expression Debug Parser Printing RoundTrip.

(** ** Nesting *)
Definition one : Expression := ELiteral (LInteger 1).
Definition lists (n : nat) : Expression := Nat.iter n (λ e, EList [e]) one.
Definition negations (n : nat) : Expression := Nat.iter n (EUnaryOp OpNeg) one.
Section nesting.
Context `{Unicode, DebugFormat}.
Lemma lists_writable d n k : (k ≤ 10)%nat → writable d k (lists n) = true.
Proof.
  intros Hk. revert k Hk. induction n as [|n IH]; intros k Hk; rewrite writable_eq.
  - by rewrite (proj2 (Nat.ltb_ge _ _)) by done.
  - rewrite (proj2 (Nat.ltb_ge _ _)) by done. change (forallb (writable d 0) [lists n] = true). cbn [forallb]. by rewrite IH by lia.
Qed.
Lemma lists_printed n : print 0 (lists n) = repeat TLBracket n ++ TIntegerLit 1 :: repeat TRBracket n.
Proof.
  induction n as [|n IH]; [done|]. change (print 0 (lists (S n))) with (TLBracket :: (print 0 (lists n) ++ []) ++ [TRBracket]).
  rewrite IH, app_nil_r, <- app_assoc. cbn [repeat app]. by rewrite <- repeat_cons.
Qed.
Lemma negations_printed n : print 8 (negations n) = repeat TMinus n ++ [TIntegerLit 1].
Proof.
  induction n as [|n IH]; [done|]. change (print 8 (negations (S n))) with (TMinus :: print 8 (negations n)). by rewrite IH.
Qed.
Lemma negations_writable d n : (n ≤ d)%nat → writable d 8 (negations n) = true.
Proof.
  revert d. induction n as [|n IH]; intros d Hn; [done|].
  change ((0 <? d)%nat && writable (pred d) 8 (negations n) = true). destruct d as [|d]; [lia|]. cbn [pred]. by rewrite IH by lia.
Qed.
Lemma negations_level n d : print 0 (negations n) = print 8 (negations n) ∧ writable d 0 (negations n) = writable d 8 (negations n).
Proof.
  rewrite (print_eq 8), (writable_eq d 8). assert (8 ≤ prec (negations n))%nat by (destruct n; cbn; lia).
  by rewrite (proj2 (Nat.ltb_ge _ _)) by done.
Qed.
(** Failing with the error of the depth guard *)
Definition too_deep {A} (o : parsed A) : Prop := ∃ e, o = Failed e ∧ pe_message e = "expression nesting depth exceeded"%string.
Lemma too_deep_bind {A B} (m : P A) (f : A → P B) p : too_deep (m p) → too_deep ((m ≫= f) p).
Proof. intros (e & He & Hm). exists e. unfold mbind, P_bind. by rewrite He. Qed.
Lemma binary_too_deep ops sub p : too_deep (sub p) → too_deep (binary_level ops sub p).
Proof. apply too_deep_bind. Qed.
Lemma signs_too_deep operand m d rest p : stands p (d, repeat TMinus (S d) ++ rest) → (d < m)%nat →
  too_deep (prefixed m sign_op operand p).
Proof.
  revert d p. induction m as [|m IH]; intros d p Hs Hm; [lia|]. cbn [prefixed]. rewrite (peek_stands _ _ Hs). cbn [snd repeat app front sign_op].
  destruct (reads_next d TMinus (repeat TMinus d ++ rest) ltac:(done) p Hs) as (p1 & Hp1 & Hs1).
  unfold mbind at 1, P_bind. rewrite Hp1. destruct d as [|d].
  - destruct Hs1 as [_ Hd]. cbn in Hd. exists (mkParseError "expression nesting depth exceeded" (sp_line (peek_span (mkParser (tokens p1) (pos p1) (S (depth p1)))))
      (sp_column (peek_span (mkParser (tokens p1) (pos p1) (S (depth p1)))))). split; [|done].
    unfold mbind, P_bind, enter_depth. cbn [depth]. rewrite (proj2 (Nat.ltb_lt _ _)) by lia. done.
  - destruct Hs1 as [Ha Hd]. cbn [fst snd] in *. unfold mbind at 1, P_bind. unfold enter_depth. cbn [depth tokens pos].
    rewrite (proj2 (Nat.ltb_ge _ _)) by lia. apply too_deep_bind, (IH d); [|lia]. split; [exact Ha|cbn; lia].
Qed.
Lemma expression_too_deep pe ps d rest p : stands p (d, repeat TMinus (S d) ++ rest) → too_deep (parse_or_expr pe ps p).
Proof.
  intros Hs. do 3 apply binary_too_deep. unfold parse_not_expr. cbn [prefixed]. rewrite (peek_stands _ _ Hs). cbn [snd repeat app front not_op].
  apply too_deep_bind. do 3 apply binary_too_deep. unfold parse_unary_expr. eapply signs_too_deep; [exact Hs|].
  rewrite (left_stands _ _ Hs). cbn [snd]. rewrite length_app, repeat_length. lia.
Qed.

(** How deep expressions nest. Signs (as NOT and parentheses) nest at most 256 deep: one more is the
    error "expression nesting depth exceeded". Lists are not counted: nested to any depth they are
    accepted, at any depth already reached, so the guard does not bound the recursion of the
    parser (nor of what walks the tree afterwards). *)
Theorem nesting_limit n p :
  (stands p (MAX_EXPR_DEPTH, repeat TMinus n ++ [TIntegerLit 1; TEof]) →
    if (n <=? MAX_EXPR_DEPTH)%nat then ∃ p', parse_expression p = Parsed (negations n) p' else too_deep (parse_expression p)) ∧
  (∀ d, stands p (d, repeat TLBracket n ++ TIntegerLit 1 :: repeat TRBracket n ++ [TEof]) →
    ∃ p', parse_expression p = Parsed (lists n) p').
Proof.
  split.
  - intros Hs. destruct (Nat.leb_spec n MAX_EXPR_DEPTH) as [Hn|Hn].
    + destruct (negations_level n MAX_EXPR_DEPTH) as [Hp Hw]. rewrite (negations_writable MAX_EXPR_DEPTH n Hn) in Hw.
      destruct (parse_expression_reads MAX_EXPR_DEPTH (negations n) [TEof] Hw eq_refl p) as (p' & Hp' & _); [|by exists p'].
      by rewrite Hp, negations_printed, <- app_assoc.
    + unfold parse_expression. cbn [parse_expression_n]. eapply (expression_too_deep _ _ MAX_EXPR_DEPTH (repeat TMinus (n - S MAX_EXPR_DEPTH) ++ [TIntegerLit 1; TEof])).
      rewrite app_assoc, <- repeat_app. by replace (S MAX_EXPR_DEPTH + (n - S MAX_EXPR_DEPTH))%nat with n by lia.
  - intros d Hs. destruct (parse_expression_reads d (lists n) [TEof] (lists_writable d n 0 ltac:(lia)) eq_refl p) as (p' & Hp & _).
    + by rewrite lists_printed, <- app_assoc.
    + by exists p'.
Qed.
End nesting.

(** ** Syntax of the documentation *)
Section documented.
#[local] Existing Instance dev_unicode.
#[local] Existing Instance plain_debug.
(** The kinds of the statements a text parses to, if it does *)
Definition kinds (s : string) : option (list string) :=
  match parse (chars_of s) with
  | Parsed prog _ =>
      Some ((λ st, match st with
                   | SMatch _ => "match" | SReturn _ => "return"
                   | SCompositeQuery (mkCompositeQuery (mkSetOperation _ _ (OperandQuery [SReturn _]) (OperandQuery [SMatch _])) _ _) =>
                       "return UNION match"
                   | _ => "other"
                   end%string) <$> statements prog)
  | _ => None
  end.
(** Variable-length edges and shortest paths are documented and do not parse (quantifiers in braces
    do). The right operand of a set operator is one statement, not a query: what is written as a union
    of two queries parses to three statements, the second of which unites the RETURN of the
    first query with the MATCH of the second. *)
Theorem documented_syntax :
  kinds "MATCH (a)-[r:KNOWS*1..5]->(b) RETURN a" = None ∧ kinds "MATCH (a)-[r:KNOWS]->{1,5}(b) RETURN a" = Some ["match"; "return"]%string ∧
  kinds "MATCH SHORTEST (a)-[r]->(b) RETURN a" = None ∧ kinds "MATCH ALL SHORTEST (a)-[r]->(b) RETURN a" = None ∧
  kinds "MATCH (a) RETURN a UNION MATCH (b) RETURN b" = Some ["match"; "return UNION match"; "return"]%string.
Proof. split_and!; vm_compute; reflexivity. Qed.
(** The nesting of two minus signs, and of three lists *)
Lemma nesting_limit_witness : ∃ p p',
  parse_expression (mkParser ((λ t, mkSpanned t (mkSpan 0 0 0)) <$> [TMinus; TMinus; TIntegerLit 1; TEof]) 0 0) = Parsed (negations 2) p ∧
  parse_expression (mkParser ((λ t, mkSpanned t (mkSpan 0 0 0)) <$>
    [TLBracket; TLBracket; TLBracket; TIntegerLit 1; TRBracket; TRBracket; TRBracket; TEof]) 0 0) = Parsed (lists 3) p'.
Proof.
  destruct (proj1 (nesting_limit 2 (mkParser ((λ t, mkSpanned t (mkSpan 0 0 0)) <$> [TMinus; TMinus; TIntegerLit 1; TEof]) 0 0))) as [p Hp];
    [split; reflexivity|].
  destruct (proj2 (nesting_limit 3 (mkParser ((λ t, mkSpanned t (mkSpan 0 0 0)) <$>
    [TLBracket; TLBracket; TLBracket; TIntegerLit 1; TRBracket; TRBracket; TRBracket; TEof]) 0 0)) MAX_EXPR_DEPTH) as [p' Hp'];
    [split; reflexivity|].
  exists p, p'. exact (conj Hp Hp').
Defined.
End documented.

