(* ===== verification/Export.v ===== *)
(** * The text of an export and the programs it reads as

    [export_graph] (synaptica-storage: engine.rs) prints a graph as statements of the query language. This
    file gives the statements meant by each line, and proves that the lexer and the parser
    read the line as them, when names are words of the language and strings hold no quote. *)
From S2P Require Import Prelude Types Rocks Engine Lexer F64 Text Records Ast Expression Debug Executor Execution Service Parser Printing RoundTrip.
From Stdlib Require Import Ascii.

(** ** The parser as the service calls it: [parser::parse(&query)], the error printed *)
Definition gql_parser `{Unicode, DebugFormat} : QueryParser := {|
  parse_query query :=
    match Parser.parse (chars query) with
    | Parsed program _ => Ok program
    | Failed e => Err (ParseError_fmt e)
    | Starved => Err EmptyString
    end
|}.

(** ** What can be exported *)
Definition is_charb (c : Z) : bool := (0 <=? c) && (c <? 0x110000) && negb ((0xD800 <=? c) && (c <? 0xE000)).
(** A string that stands for itself between quotes, on one line *)
Definition plain (s : string) : bool :=
  utf8_string s && forallb (λ c, is_charb c && negb (c =? chr "'"%char) && negb (c =? 10)) (chars s).
(** A name that the lexer reads as one identifier *)
Definition word (s : string) : bool :=
  forallb ident_char (chars_of s) && match chars_of s with c :: _ => negb (is_ascii_digit c) | [] => false end &&
  match keyword_token (chars_of s) with None => true | Some _ => false end.
(** In the order of a BTreeMap, or BTreeSet *)
Fixpoint ascending (keys : list string) : bool :=
  match keys with [] => true | k :: keys' => forallb (str_ltb k) keys' && ascending keys' end.
Fixpoint exportable (v : Value) : bool :=
  match v with
  | Null | Bool _ => true
  | Integer i => Z.abs i <? 2 ^ 63
  | Str s => plain s
  | ListV l => forallb exportable l
  | MapV m => forallb (λ kw, word kw.1 && exportable kw.2) m && ascending m.*1
  | _ => false
  end.
Definition exportable_properties (p : Properties) : bool :=
  forallb (λ kv, word kv.1 && exportable kv.2) p.

(** ** What is meant *)
Fixpoint literal (v : Value) : Expression :=
  match v with
  | Bool b => ELiteral (LBool b)
  | Integer i => if i <? 0 then EUnaryOp OpNeg (ELiteral (LInteger (Z.abs i))) else ELiteral (LInteger i)
  | Str s => ELiteral (LString s)
  | ListV l => EList (map literal l)
  | MapV m => EMap (map (λ kw, (kw.1, literal kw.2)) m)
  | _ => ELiteral LNull
  end.
Definition literals (p : Properties) : list (string * Expression) := (λ kv, (kv.1, literal kv.2)) <$> p.
(** [INSERT (:L1:L2 {k: v, _id: 'id'})] and
    [MATCH (a {_id: 's'}), (b {_id: 't'}) INSERT (a)-[:L {k: v}]->(b)] *)
Definition node_statement (uuid_fmt : Uuid → string) (node : Node) : GqlProgram :=
  insert_node_program None (node_labels node)
    (literals (btree_insert "_id" (Str (uuid_fmt (node_id node))) (node_properties node))).
Definition path (elements : list PatternElement) : PathPattern := mkPathPattern None None None elements None None.
Definition with_id (v id : string) : PatternElement := PNode (mkNodePattern (Some v) [] [("_id"%string, ELiteral (LString id))]).
Definition bound (v : string) : PatternElement := PNode (mkNodePattern (Some v) [] []).
Definition edge_statement (uuid_fmt : Uuid → string) (edge : Edge) : GqlProgram :=
  mkProgram [
    SMatch (mkMatch None false
      (mkGraphPattern [path [with_id "a" (uuid_fmt (edge_source edge))]; path [with_id "b" (uuid_fmt (edge_target edge))]] None)
      None None None);
    SInsert (mkInsert [path [bound "a"; PEdge (mkEdgePattern None Outgoing [edge_label edge] (literals (edge_properties edge)) None); bound "b"]])].
Definition exportable_node (uuid_fmt : Uuid → string) (node : Node) : bool :=
  plain (uuid_fmt (node_id node)) && forallb word (node_labels node) && exportable_properties (node_properties node).
Definition exportable_edge (uuid_fmt : Uuid → string) (edge : Edge) : bool :=
  plain (uuid_fmt (edge_source edge)) && plain (uuid_fmt (edge_target edge)) && word (edge_label edge) &&
  exportable_properties (edge_properties edge).

(** Induction on exportable values *)
Section exportable_induction.
Variable P : Value → Prop.
Hypothesis HNull : P Null.
Hypothesis HBool : ∀ b, P (Bool b).
Hypothesis HInteger : ∀ i, Z.abs i < 2 ^ 63 → P (Integer i).
Hypothesis HStr : ∀ s, plain s = true → P (Str s).
Hypothesis HList : ∀ l, Forall P l → P (ListV l).
Hypothesis HMap : ∀ m, Forall (λ kw, word kw.1 = true ∧ P kw.2) m → ascending m.*1 = true → P (MapV m).
Lemma exportable_ind v : exportable v = true → P v.
Proof.
  revert v. fix IH 1. intros v Hv. destruct v; try discriminate Hv.
  - exact HNull.
  - apply HBool.
  - apply HInteger. by apply Z.ltb_lt.
  - by apply HStr.
  - apply HList. cbn [exportable] in Hv. revert l Hv. fix all 1. intros [|v l] Hv; [constructor|].
    apply andb_true_iff in Hv as [Hv Hl]. constructor; [apply (IH v Hv)|apply (all l Hl)].
  - cbn [exportable] in Hv. apply andb_true_iff in Hv as [Hv Hs]. apply HMap; [|exact Hs].
    clear Hs. revert m Hv. fix all 1. intros [|[k v] m] Hv; [constructor|].
    apply andb_true_iff in Hv as [[Hk Hv]%andb_true_iff Hl]. constructor; [exact (conj Hk (IH v Hv))|apply (all m Hl)].
Qed.
End exportable_induction.

(** ** Texts and the tokens they spell *)
Definition line_char (c : Z) : Prop := is_char c ∧ c ≠ 10.
Definition meaningful (t : Token) : bool := match t with TComment _ => false | _ => true end.
(** [s] is the text of lexemes with the tokens [ts], whenever what follows it satisfies [F]. *)
Definition spells (F : text → Prop) (s : string) (ts : list Token) : Prop :=
  ∃ ls, s = string_of_chars (program_text ls) ∧ Forall line_char (program_text ls) ∧ ((λ x, lexeme_token x.1) <$> ls) = ts ∧
        forallb meaningful ts = true ∧ ∀ rest, program_ok rest → F (program_text rest) → program_ok (ls ++ rest).
(** Characters that never continue a token *)
Definition delimiter (c : Z) : bool := existsb (λ a, c =? chr a) [","; "]"; "}"; ")"; ":"; " "]%char.
Definition delimited (r : text) : Prop := Lexer.stops (λ c, negb (delimiter c)) r.
Definition anything (r : text) : Prop := True.

Section spelling.
Implicit Types (s : string) (ts : list Token) (l : lexeme) (ws r : text) (F : text → Prop).
Lemma str_bytes_app s1 s2 : str_bytes (s1 +:+ s2) = str_bytes s1 ++ str_bytes s2.
Proof. unfold str_bytes, String.list_byte_of_string. induction s1 as [|a s1 IH]; [done|]. exact (f_equal (cons _) IH). Qed.
Lemma string_of_chars_app a b : string_of_chars (a ++ b) = string_of_chars a +:+ string_of_chars b.
Proof. apply str_bytes_inj. unfold string_of_chars. by rewrite str_bytes_app, !str_bytes_str_of_bytes, bind_app. Qed.
Lemma program_text_app ls1 ls2 : program_text (ls1 ++ ls2) = program_text ls1 ++ program_text ls2.
Proof. apply bind_app. Qed.
Lemma delimiter_cases c : delimiter c = true → c = 44 ∨ c = 93 ∨ c = 125 ∨ c = 41 ∨ c = 58 ∨ c = 32.
Proof.
  unfold delimiter. cbn [existsb]. rewrite !orb_true_iff, !Z.eqb_eq. intros [->|[->|[->|[->|[->|[->|Hf]]]]]]; [..|done]; tauto.
Qed.
Definition is_line_comment (l : lexeme) : bool := match l with LxLineComment _ => true | _ => false end.
Lemma delimited_stops l r : is_line_comment l = false → delimited r → Lexer.stops (continues l) r.
Proof.
  intros Hl. destruct r as [|c r]; [done|]. cbn. intros Hc%negb_false_iff%delimiter_cases.
  destruct Hc as [->|[->|[->|[->|[->| ->]]]]]; destruct l; try done; cbn; rewrite ?andb_false_r; done.
Qed.
Lemma spells_nil F : spells F EmptyString [].
Proof. exists []. split_and!; [done|constructor|done|done|]. auto. Qed.
Lemma spells_lexeme F l ws : lexeme_ok l → meaningful (lexeme_token l) = true → blank ws → Forall line_char (lexeme_text l ++ ws) →
  (∀ r, F r → Lexer.stops (continues l) (ws ++ r)) → spells F (string_of_chars (lexeme_text l ++ ws)) [lexeme_token l].
Proof.
  intros Hl Hm Hws Hc HF. assert (program_text [(l, ws)] = lexeme_text l ++ ws) as Ht by apply app_nil_r.
  exists [(l, ws)]. rewrite Ht. split_and!; [done..|cbn; by rewrite Hm|]. intros rest Hr Hf. cbn. split_and!; auto.
Qed.
Lemma spells_app F1 F2 s1 s2 ts1 ts2 : spells F1 s1 ts1 → spells F2 s2 ts2 → (∀ r, F2 r → F1 (chars s2 ++ r)) →
  spells F2 (s1 +:+ s2) (ts1 ++ ts2).
Proof.
  intros (ls1 & -> & Hc1 & <- & Hm1 & Hok1) (ls2 & -> & Hc2 & <- & Hm2 & Hok2) HF. exists (ls1 ++ ls2).
  rewrite program_text_app, string_of_chars_app, fmap_app, forallb_app, Hm1, Hm2. split_and!; [done|by apply Forall_app|done|done|].
  intros rest Hr Hf. rewrite <- app_assoc. apply Hok1; [by apply Hok2|]. rewrite program_text_app.
  rewrite chars_string_of_chars in HF by (eapply Forall_impl; [exact Hc2|by intros c [Hc _]]). by apply HF.
Qed.
Lemma spells_weaken F F' s ts : (∀ r, F' r → F r) → spells F s ts → spells F' s ts.
Proof. intros HF (ls & ? & ? & ? & ? & Hok). exists ls. split_and!; auto. Qed.

(** Characters of the lexemes *)
Lemma ascii_line_char c : 0 ≤ c < 128 → c ≠ 10 → line_char c.
Proof. intros Hc Hn. repeat split; try lia. Qed.
Lemma chars_of_string s : Forall (λ c, 0 ≤ c < 128 ∧ c ≠ 10) (chars_of s) →
  string_of_chars (chars_of s) = s ∧ Forall line_char (chars_of s) ∧ chars s = chars_of s.
Proof.
  intros Hs. assert (chars s = chars_of s) as Hc by (apply chars_chars_of; eapply Forall_impl; [exact Hs|intros c ?; cbn in *; lia]).
  split_and!; [|eapply Forall_impl; [exact Hs|intros c [??]; by apply ascii_line_char]|done].
  clear Hc. apply str_bytes_inj. unfold string_of_chars. rewrite str_bytes_str_of_bytes. unfold str_bytes, String.list_byte_of_string.
  unfold chars_of in *. induction s as [|a s IH]; [done|]. cbn [String.list_ascii_of_string List.map fmap list_fmap] in *.
  apply Forall_cons in Hs as [[Ha _] Hs]. cbn [mbind list_bind]. rewrite (IH Hs). unfold utf8_encode.
  rewrite (proj2 (Z.ltb_lt (chr a) 0x80)) by lia. cbn. f_equal. rewrite <- bval_byte_of_ascii. apply byte_of_Z_bval.
Qed.
Lemma word_ok s : word s = true → lexeme_ok (LxIdent (chars_of s)) ∧ Forall (λ c, 0 ≤ c < 128 ∧ c ≠ 10) (chars_of s).
Proof.
  unfold word. intros [[Hc Hhd]%andb_true_iff Hk]%andb_true_iff. split.
  - split; [split|].
    + apply Forall_forall. intros c Hin. by apply (proj1 (forallb_forall _ _) Hc), list_elem_of_In.
    + destruct (chars_of s); [done|]. by apply negb_true_iff.
    + by destruct (keyword_token _).
  - apply Forall_forall. intros c Hin. apply list_elem_of_In, (proj1 (forallb_forall _ _) Hc) in Hin. clear -Hin. char_cases.
Qed.
Lemma spells_word s : word s = true → spells delimited s [ident s].
Proof.
  intros [Hok Hc]%word_ok. destruct (chars_of_string s Hc) as (Hs & Hl & Hch). unfold ident. rewrite Hch.
  rewrite <- Hs at 1. rewrite <- (app_nil_r (chars_of s)) at 1. apply (spells_lexeme _ (LxIdent (chars_of s)) []);
    [done|done|constructor|by rewrite app_nil_r|]. intros r. by apply delimited_stops.
Qed.
Lemma spells_word_spaced F s : word s = true → spells F (s +:+ " ") [ident s].
Proof.
  intros [Hok Hc]%word_ok. destruct (chars_of_string s Hc) as (Hs & Hl & Hch). unfold ident. rewrite Hch.
  rewrite <- Hs at 1. change " "%string with (string_of_chars [32]). rewrite <- string_of_chars_app.
  apply (spells_lexeme _ (LxIdent (chars_of s)) [32]); [done|done|by repeat constructor| |done].
  apply Forall_app. split; [done|]. constructor; [by apply ascii_line_char|constructor].
Qed.
Lemma keyword_meaningful w t : keyword_token w = Some t → meaningful t = true.
Proof.
  intros Hk%find_keyword_in. assert (forallb meaningful keyword_table.*2 = true) as Hall by (vm_compute; reflexivity).
  by apply (proj1 (forallb_forall _ _) Hall), list_elem_of_In.
Qed.
Lemma spells_keyword F k t ws : keyword_token (chars_of k) = Some t → ws = [] ∧ F = delimited ∨ ws = [32] →
  spells F (k +:+ string_of_chars ws) [t].
Proof.
  intros Hk Hws. pose proof (keyword_ident _ _ Hk) as [Hid _].
  assert (Forall (λ c, 0 ≤ c < 128 ∧ c ≠ 10) (chars_of k)) as Hc by (eapply Forall_impl; [exact Hid|intros c Hin; cbn in *; char_cases]).
  destruct (chars_of_string k Hc) as (Hs & Hl & _). rewrite <- Hs at 1. rewrite <- string_of_chars_app.
  apply (spells_lexeme _ (LxKeyword k t) ws); [done|by apply keyword_meaningful in Hk| | |].
  - destruct Hws as [[-> _]| ->]; by repeat constructor.
  - apply Forall_app. split; [done|]. destruct Hws as [[-> _]| ->]; [constructor|]. constructor; [|constructor]. apply ascii_line_char; lia.
  - intros r Hr. destruct Hws as [[-> ->]| ->]; [by apply delimited_stops|done].
Qed.
(** An operator, and a space after it or what does not continue it *)
Lemma spells_operator F o t ws : (o, t) ∈ operator_table → ws = [] ∧ (∀ r, F r → Lexer.stops (continues (LxOperator o t)) r) ∨ ws = [32] →
  spells F (o +:+ string_of_chars ws) [t].
Proof.
  intros Ho Hws.
  assert (forallb (λ x : string * Token, forallb (λ c, (0 <=? c) && (c <? 128) && negb (c =? 10)) (chars_of x.1)) operator_table = true) as Hall
    by (vm_compute; reflexivity).
  assert (Forall (λ c, 0 ≤ c < 128 ∧ c ≠ 10) (chars_of o)) as Hc.
  { apply Forall_forall. intros c Hin. apply list_elem_of_In in Ho. apply (proj1 (forallb_forall _ _) Hall) in Ho.
    apply list_elem_of_In, (proj1 (forallb_forall _ _) Ho) in Hin. lia. }
  destruct (chars_of_string o Hc) as (Hs & Hl & _). rewrite <- Hs at 1. rewrite <- string_of_chars_app.
  assert (forallb (meaningful ∘ snd) operator_table = true) as Hm by (vm_compute; reflexivity).
  apply (spells_lexeme _ (LxOperator o t) ws); [done|by apply (proj1 (forallb_forall _ _) Hm (o, t)), list_elem_of_In| | |].
  - destruct Hws as [[-> _]| ->]; by repeat constructor.
  - apply Forall_app. split; [done|]. destruct Hws as [[-> _]| ->]; [constructor|]. constructor; [|constructor]. apply ascii_line_char; lia.
  - intros r Hr. destruct Hws as [[-> Hw]| ->]; [by apply Hw|]. by apply delimited_stops.
Qed.
Lemma spells_string s : plain s = true → spells delimited ("'" +:+ s +:+ "'") [TStringLit (chars s)].
Proof.
  intros [Hu Hc]%andb_true_iff. apply bool_decide_eq_true in Hu.
  assert (Forall (λ c, line_char c ∧ c ≠ 39) (chars s)) as Hl.
  { apply Forall_forall. intros c Hin. apply list_elem_of_In, (proj1 (forallb_forall _ _) Hc) in Hin. unfold is_charb in Hin.
    change (chr "'"%char) with 39 in Hin. unfold line_char, is_char. lia. }
  assert (lexeme_text (LxString (chars s)) = 39 :: chars s ++ [39]) as Ht.
  { cbn [lexeme_text]. change (chr "'") with 39. do 2 f_equal. clear -Hl.
    induction Hl as [|c t [_ Hn] _ IH]; [done|].
    change (escape_quotes (c :: t)) with ((if c =? 39 then [c; c] else [c]) ++ escape_quotes t).
    by rewrite (proj2 (Z.eqb_neq c 39) Hn), IH. }
  replace ("'" +:+ s +:+ "'") with (string_of_chars (lexeme_text (LxString (chars s)) ++ [])).
  - apply (spells_lexeme _ (LxString (chars s)) []); [done|done|constructor| |intros r; by apply delimited_stops].
    rewrite app_nil_r, Ht. apply Forall_cons. split; [by apply ascii_line_char|]. apply Forall_app. split.
    + eapply Forall_impl; [exact Hl|]. by intros c [? _].
    + constructor; [by apply ascii_line_char|constructor].
  - rewrite app_nil_r, Ht. change (39 :: chars s ++ [39]) with ([39] ++ chars s ++ [39]).
    rewrite !string_of_chars_app, Hu. done.
Qed.
End spelling.

(** ** Values *)
Section values.
Lemma chars_cons a s : chr a < 128 → chars (String a s) = chr a :: chars s.
Proof.
  intros Ha. unfold chars. change (str_bytes (String a s)) with (byte_of_ascii a :: str_bytes s). cbn [utf8_chars_of].
  rewrite bval_byte_of_ascii. by rewrite (proj2 (Z.ltb_lt _ 0x80)).
Qed.
Lemma delimited_cons a s r : delimiter (chr a) = true → delimited (chars (String a s) ++ r).
Proof.
  intros Ha. rewrite chars_cons; [by apply negb_false_iff|]. apply delimiter_cases in Ha. lia.
Qed.
(** One more token before a text that starts with a delimiter, or after a token that nothing continues *)
Lemma spells_then F s a s' ts ts' : spells delimited s ts → spells F (String a s') ts' → delimiter (chr a) = true →
  spells F (s +:+ String a s') (ts ++ ts').
Proof. intros Hs Hs' Ha. eapply spells_app; [exact Hs|exact Hs'|]. intros r _. by apply delimited_cons. Qed.
Lemma spells_after F s s' ts ts' : spells anything s ts → spells F s' ts' → spells F (s +:+ s') (ts ++ ts').
Proof. intros Hs Hs'. by eapply spells_app. Qed.
Definition closed_operator (o : string) : bool := forallb (λ x, negb (bool_decide (x.1 = o))) operator_continuations.
Lemma spells_closed F o t : bool_decide ((o, t) ∈ operator_table) = true → closed_operator o = true → spells F o [t].
Proof.
  intros Ho%bool_decide_eq_true Hc. replace o with (o +:+ string_of_chars []) at 1.
  - apply spells_operator; [done|]. left. split; [done|]. intros r _. destruct r as [|c r]; [done|].
    change (continues (LxOperator o t) c = false). apply not_true_iff_false. intros Hx. cbn [continues] in Hx.
    apply existsb_exists in Hx as (x & Hx & [Hxo%bool_decide_eq_true _]%andb_true_iff).
    apply (proj1 (forallb_forall _ _) Hc), negb_true_iff, bool_decide_eq_false in Hx. done.
  - change (string_of_chars []) with EmptyString. clear. induction o as [|a o IH]; [done|]. exact (f_equal (String a) IH).
Qed.
Lemma spells_spaced F o t s : bool_decide ((o, t) ∈ operator_table) = true → s = o +:+ " " → spells F s [t].
Proof. intros Ho%bool_decide_eq_true ->. apply (spells_operator F o t [32]); [done|by right]. Qed.
Lemma spells_commas {A} (f : A → string) (pr : A → list Token) l : Forall (λ a, spells delimited (f a) (pr a)) l →
  spells delimited (comma_join (f <$> l)) (commas pr l).
Proof.
  induction 1 as [|a l Ha Hl IH]; [apply spells_nil|]. destruct l as [|b l].
  - cbn. rewrite app_nil_r. exact Ha.
  - change (comma_join (f <$> a :: b :: l)) with (f a +:+ ", " +:+ comma_join (f <$> b :: l)).
    change (commas pr (a :: b :: l)) with (pr a ++ [TComma] ++ commas pr (b :: l)).
    apply (spells_then _ _ ","); [exact Ha| |done].
    apply (spells_after delimited ", "); [|exact IH]. by apply (spells_spaced _ ",").
Qed.
Lemma spells_integer i : Z.abs i < 2 ^ 63 → spells delimited (pretty i) (print 0 (literal (Integer i))).
Proof.
  assert (∀ z, 0 ≤ z < 2 ^ 63 → spells delimited (pretty z) [TIntegerLit z] ∧ ∃ c s, pretty z = String c s ∧ is_ascii_digit (chr c) = true) as Hpos.
  { intros z Hz. destruct (pretty_text z) as (ds & Hds & Hd & Hne & Hv). rewrite (proj2 (Z.ltb_ge z 0)) in Hds by lia. cbn [app] in Hds.
    assert (Forall (λ c, is_ascii_digit c = true) ds) as Hall
      by (apply Forall_forall; intros c Hc; by apply (proj1 (forallb_forall _ _) Hd), list_elem_of_In).
    assert (Forall (λ c, 0 ≤ c < 128 ∧ c ≠ 10) (chars_of (pretty z))) as Hc
      by (rewrite Hds; eapply Forall_impl; [exact Hall|intros c Hin; cbn in *; clear -Hin; char_cases]).
    destruct (chars_of_string _ Hc) as (Hs & Hl & _). split.
    - rewrite <- Hs. rewrite Hds, <- (app_nil_r ds). rewrite Z.abs_eq in Hv by lia. rewrite <- Hv.
      apply (spells_lexeme _ (LxInt ds) []); [|done|constructor|rewrite app_nil_r; by rewrite Hds in Hl|intros r; by apply delimited_stops].
      cbn [lexeme_ok]. rewrite Hv. split_and!; [done..|apply Hz].
    - destruct (pretty z) as [|c s]; [by destruct ds|]. exists c, s. split; [done|]. rewrite <- Hds in Hall. by apply Forall_cons in Hall as [? _]. }
  intros Hi. cbn [literal]. destruct (Z.ltb_spec i 0) as [Hn|Hn].
  - destruct (Hpos (Z.abs i)) as [Hd (c & s & Hc & Hdig)]; [lia|].
    replace (pretty i) with ("-" +:+ pretty (Z.abs i)) by by destruct i.
    change (print 0 (EUnaryOp OpNeg (ELiteral (LInteger (Z.abs i))))) with ([TMinus] ++ [TIntegerLit (Z.abs i)]).
    eapply (spells_app (Lexer.stops (continues (LxOperator "-" TMinus)))); [|exact Hd|].
    + apply (spells_operator _ "-" TMinus []); [by apply (bool_decide_unpack _)|]. by left.
    + intros r _. rewrite Hc. assert (48 ≤ chr c ≤ 57) by (clear -Hdig; char_cases). rewrite chars_cons by lia.
      cbn [app Lexer.stops continues operator_continuations existsb fst snd].
      change (chr "-") with 45. change (chr ">") with 62. rewrite !(proj2 (Z.eqb_neq (chr c) _)) by (cbn; lia). by rewrite !andb_false_r.
  - by apply Hpos; lia.
Qed.
Lemma append_nil s : s +:+ EmptyString = s.
Proof. induction s as [|a s IH]; [done|]. exact (f_equal (String a) IH). Qed.
Lemma spells_word_keyword k t : keyword_token (chars_of k) = Some t → spells delimited k [t].
Proof. intros Hk. rewrite <- (append_nil k). apply (spells_keyword delimited k t []); [done|by left]. Qed.
Lemma commas_fmap {A B} (g : A → B) (pr : B → list Token) l : commas pr (g <$> l) = commas (λ a, pr (g a)) l.
Proof.
  destruct l as [|a l]; [done|]. cbn [fmap list_fmap commas]. f_equal. induction l as [|b l IH]; [done|]. cbn [fmap list_fmap flat_map]. by rewrite IH.
Qed.
(** A list between brackets or braces *)
Lemma spells_bracketed F (o c : string) a topen tclose s ts : bool_decide ((o, topen) ∈ operator_table) = true → closed_operator o = true →
  bool_decide ((String a EmptyString, tclose) ∈ operator_table) = true → closed_operator (String a EmptyString) = true →
  delimiter (chr a) = true → c = String a EmptyString → spells delimited s ts →
  spells F (o +:+ s +:+ c) (topen :: ts ++ [tclose]).
Proof.
  intros Ho Hco Hc Hcc Hd -> Hs. change (topen :: ts ++ [tclose]) with ([topen] ++ ts ++ [tclose]).
  apply spells_after; [by apply spells_closed|]. apply spells_then; [done|by apply spells_closed|done].
Qed.
(** [k: v] *)
Lemma spells_pair k t s ts : spells delimited k [t] → spells delimited s ts →
  spells delimited (k +:+ ": " +:+ s) (t :: TColon :: ts).
Proof.
  intros Hk Hs. change (t :: TColon :: ts) with ([t] ++ [TColon] ++ ts). apply (spells_then _ _ ":"); [exact Hk| |done].
  apply (spells_after delimited ": "); [|exact Hs]. by apply (spells_spaced _ ":").
Qed.
Context `{Platform}.
Lemma fmt_map m : fmt_value (MapV m) = "{" +:+ comma_join ((λ kw, kw.1 +:+ ": " +:+ fmt_value kw.2) <$> m) +:+ "}".
Proof.
  unfold fmt_value. cbn [Value_fmt]. do 2 f_equal. f_equal. induction m as [|[k w] m IH]; [done|]. cbn [fmap list_fmap fst snd]. by rewrite <- IH.
Qed.
Lemma spells_value v : exportable v = true → spells delimited (fmt_value v) (print 0 (literal v)).
Proof.
  revert v. apply exportable_ind; [|intros b|intros i Hi|intros s Hs|intros l Hl|intros m Hm _].
  - by apply (spells_word_keyword "NULL").
  - destruct b; [by apply (spells_word_keyword "true")|by apply (spells_word_keyword "false")].
  - by apply spells_integer.
  - by apply spells_string.
  - change (fmt_value (ListV l)) with ("[" +:+ comma_join (fmt_value <$> l) +:+ "]").
    change (print 0 (literal (ListV l))) with (TLBracket :: commas (print 0) (literal <$> l) ++ [TRBracket]). rewrite commas_fmap.
    apply (spells_bracketed _ _ _ "]"); try done. by apply spells_commas.
  - rewrite fmt_map. change (print 0 (literal (MapV m))) with
      (TLBrace :: commas (λ kv : string * Expression, ident kv.1 :: TColon :: print 0 kv.2) ((λ kw, (kw.1, literal kw.2)) <$> m) ++ [TRBrace]).
    rewrite commas_fmap. apply (spells_bracketed _ _ _ "}"); try done. apply spells_commas. eapply Forall_impl; [exact Hm|].
    intros [k w] [Hk Hw]. cbn [fst snd] in *. apply spells_pair; [by apply spells_word|done].
Qed.

(** ** Lines *)
Lemma append_assoc s1 s2 s3 : s1 +:+ s2 +:+ s3 = (s1 +:+ s2) +:+ s3.
Proof. induction s1 as [|a s1 IH]; [done|]. exact (f_equal (String a) IH). Qed.
Lemma name_word k : word k = true → name_token k = ident k.
Proof.
  intros Hk%word_ok. unfold name_token. destruct (List.find _ _) as [t|] eqn:E; [|done].
  apply find_some in E as [Hin Ht%bool_decide_eq_true]. destruct Hk as [[_ Hk] _]. exfalso.
  assert (forallb (λ t, match keyword_name t with Some s => match keyword_token (chars_of s) with Some _ => true | None => false end | None => true end)
    name_keywords = true) as Hall by (vm_compute; reflexivity).
  apply (proj1 (forallb_forall _ _) Hall) in Hin. rewrite Ht, Hk in Hin. done.
Qed.
Lemma spells_properties F p : exportable_properties p = true → p ≠ [] →
  spells F (format_properties_for_export f64_fmt date_fmt time_fmt datetime_fmt p) (print_properties (print 0) (literals p)).
Proof.
  intros Hp Hne.
  assert (format_properties_for_export f64_fmt date_fmt time_fmt datetime_fmt p =
    "{" +:+ comma_join ((λ kv, kv.1 +:+ ": " +:+ fmt_value kv.2) <$> p) +:+ "}") as -> by by destruct p.
  assert (print_properties (print 0) (literals p) = TLBrace :: commas (print_entry (print 0)) (literals p) ++ [TRBrace]) as -> by by destruct p.
  apply (spells_bracketed _ _ _ "}"); try done. unfold literals. rewrite commas_fmap. apply spells_commas.
  apply Forall_forall. intros [k v] Hin. apply list_elem_of_In, (proj1 (forallb_forall _ _) Hp), andb_true_iff in Hin as [Hk Hv].
  cbn [fst snd] in *. unfold print_entry. cbn [fst snd]. rewrite name_word by done. apply spells_pair; [by apply spells_word|by apply spells_value].
Qed.
Definition label_text (labels : list string) : string := String.concat EmptyString ((λ l, ":" +:+ l) <$> labels).
Lemma label_text_cons l labels : label_text (l :: labels) = ":" +:+ l +:+ label_text labels.
Proof. unfold label_text. cbn [fmap list_fmap]. destruct labels; [cbn; by rewrite append_nil|]. cbn. by rewrite <- append_assoc. Qed.
Lemma spells_labels F labels : forallb word labels = true → labels ≠ [] → spells F (label_text labels +:+ " ") (colon_labels labels).
Proof.
  intros Hw Hne. induction labels as [|l labels IH]; [done|]. rewrite label_text_cons. cbn in Hw. apply andb_true_iff in Hw as [Hl Hw].
  change (colon_labels (l :: labels)) with ([TColon] ++ [ident l] ++ colon_labels labels). rewrite <- append_assoc.
  apply spells_after; [by apply spells_closed|]. destruct labels as [|l' labels].
  - rewrite append_nil. by apply spells_word_spaced.
  - rewrite <- append_assoc. rewrite label_text_cons in *. apply (spells_then _ _ ":"); [by apply spells_word| |done]. by apply IH.
Qed.
End values.

Section lines.
Context `{Platform}.
Variable uuid_fmt : Uuid → string.
Abbreviation export_node := (export_node uuid_fmt f64_fmt date_fmt time_fmt datetime_fmt).
Abbreviation export_edge := (export_edge uuid_fmt f64_fmt date_fmt time_fmt datetime_fmt).
Lemma exportable_insert k v p : exportable_properties p = true → word k = true → exportable v = true →
  exportable_properties (btree_insert k v p) = true.
Proof.
  intros Hp Hk Hv. induction p as [|[k' v'] p IH]; cbn in *; [by rewrite Hk, Hv|].
  apply andb_true_iff in Hp as [Hh Hp]. case_decide; [cbn; by rewrite Hk, Hv|]. case_match; cbn; rewrite Hh; [by rewrite Hk, Hv, Hp|]. by apply IH.
Qed.
Lemma btree_insert_nonempty {A} k (v : A) p : btree_insert k v p ≠ [].
Proof. destruct p as [|[k' v'] p]; [done|]. cbn. repeat case_match; done. Qed.
Lemma node_spells node : exportable_node uuid_fmt node = true →
  spells delimited (export_node node) (print_program (node_statement uuid_fmt node) [false]).
Proof.
  intros [[Hid Hl]%andb_true_iff Hp]%andb_true_iff.
  set (props := btree_insert "_id" (Str (uuid_fmt (node_id node))) (node_properties node)).
  assert (exportable_properties props = true) as Hprops by by apply exportable_insert.
  assert (props ≠ []) as Hne by apply btree_insert_nonempty.
  assert (export_node node = "INSERT " +:+ "(" +:+ (label_text (node_labels node) +:+ " ") +:+
    format_properties_for_export f64_fmt date_fmt time_fmt datetime_fmt props +:+ ")") as -> by by rewrite <- !append_assoc.
  assert (print_program (node_statement uuid_fmt node) [false] = [TInsert] ++
    (TLParen :: colon_labels (node_labels node)) ++ print_properties (print 0) (literals props) ++ [TRParen]) as ->.
  { unfold print_program, node_statement, insert_node_program. cbn [statements combine flat_map fst snd flag app].
    rewrite !app_nil_r. change (print_statement _) with
      (TInsert :: (((TLParen :: [] ++ colon_labels (node_labels node) ++ print_properties (print 0) (literals props) ++ [TRParen]) ++ []) ++ []) ++ []).
    by rewrite !app_nil_r. }
  apply spells_after; [by apply (spells_keyword _ "INSERT" _ [32]); [|right]|]. rewrite append_assoc.
  apply spells_after.
  - destruct (node_labels node) as [|l labels] eqn:E; [by apply (spells_spaced _ "(")|].
    apply (spells_after _ "(" _ [TLParen]); [by apply spells_closed|]. by apply spells_labels.
  - apply spells_after; [by apply spells_properties|by apply spells_closed].
Qed.
(** [(v {_id: 'id'}] *)
Definition id_text (v id : string) : string := "(" +:+ (v +:+ " ") +:+ "{" +:+ ("_id" +:+ ": " +:+ "'" +:+ id +:+ "'") +:+ "}".
Definition id_tokens (v id : string) : list Token := [TLParen; ident v; TLBrace; ident "_id"; TColon; TStringLit (chars id); TRBrace].
Lemma spells_id F v id : word v = true → plain id = true → spells F (id_text v id) (id_tokens v id).
Proof.
  intros Hv Hid. apply (spells_after _ "(" _ [TLParen]); [by apply spells_closed|].
  apply (spells_after _ (v +:+ " ") _ [ident v]); [by apply spells_word_spaced|].
  apply (spells_bracketed F "{" "}" "}" TLBrace TRBrace _ [ident "_id"; TColon; TStringLit (chars id)]); try done.
  apply spells_pair; [by apply spells_word|by apply spells_string].
Qed.
Lemma spells_dash F s ts : spells F (String "[" s) ts → spells F ("-" +:+ String "[" s) (TMinus :: ts).
Proof.
  intros Hs. apply (spells_app (Lexer.stops (continues (LxOperator "-" TMinus))) _ _ _ [TMinus]); [|exact Hs|].
  - apply (spells_operator _ "-" TMinus []); [by apply (bool_decide_unpack _)|by left].
  - intros r _. by rewrite chars_cons.
Qed.
Definition relation_text (edge : Edge) : string :=
  edge_label edge +:+
    match edge_properties edge with
    | [] => EmptyString
    | _ => " " +:+ format_properties_for_export f64_fmt date_fmt time_fmt datetime_fmt (edge_properties edge)
    end +:+ "]".
Lemma spells_relation F edge : word (edge_label edge) = true → exportable_properties (edge_properties edge) = true →
  spells F (relation_text edge) (ident (edge_label edge) :: print_properties (print 0) (literals (edge_properties edge)) ++ [TRBracket]).
Proof.
  intros Hl Hp. unfold relation_text. destruct (edge_properties edge) as [|kv p] eqn:E.
  - apply (spells_then _ _ "]" _ [ident (edge_label edge)]); [by apply spells_word|by apply spells_closed|done].
  - rewrite <- append_assoc, append_assoc. apply (spells_after _ (edge_label edge +:+ " ") _ [ident (edge_label edge)]); [by apply spells_word_spaced|].
    apply spells_after; [by apply spells_properties|by apply spells_closed].
Qed.
Lemma edge_spells edge : exportable_edge uuid_fmt edge = true →
  spells delimited (export_edge edge) (print_program (edge_statement uuid_fmt edge) [false; false]).
Proof.
  intros [[[Hs Ht]%andb_true_iff Hl]%andb_true_iff Hp]%andb_true_iff.
  assert (export_edge edge = "MATCH " +:+ id_text "a" (uuid_fmt (edge_source edge)) +:+ ")" +:+ ", " +:+
    id_text "b" (uuid_fmt (edge_target edge)) +:+ ") " +:+ "INSERT " +:+ "(" +:+ "a" +:+ ")" +:+ "-" +:+ "[" +:+ ":" +:+
    relation_text edge +:+ "->" +:+ "(" +:+ "b" +:+ ")") as ->.
  { unfold Engine.export_edge, id_text, relation_text. by rewrite <- !append_assoc. }
  assert (print_program (edge_statement uuid_fmt edge) [false; false] = [TMatch] ++ id_tokens "a" (uuid_fmt (edge_source edge)) ++
    [TRParen] ++ [TComma] ++ id_tokens "b" (uuid_fmt (edge_target edge)) ++ [TRParen] ++ [TInsert] ++ [TLParen] ++ [ident "a"] ++
    [TRParen] ++ (TMinus :: [TLBracket] ++ [TColon] ++
    (ident (edge_label edge) :: print_properties (print 0) (literals (edge_properties edge)) ++ [TRBracket]) ++ [TArrow] ++ [TLParen] ++
    [ident "b"] ++ [TRParen])) as ->.
  { unfold print_program, edge_statement. cbn [statements combine flat_map fst snd flag app].
    unfold bound, with_id, path, id_tokens.
    cbn [print_statement print_graph commas print_path optionally flag app flat_map print_element print_node print_edge
         colon_labels print_properties print_entry]. rewrite !app_nil_r, <- !app_assoc. reflexivity. }
  apply (spells_after _ "MATCH " _ [TMatch]); [by apply (spells_keyword _ "MATCH" _ [32]); [|right]|].
  apply spells_after; [by apply spells_id|].
  apply (spells_after _ ")" _ [TRParen]); [by apply spells_closed|].
  apply (spells_after _ ", " _ [TComma]); [by apply (spells_spaced _ ",")|].
  apply spells_after; [by apply spells_id|].
  apply (spells_after _ ") " _ [TRParen]); [by apply (spells_spaced _ ")")|].
  apply (spells_after _ "INSERT " _ [TInsert]); [by apply (spells_keyword _ "INSERT" _ [32]); [|right]|].
  apply (spells_after _ "(" _ [TLParen]); [by apply spells_closed|].
  apply (spells_then _ "a" ")" _ [ident "a"]); [by apply spells_word| |done].
  apply (spells_after _ ")" _ [TRParen]); [by apply spells_closed|].
  apply spells_dash. apply (spells_after _ "[" _ [TLBracket]); [by apply spells_closed|].
  apply (spells_after _ ":" _ [TColon]); [by apply spells_closed|].
  apply spells_after; [by apply spells_relation|].
  apply (spells_after _ "->" _ [TArrow]); [by apply spells_closed|].
  apply (spells_after _ "(" _ [TLParen]); [by apply spells_closed|].
  apply (spells_then _ "b" ")" _ [ident "b"]); [by apply spells_word|by apply spells_closed|done].
Qed.
End lines.

(** ** Reading the lines *)
Section reading.
Context `{Platform, Unicode, DebugFormat}.
Lemma spelled_parses s prog semicolons : spells delimited s (print_program prog semicolons) →
  length semicolons = length (statements prog) → writable_program prog = true → @parse_query gql_parser s = Ok prog.
Proof.
  intros (ls & -> & Hc & Hts & Hm & Hok) Hl Hw.
  assert (chars (string_of_chars (program_text ls)) = program_text ls) as Hch
    by (apply chars_string_of_chars; eapply Forall_impl; [exact Hc|by intros c [? _]]).
  specialize (Hok [] I I). rewrite app_nil_r in Hok.
  destruct (Parser_new_stands [] ls prog semicolons) as (ts & Hlex & Hs); [constructor|done| |].
  { unfold meant_tokens. rewrite <- Hts. apply forallb_filter_id. by rewrite <- Hts in Hm. }
  destruct (parse_program_reads prog semicolons Hl Hw _ Hs) as (p & Hp & _). cbn [parse_query gql_parser].
  rewrite Hch. unfold Parser.parse. change (program_text ls) with ([] ++ program_text ls). by rewrite Hlex, Hp.
Qed.
Lemma word_utf8 s : word s = true → utf8_string s = true.
Proof.
  intros [_ Hc]%word_ok. destruct (chars_of_string s Hc) as (Hs & _ & Hch). apply bool_decide_eq_true. by rewrite Hch.
Qed.
Lemma plain_utf8 s : plain s = true → utf8_string s = true.
Proof. by intros [? _]%andb_true_iff. Qed.
Lemma literal_writable d v : exportable v = true → writable (S d) 0 (literal v) = true.
Proof.
  revert v. apply exportable_ind; [done|by intros []| | | |].
  - intros i Hi. cbn [literal]. by destruct (i <? 0).
  - intros s Hs. change (utf8_string s = true). by apply plain_utf8.
  - intros l Hl. change (forallb (writable (S d) 0) (literal <$> l) = true). induction Hl as [|v l Hv _ IH]; [done|]. cbn [fmap list_fmap forallb].
    by rewrite Hv, IH.
  - intros m Hm _. change (forallb (λ kv : string * Expression, utf8_string kv.1 && writable (S d) 0 kv.2) ((λ kw, (kw.1, literal kw.2)) <$> m) = true).
    induction Hm as [|[k v] m [Hk Hv] _ IH]; [done|]. cbn [fmap list_fmap forallb fst snd] in *. by rewrite word_utf8, Hv, IH.
Qed.
Lemma literals_writable d p : exportable_properties p = true → forallb (writable_entry (writable (S d) 0)) (literals p) = true.
Proof.
  induction p as [|[k v] p IH]; [done|]. cbn. intros [[Hk Hv]%andb_true_iff Hp]%andb_true_iff.
  unfold writable_entry at 1. cbn [fst snd]. rewrite word_utf8, literal_writable by done. by apply IH.
Qed.
Lemma words_utf8 l : forallb word l = true → forallb utf8_string l = true.
Proof. induction l as [|s l IH]; [done|]. cbn. intros [Hs Hl]%andb_true_iff. by rewrite word_utf8, IH. Qed.
Lemma node_parses uuid_fmt node : exportable_node uuid_fmt node = true →
  @parse_query gql_parser (export_node uuid_fmt f64_fmt date_fmt time_fmt datetime_fmt node) = Ok (node_statement uuid_fmt node).
Proof.
  intros Hx. eapply spelled_parses; [by apply node_spells|done|].
  apply andb_true_iff in Hx as [[Hid Hl]%andb_true_iff Hp].
  unfold writable_program, node_statement, insert_node_program.
  cbn [statements forallb writable_statement writable_paths nonempty writable_path writable_element writable_node all_of chained takes_quantifier andb orb].
  rewrite words_utf8, (literals_writable 255) by (try apply exportable_insert; done). done.
Qed.
Lemma edge_parses uuid_fmt edge : exportable_edge uuid_fmt edge = true →
  @parse_query gql_parser (export_edge uuid_fmt f64_fmt date_fmt time_fmt datetime_fmt edge) = Ok (edge_statement uuid_fmt edge).
Proof.
  intros Hx. eapply spelled_parses; [by apply edge_spells|done|].
  apply andb_true_iff in Hx as [[[Hs Ht]%andb_true_iff Hl]%andb_true_iff Hp].
  unfold writable_program, edge_statement, path, with_id, bound.
  cbn [statements forallb writable_statement writable_graph writable_paths nonempty writable_path writable_element writable_node writable_edge
       all_of chained takes_quantifier andb orb].
  rewrite (literals_writable 255) by done. unfold writable_entry. cbn [fst snd].
  change (writable MAX_EXPR_DEPTH 0 (ELiteral (LString (uuid_fmt (edge_source edge))))) with (utf8_string (uuid_fmt (edge_source edge))).
  change (writable MAX_EXPR_DEPTH 0 (ELiteral (LString (uuid_fmt (edge_target edge))))) with (utf8_string (uuid_fmt (edge_target edge))).
  by rewrite (plain_utf8 (uuid_fmt (edge_source edge))), (plain_utf8 (uuid_fmt (edge_target edge))), (word_utf8 (edge_label edge)).
Qed.
End reading.
