(* ===== verification/Import.v ===== *)
(** * Importing what was exported

    The export of a graph is run line by line on another, empty graph: each node line inserts a copy
    of its node, each edge line matches the copies of its two ends and joins them. The theorem
    composes the whole system: storage engine, export, lexer, parser, planner, executor. *)
From S2P Require Import Prelude Types Rocks Encoding Engine Index Lexer F64 Text Records Ast Expression Debug Relational Planner Grouping Executor Execution Service Parser Printing RoundTrip Export.
From Stdlib Require Import Ascii.
Import Encoding ColumnFamilies.

(** ** Maps and sets filled in order *)
Lemma ascending_sorted l : ascending l = true ↔ StronglySorted str_lt l.
Proof.
  induction l as [|k l IH]; cbn; [split; [constructor|done]|]. rewrite andb_true_iff, IH, forallb_forall. split.
  - intros [Hk Hl]. constructor; [done|]. apply Forall_forall. intros x Hx. by apply Hk, list_elem_of_In.
  - intros Hs. inversion Hs as [|? ? Hl Hk]. split; [|done]. intros x Hx. rewrite Forall_forall in Hk. by apply Hk, list_elem_of_In.
Qed.
Lemma str_lt_asymm a b : str_lt a b → str_ltb b a = false ∧ a ≠ b.
Proof.
  intros Hab. split; [|intros ->; by apply (str_lt_irrefl b)]. apply not_true_iff_false. intros Hba.
  by eapply bytes_lt_asymm; [exact Hab|exact Hba].
Qed.
Lemma btree_insert_last {A} k (v : A) m : Forall (λ k', str_lt k' k) m.*1 → btree_insert k v m = m ++ [(k, v)].
Proof.
  induction m as [|[k' v'] m IH]; [done|]. cbn. intros [Hk Hm]%Forall_cons. apply str_lt_asymm in Hk as [Hk Hne].
  rewrite decide_False by done. by rewrite Hk, IH.
Qed.
Lemma btree_set_insert_last k l : Forall (λ k', str_lt k' k) l → btree_set_insert k l = l ++ [k].
Proof.
  induction l as [|k' l IH]; [done|]. cbn. intros [Hk Hl]%Forall_cons. apply str_lt_asymm in Hk as [Hk Hne].
  rewrite decide_False by done. by rewrite Hk, IH.
Qed.
Lemma sorted_app_lt l k l' : StronglySorted str_lt (l ++ k :: l') → Forall (λ x, str_lt x k) l.
Proof.
  induction l as [|x l IH]; cbn; [constructor|]. intros Hs. inversion Hs as [|? ? Hl Hx]. constructor; [|by apply IH].
  rewrite Forall_forall in Hx. apply Hx. set_solver.
Qed.
Lemma foldl_btree_insert {A} (m acc : list (string * A)) : StronglySorted str_lt ((acc ++ m).*1) →
  foldl (λ acc kv, btree_insert kv.1 kv.2 acc) acc m = acc ++ m.
Proof.
  revert acc. induction m as [|[k v] m IH]; intros acc Hs; cbn; [by rewrite app_nil_r|].
  rewrite fmap_app in Hs. rewrite btree_insert_last by by eapply sorted_app_lt. rewrite IH; [by rewrite <- app_assoc|].
  by rewrite <- app_assoc, fmap_app.
Qed.
Lemma foldl_btree_set_insert m acc : StronglySorted str_lt (acc ++ m) → foldl (λ acc k, btree_set_insert k acc) acc m = acc ++ m.
Proof.
  revert acc. induction m as [|k m IH]; intros acc Hs; cbn; [by rewrite app_nil_r|].
  rewrite btree_set_insert_last by by eapply sorted_app_lt. rewrite IH; by rewrite <- app_assoc.
Qed.

(** ** Exported values evaluate to themselves *)
Section evaluating.
Context `{Platform, Unicode, DebugFormat}.
Lemma evaluate_literal_value v r : exportable v = true → evaluate (literal v) r = Ok v.
Proof.
  revert v. apply exportable_ind; [done|done| |done| |].
  - intros i Hi. cbn [literal]. destruct (Z.ltb_spec i 0) as [Hn|Hn]; [|done]. cbn [evaluate eval_literal mbind result_bind eval_unary_op].
    unfold in_i64, i64_min, i64_max. replace (- Z.abs i) with i by lia.
    by rewrite (proj2 (Z.leb_le _ _)), (proj2 (Z.leb_le _ _)) by lia.
  - intros l Hl. change (literal (ListV l)) with (EList (literal <$> l)). rewrite evaluate_list.
    assert (evaluate_all r (literal <$> l) = Ok l) as ->; [|done].
    induction Hl as [|v l Hv _ IH]; [done|]. change (evaluate_all r (literal <$> v :: l)) with
      (w ← evaluate (literal v) r; ws ← evaluate_all r (literal <$> l); Ok (w :: ws)). by rewrite Hv, IH.
  - intros m Hm Hs%ascending_sorted. change (literal (MapV m)) with (EMap ((λ kw, (kw.1, literal kw.2)) <$> m)). rewrite evaluate_map.
    assert (∀ acc, evaluate_entries r ((λ kw, (kw.1, literal kw.2)) <$> m) acc = Ok (foldl (λ acc kv, btree_insert kv.1 kv.2 acc) acc m)) as ->.
    { clear Hs. induction Hm as [|[k v] m [_ Hv] _ IH]; intros acc; [done|]. cbn [snd] in Hv.
      change (evaluate_entries r ((λ kw, (kw.1, literal kw.2)) <$> (k, v) :: m) acc) with
        (w ← evaluate (literal v) r; evaluate_entries r ((λ kw, (kw.1, literal kw.2)) <$> m) (btree_insert k w acc)).
      rewrite Hv. apply IH. }
    cbn [mbind result_bind]. by rewrite foldl_btree_insert.
Qed.
Lemma evaluate_literals {A} (set_property : A → string → Value → A) p a : exportable_properties p = true →
  evaluate_properties set_property (literals p) a = Ok (foldl (λ a kv, set_property a kv.1 kv.2) a p).
Proof.
  revert a. induction p as [|[k v] p IH]; intros a; [done|]. cbn [exportable_properties forallb fst snd].
  intros [[_ Hv]%andb_true_iff Hp]%andb_true_iff. unfold evaluate_properties, literals in *. cbn [fmap list_fmap for_each fst snd].
  rewrite evaluate_literal_value by done. by apply IH.
Qed.
Lemma foldl_node_set p x : foldl (λ x kv, node_set_property x kv.1 kv.2) x p =
  mkNode (node_id x) (node_graph_id x) (node_labels x) (foldl (λ acc kv, btree_insert kv.1 kv.2 acc) (node_properties x) p).
Proof. revert x. induction p as [|kv p IH]; intros x; [by destruct x|]. cbn. by rewrite IH. Qed.
Lemma foldl_edge_set p e : foldl (λ e kv, edge_set_property e kv.1 kv.2) e p =
  mkEdge (edge_id e) (edge_graph_id e) (edge_source e) (edge_target e) (edge_label e)
    (foldl (λ acc kv, btree_insert kv.1 kv.2 acc) (edge_properties e) p).
Proof. revert e. induction p as [|kv p IH]; intros e; [by destruct e|]. cbn. by rewrite IH. Qed.
Lemma foldl_add_label ls x : foldl add_label x ls =
  mkNode (node_id x) (node_graph_id x) (foldl (λ acc k, btree_set_insert k acc) (node_labels x) ls) (node_properties x).
Proof. revert x. induction ls as [|l ls IH]; intros x; [by destruct x|]. cbn. by rewrite IH. Qed.
End evaluating.

(** ** Lines of the import *)
Lemma utf8_encode_ascii c : 0 ≤ c < 128 → utf8_encode c = [byte_of_Z c].
Proof. intros Hc. unfold utf8_encode. by rewrite (proj2 (Z.ltb_lt c 0x80)) by lia. Qed.
Lemma utf8_encode_high c : is_char c → 128 ≤ c → utf8_encode c ≠ [] ∧ Forall (λ b, 128 ≤ bval b) (utf8_encode c).
Proof.
  intros [Hc _] Hh. unfold utf8_encode. rewrite (proj2 (Z.ltb_ge c 0x80)) by lia.
  pose proof (Z.mod_pos_bound c 64 ltac:(lia)). pose proof (Z.mod_pos_bound (c / 64) 64 ltac:(lia)).
  pose proof (Z.mod_pos_bound (c / 4096) 64 ltac:(lia)).
  assert (c / 64 ≤ 31 ∨ 0x800 ≤ c) by (destruct (Z.lt_ge_cases c 0x800); [left; apply Z.lt_succ_r, Z.div_lt_upper_bound; lia|by right]).
  assert (c / 4096 ≤ 15 ∨ 0x10000 ≤ c) by (destruct (Z.lt_ge_cases c 0x10000); [left; apply Z.lt_succ_r, Z.div_lt_upper_bound; lia|by right]).
  assert (c / 262144 ≤ 4) by (apply Z.lt_succ_r, Z.div_lt_upper_bound; lia).
  pose proof (Z.div_pos c 64 ltac:(lia) ltac:(lia)). pose proof (Z.div_pos c 4096 ltac:(lia) ltac:(lia)). pose proof (Z.div_pos c 262144 ltac:(lia) ltac:(lia)).
  destruct (Z.ltb_spec c 0x800); [|destruct (Z.ltb_spec c 0x10000)]; (split; [done|]); repeat constructor; rewrite bval_small; lia.
Qed.
(** What import needs of a line: one line, which trimming leaves as it is *)
Definition importable (line : string) : Prop :=
  (∀ a, In a (String.list_ascii_of_string line) → a ≠ lf) ∧ (∃ s, line = s +:+ ")") ∧
  string_of_chars (trim (chars line)) = line ∧ is_comment line = false.
Lemma strip_cr_keeps s : strip_cr (s +:+ ")") = s +:+ ")".
Proof.
  induction s as [|a s IH]; [done|]. change (String a s +:+ ")") with (String a (s +:+ ")")).
  destruct (s +:+ ")") as [|b t] eqn:E; [by destruct s|]. change (strip_cr (String a (String b t))) with (String a (strip_cr (String b t))). by rewrite IH.
Qed.
Lemma import_line_whole line acc rest : (∀ a, In a (String.list_ascii_of_string line) → a ≠ lf) →
  lines_from acc (line +:+ String lf rest) = strip_cr (acc +:+ line) :: lines_from EmptyString rest.
Proof.
  revert acc. induction line as [|a line IH]; intros acc Hl.
  - rewrite append_nil. change (EmptyString +:+ String lf rest) with (String lf rest). cbn [lines_from]. by rewrite Ascii.eqb_refl.
  - change (String a line +:+ String lf rest) with (String a (line +:+ String lf rest)). cbn [lines_from].
    rewrite (proj2 (Ascii.eqb_neq a lf)) by (apply Hl; by left). rewrite IH by (intros b Hb; apply Hl; by right).
    by rewrite <- append_assoc.
Qed.
(** The text written: each line ended by a line feed *)
Definition export_text (lines : list string) : string := String.concat EmptyString ((λ l, l +:+ String lf EmptyString) <$> lines).
Lemma concat_cons s l : String.concat EmptyString (s :: l) = s +:+ String.concat EmptyString l.
Proof. destruct l; [symmetry; apply append_nil|done]. Qed.
Lemma export_text_cons l lines : export_text (l :: lines) = l +:+ String lf (export_text lines).
Proof. unfold export_text. cbn [fmap list_fmap]. rewrite concat_cons, <- append_assoc. done. Qed.
Lemma lines_of_export lines : Forall importable lines → lines_from EmptyString (export_text lines) = lines.
Proof.
  induction 1 as [|l lines (Hlf & (s & ->) & _) _ IH]; [done|]. rewrite export_text_cons, import_line_whole by done.
  change (EmptyString +:+ (s +:+ ")")) with (s +:+ ")"). by rewrite strip_cr_keeps, IH.
Qed.
(** The last character of a text whose last byte is ASCII *)
Lemma last_char t c s b : is_char c → (t ++ [c]) ≫= utf8_encode = s ++ [b] → bval b < 128 → c = bval b.
Proof.
  intros Hc Ht Hb. rewrite bind_app in Ht. cbn [mbind list_bind] in Ht. rewrite app_nil_r in Ht.
  destruct (Z.lt_ge_cases c 128) as [Hlow|Hhigh].
  - rewrite utf8_encode_ascii in Ht by (destruct Hc; lia). apply app_inj_tail in Ht as [_ <-]. rewrite bval_small by (destruct Hc; lia). done.
  - destruct (utf8_encode_high c Hc Hhigh) as [Hne Hall]. destruct (exists_last Hne) as (l & b' & He). rewrite He in Hall, Ht.
    rewrite app_assoc in Ht. apply app_inj_tail in Ht as [_ ->]. apply Forall_app in Hall as [_ [Hl _]%Forall_cons]. lia.
Qed.
(** A text spelled by lexemes that starts with a letter and ends with a parenthesis *)
Lemma spelled_importable F a line' s ts : spells F (String a line') ts → String a line' = s +:+ ")" → is_ascii_alphabetic (chr a) = true →
  importable (String a line').
Proof.
  intros (ls & Hs & Hc & _) Hend Ha. set (line := String a line') in *. set (t := program_text ls) in *.
  assert (chars line = t) as Hch by (rewrite Hs; apply chars_string_of_chars; eapply Forall_impl; [exact Hc|by intros c [? _]]).
  assert (48 ≤ chr a < 128) as Hchr by (clear -Ha; char_cases).
  assert (∃ t', t = chr a :: t') as (t' & Ht) by (rewrite <- Hch; unfold line; rewrite chars_cons by lia; by eexists).
  assert (str_bytes line = t ≫= utf8_encode) as Hb by (rewrite Hs; unfold string_of_chars; apply str_bytes_str_of_bytes).
  split_and!; [| |rewrite Hch; unfold trim|].
  - intros b Hin ->. assert (byte_of_ascii lf ∈ str_bytes line) as Hlf.
    { unfold str_bytes, String.list_byte_of_string. apply list_elem_of_In, in_map. exact Hin. }
    rewrite Hb in Hlf. apply list_elem_of_bind in Hlf as (c & Hlf & Hct). rewrite Forall_forall in Hc. destruct (Hc c Hct) as [Hcc Hne].
    destruct (Z.lt_ge_cases c 128) as [Hlow|Hhigh].
    + rewrite utf8_encode_ascii in Hlf by (destruct Hcc; lia). apply list_elem_of_singleton in Hlf. apply (f_equal bval) in Hlf.
      rewrite bval_small in Hlf by (destruct Hcc; lia). by rewrite <- Hlf in Hne.
    + destruct (utf8_encode_high c Hcc Hhigh) as [_ Hall]. rewrite Forall_forall in Hall. apply Hall in Hlf. done.
  - by exists s.
  - destruct (exists_last (l := t)) as (t0 & c & Hlast); [by rewrite Ht|].
    assert (c = 41) as ->.
    { apply (last_char t0 c (str_bytes s) (byte_of_ascii ")"%char)); [|by rewrite <- Hlast, <- Hb, Hend, str_bytes_app|done].
      rewrite Hlast in Hc. by apply Forall_app in Hc as [_ [[? _] _]%Forall_cons]. }
    assert (trim_start t = t) as ->.
    { rewrite Ht. cbn [trim_start]. assert (is_whitespace (chr a) = false) as ->; [|done]. unfold is_whitespace. lia. }
    rewrite Hlast, reverse_snoc. change (trim_start (41 :: reverse t0)) with (41 :: reverse t0). rewrite reverse_cons, reverse_involutive.
    by rewrite <- Hlast.
  - unfold is_comment, line. clear -Ha. cbn [String.eqb orb String.prefix].
    assert (a ≠ "/"%char ∧ a ≠ "-"%char) as [H1 H2] by (split; intros ->; done).
    destruct (ascii_dec "/" a); [congruence|]. by destruct (ascii_dec "-" a); [congruence|].
Qed.

(** ** Rows of the two ends of an edge *)
Lemma append_inj s t1 t2 : s +:+ t1 = s +:+ t2 → t1 = t2.
Proof. induction s as [|a s IH]; [done|]. intros Heq. apply IH. by injection Heq. Qed.
Lemma contains_dot_app s t : contains_dot (s +:+ "." +:+ t) = true.
Proof. induction s as [|a s IH]; [done|]. change (Ascii.eqb a "." || contains_dot (s +:+ "." +:+ t) = true). by rewrite IH, orb_true_r. Qed.
Lemma word_no_dot s : word s = true → contains_dot s = false.
Proof.
  intros [[Hs _]%andb_true_iff _]%andb_true_iff. unfold chars_of in Hs. induction s as [|a s IH]; [done|].
  cbn [String.list_ascii_of_string fmap list_fmap forallb] in Hs. apply andb_true_iff in Hs as [Ha Hs].
  change (Ascii.eqb a "." || contains_dot s = false). rewrite IH by done. rewrite (proj2 (Ascii.eqb_neq a ".")); [done|]. by intros ->.
Qed.
Lemma qualified_app v l1 l2 : qualified v (l1 ++ l2) = qualified v l1 ++ qualified v l2.
Proof. apply fmap_app. Qed.
Lemma in_qualified v k l : v +:+ "." +:+ k ∈ qualified v l ↔ k ∈ l.
Proof.
  unfold qualified. rewrite list_elem_of_fmap. split; [|by exists k]. intros (k' & Heq & Hin).
  by apply append_inj, (append_inj ".") in Heq as ->.
Qed.
Lemma qualified_dot v l c : c ∈ qualified v l → contains_dot c = true.
Proof. intros (k & -> & _)%list_elem_of_fmap. apply contains_dot_app. Qed.
Lemma position_middle name l1 l2 : name ∉ l1 → position name (l1 ++ name :: l2) = Some (length l1).
Proof.
  induction l1 as [|c l1 IH]; cbn; [by rewrite String.eqb_refl|]. intros [Hc Hl]%not_elem_of_cons.
  rewrite (proj2 (String.eqb_neq c name)) by done. by rewrite IH.
Qed.
Lemma get_middle {E} name l1 l2 v1 v2 w : name ∉ l1 → length v1 = length l1 →
  Record_get (E := E) (mkRecord (l1 ++ name :: l2) (v1 ++ w :: v2)) name = Ok (Some w).
Proof.
  intros Hn Hl. unfold Record_get. cbn [columns values]. rewrite position_middle by done.
  rewrite lookup_app_r, Hl, Nat.sub_diag by lia. done.
Qed.

(** Keys that a scan can use as columns without hiding the variable *)
Definition column_key (v k : string) : Prop := contains_dot k = false ∧ k ≠ v.
Section rows.
Context `{Platform, Unicode, DebugFormat, Environment}.
Lemma length_property_values ks p : length (property_values ks p) = length ks.
Proof. apply length_fmap. Qed.
Lemma length_scan_row ks v x : length (scan_row ks v x) = length (scan_columns ks v).
Proof.
  unfold scan_row, scan_columns. destruct v; cbn [app length]; rewrite !length_app, ?length_property_values; cbn [length];
    rewrite ?length_property_values; unfold qualified; rewrite ?length_fmap; done.
Qed.
Lemma scan_columns_before v ks : Forall (column_key v) ks → v ≠ "__node_id"%string → v ≠ "__labels"%string →
  v ∉ ["__node_id"; "__labels"]%string ++ ks.
Proof.
  intros Hks H1' H2' [Hin|Hin]%elem_of_app; [set_solver|]. rewrite Forall_forall in Hks. by destruct (Hks v Hin).
Qed.
Lemma get_property {E} v ks x k : Forall (column_key v) ks → contains_dot v = false → k ∈ ks →
  Record_get (E := E) (mkRecord (scan_columns ks (Some v)) (scan_row ks (Some v) x)) (v +:+ "." +:+ k) =
    Ok (Some (default Null (btree_get k (node_properties x)))).
Proof.
  intros Hks Hv (k1 & k2 & -> & Hk)%list_elem_of_split_l.
  assert (scan_columns (k1 ++ k :: k2) (Some v) = (["__node_id"; "__labels"]%string ++ (k1 ++ k :: k2) ++ v :: qualified v k1) ++
    (v +:+ "." +:+ k) :: qualified v k2) as ->.
  { unfold scan_columns. rewrite qualified_app. by rewrite <- !app_assoc. }
  assert (scan_row (k1 ++ k :: k2) (Some v) x =
    ([Str (Uuid_fmt (node_id x)); ListV (Str <$> node_labels x)] ++ property_values (k1 ++ k :: k2) (node_properties x) ++
       node_value x :: property_values k1 (node_properties x)) ++
    default Null (btree_get k (node_properties x)) :: property_values k2 (node_properties x)) as ->.
  { unfold scan_row. unfold property_values at 2. rewrite fmap_app. by rewrite <- !app_assoc. }
  apply get_middle.
  - pose proof (contains_dot_app v k) as Hdot. rewrite Forall_forall in Hks.
    intros [Hin|[Hin|[Heq|Hin]%elem_of_cons]%elem_of_app]%elem_of_app.
    + repeat (apply elem_of_cons in Hin as [Heq|Hin]; [by rewrite Heq in Hdot|]). by apply elem_of_nil in Hin.
    + destruct (Hks _ Hin) as [Hc _]. congruence.
    + rewrite Heq in Hdot. congruence.
    + by apply in_qualified in Hin.
  - rewrite !length_app. cbn [length]. rewrite !length_property_values. unfold qualified. rewrite length_fmap, !length_app. done.
Qed.
Lemma get_node_value {E} v ks x l0 v0 l2 v2 : Forall (column_key v) ks → v ≠ "__node_id"%string → v ≠ "__labels"%string →
  v ∉ l0 → length v0 = length l0 →
  Record_get (E := E) (mkRecord (l0 ++ scan_columns ks (Some v) ++ l2) (v0 ++ scan_row ks (Some v) x ++ v2)) v = Ok (Some (node_value x)).
Proof.
  intros Hks Hv1 Hv2 Hl0 Hlen. unfold scan_columns, scan_row.
  assert (∀ {A} (p q r : list A) m t u, p ++ (q ++ r ++ m :: t) ++ u = (p ++ q ++ r) ++ m :: (t ++ u)) as Hre
    by (intros; by rewrite <- !app_assoc).
  rewrite !Hre. apply get_middle.
  - rewrite not_elem_of_app. split; [done|]. by apply scan_columns_before.
  - rewrite !length_app, length_property_values, Hlen. done.
Qed.
Lemma join_columns_nil left right : (∀ c, c ∈ left → contains_dot c = true → c ∉ right) → join_columns left right = [].
Proof.
  intros Hd. apply elem_of_nil_inv. intros p (o & Ho & Hp)%list_elem_of_omap.
  apply elem_of_lookup_imap_1 in Ho as (i & c & -> & Hc). apply list_elem_of_lookup_2 in Hc. cbn in Hp.
  destruct (contains_dot c) eqn:Hdot; cbn in Hp; [|done]. destruct (is_internal c); [done|].
  destruct (position c right) eqn:Hpos; [|done]. specialize (Hd c Hc Hdot). by rewrite <- position_None, Hpos in Hd.
Qed.
Definition id_is (v s : string) : Expression := EBinaryOp (EPropertyAccess (EIdentifier v) "_id") OpEq (ELiteral (LString s)).
Lemma evaluate_id v ks x u s : Forall (column_key v) ks → contains_dot v = false → "_id"%string ∈ ks →
  btree_get "_id" (node_properties x) = Some (Str u) →
  evaluate (id_is v s) (mkRecord (scan_columns ks (Some v)) (scan_row ks (Some v) x)) = Ok (Bool (String.eqb u s)).
Proof.
  intros Hks Hv Hin Hid. cbn [id_is evaluate property_columns]. rewrite (get_property v ks x "_id") by done. cbn [mbind result_bind].
  rewrite Hid. cbn [default evaluate eval_literal eval_binary_op mbind result_bind id]. done.
Qed.
Lemma filter_unique {A B} (P : B → Prop) `{!∀ b, Decision (P b)} (f : A → B) l x : NoDup l → x ∈ l → (∀ y, y ∈ l → P (f y) ↔ y = x) →
  filter P (f <$> l) = [f x].
Proof.
  intros Hnd Hx HP. induction Hnd as [|y l Hy Hnd IH]; [by apply elem_of_nil in Hx|]. cbn [fmap list_fmap].
  assert (∀ l', x ∉ l' → (∀ y, y ∈ l' → P (f y) ↔ y = x) → filter P (f <$> l') = []) as Hnone.
  { intros l' Hl' HP'. induction l' as [|z l' IH']; [done|]. cbn [fmap list_fmap]. rewrite filter_cons_False.
    - apply IH'; set_solver.
    - rewrite HP' by (by left). intros ->. apply Hl'. by left. }
  rewrite filter_cons. case_decide as Hd.
  - apply HP in Hd as ->; [|by left]. by rewrite Hnone by set_solver.
  - apply IH; [|set_solver]. apply elem_of_cons in Hx as [->|Hx]; [|done]. destruct Hd. apply HP; [by left|done].
Qed.
(** A filter on the identifier leaves the row of the one node with that identifier. *)
Lemma filter_one v ks nodes x s : Forall (column_key v) ks → contains_dot v = false → "_id"%string ∈ ks → NoDup nodes → x ∈ nodes →
  (∀ y, y ∈ nodes → ∃ u, btree_get "_id" (node_properties y) = Some (Str u) ∧ (u = s ↔ y = x)) →
  exec_filter (of_rows (scan_columns ks (Some v)) (scan_row ks (Some v) <$> nodes)) (id_is v s) =
    Ok (of_rows (scan_columns ks (Some v)) [scan_row ks (Some v) x]).
Proof.
  intros Hks Hv Hin Hnd Hx Hids. apply exec_filter_ok. unfold of_rows. cbn [rs_records rs_columns]. rewrite <- list_fmap_compose. split.
  - intros r (y & -> & Hy)%list_elem_of_fmap. destruct (Hids y Hy) as (u & Hu & _). eexists. by apply (evaluate_id v ks y u s).
  - f_equal. rewrite (filter_unique _ _ nodes x); [done|done|done|].
    intros y Hy. destruct (Hids y Hy) as (u & Hu & Huniq). unfold selects. cbn [compose]. rewrite (evaluate_id v ks y u s) by done.
    rewrite <- Huniq. split; [intros [= Heq]; by apply String.eqb_eq|intros ->; by rewrite String.eqb_refl].
Qed.
End rows.

(** ** Running the statements *)
Section importing.
Context `{RocksDBLaws db, BincodeLaws Node, BincodeLaws Edge, BincodeLaws GraphMeta, Bincode Value, Bincode IndexDefinition}.
Context `{Platform, Unicode, DebugFormat, EnvironmentLaws}.
#[local] Existing Instance gql_parser.
Implicit Types (d : db) (G : graph).
Abbreviation state := (exec_state (db := db)).
Variable g : GraphId.
Abbreviation options := (mkExecOptions ∅ None None).

Lemma import_step d n line rest executed program d' n' output : importable line → parse_query line = Ok program →
  execute_program d n g program options = (d', n', Ok output) →
  import_lines d n g (line :: rest) executed = import_lines d' n' g rest (executed + 1).
Proof.
  intros (_ & _ & Htrim & Hno) Hp Hrun. cbn [import_lines]. rewrite Htrim, Hno, Hp, Hrun. done.
Qed.

(** ** Nodes *)
Definition well_formed_node (x : Node) : bool := ascending (node_labels x) && ascending (node_properties x).*1.
Definition copy_node (fresh : NodeId) (x : Node) : Node :=
  mkNode fresh g (node_labels x) (btree_insert "_id" (Str (Uuid_fmt (node_id x))) (node_properties x)).
Lemma ascending_insert {A} k (v : A) m : ascending m.*1 = true → StronglySorted str_lt (btree_insert k v m).*1.
Proof. intros Hs%ascending_sorted. rewrite btree_insert_keys. by apply btree_set_insert_sorted. Qed.
Lemma import_node d n G x : represents d G → exportable_node Uuid_fmt x = true → well_formed_node x = true →
  ∃ d' output, execute_program d n g (node_statement Uuid_fmt x) options = (d', S n, Ok output) ∧
    represents d' (insert_node (copy_node (fresh_uuid n) x) G).
Proof.
  intros HR Hx [Hl Hp]%andb_true_iff. set (props := btree_insert "_id" (Str (Uuid_fmt (node_id x))) (node_properties x)).
  pose proof (insert_node_run d n G g options None (node_labels x) (literals props) HR) as Hrun. cbv zeta in Hrun.
  assert (evaluate_properties node_set_property (literals props) (foldl add_label (Node_new (fresh_uuid n) g) (node_labels x)) =
    Ok (copy_node (fresh_uuid n) x)) as Hev.
  { apply andb_true_iff in Hx as [[Hid _]%andb_true_iff Hex]. rewrite evaluate_literals by by apply exportable_insert.
    rewrite foldl_add_label, foldl_node_set. cbn [node_id node_graph_id node_labels node_properties Node_new].
    rewrite foldl_btree_set_insert by by apply ascending_sorted. rewrite foldl_btree_insert; [done|]. cbn [app]. by apply ascending_insert. }
  rewrite Hev in Hrun. destruct Hrun as (d' & Hrun & HR' & _). by eexists d', _.
Qed.

(** ** Edges *)
(** The nodes of the target graph: properties that a match can use as columns, and the identifier each was exported with *)
Definition in_target G (y : Node) : Prop := has_node G y ∧ node_graph_id y = g.
Definition columns_free G : Prop := ∀ y k, in_target G y → k ∈ (node_properties y).*1 → contains_dot k = false ∧ k ≠ "a"%string ∧ k ≠ "b"%string.
Definition exported_as (y : Node) (u : NodeId) : Prop := btree_get "_id" (node_properties y) = Some (Str (Uuid_fmt u)).
Definition only_copy G (u : NodeId) (x : Node) : Prop :=
  in_target G x ∧ exported_as x u ∧ ∀ y, in_target G y → ∃ u', exported_as y u' ∧ (u' = u → y = x).
Lemma match_one G v u x (s : state) : represents (storage s) G → columns_free G → only_copy G u x → v = "a"%string ∨ v = "b"%string →
  ∃ ks, execute_node g (Filter (Scan [] None (Some v)) (id_is v (Uuid_fmt u))) s =
      (mkState (storage s) (stats s) (S (draws s)), Ok (of_rows (scan_columns ks (Some v)) [scan_row ks (Some v) x])) ∧
    Forall (λ k, column_key "a" k ∧ column_key "b" k) ks.
Proof.
  intros HR Hfree (Hx & Hxu & Hall) Hv. destruct (scan_nodes_rep (storage s) G g HR) as (nodes & Hscan & Hin & Hsort).
  assert (NoDup nodes) as Hnd by (eapply StronglySorted_NoDup, Hsort; intros z; apply bytes_lt_irrefl).
  set (ks := hash_order (draws s) (property_keys (node_properties <$> nodes))).
  assert (∀ k, k ∈ ks ↔ ∃ y, y ∈ nodes ∧ k ∈ (node_properties y).*1) as Hks.
  { intros k. unfold ks. rewrite hash_order_perm, property_keys_elem. setoid_rewrite list_elem_of_fmap. naive_solver. }
  assert (Forall (λ k, column_key "a" k ∧ column_key "b" k) ks) as Hck.
  { apply Forall_forall. intros k (y & Hy%Hin & Hk)%Hks. destruct (Hfree y k Hy Hk) as (? & ? & ?). done. }
  exists ks. split; [|exact Hck]. cbn [execute_node].
  run ltac:(unfold exec_scan; run ltac:(apply run_reads; exact Hscan); apply node_rows_run). fold ks. apply run_lift. apply filter_one.
  - eapply Forall_impl; [exact Hck|]. intros k [Ha Hb]. by destruct Hv as [->| ->].
  - by destruct Hv as [->| ->].
  - apply Hks. exists x. split; [by apply Hin|]. apply (list_elem_of_fmap_2 fst (node_properties x) ("_id"%string, Str (Uuid_fmt u))).
    clear -Hxu. unfold exported_as in Hxu. induction (node_properties x) as [|[k w] p IH]; [done|]. cbn in Hxu. case_decide; [|right; by apply IH].
    injection Hxu as ->. subst. by left.
  - done.
  - by apply Hin.
  - intros y Hy%Hin. destruct (Hall y Hy) as (u' & Hu' & Huniq). exists (Uuid_fmt u'). split; [done|].
    split; [intros Heq%Uuid_fmt_inj; by apply Huniq|]. intros ->. unfold exported_as in *. congruence.
Qed.
Definition copy_edge (fresh : EdgeId) (source target : NodeId) (e : Edge) : Edge :=
  mkEdge fresh g source target (edge_label e) (edge_properties e).
(** The one row of both matches *)
Lemma join_ends ks1 ks2 x y : Forall (λ k, column_key "a" k ∧ column_key "b" k) ks1 → Forall (λ k, column_key "a" k ∧ column_key "b" k) ks2 →
  exec_join (of_rows (scan_columns ks1 (Some "a"%string)) [scan_row ks1 (Some "a"%string) x])
            (of_rows (scan_columns ks2 (Some "b"%string)) [scan_row ks2 (Some "b"%string) y]) =
    Ok (of_rows (scan_columns ks1 (Some "a"%string) ++ scan_columns ks2 (Some "b"%string))
          [scan_row ks1 (Some "a"%string) x ++ scan_row ks2 (Some "b"%string) y]).
Proof.
  intros H1' H2'. unfold exec_join. cbn [rs_columns of_rows]. rewrite join_columns_nil.
  - rewrite cross_join_rows. cbn [rs_columns of_rows rs_records fmap list_fmap mbind list_bind app values]. done.
  - rewrite !Forall_forall in *. unfold scan_columns. intros c Hc Hdot Hin.
    assert (∃ k, c = "a." +:+ k) as [k ->].
    { rewrite !elem_of_app, !elem_of_cons, elem_of_nil in Hc. destruct Hc as [[->|[->|[]]]|[Hk|[->|(k & -> & _)%list_elem_of_fmap]]];
        [done|done| |done|by exists k]. destruct (H1' c Hk) as [[Hc' _] _]. congruence. }
    rewrite !elem_of_app, !elem_of_cons, elem_of_nil in Hin. destruct Hin as [[Heq|[Heq|[]]]|[Hk|[Heq|(k' & Heq & _)%list_elem_of_fmap]]];
      try discriminate Heq. destruct (H2' _ Hk) as [[Hc' _] _]. congruence.
Qed.
Lemma endpoints ks1 ks2 x y : Forall (λ k, column_key "a" k ∧ column_key "b" k) ks1 → Forall (λ k, column_key "a" k ∧ column_key "b" k) ks2 →
  let row := mkRecord (scan_columns ks1 (Some "a"%string) ++ scan_columns ks2 (Some "b"%string))
    (scan_row ks1 (Some "a"%string) x ++ scan_row ks2 (Some "b"%string) y) in
  resolve_endpoint "source" "a" (source_columns "a") row = Ok (Uuid_fmt (node_id x)) ∧
  resolve_endpoint "target" "b" (target_columns "b") row = Ok (Uuid_fmt (node_id y)).
Proof.
  intros H1' H2' row. unfold resolve_endpoint, source_columns, target_columns. cbn [first_id].
  assert (Record_get (E := ExecError) row "a" = Ok (Some (node_value x))) as ->.
  { apply (get_node_value "a" ks1 x [] []); [|done|done|apply not_elem_of_nil|done]. eapply Forall_impl; [exact H1'|by intros k [? _]]. }
  assert (Record_get (E := ExecError) row "b" = Ok (Some (node_value y))) as ->; [|done].
  unfold row. rewrite <- (app_nil_r (scan_columns ks2 _)), <- (app_nil_r (scan_row ks2 _ _)).
  apply (get_node_value "b" ks2 y); [eapply Forall_impl; [exact H2'|by intros k [_ ?]]|done|done| |apply length_scan_row].
  rewrite Forall_forall in H1'. unfold scan_columns. rewrite !elem_of_app, !elem_of_cons, elem_of_nil.
  intros [[Heq|[Heq|[]]]|[Hk|[Heq|Hk%qualified_dot]]]; try discriminate. by destruct (H1' _ Hk) as [_ [_ ?]].
Qed.
Lemma import_edge d n G e x y : represents d G → columns_free G → exportable_edge Uuid_fmt e = true →
  ascending (edge_properties e).*1 = true → only_copy G (edge_source e) x → only_copy G (edge_target e) y →
  ∃ d' output, execute_program d n g (edge_statement Uuid_fmt e) options = (d', S (S (S n)), Ok output) ∧
    represents d' (insert_edge (copy_edge (fresh_uuid (S (S n))) (node_id x) (node_id y) e) G).
Proof.
  intros HR Hfree He Hasc Hx Hy. set (e' := copy_edge (fresh_uuid (S (S n))) (node_id x) (node_id y) e).
  set (s := mkState d zero_stats n). set (s2 := mkState d zero_stats (S (S n))).
  destruct (match_one G "a" (edge_source e) x s HR Hfree Hx) as (ks1 & Hrun1 & Hks1); [by left|].
  destruct (match_one G "b" (edge_target e) y (mkState d zero_stats (S n)) HR Hfree Hy) as (ks2 & Hrun2 & Hks2); [by right|].
  destruct (endpoints ks1 ks2 x y Hks1 Hks2) as [Hsrc Htgt].
  destruct (put_edge_rep d G e' HR) as (d1 & Hput & HR1 & _).
  assert (evaluate_properties edge_set_property (literals (edge_properties e))
    (Edge_new (fresh_uuid (S (S n))) g (node_id x) (node_id y) (edge_label e)) = Ok e') as Hev.
  { rewrite evaluate_literals by by apply andb_true_iff in He as [_ ?]. rewrite foldl_edge_set. cbn [edge_id edge_graph_id edge_source edge_target edge_label edge_properties Edge_new].
    rewrite foldl_btree_insert; [done|]. by apply ascending_sorted. }
  assert (∃ rs, exec_create_edge_from_match g
    (of_rows (scan_columns ks1 (Some "a"%string) ++ scan_columns ks2 (Some "b"%string)) [scan_row ks1 (Some "a"%string) x ++ scan_row ks2 (Some "b"%string) y])
    "a" "b" (edge_label e) (literals (edge_properties e)) s2 = (mkState d1 (mkStats 0 0 1 0 0) (S (S (S n))), Ok rs)) as (rs & Hcreate).
  { unfold exec_create_edge_from_match. cbn [rs_records of_rows fmap list_fmap fold]. eexists. erewrite run_bind.
    2:{ unfold create_edge_record. run ltac:(apply run_lift; exact Hsrc). run ltac:(apply run_lift; exact Htgt).
        run ltac:(apply run_parse_id). run ltac:(apply run_parse_id). run ltac:(reflexivity).
        run ltac:(apply run_lift; exact Hev). run ltac:(apply run_writes; exact Hput).
        run ltac:(apply (add_stats_ok 0 0 1 0 0); unfold stats_fit, is_i64, i64_min, i64_max; cbn; lia). reflexivity. }
    reflexivity. }
  exists d1, (mkOutput rs (mkStats 0 0 1 0 0)). split; [|done].
  unfold execute_program. change (plan (edge_statement Uuid_fmt e)) with (Ok (CreateEdgeFromMatch
    (Join (Filter (Scan [] None (Some "a"%string)) (id_is "a" (Uuid_fmt (edge_source e))))
          (Filter (Scan [] None (Some "b"%string)) (id_is "b" (Uuid_fmt (edge_target e))))) "a" "b" (edge_label e) (literals (edge_properties e)))
    : may_panic PlanError LogicalPlan).
  cbn [map_raised map_err]. unfold execute_plan_with. cbn [optimize storage draws]. fold s.
  assert (execute_node g (CreateEdgeFromMatch (Join (Filter (Scan [] None (Some "a"%string)) (id_is "a" (Uuid_fmt (edge_source e))))
    (Filter (Scan [] None (Some "b"%string)) (id_is "b" (Uuid_fmt (edge_target e))))) "a" "b" (edge_label e) (literals (edge_properties e))) s =
    (mkState d1 (mkStats 0 0 1 0 0) (S (S (S n))), Ok rs)) as ->; [|done].
  cbn [execute_node]. erewrite run_bind; [exact Hcreate|].
  run ltac:(exact Hrun1). run ltac:(exact Hrun2). by apply run_lift, join_ends.
Qed.

(** ** The whole graph *)
Fixpoint copies (n : nat) (nodes : list Node) : list Node :=
  match nodes with [] => [] | x :: nodes' => copy_node (fresh_uuid n) x :: copies (S n) nodes' end.
(** The identifier of the copy of a node *)
Fixpoint renamed (n : nat) (nodes : list Node) (u : NodeId) : NodeId :=
  match nodes with
  | [] => u
  | x :: nodes' => if decide (node_id x = u) then fresh_uuid n else renamed (S n) nodes' u
  end.
Fixpoint edge_copies (n : nat) (rename : NodeId → NodeId) (edges : list Edge) : list Edge :=
  match edges with
  | [] => []
  | e :: edges' =>
      copy_edge (fresh_uuid (S (S n))) (rename (edge_source e)) (rename (edge_target e)) e :: edge_copies (S (S (S n))) rename edges'
  end.
Definition imported (n : nat) (nodes : list Node) (edges : list Edge) G : graph :=
  foldl (λ G e, insert_edge e G) (foldl (λ G x, insert_node x G) G (copies n nodes))
    (edge_copies (n + length nodes) (renamed n nodes) edges).
Abbreviation node_line := (export_node Uuid_fmt f64_fmt date_fmt time_fmt datetime_fmt).
Abbreviation edge_line := (export_edge Uuid_fmt f64_fmt date_fmt time_fmt datetime_fmt).
Lemma node_line_importable x : exportable_node Uuid_fmt x = true → importable (node_line x).
Proof.
  intros Hx%node_spells. assert (∃ s, node_line x = s +:+ ")") as [s Hs].
  { eexists. unfold export_node. rewrite !append_assoc. reflexivity. }
  exact (spelled_importable _ "I"%char _ s _ Hx Hs eq_refl).
Qed.
Lemma edge_line_importable e : exportable_edge Uuid_fmt e = true → importable (edge_line e).
Proof.
  intros He%edge_spells. assert (∃ s, edge_line e = s +:+ ")") as [s Hs].
  { eexists. unfold export_edge. change "]->(b)"%string with ("]->(b" +:+ ")"). rewrite !append_assoc. reflexivity. }
  exact (spelled_importable _ "M"%char _ s _ He Hs eq_refl).
Qed.
Lemma import_nodes nodes d n G rest executed : represents d G →
  Forall (λ x, exportable_node Uuid_fmt x = true ∧ well_formed_node x = true) nodes →
  ∃ d', import_lines d n g ((node_line <$> nodes) ++ rest) executed =
      import_lines d' (n + length nodes) g rest (executed + Z.of_nat (length nodes)) ∧
    represents d' (foldl (λ G x, insert_node x G) G (copies n nodes)).
Proof.
  intros HR Hok. revert d n G executed HR. induction Hok as [|x nodes [Hx Hw] _ IH]; intros d n G executed HR.
  - exists d. cbn. by rewrite Nat.add_0_r, Z.add_0_r.
  - destruct (import_node d n G x HR Hx Hw) as (d1 & output & Hrun & HR1).
    destruct (IH d1 (S n) _ (executed + 1) HR1) as (d' & Hrest & HR'). exists d'. split; [|exact HR'].
    cbn [fmap list_fmap app length]. rewrite (import_step _ _ _ _ _ _ _ _ _ (node_line_importable x Hx) (node_parses Uuid_fmt x Hx) Hrun), Hrest.
    f_equal; lia.
Qed.
Lemma import_edges edges d n G rest executed rename : represents d G → columns_free G →
  Forall (λ e, exportable_edge Uuid_fmt e = true ∧ ascending (edge_properties e).*1 = true ∧
    ∀ u, u = edge_source e ∨ u = edge_target e → ∃ x, only_copy G u x ∧ node_id x = rename u) edges →
  ∃ d', import_lines d n g ((edge_line <$> edges) ++ rest) executed =
      import_lines d' (n + 3 * length edges) g rest (executed + Z.of_nat (length edges)) ∧
    represents d' (foldl (λ G e, insert_edge e G) G (edge_copies n rename edges)).
Proof.
  intros HR Hfree Hok. revert d n G executed HR Hfree Hok. induction edges as [|e edges IH]; intros d n G executed HR Hfree Hok.
  - exists d. cbn. by rewrite Nat.add_0_r, Z.add_0_r.
  - apply Forall_cons in Hok as [(He & Ha & Hends) Hok].
    destruct (Hends (edge_source e)) as (x & Hx & Hxn); [by left|]. destruct (Hends (edge_target e)) as (y & Hy & Hyn); [by right|].
    destruct (import_edge d n G e x y HR Hfree He Ha Hx Hy) as (d1 & output & Hrun & HR1). rewrite Hxn, Hyn in HR1.
    destruct (IH d1 (S (S (S n))) _ (executed + 1) HR1 Hfree Hok) as (d' & Hrest & HR'). exists d'. split; [|exact HR'].
    cbn [fmap list_fmap app length]. rewrite (import_step _ _ _ _ _ _ _ _ _ (edge_line_importable e He) (edge_parses Uuid_fmt e He) Hrun), Hrest.
    f_equal; lia.
Qed.

(** The nodes of the target after the node lines are the copies. *)
Lemma has_node_foldl l G y : NoDup (node_key <$> l) →
  has_node (foldl (λ G x, insert_node x G) G l) y ↔ y ∈ l ∨ has_node G y ∧ node_key y ∉ node_key <$> l.
Proof.
  revert G. induction l as [|x l IH]; intros G; cbn [fmap list_fmap foldl]; [set_solver|]. intros [Hx Hl]%NoDup_cons.
  rewrite IH, has_node_insert by done. rewrite !elem_of_cons. split.
  - intros [Hin|[[->|[Hy Hne]] Hn]]; [tauto|tauto|]. right. split; [done|]. by intros [?|?].
  - intros [[->|Hin]|(Hy & Hn)]; [right; by split; [left|]|by left|]. right. split; [right; split; [done|]|]; intros ?; apply Hn; auto.
Qed.
Lemma copies_ids n nodes : node_id <$> copies n nodes = fresh_uuid <$> seq n (length nodes).
Proof. revert n. induction nodes as [|x nodes IH]; intros n; [done|]. cbn [copies fmap list_fmap length seq]. by rewrite IH. Qed.
Lemma copies_elem n nodes y : NoDup (node_id <$> nodes) →
  y ∈ copies n nodes ↔ ∃ x, x ∈ nodes ∧ y = copy_node (renamed n nodes (node_id x)) x.
Proof.
  revert n. induction nodes as [|x nodes IH]; intros n; [cbn; set_solver|]. cbn [fmap list_fmap copies]. intros [Hx Hn]%NoDup_cons.
  rewrite elem_of_cons, IH by done. cbn [renamed].
  assert (∀ z, z ∈ nodes → node_id x ≠ node_id z) as Hne by (intros z Hz Heq; apply Hx; rewrite Heq; by apply list_elem_of_fmap_2).
  split.
  - intros [->|(z & Hz & ->)]; [exists x|exists z].
    + split; [by left|by rewrite decide_True].
    + split; [by right|by rewrite decide_False by by apply Hne].
  - intros (z & [->|Hz]%elem_of_cons & ->); [left; by rewrite decide_True|]. right. exists z. by rewrite decide_False by by apply Hne.
Qed.
Lemma in_target_copies n nodes G : (∀ y, ¬ in_target G y) → NoDup (fresh_uuid <$> seq n (length nodes)) →
  ∀ y, in_target (foldl (λ G x, insert_node x G) G (copies n nodes)) y ↔ y ∈ copies n nodes.
Proof.
  intros Hempty Hnd y.
  assert (∀ z, z ∈ copies n nodes → node_graph_id z = g) as Hg.
  { clear. revert n. induction nodes as [|x nodes IH]; intros n z; cbn [copies]; [by intros Hz%elem_of_nil|].
    intros [->|Hz]%elem_of_cons; [done|by eapply IH]. }
  assert (NoDup (node_key <$> copies n nodes)) as Hkeys.
  { rewrite <- copies_ids in Hnd. apply NoDup_fmap_2_strong; [|by eapply NoDup_fmap_1].
    intros z1 z2 Hz1 Hz2 Heq. apply (f_equal snd) in Heq. cbn in Heq. clear -Hnd Hz1 Hz2 Heq.
    revert Hnd Hz1 Hz2. generalize (copies n nodes). intros l. induction l as [|z l IH]; [set_solver|]. cbn. intros [Hz Hl]%NoDup_cons.
    intros [->|Hz1]%elem_of_cons [->|Hz2]%elem_of_cons; [done| | |by apply IH].
    - destruct Hz. rewrite Heq. by apply list_elem_of_fmap_2.
    - destruct Hz. rewrite <- Heq. by apply list_elem_of_fmap_2. }
  unfold in_target at 1. rewrite has_node_foldl by done. split.
  - intros [[Hy|[Hy _]] Hyg]; [done|]. by destruct (Hempty y).
  - intros Hy. split; [by left|by apply Hg].
Qed.
Definition node_ok (x : Node) : Prop :=
  exportable_node Uuid_fmt x = true ∧ well_formed_node x = true ∧
  "a"%string ∉ (node_properties x).*1 ∧ "b"%string ∉ (node_properties x).*1.
Definition edge_ok (nodes : list Node) (e : Edge) : Prop :=
  exportable_edge Uuid_fmt e = true ∧ ascending (edge_properties e).*1 = true ∧
  edge_source e ∈ node_id <$> nodes ∧ edge_target e ∈ node_id <$> nodes.
Lemma copies_columns_free n nodes G : (∀ y, in_target G y ↔ y ∈ copies n nodes) → NoDup (node_id <$> nodes) → Forall node_ok nodes → columns_free G.
Proof.
  intros Hin Hnd Hok y k Hy%Hin Hk. apply copies_elem in Hy as (x & Hx & ->); [|done]. rewrite Forall_forall in Hok.
  destruct (Hok x Hx) as ([_ Hp]%andb_true_iff & _ & Ha & Hb). cbn [copy_node node_properties] in Hk.
  rewrite btree_insert_keys, elem_of_btree_set_insert in Hk. destruct Hk as [->|Hk]; [done|]. split; [|split; by intros ->].
  apply word_no_dot. apply list_elem_of_fmap in Hk as ([k' v] & -> & Hkv). apply list_elem_of_In, (proj1 (forallb_forall _ _) Hp) in Hkv.
  by apply andb_true_iff in Hkv as [? _].
Qed.
Lemma copies_only n nodes G x : (∀ y, in_target G y ↔ y ∈ copies n nodes) → NoDup (node_id <$> nodes) → x ∈ nodes →
  only_copy G (node_id x) (copy_node (renamed n nodes (node_id x)) x).
Proof.
  intros Hin Hnd Hx. split_and!; [apply Hin, copies_elem; [done|by exists x]|apply btree_get_insert_eq|].
  intros y Hy%Hin. apply copies_elem in Hy as (z & Hz & ->); [|done]. exists (node_id z). split; [apply btree_get_insert_eq|].
  intros Heq. assert (z = x) as ->; [|done]. clear -Hnd Hx Hz Heq. induction nodes as [|w nodes IH]; [by apply elem_of_nil in Hx|].
  apply NoDup_cons in Hnd as [Hw Hnd]. apply elem_of_cons in Hx as [->|Hx], Hz as [->|Hz]; [done| | |by apply IH].
  - destruct Hw. rewrite <- Heq. by apply (list_elem_of_fmap_2 node_id).
  - destruct Hw. rewrite Heq. by apply (list_elem_of_fmap_2 node_id).
Qed.
Lemma foldl_edges_nodes l G : g_nodes (foldl (λ G e, insert_edge e G) G l) = g_nodes G.
Proof. revert G. induction l as [|e l IH]; intros G; [done|]. cbn. by rewrite IH. Qed.
Lemma in_target_imported n nodes edges G y :
  in_target (imported n nodes edges G) y ↔ in_target (foldl (λ G x, insert_node x G) G (copies n nodes)) y.
Proof. unfold in_target, has_node, imported. by rewrite foldl_edges_nodes. Qed.
Lemma import_lines_graph nodes edges d n G : represents d G → (∀ y, ¬ in_target G y) → NoDup (fresh_uuid <$> seq n (length nodes)) →
  NoDup (node_id <$> nodes) → Forall node_ok nodes → Forall (edge_ok nodes) edges →
  ∃ d', import_lines d n g ((node_line <$> nodes) ++ (edge_line <$> edges)) 0 =
      (d', (n + length nodes + 3 * length edges)%nat, Ok (mkImportResponse (Z.of_nat (length nodes + length edges)) None)) ∧
    represents d' (imported n nodes edges G).
Proof.
  intros HR Hempty Hfresh Hnd Hn He. pose proof (in_target_copies n nodes G Hempty Hfresh) as Hin.
  destruct (import_nodes nodes d n G (edge_line <$> edges) 0 HR) as (d1 & Hrun1 & HR1); [by eapply Forall_impl; [exact Hn|intros x (? & ? & _)]|].
  destruct (import_edges edges d1 (n + length nodes) _ [] (0 + Z.of_nat (length nodes)) (renamed n nodes) HR1) as (d2 & Hrun2 & HR2).
  - by eapply copies_columns_free.
  - eapply Forall_impl; [exact He|]. intros e (Hx & Ha & Hs & Ht). split_and!; [done..|]. intros u Hu.
    assert (u ∈ node_id <$> nodes) as (x & -> & Hxn)%list_elem_of_fmap by by destruct Hu as [->| ->].
    eexists. split; [by eapply copies_only|done].
  - exists d2. split; [|exact HR2]. rewrite Hrun1. rewrite app_nil_r in Hrun2. rewrite Hrun2. cbn [import_lines]. do 3 f_equal; lia.
Qed.
End importing.

(** ** Export and import *)
Section round_trip.
Context `{RocksDBLaws db, BincodeLaws Node, BincodeLaws Edge, BincodeLaws GraphMeta, Bincode Value, Bincode IndexDefinition}.
Context `{Platform, Unicode, DebugFormat, EnvironmentLaws}.
#[local] Existing Instance gql_parser.
Implicit Types (d : db) (G : graph).

(** C3: Exporting a graph and importing the text gives a copy of the graph. Let the labels, property keys
    and edge labels of the graph be identifiers, its values be nulls, booleans, integers above
    -2^63, strings without quotes and line feeds, lists and maps of these, no node property be
    called a or b, and every edge have its ends. Run line by line on a graph without nodes, with
    UUIDs that do not repeat, the text executes one statement per node and edge without an error. The
    database then represents the target with, for each node, one node with the same labels and
    properties and its old identifier as _id, and for each edge one edge of the same label and
    properties between the copies of its ends. *)
Theorem export_import d0 G0 g0 nodes edges d n G default_graph_id graph_name :
  let g := resolve_graph_id default_graph_id graph_name in
  represents d0 G0 → scan_nodes d0 g0 = Ok nodes → scan_edges d0 g0 = Ok edges →
  Forall node_ok nodes → Forall (edge_ok nodes) edges →
  represents d G → (∀ y, ¬ in_target g G y) → NoDup (fresh_uuid <$> seq n (length nodes)) →
  ∃ lines d', export_graph Uuid_fmt f64_fmt date_fmt time_fmt datetime_fmt d0 g0 = Ok (lines, (length nodes + length edges)%nat) ∧
    import_graph default_graph_id d n graph_name (export_text lines) =
      (d', (n + length nodes + 3 * length edges)%nat, Ok (mkImportResponse (Z.of_nat (length nodes + length edges)) None)) ∧
    represents d' (imported g n nodes edges G) ∧
    ∀ y, in_target g (imported g n nodes edges G) y ↔ ∃ x, x ∈ nodes ∧ y = copy_node g (renamed n nodes (node_id x)) x.
Proof.
  intros g HR0 Hnodes Hedges Hn He HR Hempty Hfresh.
  assert (NoDup (node_id <$> nodes)) as Hnd.
  { destruct (scan_nodes_rep d0 G0 g0 HR0) as (l & Hl & Hin & Hsort). rewrite Hnodes in Hl. injection Hl as <-.
    apply NoDup_fmap_2_strong; [|eapply StronglySorted_NoDup, Hsort; intros z; apply bytes_lt_irrefl].
    intros x y [Hx Hxg]%Hin [Hy Hyg]%Hin Heq. apply (has_node_key G0); [done..|]. unfold node_key. congruence. }
  destruct (import_lines_graph g nodes edges d n G HR Hempty Hfresh Hnd Hn He) as (d' & Hrun & HR').
  eexists _, d'. split; [unfold export_graph; rewrite Hnodes, Hedges; cbn [mbind result_bind]; by rewrite length_app, !length_fmap|].
  split; [|split; [exact HR'|]].
  - unfold import_graph. rewrite lines_of_export; [exact Hrun|]. apply Forall_app. split; apply Forall_fmap.
    + eapply Forall_impl; [exact Hn|]. intros x (Hx & _). by apply node_line_importable.
    + eapply Forall_impl; [exact He|]. intros e (Hx & _). by apply edge_line_importable.
  - intros y. rewrite in_target_imported, (in_target_copies g n nodes G Hempty Hfresh). by apply copies_elem.
Qed.
End round_trip.

(** ** Samples *)
Section samples.
#[local] Existing Instances countable_bincode countable_bincode_laws dev_build dev_unicode plain_debug env1 env1_laws.
#[local] Existing Instance gql_parser.
Definition sample_exported_nodes : list Node := [sample_node Byte.x01 ["Person"%string]; sample_node Byte.x02 ["Person"; "Robot"]%string].
Definition sample_exported_edges : list Edge := [sample_edge Byte.x03 Byte.x01 Byte.x02; sample_edge Byte.x04 Byte.x01 Byte.x01].
Lemma export_import_witness : ∃ lines d',
  export_graph Uuid_fmt f64_fmt date_fmt time_fmt datetime_fmt sample_graph_db sample_g = Ok (lines, 4%nat) ∧
  import_graph other_graph sample_graph_db 20 EmptyString (export_text lines) = (d', 28%nat, Ok (mkImportResponse 4 None)) ∧
  represents d' (imported other_graph 20 sample_exported_nodes sample_exported_edges sample_graph).
Proof.
  destruct (export_import sample_graph_db sample_graph sample_g sample_exported_nodes sample_exported_edges sample_graph_db 20 sample_graph
    other_graph EmptyString) as (lines & d' & H1 & H2 & H3 & _).
  - exact sample_represents.
  - vm_compute. reflexivity.
  - vm_compute. reflexivity.
  - repeat constructor; try (vm_compute; reflexivity); apply (bool_decide_unpack _); vm_compute; exact I.
  - repeat constructor; try (vm_compute; reflexivity); apply (bool_decide_unpack _); vm_compute; exact I.
  - exact sample_represents.
  - intros y [[-> | ->]%sample_nodes Hg]; discriminate Hg.
  - apply (bool_decide_unpack _). vm_compute. exact I.
  - exists lines, d'. exact (conj H1 (conj H2 H3)).
Defined.
(** What stays behind: lines that do not parse back, and edges whose lines do not run *)
Definition reads (labels : list Label) (key : string) (v : Value) : bool :=
  is_ok (parse_query (export_node Uuid_fmt f64_fmt date_fmt time_fmt datetime_fmt (mkNode (sample_uuid Byte.x01) sample_g labels [(key, v)]))).
Definition self_loop_lines (key : string) : list string :=
  [export_node Uuid_fmt f64_fmt date_fmt time_fmt datetime_fmt (mkNode (sample_uuid Byte.x01) sample_g [] [(key, Integer 1)]);
   export_edge Uuid_fmt f64_fmt date_fmt time_fmt datetime_fmt (sample_edge Byte.x04 Byte.x01 Byte.x01)].
Definition import_answer (lines : list string) : may_panic string ImportResponse :=
  (import_graph other_graph sample_graph_db 20 EmptyString (export_text lines)).2.
(** The conditions of [export_import] are needed. The smallest integer, dates, times, durations and bytes, strings with a
    quote, labels that are keywords and keys that are not identifiers are exported as text
    that does not parse. When a node has a property called b, the match of an edge line finds that column
    instead of its variable, and the import stops. *)
Theorem import_limits :
  reads ["Person"%string] "x" (Integer (i64_min + 1)) = true ∧ reads ["Person"%string] "x" (Integer i64_min) = false ∧
  reads ["Person"%string] "x" (Date 0) = false ∧ reads ["Person"%string] "x" (DurationV Duration_zero) = false ∧
  reads ["Person"%string] "x" (Bytes [Byte.x01]) = false ∧ reads ["Person"%string] "x" (Str "it's") = false ∧
  reads ["Order"%string] "x" Null = false ∧ reads ["Person"%string] "a key" Null = false ∧
  import_answer (self_loop_lines "x") = Ok (mkImportResponse 2 None) ∧
  import_answer (self_loop_lines "b") = Ok (mkImportResponse 1
    (Some "execution error at statement 2: internal error: cannot resolve target node from variable 'b'"%string)).
Proof. split_and!; vm_compute; reflexivity. Qed.
End samples.
