(* ===== verification/Stream.v ===== *)
(** * Streaming an export (synaptica-server: client_service.rs, export_graph)

    The text of an export is sent in pieces of 64 KB, cut between any two bytes; each piece is made a
    string by itself, with [String::from_utf8_lossy] of the standard library, which is modelled here. *)
From S2P Require Import Prelude Types Rocks Encoding Engine Index LogStore Lexer F64 Text Records Ast Expression Debug Relational Planner Grouping Executor Execution Service Parser Printing RoundTrip Export Import.
From Stdlib Require Import Ascii.

(** ** [String::from_utf8_lossy] *)
(** U+FFFD *)
Definition REPLACEMENT : bytes := [Byte.xef; Byte.xbf; Byte.xbd].
(** Whether two bytes can begin a character of three, or four, bytes *)
Definition starts_three (b0 b1 : byte) : bool :=
  utf8_cont b1 && (negb (bval b0 =? 224) || (160 <=? bval b1)) && (negb (bval b0 =? 237) || (bval b1 <=? 159)).
Definition starts_four (b0 b1 : byte) : bool :=
  utf8_cont b1 && (negb (bval b0 =? 240) || (144 <=? bval b1)) && (negb (bval b0 =? 244) || (bval b1 <=? 143)).
(** A byte that begins no character, or the longest beginning of one that does not go on, gives one U+FFFD. *)
Fixpoint from_utf8_lossy (l : bytes) : bytes :=
  match l with
  | [] => []
  | b0 :: l1 =>
      let z := bval b0 in
      if z <? 128 then b0 :: from_utf8_lossy l1
      else match l1 with
      | [] => REPLACEMENT
      | b1 :: l2 =>
          if (194 <=? z) && (z <=? 223) then
            if utf8_cont b1 then b0 :: b1 :: from_utf8_lossy l2 else REPLACEMENT ++ from_utf8_lossy l1
          else if (224 <=? z) && (z <=? 239) then
            if starts_three b0 b1 then
              match l2 with
              | [] => REPLACEMENT
              | b2 :: l3 => if utf8_cont b2 then b0 :: b1 :: b2 :: from_utf8_lossy l3 else REPLACEMENT ++ from_utf8_lossy l2
              end
            else REPLACEMENT ++ from_utf8_lossy l1
          else if (240 <=? z) && (z <=? 244) then
            if starts_four b0 b1 then
              match l2 with
              | [] => REPLACEMENT
              | b2 :: l3 =>
                  if utf8_cont b2 then
                    match l3 with
                    | [] => REPLACEMENT
                    | b3 :: l4 => if utf8_cont b3 then b0 :: b1 :: b2 :: b3 :: from_utf8_lossy l4 else REPLACEMENT ++ from_utf8_lossy l3
                    end
                  else REPLACEMENT ++ from_utf8_lossy l2
              end
            else REPLACEMENT ++ from_utf8_lossy l1
          else REPLACEMENT ++ from_utf8_lossy l1
      end
  end.

(** ** The stream *)
Definition EXPORT_CHUNK : nat := Z.to_nat 65536.
(** What is sent: pieces of the text, or one error *)
Definition export_chunks (buf : bytes) : list bytes :=
  let data := from_utf8_lossy buf in
  from_utf8_lossy <$> chunks (length data) EXPORT_CHUNK data.
Section export.
Context `{RocksDB db, Bincode Node, Bincode Edge, Bincode GraphMeta}.
Context `{Platform, Unicode, DebugFormat, Environment}.
Variable default_graph_id : GraphId.
Definition rpc_export_graph (d : db) (graph_name : string) : list (result string string) :=
  match export_graph Uuid_fmt f64_fmt date_fmt time_fmt datetime_fmt d (resolve_graph_id default_graph_id graph_name) with
  | Ok (lines, _) => (λ c, Ok (str_of_bytes c)) <$> export_chunks (str_bytes (export_text lines))
  | Err e => [Err ("export failed: " +:+ StorageError_fmt e)]
  end.
(** What a client that reads to the end of the stream has: the pieces before an error *)
Fixpoint received (stream : list (result string string)) : string :=
  match stream with Ok c :: rest => c +:+ received rest | _ => EmptyString end.
End export.

(** ** Lossy reading *)
Lemma lossy_valid l : utf8_valid l = true → from_utf8_lossy l = l.
Proof.
  remember (length l) as n eqn:Hn. revert l Hn. induction (lt_wf n) as [n _ IH]. intros l -> Hv.
  assert (∀ l', (length l' < length l)%nat → utf8_valid l' = true → from_utf8_lossy l' = l') as IH' by (intros l' Hlt; by eapply IH).
  clear IH. destruct l as [|b0 l1]; [done|]. cbn [utf8_valid from_utf8_lossy length] in *. cbv zeta in *.
  destruct (bval b0 <? 128) eqn:E0; [by rewrite IH' by (done || lia)|].
  destruct l1 as [|b1 l2]; [done|]. cbn [length] in *.
  destruct ((194 <=? bval b0) && (bval b0 <=? 223)) eqn:E1.
  { apply andb_true_iff in Hv as [-> Hv]. by rewrite IH' by (done || lia). }
  destruct l2 as [|b2 l3]; [done|]. cbn [length] in *. unfold starts_three, starts_four.
  destruct ((224 <=? bval b0) && (bval b0 <=? 239)) eqn:E2.
  { rewrite !andb_true_iff in Hv. destruct Hv as [[[[-> ->] ->] ->] Hv]. cbn [andb]. by rewrite IH' by (done || lia). }
  destruct l3 as [|b3 l4]; [done|]. cbn [length] in *.
  rewrite !andb_true_iff in Hv. destruct Hv as [[[[[[[Ha Hb] ->] ->] ->] ->] ->] Hv]. rewrite Ha, Hb. cbn [andb].
  by rewrite IH' by (done || lia).
Qed.
Lemma lossy_step b0 l1 : from_utf8_lossy (b0 :: l1) =
      let z := bval b0 in
      if z <? 128 then b0 :: from_utf8_lossy l1
      else match l1 with
      | [] => REPLACEMENT
      | b1 :: l2 =>
          if (194 <=? z) && (z <=? 223) then
            if utf8_cont b1 then b0 :: b1 :: from_utf8_lossy l2 else REPLACEMENT ++ from_utf8_lossy l1
          else if (224 <=? z) && (z <=? 239) then
            if starts_three b0 b1 then
              match l2 with
              | [] => REPLACEMENT
              | b2 :: l3 => if utf8_cont b2 then b0 :: b1 :: b2 :: from_utf8_lossy l3 else REPLACEMENT ++ from_utf8_lossy l2
              end
            else REPLACEMENT ++ from_utf8_lossy l1
          else if (240 <=? z) && (z <=? 244) then
            if starts_four b0 b1 then
              match l2 with
              | [] => REPLACEMENT
              | b2 :: l3 =>
                  if utf8_cont b2 then
                    match l3 with
                    | [] => REPLACEMENT
                    | b3 :: l4 => if utf8_cont b3 then b0 :: b1 :: b2 :: b3 :: from_utf8_lossy l4 else REPLACEMENT ++ from_utf8_lossy l3
                    end
                  else REPLACEMENT ++ from_utf8_lossy l2
              end
            else REPLACEMENT ++ from_utf8_lossy l1
          else REPLACEMENT ++ from_utf8_lossy l1
      end.
Proof. reflexivity. Qed.
Lemma lossy_length l : (length l ≤ length (from_utf8_lossy l))%nat.
Proof.
  remember (length l) as n eqn:Hn. revert l Hn. induction (lt_wf n) as [n _ IH]. intros l ->.
  assert (∀ l', (length l' < length l)%nat → (length l' ≤ length (from_utf8_lossy l'))%nat) as IH' by (intros l' Hlt; by eapply IH).
  clear IH. destruct l as [|b0 l1]; [done|]. rewrite lossy_step. pose proof (IH' l1) as H1. cbn [length] in *.
  destruct (bval b0 <? 128); [cbn [length]; lia|]. destruct l1 as [|b1 l2]; [cbn; lia|]. pose proof (IH' l2) as H2.
  destruct l2 as [|b2 l3]; [|pose proof (IH' l3) as H3; destruct l3 as [|b3 l4]; [|pose proof (IH' l4) as H4]]; clear IH'; cbn [length] in *;
    repeat match goal with |- context [if ?b then _ else _] => destruct b end; rewrite ?length_app; unfold REPLACEMENT; cbn [length]; lia.
Qed.
Lemma cont_range b : utf8_cont b = true → 128 ≤ bval b ≤ 191.
Proof. unfold utf8_cont. lia. Qed.
Lemma lossy_cont b l : utf8_cont b = true → (length (b :: l) < length (from_utf8_lossy (b :: l)))%nat.
Proof.
  intros Hb%cont_range. pose proof (lossy_length l) as Hl. rewrite lossy_step. cbv zeta.
  rewrite (proj2 (Z.ltb_ge (bval b) 128)), (proj2 (Z.leb_gt 194 (bval b))), (proj2 (Z.leb_gt 224 (bval b))), (proj2 (Z.leb_gt 240 (bval b))) by lia. cbn [andb].
  destruct l as [|b1 l2]; [unfold REPLACEMENT; cbn [length]; lia|]. rewrite length_app. unfold REPLACEMENT. cbn [length] in *. lia.
Qed.
(** Where a character does not go on, well-formed bytes can be cut. *)
Definition cut (l : bytes) : bool := match l with b :: _ => negb (utf8_cont b) | [] => true end.
Lemma valid_cut a b : utf8_valid (a ++ b) = true → cut b = true → utf8_valid a = true.
Proof.
  remember (length a) as n eqn:Hn. revert a Hn. induction (lt_wf n) as [n _ IH]. intros a -> Hv Hc.
  assert (∀ a', (length a' < length a)%nat → utf8_valid (a' ++ b) = true → utf8_valid a' = true) as IH' by (intros a' Hlt Ha; by eapply IH).
  clear IH. destruct a as [|b0 l1]; [done|]. cbn [utf8_valid app length] in *. cbv zeta in *.
  destruct (bval b0 <? 128) eqn:E0; [by apply IH'; [lia|]|].
  assert (∀ x l, b = x :: l → utf8_cont x = true → False) as Hno by (intros x l -> Hx; cbn in Hc; by rewrite Hx in Hc).
  destruct l1 as [|b1 l2]; cbn [app length] in *.
  { destruct b as [|b1 l2]; [done|]. exfalso. apply (Hno b1 l2 eq_refl). repeat case_match; rewrite ?andb_true_iff in *; naive_solver. }
  destruct ((194 <=? bval b0) && (bval b0 <=? 223)) eqn:E1.
  { apply andb_true_iff in Hv as [-> Hv]. apply IH'; [lia|done]. }
  destruct l2 as [|b2 l3]; cbn [app length] in *.
  { destruct b as [|b2 l3]; [done|]. exfalso. apply (Hno b2 l3 eq_refl). repeat case_match; rewrite ?andb_true_iff in *; naive_solver. }
  destruct ((224 <=? bval b0) && (bval b0 <=? 239)) eqn:E2.
  { rewrite andb_true_iff in Hv. destruct Hv as [-> Hv]. apply IH'; [lia|done]. }
  destruct l3 as [|b3 l4]; cbn [app length] in *.
  { destruct b as [|b3 l4]; [done|]. exfalso. apply (Hno b3 l4 eq_refl). rewrite !andb_true_iff in Hv. naive_solver. }
  rewrite andb_true_iff in Hv. destruct Hv as [-> Hv]. apply IH'; [lia|done].
Qed.

(** ** Chunks *)
Lemma chunks_lossy fuel size data : (0 < size)%nat → (length data ≤ fuel)%nat → utf8_valid data = true →
  (length data ≤ length (concat (from_utf8_lossy <$> chunks fuel size data)))%nat ∧
  (Forall (λ c, cut c = true) (chunks fuel size data) → from_utf8_lossy <$> chunks fuel size data = chunks fuel size data).
Proof.
  intros Hs Hl Hv. split.
  - rewrite <- (chunks_concat fuel size data) at 1 by done. generalize (chunks fuel size data) as cs. clear. induction cs as [|c cs IH]; [done|].
    cbn [concat fmap list_fmap]. rewrite !length_app. pose proof (lossy_length c). lia.
  - revert data Hl Hv. induction fuel as [|fuel IH]; intros [|b l] Hl Hv; try done. cbn [chunks fmap list_fmap]. intros [_ Hcs]%Forall_cons.
    set (data := b :: l) in *. assert (length (drop size data) ≤ fuel)%nat as Hd by (rewrite length_drop; unfold data in *; cbn [length] in *; lia).
    assert (cut (drop size data) = true) as Hcut.
    { destruct (drop size data) as [|b' l'] eqn:E; [done|]. destruct fuel as [|fuel]; [cbn in Hd; lia|].
      cbn [chunks] in Hcs. apply Forall_cons in Hcs as [Hc _]. destruct size; [lia|exact Hc]. }
    assert (utf8_valid (take size data) = true) as Ht by (apply (valid_cut _ (drop size data)); [by rewrite take_drop|done]).
    f_equal; [by apply lossy_valid|]. apply IH; [done| |done]. by rewrite <- (utf8_valid_app (take size data)), take_drop.
Qed.
(** A piece that begins inside a character makes the text longer. *)
Lemma chunks_torn fuel size data c : (0 < size)%nat → (length data ≤ fuel)%nat → c ∈ chunks fuel size data → cut c = false →
  (length data < length (concat (from_utf8_lossy <$> chunks fuel size data)))%nat.
Proof.
  intros Hs Hl Hin Hc. rewrite <- (chunks_concat fuel size data) at 1 by done. revert Hin. generalize (chunks fuel size data) as cs. clear -Hc.
  induction cs as [|c' cs IH]; [by intros ?%elem_of_nil|]. cbn [concat fmap list_fmap]. rewrite !length_app. intros [<-|Hin]%elem_of_cons.
  - destruct c as [|b c]; [done|]. apply negb_false_iff in Hc. pose proof (lossy_cont b c Hc).
    enough (length (concat cs) ≤ length (concat (from_utf8_lossy <$> cs)))%nat by lia. clear. induction cs as [|c cs IH]; [done|].
    cbn [concat fmap list_fmap]. rewrite !length_app. pose proof (lossy_length c). lia.
  - pose proof (lossy_length c'). apply IH in Hin. lia.
Qed.
Lemma chunks_cuts fuel size data : (0 < size)%nat → (length data ≤ fuel)%nat →
  Forall (λ c, cut c = true) (chunks fuel size data) ↔ ∀ i, cut (drop (i * size) data) = true.
Proof.
  intros Hs Hl. assert (∀ l, cut (take size l) = cut l) as Hcut by (intros [|b l]; destruct size; done || lia). rewrite Forall_lookup. split.
  - intros Hf i. destruct (decide (i * size < length data)%nat) as [Hi|Hi]; [|by rewrite drop_ge by lia].
    destruct (chunks_length fuel size data i Hs Hl Hi) as [c Hc]. pose proof (Hf i c Hc) as H1. apply chunks_nth in Hc as [-> _]; [|done..].
    by rewrite Hcut in H1.
  - intros Hf i c Hc. apply chunks_nth in Hc as [-> _]; [|done..]. by rewrite Hcut.
Qed.
Lemma EXPORT_CHUNK_pos : (0 < EXPORT_CHUNK)%nat.
Proof. apply Nat.ltb_lt. vm_compute. reflexivity. Qed.
Lemma export_chunks_whole buf : utf8_valid buf = true →
  ((∀ i, cut (drop (i * EXPORT_CHUNK) buf) = true) → concat (export_chunks buf) = buf) ∧
  (∀ i, cut (drop (i * EXPORT_CHUNK) buf) = false → (length buf < length (concat (export_chunks buf)))%nat).
Proof.
  intros Hv. pose proof EXPORT_CHUNK_pos as Hs. unfold export_chunks. rewrite lossy_valid by done.
  pose proof (chunks_cuts (length buf) EXPORT_CHUNK buf Hs (le_n _)) as Hcuts. split.
  - intros Hall. rewrite (proj2 (chunks_lossy _ _ buf Hs (le_n _) Hv)); [by apply chunks_concat|by apply Hcuts].
  - intros i Hi. destruct (decide (Forall (λ c, cut c = true) (chunks (length buf) EXPORT_CHUNK buf))) as [Hf|Hf].
    + rewrite (proj1 Hcuts Hf i) in Hi. done.
    + apply not_Forall_Exists, Exists_exists in Hf as (c & Hc & Hcc); [|apply _]. apply (chunks_torn _ _ _ c); try done.
      by apply not_true_is_false.
Qed.

(** ** Exports received *)
Lemma received_chunks cs : str_bytes (received ((λ c, Ok (str_of_bytes c)) <$> cs)) = concat cs.
Proof. induction cs as [|c cs IH]; [done|]. cbn [fmap list_fmap received concat]. by rewrite str_bytes_app, str_bytes_str_of_bytes, <- IH. Qed.
Lemma valid_first data : utf8_valid data = true → cut data = true.
Proof.
  destruct data as [|b l]; [done|]. cbn [utf8_valid cut]. cbv zeta. destruct (utf8_cont b) eqn:E; [|done]. apply cont_range in E.
  rewrite (proj2 (Z.ltb_ge (bval b) 128)), (proj2 (Z.leb_gt 194 (bval b))), (proj2 (Z.leb_gt 224 (bval b))), (proj2 (Z.leb_gt 240 (bval b))) by lia.
  cbn [andb]. by destruct l as [|? [|? [|? ?]]].
Qed.
Section exports.
Context `{RocksDB db, Bincode Node, Bincode Edge, Bincode GraphMeta}.
Context `{Platform, Unicode, DebugFormat, Environment}.

(** An export of at most 64 KB arrives as it was written. A longer one is cut every 65536 bytes, wherever
    that is: it arrives as it was written exactly when no cut falls inside a character, and with one
    cut that does the text received is another, and longer. *)
Theorem export_arrives default_graph_id (d : db) graph_name lines n :
  export_graph Uuid_fmt f64_fmt date_fmt time_fmt datetime_fmt d (resolve_graph_id default_graph_id graph_name) = Ok (lines, n) →
  utf8_valid (str_bytes (export_text lines)) = true →
  let text := export_text lines in
  let got := received (rpc_export_graph default_graph_id d graph_name) in
  ((str_len text ≤ EXPORT_CHUNK)%nat → got = text) ∧
  (got = text ↔ ∀ i, cut (drop (i * EXPORT_CHUNK) (str_bytes text)) = true) ∧
  (∀ i, cut (drop (i * EXPORT_CHUNK) (str_bytes text)) = false → (str_len text < str_len got)%nat).
Proof.
  intros He Hv text got. destruct (export_chunks_whole (str_bytes text) Hv) as [Hok Htorn].
  assert (str_bytes got = concat (export_chunks (str_bytes text))) as Hg by (unfold got, rpc_export_graph; rewrite He; apply received_chunks).
  assert ((∀ i, cut (drop (i * EXPORT_CHUNK) (str_bytes text)) = true) → got = text) as Hwhole by (intros Hall; apply str_bytes_inj; rewrite Hg; by apply Hok).
  unfold str_len. rewrite Hg. split_and!; [|split; [|exact Hwhole]|exact Htorn].
  - intros Hl. apply Hwhole. intros [|i]; [by apply valid_first|]. rewrite drop_ge; [done|]. revert Hl. generalize EXPORT_CHUNK. nia.
  - intros Heq i. destruct (cut _) eqn:E; [done|]. apply Htorn in E. rewrite <- Hg, Heq in E. lia.
Qed.
End exports.

(** ** Samples *)
Section samples.
#[local] Existing Instances countable_bincode countable_bincode_laws dev_build dev_unicode plain_debug env1 env1_laws.
Lemma export_arrives_witness : utf8_valid (str_bytes (received (rpc_export_graph sample_g sample_graph_db EmptyString))) = true.
Proof.
  assert (∃ lines n, export_graph Uuid_fmt f64_fmt date_fmt time_fmt datetime_fmt sample_graph_db (resolve_graph_id sample_g EmptyString) = Ok (lines, n) ∧
    utf8_valid (str_bytes (export_text lines)) = true ∧ bool_decide (str_len (export_text lines) ≤ EXPORT_CHUNK)%nat = true) as (lines & n & He & Hv & Hl).
  { set (r := export_graph Uuid_fmt f64_fmt date_fmt time_fmt datetime_fmt sample_graph_db (resolve_graph_id sample_g EmptyString)).
    exists (match r with Ok (l, _) => l | Err _ => [] end), 4%nat. split_and!; vm_compute; reflexivity. }
  rewrite (proj1 (export_arrives sample_g sample_graph_db EmptyString lines n He Hv) (bool_decide_eq_true_1 _ Hl)). exact Hv.
Defined.
(** A character of two bytes across the cut *)
Definition torn : bytes := replicate (EXPORT_CHUNK - 1) Byte.x61 ++ [Byte.xc3; Byte.xa9].
Example torn_character : utf8_valid torn = true ∧ bool_decide (concat (export_chunks torn) = torn) = false ∧
  bool_decide (concat (export_chunks torn) = replicate (EXPORT_CHUNK - 1) Byte.x61 ++ REPLACEMENT ++ REPLACEMENT) = true.
Proof. vm_compute. done. Qed.
Example lossy_samples :
  from_utf8_lossy [Byte.xe2; Byte.x82; Byte.x41] = REPLACEMENT ++ [Byte.x41] ∧
  from_utf8_lossy [Byte.xed; Byte.xa0; Byte.x80] = REPLACEMENT ++ REPLACEMENT ++ REPLACEMENT ∧
  from_utf8_lossy [Byte.xf0; Byte.x9f; Byte.x98; Byte.x41] = REPLACEMENT ++ [Byte.x41].
Proof. vm_compute. done. Qed.
End samples.
