(* ===== verification/Server.v ===== *)
(** * Starting and guarding a server (synaptica-server: config.rs, main.rs, auth.rs, node.rs)

    The configuration and what the command line overrides, the peers of a cluster member, the
    bearer-token check in front of the client port, and the state a node starts with. Reading the
    file and its TOML, sockets and TLS are I/O; the text of a header is http's, the class
    [HeaderText]. *)
From Stdlib Require Import Ascii.
From S2P Require Import Prelude Types Rocks Encoding Engine Lexer Text.

(** ** config.rs *)
Record PeerConfig := mkPeerConfig { peer_node_id : Z; peer_address : string }.
Record ClusterConfig := mkClusterConfig { cc_node_id : Z; cc_peers : list PeerConfig; cc_cluster_addr : string }.
Record TlsConfig := mkTlsConfig { cert_path : string; key_path : string; ca_cert_path : option string }.
Record AuthConfig := mkAuthConfig { auth_enabled : bool; auth_tokens : list string }.
Record ServerConfig := mkServerConfig {
  listen_addr : string; data_dir : string; default_graph : string; cluster : option ClusterConfig;
  log_level : string; metrics_enabled : bool; metrics_addr : string;
  tls : option TlsConfig; auth : option AuthConfig
}.
Definition default_log_level : string := "info".
Definition default_metrics_enabled : bool := true.
Definition default_metrics_addr : string := "0.0.0.0:9091".
Definition ServerConfig_default : ServerConfig :=
  mkServerConfig "0.0.0.0:9090" "./data" "default" None default_log_level default_metrics_enabled default_metrics_addr None None.
Definition validate (config : ServerConfig) : result string unit :=
  match auth config with
  | Some a =>
      if auth_enabled a && bool_decide (auth_tokens a = []) then
        Err "auth is enabled but no tokens are configured; add at least one token or disable auth"%string
      else Ok tt
  | None => Ok tt
  end.
(** [toml_from_str] is the toml crate; [contents] the file, if it can be read. *)
Definition from_file (toml_from_str : string → result string ServerConfig) (contents : result string string) : result string ServerConfig :=
  s ← contents; config ← toml_from_str s; _ ← validate config; Ok config.

(** ** main.rs: the command line over the configuration *)
Record Cli := mkCli {
  cli_config : option string; cli_listen : option string; cli_data_dir : option string; cli_ui_dir : option string;
  cli_ui_addr : string; cli_node_id : option Z; cli_cluster_addr : option string; cli_peer : list string
}.
Definition apply_cli (cli : Cli) (config : ServerConfig) : ServerConfig :=
  mkServerConfig (default (listen_addr config) (cli_listen cli)) (default (data_dir config) (cli_data_dir cli))
    (default_graph config) (cluster config) (log_level config) (metrics_enabled config) (metrics_addr config)
    (tls config) (auth config).
Definition load_config (toml_from_str : string → result string ServerConfig) (read_file : string → result string string)
    (cli : Cli) : result string ServerConfig :=
  config ← match cli_config cli with
           | Some path => from_file toml_from_str (read_file path)
           | None => Ok ServerConfig_default
           end;
  Ok (apply_cli cli config).
Definition cluster_mode (cli : Cli) (config : ServerConfig) : bool :=
  bool_decide (is_Some (cluster config)) || bool_decide (is_Some (cli_node_id cli))
  || bool_decide (is_Some (cli_cluster_addr cli)) || negb (bool_decide (cli_peer cli = [])).
Definition effective_node_id (cli : Cli) (config : ServerConfig) : Z :=
  match cli_node_id cli with
  | Some id => id
  | None => default 1 (cc_node_id <$> cluster config)
  end.
Definition effective_cluster_addr (cli : Cli) (config : ServerConfig) : string :=
  match cli_cluster_addr cli with
  | Some addr => addr
  | None => default "0.0.0.0:9191"%string (cc_cluster_addr <$> cluster config)
  end.
(** [str::split_once] at the first equals sign *)
Definition equals_sign : Ascii.ascii := Ascii.ascii_of_nat 61.
Fixpoint split_once (s : string) : option (string * string) :=
  match s with
  | EmptyString => None
  | String c s' => if Ascii.eqb c equals_sign then Some (EmptyString, s') else prod_map (String c) id <$> split_once s'
  end.
(** [str::parse] of a u64: a plus sign is allowed, a minus sign is not *)
Definition str_parse_u64 (s : text) : option Z :=
  let ds := match s with c :: s' => if c =? chr "+"%char then s' else s | [] => [] end in
  n ← parse_digits ds;
  if n <=? u64_max then Some n else None.
Definition parse_peer (peer_str : string) : option (Z * string) :=
  '(id_str, addr) ← split_once peer_str;
  id ← str_parse_u64 (chars id_str);
  Some (id, addr).
(** Peers of the command line that parse, then those of the file whose identifiers are new *)
Definition push_config_peer (peers : list (Z * string)) (peer : PeerConfig) : list (Z * string) :=
  if existsb (λ p, p.1 =? peer_node_id peer) peers then peers
  else peers ++ [(peer_node_id peer, peer_address peer)].
Definition peer_list (cli : Cli) (config : ServerConfig) : list (Z * string) :=
  let peers := omap parse_peer (cli_peer cli) in
  match cluster config with
  | Some cluster_config => foldl push_config_peer peers (cc_peers cluster_config)
  | None => peers
  end.

(** The content type of a file of the UI, by its extension *)
Definition guess_content_type (extension : option string) : string :=
  match extension with
  | Some e =>
      if String.eqb e "html" then "text/html"
      else if String.eqb e "js" || String.eqb e "mjs" then "application/javascript"
      else if String.eqb e "css" then "text/css"
      else if String.eqb e "json" then "application/json"
      else if String.eqb e "png" then "image/png"
      else if String.eqb e "svg" then "image/svg+xml"
      else if String.eqb e "ico" then "image/x-icon"
      else if String.eqb e "woff2" then "font/woff2"
      else if String.eqb e "woff" then "font/woff"
      else if String.eqb e "wasm" then "application/wasm"
      else "application/octet-stream"
  | None => "application/octet-stream"
  end%string.

(** ** auth.rs *)
Definition constant_time_eq (a b : bytes) : bool :=
  if negb (length a =? length b)%nat then false
  else foldl (λ diff '(x, y), Z.lor diff (Z.lxor (bval x) (bval y))) 0 (zip a b) =? 0.
(** [HeaderValue::to_str] of the http crate: the text of a header of visible ASCII characters *)
Class HeaderText : Type := { to_str : bytes → option string }.
Definition visible_ascii (b : byte) : Prop := 32 ≤ bval b < 127.
Class HeaderTextLaws `{HeaderText} : Prop := {
  to_str_bytes v s : to_str v = Some s → str_bytes s = v;
  to_str_visible s : Forall visible_ascii (str_bytes s) → to_str (str_bytes s) = Some s
}.
Fixpoint strip_prefix (prefix s : string) : option string :=
  match prefix, s with
  | EmptyString, _ => Some s
  | String c prefix', String c' s' => if Ascii.eqb c c' then strip_prefix prefix' s' else None
  | String _ _, EmptyString => None
  end.
Definition unauthenticated : string := "invalid or missing bearer token".
(** [authorization] is the value of that header, if the request has one. *)
Definition bearer_token `{HeaderText} (authorization : option bytes) : option string :=
  v ← authorization; s ← to_str v; strip_prefix "Bearer " s.
Definition intercept `{HeaderText} (config : option AuthConfig) (authorization : option bytes) : result string unit :=
  match config with
  | Some c =>
      if auth_enabled c then
        match bearer_token authorization with
        | Some t =>
            if existsb (λ valid, constant_time_eq (str_bytes t) (str_bytes valid)) (auth_tokens c) then Ok tt
            else Err unauthenticated
        | None => Err unauthenticated
        end
      else Ok tt
  | None => Ok tt
  end.

(** ** The bearer-token check *)
Lemma or_differences_zero l d : 0 ≤ d →
  foldl (λ diff '(x, y), Z.lor diff (Z.lxor (bval x) (bval y))) d l = 0 ↔ d = 0 ∧ Forall (λ p, p.1 = p.2) l.
Proof.
  revert d. induction l as [|[x y] l IH]; intros d Hd; cbn; [by split; [intros ->|intros [-> _]]|].
  pose proof (bval_range x). pose proof (bval_range y).
  rewrite IH, Forall_cons, Z.lor_eq_0_iff, Z.lxor_eq_0_iff by (apply Z.lor_nonneg; split; [done|]; apply Z.lxor_nonneg; lia).
  cbn. split; [intros [[-> Hxy] Hl]|intros (-> & -> & Hl)]; split_and!; try done. by apply bval_inj.
Qed.
Lemma constant_time_eq_spec a b : constant_time_eq a b = true ↔ a = b.
Proof.
  unfold constant_time_eq. destruct (Nat.eqb_spec (length a) (length b)) as [Hl|Hl]; cbn; [|by split; [|intros ->]].
  rewrite Z.eqb_eq, or_differences_zero by done. split; [intros [_ H]|intros ->].
  - revert b Hl H. induction a as [|x a IH]; intros [|y b] Hl H; try done.
    cbn in H. apply Forall_cons in H as [Hxy H]. cbn in Hxy. subst. f_equal. apply IH; [by injection Hl|done].
  - split; [done|]. clear. induction b as [|y b IH]; [constructor|]. by constructor.
Qed.
Lemma existsb_token t tokens :
  existsb (λ valid, constant_time_eq (str_bytes t) (str_bytes valid)) tokens = true ↔ t ∈ tokens.
Proof.
  rewrite existsb_exists. split.
  - intros (v & Hv & Ht). apply constant_time_eq_spec, str_bytes_inj in Ht. subst. by apply list_elem_of_In.
  - intros Ht. exists t. split; [by apply list_elem_of_In|]. by apply constant_time_eq_spec.
Qed.
Lemma strip_prefix_spec p s t : strip_prefix p s = Some t ↔ s = p +:+ t.
Proof.
  revert s. induction p as [|c p IH]; intros s; cbn; [split; [by intros [= ->]|by intros ->]|].
  destruct s as [|c' s]; [done|]. destruct (Ascii.eqb_spec c c') as [->|Hc]; [|split; [done|by intros [= -> _]]].
  rewrite IH. split; [by intros ->|by intros [= ->]].
Qed.
Lemma bearer_token_spec `{HeaderTextLaws} authorization t :
  bearer_token authorization = Some t → authorization = Some (str_bytes ("Bearer " +:+ t)).
Proof.
  unfold bearer_token. destruct authorization as [v|]; [|done]. cbn [mbind option_bind].
  destruct (to_str v) as [s|] eqn:Hs; [|done]. cbn [mbind option_bind].
  intros ->%strip_prefix_spec. by rewrite (to_str_bytes _ _ Hs).
Qed.
Lemma bearer_token_visible `{HeaderTextLaws} t : Forall visible_ascii (str_bytes t) →
  bearer_token (Some (str_bytes ("Bearer " +:+ t))) = Some t.
Proof.
  intros Ht. unfold bearer_token. cbn [mbind option_bind]. rewrite to_str_visible.
  - by apply strip_prefix_spec.
  - change (str_bytes ("Bearer " +:+ t)) with (str_bytes "Bearer " ++ str_bytes t). apply Forall_app. split; [|done].
    repeat constructor; cbn; lia.
Qed.

(** C35: The bearer-token check is exact. With authentication off every request passes. With authentication
    on a request passes only if its authorization header is, byte by byte, the word Bearer, one blank
    and a configured token, and every configured token of visible ASCII characters passes so; all
    other requests get the same error, whatever made them fail. A configuration loaded from a file
    never has authentication on without a token. *)
Theorem auth_exact `{HeaderTextLaws} config authorization :
  (intercept config authorization = Ok tt ∨ intercept config authorization = Err unauthenticated) ∧
  ((∀ c, config = Some c → auth_enabled c = false) → intercept config authorization = Ok tt) ∧
  (∀ c, config = Some c → auth_enabled c = true → intercept config authorization = Ok tt →
     ∃ t, t ∈ auth_tokens c ∧ authorization = Some (str_bytes ("Bearer " +:+ t))) ∧
  (∀ c t, config = Some c → t ∈ auth_tokens c → Forall visible_ascii (str_bytes t) →
     intercept config (Some (str_bytes ("Bearer " +:+ t))) = Ok tt) ∧
  (∀ toml contents loaded c, from_file toml contents = Ok loaded → Server.auth loaded = Some c → auth_enabled c = true →
     auth_tokens c ≠ []).
Proof.
  unfold intercept. split_and!.
  - destruct config as [c|]; [|by left]. destruct (auth_enabled c); [|by left].
    destruct (bearer_token authorization); [|by right]. destruct (existsb _ _); [by left|by right].
  - intros Hoff. destruct config as [c|]; [|done]. by rewrite (Hoff c eq_refl).
  - intros c -> ->. destruct (bearer_token authorization) as [t|] eqn:Ht; [|done].
    destruct (existsb _ _) eqn:Hm; [|done]. intros _. exists t. split; [by apply existsb_token|]. by apply bearer_token_spec.
  - intros c t -> Ht Hv. destruct (auth_enabled c); [|done]. rewrite bearer_token_visible by done.
    by apply existsb_token in Ht as ->.
  - intros toml contents loaded c Hl Ha He Ht. unfold from_file in Hl. apply bind_Ok in Hl as (s & _ & Hl).
    apply bind_Ok in Hl as (config' & _ & Hl). apply bind_Ok in Hl as ([] & Hval & [= <-]).
    unfold validate in Hval. by rewrite Ha, He, Ht in Hval.
Qed.

(** ** Peers *)
Lemma split_once_spec a b : Forall (λ c, c ≠ chr equals_sign) (chars_of a) → split_once (a +:+ String equals_sign b) = Some (a, b).
Proof.
  induction a as [|c a IH]; intros Ha; [done|]. change (chars_of (String c a)) with (chr c :: chars_of a) in Ha.
  apply Forall_cons in Ha as [Hc Ha]. change (String c a +:+ String equals_sign b) with (String c (a +:+ String equals_sign b)).
  cbn [split_once]. rewrite (IH Ha). destruct (Ascii.eqb_spec c equals_sign) as [->|_]; done.
Qed.
Lemma parse_u64_pretty z : 0 ≤ z ≤ u64_max → str_parse_u64 (chars (pretty z)) = Some z.
Proof.
  intros Hz. destruct (pretty_text z) as (ds & Hs & Hd & Hne & Hv).
  replace (z <? 0) with false in Hs by lia. cbn in Hs.
  assert (chars (pretty z) = ds) as ->.
  { rewrite chars_chars_of, Hs; [done|]. eapply Forall_impl; [apply pretty_number_chars|]. cbn. intros c [?|?]%number_char_cases; lia. }
  unfold str_parse_u64. replace (match ds with c :: s' => if c =? chr "+"%char then s' else ds | [] => [] end) with ds.
  - unfold parse_digits. rewrite Hd, bool_decide_false by done. cbn. rewrite Hv. replace (Z.abs z) with z by lia.
    by replace (z <=? u64_max) with true by lia.
  - destruct ds as [|c ds]; [done|]. cbn in Hd. apply andb_true_iff in Hd as [Hc _].
    unfold is_ascii_digit, in_char_range in Hc. change (chr "0") with 48 in Hc. change (chr "+"%char) with 43.
    destruct (Z.eqb_spec c 43); [lia|done].
Qed.
(** The format of the flag, id=address, is read back for every 64-bit id and every address. *)
Theorem parse_peer_roundtrip id addr : 0 ≤ id ≤ u64_max → parse_peer (pretty id +:+ String equals_sign addr) = Some (id, addr).
Proof.
  intros Hid. unfold parse_peer. rewrite split_once_spec.
  - cbn. by rewrite parse_u64_pretty.
  - eapply Forall_impl; [apply pretty_number_chars|]. cbn. change (chr equals_sign) with 61. intros c [?|?]%number_char_cases; lia.
Qed.

(** ** Samples *)
Definition ascii_headers : HeaderText := {|
  to_str v := if forallb (λ b, (32 <=? bval b) && (bval b <? 127)) v then Some (str_of_bytes v) else None
|}.
Lemma ascii_headers_laws : @HeaderTextLaws ascii_headers.
Proof.
  split.
  - intros v s. cbn. destruct (forallb _ v); [|done]. intros [= <-]. apply str_bytes_str_of_bytes.
  - intros s Hs. cbn. replace (forallb _ _) with true; [by rewrite str_of_bytes_str_bytes|].
    symmetry. apply forallb_forall. intros b Hb%list_elem_of_In. rewrite Forall_forall in Hs. specialize (Hs b Hb).
    unfold visible_ascii in Hs. lia.
Qed.
Definition sample_auth : AuthConfig := mkAuthConfig true ["s3cret"; "other"]%string.
Lemma auth_exact_witness :
  let _ := ascii_headers in
  intercept (Some sample_auth) (Some (str_bytes "Bearer s3cret")) = Ok tt ∧
  intercept (Some sample_auth) (Some (str_bytes "Bearer s3cre")) = Err unauthenticated.
Proof.
  split; [|reflexivity].
  pose proof (@auth_exact ascii_headers ascii_headers_laws (Some sample_auth) None) as (_ & _ & _ & H & _).
  apply (H sample_auth "s3cret"%string); [reflexivity|set_solver|]. repeat constructor; cbn; lia.
Defined.
