(* ===== verification/Node.v ===== *)
(** * Cluster nodes (synaptica-server: node.rs, cluster_service.rs, client_service.rs;
    synaptica-cluster: network.rs)

    A node's Raft handle, the addresses of its peers, the service other nodes call, the network
    client that calls it, and what the client service does with a write on a member: submit it
    to Raft and, when Raft answers that another node leads, forward it there. openraft and the
    transport are the classes [RaftNode] and [Transport]; [W] is the state of the whole cluster.
    A call can be delivered, lost before the peer ran it, or lost on the way back. *)
From S2P Require Import Prelude Types Rocks Encoding Engine Index LogStore Text Records Expression Executor Service Server.

(** ** openraft: the handle [R] of a node and what it reports *)
Record RaftMetrics := mkMetrics {
  current_leader : option Z;
  membership_nodes : list (Z * string); (* in the order of the identifiers *)
  replication : option (list (Z * option Z)); (* of a leader: node, index of the matched log entry *)
  last_log_index : option Z;
  running : bool
}.
(** Why [client_write] refuses *)
Inductive WriteError :=
| ForwardToLeader (leader_id : option Z) (leader_node : option string)
| OtherWriteError (message : string).
Class RaftNode (W R : Type) : Type := {
  raft_new : W → Z → W * result string R;
  raft_initialize : W → R → gmap Z string → W * result string unit;
  raft_metrics : W → R → RaftMetrics;
  raft_client_write : W → R → RaftRequest → W * result WriteError RaftResponse;
  raft_add_learner : W → R → Z → string → W * result string unit;
  raft_change_membership : W → R → gset Z → W * result string unit;
  write_error_fmt : WriteError → string
}.

(** ** node.rs *)
Definition REPLICATION_LAG_HEALTHY : Z := 64.
Definition is_empty (s : string) : bool := String.eqb s EmptyString.
Arguments is_empty _ : simpl never.
Definition resolve_node_addr (node_id : Z) (membership_addrs configured_addrs : gmap Z string) : string :=
  default EmptyString
    (match membership_addrs !! node_id with
     | Some addr => if negb (is_empty addr) then Some addr else configured_addrs !! node_id
     | None => configured_addrs !! node_id
     end).
Definition resolve_leader_addr (leader_id : option Z) (membership_addrs configured_addrs : gmap Z string) : option string :=
  id ← leader_id;
  let addr := resolve_node_addr id membership_addrs configured_addrs in
  if is_empty addr then None else Some addr.
Definition saturating_sub (a b : Z) : Z := Z.max 0 (a - b).
Definition member_is_healthy (node_id self_id : Z) (leader_id : option Z) (self_running : bool)
    (last_log_index : option Z) (replication : option (gmap Z (option Z))) : bool :=
  if bool_decide (leader_id = Some node_id) then true
  else if node_id =? self_id then self_running
  else match replication with
       | None => false
       | Some repl =>
           match repl !! node_id with
           | Some (Some matched) => saturating_sub (default 0 last_log_index) matched <=? REPLICATION_LAG_HEALTHY
           | _ => false
           end
       end.
Definition node_addrs (nodes : list (Z * string)) : gmap Z string := foldl (λ m '(id, addr), <[id := addr]> m) ∅ nodes.

Record NodeRuntime (db R : Type) := mkNodeRuntime {
  nr_storage : db;
  nr_default_graph_id : GraphId;
  nr_raft : option R;
  nr_applier : bool; (* whether the applier over the storage was made *)
  nr_node_id : option Z;
  nr_cluster_addr : option string;
  nr_peer_addrs : gmap Z string
}.
Arguments mkNodeRuntime {db R}. Arguments nr_storage {db R}. Arguments nr_default_graph_id {db R}. Arguments nr_raft {db R}.
Arguments nr_applier {db R}. Arguments nr_node_id {db R}. Arguments nr_cluster_addr {db R}. Arguments nr_peer_addrs {db R}.

Section runtime.
Context `{RocksDB db, Bincode Node, Bincode Edge, Bincode GraphMeta} `{RaftNode W R}.
Variable new_v5 : bytes → bytes → Uuid.
(** [d] is the opened storage; an error of the write is dropped. *)
Definition start (default_graph : string) (d : db) : NodeRuntime db R :=
  let default_graph_id := GraphId_from_name new_v5 default_graph in
  let d' := match put_graph_meta d (mkGraphMeta default_graph_id default_graph None) with Ok d' => d' | Err _ => d end in
  mkNodeRuntime d' default_graph_id None false None None ∅.
(** The addresses and the applier stay when openraft fails. *)
Definition init_cluster (w : W) (node : NodeRuntime db R) (node_id : Z) (cluster_addr : string) (peers : list (Z * string))
    : W * NodeRuntime db R * result string unit :=
  let addrs := foldl (λ m '(id, addr), <[id := addr]> m) {[node_id := cluster_addr]} peers in
  let with_raft raft := mkNodeRuntime (nr_storage node) (nr_default_graph_id node) raft true (Some node_id) (Some cluster_addr) addrs in
  match raft_new w node_id with
  | (w1, Ok raft) =>
      let w2 := match peers with
                | [] => (raft_initialize w1 raft {[node_id := cluster_addr]}).1
                | _ => w1
                end in
      (w2, with_raft (Some raft), Ok tt)
  | (w1, Err e) => (w1, with_raft (nr_raft node), Err e)
  end.
Definition is_leader (w : W) (node : NodeRuntime db R) : bool :=
  match nr_raft node with
  | Some raft => bool_decide (current_leader (raft_metrics w raft) = nr_node_id node)
  | None => true
  end.
Definition leader_addr (w : W) (node : NodeRuntime db R) : option string :=
  raft ← nr_raft node;
  let metrics := raft_metrics w raft in
  resolve_leader_addr (current_leader metrics) (node_addrs (membership_nodes metrics)) (nr_peer_addrs node).
End runtime.

(** ** cluster_service.rs: what a node answers other nodes *)
Record ForwardWriteRequest := mkForwardRequest { fw_query : string; fw_graph_name : string }.
Record ForwardWriteResponse := mkForwardResponse {
  fwr_success : bool; fwr_error : option string; fwr_rows_affected : Z; fwr_nodes_created : Z; fwr_nodes_deleted : Z;
  fwr_edges_created : Z; fwr_edges_deleted : Z; fwr_properties_set : Z
}.
Section cluster_service.
Context `{RaftNode W R}.
Definition forward_write (w : W) (raft : R) (req : ForwardWriteRequest) : W * ForwardWriteResponse :=
  match raft_client_write w raft (WriteQuery (fw_query req) (fw_graph_name req)) with
  | (w', Ok resp) =>
      (w', mkForwardResponse (success resp) (error resp) (rows_affected resp) (r_nodes_created resp) (r_nodes_deleted resp)
             (r_edges_created resp) (r_edges_deleted resp) (r_properties_set resp))
  | (w', Err e) => (w', mkForwardResponse false (Some ("raft write: " +:+ write_error_fmt e)) 0 0 0 0 0 0)
  end.
(** The answer of a membership change: success and the error *)
Definition membership_response (r : result string unit) : bool * option string :=
  match r with Ok _ => (true, None) | Err e => (false, Some e) end.
Definition add_learner (w : W) (raft : R) (node_id : Z) (address : string) : W * (bool * option string) :=
  let '(w', r) := raft_add_learner w raft node_id address in (w', membership_response r).
Definition change_membership (w : W) (raft : R) (voter_ids : list Z) : W * (bool * option string) :=
  let '(w', r) := raft_change_membership w raft (list_to_set voter_ids) in (w', membership_response r).
End cluster_service.
(** The handlers of vote, append_entries and install_snapshot: decode, call Raft, encode. An error is a
    gRPC status: its code and message. *)
Inductive Status := InvalidArgument (message : string) | Internal (message : string).
Definition raft_rpc_handler {W Req Resp} `{Bincode Req, Bincode Resp} (name : string)
    (handle : W → Req → W * result string Resp) (w : W) (data : bytes) : W * result Status bytes :=
  match bincode_deserialize data with
  | Err e => (w, Err (InvalidArgument ("deserialize " +:+ name +:+ " request: " +:+ e)))
  | Ok req =>
      match handle w req with
      | (w', Err e) => (w', Err (Internal ("raft " +:+ name +:+ ": " +:+ e)))
      | (w', Ok resp) =>
          (w', match bincode_serialize resp with
               | Ok resp_data => Ok resp_data
               | Err e => Err (Internal ("serialize " +:+ name +:+ " response: " +:+ e))
               end)
      end
  end.

(** ** The transport: connecting to a url reaches the node that listens there *)
Inductive delivery := Delivered | RequestLost (message : string) | ResponseLost (message : string).
Class Transport (W R : Type) : Type := {
  connect : W → string → result string R;
  deliver : W → R → delivery
}.
Definition call {W R A} `{Transport W R} (w : W) (peer : R) (handler : W → W * A) : W * result string A :=
  match deliver w peer with
  | Delivered => let '(w', a) := handler w in (w', Ok a)
  | RequestLost e => (w, Err e)
  | ResponseLost e => ((handler w).1, Err e)
  end.
(** network.rs and the forwarding of client_service.rs add the scheme the same way. *)
Definition url_of (addr : string) : string := if String.prefix "http" addr then addr else "http://" +:+ addr.
Inductive RPCError := Network (message : string) | Unreachable (message : string).
Definition status_fmt (s : Status) : string :=
  match s with InvalidArgument m => "invalid argument: " +:+ m | Internal m => "internal: " +:+ m end.
(** The three RPCs of [GrpcNetworkConnection], with the peer's handler *)
Definition network_rpc {W R Req Resp} `{Transport W R, Bincode Req, Bincode Resp} (name : string)
    (handle : R → W → Req → W * result string Resp) (target_addr : string) (w : W) (req : Req) : W * result RPCError Resp :=
  match bincode_serialize req with
  | Err e => (w, Err (Network e))
  | Ok data =>
      match connect w (url_of target_addr) with
      | Err e => (w, Err (Unreachable e))
      | Ok peer =>
          match call w peer (λ w, raft_rpc_handler name (handle peer) w data) with
          | (w', Err e) => (w', Err (Network e))
          | (w', Ok (Err status)) => (w', Err (Network (status_fmt status)))
          | (w', Ok (Ok resp_data)) => (w', map_err Network (bincode_deserialize resp_data))
          end
      end
  end.

(** ** client_service.rs: the service of a cluster member *)
Record ServiceNode := mkServiceNode { sn_node_id : option Z; sn_peer_addrs : gmap Z string }.
Record ClusterNodeInfo := mkClusterNodeInfo { cn_id : string; cn_address : string; cn_role : string; cn_is_healthy : bool }.
Record ClusterStatusResponse := mkClusterStatus {
  cs_node_id : string; cs_role : string; cs_leader_id : string; cs_nodes : list ClusterNodeInfo; cs_partition_count : Z
}.
Definition role (is_leader : bool) : string := if is_leader then "leader" else "follower".
Definition forwarded_response (elapsed : Z) (inner : ForwardWriteResponse) : QueryResponse :=
  if fwr_success inner then
    mkResponse [] [] (Some (mkQueryStats (fwr_nodes_created inner) (fwr_nodes_deleted inner) (fwr_edges_created inner)
      (fwr_edges_deleted inner) (fwr_properties_set inner) (fwr_rows_affected inner) (Z.max 1 elapsed))) None
  else query_error (default "forwarded write failed"%string (fwr_error inner)).
Record HealthResponse := mkHealth { h_status : string; h_version : string; h_uptime_seconds : Z }.
Definition health (uptime : Z) : HealthResponse := mkHealth "ok" "0.1.0" uptime.
Definition begin_transaction : result string unit := Err "begin_transaction not implemented"%string.
Definition commit_transaction : result string unit := Err "commit_transaction not implemented"%string.
Definition rollback_transaction : result string unit := Err "rollback_transaction not implemented"%string.

Section member.
Context `{RaftNode W R, !Transport W R}.
Variable svc : ServiceNode.

Definition member_info (metrics : RaftMetrics) (node_id : Z) (member : Z * string) : ClusterNodeInfo :=
  let '(nid, addr) := member in
  mkClusterNodeInfo (pretty nid)
    (if is_empty addr then resolve_node_addr nid (node_addrs (membership_nodes metrics)) (sn_peer_addrs svc) else addr)
    (role (bool_decide (Some nid = current_leader metrics)))
    (member_is_healthy nid node_id (current_leader metrics) (running metrics) (last_log_index metrics)
       (list_to_map <$> replication metrics)).
Definition cluster_status (w : W) (raft : option R) : ClusterStatusResponse :=
  match raft with
  | Some raft =>
      let metrics := raft_metrics w raft in
      let node_id := default 0 (sn_node_id svc) in
      mkClusterStatus (pretty node_id) (role (bool_decide (current_leader metrics = Some node_id)))
        (match current_leader metrics with Some l => pretty l | None => EmptyString end)
        (map (member_info metrics node_id) (membership_nodes metrics)) 1
  | None => mkClusterStatus "standalone" "leader" "standalone" [mkClusterNodeInfo "standalone" "localhost" "leader" true] 1
  end.

(** [None]: the error is no redirection; [Some None]: it is one, without a known address *)
Definition forward_target (w : W) (raft : R) (err : WriteError) : option (option string) :=
  match err with
  | OtherWriteError _ => None
  | ForwardToLeader fwd_id fwd_node =>
      if bool_decide (is_Some fwd_id) && bool_decide (fwd_id = sn_node_id svc) then Some None
      else
        let fallback :=
          let metrics := raft_metrics w raft in
          let leader_id := match fwd_id with Some id => Some id | None => current_leader metrics end in
          Some (resolve_leader_addr leader_id (node_addrs (membership_nodes metrics)) (sn_peer_addrs svc)) in
        match fwd_node with
        | Some addr => if negb (is_empty addr) then Some (Some addr) else fallback
        | None => fallback
        end
  end.
Definition forward_write_to (w : W) (addr query graph_name : string) (elapsed : Z) : W * QueryResponse :=
  match connect w (url_of addr) with
  | Err e => (w, query_error ("forward to leader failed: " +:+ e))
  | Ok peer =>
      match call w peer (λ w, forward_write w peer (mkForwardRequest query graph_name)) with
      | (w', Ok inner) => (w', forwarded_response elapsed inner)
      | (w', Err e) => (w', query_error ("forward to leader failed: " +:+ e))
      end
  end.
Definition execute_write_via_raft (w : W) (raft : R) (query graph_name : string) (elapsed : Z) : W * QueryResponse :=
  match raft_client_write w raft (WriteQuery query graph_name) with
  | (w', Ok resp) => (w', raft_result_response elapsed resp)
  | (w', Err e) =>
      match forward_target w' raft e with
      | Some (Some addr) => forward_write_to w' addr query graph_name elapsed
      | _ => (w', query_error ("raft error: " +:+ write_error_fmt e))
      end
  end.
End member.

(** ** Forwarding *)
Section forwarding.
Context `{RaftNode W R, !Transport W R}.
Implicit Types (w : W) (svc : ServiceNode).

(** Forwarding adds nothing to the leader's answer, whenever the answer carries its error. *)
Lemma forwarded_answer elapsed resp : success resp = true ∨ is_Some (LogStore.error resp) →
  forwarded_response elapsed (mkForwardResponse (success resp) (LogStore.error resp) (rows_affected resp) (r_nodes_created resp)
    (r_nodes_deleted resp) (r_edges_created resp) (r_edges_deleted resp) (r_properties_set resp)) = raft_result_response elapsed resp.
Proof.
  unfold forwarded_response, raft_result_response. cbn. destruct (success resp); [done|].
  intros [?|[e ->]]; done.
Qed.
(** One write of a request reaches Raft at the peer, at most. *)
Lemma forward_write_to_once w svc addr query graph_name elapsed :
  (forward_write_to w addr query graph_name elapsed).1 = w ∨
  ∃ peer, connect w (url_of addr) = Ok peer ∧
    (forward_write_to w addr query graph_name elapsed).1 = (raft_client_write w peer (WriteQuery query graph_name)).1.
Proof.
  unfold forward_write_to. destruct (connect w (url_of addr)) as [peer|e]; [|by left].
  unfold call, forward_write. cbn. destruct (deliver w peer); [right; exists peer|by left|right; exists peer];
    destruct (raft_client_write w peer _) as [w' [r|r]]; done.
Qed.

(** The first address that is known and not empty *)
Fixpoint first_address (candidates : list (option string)) : option string :=
  match candidates with
  | [] => None
  | Some addr :: rest => if is_empty addr then first_address rest else Some addr
  | None :: rest => first_address rest
  end.
Lemma resolve_leader_addr_spec id membership_addrs configured_addrs :
  resolve_leader_addr (Some id) membership_addrs configured_addrs = first_address [membership_addrs !! id; configured_addrs !! id].
Proof.
  unfold resolve_leader_addr, resolve_node_addr. cbn. destruct (membership_addrs !! id) as [a|]; [destruct (is_empty a) eqn:Ha|]; cbn.
  2: by rewrite Ha. all: destruct (configured_addrs !! id) as [b|]; done.
Qed.
Lemma forward_target_spec w svc raft id node : Some id ≠ sn_node_id svc →
  forward_target svc w raft (ForwardToLeader (Some id) node) =
    Some (first_address [node; node_addrs (membership_nodes (raft_metrics w raft)) !! id; sn_peer_addrs svc !! id]).
Proof.
  intros Hid. unfold forward_target. rewrite (bool_decide_false _ Hid), andb_false_r, resolve_leader_addr_spec.
  destruct node as [a|]; [|done]. cbn. by destruct (is_empty a).
Qed.

(** C34: A write sent to any member is answered as the leader answers it. When the member's own Raft accepts
    the write its answer is returned. When Raft says that another node leads, the write goes to the
    address it names or, if it names none, to the one the membership or the startup peers have for the
    leader, over one hop: the client gets exactly the response a client of that node would get, errors
    of the query included, and what happens to the cluster is the refused attempt and then the write at
    that node. A node that is told to forward to itself, or to an unknown address, does not forward. *)
Theorem writes_follow_leader w svc raft query graph_name elapsed :
  let submit w r := raft_client_write w r (WriteQuery query graph_name) in
  let run := execute_write_via_raft svc w raft query graph_name elapsed in
  (∀ w' resp, submit w raft = (w', Ok resp) → run = (w', raft_result_response elapsed resp)) ∧
  (∀ w1 leader_id leader_node addr peer w2 resp,
     submit w raft = (w1, Err (ForwardToLeader leader_id leader_node)) →
     forward_target svc w1 raft (ForwardToLeader leader_id leader_node) = Some (Some addr) →
     connect w1 (url_of addr) = Ok peer → deliver w1 peer = Delivered →
     submit w1 peer = (w2, Ok resp) → success resp = true ∨ is_Some (LogStore.error resp) →
     run = (w2, raft_result_response elapsed resp) ∧
     ∀ svc', run = execute_write_via_raft svc' w1 peer query graph_name elapsed) ∧
  (∀ w1 e, submit w raft = (w1, Err e) →
     (run.1 = w1 ∨ ∃ addr peer, forward_target svc w1 raft e = Some (Some addr) ∧ connect w1 (url_of addr) = Ok peer ∧
        run.1 = (submit w1 peer).1) ∧
     (∀ e', e = ForwardToLeader (sn_node_id svc) e' → is_Some (sn_node_id svc) →
        run = (w1, query_error ("raft error: " +:+ write_error_fmt e)))) ∧
  (∀ w1 id node, Some id ≠ sn_node_id svc →
     forward_target svc w1 raft (ForwardToLeader (Some id) node) =
       Some (first_address [node; node_addrs (membership_nodes (raft_metrics w1 raft)) !! id; sn_peer_addrs svc !! id])).
Proof.
  intros submit run. unfold run, submit, execute_write_via_raft. split_and!.
  - intros w' resp ->. done.
  - intros w1 leader_id leader_node addr peer w2 resp -> -> Hc Hd Hs Hr.
    assert (forward_write_to w1 addr query graph_name elapsed = (w2, raft_result_response elapsed resp)) as ->.
    { unfold forward_write_to. rewrite Hc. unfold call. rewrite Hd. unfold forward_write. cbn. rewrite Hs.
      by rewrite forwarded_answer. }
    split; [done|]. intros svc'. by rewrite Hs.
  - intros w1 e ->. split.
    + destruct (forward_target svc w1 raft e) as [[addr|]|]; [|by left..].
      destruct (forward_write_to_once w1 svc addr query graph_name elapsed) as [?|(peer & ? & ?)]; [by left|]. right. by exists addr, peer.
    + intros e' -> Hid. unfold forward_target. by rewrite !bool_decide_true.
  - intros w1 id node. apply forward_target_spec.
Qed.
End forwarding.

(** ** Raft's calls between nodes *)
(** The transport of Raft's calls is transparent. A vote, append or snapshot call that is delivered is
    the peer's own Raft call: the cluster changes as by that call and the caller gets the peer's
    response, while an error of the peer becomes a network error that carries its text. Whatever is
    lost on the way, the peer runs the call at most once, and a response is only ever one the peer's
    Raft gave; a peer that cannot be reached is reported as unreachable and nothing happens. *)
Theorem rpc_transparent {W R Req Resp} `{Transport W R, BincodeLaws Req, BincodeLaws Resp} name
    (handle : R → W → Req → W * result string Resp) target_addr w req :
  let run := network_rpc name handle target_addr w req in
  (∀ e, connect w (url_of target_addr) = Err e → run = (w, Err (Unreachable e))) ∧
  (∀ peer, connect w (url_of target_addr) = Ok peer →
     (deliver w peer = Delivered →
        run = ((handle peer w req).1,
               map_err (λ e, Network ("internal: raft " +:+ name +:+ ": " +:+ e)) (handle peer w req).2)) ∧
     (run.1 = w ∨ run.1 = (handle peer w req).1) ∧
     (∀ resp, run.2 = Ok resp → (handle peer w req).2 = Ok resp)).
Proof.
  intros run. unfold run, network_rpc. destruct (bincode_roundtrip req) as (data & -> & Hdata).
  split; [by intros e ->|]. intros peer ->. unfold call, raft_rpc_handler. rewrite Hdata.
  destruct (handle peer w req) as [w' [resp|e]]; cbn.
  - destruct (bincode_roundtrip resp) as (out & -> & Hout). destruct (deliver w peer); cbn; rewrite ?Hout; cbn;
      split_and!; try done; auto; by intros ? [= ->].
  - destruct (deliver w peer); cbn; split_and!; try done; auto; by intros ? [= ->].
Qed.

(** ** Status of the cluster *)
Section status.
Context `{RaftNode W R}.
Implicit Types (w : W) (svc : ServiceNode).
Lemma add_addrs_other (nodes : list (Z * string)) (m : gmap Z string) id : id ∉ nodes.*1 →
  foldl (λ m '(id, addr), <[id := addr]> m) m nodes !! id = m !! id.
Proof.
  revert m. induction nodes as [|[k a] nodes IH]; intros m Hid; [done|]. rewrite fmap_cons in Hid.
  apply not_elem_of_cons in Hid as [Hk Hid]. cbn [foldl]. rewrite IH by done. by apply lookup_insert_ne.
Qed.
Lemma node_addrs_lookup (nodes : list (Z * string)) id addr : NoDup nodes.*1 → (id, addr) ∈ nodes → node_addrs nodes !! id = Some addr.
Proof.
  unfold node_addrs. generalize (∅ : gmap Z string). induction nodes as [|[k a] nodes IH]; intros m; [by intros _ ?%elem_of_nil|].
  rewrite fmap_cons. intros [Hk Hd]%NoDup_cons [[= <- <-]|Hin]%elem_of_cons; cbn [foldl]; [|by apply IH].
  rewrite add_addrs_other by done. apply lookup_insert_eq.
Qed.

(** The status of a cluster is what Raft reports. It has one row per member, in their order, under its
    identifier; the address is the membership's or, when that is empty, the one given at startup; at
    most one row is the leader's. A row is healthy exactly when it is the leader's, or this node's
    while its Raft runs, or, on the leader only, that of a follower whose last matched entry is at
    most 64 behind the leader's log: a follower that never reported is not. *)
Theorem cluster_status_exact svc w raft self :
  let metrics := raft_metrics w raft in
  let status := cluster_status svc w (Some raft) in
  sn_node_id svc = Some self → NoDup (membership_nodes metrics).*1 →
  (∀ repl, replication metrics = Some repl → NoDup repl.*1) →
  cn_id <$> cs_nodes status = (pretty ∘ fst) <$> membership_nodes metrics ∧
  (∀ i id addr row, membership_nodes metrics !! i = Some (id, addr) → cs_nodes status !! i = Some row →
     cn_address row = default EmptyString (first_address [Some addr; sn_peer_addrs svc !! id]) ∧
     (cn_role row = "leader"%string ↔ current_leader metrics = Some id) ∧
     (cn_is_healthy row = true ↔
        current_leader metrics = Some id ∨
        current_leader metrics ≠ Some id ∧ id = self ∧ running metrics = true ∨
        id ≠ self ∧ ∃ repl matched, replication metrics = Some repl ∧ (id, Some matched) ∈ repl ∧
          default 0 (last_log_index metrics) - matched ≤ 64)) ∧
  (∀ i j row row', cs_nodes status !! i = Some row → cs_nodes status !! j = Some row' →
     cn_role row = "leader"%string → cn_role row' = "leader"%string → i = j).
Proof.
  intros metrics status Hself Hnd Hrepl.
  assert (∀ b, role b = "leader"%string ↔ b = true) as Hrole by (intros []; done).
  assert (cs_nodes status = member_info svc metrics self <$> membership_nodes metrics) as Hrows.
  { unfold status, cluster_status. rewrite Hself. done. }
  rewrite Hrows. split_and!.
  - rewrite <- list_fmap_compose. apply list_fmap_ext. by intros ? [id addr].
  - intros i id addr row Hi. rewrite list_lookup_fmap, Hi. intros [= <-]. cbn. split_and!.
    + unfold resolve_node_addr. rewrite (node_addrs_lookup _ id addr) by (done || by eapply list_elem_of_lookup_2).
      destruct (is_empty addr) eqn:Ha; cbn; [|done]. destruct (sn_peer_addrs svc !! id) as [b|]; [|done].
      cbn. destruct (is_empty b) eqn:Hb; [by apply String.eqb_eq in Hb|done].
    + rewrite Hrole, bool_decide_eq_true. split; congruence.
    + unfold member_is_healthy. case_bool_decide as Hl; [by split; [left|]|].
      destruct (Z.eqb_spec id self) as [->|Hid]; [naive_solver|].
      destruct (replication metrics) as [repl|] eqn:Hr; cbn; [|naive_solver].
      specialize (Hrepl repl eq_refl). split.
      * intros Hm. right. right. split; [done|]. destruct (list_to_map repl !! id) as [[matched|]|] eqn:Hlk; [|done..].
        exists repl, matched. split; [done|]. split; [by apply elem_of_list_to_map_2 in Hlk|].
        unfold saturating_sub, REPLICATION_LAG_HEALTHY in Hm. lia.
      * intros [?|[(_ & ? & _)|(_ & ? & matched & [= <-] & Hin & Hlag)]]; [done..|].
        apply (elem_of_list_to_map_1 (M := gmap Z)) in Hin as ->; [|done].
        unfold saturating_sub, REPLICATION_LAG_HEALTHY. lia.
  - intros i j row row'. rewrite !list_lookup_fmap.
    destruct (membership_nodes metrics !! i) as [[id addr]|] eqn:Hi; [|done]. intros [= <-].
    destruct (membership_nodes metrics !! j) as [[id' addr']|] eqn:Hj; [|done]. intros [= <-]. cbn.
    rewrite !Hrole, !bool_decide_eq_true. intros Hl Hl'. apply (NoDup_lookup _ _ _ id Hnd).
    + by rewrite list_lookup_fmap, Hi.
    + rewrite list_lookup_fmap, Hj. cbn. congruence.
Qed.
End status.

(** ** Starting a member *)
Section starting.
Context `{RocksDBLaws db, BincodeLaws Node, BincodeLaws Edge, BincodeLaws GraphMeta} `{RaftNode W R}.
Variable new_v5 : bytes → bytes → Uuid.

(** A node starts as its own leader, with its default graph stored and the rest of the database untouched. *)
Theorem start_rep d G name : represents d G →
  let node := start (R := R) new_v5 name d in
  represents (nr_storage node) (insert_meta (mkGraphMeta (nr_default_graph_id node) name None) G) ∧
  ∀ w, is_leader w node = true ∧ leader_addr w node = None.
Proof.
  intros HR. destruct (put_graph_meta_rep d G (mkGraphMeta (GraphId_from_name new_v5 name) name None) HR) as (d' & Hd & HR').
  unfold start. rewrite Hd. by split.
Qed.
(** Peer flags that do not parse are dropped without a word: a member that was given only such flags has
    no peers and initializes a cluster of its own. *)
Theorem bad_peers_bootstrap (node : NodeRuntime db R) w cli config w1 raft :
  cli_peer cli ≠ [] → Forall (λ p, parse_peer p = None) (cli_peer cli) → cluster config = None →
  let id := effective_node_id cli config in
  let addr := effective_cluster_addr cli config in
  raft_new w id = (w1, Ok raft) →
  cluster_mode cli config = true ∧
  (init_cluster w node id addr (peer_list cli config)).1.1 = (raft_initialize w1 raft {[id := addr]}).1.
Proof.
  intros Hne Hbad Hc id addr Hraft.
  assert (peer_list cli config = []) as ->.
  { unfold peer_list. rewrite Hc. clear Hne. induction Hbad as [|p ps Hp _ IH]; [done|]. cbn. by rewrite Hp. }
  split.
  - unfold cluster_mode. rewrite (bool_decide_false (cli_peer cli = [])) by done. apply orb_true_r.
  - unfold init_cluster. by rewrite Hraft.
Qed.
End starting.

(** ** Samples: two nodes, the first of which leads; the state is the list of the writes *)
Definition pair_metrics : RaftMetrics :=
  mkMetrics (Some 1) [(1, "n1:9191"); (2, EmptyString); (3, "n3:9191")]%string (Some [(1, Some 100); (2, Some 40); (3, None)]) (Some 100) true.
#[local] Instance pair_raft : RaftNode (list string) Z := {|
  raft_new w id := (w, Ok id);
  raft_initialize w r m := (w ++ ["initialize"%string], Ok tt);
  raft_metrics w r := pair_metrics;
  raft_client_write w r '(WriteQuery q g) :=
    if r =? 1 then (w ++ [q], Ok (mkRaftResponse true None 1 1 0 0 0 0)) else (w, Err (ForwardToLeader (Some 1) None));
  raft_add_learner w r id addr := (w, Ok tt);
  raft_change_membership w r ids := (w, Ok tt);
  write_error_fmt e := "has to forward"%string
|}.
#[local] Instance pair_transport : Transport (list string) Z := {|
  connect w url := if String.eqb url "http://n1:9191" then Ok 1 else Err "no route"%string;
  deliver w r := Delivered
|}.
Definition second_node : ServiceNode := mkServiceNode (Some 2) {[2 := "n2:9191"%string]}.
Lemma writes_follow_leader_witness :
  execute_write_via_raft second_node [] 2 "INSERT (:A)" "g" 5 =
    (["INSERT (:A)"%string], raft_result_response 5 (mkRaftResponse true None 1 1 0 0 0 0)).
Proof.
  destruct (writes_follow_leader [] second_node 2 "INSERT (:A)" "g" 5) as (_ & H & _).
  apply (H [] (Some 1) None "n1:9191"%string 1); [reflexivity|vm_compute; reflexivity|reflexivity|reflexivity|reflexivity|by left].
Defined.
Lemma cluster_status_exact_witness :
  cn_is_healthy <$> cs_nodes (cluster_status second_node [] (Some 2)) = [true; true; false].
Proof.
  destruct (cluster_status_exact second_node [] 2 2) as (_ & H & _); [reflexivity| |intros repl [= <-]|].
  - apply (bool_decide_eq_true_1 _). vm_compute. reflexivity.
  - apply (bool_decide_eq_true_1 _). vm_compute. reflexivity.
  - destruct (H 0%nat 1 "n1:9191"%string (mkClusterNodeInfo "1" "n1:9191" "leader" true)) as (_ & _ & H0); [reflexivity|vm_compute; reflexivity|].
    vm_compute. reflexivity.
Defined.
#[local] Existing Instances countable_bincode countable_bincode_laws.
(** A vote of a number, answered by its successor *)
Lemma rpc_transparent_witness :
  network_rpc (Req := Z) (Resp := Z) "vote" (λ r w n, (w ++ ["voted"%string], Ok (n + r))) "n1:9191" [] 4 = (["voted"%string], Ok 5).
Proof.
  destruct (rpc_transparent (Req := Z) (Resp := Z) "vote" (λ (r : Z) (w : list string) n, (w ++ ["voted"%string], Ok (n + r))) "n1:9191" [] 4)
    as (_ & H). destruct (H 1) as (Hd & _); [reflexivity|]. rewrite Hd by reflexivity. reflexivity.
Defined.
