(* ===== verification/Metrics.v ===== *)
(** * Metrics (synaptica-server: metrics.rs, client_service.rs)

    The gauges of stored nodes and edges, counted from the storage when they are asked for, and the
    names under which a metrics request lists what the registry holds. The registry itself is the
    prometheus crate. *)
From S2P Require Import Prelude Types Rocks Encoding Engine F64 Records Expression Executor Execution.
Import Encoding ColumnFamilies.

Record Gauges := mkGauges { NODES_TOTAL : Z; EDGES_TOTAL : Z }.

Section metrics.
Context `{RocksDB db, Bincode Node, Bincode Edge, Bincode GraphMeta}.
Implicit Types d : db.
(** [len() as i64], added up *)
Definition count_edges d (graph_id : GraphId) (edges : Z) (node : Node) : Z :=
  match get_outgoing_edges d graph_id (node_id node) None with
  | Ok outgoing => edges + as_i64 (Z.of_nat (length outgoing))
  | Err _ => edges
  end.
Definition count_graph d (acc : Z * Z) (graph : GraphMeta) : Z * Z :=
  match scan_nodes d (meta_id graph) with
  | Ok stored_nodes =>
      (acc.1 + as_i64 (Z.of_nat (length stored_nodes)), foldl (count_edges d (meta_id graph)) acc.2 stored_nodes)
  | Err _ => acc
  end.
Definition refresh_storage_gauges d (gauges : Gauges) : Gauges :=
  match list_graphs d with
  | Ok graphs => let '(nodes, edges) := foldl (count_graph d) (0, 0) graphs in mkGauges nodes edges
  | Err _ => gauges
  end.
End metrics.

(** ** The metrics request, on what the registry gathered *)
Inductive Metric := GaugeMetric (value : f64) | CounterMetric (value : f64) | OtherMetric.
Definition metric_label (l : string * string) : string := l.1 +:+ "=" +:+ l.2.
Definition full_name (name : string) (labels : list (string * string)) : string :=
  let label_suffix := String.concat "," (map metric_label labels) in
  match label_suffix with
  | EmptyString => name
  | _ => name +:+ "[" +:+ label_suffix +:+ "]"
  end.
Definition get_metrics (metric_families : list (string * list (list (string * string) * Metric)))
    : gmap string f64 * gmap string Z :=
  foldl (λ acc '(name, metrics),
    foldl (λ '(gauges, counters) '(labels, m),
      match m with
      | GaugeMetric v => (<[full_name name labels := v]> gauges, counters)
      | CounterMetric v => (gauges, <[full_name name labels := i64_of_f64 v]> counters)
      | OtherMetric => (gauges, counters)
      end) acc metrics) (∅, ∅) metric_families.

(** ** What the gauges count *)
(** A list without repetition that holds exactly the values of a keyed map is as long as the map is large. *)
Lemma keyed_list_size `{Countable K} {A} (m : gmap K A) (key : A → K) (l : list A) : NoDup l →
  (∀ k a, m !! k = Some a → key a = k) → (∀ a, a ∈ l ↔ m !! key a = Some a) → length l = size m.
Proof.
  intros Hd Hk Hl. rewrite <- length_map_to_list.
  rewrite <- (length_fmap (λ a, (key a, a))). apply Permutation_length, NoDup_Permutation.
  - apply NoDup_fmap_2; [|done]. by intros ?? [= _ ?].
  - apply NoDup_map_to_list.
  - intros [k a]. rewrite elem_of_map_to_list, list_elem_of_fmap. split.
    + intros (a' & [= -> ->] & Ha). by apply Hl.
    + intros Ha. pose proof (Hk k a Ha) as <-. exists a. split; [done|]. by apply Hl.
Qed.
Lemma sorted_NoDup {A} (f : A → bytes) (l : list A) : StronglySorted (λ a b, bytes_lt (f a) (f b)) l → NoDup l.
Proof. apply StronglySorted_NoDup. intros x. apply bytes_lt_irrefl. Qed.

Section counted.
Context `{RocksDBLaws db, BincodeLaws Node, BincodeLaws Edge, BincodeLaws GraphMeta}.
Implicit Types (d : db) (G : graph).

Lemma deserialize_value_ser {A} `{BincodeLaws A} (a : A) : deserialize_value (ser a) = Ok a.
Proof. destruct (bincode_roundtrip a) as (b & Hs & Hd). unfold deserialize_value, ser. by rewrite Hs. Qed.
Lemma list_graphs_rep d G : represents d G → ∃ l, list_graphs d = Ok l ∧ NoDup l ∧
  ∀ m, m ∈ l ↔ g_metas G !! meta_id m = Some m.
Proof.
  intros HR. unfold list_graphs. rewrite cf_open_all by in_cfs. cbn [mbind result_bind]. eexists. split; [reflexivity|].
  set (f := λ kv : bytes * bytes, match deserialize_value kv.2 with Ok meta => Some meta | Err _ => None end).
  assert (∀ k v, (k, v) ∈ iterator_from d GRAPH_META [] → ∃ m, g_metas G !! meta_id m = Some m ∧
    k = encode_graph_meta_key (meta_id m) ∧ f (k, v) = Some m) as Hcell.
  { intros k v [Hk _]%elem_of_iterator_from. apply (rep_metas d G HR) in Hk as (m & Hm & -> & ->).
    exists m. split_and!; [done..|]. unfold f. cbn. by rewrite deserialize_value_ser. }
  split.
  - pose proof (iterator_from_NoDup d GRAPH_META []) as Hd. revert Hcell Hd.
    generalize (iterator_from d GRAPH_META []) as l. induction l as [|[k v] l IH]; intros Hcell Hd; [constructor|].
    destruct (Hcell k v) as (m & _ & -> & Hf); [left|]. rewrite fmap_cons in Hd. apply NoDup_cons in Hd as [Hk Hd].
    cbn [omap list_omap]. rewrite Hf. constructor; [|apply IH; [|done]; intros k' v' Hin; apply Hcell; by right].
    intros ([k' v'] & Hin & Hf')%list_elem_of_omap. destruct (Hcell k' v') as (m' & _ & -> & Hm'); [by right|].
    replace m' with m in * by congruence. apply Hk. apply list_elem_of_fmap. by exists (encode_graph_meta_key (meta_id m), v').
  - intros m. rewrite list_elem_of_omap. split.
    + intros ([k v] & Hin & Hf). destruct (Hcell k v Hin) as (m' & Hm' & _ & Hf'). congruence.
    + intros Hm. exists (encode_graph_meta_key (meta_id m), ser m). split; [|unfold f; cbn; by rewrite deserialize_value_ser].
      apply elem_of_iterator_from. split; [apply (rep_metas d G HR); by exists m|apply bytes_le_not_lt; by destruct (encode_graph_meta_key (meta_id m))].
Qed.

(** The abstract counts: nodes of graphs that have metadata, and edges there whose source is stored *)
Definition listed_nodes G : gmap (GraphId * NodeId) Node := filter (λ kx, is_Some (g_metas G !! kx.1.1)) (g_nodes G).
Definition listed_edges G : gmap (GraphId * EdgeId) Edge :=
  filter (λ ke, is_Some (g_metas G !! ke.1.1) ∧ is_Some (g_nodes G !! (ke.1.1, edge_source ke.2))) (g_edges G).

Definition scanned d (m : GraphMeta) : list Node := match scan_nodes d (meta_id m) with Ok l => l | Err _ => [] end.
Definition outgoing d (x : Node) : list Edge :=
  match get_outgoing_edges d (node_graph_id x) (node_id x) None with Ok l => l | Err _ => [] end.
Lemma elem_of_scanned d G m x : represents d G → x ∈ scanned d m ↔ has_node G x ∧ node_graph_id x = meta_id m.
Proof. intros HR. unfold scanned. destruct (scan_nodes_rep d G (meta_id m) HR) as (l & -> & Hl & _). apply Hl. Qed.
Lemma scanned_NoDup d G m : represents d G → NoDup (scanned d m).
Proof. intros HR. unfold scanned. destruct (scan_nodes_rep d G (meta_id m) HR) as (l & -> & _ & Hs). by eapply sorted_NoDup. Qed.
Lemma elem_of_outgoing d G x e : represents d G →
  e ∈ outgoing d x ↔ has_edge G e ∧ edge_graph_id e = node_graph_id x ∧ edge_source e = node_id x.
Proof.
  intros HR. unfold outgoing. destruct (get_outgoing_edges_rep d G (node_graph_id x) (node_id x) None HR) as (l & -> & Hl & _).
  rewrite Hl. cbn. tauto.
Qed.
Lemma outgoing_NoDup d G x : represents d G → NoDup (outgoing d x).
Proof.
  intros HR. unfold outgoing. destruct (get_outgoing_edges_rep d G (node_graph_id x) (node_id x) None HR) as (l & -> & _ & Hs).
  by eapply sorted_NoDup.
Qed.

(** The lists that the loops run over hold the listed nodes and edges, each once. *)
Section listed.
Variables (d : db) (G : graph) (metas : list GraphMeta).
Hypotheses (HR : represents d G) (Hd : NoDup metas) (Hm : ∀ m, m ∈ metas ↔ g_metas G !! meta_id m = Some m).
Lemma elem_of_all_scanned x : x ∈ metas ≫= scanned d ↔ has_node G x ∧ is_Some (g_metas G !! node_graph_id x).
Proof.
  rewrite list_elem_of_bind. split.
  - intros (m & Hx & Hin). apply (elem_of_scanned d G _ _ HR) in Hx as [Hx ->]. split; [done|]. exists m. by apply Hm.
  - intros (Hx & m & Hg). exists m. pose proof (proj2 (proj2 (rep_keyed d G HR)) _ _ Hg) as E.
    split; [by apply (elem_of_scanned d G _ _ HR)|]. apply Hm. congruence.
Qed.
Lemma all_scanned_NoDup : NoDup (metas ≫= scanned d).
Proof.
  apply NoDup_bind; [|intros m _; by eapply scanned_NoDup|done]. intros m1 m2 x H1' H2'.
  rewrite !(elem_of_scanned d G) by done. intros [_ E1] [_ E2]. apply Hm in H1', H2'. congruence.
Qed.
Lemma all_scanned_size : length (metas ≫= scanned d) = size (listed_nodes G).
Proof.
  apply (keyed_list_size _ node_key); [apply all_scanned_NoDup|..].
  - intros k x [Hx _]%map_lookup_filter_Some. symmetry. by apply (rep_keyed d G HR).
  - intros x. rewrite elem_of_all_scanned. unfold listed_nodes. by rewrite map_lookup_filter_Some.
Qed.
Lemma all_outgoing_size : length ((metas ≫= scanned d) ≫= outgoing d) = size (listed_edges G).
Proof.
  apply (keyed_list_size _ edge_key).
  - apply NoDup_bind; [|intros x _; by eapply outgoing_NoDup|apply all_scanned_NoDup].
    intros x1 x2 e [Hx1 _]%elem_of_all_scanned [Hx2 _]%elem_of_all_scanned. rewrite !(elem_of_outgoing d G) by done.
    intros (_ & E1 & E2) (_ & E3 & E4). apply (has_node_key G); [done..|]. unfold node_key. congruence.
  - intros k e [He _]%map_lookup_filter_Some. symmetry. by apply (rep_keyed d G HR).
  - intros e. rewrite list_elem_of_bind. unfold listed_edges. rewrite map_lookup_filter_Some. cbn. split.
    + intros (x & He & [Hx Hg]%elem_of_all_scanned). apply (elem_of_outgoing d G _ _ HR) in He as (He & E1 & E2).
      split; [done|]. rewrite E1, E2. split; [done|]. by exists x.
    + intros (He & Hg & x & Hx). exists x. pose proof (proj1 (rep_keyed d G HR) _ _ Hx) as Hk. injection Hk as E1 E2.
      split; [by apply (elem_of_outgoing d G)|]. apply elem_of_all_scanned. rewrite <- E1. split; [|done].
      unfold has_node, node_key. by rewrite <- E1, <- E2.
Qed.
End listed.

(** The sums of the loops *)
Lemma count_edges_total d g edges nodes : (∀ x, x ∈ nodes → node_graph_id x = g) →
  Z.of_nat (length (nodes ≫= outgoing d)) ≤ i64_max →
  foldl (count_edges d g) edges nodes = edges + Z.of_nat (length (nodes ≫= outgoing d)).
Proof.
  revert edges. induction nodes as [|x nodes IH]; intros edges Hg Hlen; [cbn; lia|].
  rewrite bind_cons, length_app in *. cbn [foldl]. rewrite IH; [|set_solver|lia]. pose proof (Hg x (list_elem_of_here x nodes)) as <-.
  assert (count_edges d (node_graph_id x) edges x = edges + Z.of_nat (length (outgoing d x))) as ->; [|lia].
  unfold count_edges, outgoing in *. destruct (get_outgoing_edges _ _ _ _) as [l|e]; [|cbn; lia].
  rewrite as_i64_id; [done|]. unfold is_i64, i64_min in *. lia.
Qed.
Lemma count_graphs_total d G metas nodes edges : represents d G →
  Z.of_nat (length (metas ≫= scanned d)) ≤ i64_max → Z.of_nat (length ((metas ≫= scanned d) ≫= outgoing d)) ≤ i64_max →
  foldl (count_graph d) (nodes, edges) metas =
    (nodes + Z.of_nat (length (metas ≫= scanned d)), edges + Z.of_nat (length ((metas ≫= scanned d) ≫= outgoing d))).
Proof.
  intros HR. revert nodes edges. induction metas as [|m metas IH]; intros nodes edges Hn He; [cbn; f_equal; lia|].
  rewrite bind_cons, bind_app, !length_app in *. cbn [foldl].
  assert (count_graph d (nodes, edges) m = (nodes + Z.of_nat (length (scanned d m)), edges + Z.of_nat (length (scanned d m ≫= outgoing d)))) as ->.
  { pose proof (λ x, proj1 (elem_of_scanned d G m x HR)) as Hs. unfold count_graph, scanned in *.
    destruct (scan_nodes d (meta_id m)) as [l|e]; [|cbn; f_equal; lia]. cbn [fst snd].
    rewrite count_edges_total, as_i64_id; [done|unfold is_i64, i64_min; lia|by intros x [_ ?]%Hs|lia]. }
  rewrite IH by lia. f_equal; lia.
Qed.

(** The gauges count what is stored. Whatever they showed before, a refresh sets the first to the number
    of nodes in the graphs that have metadata and the second to the number of edges there whose source
    is stored, each counted once, as long as the counts fit in an i64. A graph that was filled without
    being created is not counted: its nodes change neither gauge. *)
Theorem gauges_exact d G gauges : represents d G →
  Z.of_nat (size (listed_nodes G)) ≤ i64_max → Z.of_nat (size (listed_edges G)) ≤ i64_max →
  refresh_storage_gauges d gauges = mkGauges (Z.of_nat (size (listed_nodes G))) (Z.of_nat (size (listed_edges G))) ∧
  (∀ x d', g_metas G !! node_graph_id x = None → represents d' (insert_node x G) → 
     NODES_TOTAL (refresh_storage_gauges d' gauges) = Z.of_nat (size (listed_nodes G))).
Proof.
  assert (∀ d G, represents d G → Z.of_nat (size (listed_nodes G)) ≤ i64_max → Z.of_nat (size (listed_edges G)) ≤ i64_max →
    refresh_storage_gauges d gauges = mkGauges (Z.of_nat (size (listed_nodes G))) (Z.of_nat (size (listed_edges G)))) as Hrun.
  { clear d G. intros d G HR Hn He. destruct (list_graphs_rep d G HR) as (metas & Hl & Hd & Hm). unfold refresh_storage_gauges. rewrite Hl.
    rewrite <- (all_scanned_size d G metas), <- (all_outgoing_size d G metas) in * by done.
    by rewrite (count_graphs_total d G). }
  intros HR Hn He. split; [by apply Hrun|]. intros x d' Hx HR'.
  assert (listed_nodes (insert_node x G) = listed_nodes G) as En.
  { unfold listed_nodes. cbn. apply map_filter_insert_not. intros y. cbn. rewrite Hx. by intros []. }
  assert (listed_edges (insert_node x G) = listed_edges G) as Ee.
  { unfold listed_edges. apply map_filter_ext. intros [g e] f Hf. cbn. destruct (decide (g = node_graph_id x)) as [->|Hg].
    - rewrite Hx. split; intros [[] _]; done.
    - rewrite lookup_insert_ne; [done|]. unfold node_key. congruence. }
  rewrite (Hrun d' (insert_node x G)); by rewrite ?En, ?Ee.
Qed.
End counted.

(** ** Sample: two nodes and one edge, in a graph that has metadata *)
#[local] Existing Instances countable_bincode countable_bincode_laws.
Definition created_ops : list graph_op := sample_ops ++ [OpPutMeta (mkGraphMeta sample_g "default" None)].
Definition created_db : MemDB := (run_ops empty_db created_ops).1.
Definition created_graph : graph := (abs_ops empty_graph created_ops).1.
Lemma created_represents : represents created_db created_graph.
Proof. apply run_ops_rep, represents_empty, empty_db_empty. Qed.
Lemma gauges_exact_witness : refresh_storage_gauges created_db (mkGauges 7 7) = mkGauges 2 2.
Proof.
  destruct (gauges_exact created_db created_graph (mkGauges 7 7)) as [H _];
    [exact created_represents|vm_compute; discriminate|vm_compute; discriminate|]. rewrite H. vm_compute. reflexivity.
Defined.
