(* ===== verification/Mcp.v ===== *)
(** * The agent interface (synaptica-mcp: backend.rs, local_backend.rs, remote_backend.rs, server.rs,
    resources.rs)

    The trait both backends implement is the class [SynapticaBackend]; [local_backend] runs the
    parser and the executor in the process, [remote_backend] goes through the service of
    [Service.v]. The tools turn what a backend answers into text. JSON is serde_json's value, whose
    objects are BTreeMaps; printing of floats and objects, hexadecimal text and the text of a
    gRPC status are the class [Crates]. Backups are in [Backup.v]. *)
From S2P Require Import Prelude Types Rocks Encoding Engine Index LogStore Lexer F64 Text Records Ast Expression Debug Relational Planner Executor Execution Grouping Service Parser Printing RoundTrip Export.
From Stdlib Require Import Ascii.

(** ** backend.rs *)
Inductive Json :=
| JNull
| JBool (b : bool)
| JInteger (i : Z)
| JFloat (f : f64)
| JString (s : string)
| JArray (items : list Json)
| JObject (entries : list (string * Json)).
Record McpQueryStats := mkMcpStats {
  mcp_rows_returned : Z; mcp_execution_time_ms : f64; mcp_nodes_created : Z; mcp_edges_created : Z;
  mcp_nodes_deleted : Z; mcp_edges_deleted : Z; mcp_properties_set : Z
}.
Record McpQueryResult := mkMcpResult {
  mcp_columns : list string; mcp_rows : list (list Json); mcp_stats : McpQueryStats; mcp_error : option string
}.
Record LabelSchema := mkLabelSchema { ls_label : string; ls_property_keys : list string; ls_count : Z }.
Record SchemaInfo := mkSchemaInfo { si_node_labels : list LabelSchema; si_edge_labels : list LabelSchema }.
Record LabelInfo := mkLabelInfo { li_name : string; li_count : Z; li_kind : string }.
Record McpIndexInfo := mkMcpIndex { mi_label : string; mi_property : string }.
Record HealthInfo := mkHealthInfo { hi_status : string; hi_version : string }.
Record McpNodeInfo := mkMcpNode { mn_node_id : string; mn_address : string; mn_role : string }.
Record McpClusterInfo := mkMcpCluster { mc_node_id : string; mc_role : string; mc_leader_id : string; mc_nodes : list McpNodeInfo }.
Record GraphSummary := mkGraphSummary { gs_name : string; gs_id : string }.
(** An error of a call that is no panic is the text of the anyhow error. *)
Class SynapticaBackend (W : Type) : Type := {
  be_execute_query : W → string → string → W * may_panic string McpQueryResult;
  be_get_schema : W → string → result string SchemaInfo;
  be_list_labels : W → string → result string (list LabelInfo);
  be_list_indexes : W → string → result string (list McpIndexInfo);
  be_create_index : W → string → string → string → W * may_panic string string;
  be_drop_index : W → string → string → string → W * may_panic string string;
  be_health : W → result string HealthInfo;
  be_cluster_status : W → result string (option McpClusterInfo);
  be_list_graphs : W → result string (list GraphSummary)
}.
Class Crates : Type := {
  hex_text : bytes → string;
  json_float_fmt : f64 → string;
  json_object_fmt : list (string * Json) → string;
  fixed_1 : f64 → string; (* {:.1} *)
  status_text : string → string
}.

(** ** Values as JSON *)
Definition json_object (entries : list (string * Json)) : Json :=
  JObject (foldl (λ m '(k, v), btree_insert k v m) [] entries).
(** [json!] of a float: infinities and NaN have no number *)
Definition json_float (f : f64) : Json := if f64_is_nan f || f64_is_inf f then JNull else JFloat f.
Definition json_node (id : string) (labels : list string) (props : Json) : Json :=
  json_object [("_type", JString "node"); ("id", JString id); ("labels", JArray (map JString labels)); ("properties", props)]%string.
Definition json_edge (id label source_id target_id : string) (props : Json) : Json :=
  json_object [("_type", JString "edge"); ("id", JString id); ("label", JString label); ("source_id", JString source_id);
               ("target_id", JString target_id); ("properties", props)]%string.
Section values.
Context `{Platform, Crates}.
Fixpoint value_to_json (value : Value) : Json :=
  let entries := fix entries (m : list (string * Value)) : list (string * Json) :=
    match m with [] => [] | (k, v) :: m' => (k, value_to_json v) :: entries m' end in
  match value with
  | Null => JNull
  | Bool b => JBool b
  | Integer i => JInteger i
  | Float f => json_float f
  | Str s => JString s
  | Bytes b => JString ("0x" +:+ hex_text b)
  | ListV items => JArray (map value_to_json items)
  | MapV m => json_object (entries m)
  | NodeV id labels properties => json_node id labels (json_object (entries properties))
  | EdgeV id label source_id target_id properties => json_edge id label source_id target_id (json_object (entries properties))
  | _ => JString (fmt_value value)
  end.
Fixpoint proto_value_to_json (val : GqlValue) : Json :=
  let entries := fix entries (m : list (string * GqlValue)) : list (string * Json) :=
    match m with [] => [] | (k, v) :: m' => (k, proto_value_to_json v) :: entries m' end in
  match val with
  | NullValue _ => JNull
  | BoolValue b => JBool b
  | IntegerValue i => JInteger i
  | FloatValue f => json_float f
  | StringValue s => JString s
  | BytesValue b => JString ("0x" +:+ hex_text b)
  | ListValue items => JArray (map proto_value_to_json items)
  | MapValue m => json_object (entries m)
  | NodeValue id labels properties => json_node id labels (json_object (entries properties))
  | EdgeValue id label source_id target_id properties => json_edge id label source_id target_id (json_object (entries properties))
  end.
End values.

(** ** local_backend.rs *)
Definition resolve_graph (default_graph graph : string) : string := if String.eqb graph EmptyString then default_graph else graph.
Definition index_name (label property : string) : string := "idx_" +:+ label +:+ "_" +:+ property.
Definition push_unique (keys : list string) (key : string) : list string := if bool_decide (key ∈ keys) then keys else keys ++ [key].
Definition local_entry (label : string) (keys : list string) (m : list (string * (list string * Z))) : list (string * (list string * Z)) :=
  let '(seen, count) := default ([], 0) (btree_get label m) in btree_insert label (foldl push_unique seen keys, count + 1) m.
Definition label_schema (entry : string * (list string * Z)) : LabelSchema := mkLabelSchema entry.1 entry.2.1 entry.2.2.
Definition schema_labels (schema : SchemaInfo) : list LabelInfo :=
  map (λ ls, mkLabelInfo (ls_label ls) (ls_count ls) "node") (si_node_labels schema)
  ++ map (λ ls, mkLabelInfo (ls_label ls) (ls_count ls) "edge") (si_edge_labels schema).
(** The second of the parts that [splitn(3, '_')] gives, or the whole name *)
Fixpoint split_underscore (s : string) : option (string * string) :=
  match s with
  | EmptyString => None
  | String c s' => if Ascii.eqb c "_"%char then Some (EmptyString, s') else (λ p, (String c p.1, p.2)) <$> split_underscore s'
  end.
Definition index_label (name : string) : string :=
  match split_underscore name with
  | Some (_, rest) => match split_underscore rest with Some (label, _) => label | None => rest end
  | None => name
  end.
Definition anyhow `{Environment} {A} (r : result StorageError A) : result string A := map_err StorageError_fmt r.
Section local.
Context `{RocksDB db, Bincode Node, Bincode Edge, Bincode GraphMeta, Bincode Value, Bincode IndexDefinition}.
Context `{Platform, Unicode, DebugFormat, Environment, Crates}.
Variables (default_graph : string) (elapsed : f64).
Implicit Types d : db.

(** [LocalBackend::new] on the opened storage *)
Definition LocalBackend_new d : db :=
  match put_graph_meta d (mkGraphMeta (GraphId_from_name Uuid_new_v5 default_graph) default_graph None) with Ok d' => d' | Err _ => d end.
Definition graph_of (graph : string) : GraphId := GraphId_from_name Uuid_new_v5 (resolve_graph default_graph graph).
Definition local_execute_query d (n : nat) (query graph : string) : db * nat * may_panic string McpQueryResult :=
  match Parser.parse (chars query) with
  | Failed e => (d, n, Err (Raised ("Parse error: " +:+ pe_message e)))
  | Starved => (d, n, Err (Raised "Parse error: "))
  | Parsed program _ =>
      match execute_program d n (graph_of graph) program (mkExecOptions ∅ None None) with
      | (d', n', Ok output) =>
          let rs := output_result output in
          let st := output_stats output in
          let rows := (λ r, value_to_json <$> values r) <$> rs_records rs in
          (d', n', Ok (mkMcpResult (rs_columns rs) rows
             (mkMcpStats (Z.of_nat (length rows)) elapsed (wrap64 (nodes_created st)) (wrap64 (edges_created st))
                (wrap64 (nodes_deleted st)) (wrap64 (edges_deleted st)) (wrap64 (properties_set st))) None))
      | (d', n', Err (Raised (PlanFailed e))) => (d', n', Err (Raised ("Plan error: " +:+ e)))
      | (d', n', Err (Raised (ExecutionFailed e))) => (d', n', Err (Raised ("Execution error: " +:+ e)))
      | (d', n', Err Panic) => (d', n', panic)
      end
  end.
Fixpoint local_schema_loop d (graph_id : GraphId) (nodes : list Node) (acc : list (string * (list string * Z)) * list (string * (list string * Z)))
    : result string (list (string * (list string * Z)) * list (string * (list string * Z))) :=
  match nodes with
  | [] => Ok acc
  | node :: nodes' =>
      let node_schemas := foldl (λ m label, local_entry label (fst <$> node_properties node) m) acc.1 (node_labels node) in
      edges ← anyhow (get_outgoing_edges d graph_id (node_id node) None);
      local_schema_loop d graph_id nodes'
        (node_schemas, foldl (λ m e, local_entry (edge_label e) (fst <$> edge_properties e) m) acc.2 edges)
  end.
Definition local_get_schema d (graph : string) : result string SchemaInfo :=
  nodes ← anyhow (scan_nodes d (graph_of graph));
  schemas ← local_schema_loop d (graph_of graph) nodes ([], []);
  Ok (mkSchemaInfo (map label_schema schemas.1) (map label_schema schemas.2)).
Definition local_list_labels d (graph : string) : result string (list LabelInfo) := schema_labels <$> local_get_schema d graph.
Definition local_list_indexes d (graph : string) : result string (list McpIndexInfo) :=
  defs ← anyhow (engine_list_indexes d (graph_of graph));
  Ok (map (λ def, mkMcpIndex (index_label (idx_name def)) (String.concat ", " (idx_property_names def))) defs).
(** An error field of a result is an error too. *)
Definition statement_done (message : string) (r : may_panic string McpQueryResult) : may_panic string string :=
  result ← r; match mcp_error result with Some err => Err (Raised err) | None => Ok message end.
Definition create_index_query (label property : string) : string :=
  "CREATE INDEX " +:+ index_name label property +:+ " FOR (v:" +:+ label +:+ ") ON (v." +:+ property +:+ ")".
Definition local_create_index d (n : nat) (label property graph : string) : db * nat * may_panic string string :=
  let '(d', n', r) := local_execute_query d n (create_index_query label property) graph in
  (d', n', statement_done ("Index created on :" +:+ label +:+ "(" +:+ property +:+ ")") r).
Definition drop_index_query (label property : string) : string := "DROP INDEX " +:+ index_name label property.
Definition local_drop_index d (n : nat) (label property graph : string) : db * nat * may_panic string string :=
  let '(d', n', r) := local_execute_query d n (drop_index_query label property) graph in
  (d', n', statement_done ("Index dropped on :" +:+ label +:+ "(" +:+ property +:+ ")") r).
Definition local_list_graphs d : result string (list GraphSummary) :=
  metas ← anyhow (list_graphs d); Ok (map (λ m, mkGraphSummary (meta_name m) (Uuid_fmt (meta_id m))) metas).
Definition local_backend : SynapticaBackend (db * nat) := {|
  be_execute_query w query graph := local_execute_query w.1 w.2 query graph;
  be_get_schema w graph := local_get_schema w.1 graph;
  be_list_labels w graph := local_list_labels w.1 graph;
  be_list_indexes w graph := local_list_indexes w.1 graph;
  be_create_index w label property graph := local_create_index w.1 w.2 label property graph;
  be_drop_index w label property graph := local_drop_index w.1 w.2 label property graph;
  be_health w := Ok (mkHealthInfo "ok" "0.1.0");
  be_cluster_status w := Ok None;
  be_list_graphs w := local_list_graphs w.1
|}.
End local.

(** ** remote_backend.rs, over the service of a server; [client_write] is its Raft node, if it has one *)
Definition failed_result (err : string) : McpQueryResult := mkMcpResult [] [] (mkMcpStats 0 0 0 0 0 0 0) (Some err).
Definition remote_stats (rows : list (list Json)) (stats : option Service.QueryStats) : McpQueryStats :=
  match stats with
  | Some s => mkMcpStats (Z.of_nat (length rows)) (f64_of_i64 (execution_time_ms s)) (wrap64 (q_nodes_created s)) (wrap64 (q_edges_created s))
                (wrap64 (q_nodes_deleted s)) (wrap64 (q_edges_deleted s)) (wrap64 (q_properties_set s))
  | None => mkMcpStats (Z.of_nat (length rows)) 0 0 0 0 0 0
  end.
Section remote.
Context `{RocksDB db, Bincode Node, Bincode Edge, Bincode GraphMeta, Bincode Value, Bincode IndexDefinition}.
Context `{Platform, Unicode, DebugFormat, Environment, Crates}.
Variables (default_graph : string) (server_graph : GraphId) (elapsed : Z).
Variable client_write : option (db → nat → string → string → db * nat * may_panic string QueryResponse).
Implicit Types d : db.
#[local] Existing Instance gql_parser.
Abbreviation named := (resolve_graph default_graph).

Definition remote_execute_query d (n : nat) (query graph : string) : db * nat * may_panic string McpQueryResult :=
  let '(d', n', r) := dispatch_query server_graph client_write d n (mkRequest query (named graph)) elapsed in
  (d', n', resp ← r;
     match resp_error resp with
     | Some err => Ok (failed_result err)
     | None =>
         let rows := map (map proto_value_to_json) (resp_rows resp) in
         Ok (mkMcpResult (resp_columns resp) rows (remote_stats rows (resp_stats resp)) None)
     end).
(** The entries of a HashMap, in some order *)
Definition remote_schema (schemas : gmap string (list string * Z)) : list LabelSchema :=
  map (λ entry, mkLabelSchema entry.1 entry.2.1 (wrap64 entry.2.2)) (map_to_list schemas).
Definition remote_get_schema d (graph : string) : result string SchemaInfo :=
  resp ← map_err status_text (get_schema server_graph d (named graph));
  Ok (mkSchemaInfo (remote_schema resp.1) (remote_schema resp.2)).
Definition remote_list_labels d (graph : string) : result string (list LabelInfo) :=
  resp ← map_err status_text (list_labels server_graph d (named graph));
  Ok (map (λ entry, mkLabelInfo entry.1 (wrap64 entry.2) "node") (map_to_list resp.1)
      ++ map (λ entry, mkLabelInfo entry.1 (wrap64 entry.2) "edge") (map_to_list resp.2)).
Definition remote_list_indexes d (graph : string) : result string (list McpIndexInfo) :=
  infos ← map_err status_text (rpc_list_indexes server_graph d (named graph));
  Ok (map (λ i, mkMcpIndex (ii_name i) (String.concat ", " (ii_property_names i))) infos).
Definition remote_create_index d (label property graph : string) : db * may_panic string string :=
  match rpc_create_index server_graph d (mkCreateIndexRequest (named graph) (index_name label property) "node" [property] false) with
  | (d', None) => (d', Ok ("Index created on :" +:+ label +:+ "(" +:+ property +:+ ")"))
  | (d', Some e) => (d', Err (Raised ("Failed to create index: " +:+ e)))
  end.
Definition remote_drop_index d (label property graph : string) : db * may_panic string string :=
  match rpc_drop_index server_graph d (named graph) (index_name label property) with
  | (d', None) => (d', Ok ("Index dropped on :" +:+ label +:+ "(" +:+ property +:+ ")"))
  | (d', Some e) => (d', Err (Raised ("Failed to drop index: " +:+ e)))
  end.
(** [status] is the answer of the server's cluster_status: its own fields and its nodes. *)
Definition remote_cluster_status (status : string * string * string * list (string * string * string)) : option McpClusterInfo :=
  let '(node_id, role, leader_id, nodes) := status in
  Some (mkMcpCluster node_id role leader_id (map (λ '(i, a, r), mkMcpNode i a r) nodes)).
Definition remote_list_graphs d : result string (list GraphSummary) :=
  infos ← map_err status_text (rpc_list_graphs d); Ok (map (λ g, mkGraphSummary g.1 g.2) infos).
Variable status : db → string * string * string * list (string * string * string).
Definition remote_backend : SynapticaBackend (db * nat) := {|
  be_execute_query w query graph := remote_execute_query w.1 w.2 query graph;
  be_get_schema w graph := remote_get_schema w.1 graph;
  be_list_labels w graph := remote_list_labels w.1 graph;
  be_list_indexes w graph := remote_list_indexes w.1 graph;
  be_create_index w label property graph := let '(d', r) := remote_create_index w.1 label property graph in (d', w.2, r);
  be_drop_index w label property graph := let '(d', r) := remote_drop_index w.1 label property graph in (d', w.2, r);
  be_health w := Ok (mkHealthInfo "ok" "0.1.0");
  be_cluster_status w := Ok (remote_cluster_status (status w.1));
  be_list_graphs w := remote_list_graphs w.1
|}.
End remote.

(** ** server.rs: the texts of the tools *)
Definition lines (l : list string) : string := String.concat EmptyString ((λ s, s +:+ newline) <$> l).
Definition keys_text (none : string) (keys : list string) : string :=
  match keys with [] => none | _ => String.concat ", " keys end.
Definition error_text (e : string) : string := "Error: " +:+ e.
Definition format_mutation_stats (stats : McpQueryStats) : string :=
  let part (n : Z) (what : string) : list string := if 0 <? n then [pretty n +:+ what] else [] in
  let parts :=
    part (mcp_nodes_created stats) " node(s) created" ++ part (mcp_edges_created stats) " edge(s) created"
    ++ part (mcp_nodes_deleted stats) " node(s) deleted" ++ part (mcp_edges_deleted stats) " edge(s) deleted"
    ++ part (mcp_properties_set stats) " property(ies) set" in
  match parts with [] => "No changes."%string | _ => String.concat ", " parts +:+ "." end.
Section formatting.
Context `{Crates}.
Definition is_type (obj : list (string * Json)) (ty : string) : bool :=
  match btree_get "_type" obj with Some (JString s) => String.eqb s ty | _ => false end.
Definition as_string (v : Json) : option string := match v with JString s => Some s | _ => None end.
Fixpoint format_json_value (val : Json) : string :=
  match val with
  | JNull => "NULL"
  | JBool b => if b then "true" else "false"
  | JInteger i => pretty i
  | JFloat f => json_float_fmt f
  | JString s => s
  | JArray arr => "[" +:+ String.concat ", " (map format_json_value arr) +:+ "]"
  | JObject obj =>
      if is_type obj "node" then
        let labels :=
          match btree_get "labels" obj with
          | Some (JArray arr) => String.concat EmptyString ((λ s, ":" +:+ s) <$> omap as_string arr)
          | _ => EmptyString
          end in
        let props := (fix find (entries : list (string * Json)) : string :=
          match entries with
          | [] => EmptyString
          | (k, v) :: rest =>
              if String.eqb k "properties" then
                match v with
                | JObject m =>
                    String.concat ", " ((fix all (m : list (string * Json)) : list string :=
                      match m with [] => [] | (k, v) :: m' => (k +:+ ": " +:+ format_json_value v) :: all m' end) m)
                | _ => EmptyString
                end
              else find rest
          end) obj in
        "(" +:+ labels +:+ " {" +:+ props +:+ "})"
      else if is_type obj "edge" then
        "-[:" +:+ default EmptyString (v ← btree_get "label" obj; as_string v) +:+ "]->"
      else json_object_fmt obj
  end%string.
(** Columns are as wide as their longest text in bytes, 60 at most for values; [{:width$}] pads to that
    many characters. *)
Fixpoint widen_row (widths : list nat) (row : list Json) : list nat :=
  match widths, row with
  | w :: widths', v :: row' => Nat.max w (Nat.min (str_len (format_json_value v)) 60) :: widen_row widths' row'
  | _, _ => widths
  end.
Fixpoint format_row (widths : list nat) (row : list Json) : list string :=
  match row with
  | [] => []
  | v :: row' => pad (format_json_value v) (hd 0%nat widths) :: format_row (tl widths) row'
  end.
Definition format_query_result (result : McpQueryResult) : string :=
  match mcp_columns result with
  | [] => EmptyString
  | columns =>
      let widths := foldl widen_row (str_len <$> columns) (mcp_rows result) in
      lines ([String.concat " | " (zip_with pad columns widths);
              String.concat "-+-" ((λ w, String.concat EmptyString (replicate w "-"%string)) <$> widths)]
             ++ ((λ row, String.concat " | " (format_row widths row)) <$> mcp_rows result))
  end
  +:+ newline +:+ pretty (mcp_rows_returned (mcp_stats result)) +:+ " row(s) returned in "
  +:+ fixed_1 (mcp_execution_time_ms (mcp_stats result)) +:+ "ms".
End formatting.

Section tools.
Context `{SynapticaBackend W, Crates}.
Definition tool_query (w : W) (query : string) (graph : option string) : W * option string :=
  let '(w', r) := be_execute_query w query (default EmptyString graph) in
  (w', match r with
       | Ok result =>
           match mcp_error result with
           | Some err => Some (error_text err)
           | None =>
               match mcp_columns result, mcp_rows result with
               | [], [] => Some ("Query executed successfully in " +:+ fixed_1 (mcp_execution_time_ms (mcp_stats result)) +:+ "ms. "
                                 +:+ format_mutation_stats (mcp_stats result))
               | _, _ => Some (format_query_result result)
               end
           end
       | Err (Raised e) => Some (error_text e)
       | Err Panic => None
       end).
Definition schema_line (what none : string) (ls : LabelSchema) : string :=
  "  :" +:+ ls_label ls +:+ " (" +:+ pretty (ls_count ls) +:+ " " +:+ what +:+ ") — properties: " +:+ keys_text none (ls_property_keys ls).
Definition tool_get_schema (w : W) (graph : option string) : string :=
  match be_get_schema w (default EmptyString graph) with
  | Ok schema =>
      "=== Graph Schema ===" +:+ newline +:+ newline +:+
      match si_node_labels schema, si_edge_labels schema with
      | [], [] => "(empty graph — no nodes or edges)" +:+ newline
      | nodes, edges =>
          match nodes with [] => EmptyString | _ => "Node Labels:" +:+ newline +:+ lines (map (schema_line "nodes" "(none)") nodes) end
          +:+ match edges with
              | [] => EmptyString
              | _ => newline +:+ "Edge Labels:" +:+ newline +:+ lines (map (schema_line "edges" "(none)") edges)
              end
      end
  | Err e => error_text e
  end.
Definition tool_list_labels (w : W) (graph : option string) : string :=
  match be_list_labels w (default EmptyString graph) with
  | Ok [] => "No labels found (empty graph)."
  | Ok labels => lines (map (λ l, "  :" +:+ li_name l +:+ " (" +:+ li_kind l +:+ ", " +:+ pretty (li_count l) +:+ " count)") labels)
  | Err e => error_text e
  end.
Definition tool_list_indexes (w : W) (graph : option string) : string :=
  match be_list_indexes w (default EmptyString graph) with
  | Ok [] => "No indexes defined."
  | Ok indexes => "Indexes:" +:+ newline +:+ lines (map (λ i, "  :" +:+ mi_label i +:+ " (" +:+ mi_property i +:+ ")") indexes)
  | Err e => error_text e
  end.
(** The message of a call, or its error; no answer when it panics *)
Definition tool_message (r : may_panic string string) : option string :=
  match r with Ok msg => Some msg | Err (Raised e) => Some (error_text e) | Err Panic => None end.
Definition tool_create_index (w : W) (label property : string) (graph : option string) : W * option string :=
  let '(w', r) := be_create_index w label property (default EmptyString graph) in (w', tool_message r).
Definition tool_drop_index (w : W) (label property : string) (graph : option string) : W * option string :=
  let '(w', r) := be_drop_index w label property (default EmptyString graph) in (w', tool_message r).
Definition tool_health (w : W) : string :=
  match be_health w with
  | Ok h => "Status: " +:+ hi_status h +:+ newline +:+ "Version: " +:+ hi_version h
  | Err e => error_text e
  end.
Definition tool_cluster_status (w : W) : string :=
  match be_cluster_status w with
  | Ok (Some info) =>
      "Node: " +:+ mc_node_id info +:+ " (" +:+ mc_role info +:+ ")" +:+ newline +:+ "Leader: " +:+ mc_leader_id info +:+ newline
      +:+ newline +:+ "Members:" +:+ newline
      +:+ lines (map (λ n, "  " +:+ mn_node_id n +:+ " — " +:+ mn_address n +:+ " (" +:+ mn_role n +:+ ")") (mc_nodes info))
  | Ok None => "Not running in cluster mode."
  | Err e => error_text e
  end.
Definition tool_list_graphs (w : W) : string :=
  match be_list_graphs w with
  | Ok [] => "No graphs found."
  | Ok graphs => "Available graphs:" +:+ newline +:+ lines (map (λ g, "  " +:+ gs_name g +:+ " (id: " +:+ gs_id g +:+ ")") graphs)
  | Err e => error_text e
  end.
Definition tool_create_graph (w : W) (name : string) : W * option string :=
  let '(w', r) := be_execute_query w ("CREATE GRAPH " +:+ name) EmptyString in
  (w', match r with
       | Ok result =>
           match mcp_error result with
           | Some err => Some (error_text err)
           | None => Some ("Graph '" +:+ name +:+ "' created successfully.")
           end
       | Err (Raised e) => Some (error_text e)
       | Err Panic => None
       end).

(** ** resources.rs *)
Definition resource_line (what : string) (ls : LabelSchema) : string :=
  "  :" +:+ ls_label ls +:+ " (" +:+ pretty (ls_count ls) +:+ " " +:+ what +:+ ") — properties: [" +:+ String.concat ", " (ls_property_keys ls) +:+ "]".
Definition read_resource (uri : string) (w : W) : result string string :=
  if String.eqb uri "synaptica://schema" then
    schema ← be_get_schema w EmptyString;
    Ok ("=== Synaptica Graph Schema ===" +:+ newline +:+ newline +:+ "Node Labels:" +:+ newline
        +:+ lines (map (resource_line "nodes") (si_node_labels schema)) +:+ newline +:+ "Edge Labels:" +:+ newline
        +:+ lines (map (resource_line "edges") (si_edge_labels schema)))
  else if String.eqb uri "synaptica://labels" then
    labels ← be_list_labels w EmptyString;
    Ok ("=== Labels ===" +:+ newline
        +:+ lines (map (λ l, "  :" +:+ li_name l +:+ " (" +:+ li_kind l +:+ ", count: " +:+ pretty (li_count l) +:+ ")") labels))
  else Err ("Unknown resource URI: " +:+ uri).
End tools.
(** ** main.rs: the backend of a mode *)
Inductive Mode := LocalMode | RemoteMode.
Definition backend_mode (mode : string) : result string Mode :=
  if String.eqb mode "stdio" || String.eqb mode "local" then Ok LocalMode
  else if String.eqb mode "remote" then Ok RemoteMode
  else Err ("Unknown mode '" +:+ mode +:+ "'. Use 'stdio' (local embedded) or 'remote' (gRPC client).").

(** ** Both backends give the same values *)
Section agreement.
Context `{Platform, Crates}.
Lemma value_json_agree v : proto_value_to_json (value_to_proto v) = value_to_json v.
Proof.
  assert (∀ m : list (string * Value), Forall (λ kv, proto_value_to_json (value_to_proto kv.2) = value_to_json kv.2) m →
    (fix entries (m : list (string * GqlValue)) : list (string * Json) :=
       match m with [] => [] | (k, v) :: m' => (k, proto_value_to_json v) :: entries m' end)
      ((fix entries (m : list (string * Value)) : list (string * GqlValue) :=
          match m with [] => [] | (k, w) :: m' => (k, value_to_proto w) :: entries m' end) m) =
    (fix entries (m : list (string * Value)) : list (string * Json) :=
       match m with [] => [] | (k, v) :: m' => (k, value_to_json v) :: entries m' end) m) as Hentries.
  { induction 1 as [|[k w] m Hw _ IH]; [done|]. cbn in Hw. by rewrite Hw, IH. }
  induction v as [|?|?|?|?|?|?|?|?|?|l Hl|m Hm|i l m Hm|i l s t m Hm] using Value_tree_ind; try done; cbn;
    [|by rewrite Hentries..]. f_equal. induction Hl as [|w l Hw _ IH]; [done|]. cbn. by rewrite Hw, IH.
Qed.
Lemma rows_json_agree rows : map (map proto_value_to_json) ((λ r, value_to_proto <$> values r) <$> rows) = (λ r, value_to_json <$> values r) <$> rows.
Proof.
  induction rows as [|r rows IH]; [done|]. cbn. f_equal; [|exact IH]. induction (values r) as [|v l IHl]; [done|].
  cbn. by rewrite value_json_agree, IHl.
Qed.
End agreement.

(** The schemas: the sorted map of the local backend against the HashMap of the service *)
Definition entry_agrees (local : option (list string * Z)) (remote : option (list string * Z)) : Prop :=
  match local, remote with
  | Some (keys, count), Some (keys', count') =>
      count = count' ∧ 0 ≤ count ∧ NoDup keys ∧ StronglySorted str_lt keys' ∧ ∀ k, k ∈ keys ↔ k ∈ keys'
  | None, None => True
  | _, _ => False
  end.
Record schema_agrees (l : list (string * (list string * Z))) (m : gmap string (list string * Z)) : Prop := {
  agree_sorted : StronglySorted str_lt l.*1;
  agree_entries label : entry_agrees (btree_get label l) (m !! label)
}.
Lemma keys_agree added keys keys' : NoDup keys → StronglySorted str_lt keys' → (∀ k, k ∈ keys ↔ k ∈ keys') →
  NoDup (foldl push_unique keys added) ∧ StronglySorted str_lt (foldl (λ s k, btree_set_insert k s) keys' added) ∧
  ∀ k, k ∈ foldl push_unique keys added ↔ k ∈ foldl (λ s k, btree_set_insert k s) keys' added.
Proof.
  revert keys keys'. induction added as [|a added IH]; intros keys keys' Hd Hs Hk; [done|]. cbn [foldl].
  apply IH; [|by apply btree_set_insert_sorted|].
  - unfold push_unique. case_bool_decide; [done|]. apply NoDup_app. split_and!; [done|set_solver|apply NoDup_singleton].
  - intros k. rewrite elem_of_btree_set_insert. unfold push_unique. case_bool_decide as Ha; [|set_solver].
    split; [intros; right; by apply Hk|]. intros [->|?]; [done|by apply Hk].
Qed.
Lemma entry_step l m label keys : schema_agrees l m → schema_agrees (local_entry label keys l) (schema_entry label keys m).
Proof.
  intros [Hs He]. unfold local_entry, schema_entry. pose proof (He label) as Hl. unfold entry_agrees in Hl.
  assert (∃ k1 k2 c, default ([], 0) (btree_get label l) = (k1, c) ∧ default ([], 0) (m !! label) = (k2, c) ∧ 0 ≤ c ∧
    NoDup k1 ∧ StronglySorted str_lt k2 ∧ ∀ k, k ∈ k1 ↔ k ∈ k2) as (k1 & k2 & c & -> & -> & Hc & Hd & Hs2 & Hk).
  { destruct (btree_get label l) as [[k1 c]|], (m !! label) as [[k2 c']|]; try done.
    - destruct Hl as (-> & ? & ? & ? & ?). by exists k1, k2, c'.
    - exists [], [], 0. split_and!; try done; constructor. }
  destruct (keys_agree keys k1 k2 Hd Hs2 Hk) as (Hd' & Hs' & Hk'). split.
  - rewrite btree_insert_keys. by apply btree_set_insert_sorted.
  - intros label'. destruct (decide (label = label')) as [<-|Hne].
    + rewrite btree_get_insert_eq, lookup_insert_eq. cbn. split_and!; try done. lia.
    + rewrite btree_get_insert_ne, lookup_insert_ne by done. apply He.
Qed.
Lemma entries_step {A} (f : A → string) (g : A → list string) xs l m : schema_agrees l m →
  schema_agrees (foldl (λ m x, local_entry (f x) (g x) m) l xs) (foldl (λ m x, schema_entry (f x) (g x) m) m xs).
Proof. revert l m. induction xs as [|x xs IH]; intros l m Hlm; [done|]. by apply IH, entry_step. Qed.
Lemma schema_empty : schema_agrees [] ∅.
Proof. split; [constructor|]. intros label. by rewrite lookup_empty. Qed.
(** What agreeing schemas list: the same labels with the same counts and, up to their order, the same keys *)
Definition same_labels (local remote : list LabelSchema) : Prop :=
  NoDup (ls_label <$> local) ∧ NoDup (ls_label <$> remote) ∧
  (∀ ls, ls ∈ local → ∃ ls', ls' ∈ remote ∧ ls_label ls' = ls_label ls ∧ ls_count ls' = ls_count ls ∧ ls_property_keys ls' ≡ₚ ls_property_keys ls) ∧
  (∀ ls', ls' ∈ remote → ∃ ls, ls ∈ local ∧ ls_label ls = ls_label ls').
Lemma schema_labels_agree l m : schema_agrees l m → (∀ ls, ls ∈ map label_schema l → ls_count ls < two64) →
  same_labels (map label_schema l) (remote_schema m).
Proof.
  intros [Hs He] Hc. assert (NoDup l.*1) as Hd by (by apply sorted_keys_NoDup).
  assert (map label_schema l = label_schema <$> l) as El by done. rewrite El in *. unfold remote_schema. split_and!.
  - rewrite <- list_fmap_compose. exact Hd.
  - change (map ?f ?l) with (f <$> l). rewrite <- list_fmap_compose. apply NoDup_fst_map_to_list.
  - intros ls Hls. apply list_elem_of_fmap in Hls as ([label [keys count]] & -> & Hin). specialize (Hc (label_schema (label, (keys, count)))).
    apply (btree_get_elem _ _ _ Hd) in Hin as Hg. pose proof (He label) as Hl. rewrite Hg in Hl.
    destruct (m !! label) as [[keys' count']|] eqn:Hm; [|done]. destruct Hl as (<- & H0 & Hdk & Hsk & Hk).
    exists (mkLabelSchema label keys' (wrap64 count)). cbn. split_and!; [|done| |].
    + apply list_elem_of_fmap. exists (label, (keys', count)). split; [done|]. by apply elem_of_map_to_list.
    + unfold wrap64. apply Z.mod_small. split; [done|]. apply Hc. apply list_elem_of_fmap. by exists (label, (keys, count)).
    + apply NoDup_Permutation; [by apply sorted_keys_NoDup|done|]. intros k. by rewrite Hk.
  - intros ls' Hls. apply list_elem_of_fmap in Hls as ([label [keys count]] & -> & Hin%elem_of_map_to_list).
    pose proof (He label) as Hl. rewrite Hin in Hl. destruct (btree_get label l) as [[keys' count']|] eqn:Hg; [|done].
    exists (label_schema (label, (keys', count'))). split; [|done]. apply list_elem_of_fmap. eexists. split; [done|].
    by apply (btree_get_elem _ _ _ Hd).
Qed.

(** ** The two backends on the same database *)
Definition same_result (local remote : McpQueryResult) (elapsed : Z) : Prop :=
  mcp_columns remote = mcp_columns local ∧ mcp_rows remote = mcp_rows local ∧ mcp_error local = None ∧ mcp_error remote = None ∧
  mcp_stats remote = mkMcpStats (mcp_rows_returned (mcp_stats local)) (f64_of_i64 (Z.max 1 elapsed)) (mcp_nodes_created (mcp_stats local))
    (mcp_edges_created (mcp_stats local)) (mcp_nodes_deleted (mcp_stats local)) (mcp_edges_deleted (mcp_stats local))
    (mcp_properties_set (mcp_stats local)).
Section backends.
Context `{RocksDBLaws db, BincodeLaws Node, BincodeLaws Edge, BincodeLaws GraphMeta, Bincode Value, Bincode IndexDefinition}.
Context `{Platform, Unicode, DebugFormat, Environment, Crates}.
Implicit Types (d : db) (G : graph).

Lemma local_schema_agrees d G g nodes acc acc' : represents d G → schema_agrees acc.1 acc'.1 → schema_agrees acc.2 acc'.2 →
  ∃ l, local_schema_loop d g nodes acc = Ok l ∧
    let m := foldl (λ acc node,
        (foldl (λ m label, schema_entry label (fst <$> node_properties node) m) acc.1 (node_labels node),
         foldl (λ m e, schema_entry (edge_label e) (fst <$> edge_properties e) m) acc.2 (edges_or_none d g node))) acc' nodes in
    schema_agrees l.1 m.1 ∧ schema_agrees l.2 m.2.
Proof.
  intros HR. revert acc acc'. induction nodes as [|x nodes IH]; intros acc acc' H1' H2'; [by exists acc|].
  cbn [local_schema_loop foldl]. destruct (get_outgoing_edges_rep d G g (node_id x) None HR) as (edges & Hedges & _).
  assert (edges_or_none d g x = edges) as -> by (unfold edges_or_none; by rewrite Hedges).
  rewrite Hedges. cbn [anyhow map_err mbind result_bind].
  apply IH; cbn [fst snd]; by apply entries_step.
Qed.

(** The remote server runs the query itself: it stands alone, or the query writes nothing. *)
Definition answered_here (client_write : option (db → nat → string → string → db * nat * may_panic string QueryResponse)) (query : string) : Prop :=
  match client_write with
  | None => True
  | Some _ => ∀ program, @parse_query gql_parser query = Ok program → is_write_query program = false
  end.
#[local] Existing Instance gql_parser.
Lemma answered_here_alone client_write server_graph d n query graph_name elapsed : answered_here client_write query →
  dispatch_query server_graph client_write d n (mkRequest query graph_name) elapsed =
  dispatch_query server_graph None d n (mkRequest query graph_name) elapsed.
Proof.
  unfold answered_here, dispatch_query. cbn [req_query]. destruct client_write as [raft|]; [|done]. intros Hw.
  destruct (parse_query query) as [program|e]; [|done]. by rewrite (Hw program).
Qed.
(** C36: The embedded and the remote backend agree on queries, lists of graphs and schemas. On the same
    database, for a graph that is named (by the call or by default): when the remote server stands alone, or
    is a member of a cluster and the query writes nothing, a query leaves both the same database and,
    when it succeeds, the same columns, the same rows as JSON, dates and durations included, and the
    same counts; when it fails both report an error, the local one as the failure of the call and the remote
    one in the error field of the result, and it panics in both or in none. (A write on a member of a
    cluster goes through Raft, which returns no rows.) Both list the same graphs, and on a database that
    represents a graph their schemas have the same labels with the same counts and, up to the order,
    the same property keys. (The tools that create an index do not agree, [create_index_tools_differ].) *)
Theorem backends_agree client_write d G n query graph default_graph server_graph elapsed_ms elapsed :
  resolve_graph default_graph graph ≠ EmptyString → represents d G →
  let local := local_execute_query default_graph elapsed_ms d n query graph in
  let remote := remote_execute_query default_graph server_graph elapsed client_write d n query graph in
  (answered_here client_write query →
     remote.1 = local.1 ∧
     match local.2 with
     | Ok result => ∃ result', remote.2 = Ok result' ∧ same_result result result' elapsed
     | Err (Raised _) => ∃ e, remote.2 = Ok (failed_result e)
     | Err Panic => remote.2 = panic
     end) ∧
  (∀ graphs, local_list_graphs d = Ok graphs → remote_list_graphs d = Ok graphs) ∧
  (∃ schema schema', local_get_schema default_graph d graph = Ok schema ∧ remote_get_schema default_graph server_graph d graph = Ok schema' ∧
     ((∀ ls, ls ∈ si_node_labels schema ++ si_edge_labels schema → ls_count ls < two64) →
      same_labels (si_node_labels schema) (si_node_labels schema') ∧ same_labels (si_edge_labels schema) (si_edge_labels schema'))).
Proof.
  intros Hname HR local remote.
  assert (resolve_graph_id server_graph (resolve_graph default_graph graph) = graph_of default_graph graph) as Hg.
  { unfold resolve_graph_id, graph_of. by rewrite (proj2 (String.eqb_neq _ _) Hname). }
  split_and!.
  - intros Hhere. unfold local, remote, local_execute_query, remote_execute_query.
    rewrite answered_here_alone by done. unfold dispatch_query, execute_local. cbn [req_query req_graph_name parse_query gql_parser].
    destruct (Parser.parse (chars query)) as [program p|e|]; [|by split; [|eexists]..]. rewrite Hg.
    destruct (execute_program d n (graph_of default_graph graph) program _) as [[d' n'] [output|[[e|e]|]]]; cbn;
      [|by split; [|eexists]..|done]. split; [done|]. eexists. split; [done|]. unfold same_result. cbn.
    rewrite rows_json_agree, length_fmap. done.
  - intros graphs. unfold local_list_graphs, remote_list_graphs, rpc_list_graphs, anyhow. destruct (list_graphs d) as [metas|e]; [|done].
    cbn. intros [= <-]. f_equal. clear. induction metas as [|m metas IH]; [done|]. cbn. by rewrite IH.
  - unfold local_get_schema, remote_get_schema, get_schema. rewrite Hg.
    destruct (scan_nodes_rep d G (graph_of default_graph graph) HR) as (nodes & -> & _). cbn [anyhow map_err mbind result_bind].
    destruct (local_schema_agrees d G (graph_of default_graph graph) nodes ([], []) (∅, ∅) HR schema_empty schema_empty) as (l & -> & Hn & He).
    cbn [mbind result_bind map_err]. eexists _, _. split_and!; [done|done|]. cbn [si_node_labels si_edge_labels]. intros Hc.
    split; apply schema_labels_agree; try done; intros ls Hls; apply Hc, elem_of_app; auto.
Qed.
End backends.

(** ** The statements the tools write *)
Section statements.
Context `{Platform, Unicode, DebugFormat}.
Lemma create_graph_parses name : word name = true →
  @parse_query gql_parser ("CREATE GRAPH " +:+ name) = Ok (mkProgram [SCreateGraph (mkCreateGraph name false None)]).
Proof.
  intros Hw. apply (spelled_parses _ _ [false]); [|done|].
  - change (print_program _ _) with ([TCreate] ++ [TGraph] ++ [ident name]).
    change ("CREATE GRAPH " +:+ name) with (("CREATE" +:+ " ") +:+ ("GRAPH" +:+ " ") +:+ name).
    apply spells_after; [by apply (spells_keyword _ "CREATE" _ [32]); [|right]|].
    apply spells_after; [by apply (spells_keyword _ "GRAPH" _ [32]); [|right]|]. by apply spells_word.
  - unfold writable_program. cbn. by rewrite word_utf8.
Qed.
Lemma drop_index_parses name : word name = true →
  @parse_query gql_parser ("DROP INDEX " +:+ name) = Ok (mkProgram [SDropIndex (mkDropIndex name false)]).
Proof.
  intros Hw. apply (spelled_parses _ _ [false]); [|done|].
  - assert (print_program (mkProgram [SDropIndex (mkDropIndex name false)]) [false] = [TDrop] ++ [TIndex] ++ [ident name]) as ->.
    { cbn. by rewrite name_word. }
    change ("DROP INDEX " +:+ name) with (("DROP" +:+ " ") +:+ ("INDEX" +:+ " ") +:+ name).
    apply spells_after; [by apply (spells_keyword _ "DROP" _ [32]); [|right]|].
    apply spells_after; [by apply (spells_keyword _ "INDEX" _ [32]); [|right]|]. by apply spells_word.
  - unfold writable_program. cbn. by rewrite word_utf8.
Qed.
End statements.

(** ** Samples *)
#[local] Existing Instances countable_bincode countable_bincode_laws dev_build dev_unicode plain_debug env1 env1_laws.
#[local] Instance plain_crates : Crates := {|
  hex_text := hex_encode; json_float_fmt f := "0.0"%string; json_object_fmt m := "{}"%string; fixed_1 f := "0.0"%string; status_text e := e
|}.
Definition sample_local (d : MemDB) (query : string) : MemDB * nat * may_panic string McpQueryResult := local_execute_query "default" 0 d 9 query EmptyString.
Definition sample_parse (query : string) : result string GqlProgram := @parse_query gql_parser query.

(** What the tools write is read as one statement when names are words of the language, and only then.
    create_graph with a word and drop_index with a word of a name are read as that statement. A name
    that is no word is not refused: what follows it is read, and executed, as further statements. The
    label an index is listed under is cut from its name at the underscores by the local backend, so
    that a label with an underscore is shortened, while the remote one shows the whole name of the
    index. The CREATE INDEX form that the prompts document does not parse. *)
Theorem tool_statements name : word name = true →
  sample_parse ("CREATE GRAPH " +:+ name) = Ok (mkProgram [SCreateGraph (mkCreateGraph name false None)]) ∧
  sample_parse ("DROP INDEX " +:+ name) = Ok (mkProgram [SDropIndex (mkDropIndex name false)]) ∧
  sample_parse ("CREATE GRAPH " +:+ "g DROP GRAPH other") =
    Ok (mkProgram [SCreateGraph (mkCreateGraph "g" false None); SDropGraph (mkDropGraph "other" false)]) ∧
  sample_parse (create_index_query "Person" "age") = Ok (mkProgram [SCreateIndex (mkCreateIndex "idx_Person_age" false "node" (Some "Person"%string) ["age"%string] false)]) ∧
  index_label (index_name "Person" "age") = "Person"%string ∧ index_label (index_name "my_label" "age") = "my"%string ∧
  (∃ e, sample_parse "CREATE INDEX ON :Person(name)" = Err e).
Proof.
  intros Hw. split_and!; [by apply create_graph_parses|by apply drop_index_parses|vm_compute; reflexivity..|].
  eexists. vm_compute. reflexivity.
Qed.
Definition persons_query : string := "MATCH (n:Person) WHERE n.age = 30 RETURN n.age".
Definition row_count (r : may_panic string McpQueryResult) : option nat :=
  match r with Ok res => Some (length (mcp_rows res)) | Err _ => None end.
(** The tool that creates an index gives different databases: the embedded backend runs CREATE INDEX,
    which indexes the nodes there are, the remote one stores the definition, and the next query finds
    nothing. *)
Theorem create_index_tools_differ :
  let found d := row_count (sample_local d persons_query).2 in
  found two_nodes = Some 1%nat ∧
  (let run := local_create_index "default" 0 two_nodes 9 "Person" "age" EmptyString in
   run.2 = Ok "Index created on :Person(age)"%string ∧ found run.1.1 = Some 1%nat) ∧
  (let run := remote_create_index "default" sample_g two_nodes "Person" "age" EmptyString in
   run.2 = Ok "Index created on :Person(age)"%string ∧ found run.1 = Some 0%nat).
Proof. cbv zeta. split_and!; vm_compute; reflexivity. Qed.

(** A member of a cluster, whose writes go through Raft *)
#[local] Existing Instance gql_parser.
Definition member_write : MemDB → nat → string → string → MemDB * nat * may_panic string QueryResponse := single_node_write 5.
Lemma backends_agree_witness :
  ∃ result, (remote_execute_query "default" sample_g 5 (Some member_write) sample_graph_db 0 "MATCH (n:Person) RETURN n.age" EmptyString).2 = Ok result ∧
    length (mcp_rows result) = 2%nat.
Proof.
  destruct (backends_agree (Some member_write) sample_graph_db sample_graph 0 "MATCH (n:Person) RETURN n.age" EmptyString "default" sample_g 0 5)
    as (Hquery & _); [discriminate|exact sample_represents|].
  destruct Hquery as (_ & Hres).
  { intros program Hp. vm_compute in Hp. injection Hp as <-. reflexivity. }
  destruct (local_execute_query "default" 0 sample_graph_db 0 "MATCH (n:Person) RETURN n.age" EmptyString) as [[d n] r] eqn:E.
  assert (row_count r = Some 2%nat) as Hr.
  { change r with (d, n, r).2. rewrite <- E. vm_compute. reflexivity. }
  cbn [snd] in Hres. destruct r as [res|[e|]]; [|discriminate..]. destruct Hres as (res' & Hres & Hsame). exists res'. split; [exact Hres|].
  destruct Hsame as (_ & -> & _). by injection Hr.
Defined.
Lemma tool_statements_witness : sample_parse "CREATE GRAPH social" = Ok (mkProgram [SCreateGraph (mkCreateGraph "social" false None)]).
Proof. exact (proj1 (tool_statements "social" eq_refl)). Defined.
