(* ===== verification/Backup.v ===== *)
(** * Backups (synaptica-storage: backup.rs; synaptica-server: client_service.rs; synaptica-mcp)

    The backup manager over a file system: a finite map from absolute paths, lists of names, to
    directories and files. There are no symbolic links; a path text is walked component by
    component, with the dots as the kernel has them. The checkpoint of RocksDB is the class
    [Checkpoint] with the documented law that the directory must not exist; the JSON of the
    metadata file is the class [MetaJson]; the time of a backup is an argument. *)
From S2P Require Import Prelude Types.

(** ** The file system *)
Inductive entry := Directory | FileOf (content : string).
Abbreviation file_path := (list string).
Abbreviation FS := (gmap file_path entry).
Definition slash : Ascii.ascii := Ascii.ascii_of_nat 47.
(** The components of a path text: what stands between slashes *)
Fixpoint components_from (part s : string) : list string :=
  match s with
  | EmptyString => [part]
  | String c s' => if Ascii.eqb c slash then part :: components_from EmptyString s' else components_from (part +:+ String c EmptyString) s'
  end.
Definition components (s : string) : list string := components_from EmptyString s.
Definition is_absolute (s : string) : bool := match s with String c _ => Ascii.eqb c slash | EmptyString => false end.
(** [Path::join]: an absolute path replaces the base *)
Definition join_base (base : file_path) (name : string) : file_path := if is_absolute name then [] else base.
Definition is_dir (fs : FS) (p : file_path) : bool :=
  match p with [] => true | _ => match fs !! p with Some Directory => true | _ => false end end.
Definition is_dot (c : string) : bool := String.eqb c EmptyString || String.eqb c ".".
Definition parent (p : file_path) : file_path := take (length p - 1) p.
(** Where a path leads, if it exists *)
Fixpoint walk (fs : FS) (cur : file_path) (comps : list string) : option file_path :=
  match comps with
  | [] => Some cur
  | c :: comps' =>
      if is_dir fs cur then
        if is_dot c then walk fs cur comps'
        else if String.eqb c ".." then walk fs (parent cur) comps'
        else match fs !! (cur ++ [c]) with Some _ => walk fs (cur ++ [c]) comps' | None => None end
      else None
  end.
(** Errors of the storage: not found, and those of the system or the database, with their texts *)
Inductive BackupError := NotFound (message : string) | Failed (message : string).
Definition BackupError_fmt (e : BackupError) : string := match e with NotFound m => "not found: " +:+ m | Failed m => m end.
(** [create_dir_all] *)
Fixpoint create_dir_all (fs : FS) (cur : file_path) (comps : list string) : result BackupError (FS * file_path) :=
  match comps with
  | [] => Ok (fs, cur)
  | c :: comps' =>
      if is_dot c then create_dir_all fs cur comps'
      else if String.eqb c ".." then create_dir_all fs (parent cur) comps'
      else match fs !! (cur ++ [c]) with
           | Some Directory => create_dir_all fs (cur ++ [c]) comps'
           | Some (FileOf _) => Err (Failed "not a directory")
           | None => create_dir_all (<[cur ++ [c] := Directory]> fs) (cur ++ [c]) comps'
           end
  end.
(** [remove_dir_all] of what a text leads to: the content goes, then the directory itself, unless the
    text ends in a dot component, which cannot be removed *)
Definition remove_dir_all (fs : FS) (p : file_path) (last_component : string) : FS * result BackupError unit :=
  if is_dir fs p then
    if String.eqb last_component "." || String.eqb last_component ".." then
      (filter (λ kv, ¬ (p `prefix_of` kv.1) ∨ kv.1 = p) fs, Err (Failed "invalid argument"))
    else (filter (λ kv, ¬ p `prefix_of` kv.1) fs, Ok tt)
  else (fs, Err (Failed "not a directory")).
(** The names directly under a directory *)
Definition children (fs : FS) (p : file_path) : list string :=
  omap (λ kv : file_path * entry, match last kv.1 with Some c => if bool_decide (kv.1 = p ++ [c]) then Some c else None | None => None end) (map_to_list fs).
(** The bytes of all files below a directory *)
Definition dir_size (fs : FS) (p : file_path) : Z :=
  foldr Z.add 0 ((λ kv : file_path * entry, match kv.2 with FileOf s => Z.of_nat (str_len s) | Directory => 0 end)
    <$> filter (λ kv, p `prefix_of` kv.1 ∧ kv.1 ≠ p) (map_to_list fs)).

(** ** backup.rs *)
Record BackupMeta := mkBackupMeta { bm_name : string; bm_label : string; bm_created_at : string; bm_size_bytes : Z }.
(** The JSON of the metadata: the text of a label, a time and a name; and the label and time of a text, when
    they are strings *)
Class MetaJson : Type := {
  meta_to_json : string → string → string → result string string;
  meta_of_json : string → result string (option string * option string)
}.
Class MetaJsonLaws `{MetaJson} : Prop :=
  meta_json_roundtrip label created_at name : ∃ s, meta_to_json label created_at name = Ok s ∧
    meta_of_json s = Ok (Some label, Some created_at).
(** [Checkpoint::create_checkpoint]: files under a directory that the call makes; it must not exist *)
Class Checkpoint (db : Type) : Type := { create_checkpoint : db → FS → file_path → result string FS }.
Class CheckpointLaws (db : Type) `{Checkpoint db} : Prop :=
  checkpoint_existing d fs p : is_dir fs p = true → ∃ e, create_checkpoint d fs p = Err e.
Definition meta_file : string := "backup_meta.json".
Section manager.
Context `{MetaJson, Checkpoint db}.
(** [data_dir] is the absolute path of the data directory. *)
Definition BackupManager_new (data_dir : file_path) : file_path := data_dir ++ ["backups"%string].
(** [StorageEngine::create_backup] *)
Definition create_backup (d : db) (fs : FS) (backup_path : file_path) : result BackupError FS :=
  map_err Failed (create_checkpoint d fs backup_path).
Definition backup_label (label : string) : string := if String.eqb label EmptyString then "manual" else label.
(** [stamp] and [rfc3339] are the time now in the two formats. Earlier effects of a failed call stay. *)
Definition backup_create (backups_dir : file_path) (fs : FS) (d : db) (label stamp rfc3339 : string) : FS * result BackupError BackupMeta :=
  let label := backup_label label in
  let backup_name := stamp +:+ "_" +:+ label in
  match create_dir_all fs [] (join_base backups_dir backup_name ++ components backup_name) with
  | Err e => (fs, Err e)
  | Ok (fs1, backup_dir) =>
      match create_backup d fs1 backup_dir with
      | Err e => (fs1, Err e)
      | Ok fs2 =>
          match meta_to_json label rfc3339 backup_name with
          | Err e => (fs2, Err (Failed e))
          | Ok json =>
              (<[backup_dir ++ [meta_file] := FileOf json]> fs2,
               Ok (mkBackupMeta backup_name label rfc3339 (dir_size fs2 backup_dir)))
          end
      end
  end.
Definition newer (a b : BackupMeta) : Prop := bytes_le (str_bytes (bm_created_at b)) (str_bytes (bm_created_at a)).
#[export] Instance newer_dec : RelDecision newer.
Proof. intros a b. apply bytes_le_dec. Defined.
(** The entry of one child: skipped, read, or the error that ends the listing *)
Definition list_entry (backups_dir : file_path) (fs : FS) (name : string) : result BackupError (option BackupMeta) :=
  let p := backups_dir ++ [name] in
  if is_dir fs p then
    match fs !! (p ++ [meta_file]) with
    | None => Ok None
    | Some Directory => Err (Failed "is a directory")
    | Some (FileOf content) =>
        match meta_of_json content with
        | Err e => Err (Failed e)
        | Ok (label, created_at) =>
            Ok (Some (mkBackupMeta name (default EmptyString label) (default EmptyString created_at) (dir_size fs p)))
        end
    end
  else Ok None.
Fixpoint list_entries (backups_dir : file_path) (fs : FS) (names : list string) : result BackupError (list BackupMeta) :=
  match names with
  | [] => Ok []
  | name :: names' => e ← list_entry backups_dir fs name; rest ← list_entries backups_dir fs names'; Ok (option_list e ++ rest)
  end.
Definition backup_list (backups_dir : file_path) (fs : FS) : result BackupError (list BackupMeta) :=
  match walk fs [] backups_dir with
  | None => Ok []
  | Some _ => backups ← list_entries backups_dir fs (children fs backups_dir); Ok (merge_sort newer backups)
  end.
Definition backup_delete (backups_dir : file_path) (fs : FS) (name : string) : FS * result BackupError unit :=
  let comps := components name in
  match walk fs [] (join_base backups_dir name ++ comps) with
  | None => (fs, Err (NotFound ("backup '" +:+ name +:+ "' not found")))
  | Some p => remove_dir_all fs p (default EmptyString (last comps))
  end.

(** ** The requests of the service and the backends of synaptica-mcp

    A failed request is the message of its status. *)
Definition rpc_create_backup (data_dir : file_path) (fs : FS) (d : db) (label stamp rfc3339 : string) : FS * result string (string * string) :=
  let '(fs', r) := backup_create (BackupManager_new data_dir) fs d label stamp rfc3339 in
  (fs', map_err (λ e, "backup failed: " +:+ BackupError_fmt e) (backup ← r; Ok (bm_name backup, bm_created_at backup))).
Definition rpc_list_backups (data_dir : file_path) (fs : FS) : result string (list BackupMeta) :=
  map_err (λ e, "failed to list backups: " +:+ BackupError_fmt e) (backup_list (BackupManager_new data_dir) fs).
(** Success and message; other errors are a status *)
Definition rpc_delete_backup (data_dir : file_path) (fs : FS) (name : string) : FS * result string (bool * string) :=
  match backup_delete (BackupManager_new data_dir) fs name with
  | (fs', Ok _) => (fs', Ok (true, "backup '" +:+ name +:+ "' deleted"))
  | (fs', Err (NotFound _)) => (fs', Ok (false, "backup '" +:+ name +:+ "' not found"))
  | (fs', Err e) => (fs', Err ("failed to delete backup: " +:+ BackupError_fmt e))
  end.
Definition local_delete_backup (data_dir : file_path) (fs : FS) (name : string) : FS * result string string :=
  let '(fs', r) := backup_delete (BackupManager_new data_dir) fs name in
  (fs', map_err BackupError_fmt (_ ← r; Ok ("Backup '" +:+ name +:+ "' deleted"))).
Definition remote_delete_backup (data_dir : file_path) (fs : FS) (name : string) : FS * result string string :=
  match rpc_delete_backup data_dir fs name with
  | (fs', Ok (true, message)) => (fs', Ok message)
  | (fs', Ok (false, message)) => (fs', Err message)
  | (fs', Err e) => (fs', Err e)
  end.
Definition local_create_backup (data_dir : file_path) (fs : FS) (d : db) (label stamp rfc3339 : string) : FS * result string string :=
  let '(fs', r) := backup_create (BackupManager_new data_dir) fs d label stamp rfc3339 in
  (fs', map_err BackupError_fmt (backup ← r; Ok ("Backup '" +:+ bm_name backup +:+ "' created"))).
Definition remote_create_backup (data_dir : file_path) (fs : FS) (d : db) (label stamp rfc3339 : string) : FS * result string string :=
  let '(fs', r) := rpc_create_backup data_dir fs d label stamp rfc3339 in
  (fs', p ← r; Ok ("Backup '" +:+ p.1 +:+ "' created at " +:+ p.2)).
Definition backend_list_backups (data_dir : file_path) (fs : FS) (remote : bool) : result string (list BackupMeta) :=
  if remote then rpc_list_backups data_dir fs else map_err BackupError_fmt (backup_list (BackupManager_new data_dir) fs).
(** The texts of the tools *)
Definition tool_text (r : result string string) : string := match r with Ok msg => msg | Err e => "Error: " +:+ e end.
Definition tool_create_backup (remote : bool) (data_dir : file_path) (fs : FS) (d : db) (label : option string) (stamp rfc3339 : string) : FS * string :=
  let label := default "manual"%string label in
  let '(fs', r) := (if remote then remote_create_backup else local_create_backup) data_dir fs d label stamp rfc3339 in (fs', tool_text r).
Definition tool_delete_backup (remote : bool) (data_dir : file_path) (fs : FS) (name : string) : FS * string :=
  let '(fs', r) := (if remote then remote_delete_backup else local_delete_backup) data_dir fs name in (fs', tool_text r).
Definition backup_summary (b : BackupMeta) : string :=
  "  " +:+ bm_name b +:+ " (label: " +:+ bm_label b +:+ ", created: " +:+ bm_created_at b +:+ ", size: " +:+ pretty (bm_size_bytes b)
  +:+ " bytes)" +:+ String (Ascii.ascii_of_nat 10) EmptyString.
Definition tool_list_backups (remote : bool) (data_dir : file_path) (fs : FS) : string :=
  match backend_list_backups data_dir fs remote with
  | Ok [] => "No backups found."
  | Ok backups => "Backups:" +:+ String (Ascii.ascii_of_nat 10) EmptyString +:+ String.concat EmptyString (backup_summary <$> backups)
  | Err e => "Error: " +:+ e
  end.
End manager.

(** ** Deleting *)
(** A name that is one component of a path *)
Definition plain_name (name : string) : bool :=
  negb (is_dot name) && negb (String.eqb name "..") && forallb (λ c, negb (Ascii.eqb c slash)) (String.list_ascii_of_string name).
Lemma components_plain part s : forallb (λ c, negb (Ascii.eqb c slash)) (String.list_ascii_of_string s) = true →
  components_from part s = [part +:+ s].
Proof.
  revert part. induction s as [|c s IH]; intros part; cbn [String.list_ascii_of_string forallb components_from].
  - intros _. f_equal. induction part as [|a part IH]; [done|]. exact (f_equal (String a) IH).
  - intros [Hc%negb_true_iff Hs]%andb_true_iff. rewrite Hc, IH by done. f_equal.
    induction part as [|a part IHp]; [done|]. exact (f_equal (String a) IHp).
Qed.
Lemma walk_app fs cur a b : walk fs cur (a ++ b) = walk fs cur a ≫= λ p, walk fs p b.
Proof.
  revert cur. induction a as [|c a IH]; intros cur; [done|]. cbn [app walk]. destruct (is_dir fs cur); [|done].
  destruct (is_dot c); [apply IH|]. destruct (String.eqb c ".."); [apply IH|]. destruct (fs !! (cur ++ [c])); [apply IH|done].
Qed.
Lemma walk_plain fs cur c : plain_name c = true → is_dir fs cur = true →
  walk fs cur [c] = match fs !! (cur ++ [c]) with Some _ => Some (cur ++ [c]) | None => None end.
Proof.
  intros [[Hd%negb_true_iff Hdd%negb_true_iff]%andb_true_iff _]%andb_true_iff Hc. cbn. by rewrite Hc, Hd, Hdd.
Qed.
Lemma plain_components name : plain_name name = true → components name = [name] ∧ is_absolute name = false.
Proof.
  intros [[Hd _]%andb_true_iff Hs]%andb_true_iff. split; [by apply (components_plain EmptyString)|].
  destruct name as [|c name]; [done|]. cbn in *. apply andb_true_iff in Hs as [Hc _]. by apply negb_true_iff.
Qed.
Lemma is_dir_snoc fs p c : is_dir fs (p ++ [c]) = match fs !! (p ++ [c]) with Some Directory => true | _ => false end.
Proof. by destruct p. Qed.

Definition without (fs : FS) (q : file_path) : FS := filter (λ kv, ¬ q `prefix_of` kv.1) fs.
Lemma lookup_without fs q p : without fs q !! p = if decide (q `prefix_of` p) then None else fs !! p.
Proof.
  unfold without. case_decide.
  - apply map_lookup_filter_None. right. intros e _ Hn. by apply Hn.
  - destruct (fs !! p) as [e|] eqn:E; [by apply map_lookup_filter_Some|]. apply map_lookup_filter_None. by left.
Qed.
Lemma remove_plain fs p c : plain_name c = true →
  remove_dir_all fs p c = if is_dir fs p then (without fs p, Ok tt) else (fs, Err (Failed "not a directory")).
Proof.
  unfold plain_name, is_dot, remove_dir_all. by destruct (String.eqb c "."), (String.eqb c ".."), (String.eqb c EmptyString).
Qed.
Section deleting.
Variables (data_dir : file_path) (fs : FS) (name : string).
Abbreviation backups := (BackupManager_new data_dir).
Hypotheses (Hw : walk fs [] backups = Some backups) (Hdata : is_dir fs data_dir = true) (Hbackups : is_dir fs backups = true).
Hypothesis Hname : plain_name name = true.
Lemma delete_plain : backup_delete backups fs name =
  match fs !! (backups ++ [name]) with
  | Some Directory => (without fs (backups ++ [name]), Ok tt)
  | Some (FileOf _) => (fs, Err (Failed "not a directory"))
  | None => (fs, Err (NotFound ("backup '" +:+ name +:+ "' not found")))
  end.
Proof.
  destruct (plain_components name Hname) as [Hc Ha]. unfold backup_delete, join_base.
  rewrite Hc, Ha, walk_app, Hw. cbn [mbind option_bind]. rewrite walk_plain by done.
  destruct (fs !! (backups ++ [name])) as [e|] eqn:E; [|done]. cbn [last default]. rewrite remove_plain, is_dir_snoc, E by done. by destruct e.
Qed.
Lemma delete_sibling : fs !! (data_dir ++ [name]) = Some Directory →
  backup_delete backups fs ("../" +:+ name) = (without fs (data_dir ++ [name]), Ok tt).
Proof.
  intros Hs. destruct (plain_components name Hname) as [Hc _].
  assert (components ("../" +:+ name) = [".."%string; name]) as Hcs by (change (components ("../" +:+ name)) with (".."%string :: components name); by rewrite Hc).
  unfold backup_delete, join_base. rewrite Hcs. change (is_absolute ("../" +:+ name)) with false. cbv iota.
  rewrite walk_app, Hw. cbn [mbind option_bind]. change [".."%string; name] with ([".."%string] ++ [name]). rewrite walk_app.
  assert (walk fs backups [".."%string] = Some data_dir) as ->.
  { cbn [walk]. rewrite Hbackups. cbn. f_equal. unfold parent, BackupManager_new. rewrite length_app. cbn.
    replace (length data_dir + 1 - 1)%nat with (length data_dir) by lia. apply take_app_length. }
  cbn [mbind option_bind]. rewrite walk_plain, Hs by done. cbn [last app default]. by rewrite remove_plain, is_dir_snoc, Hs by done.
Qed.
Lemma delete_empty : backup_delete backups fs EmptyString = (without fs backups, Ok tt).
Proof.
  unfold backup_delete, join_base. cbn [is_absolute components components_from]. rewrite walk_app, Hw. cbn [mbind option_bind walk].
  rewrite Hbackups. change (is_dot EmptyString) with true. cbv iota. unfold remove_dir_all. by rewrite Hbackups.
Qed.
End deleting.

(** Deleting a backup by its name removes that backup and nothing else; but a name is not checked to be
    one. For a name that is one component of a path the call removes the directory of that name under
    the backups and what is below it, every other path keeps its entry, and without such a directory
    nothing changes. A name with dots leaves the backups: with the name of any directory next to them,
    the database for one, after two dots and a slash the call removes that directory and succeeds, and
    the empty name removes all backups. *)
Theorem backup_delete_scope data_dir fs name :
  let backups := BackupManager_new data_dir in
  walk fs [] backups = Some backups → is_dir fs data_dir = true → is_dir fs backups = true → plain_name name = true →
  let fs' := (backup_delete backups fs name).1 in
  let r := (backup_delete backups fs name).2 in
  (match fs !! (backups ++ [name]) with
   | Some Directory => r = Ok tt ∧ ∀ p, fs' !! p = if decide (backups ++ [name] `prefix_of` p) then None else fs !! p
   | Some (FileOf _) => fs' = fs ∧ ∃ e, r = Err (Failed e)
   | None => fs' = fs ∧ ∃ e, r = Err (NotFound e)
   end) ∧
  (fs !! (data_dir ++ [name]) = Some Directory →
     ∃ fs2, backup_delete backups fs ("../" +:+ name) = (fs2, Ok tt) ∧
       ∀ p, fs2 !! p = if decide (data_dir ++ [name] `prefix_of` p) then None else fs !! p) ∧
  (∃ fs3, backup_delete backups fs EmptyString = (fs3, Ok tt) ∧ ∀ p, backups `prefix_of` p → fs3 !! p = None).
Proof.
  intros backups Hw Hdd Hbd Hn fs' r. unfold fs', r, backups. rewrite delete_plain by done. split_and!.
  - destruct (fs !! _) as [[|s]|]; cbn; [split; [done|]; apply lookup_without|eauto|eauto].
  - intros Hs. eexists. split; [by apply delete_sibling|]. apply lookup_without.
  - eexists. split; [by apply delete_empty|]. intros p Hp. rewrite lookup_without. by rewrite decide_True.
Qed.

(** ** Creating *)
(** Whatever exists lies in a directory *)
Definition closed (fs : FS) : Prop := ∀ p c, is_Some (fs !! (p ++ [c])) → is_dir fs p = true.
Lemma is_dir_insert fs p q : is_dir fs p = true → is_dir (<[q := Directory]> fs) p = true.
Proof.
  destruct p as [|c p]; [done|]. unfold is_dir. destruct (decide (q = c :: p)) as [->|Hne]; [by rewrite lookup_insert_eq|].
  by rewrite lookup_insert_ne.
Qed.
Lemma closed_insert fs p c : closed fs → is_dir fs p = true → closed (<[p ++ [c] := Directory]> fs).
Proof.
  intros Hc Hp q c' Hq. apply is_dir_insert. destruct (decide (p ++ [c] = q ++ [c'])) as [E|Hne].
  - apply app_inj_tail in E as [<- _]. done.
  - rewrite lookup_insert_ne in Hq by done. by apply Hc in Hq.
Qed.
Lemma is_dir_parent fs p : closed fs → is_dir fs p = true → is_dir fs (parent p) = true.
Proof.
  intros Hc Hp. destruct p as [|c p] using rev_ind; [done|]. unfold parent. rewrite length_app. cbn.
  replace (length p + 1 - 1)%nat with (length p) by lia. rewrite take_app_length. apply (Hc p c).
  rewrite is_dir_snoc in Hp. by destruct (fs !! (p ++ [c])).
Qed.
Definition same_files (fs fs' : FS) : Prop := ∀ p s, fs' !! p = Some (FileOf s) ↔ fs !! p = Some (FileOf s).
Lemma create_dir_all_spec fs cur comps fs' p : closed fs → is_dir fs cur = true → create_dir_all fs cur comps = Ok (fs', p) →
  is_dir fs' p = true ∧ same_files fs fs'.
Proof.
  revert fs cur. induction comps as [|c comps IH]; intros fs cur Hc Hd; cbn [create_dir_all]; [intros [= <- <-]; by split|].
  destruct (is_dot c); [by apply IH|]. destruct (String.eqb c ".."); [apply IH; [done|by apply is_dir_parent]|].
  destruct (fs !! (cur ++ [c])) as [[|s]|] eqn:E; [apply IH; [done|by rewrite is_dir_snoc, E]|done|].
  intros Hrun. apply IH in Hrun as [Hp Hsame]; [|by apply closed_insert|by rewrite is_dir_snoc, lookup_insert_eq].
  split; [done|]. intros q s. rewrite (Hsame q s). destruct (decide (cur ++ [c] = q)) as [<-|Hne]; [by rewrite lookup_insert_eq, E|].
  by rewrite lookup_insert_ne.
Qed.

(** No backup can be created. The manager makes the directory of the backup before it asks RocksDB for a
    checkpoint there, and a checkpoint, as documented, is refused where the directory exists. Whatever
    the label, the call fails, no file is written or changed, and the request of the service and both
    backends report the failure. *)
Theorem backup_create_fails {db} `{MetaJson, CheckpointLaws db} data_dir fs (d : db) label stamp rfc3339 : closed fs →
  (∃ e, (backup_create (BackupManager_new data_dir) fs d label stamp rfc3339).2 = Err e) ∧
  same_files fs (backup_create (BackupManager_new data_dir) fs d label stamp rfc3339).1 ∧
  (∃ e, (rpc_create_backup data_dir fs d label stamp rfc3339).2 = Err e) ∧
  (∃ e, (local_create_backup data_dir fs d label stamp rfc3339).2 = Err e) ∧
  (∃ e, (remote_create_backup data_dir fs d label stamp rfc3339).2 = Err e).
Proof.
  intros Hc. unfold remote_create_backup, local_create_backup, rpc_create_backup.
  assert (∃ fs' e, backup_create (BackupManager_new data_dir) fs d label stamp rfc3339 = (fs', Err e) ∧ same_files fs fs') as (fs' & e & -> & Hs).
  { unfold backup_create. destruct (create_dir_all _ _ _) as [[fs1 p]|e] eqn:E; [|by exists fs, e].
    apply create_dir_all_spec in E as [Hp Hs]; [|done..].
    destruct (checkpoint_existing d fs1 p Hp) as [e He]. unfold create_backup. rewrite He. by exists fs1, (Failed e). }
  split_and!; by eauto.
Qed.

(** ** Listing *)
(** One unreadable metadata file hides all backups: the listing fails as soon as one entry does. *)
Theorem backup_list_fails `{MetaJson} backups_dir fs name content e p :
  walk fs [] backups_dir = Some p → name ∈ children fs backups_dir → is_dir fs (backups_dir ++ [name]) = true →
  fs !! (backups_dir ++ [name; meta_file]) = Some (FileOf content) → meta_of_json content = Err e →
  ∃ e', backup_list backups_dir fs = Err e'.
Proof.
  intros Hw Hin Hd Hf Hj. unfold backup_list. rewrite Hw.
  assert (list_entry backups_dir fs name = Err (Failed e)) as He.
  { unfold list_entry. rewrite Hd. replace ((backups_dir ++ [name]) ++ [meta_file]) with (backups_dir ++ [name; meta_file]) by by rewrite <- app_assoc.
    by rewrite Hf, Hj. }
  assert (∃ e', list_entries backups_dir fs (children fs backups_dir) = Err e') as (e' & ->); [|by eexists].
  clear Hd Hf. induction Hin as [x names|x other names _ IH]; cbn [list_entries].
  - rewrite He. by eexists.
  - destruct (list_entry backups_dir fs other) as [o|e']; [|by eexists]. destruct (IH He) as (e' & ->). by eexists.
Qed.
(** Otherwise the newest come first. *)
Lemma backup_list_sorted `{MetaJson} backups_dir fs l : backup_list backups_dir fs = Ok l → Sorted newer l.
Proof.
  unfold backup_list. destruct (walk _ _ _); [|intros [= <-]; constructor].
  destruct (list_entries _ _ _) as [bs|]; [|done]. intros [= <-]. apply Sorted_merge_sort.
  intros a b. unfold newer. destruct (bytes_le_total (str_bytes (bm_created_at b)) (str_bytes (bm_created_at a))); [by left|by right].
Qed.

(** ** Samples *)
Definition data : file_path := ["data"%string].
Definition sample_fs : FS := list_to_map [
  (["data"], Directory); (["data"; "graph"], Directory); (["data"; "graph"; "CURRENT"], FileOf "x"); (["data"; "backups"], Directory);
  (["data"; "backups"; "b1"], Directory); (["data"; "backups"; "b1"; "CURRENT"], FileOf "y")]%string.
Lemma backup_delete_scope_witness :
  (backup_delete (BackupManager_new data) sample_fs "b1").2 = Ok tt ∧
  (backup_delete (BackupManager_new data) sample_fs "../graph").2 = Ok tt ∧
  (backup_delete (BackupManager_new data) sample_fs "../graph").1 !! ["data"; "graph"; "CURRENT"]%string = None.
Proof.
  pose proof (backup_delete_scope data sample_fs "b1" eq_refl eq_refl eq_refl eq_refl) as (H1 & _).
  pose proof (backup_delete_scope data sample_fs "graph" eq_refl eq_refl eq_refl eq_refl) as (_ & H2 & _).
  destruct H2 as (fs2 & H2 & H3); [reflexivity|]. change ("../" +:+ "graph") with "../graph"%string in H2. rewrite H2.
  split_and!; [exact (proj1 H1)|reflexivity|]. cbn [fst]. rewrite H3. reflexivity.
Defined.
#[local] Instance refusing_checkpoint : Checkpoint unit := {|
  create_checkpoint _ fs p := if is_dir fs p then Err "Directory exists"%string else Ok (<[p := Directory]> fs)
|}.
#[local] Instance refusing_checkpoint_laws : CheckpointLaws unit.
Proof. intros d fs p Hp. cbn. rewrite Hp. by eexists. Qed.
#[local] Instance plain_json : MetaJson := {|
  meta_to_json label created_at name := Ok label; meta_of_json s := Ok (Some s, None)
|}.
Lemma sample_closed : closed sample_fs.
Proof.
  assert (forallb (λ kv, is_dir sample_fs (parent kv.1)) (map_to_list sample_fs) = true) as Hall by (vm_compute; reflexivity).
  intros p c [e He]. apply elem_of_map_to_list, list_elem_of_In, (proj1 (forallb_forall _ _) Hall) in He. cbn [fst] in He.
  unfold parent in He. rewrite length_app in He. cbn [length] in He.
  replace (length p + 1 - 1)%nat with (length p) in He by lia. by rewrite take_app_length in He.
Qed.
Lemma backup_create_fails_witness : ∃ e, (backup_create (BackupManager_new data) sample_fs tt "daily" "20250101_000000" "2025").2 = Err e.
Proof. destruct (backup_create_fails data sample_fs tt "daily" "20250101_000000" "2025" sample_closed) as (H & _). exact H. Defined.
