(* ===== verification/Client.v ===== *)
(** * The command line client (synaptica-cli: main.rs)

    What a line of input means, what it asks of the server and of the files, and what is printed: values,
    tables, JSON and CSV, a [Stdout] or [Stderr] for each line. The requests are the class [Requests],
    the files the class [Files]; the printing of JSON and of floats to one decimal are [ClientText].
    The editor is a list of events; its history and the connection are not modelled. *)
From S2P Require Import Prelude Types Rocks Encoding Engine Index LogStore Lexer F64 Text Records Ast Expression Debug Relational Planner Executor Service Export Backup.
From Stdlib Require Import Ascii.

(** ** Commands *)
Inductive Command :=
| Nothing
| Quit
| Help
| Status
| Graphs
| CreateBackup (label : string)
| Backups
| DeleteBackup (name : option string)
| Export (args : option (string * string)) (* file and graph *)
| Import_ (args : option (string * string))
| Query (text : string).
Definition backslash_char : ascii := ascii_of_nat 92.
Fixpoint pop_backslash (s : string) : option string :=
  match s with
  | EmptyString => None
  | String c EmptyString => if Ascii.eqb c backslash_char then Some EmptyString else None
  | String c s' => String c <$> pop_backslash s'
  end.
(** What the editor gives when asked for a line; it is at its end after the last event. *)
Inductive Event := Line (text : string) | Interrupted | Eof | EditorError (debug : string).
(** A line that ends in a backslash goes on in the next one; [more] is what the editor gives next. *)
Fixpoint read_input (input : string) (more : list Event) : string * list Event :=
  match pop_backslash input with
  | None => (input, more)
  | Some popped =>
      match more with
      | Line cont :: more' => read_input (popped +:+ String (ascii_of_nat 10) cont) more'
      | _ :: more' => (popped, more')
      | [] => (popped, [])
      end
  end.
Definition str_trim (s : string) : string := string_of_chars (trim (chars s)).
(** [split_whitespace]; the word being read is kept *)
Fixpoint words_from (word t : text) : list string :=
  match t with
  | [] => match word with [] => [] | _ => [string_of_chars word] end
  | c :: t' =>
      if is_whitespace c then match word with [] => words_from [] t' | _ => string_of_chars word :: words_from [] t' end
      else words_from (word ++ [c]) t'
  end.
Definition after (prefix s : string) : string := str_trim (String.substring (String.length prefix) (String.length s) s).
Definition file_and_graph (graph : string) (args : string) : option (string * string) :=
  match words_from [] (chars args) with
  | [] => None
  | [file] => Some (file, graph)
  | file :: g :: _ => Some (file, g)
  end.
Definition command (graph : string) (input : string) : Command :=
  let trimmed := str_trim input in
  if String.eqb trimmed EmptyString then Nothing
  else if String.eqb trimmed ":quit" || String.eqb trimmed ":exit" then Quit
  else if String.eqb trimmed ":help" then Help
  else if String.eqb trimmed ":status" then Status
  else if String.eqb trimmed ":graphs" then Graphs
  else if String.prefix ":backup" trimmed && negb (String.prefix ":backups" trimmed) then
    let label := after ":backup" trimmed in
    CreateBackup (if String.eqb label EmptyString then "manual" else label)
  else if String.eqb trimmed ":backups" then Backups
  else if String.prefix ":delete-backup" trimmed then
    let name := after ":delete-backup" trimmed in
    DeleteBackup (if String.eqb name EmptyString then None else Some name)
  else if String.prefix ":export" trimmed then Export (file_and_graph graph (after ":export" trimmed))
  else if String.prefix ":import" trimmed then Import_ (file_and_graph graph (after ":import" trimmed))
  else Query trimmed.
Definition prompt (graph : string) : string :=
  if String.eqb graph "default" then "synaptica> " else "synaptica(" +:+ graph +:+ ")> ".

(** ** Output *)
Inductive Out := Stdout (line : string) | Stderr (line : string).

(** ** Values *)
Definition double_quote : string := String (ascii_of_nat 34) EmptyString.
Class ClientText : Type := {
  one_decimal : f64 → string;
  (** [to_string_pretty] of an array of objects whose values are strings *)
  json_rows_text : list (list (string * string)) → option string
}.
Section client.
Context `{Platform, ClientText}.
Fixpoint format_gql_value (val : GqlValue) : string :=
  let entries := fix entries (m : list (string * GqlValue)) : list string :=
    match m with [] => [] | (k, v) :: m' => (k +:+ ": " +:+ format_gql_value v) :: entries m' end in
  match val with
  | NullValue _ => "NULL"
  | BoolValue b => if b then "true" else "false"
  | IntegerValue i => pretty i
  | FloatValue f => f64_fmt f
  | StringValue s => double_quote +:+ s +:+ double_quote
  | BytesValue b => "<bytes:" +:+ pretty (length b) +:+ ">"
  | ListValue items => "[" +:+ String.concat ", " (map format_gql_value items) +:+ "]"
  | MapValue m => "{" +:+ String.concat ", " (entries m) +:+ "}"
  | NodeValue id labels properties =>
      "(" +:+ id +:+ ":" +:+ String.concat ":" labels +:+ " {" +:+ String.concat ", " (entries properties) +:+ "})"
  | EdgeValue id label source_id target_id properties =>
      "[" +:+ id +:+ ":" +:+ label +:+ " " +:+ source_id +:+ "->" +:+ target_id +:+ " {" +:+ String.concat ", " (entries properties) +:+ "}]"
  end%string.
Definition format_table_cell (val : GqlValue) : string := match val with StringValue s => s | _ => format_gql_value val end.

(** ** Tables *)
Definition visible_column_indexes (columns : list string) : list nat :=
  omap (λ '(index, name), if String.prefix "__" name then None else Some index) (zip (seq 0 (length columns)) columns).
Fixpoint widen_cells (widths : list nat) (cells : list string) : list nat :=
  match widths, cells with
  | w :: widths', c :: cells' => Nat.max w (str_len c) :: widen_cells widths' cells'
  | _, _ => widths
  end.
Definition rule_line (widths : list nat) : string :=
  "+" +:+ String.concat "+" ((λ w, String.concat EmptyString (replicate (w + 2) "-"%string)) <$> widths) +:+ "+".
(** More cells than columns are out of range of the widths, which cannot be: rows are cut to the columns. *)
Definition render_line (widths : list nat) (cells : list string) : string :=
  "|" +:+ String.concat "|" (zip_with (λ cell w, " " +:+ pad cell w +:+ " ") cells widths) +:+ "|".
Definition print_box_table (columns : list string) (rows : list (list string)) : list string :=
  match columns with
  | [] => []
  | _ =>
      let widths := foldl widen_cells (str_len <$> columns) rows in
      [rule_line widths; render_line widths columns; rule_line widths] ++ map (render_line widths) rows ++ [rule_line widths]
  end.
Definition table_cell (row : list GqlValue) (i : nat) : string :=
  match row !! i with Some v => format_table_cell v | None => "NULL" end.
Definition print_table (columns : list string) (rows : list (list GqlValue)) : list string :=
  let indexes := visible_column_indexes columns in
  match indexes with
  | [] => []
  | _ => print_box_table (omap (λ i, columns !! i) indexes) (map (λ row, map (table_cell row) indexes) rows)
  end.
Definition print_mutation_lines (stats : QueryStats) : list string :=
  let line (n : Z) (what : string) : list string := if 0 <? n then [what +:+ pretty n] else [] in
  line (q_nodes_created stats) "Nodes created: " ++ line (q_nodes_deleted stats) "Nodes deleted: "
  ++ line (q_edges_created stats) "Edges created: " ++ line (q_edges_deleted stats) "Edges deleted: "
  ++ line (q_properties_set stats) "Properties set: ".

(** ** JSON and CSV *)
(** A row as an object: the values under the names of their columns, or their positions *)
Fixpoint json_row (columns : list string) (i : nat) (row : list GqlValue) (m : list (string * string)) : list (string * string) :=
  match row with
  | [] => m
  | val :: row' =>
      let key := match columns !! i with Some c => c | None => pretty i end in
      json_row columns (S i) row' (btree_insert key (format_gql_value val) m)
  end.
Definition print_json (columns : list string) (rows : list (list GqlValue)) : list string :=
  match json_rows_text (map (λ row, json_row columns 0 row []) rows) with Some s => [s] | None => [] end.
Definition print_csv (columns : list string) (rows : list (list GqlValue)) : list string :=
  String.concat "," columns :: map (λ row, String.concat "," (map format_gql_value row)) rows.
Inductive OutputFormat := Table | JsonFormat | Csv.
(** What a query prints: its error, or its result in the chosen format *)
Definition print_response (format : OutputFormat) (resp : QueryResponse) : list Out :=
  match resp_error resp with
  | Some err => [Stderr ("Error: " +:+ err)]
  | None =>
      Stdout <$> match format with
      | Table =>
          match resp_stats resp with Some stats => print_mutation_lines stats | None => [] end
          ++ match visible_column_indexes (resp_columns resp) with
             | [] => []
             | _ =>
                 print_table (resp_columns resp) (resp_rows resp)
                 ++ match resp_stats resp with
                    | Some stats => [pretty (rows_returned stats) +:+ " row(s) returned in " +:+ pretty (execution_time_ms stats) +:+ "ms"]
                    | None => []
                    end
             end
      | JsonFormat => print_json (resp_columns resp) (resp_rows resp)
      | Csv => print_csv (resp_columns resp) (resp_rows resp)
      end
  end.
Definition format_bytes (bytes : Z) : string :=
  let scaled (unit_ : Z) (name : string) : string := one_decimal (f64_div (f64_round false bytes 1) (f64_round false unit_ 1)) +:+ name in
  if 2 ^ 30 <=? bytes then scaled (2 ^ 30) " GB"
  else if 2 ^ 20 <=? bytes then scaled (2 ^ 20) " MB"
  else if 2 ^ 10 <=? bytes then scaled (2 ^ 10) " KB"
  else pretty bytes +:+ " B".

(** ** The session *)
(** The requests of the client, on the state [S] of what it is connected to; an export is the chunks that
    arrive before its stream ends or breaks. *)
Class Requests (S : Type) : Type := {
  rq_health : S → result string (string * string * Z);
  rq_list_graphs : S → result string (list (string * string));
  rq_create_backup : S → string → S * result string (string * string);
  rq_list_backups : S → result string (list BackupMeta);
  rq_delete_backup : S → string → S * result string (bool * string);
  rq_export_graph : S → string → result string (list string);
  rq_import_graph : S → string → string → S * result string ImportResponse;
  rq_execute_query : S → QueryRequest → S * result string QueryResponse
}.
Class Files (F : Type) : Type := {
  file_write : F → string → string → F * result string unit;
  file_read : F → string → result string string
}.
Class FilesLaws (F : Type) `{Files F} : Prop :=
  file_read_written : ∀ fs fs' p data, file_write fs p data = (fs', Ok tt) → file_read fs' p = Ok data.
Definition failed_request (e : string) : list Out := [Stderr ("Error: " +:+ e)].
Definition repeat_dash (n : nat) : string := String.concat EmptyString (replicate n "-"%string).
Definition backup_line (b : BackupMeta) : string :=
  pad (bm_name b) 35 +:+ " " +:+ pad (bm_label b) 15 +:+ " " +:+ pad (bm_created_at b) 25 +:+ " " +:+ format_bytes (bm_size_bytes b).
Definition graph_line (graph : string) (g : string * string) : string :=
  pad g.1 20 +:+ " " +:+ g.2 +:+ (if String.eqb g.1 graph then " *" else EmptyString).
Definition print_help : list string := [
  "Synaptica CLI commands:";
  "  :help                    Show this help message";
  "  :status                  Show server health status";
  "  :graphs                  List all available graphs";
  "  :backup [label]          Create a backup snapshot";
  "  :backups                 List available backups";
  "  :delete-backup <name>    Delete a backup";
  "  :export <file> [graph]   Export a graph to GQL file";
  "  :import <file> [graph]   Import GQL statements from file";
  "  :quit, :exit             Exit the CLI";
  EmptyString;
  "Enter any GQL query to execute it.";
  "Use \ at end of line for multi-line input.";
  "Use --graph <NAME> flag to select a graph (default: 'default')."]%string.
Context `{Requests W, Files F}.
Variables (graph : string) (format : OutputFormat).
(** [:export file g]: the chunks received go to the file. *)
Definition run_export (s : W) (fs : F) (file g : string) : W * F * list Out :=
  match rq_export_graph s g with
  | Err e => (s, fs, failed_request e)
  | Ok chunks =>
      let data := String.concat EmptyString chunks in
      match file_write fs file data with
      | (fs', Ok _) =>
          (s, fs', [Stdout ("Exported " +:+ pretty (length (lines_from EmptyString data)) +:+ " statements from graph '" +:+ g +:+ "' to " +:+ file)])
      | (fs', Err e) => (s, fs', [Stderr ("Error writing file: " +:+ e)])
      end
  end.
Definition run_import (s : W) (fs : F) (file g : string) : W * F * list Out :=
  match file_read fs file with
  | Err e => (s, fs, [Stderr ("Error reading file: " +:+ e)])
  | Ok data =>
      let '(s', r) := rq_import_graph s g data in
      (s', fs, match r with
               | Err e => failed_request e
               | Ok r =>
                   match import_error r with
                   | Some err => [Stderr ("Import error after " +:+ pretty (statements_executed r) +:+ " statements: " +:+ err)]
                   | None => [Stdout ("Imported " +:+ pretty (statements_executed r) +:+ " statements into graph '" +:+ g +:+ "'")]
                   end
               end)
  end.
(** What a command does to the server and the files, and what it prints; [:quit] is not a command here. *)
Definition run_command (st : W * F) (c : Command) : W * F * list Out :=
  let '(s, fs) := st in
  match c with
  | Nothing | Quit => (s, fs, [])
  | Help => (s, fs, Stdout <$> print_help)
  | Status =>
      (s, fs, match rq_health s with
              | Ok (status, version, uptime) =>
                  [Stdout ("Status: " +:+ status +:+ " | Version: " +:+ version +:+ " | Uptime: " +:+ pretty uptime +:+ "s")]
              | Err e => failed_request e
              end)
  | Graphs =>
      (s, fs, match rq_list_graphs s with
              | Ok [] => [Stdout "No graphs found."]
              | Ok graphs => Stdout <$> [pad "NAME" 20 +:+ " ID"; repeat_dash 60] ++ (graph_line graph <$> graphs)
              | Err e => failed_request e
              end)
  | CreateBackup label =>
      let '(s', r) := rq_create_backup s label in
      (s', fs, match r with
               | Ok (name, created_at) => [Stdout ("Backup created: " +:+ name +:+ " (at " +:+ created_at +:+ ")")]
               | Err e => failed_request e
               end)
  | Backups =>
      (s, fs, match rq_list_backups s with
              | Ok [] => [Stdout "No backups found."]
              | Ok backups =>
                  Stdout <$> [pad "NAME" 35 +:+ " " +:+ pad "LABEL" 15 +:+ " " +:+ pad "CREATED" 25 +:+ " SIZE"; repeat_dash 85]
                             ++ (backup_line <$> backups)
              | Err e => failed_request e
              end)
  | DeleteBackup None => (s, fs, [Stderr "Usage: :delete-backup <name>"])
  | DeleteBackup (Some name) =>
      let '(s', r) := rq_delete_backup s name in
      (s', fs, match r with Ok (_, message) => [Stdout message] | Err e => failed_request e end)
  | Export None => (s, fs, [Stderr "Usage: :export <file> [graph]"])
  | Export (Some (file, g)) => run_export s fs file g
  | Import_ None => (s, fs, [Stderr "Usage: :import <file> [graph]"])
  | Import_ (Some (file, g)) => run_import s fs file g
  | Query text =>
      let '(s', r) := rq_execute_query s (mkRequest text graph) in
      (s', fs, match r with Ok resp => print_response format resp | Err e => failed_request e end)
  end.
(** The loop of [main]. Each turn takes at least one event, so that as many turns as events, and one for
    the end, are enough. *)
Fixpoint session (fuel : nat) (st : W * F) (events : list Event) : option (W * F * list Out) :=
  match fuel with
  | O => None
  | S fuel =>
      match events with
      | [] | Interrupted :: _ | Eof :: _ => Some (st, [Stdout "Goodbye!"])
      | EditorError e :: _ => Some (st, [Stderr ("Error: " +:+ e)])
      | Line line :: more =>
          let '(input, more) := read_input line more in
          match command graph input with
          | Quit => Some (st, [Stdout "Goodbye!"])
          | c =>
              let '(st', out) := run_command st c in
              '(end_, rest) ← session fuel st' more; Some (end_, out ++ rest)
          end
      end
  end.
Definition run (st : W * F) (events : list Event) : option (W * F * list Out) := session (S (length events)) st events.
End client.

(** ** Tables are aligned *)
Section tables.
Context `{Platform, ClientText}.
(** Every character is one byte, so that widths in bytes and paddings in characters agree *)
Definition one_byte (s : string) : Prop := length (chars s) = str_len s.
Lemma str_len_append a b : str_len (a +:+ b) = (str_len a + str_len b)%nat.
Proof. induction a as [|c a IH]; [done|]. exact (f_equal S IH). Qed.
Lemma str_len_repeat n (c : ascii) : str_len (String.concat EmptyString (replicate n (String c EmptyString))) = n.
Proof. induction n as [|[|n] IH]; [done|done|]. exact (f_equal S IH). Qed.
Lemma str_len_pad s w : one_byte s → (str_len s ≤ w)%nat → str_len (pad s w) = w.
Proof. intros Hs Hw. unfold pad. rewrite str_len_append, str_len_repeat, Hs. lia. Qed.
Lemma str_len_concat sep l l' : Forall2 (λ a b, str_len a = str_len b) l l' → str_len (String.concat sep l) = str_len (String.concat sep l').
Proof.
  induction 1 as [|a b l l' Hab Hl IH]; [done|]. destruct Hl as [|a' b' l l' Hab' Hl]; [exact Hab|].
  change (str_len (a +:+ sep +:+ String.concat sep (a' :: l)) = str_len (b +:+ sep +:+ String.concat sep (b' :: l'))).
  rewrite !str_len_append, IH. lia.
Qed.
Definition fits (cell : string) (w : nat) : Prop := one_byte cell ∧ (str_len cell ≤ w)%nat.
Lemma render_rule_len widths cells : Forall2 fits cells widths → str_len (render_line widths cells) = str_len (rule_line widths).
Proof.
  intros Hf. unfold render_line, rule_line. rewrite !str_len_append. f_equal. f_equal. 
  rewrite (str_len_concat "|" _ ((λ w, String.concat EmptyString (replicate (w + 2) "-"%string)) <$> widths)).
  - clear. induction widths as [|w widths IH]; [done|]. destruct widths as [|w' widths]; [done|].
    cbn [fmap list_fmap String.concat] in *. rewrite !str_len_append, IH. done.
  - induction Hf as [|c w cells widths [Hc Hw] _ IH]; [constructor|]. constructor; [|exact IH].
    rewrite str_len_repeat, !str_len_append, str_len_pad by done. cbn. lia.
Qed.
Lemma widen_fits cells widths ws : length cells = length ws → Forall2 (λ w w', (w ≤ w')%nat) (widen_cells ws cells) widths →
  Forall2 (λ c w, (str_len c ≤ w)%nat) cells widths ∧ Forall2 (λ w w', (w ≤ w')%nat) ws widths.
Proof.
  revert cells widths. induction ws as [|w ws IH]; intros [|c cells] widths Hl Hf; try done; cbn in *.
  - apply Forall2_nil_inv_l in Hf as ->. by split.
  - apply Forall2_cons_inv_l in Hf as (w' & widths' & Hw & Hf & ->). apply IH in Hf as [H1 H2]; [|lia].
    split; constructor; try done; lia.
Qed.
Lemma widen_length widths cells : length (widen_cells widths cells) = length widths.
Proof. revert cells. induction widths as [|w widths IH]; intros [|c cells]; [done..|]. cbn. by rewrite IH. Qed.
Lemma widths_fit rows ws : (∀ row, row ∈ rows → length row = length ws) →
  let widths := foldl widen_cells ws rows in
  Forall2 (λ w w', (w ≤ w')%nat) ws widths ∧ ∀ row, row ∈ rows → Forall2 (λ c w, (str_len c ≤ w)%nat) row widths.
Proof.
  revert ws. induction rows as [|row rows IH]; intros ws Hl; cbn [foldl].
  { split; [|by intros ? ?%elem_of_nil]. induction ws as [|w ws IH]; constructor; [lia|]. apply IH. by intros ? ?%elem_of_nil. }
  destruct (IH (widen_cells ws row)) as [H1 H2]; [intros r Hr; rewrite widen_length; apply Hl; by right|].
  apply widen_fits in H1 as [H3 H4]; [|apply Hl; by left]. split; [exact H4|].
  intros r [->|Hr]%elem_of_cons; [exact H3|by apply H2].
Qed.
Lemma box_table_aligned columns rows : (∀ row, row ∈ rows → length row = length columns) → Forall one_byte columns → Forall (Forall one_byte) rows →
  ∃ n, Forall (λ l, str_len l = n) (print_box_table columns rows).
Proof.
  intros Hl Hc Hr. exists (str_len (rule_line (foldl widen_cells (str_len <$> columns) rows))).
  destruct (widths_fit rows (str_len <$> columns)) as [H1 H2]; [intros row Hrow; rewrite length_fmap; by apply Hl|].
  assert (∀ cells widths, Forall one_byte cells → Forall2 (λ c w, (str_len c ≤ w)%nat) cells widths → Forall2 fits cells widths) as Hfit.
  { clear. intros cells widths Hb. induction 1 as [|c w cells widths Hw _ IH]; [constructor|]. apply Forall_cons in Hb as [Hc Hb].
    constructor; [by split|by apply IH]. }
  assert (Forall (λ l, str_len l = str_len (rule_line (foldl widen_cells (str_len <$> columns) rows)))
    (map (render_line (foldl widen_cells (str_len <$> columns) rows)) rows)) as Hrows.
  { apply Forall_forall. intros l Hin. apply list_elem_of_fmap in Hin as (row & -> & Hrow). apply render_rule_len.
    apply Hfit; [rewrite Forall_forall in Hr; by apply Hr|by apply H2]. }
  destruct columns as [|c columns]; [constructor|]. unfold print_box_table. cbv zeta.
  constructor; [done|]. constructor; [|constructor; [done|]].
  - apply render_rule_len, Hfit; [done|]. exact (proj1 (Forall2_fmap_l str_len _ _ _) H1).
  - apply Forall_app. split; [exact Hrows|]. by constructor.
Qed.

(** The table of a result is a box: one line for the columns, one for each row and three rules, all of the
    same length, whenever the names and the cells are of one-byte characters. It shows the columns
    whose names do not start with two underscores, and nothing at all when there are none. *)
Theorem table_aligned columns rows : Forall one_byte columns → (∀ row v, row ∈ rows → v ∈ row → one_byte (format_table_cell v)) →
  (∃ n, Forall (λ l, str_len l = n) (print_table columns rows)) ∧
  length (print_table columns rows) = (if decide (visible_column_indexes columns = []) then 0 else length rows + 4)%nat ∧
  (∀ i, i ∈ visible_column_indexes columns ↔ ∃ name, columns !! i = Some name ∧ String.prefix "__" name = false).
Proof.
  intros Hc Hr. assert (∀ i, i ∈ visible_column_indexes columns ↔ ∃ name, columns !! i = Some name ∧ String.prefix "__" name = false) as Hvis.
  { intros i. unfold visible_column_indexes. rewrite list_elem_of_omap. split.
    - intros ([j name] & Hin & Hj). apply list_elem_of_lookup in Hin as [k Hk]. apply lookup_zip_with_Some in Hk as (j' & n' & [= <- <-] & Hs & Hn).
      apply lookup_seq in Hs as [-> _]. destruct (String.prefix "__" name) eqn:E; [done|]. injection Hj as <-. by exists name.
    - intros (name & Hn & E). exists (i, name). rewrite E. split; [|done]. apply list_elem_of_lookup. exists i. apply lookup_zip_with_Some.
      exists i, name. split_and!; [done| |done]. apply lookup_seq. split; [done|]. by apply lookup_lt_Some in Hn. }
  assert (length (omap (λ i, columns !! i) (visible_column_indexes columns)) = length (visible_column_indexes columns)) as Hlen.
  { assert (∀ i, i ∈ visible_column_indexes columns → is_Some (columns !! i)) as Hall by (intros i (name & ? & _)%Hvis; by exists name).
    revert Hall. generalize (visible_column_indexes columns) as l. induction l as [|i l IH]; intros Hall; [done|].
    destruct (Hall i) as [name Hn]; [by left|]. cbn. rewrite Hn. cbn. f_equal. apply IH. intros j Hj. apply Hall. by right. }
  split_and!; [..|exact Hvis]; unfold print_table; destruct (visible_column_indexes columns) as [|i l] eqn:E.
  - by exists 0%nat.
  - rewrite <- E in *. apply box_table_aligned.
    + intros row Hrow. apply list_elem_of_fmap in Hrow as (vs & -> & _). change (map ?f ?l) with (f <$> l). by rewrite length_fmap.
    + apply Forall_forall. intros name (j & _ & Hj)%list_elem_of_omap. rewrite Forall_forall in Hc. apply Hc. by eapply list_elem_of_lookup_2.
    + apply Forall_forall. intros row Hrow. apply list_elem_of_fmap in Hrow as (vs & -> & Hvs). apply Forall_forall. intros cell Hcell.
      apply list_elem_of_fmap in Hcell as (j & -> & _). unfold table_cell. destruct (vs !! j) as [v|] eqn:Hv; [|done].
      apply (Hr vs); [done|]. by eapply list_elem_of_lookup_2.
  - done.
  - rewrite <- E in *. rewrite decide_False by (by rewrite E). unfold print_box_table.
    destruct (omap (λ i, columns !! i) (visible_column_indexes columns)) as [|c cs] eqn:Eo; [rewrite E in Hlen; done|].
    rewrite !length_app. change (map ?f ?l) with (f <$> l). rewrite !length_fmap. cbn. lia.
Qed.
End tables.

(** ** Sessions *)
Lemma read_input_length input more : (length (read_input input more).2 ≤ length more)%nat.
Proof.
  revert input. induction more as [|e more IH]; intros input; cbn [read_input]; destruct (pop_backslash input); try done.
  destruct e as [cont| | |e]; cbn [snd length]; try lia. specialize (IH (s +:+ String (ascii_of_nat 10) cont)). lia.
Qed.
Section sessions.
Context `{Platform, ClientText, Requests W, FilesLaws F}.
Variables (graph : string) (format : OutputFormat).
Implicit Types st : W * F.
Definition last_line (events : list Event) (o : Out) : Prop :=
  o = Stdout "Goodbye!" ∨ ∃ e, EditorError e ∈ events ∧ o = Stderr ("Error: " +:+ e).
Lemma last_line_more e events events' o : (∀ e, e ∈ events' → e ∈ events) → last_line events' o → last_line (e :: events) o.
Proof. intros Hsub [->|(e' & He & ->)]; [by left|]. right. exists e'. split; [|done]. right. by apply Hsub. Qed.
Lemma read_input_rest input more e : e ∈ (read_input input more).2 → e ∈ more.
Proof.
  revert input. induction more as [|e' more IH]; intros input; cbn [read_input]; destruct (pop_backslash input); try done.
  destruct e' as [cont| | |e']; cbn [snd]; intros He; right; [by eapply IH|done..].
Qed.
Lemma session_result fuel st events : (length events < fuel)%nat →
  ∃ st' out o, session graph format fuel st events = Some (st', out ++ [o]) ∧ last_line events o.
Proof.
  revert st events. induction fuel as [|fuel IH]; intros st events Hf; [lia|].
  destruct events as [|[line| | |e] more]; cbn [session length] in *.
  - exists st, [], (Stdout "Goodbye!"). split; [done|by left].
  - pose proof (read_input_length line more). pose proof (read_input_rest line more) as Hr.
    destruct (read_input line more) as [input more'] eqn:E. cbn [snd] in *.
    assert (∀ c, ∃ st' out o, (let '(st1, out) := run_command graph format st c in
      '(end_, rest) ← session graph format fuel st1 more'; Some (end_, out ++ rest)) = Some (st', out ++ [o]) ∧ last_line (Line line :: more) o) as Hstep.
    { intros c. destruct (run_command graph format st c) as [st1 out]. destruct (IH st1 more') as (st' & out' & o & -> & Ho); [lia|].
      exists st', (out ++ out'), o. cbn. split; [by rewrite <- app_assoc|]. by apply (last_line_more _ _ more'). }
    destruct (command graph input); try apply Hstep. exists st, [], (Stdout "Goodbye!"). split; [done|by left].
  - exists st, [], (Stdout "Goodbye!"). split; [done|by left].
  - exists st, [], (Stdout "Goodbye!"). split; [done|by left].
  - exists st, [], (Stderr ("Error: " +:+ e)). split; [done|]. right. exists e. split; [by left|done].
Qed.
Lemma session_more fuel fuel' st events r : session graph format fuel st events = Some r → (fuel ≤ fuel')%nat → session graph format fuel' st events = Some r.
Proof.
  revert fuel' st events r. induction fuel as [|fuel IH]; intros [|fuel'] st events r Hr Hf; try done; [lia|].
  destruct events as [|[line| | |e] more]; cbn [session] in *; try done.
  destruct (read_input line more) as [input more'].
  assert (∀ c, (let '(st1, out) := run_command graph format st c in '(end_, rest) ← session graph format fuel st1 more'; Some (end_, out ++ rest)) = Some r →
    (let '(st1, out) := run_command graph format st c in '(end_, rest) ← session graph format fuel' st1 more'; Some (end_, out ++ rest)) = Some r) as Hstep.
  { intros c. destruct (run_command graph format st c) as [st1 out]. destruct (session graph format fuel st1 more') as [r'|] eqn:E; [|done].
    by rewrite (IH fuel' _ _ r' E) by lia. }
  destruct (command graph input); try by apply Hstep. done.
Qed.

(** A session always comes to its end: whatever the editor gives, one turn more than its events is enough
    and no larger number of turns changes the result, and the last line printed is the goodbye, or the
    error of the editor. *)
Theorem session_ends st events :
  ∃ st' out o, run graph format st events = Some (st', out ++ [o]) ∧
    (o = Stdout "Goodbye!" ∨ ∃ e, EditorError e ∈ events ∧ o = Stderr ("Error: " +:+ e)) ∧
    ∀ fuel, (length events < fuel)%nat → session graph format fuel st events = run graph format st events.
Proof.
  destruct (session_result (S (length events)) st events) as (st' & out & o & E & Ho); [lia|].
  exists st', out, o. split_and!; [exact E|exact Ho|]. intros fuel Hf. unfold run. rewrite E. eapply session_more; [exact E|lia].
Qed.
End sessions.

(** ** Words of a command *)
(** A word that a command line takes as it is: printable ASCII without spaces, not ending in a backslash *)
Definition argument (s : string) : bool :=
  forallb (λ c, (33 <=? c) && (c <? 127)) (chars_of s) && negb (String.eqb s EmptyString) &&
  match pop_backslash s with None => true | Some _ => false end.
Definition ascii_line (s : string) : Prop := Forall (λ c, 0 ≤ c < 128 ∧ c ≠ 10) (chars_of s).
Lemma argument_chars s : argument s = true → ascii_line s ∧ Forall (λ c, is_whitespace c = false) (chars_of s) ∧ chars_of s ≠ [] ∧ pop_backslash s = None.
Proof.
  intros [[Hc Hne]%andb_true_iff Hp]%andb_true_iff.
  assert (Forall (λ c, 33 ≤ c < 127) (chars_of s)) as Hs.
  { apply Forall_forall. intros c Hin. rewrite forallb_forall in Hc. specialize (Hc c ltac:(by apply list_elem_of_In)). lia. }
  split_and!.
  - eapply Forall_impl; [exact Hs|]. cbn. lia.
  - eapply Forall_impl; [exact Hs|]. cbn. intros c Hr. unfold is_whitespace. lia.
  - by destruct s.
  - by destruct (pop_backslash s).
Qed.
Lemma pop_backslash_app a b : chars_of b ≠ [] → pop_backslash b = None → pop_backslash (a +:+ b) = None.
Proof.
  intros Hne Hp. induction a as [|c a IH]; [done|]. change (String c a +:+ b) with (String c (a +:+ b)). cbn [pop_backslash].
  destruct (a +:+ b) as [|c' s] eqn:E; [by destruct a, b|]. rewrite IH. done.
Qed.
Lemma trim_start_id c t : is_whitespace c = false → trim_start (c :: t) = c :: t.
Proof. intros Hc. cbn. by rewrite Hc. Qed.
Lemma trim_between (c c' : Z) t t' : is_whitespace c = false → is_whitespace c' = false → c :: t = t' ++ [c'] → trim (c :: t) = c :: t.
Proof.
  intros Hc Hc' E. unfold trim. rewrite trim_start_id by done. rewrite E, reverse_snoc, trim_start_id by done.
  by rewrite reverse_cons, reverse_involutive.
Qed.
Lemma words_from_word t rest word : Forall (λ c, is_whitespace c = false) t → words_from word (t ++ rest) = words_from (word ++ t) rest.
Proof.
  intros Ht. revert word. induction Ht as [|c t Hc _ IH]; intros word; cbn [app words_from]; [by rewrite app_nil_r|].
  by rewrite Hc, IH, <- app_assoc.
Qed.
Lemma str_trim_spec s : ascii_line s → str_trim s = string_of_chars (trim (chars_of s)) ∧ string_of_chars (chars_of s) = s.
Proof. intros Hs. apply chars_of_string in Hs as (E & _ & Hc). unfold str_trim. by rewrite Hc. Qed.
(** Two arguments with a space between them *)
Lemma two_words f g : argument f = true → argument g = true →
  let s := f +:+ " " +:+ g in
  ascii_line s ∧ words_from [] (chars s) = [f; g] ∧ ∃ c t t' c', chars_of s = c :: t ∧ c :: t = t' ++ [c'] ∧ is_whitespace c = false ∧ is_whitespace c' = false.
Proof.
  intros (Hf1 & Hf2 & Hf3 & Hf4)%argument_chars (Hg1 & Hg2 & Hg3 & Hg4)%argument_chars s.
  assert (chars_of s = chars_of f ++ [32] ++ chars_of g) as Hs by (unfold s; rewrite !chars_of_app; done).
  assert (ascii_line s) as Hl by (unfold ascii_line; rewrite Hs; repeat (apply Forall_app; split); try done; by repeat constructor).
  split; [done|]. split.
  - apply chars_of_string in Hl as (_ & _ & ->). rewrite Hs, words_from_word by done. cbn [app words_from].
    change (is_whitespace 32) with true. cbv iota. rewrite <- (app_nil_r (chars_of g)), words_from_word by done. cbn [app words_from].
    apply chars_of_string in Hf1 as (-> & _). apply chars_of_string in Hg1 as (-> & _). destruct (chars_of f), (chars_of g); done.
  - destruct (chars_of f) as [|c t] eqn:Ef; [done|]. destruct (chars_of g) as [|c' t' _] eqn:Eg using rev_ind; [done|].
    exists c, (t ++ [32] ++ t' ++ [c']), (c :: t ++ [32] ++ t'), c'. rewrite Hs. split_and!.
    + done.
    + cbn. by rewrite <- !app_assoc.
    + by apply Forall_cons in Hf2 as [? _].
    + apply Forall_app in Hg2 as [_ Hg2]. by apply Forall_cons in Hg2 as [? _].
Qed.
Lemma substring_all s n : (String.length s ≤ n)%nat → String.substring 0 n s = s.
Proof. revert n. induction s as [|c s IH]; intros [|n] Hn; cbn in *; try done; [lia|]. by rewrite IH by lia. Qed.
Lemma substring_app p s n : (String.length s ≤ n)%nat → String.substring (String.length p) n (p +:+ s) = s.
Proof. intros Hn. induction p as [|c p IH]; [by apply substring_all|exact IH]. Qed.
Lemma length_suffix (a b : string) : (String.length b ≤ String.length (a +:+ b))%nat.
Proof. induction a as [|c a IH]; [done|]. change (String.length b ≤ S (String.length (a +:+ b)))%nat. lia. Qed.
(** A line of a colon, a command's name, a space and two arguments: what is trimmed, and what is left after the name *)
Lemma command_words (p f g : string) : Forall (λ c, 33 ≤ c < 127) (chars_of p) → chars_of p ≠ [] → argument f = true → argument g = true →
  let s := p +:+ " " +:+ f +:+ " " +:+ g in
  str_trim s = s ∧ after p s = f +:+ " " +:+ g ∧ pop_backslash s = None.
Proof.
  intros Hp Hne Hf Hg s. destruct (two_words f g Hf Hg) as (Hl & _ & c & t & t' & c' & Et & Es & Hc & Hc').
  assert (chars_of s = chars_of p ++ 32 :: chars_of (f +:+ " " +:+ g)) as Hs by (unfold s; rewrite !chars_of_app; done).
  assert (ascii_line s) as Hls.
  { unfold ascii_line. rewrite Hs. apply Forall_app. split; [eapply Forall_impl; [exact Hp|cbn; lia]|]. constructor; [lia|exact Hl]. }
  split_and!.
  - destruct (str_trim_spec s Hls) as [-> E]. rewrite <- E at 2. f_equal. rewrite Hs, Et. destruct (chars_of p) as [|q tp] eqn:Eq; [done|].
    apply Forall_cons in Hp as [Hq _]. apply (trim_between q c' _ (q :: tp ++ 32 :: t')); [unfold is_whitespace; lia|done|].
    cbn. rewrite <- app_assoc. cbn. by rewrite <- Es.
  - unfold after. unfold s at 2. rewrite substring_app.
    + assert (ascii_line (" " +:+ f +:+ " " +:+ g)) as Hl' by (constructor; [change (0 ≤ 32 < 128 ∧ 32 ≠ 10); lia|exact Hl]).
      destruct (str_trim_spec _ Hl') as [-> _]. destruct (str_trim_spec _ Hl) as [_ E]. rewrite <- E at 2. f_equal.
      change (chars_of (" " +:+ f +:+ " " +:+ g)) with (32 :: chars_of (f +:+ " " +:+ g)). rewrite Et.
      change (trim (32 :: c :: t)) with (reverse (trim_start (reverse (trim_start (c :: t))))).
      apply (trim_between c c' t t'); done.
    + unfold s. apply length_suffix.
  - apply argument_chars in Hg as (_ & _ & Hgn & Hgp). unfold s. rewrite !append_assoc. by apply pop_backslash_app.
Qed.
Lemma command_export graph f g : argument f = true → argument g = true →
  command graph (":export " +:+ f +:+ " " +:+ g) = Export (Some (f, g)) ∧ pop_backslash (":export " +:+ f +:+ " " +:+ g) = None.
Proof.
  intros Hf Hg. destruct (command_words ":export" f g) as (Ht & Ha & Hp); [by vm_compute; repeat constructor|done..|]. split; [|exact Hp].
  change (":export " +:+ f +:+ " " +:+ g) with (":export" +:+ " " +:+ f +:+ " " +:+ g). unfold command. rewrite Ht, Ha.
  destruct (two_words f g Hf Hg) as (_ & Hw & _). unfold file_and_graph. rewrite Hw. done.
Qed.
Lemma command_import graph f g : argument f = true → argument g = true →
  command graph (":import " +:+ f +:+ " " +:+ g) = Import_ (Some (f, g)) ∧ pop_backslash (":import " +:+ f +:+ " " +:+ g) = None.
Proof.
  intros Hf Hg. destruct (command_words ":import" f g) as (Ht & Ha & Hp); [by vm_compute; repeat constructor|done..|]. split; [|exact Hp].
  change (":import " +:+ f +:+ " " +:+ g) with (":import" +:+ " " +:+ f +:+ " " +:+ g). unfold command. rewrite Ht, Ha.
  destruct (two_words f g Hf Hg) as (_ & Hw & _). unfold file_and_graph. rewrite Hw. done.
Qed.
Section copying.
Context `{Platform, ClientText, Requests W, FilesLaws F}.

(** A graph is copied through a file: after an export of one graph into a file and an import of that file
    into another, the server has done exactly the import, into the named graph, of the exported text, all
    its chunks in order, and nothing else, whatever the default graph of the session. *)
Theorem copy_through_file graph format (s : W) (fs fs' : F) f g h chunks :
  argument f = true → argument g = true → argument h = true →
  rq_export_graph s g = Ok chunks → file_write fs f (String.concat EmptyString chunks) = (fs', Ok tt) →
  ∃ out, run graph format (s, fs) [Line (":export " +:+ f +:+ " " +:+ g); Line (":import " +:+ f +:+ " " +:+ h)]
    = Some ((rq_import_graph s h (String.concat EmptyString chunks)).1, fs', out).
Proof.
  intros Hf Hg Hh He Hw. destruct (command_export graph f g Hf Hg) as [Hx Hxp]. destruct (command_import graph f h Hf Hh) as [Hi Hip].
  assert (∀ input more, pop_backslash input = None → read_input input more = (input, more)) as Hr by (intros input [|] E; cbn [read_input]; by rewrite E).
  unfold run. cbn [session length]. rewrite Hr, Hx by done. cbn [run_command]. unfold run_export. rewrite He, Hw. rewrite Hr, Hi by done. cbn [run_command]. unfold run_import.
  rewrite (file_read_written _ _ _ _ Hw). destruct (rq_import_graph s h _) as [s' r]. eexists. done.
Qed.
End copying.

(** ** Samples *)
Section samples.
#[local] Instance dev_platform : Platform := build true.
#[local] Instance plain_text : ClientText := {| one_decimal f := f64_fmt f; json_rows_text rows := Some (String.concat "," (rows ≫= λ row, (λ kv, kv.1 +:+ ":" +:+ kv.2) <$> row)) |}.
(** A server that keeps a text for each graph, and files that can always be written *)
#[local] Instance texts : Requests (gmap string string) := {|
  rq_health _ := Ok ("ok"%string, "0.1.0"%string, 5);
  rq_list_graphs s := Ok ((λ kv, (kv.1, kv.1)) <$> map_to_list s);
  rq_create_backup s _ := (s, Err "no backups"%string);
  rq_list_backups _ := Ok [];
  rq_delete_backup s name := (s, Ok (true, name));
  rq_export_graph s g := match s !! g with Some t => Ok ["--"%string; t] | None => Err "no graph"%string end;
  rq_import_graph s g data := (<[g := data]> s, Ok (mkImportResponse 1 None));
  rq_execute_query s req := (s, Ok (mkResponse ["n"; "__id"; "age"]%string [[StringValue "a,b"; IntegerValue 1; IntegerValue 30]] None None))
|}.
#[local] Instance disk : Files (gmap string string) := {|
  file_write fs p data := (<[p := data]> fs, Ok tt);
  file_read fs p := match fs !! p with Some data => Ok data | None => Err "no such file"%string end
|}.
#[local] Instance disk_laws : FilesLaws (gmap string string).
Proof. intros fs fs' p data [= <-]. cbn. by rewrite lookup_insert_eq. Qed.
Definition sample_texts : gmap string string := {[ "social"%string := "INSERT (a)"%string ]}.
Lemma copy_through_file_witness : ∃ out,
  run "default" Table (sample_texts, ∅ : gmap string string) [Line ":export /tmp/social.gql social"; Line ":import /tmp/social.gql copy"]
    = Some (<[ "copy"%string := "--INSERT (a)"%string ]> sample_texts, {[ "/tmp/social.gql"%string := "--INSERT (a)"%string ]}, out).
Proof.
  exact (copy_through_file "default" Table sample_texts ∅ {[ "/tmp/social.gql"%string := "--INSERT (a)"%string ]} "/tmp/social.gql" "social" "copy"
    ["--"; "INSERT (a)"]%string eq_refl eq_refl eq_refl eq_refl eq_refl).
Defined.
Lemma table_aligned_witness :
  Forall one_byte ["n"; "__id"; "age"]%string ∧ (∃ n, Forall (λ l, str_len l = n) (print_table ["n"; "__id"; "age"]%string [[StringValue "a,b"; IntegerValue 1; IntegerValue 30]])).
Proof.
  assert (Forall one_byte ["n"; "__id"; "age"]%string) as Hc by (repeat constructor).
  split; [exact Hc|]. refine (proj1 (table_aligned ["n"; "__id"; "age"]%string [[StringValue "a,b"; IntegerValue 1; IntegerValue 30]] Hc _)).
  intros row v ->%list_elem_of_singleton Hv. rewrite !elem_of_cons in Hv. by destruct Hv as [->|[->|[->|?%elem_of_nil]]].
Defined.
(** The same lines of CSV are printed for one string with quotes and a comma in it and for two strings, and
    for one column of such a name and for two; JSON keeps the last of the columns of one name; a
    continuation that is interrupted still runs what was typed. *)
Example csv_not_escaped :
  print_csv ["x"]%string [[StringValue ("a" +:+ double_quote +:+ "," +:+ double_quote +:+ "b")]] = print_csv ["x"]%string [[StringValue "a"; StringValue "b"]] ∧
  print_csv ["a,b"]%string [] = print_csv ["a"; "b"]%string [].
Proof. by vm_compute. Qed.
Example json_keeps_last_column : json_row ["n"; "n"]%string 0 [IntegerValue 1; IntegerValue 2] [] = [("n", "2")]%string.
Proof. by vm_compute. Qed.
Example sample_print : print_table ["n"; "__id"; "age"]%string [[StringValue "a,b"; IntegerValue 1; IntegerValue 30]] =
  ["+-----+-----+"; "| n   | age |"; "+-----+-----+"; "| a,b | 30  |"; "+-----+-----+"]%string.
Proof. by vm_compute. Qed.
Example sample_session : (λ r, r.2) <$> run "default" Csv (sample_texts, ∅ : gmap string string)
    [Line ":status "; Line ":graphs"; Line ":backup"; Line ("MATCH (n) " +:+ String backslash_char EmptyString); Interrupted; Line ":delete-backup"; Line ":exit"; Line ":help"] =
  Some [Stdout "Status: ok | Version: 0.1.0 | Uptime: 5s";
        Stdout "NAME                 ID"; Stdout "------------------------------------------------------------"; Stdout "social               social";
        Stderr "Error: no backups"; Stdout "n,__id,age"; Stdout (double_quote +:+ "a,b" +:+ double_quote +:+ ",1,30");
        Stderr "Usage: :delete-backup <name>"; Stdout "Goodbye!"]%string.
Proof. by vm_compute. Qed.
End samples.
